(* ===== verification/_CoqProject ===== *)
-Q . S2P
Prelude.v
Bitset.v
Model.v
Entries.v
LinkedList.v
LinkedEntries.v
Linearizability.v
CheckSingle.v
CheckSingleProof.v
CheckSingleSpec.v
HistorySpec.v
EventSpec.v
CheckParallel.v
Check.v
KvModel.v
Porcupine.v
Visualization.v
Layout.v
LayoutProof.v
LayoutInput.v
LayoutBreaks.v
Page.v
PageUi.v
PageDraw.v
PageProof.v
PageFits.v
PageTheorems.v
KvraftClerk.v
KvsrvClerk.v
KvClerks.v
Labrpc.v
LabrpcProof.v
LabrpcTheorems.v
Stats.v
Numbers.v
MapReduce.v
Coordinator.v
Commands.v
Jobs.v
JobsProof.v
Persister.v
Labgob.v
LabgobSession.v
RaftChecker.v
Mesh.v
RaftConfig.v
RaftTest.v
RaftApply.v
KvConfig.v
Store.v
KvServers.v
KvServersProof.v
ShardctrlerConfig.v
KvsrvConfig.v
ShardkvConfig.v
ShardkvProof.v
ShardkvTheorems.v
Durable.v
DurableProof.v
DurableTheorems.v
Clerks.v
ClerkTheorems.v
Servers.v
Programs.v
ProgramSpec.v
System.v
SystemProof.v
SystemLin.v
SystemRuns.v
SystemLive.v
KvSystem.v
KvLive.v
SystemDemo.v
SystemTheorems.v
Random.v
