(* ===== verification/Prelude.v ===== *)
(** * Verification of the 6.5840 lab code base

    The repository is a course on distributed systems: a linearizability checker, a simulated
    network, harnesses that run tests against Raft and key/value servers, clerks, a MapReduce
    runner, and skeletons of the servers that students write.  What is verified is the code that
    exists: the checker and the page that shows its result, the network, the harnesses, the
    clerks, MapReduce, the command line programs.
    Paths are below [src/src/].

    ** Parts of the program and files of this development

    The porcupine checker ([porcupine/]):
    - [Bitset]: [bitset.go], sets of numbers as lists of 64-bit words.
    - [Model]: [model.go], operations, events and models, whose optional function fields are
      options; [fillDefault].
    - [Entries], [LinkedList], [LinkedEntries]: the conversions at the start of [checker.go]
      and the doubly linked list as a heap of nodes with [lift] and [unlift].
    - [CheckSingle] is the search loop with its cache, stack and kill flag; [CheckSingleProof]
      is its invariant, [CheckSingleSpec] what it computes.  [Linearizability], [HistorySpec]
      and [EventSpec] are the specification, without reference to the code.
    - [CheckParallel], [Check]: the goroutines, the channel of results and the timeout as a
      transition system, and the functions that [porcupine.go] exports.
    - [KvModel]: [models/kv.go].  [Porcupine]: the theorems on all of these.
    - [Visualization]: [computeVisualizationData] of [visualization.go].
    - [Layout], [Page]: the script in the page of [visualization.go].  [Layout] is the first
      half of [render], up to the scan that gives timestamps their positions; [Page] is the
      drawing, the event handlers, [Visualize] and [VisualizePath].  [LayoutProof] states what
      the comment on the layout asks for and that the scan solves it optimally; [LayoutInput]
      that the data of a history are proper input; [LayoutBreaks] what happens otherwise.
      [PageUi] is an abstract machine with three modes that the handlers refine; [PageDraw],
      [PageProof], [PageFits] are about the picture; [PageTheorems] has the theorems.

    The network ([labrpc/], [labgob/]):
    - [Labrpc]: [labrpc.go].  The tables of the network are a record; [Call], [processReq] and
      the goroutines of handlers are a step relation [act] on a world with all calls that were
      ever made.  [LabrpcProof] is the invariant, [LabrpcTheorems] the theorems.
    - [Stats]: [begin], [op] and [end] of the harnesses, which report what the network counted.
    - [Labgob]: the checks that [labgob.go] adds to [encoding/gob], and where [reflect] panics in
      them.  [LabgobSession]: the exported functions with the registry of names of [gob], and
      whole sessions of their use.

    The harnesses:
    - [Persister]: [raft/persister.go] with the memory it shares with its clients.  It implements
      pairs of byte strings; the other files use such pairs.
    - [Mesh]: the ends between the servers of a test, common to the harnesses.
    - [RaftChecker], [RaftConfig], [RaftTest]: [raft/config.go], its checks, its servers and
      connections, and [make_config] and [cleanup].  [RaftApply]: all of it together, as the
      steps of a test in which instances deliver to the appliers, crash and restart.
    - [KvConfig], [Store], [KvServers], [KvServersProof]: [kvraft/config.go], its connections and
      clerks, the persisters and instances of its servers, and all its operations together.
    - [ShardctrlerConfig]: [shardctrler/config.go], which repeats [kvraft/config.go] up to
      [Leader].  [KvsrvConfig]: [kvsrv/config.go].
    - [ShardkvConfig], [ShardkvProof], [ShardkvTheorems]: [shardkv/config.go].
    - [Durable], [DurableProof], [DurableTheorems]: the network of [Labrpc] and the parts of
      [ShutdownServer] and [StartServer] of [KvServers], interleaved.

    Clients and servers:
    - [Clerks]: [shardctrler/client.go] and [shardkv/client.go].  [ClerkTheorems]: which calls
      they make and when they return, stated without their functions.
    - [Servers]: the skeletons [raft/raft.go] and [kvraft], [kvsrv], [shardctrler] and
      [shardkv/server.go]: what they do, what of them can be called, and what the checks and the
      clerks make of them.
    - [KvraftClerk], [KvsrvClerk]: the skeletons [kvraft/client.go] and [kvsrv/client.go];
      [KvClerks]: the log of their calls that the tests give to the checker.
    - [Programs]: the loops of [shardctrler/client.go] and [shardkv/client.go] again, as machines
      that stop at every remote call, and the proof that their runs are runs of [Clerks].  [ProgramSpec] says
      what the sequence of calls of an operation should look like.
    - [System]: any number of clients that run such machines over the network of [Labrpc], with
      the log that a test keeps; [SystemProof] is the invariant.  [SystemLin] is about the order
      in which handlers ran, [SystemRuns] about servers that implement a specification,
      [SystemLive] about operations that can be brought to their end; [KvLive] shows which servers
      allow that to the key/value clerks.
    - [KvSystem]: the clerks of the repository as such clients, with the ends that [makeClient] and
      [make_end] of [shardkv/config.go] give them.  [SystemDemo]: a scheduler that computes runs,
      a small server and some runs of it.  [SystemTheorems] has the theorems.
    - [Random]: [randstring], [makeSeed] and [random_handles], which the harnesses share.

    MapReduce and programs ([mr/], [mrapps/], [main/]):
    - [MapReduce]: [main/mrsequential.go], [ihash] and four applications of [mrapps/].
    - [Jobs], [JobsProof]: the applications [mtiming.go], [rtiming.go] and [jobcount.go], which
      leave files in a directory that all workers share, as a transition system; [crash.go].
    - [Coordinator]: the skeletons of [mr/], [mrcoordinator.go] and [mrworker.go], with the
      socket through which a coordinator is reached.
    - [Commands]: [diskvd.go] and the programs of the lock service and the view service.
    - [Numbers]: what the programs use of [strconv] and [fmt.Sscanf].

    ** How the parts interact

    The checker is generic in a model; [Model] holds what it asks of one, and [ModelLaws]
    (with [DescribeLaws] for the visualization) states the laws as a class, of which the
    key/value model is an instance.  Sorting is the class [GoSort]: some permutation that is
    sorted, as the documentation of [sort] promises.  The harnesses act on the network record of
    [Labrpc] through its operations ([MakeEnd], [Connect], [Enable], [AddServer],
    [DeleteServer]); what a call over an end then meets is [locate], the first decision of
    [processReq].  [Durable] lets handlers of [Labrpc] act on the persisters of [Store] while
    the test goes through [ShutdownServer] part by part.  Clerks use the network through the
    class [Rpc], or as a [Program] that [System] runs on the network of [Labrpc].  What servers
    promise to such clerks are the classes [Implements] (a reply that ends an operation is its
    effect on the state, other replies leave the state alone) and [Serving] (the next call can be made
    and its answer brings the operation closer to its end).  For the key/value clerks [KvLive] derives
    [Serving], by counting the calls that are left, from conditions on single answers ([answering]:
    one controller and one server of the right group answer as they should) and on the network
    ([reaches]).  The repository has no handlers, so the classes have instances for a small server
    ([SystemDemo.KvDemo]).  The log of the
    clients is the input of the checker.

    ** What the theorems show

    - The checker: [Ok] is returned exactly for linearizable histories, for operations and for
      events, in one partition or several; a positive verdict is never wrong whatever the
      goroutines do; the check ends; with the key/value model, checking by key is enough.
    - The network: a handler runs at most once per call and only its own reply is delivered;
      servers that were deleted are silent; reliable networks do not lose calls; every call can
      be brought to an end; the statistics are exact while they fit their integers; the servers
      answer exactly the calls of their handlers.
    - The harnesses: their tables stay consistent under every operation, and no operation with
      arguments in range panics, but for [Leader] and [make_partition] of [kvraft] when a server is
      shut down, and [make_partition] with one server ([tests_never_panic]); partitions connect exactly the servers of one side; a server
      that is shut down is cut off and keeps its persisted state, whatever its old instance
      does; a restart resumes with that state; at most one instance per server is alive; what a
      server persisted before a positive reply survives ([acknowledged_survives]); the appliers
      detect every disagreement and every gap, and a correct Raft whose killed instances deliver
      nothing any more never sets them off ([correct_raft_passes]).
    - The page: when every operation starts before the last timestamp, the layout is feasible
      and no feasible layout is smaller at any point, and everything that is drawn fits;
      an operation highlights the longest linearization that contains it; the handlers never
      throw, and always show what the mode of the page says; the link leads to the first
      visible error; all this holds for what [CheckOperationsVerbose] returns.
    - MapReduce: the sequential runner reduces every key once, with all its values, in order
      of the keys; a task of [mtiming.go] looks at exactly the live workers in its phase, and counts
      those that do not die before it has sent them a signal; a worker
      reaches exactly the last coordinator of its user.
    - Clients, network, servers and checker together: an operation returns with the reply of a
      handler that ran once, during the operation ([operation_effects]); if no reply is lost, the
      log of a test is linearizable ([lossless_linearizable]), and on a reliable network the
      checker accepts it ([reliable_test_passes]); a reply that is lost makes the clerk repeat the
      operation, and the checker then rejects the log ([lost_reply_repeats]), unless the servers
      notice; clerks make the calls they should, over any network ([clerks_over_network]); no client
      is ever stuck while it can reach the servers, they answer, and one controller and one server
      of the right group answer as they should ([clerk_can_finish]).
    - Names of ends are letters, digits, - and _, and equal only if 120 random bits are ([randstring_correct]), and every order
      of the shuffled handles comes from one sequence of choices ([random_handles_uniform]).
    - Clerks, persister and labgob: results, retries, round trips, independence of
      aliasing, completeness of the checks, and which uses of labgob panic; the checker rejects the logs of skeleton clerks.
    - Some theorems state errors of the code: where it panics or waits for ever.

    ** Conventions, fuel and bounds

    [None] is a panic or [log.Fatalf], unless a type of outcomes says which; in the script of
    the page it is a [TypeError].  Integers are [Z] or [N] with [wrap64] and [signed] where an overflow can be observed.  Recursion that the code
    bounds by a list or a counter is structural.  The search loop has fuel; the theorems say
    that for every history some amount is enough, and that every larger amount gives the same
    result.  Clerks are bounded by a number of rounds; the theorems say which rounds suffice.
    Goroutines are steps of a relation, one for each action that others can observe; a handler
    is one step, and locks are implied by that.  Random strings are parameters that are assumed to be fresh; [Random]
    says which random bits they have.  In [System] every client, call, handler and
    tick of the clock is a step.  Random numbers and the passage of time are choices of the step
    relation, or arguments.  In the script timestamps are in halves of their unit, so that
    averages are exact, and widths in an arbitrary fraction [px] of a pixel; a number that is
    [NaN] or [undefined] is [None].

    ** Not modelled

    - The wall clock: two-minute limits, durations and printing of results.
    - [encoding/gob], [reflect] and the file system: parameters, or descriptions of their values;
      of [gob] only the registry of names, of [reflect] the flags that make [Interface] panic.
    - Messages of a killed Raft instance that are on their way when the server is restarted: in
      [RaftApply] handing over and checking a message is one step.  An example there shows that
      such a message can end a test.
    - Of the page: the JSON encoding (a parameter), the style sheet, the static HTML with its
      legend, the axis, the client labels, scrolling, and the rounding of doubles.
    - The packages that [main/diskvd.go] and its neighbours call, which are not in the repository,
      and what these programs print.
    - The fields of the argument and reply types of [kvraft] and [kvsrv], which nothing uses.
    - [random_handles] of [shardkv/config.go], which nothing calls, and the killing of the
      controllers in its [cleanup].
    - Handlers of the services, detection of repeated requests, consensus: the servers of the
      repository are skeletons without them.  Theorems that need handlers take them as a
      parameter. *)

From stdpp Require Export prelude gmap strings list fin_maps.
From stdpp Require Export sorting.
From Stdlib Require Import ZArith Lia.

#[export] Set Warnings "-clear-no-such-hyp,-register-all".

(** ** Go integers

    An unsigned 64-bit word is an [N] below [2^64]; [wrap64] is the conversion
    [uint(x)] of a Go [int]. *)
Definition w64 : N := (2 ^ 64)%N.

Definition wrap64 (z : Z) : N := Z.to_N (z mod 2 ^ 64)%Z.

(** Signed arithmetic of width [w]: the result in two's complement. *)
Definition signed (w : Z) (z : Z) : Z := ((z + 2 ^ (w - 1)) mod 2 ^ w - 2 ^ (w - 1))%Z.

Lemma signed_small (w z : Z) :
  (0 < w)%Z -> (- 2 ^ (w - 1) <= z < 2 ^ (w - 1))%Z -> signed w z = z.
Proof.
  intros Hw Hz. unfold signed. rewrite Z.mod_small; [lia|].
  assert (2 ^ w = 2 * 2 ^ (w - 1))%Z by (rewrite <- Z.pow_succ_r by lia; f_equal; lia). lia.
Qed.

Lemma signed_add (w x y : Z) : (0 < w)%Z -> signed w (signed w x + y) = signed w (x + y).
Proof.
  intros Hw. unfold signed. f_equal.
  replace ((x + 2 ^ (w - 1)) mod 2 ^ w - 2 ^ (w - 1) + y + 2 ^ (w - 1))%Z
    with ((x + 2 ^ (w - 1)) mod 2 ^ w + y)%Z by lia.
  rewrite Zplus_mod_idemp_l. f_equal. lia.
Qed.

Lemma wrap64_small (z : Z) : (0 <= z < 2 ^ 64)%Z -> wrap64 z = Z.to_N z.
Proof. intros Hz. unfold wrap64. by rewrite Z.mod_small. Qed.

(** ** Go slices: an index out of range is a run-time panic ([None]). *)
Definition slice_get {A} (l : list A) (i : Z) : option A :=
  if decide (0 <= i)%Z then l !! Z.to_nat i else None.

Definition slice_set {A} (l : list A) (i : Z) (x : A) : option (list A) :=
  if decide (0 <= i < Z.of_nat (length l))%Z
  then Some (<[Z.to_nat i := x]> l) else None.

Declare Scope go_scope.
Delimit Scope go_scope with go.
Notation "l .[ i ]" := (slice_get l i) (at level 1, left associativity) : go_scope.
Notation "l .[ i := x ]" := (slice_set l i x) (at level 1, left associativity) : go_scope.
Open Scope go_scope.

Lemma slice_get_nat {A} (l : list A) (i : nat) :
  slice_get l (Z.of_nat i) = l !! i.
Proof. unfold slice_get. rewrite decide_True by lia. by rewrite Nat2Z.id. Qed.

Lemma slice_set_nat {A} (l : list A) (i : nat) x :
  i < length l -> slice_set l (Z.of_nat i) x = Some (<[i := x]> l).
Proof.
  intros Hi. unfold slice_set. rewrite decide_True by lia. by rewrite Nat2Z.id.
Qed.

(** Reading and writing at an index that is known to be in range. *)
Create HintDb go.
Create Rewrite HintDb go.
#[export] Hint Rewrite @slice_get_nat : go.
#[export] Hint Rewrite @slice_set_nat using lia : go.

(** ** Runs that did not panic: take the successful steps of a bind apart. *)
Ltac inv_bind :=
  repeat match goal with
  | H : mbind _ _ = Some _ |- _ => apply bind_Some in H as (? & ? & ?)
  | H : (let '(_, _) := ?x in _) = Some _ |- _ => destruct x
  | H : Some _ = Some _ |- _ => injection H as ?; subst
  end.

(** ** Lists *)

Lemma filter_fmap {A B} (f : A -> B) (P : B -> Prop) `{!forall x, Decision (P x)}
    (l : list A) :
  filter P (f <$> l) = f <$> filter (λ x, P (f x)) l.
Proof.
  induction l as [|x l IH]; [done|]. rewrite fmap_cons, !filter_cons, IH.
  by case_decide.
Qed.

Lemma filter_ext_in {A} (P Q : A -> Prop) `{!forall x, Decision (P x)}
    `{!forall x, Decision (Q x)} (l : list A) :
  (forall x, x ∈ l -> P x <-> Q x) -> filter P l = filter Q l.
Proof.
  induction l as [|x l IH]; intros HPQ; [done|]. rewrite !filter_cons.
  rewrite IH by (intros y Hy; apply HPQ; by right).
  specialize (HPQ x ltac:(left)). do 2 case_decide; naive_solver.
Qed.

(** ** [sort.Sort]

    The documented contract of the standard library's sort: it permutes the slice,
    and leaves it in ascending order when [Less] is a strict weak order.  It need
    not be stable, so every theorem about a caller holds for each function that
    meets the contract. *)
Definition strict_weak {A} (less : A -> A -> bool) : Prop :=
  (forall a, less a a = false) ∧
  (forall a b c, less a b = true -> less b c = true -> less a c = true) ∧
  (forall a b c, less a b = false -> less b c = false -> less a c = false).

(** What [sort.IsSorted] tests. *)
Definition is_sorted {A} (less : A -> A -> bool) (l : list A) : Prop :=
  forall i a b, l !! i = Some a -> l !! S i = Some b -> less b a = false.

Class GoSort (sort : forall A : Type, (A -> A -> bool) -> list A -> list A) : Prop := {
  go_sort_perm : forall A less (l : list A), sort A less l ≡ₚ l;
  go_sort_sorted : forall A less (l : list A),
    strict_weak less -> is_sorted less (sort A less l)
}.

Definition not_after {A} (less : A -> A -> bool) (a b : A) : Prop := less b a = false.

Lemma is_sorted_strongly {A} (less : A -> A -> bool) (l : list A) :
  strict_weak less -> is_sorted less l -> StronglySorted (not_after less) l.
Proof.
  intros (_ & _ & Htr). induction l as [|a l IH]; intros Hs; [constructor|].
  assert (Hl : StronglySorted (not_after less) l).
  { apply IH. intros i x y Hx Hy. by apply (Hs (S i)). }
  constructor; [done|]. destruct l as [|b l]; [constructor|].
  assert (Hab : not_after less a b) by (by apply (Hs 0)).
  constructor; [done|]. apply StronglySorted_inv in Hl as [_ Hb].
  eapply Forall_impl; [exact Hb|]. intros c Hc. by apply Htr with b.
Qed.

Lemma strongly_is_sorted {A} (less : A -> A -> bool) (l : list A) :
  StronglySorted (not_after less) l -> is_sorted less l.
Proof.
  intros Hs i a b Ha Hb. revert i Ha Hb.
  induction Hs as [|x l Hs IH Hx]; intros [|i] Ha Hb; simplify_eq/=.
  - rewrite Forall_forall in Hx. apply Hx. by eapply list_elem_of_lookup_2.
  - by eapply IH.
Qed.

(** Insertion sort: the algorithm of [sort.Sort] on short slices. *)
Fixpoint insert_sorted {A} (less : A -> A -> bool) (x : A) (l : list A) : list A :=
  match l with
  | [] => [x]
  | y :: l' => if less x y then x :: l else y :: insert_sorted less x l'
  end.

Definition insertion_sort (A : Type) (less : A -> A -> bool) (l : list A) : list A :=
  foldl (λ acc x, insert_sorted less x acc) [] l.

Lemma insert_sorted_perm {A} (less : A -> A -> bool) x l :
  insert_sorted less x l ≡ₚ x :: l.
Proof.
  induction l as [|y l IH]; simpl; [done|]. case_match; [done|].
  rewrite IH. apply Permutation_swap.
Qed.

Lemma strict_weak_asym {A} (less : A -> A -> bool) a b :
  strict_weak less -> less a b = true -> less b a = false.
Proof.
  intros (Hir & Htr & _) Hab. destruct (less b a) eqn:Hba; [|done].
  pose proof (Htr _ _ _ Hab Hba) as Haa. by rewrite Hir in Haa.
Qed.

Lemma insert_sorted_sorted {A} (less : A -> A -> bool) x l :
  strict_weak less -> StronglySorted (not_after less) l ->
  StronglySorted (not_after less) (insert_sorted less x l).
Proof.
  intros Hsw. induction 1 as [|y l Hs IH Hy]; simpl; [by repeat constructor|].
  destruct (less x y) eqn:Hxy.
  - constructor; [by constructor|]. pose proof (strict_weak_asym _ _ _ Hsw Hxy).
    constructor; [done|]. eapply Forall_impl; [exact Hy|]. intros z Hz.
    destruct Hsw as (_ & _ & Htr). by apply Htr with y.
  - constructor; [done|]. rewrite insert_sorted_perm. by constructor.
Qed.

#[export] Instance insertion_sort_GoSort : GoSort insertion_sort.
Proof.
  split.
  - intros A less l. unfold insertion_sort.
    cut (forall acc, foldl (λ acc x, insert_sorted less x acc) acc l ≡ₚ acc ++ l).
    { intros E. apply E. }
    induction l as [|x l IH]; intros acc; simpl; [by rewrite app_nil_r|].
    rewrite IH, insert_sorted_perm. apply Permutation_middle.
  - intros A less l Hsw. apply strongly_is_sorted. unfold insertion_sort.
    cut (forall acc, StronglySorted (not_after less) acc ->
      StronglySorted (not_after less) (foldl (λ acc x, insert_sorted less x acc) acc l)).
    { intros E. apply E. constructor. }
    induction l as [|x l IH]; intros acc Hacc; simpl; [done|].
    apply IH. by apply insert_sorted_sorted.
Qed.

(** ** Order of occurrence in a list *)

(** [x] occurs before [y] in [l]. *)
Definition before {A} (l : list A) (x y : A) : Prop := [x; y] `sublist_of` l.

Lemma before_split {A} (l : list A) x y :
  before l x y <-> ∃ l1 l2 l3, l = l1 ++ x :: l2 ++ y :: l3.
Proof.
  split.
  - unfold before. rewrite sublist_cons_l. intros (l1 & k & -> & Hk).
    rewrite sublist_cons_l in Hk. destruct Hk as (l2 & l3 & -> & _). by exists l1, l2, l3.
  - intros (l1 & l2 & l3 & ->). unfold before. apply sublist_inserts_l, sublist_skip.
    apply sublist_inserts_l, sublist_skip, sublist_nil_l.
Qed.

Lemma before_lookup {A} (l : list A) x y :
  before l x y <-> ∃ i j, i < j ∧ l !! i = Some x ∧ l !! j = Some y.
Proof.
  rewrite before_split. split.
  - intros (l1 & l2 & l3 & ->). exists (length l1), (length l1 + S (length l2)).
    split; [lia|]. split; [by apply list_lookup_middle|].
    rewrite lookup_app_r by lia.
    replace (length l1 + S (length l2) - length l1) with (S (length l2)) by lia.
    simpl. by apply list_lookup_middle.
  - intros (i & j & Hij & Hx & Hy). apply list_elem_of_split_length in Hx
      as (l1 & l2 & -> & ->).
    rewrite lookup_app_r in Hy by lia. destruct (j - length l1) as [|k] eqn:Ek; [lia|].
    simpl in Hy. apply list_elem_of_split_length in Hy as (l3 & l4 & -> & _). eauto.
Qed.

Lemma before_elem_of {A} (l : list A) x y : before l x y -> x ∈ l ∧ y ∈ l.
Proof. rewrite before_split. intros (l1 & l2 & l3 & ->). set_solver. Qed.

Lemma before_l {A} (l : list A) x y : before l x y -> x ∈ l.
Proof. by intros [? _]%before_elem_of. Qed.

Lemma before_r {A} (l : list A) x y : before l x y -> y ∈ l.
Proof. by intros [_ ?]%before_elem_of. Qed.

#[export] Hint Resolve before_l before_r list_elem_of_lookup_2 : go.

Lemma before_sublist {A} (l k : list A) x y :
  before l x y -> l `sublist_of` k -> before k x y.
Proof. unfold before. intros. by etrans. Qed.

Lemma before_filter {A} (P : A -> Prop) `{!forall x, Decision (P x)} (l : list A) x y :
  P x -> P y -> before l x y -> before (filter P l) x y.
Proof.
  rewrite !before_split. intros Hx Hy (l1 & l2 & l3 & ->).
  exists (filter P l1), (filter P l2), (filter P l3).
  by rewrite filter_app, filter_cons_True, filter_app, filter_cons_True.
Qed.

Lemma before_asym {A} (l : list A) x y : NoDup l -> before l x y -> before l y x -> False.
Proof.
  rewrite !before_lookup. intros Hnd (i & j & Hij & Hx & Hy) (i' & j' & Hij' & Hy' & Hx').
  assert (i = j') by (by eapply NoDup_lookup).
  assert (j = i') by (by eapply NoDup_lookup). lia.
Qed.

Lemma before_total {A} (l : list A) x y :
  x ∈ l -> y ∈ l -> x ≠ y -> before l x y ∨ before l y x.
Proof.
  intros [i Hx]%list_elem_of_lookup [j Hy]%list_elem_of_lookup Hne.
  rewrite !before_lookup. destruct (Nat.lt_trichotomy i j) as [?|[->|?]].
  - left. by exists i, j.
  - by simplify_eq.
  - right. by exists j, i.
Qed.

Lemma before_fmap {A B} (f : A -> B) (l : list A) x y :
  before l x y -> before (f <$> l) (f x) (f y).
Proof.
  rewrite !before_split. intros (l1 & l2 & l3 & ->).
  exists (f <$> l1), (f <$> l2), (f <$> l3). by rewrite fmap_app, fmap_cons, fmap_app.
Qed.

Lemma StronglySorted_before {A} (R : relation A) (l : list A) x y :
  StronglySorted R l -> before l x y -> R x y.
Proof.
  rewrite before_split. intros Hs (l1 & l2 & l3 & ->).
  induction l1 as [|z l1 IH]; simpl in Hs; apply StronglySorted_inv in Hs as [Hs Hz].
  - rewrite Forall_forall in Hz. apply Hz. set_solver.
  - by apply IH.
Qed.

Lemma ForallOrdPairs_impl_in {A} (R S : A -> A -> Prop) (l : list A) :
  ForallOrdPairs R l -> (forall a b, a ∈ l -> b ∈ l -> R a b -> S a b) ->
  ForallOrdPairs S l.
Proof.
  induction 1 as [|x l Hx Hl IH]; intros HRS; constructor.
  - rewrite Forall_forall in *. intros y Hy. apply HRS; [left|by right|auto].
  - apply IH. intros a b Ha Hb. apply HRS; by right.
Qed.

Lemma filter_all {A} (P : A -> Prop) `{!forall x, Decision (P x)} (l : list A) :
  (forall x, x ∈ l -> P x) -> filter P l = l.
Proof.
  induction l as [|x l IH]; intros HP; [done|].
  rewrite filter_cons_True by (apply HP; left). f_equal. apply IH.
  intros y Hy. apply HP. by right.
Qed.

Lemma NoDup_split_unique {T} (A A' B B' : list T) x :
  NoDup (A ++ x :: B) -> A ++ x :: B = A' ++ x :: B' -> A = A' ∧ B = B'.
Proof.
  revert A'. induction A as [|a A IH]; intros [|a' A'] Hnd Heq; simplify_eq/=; [done|..].
  - apply NoDup_cons in Hnd as [Hx _]. exfalso. apply Hx. set_solver.
  - apply NoDup_cons in Hnd as [Hx _]. exfalso. apply Hx. set_solver.
  - apply NoDup_cons in Hnd as [_ Hnd]. destruct (IH A' Hnd) as [-> ->]; done.
Qed.

(** What is left when two elements are taken out. *)
Lemma remove_pair_filter {T} `{!EqDecision T} (A : list T) e B r C :
  NoDup (A ++ e :: B ++ r :: C) ->
  A ++ B ++ C = filter (λ p, p ≠ e ∧ p ≠ r) (A ++ e :: B ++ r :: C).
Proof.
  intros Hnd. rewrite filter_app, filter_cons_False, filter_app, filter_cons_False
    by naive_solver.
  apply NoDup_app in Hnd as (_ & HA & Hnd). apply NoDup_cons in Hnd as [He Hnd].
  apply NoDup_app in Hnd as (_ & HB & Hnd). apply NoDup_cons in Hnd as [HC _].
  f_equal; [|f_equal]; symmetry; apply filter_all; intros p Hp; set_solver.
Qed.

Lemma remove_pair_elem {T} `{!EqDecision T} (A : list T) e B r C x :
  NoDup (A ++ e :: B ++ r :: C) ->
  x ∈ A ++ B ++ C <-> x ∈ A ++ e :: B ++ r :: C ∧ x ≠ e ∧ x ≠ r.
Proof.
  intros Hnd. rewrite (remove_pair_filter A e B r C Hnd), list_elem_of_filter. tauto.
Qed.

Lemma remove_pair_before {T} `{!EqDecision T} (A : list T) e B r C x y :
  NoDup (A ++ e :: B ++ r :: C) -> x ∈ A ++ B ++ C -> y ∈ A ++ B ++ C ->
  before (A ++ B ++ C) x y <-> before (A ++ e :: B ++ r :: C) x y.
Proof.
  intros Hnd Hx Hy. apply (remove_pair_elem A e B r C x Hnd) in Hx.
  apply (remove_pair_elem A e B r C y Hnd) in Hy. split.
  - intros Hb. eapply before_sublist; [exact Hb|].
    apply sublist_app; [done|]. apply sublist_cons, sublist_app; [done|].
    by apply sublist_cons.
  - intros Hb. rewrite (remove_pair_filter A e B r C Hnd). apply before_filter; tauto.
Qed.

Lemma ForallOrdPairs_fmap {A B} (f : A -> B) (R : B -> B -> Prop) (l : list A) :
  ForallOrdPairs R (f <$> l) <-> ForallOrdPairs (λ a b, R (f a) (f b)) l.
Proof.
  induction l as [|x l IH]; [split; constructor|]. split.
  - intros Hl. inversion Hl as [|? ? Hx Hl']; subst. constructor; [|by apply IH].
    rewrite Forall_fmap in Hx. exact Hx.
  - intros Hl. inversion Hl as [|? ? Hx Hl']; subst. constructor; [|by apply IH].
    apply Forall_fmap. exact Hx.
Qed.

(** ** Lists with distinct keys *)

Lemma filter_key_unique {A K} `{!EqDecision K} (key : A -> K) (l : list A) (k : K) (x : A) :
  NoDup (key <$> l) -> x ∈ l -> key x = k -> filter (λ y, key y = k) l = [x].
Proof.
  intros Hnd Hx <-. apply list_elem_of_split in Hx as (l1 & l2 & ->).
  rewrite fmap_app, fmap_cons in Hnd. apply NoDup_app in Hnd as (_ & H1 & Hnd).
  apply NoDup_cons in Hnd as [H2 _].
  rewrite filter_app, filter_cons_True by done.
  assert (Hnone : forall l : list A, key x ∉ key <$> l -> filter (λ y, key y = key x) l = []).
  { intros l Hl. destruct (filter _ l) as [|y ys] eqn:E; [done|].
    assert (Hy : y ∈ filter (λ y, key y = key x) l) by (rewrite E; left).
    apply list_elem_of_filter in Hy as [Hk Hy]. destruct Hl.
    rewrite <- Hk. by apply list_elem_of_fmap_2. }
  rewrite !Hnone; [done|done|]. intros Hin. apply (H1 _ Hin). left.
Qed.

Lemma key_inj {A K} (key : A -> K) (l : list A) x y :
  NoDup (key <$> l) -> x ∈ l -> y ∈ l -> key x = key y -> x = y.
Proof.
  intros Hnd [i Hi]%list_elem_of_lookup [j Hj]%list_elem_of_lookup Hk.
  assert (i = j) as ->; [|congruence].
  eapply NoDup_lookup; [exact Hnd|by rewrite list_lookup_fmap, Hi|].
  rewrite list_lookup_fmap, Hj. simpl. by rewrite Hk.
Qed.

(** ** The order of Go strings: bytewise, as [<] compares them *)

Lemma ltb_leb s t : String.ltb s t = negb (String.leb t s).
Proof.
  unfold String.ltb, String.leb. rewrite (String.compare_antisym t s).
  by destruct (String.compare s t).
Qed.

Lemma ltb_false s t : String.ltb s t = false <-> String.le t s.
Proof. rewrite ltb_leb, negb_false_iff. unfold String.le. by rewrite Is_true_true. Qed.

Lemma ltb_strict_weak : strict_weak String.ltb.
Proof.
  split_and!.
  - intros a. by apply ltb_false.
  - intros a b c. rewrite !ltb_leb, !negb_true_iff, <- !not_true_iff_false.
    intros Hba Hcb Hca. apply Hba. apply Is_true_true.
    destruct (String.leb_total b c) as [Hbc|?]; [|done].
    transitivity c; [|by apply Is_true_true]. by apply Is_true_true.
  - intros a b c. rewrite !ltb_false. intros Hba Hcb. by transitivity b.
Qed.

(** Sorting strings gives the same result whatever the order they come in. *)
Lemma sort_strings_unique (sort : forall A, (A -> A -> bool) -> list A -> list A)
    `{!GoSort sort} (l l' : list string) :
  l ≡ₚ l' -> sort string String.ltb l = sort string String.ltb l'.
Proof.
  intros Hp.
  assert (Hs : forall k, StronglySorted String.le (sort string String.ltb k)).
  { intros k. assert (Hk : StronglySorted (not_after String.ltb) (sort string String.ltb k)).
    { apply is_sorted_strongly; [apply ltb_strict_weak|].
      apply go_sort_sorted, ltb_strict_weak. }
    revert Hk. generalize (sort string String.ltb k). clear. induction 1; constructor; [done|].
    eapply Forall_impl; [eassumption|]. intros x. apply ltb_false. }
  apply (StronglySorted_unique String.le); [apply Hs..|].
  by rewrite !go_sort_perm.
Qed.

(** ** Strings *)

Lemma append_cons c a b : String c a +:+ b = String c (a +:+ b).
Proof. done. Qed.

Lemma append_empty_r s : s +:+ "" = s.
Proof. induction s as [|c s IH]; [done|]. by rewrite append_cons, IH. Qed.
