(* ===== verification/Bitset.v ===== *)
(** * [porcupine/bitset.go]

    A bit set is a slice of 64-bit words. *)
From S2P Require Import Prelude.

Module Bitset.

Local Open Scope N_scope.

Abbreviation bitset := (list N).

(** [1 << minor] on a [uint64]. *)
Definition shl64 (x n : N) : N := N.shiftl x n mod w64.

Definition newBitset (bits : N) : bitset :=
  let extra := if decide (bits mod 64 = 0) then 0 else 1 in
  let chunks := bits / 64 + extra in
  replicate (N.to_nat chunks) 0.

Definition clone (b : bitset) : bitset :=
  let dataCopy := replicate (length b) 0 in
  take (length dataCopy) b ++ drop (length b) dataCopy.

Definition bitsetIndex (pos : N) : nat * N := (N.to_nat (pos / 64), pos mod 64).

Definition set (b : bitset) (pos : N) : option bitset :=
  let '(major, minor) := bitsetIndex pos in
  w ← b !! major; Some (<[major := N.lor w (shl64 1 minor)]> b).

Definition clear (b : bitset) (pos : N) : option bitset :=
  let '(major, minor) := bitsetIndex pos in
  w ← b !! major; Some (<[major := N.ldiff w (shl64 1 minor)]> b).

Definition get (b : bitset) (pos : N) : option bool :=
  let '(major, minor) := bitsetIndex pos in
  w ← b !! major; Some (negb (N.land w (shl64 1 minor) =? 0)).

(** [bits.OnesCount64]. *)
Fixpoint pos_ones (p : positive) : N :=
  match p with
  | xH => 1
  | xO q => pos_ones q
  | xI q => 1 + pos_ones q
  end.

Definition OnesCount64 (w : N) : N :=
  match w with N0 => 0 | Npos p => pos_ones p end.

Definition popcnt (b : bitset) : N :=
  foldl (λ total v, total + OnesCount64 v) 0 b.

Definition hash (b : bitset) : N :=
  foldl N.lxor (popcnt b mod w64) b.

Fixpoint equals_loop (b b2 : bitset) : bool :=
  match b, b2 with
  | w :: b', w2 :: b2' => if decide (w = w2) then equals_loop b' b2' else false
  | _, _ => true
  end.

Definition equals (b b2 : bitset) : bool :=
  if decide (length b = length b2) then equals_loop b b2 else false.

(** ** Representation invariant and abstraction *)

(** Every word fits in 64 bits. *)
Definition wf (b : bitset) : Prop := Forall (λ w, w < w64) b.

Definition capacity (b : bitset) : N := 64 * N.of_nat (length b).

(** The abstract value of a bit set: the finite set of its members. *)
Definition mem (b : bitset) : gset N :=
  list_to_set (filter (λ p, get b p = Some true)
    (N.of_nat <$> seq 0 (64 * length b))).

(** ** Word-level lemmas *)

Lemma shl64_1 (n : N) : n < 64 -> shl64 1 n = 2 ^ n.
Proof.
  intros Hn. unfold shl64. rewrite N.shiftl_1_l. apply N.mod_small.
  unfold w64. apply N.pow_lt_mono_r; lia.
Qed.

Lemma land_bit (w n : N) :
  n < 64 -> negb (N.land w (shl64 1 n) =? 0) = N.testbit w n.
Proof.
  intros Hn. rewrite (shl64_1 n Hn).
  destruct (N.testbit w n) eqn:Hw.
  - apply negb_true_iff, N.eqb_neq. intros H0.
    assert (Hb : N.testbit (N.land w (2 ^ n)) n = true).
    { by rewrite N.land_spec, Hw, N.pow2_bits_true. }
    rewrite H0 in Hb. by rewrite N.bits_0 in Hb.
  - apply negb_false_iff, N.eqb_eq, N.bits_inj. intros k.
    rewrite N.land_spec, N.bits_0, N.pow2_bits_eqb.
    destruct (N.eqb_spec n k) as [<-|]; [by rewrite Hw|]. apply andb_false_r.
Qed.

Lemma lor_bit (w n k : N) :
  n < 64 -> N.testbit (N.lor w (shl64 1 n)) k = (n =? k) || N.testbit w k.
Proof.
  intros Hn. rewrite (shl64_1 n Hn), N.lor_spec, N.pow2_bits_eqb. apply orb_comm.
Qed.

Lemma ldiff_bit (w n k : N) :
  n < 64 -> N.testbit (N.ldiff w (shl64 1 n)) k = negb (n =? k) && N.testbit w k.
Proof.
  intros Hn. rewrite (shl64_1 n Hn), N.ldiff_spec, N.pow2_bits_eqb.
  apply andb_comm.
Qed.

(** A number fits in 64 bits iff its bits from 64 on are zero. *)
Lemma lt_w64_bits (w : N) : w < w64 <-> forall k, 64 <= k -> N.testbit w k = false.
Proof.
  split.
  - intros Hw k Hk. destruct (decide (w = 0)) as [->|Hz]; [apply N.bits_0|].
    apply N.bits_above_log2.
    assert (N.log2 w < 64); [|lia]. apply N.log2_lt_pow2; [lia|exact Hw].
  - intros Hb. destruct (decide (w = 0)) as [->|Hz]; [done|].
    destruct (N.lt_ge_cases w w64) as [|Hge]; [done|exfalso].
    assert (Hl : 64 <= N.log2 w).
    { apply N.log2_le_pow2; [lia|exact Hge]. }
    pose proof (Hb _ Hl) as Hf. rewrite N.bit_log2 in Hf by done. discriminate.
Qed.

Lemma index_minor (pos : N) : pos mod 64 < 64.
Proof. apply N.mod_lt. lia. Qed.

Lemma get_testbit (b : bitset) (pos : N) :
  get b pos = (λ w, N.testbit w (pos mod 64)) <$> b !! N.to_nat (pos / 64).
Proof.
  unfold get, bitsetIndex. destruct (b !! N.to_nat (pos / 64)) as [w|] eqn:E; simpl.
  - by rewrite land_bit by apply index_minor.
  - done.
Qed.

(** Two positions share a word and a bit only when they are equal. *)
Lemma index_inj (p q : N) :
  N.to_nat (p / 64) = N.to_nat (q / 64) -> p mod 64 = q mod 64 -> p = q.
Proof.
  intros Hd Hm. rewrite (N.div_mod p 64), (N.div_mod q 64) by lia.
  rewrite Hm. f_equal. f_equal. lia.
Qed.

Lemma index_in_range (b : bitset) (pos : N) :
  is_Some (b !! N.to_nat (pos / 64)) <-> pos < capacity b.
Proof.
  rewrite lookup_lt_is_Some. unfold capacity.
  pose proof (N.div_mod pos 64 ltac:(lia)). pose proof (index_minor pos).
  generalize dependent (pos mod 64). generalize (pos / 64). intros d r Hp Hr.
  split; intros; nia.
Qed.

Lemma get_is_Some (b : bitset) (pos : N) : is_Some (get b pos) <-> pos < capacity b.
Proof. rewrite get_testbit, fmap_is_Some. apply index_in_range. Qed.

(** ** The operations in terms of [get] *)

Lemma set_get (b b' : bitset) (p q : N) :
  set b p = Some b' -> get b' q = if decide (p = q) then Some true else get b q.
Proof.
  unfold set, bitsetIndex. intros Hs.
  destruct (b !! N.to_nat (p / 64)) as [w|] eqn:E; [simpl in Hs|done].
  injection Hs as <-. rewrite !get_testbit.
  destruct (decide (N.to_nat (p / 64) = N.to_nat (q / 64))) as [Hd|Hd].
  - rewrite <- Hd, list_lookup_insert_eq, E by (by eapply lookup_lt_Some). simpl.
    rewrite lor_bit by apply index_minor.
    case_decide as Hpq; [by subst; rewrite N.eqb_refl|].
    destruct (N.eqb_spec (p mod 64) (q mod 64)) as [Hm|]; [|done].
    by destruct Hpq; apply index_inj.
  - rewrite list_lookup_insert_ne by done. rewrite decide_False by congruence. done.
Qed.

Lemma clear_get (b b' : bitset) (p q : N) :
  clear b p = Some b' -> get b' q = if decide (p = q) then Some false else get b q.
Proof.
  unfold clear, bitsetIndex. intros Hs.
  destruct (b !! N.to_nat (p / 64)) as [w|] eqn:E; [simpl in Hs|done].
  injection Hs as <-. rewrite !get_testbit.
  destruct (decide (N.to_nat (p / 64) = N.to_nat (q / 64))) as [Hd|Hd].
  - rewrite <- Hd, list_lookup_insert_eq, E by (by eapply lookup_lt_Some). simpl.
    rewrite ldiff_bit by apply index_minor.
    case_decide as Hpq; [by subst; rewrite N.eqb_refl|].
    destruct (N.eqb_spec (p mod 64) (q mod 64)) as [Hm|]; [|done].
    by destruct Hpq; apply index_inj.
  - rewrite list_lookup_insert_ne by done. rewrite decide_False by congruence. done.
Qed.

Lemma set_is_Some (b : bitset) (p : N) : is_Some (set b p) <-> p < capacity b.
Proof.
  rewrite <- index_in_range. unfold set, bitsetIndex.
  destruct (b !! N.to_nat (p / 64)); simpl; split; intros [? ?]; eauto; done.
Qed.

Lemma clear_is_Some (b : bitset) (p : N) : is_Some (clear b p) <-> p < capacity b.
Proof.
  rewrite <- index_in_range. unfold clear, bitsetIndex.
  destruct (b !! N.to_nat (p / 64)); simpl; split; intros [? ?]; eauto; done.
Qed.

Lemma set_length (b b' : bitset) (p : N) : set b p = Some b' -> length b' = length b.
Proof.
  unfold set, bitsetIndex. intros Hs. destruct (b !! _); [|done].
  injection Hs as <-. apply length_insert.
Qed.

Lemma clear_length (b b' : bitset) (p : N) : clear b p = Some b' -> length b' = length b.
Proof.
  unfold clear, bitsetIndex. intros Hs. destruct (b !! _); [|done].
  injection Hs as <-. apply length_insert.
Qed.

Lemma set_wf (b b' : bitset) (p : N) : wf b -> set b p = Some b' -> wf b'.
Proof.
  unfold wf, set, bitsetIndex. intros Hwf Hs.
  destruct (b !! N.to_nat (p / 64)) as [w|] eqn:E; [|done]. injection Hs as <-.
  apply Forall_insert; [done|]. apply lt_w64_bits. intros k Hk.
  rewrite lor_bit by apply index_minor. pose proof (index_minor p).
  rewrite (proj1 (lt_w64_bits w) (Forall_lookup_1 _ _ _ _ Hwf E) k Hk).
  rewrite orb_false_r. apply N.eqb_neq. lia.
Qed.

Lemma clear_wf (b b' : bitset) (p : N) : wf b -> clear b p = Some b' -> wf b'.
Proof.
  unfold wf, clear, bitsetIndex. intros Hwf Hs.
  destruct (b !! N.to_nat (p / 64)) as [w|] eqn:E; [|done]. injection Hs as <-.
  apply Forall_insert; [done|]. apply lt_w64_bits. intros k Hk.
  rewrite ldiff_bit by apply index_minor.
  rewrite (proj1 (lt_w64_bits w) (Forall_lookup_1 _ _ _ _ Hwf E) k Hk).
  apply andb_false_r.
Qed.

Lemma clone_eq (b : bitset) : clone b = b.
Proof.
  unfold clone. rewrite length_replicate, firstn_all, drop_replicate, Nat.sub_diag.
  apply app_nil_r.
Qed.

Lemma new_wf (n : N) : wf (newBitset n).
Proof. apply Forall_replicate. done. Qed.

Lemma new_capacity (n : N) : n <= capacity (newBitset n).
Proof.
  unfold capacity, newBitset. rewrite length_replicate, N2Nat.id.
  pose proof (N.div_mod n 64 ltac:(lia)). pose proof (index_minor n).
  case_decide; lia.
Qed.

(** ** The abstract set *)

Lemma elem_of_mem (b : bitset) (p : N) : p ∈ mem b <-> get b p = Some true.
Proof.
  unfold mem. rewrite elem_of_list_to_set, list_elem_of_filter.
  split; [by intros [? _]|]. intros Hg. split; [done|].
  assert (Hc : p < capacity b) by (apply get_is_Some; rewrite Hg; eauto).
  apply list_elem_of_fmap. exists (N.to_nat p). split; [lia|].
  apply elem_of_seq. unfold capacity in Hc. lia.
Qed.

Lemma mem_new (n : N) : mem (newBitset n) = ∅.
Proof.
  apply set_eq. intros p. rewrite elem_of_mem, get_testbit.
  split; [|set_solver]. unfold newBitset.
  destruct (replicate _ _ !! _) as [w|] eqn:E; [|done].
  apply lookup_replicate in E as [-> _]. by intros [=].
Qed.

Lemma mem_set (b b' : bitset) (p : N) :
  set b p = Some b' -> mem b' = {[p]} ∪ mem b.
Proof.
  intros Hs. apply set_eq. intros q.
  rewrite elem_of_union, elem_of_singleton, !elem_of_mem, (set_get _ _ _ _ Hs).
  case_decide; naive_solver.
Qed.

Lemma mem_clear (b b' : bitset) (p : N) :
  clear b p = Some b' -> mem b' = mem b ∖ {[p]}.
Proof.
  intros Hs. apply set_eq. intros q.
  rewrite elem_of_difference, elem_of_singleton, !elem_of_mem, (clear_get _ _ _ _ Hs).
  case_decide; naive_solver.
Qed.

Lemma equals_loop_eq (b b2 : bitset) :
  length b = length b2 -> equals_loop b b2 = true <-> b = b2.
Proof.
  revert b2. induction b as [|w b IH]; intros [|w2 b2] Hl; simpl in *; try done.
  case_decide as Hw; [subst|].
  - rewrite IH by lia. naive_solver.
  - naive_solver.
Qed.

Lemma equals_eq (b b2 : bitset) : equals b b2 = true <-> b = b2.
Proof.
  unfold equals. case_decide as Hl; [by apply equals_loop_eq|].
  split; [done|]. by intros ->.
Qed.

(** Bit sets of one length with the same members are the same slice of words. *)
Lemma mem_inj (b b2 : bitset) :
  wf b -> wf b2 -> length b = length b2 -> mem b = mem b2 -> b = b2.
Proof.
  intros Hw Hw2 Hl Hm. apply list_eq. intros i.
  destruct (decide (i < length b)%nat) as [Hi|Hi].
  2: { by rewrite !lookup_ge_None_2 by lia. }
  destruct (lookup_lt_is_Some_2 b i Hi) as [w E].
  destruct (lookup_lt_is_Some_2 b2 i ltac:(lia)) as [w2 E2].
  rewrite E, E2. f_equal. apply N.bits_inj. intros k.
  destruct (N.lt_ge_cases k 64) as [Hk|Hk].
  2: { rewrite (proj1 (lt_w64_bits w) (Forall_lookup_1 _ _ _ _ Hw E) k Hk).
       by rewrite (proj1 (lt_w64_bits w2) (Forall_lookup_1 _ _ _ _ Hw2 E2) k Hk). }
  set (p := 64 * N.of_nat i + k).
  assert (Hd : N.to_nat (p / 64) = i).
  { unfold p. rewrite (N.mul_comm 64), N.div_add_l, (N.div_small k 64); lia. }
  assert (Hr : p mod 64 = k).
  { unfold p. rewrite N.add_comm, (N.mul_comm 64), N.Div0.mod_add.
    by apply N.mod_small. }
  assert (Hp : p ∈ mem b <-> p ∈ mem b2) by (by rewrite Hm).
  rewrite !elem_of_mem, !get_testbit, Hd, Hr, E, E2 in Hp. simpl in Hp.
  destruct (N.testbit w k), (N.testbit w2 k); naive_solver.
Qed.

(** ** Population count and hash *)

(** How many of the first [n] naturals satisfy [f]. *)
Definition count_upto (f : nat -> bool) (n : nat) : nat :=
  length (filter (λ i, f i = true) (seq 0 n)).

Lemma count_upto_app (f : nat -> bool) (m n : nat) :
  count_upto f (m + n) = (count_upto f m + count_upto (λ i, f (m + i)%nat) n)%nat.
Proof.
  unfold count_upto. rewrite seq_app, filter_app, length_app. f_equal. simpl.
  rewrite <- (Nat.add_0_r m) at 1. by rewrite <- fmap_add_seq, filter_fmap, length_fmap.
Qed.

Lemma count_upto_ext (f g : nat -> bool) (n : nat) :
  (forall i, (i < n)%nat -> f i = g i) -> count_upto f n = count_upto g n.
Proof.
  intros Hfg. unfold count_upto. f_equal. apply filter_ext_in.
  intros i Hi. rewrite elem_of_seq in Hi. rewrite Hfg by lia. done.
Qed.

(** Splitting off the lowest bit. *)
Lemma OnesCount64_double (w : N) (b : bool) :
  OnesCount64 (2 * w + N.b2n b) = N.b2n b + OnesCount64 w.
Proof. by destruct w, b. Qed.

Lemma OnesCount64_bits (n : nat) (w : N) :
  w < 2 ^ N.of_nat n ->
  N.of_nat (count_upto (λ i, N.testbit w (N.of_nat i)) n) = OnesCount64 w.
Proof.
  revert w. induction n as [|n IH]; intros w Hw.
  - assert (w = 0) as -> by (simpl in Hw; lia). done.
  - destruct (N.exists_div2 w) as (w' & b & ->).
    rewrite OnesCount64_double, (count_upto_app _ 1 n).
    rewrite (count_upto_ext (λ i, N.testbit (2 * w' + N.b2n b) (N.of_nat (1 + i)))
               (λ i, N.testbit w' (N.of_nat i))).
    2: { intros i _. replace (N.of_nat (1 + i)) with (N.succ (N.of_nat i)) by lia.
         apply N.testbit_succ_r. }
    rewrite Nat2N.inj_add, IH.
    2: { rewrite Nat2N.inj_succ, N.pow_succ_r' in Hw. destruct b; simpl in Hw; lia. }
    f_equal. unfold count_upto. simpl filter. unfold filter, list_filter; simpl.
    rewrite N.testbit_0_r. by destruct b.
Qed.

Lemma get_cons_low (w : N) (b : bitset) (i : nat) :
  (i < 64)%nat -> get (w :: b) (N.of_nat i) = Some (N.testbit w (N.of_nat i)).
Proof.
  intros Hi. rewrite get_testbit, N.div_small, N.mod_small by lia. done.
Qed.

Lemma get_cons_high (w : N) (b : bitset) (i : nat) :
  get (w :: b) (N.of_nat (64 + i)) = get b (N.of_nat i).
Proof.
  rewrite !get_testbit. replace (N.of_nat (64 + i)) with (1 * 64 + N.of_nat i) by lia.
  rewrite N.div_add_l, N.add_comm, N.Div0.mod_add by lia.
  by rewrite N2Nat.inj_add.
Qed.

Lemma size_mem (b : bitset) :
  size (mem b) =
  count_upto (λ i, bool_decide (get b (N.of_nat i) = Some true)) (64 * length b).
Proof.
  unfold mem. rewrite size_list_to_set.
  2: { apply NoDup_filter, NoDup_fmap_2; [apply _|]. apply NoDup_seq. }
  rewrite filter_fmap, length_fmap. unfold count_upto. f_equal.
  apply list_filter_iff. intros i. rewrite bool_decide_eq_true. done.
Qed.

Lemma popcnt_foldl (b : bitset) (a : N) :
  foldl (λ total v, total + OnesCount64 v) a b = a + popcnt b.
Proof.
  unfold popcnt. revert a. induction b as [|w b IH]; intros a; cbn [foldl]; [lia|].
  rewrite IH, (IH (0 + OnesCount64 w)). lia.
Qed.

Lemma popcnt_size (b : bitset) : wf b -> popcnt b = N.of_nat (size (mem b)).
Proof.
  rewrite size_mem. induction b as [|w b IH]; intros Hwf; [done|].
  apply Forall_cons in Hwf as [Hw Hwf].
  unfold popcnt. cbn [foldl]. rewrite popcnt_foldl, IH, N.add_0_l by done.
  replace (64 * length (w :: b))%nat with (64 + 64 * length b)%nat by (simpl; lia).
  rewrite count_upto_app, Nat2N.inj_add. f_equal.
  - rewrite <- (OnesCount64_bits 64) by exact Hw. f_equal.
    apply count_upto_ext. intros i Hi. rewrite get_cons_low by done.
    by destruct (N.testbit w (N.of_nat i)).
  - f_equal. apply count_upto_ext. intros i _. by rewrite get_cons_high.
Qed.

Lemma lxor_lt_w64 (a b : N) : a < w64 -> b < w64 -> N.lxor a b < w64.
Proof.
  rewrite !lt_w64_bits. intros Ha Hb k Hk. by rewrite N.lxor_spec, Ha, Hb.
Qed.

Lemma foldl_lxor_lt (b : bitset) (a : N) : a < w64 -> wf b -> foldl N.lxor a b < w64.
Proof.
  revert a. induction b as [|w b IH]; intros a Ha Hwf; simpl; [done|].
  apply Forall_cons in Hwf as [Hw Hwf]. apply IH; [|done]. by apply lxor_lt_w64.
Qed.

Lemma hash_lt_w64 (b : bitset) : wf b -> hash b < w64.
Proof. intros Hwf. apply foldl_lxor_lt; [|done]. by apply N.mod_lt. Qed.

End Bitset.
