(* ===== verification/Model.v ===== *)
(** * [porcupine/model.go], and [fillDefault] of [porcupine/checker.go]

    Histories (operations or events) and the sequential models they are checked
    against.  Go's [interface{}] is a type [V] with the value [nil] and the
    operator [==], which panics ([None]) on a dynamic type that cannot be
    compared.  A function of the model that panics returns [None]; a function
    field of the [Model] struct that may be [nil] is an [option]. *)
From S2P Require Import Prelude.

Class Iface (V : Type) := {
  iface_nil : V;
  iface_eq : V -> V -> option bool;
  (** the rendering of a value by the format verb [%v] *)
  iface_show : V -> string
}.

Section Model.
Context {V : Type}.

Record Operation := MkOperation {
  ClientId : Z;
  Input : V;
  Call : Z;
  Output : V;
  Return : Z
}.

Inductive EventKind := CallEvent | ReturnEvent.

#[global] Instance EventKind_eq_dec : EqDecision EventKind.
Proof. solve_decision. Defined.

Record Event := MkEvent {
  evClientId : Z;
  Kind : EventKind;
  Value : V;
  Id : Z
}.

Record Model := MkModel {
  Partition : option (list Operation -> option (list (list Operation)));
  PartitionEvent : option (list Event -> option (list (list Event)));
  Init : V;
  Step : V -> V -> V -> option (bool * V);
  Equal : option (V -> V -> option bool);
  DescribeOperation : option (V -> V -> option string);
  DescribeState : option (V -> option string)
}.

Definition NoPartition (history : list Operation) : option (list (list Operation)) :=
  Some [history].

Definition NoPartitionEvent (history : list Event) : option (list (list Event)) :=
  Some [history].

Context `{Iface V}.

Definition ShallowEqual (state1 state2 : V) : option bool := iface_eq state1 state2.

Definition DefaultDescribeOperation (input output : V) : option string :=
  Some (iface_show input +:+ " -> " +:+ iface_show output).

Definition DefaultDescribeState (state : V) : option string :=
  Some (iface_show state).

Definition or_default {A} (f : option A) (d : A) : option A :=
  match f with None => Some d | Some _ => f end.

Definition fillDefault (model : Model) : Model := {|
  Partition := or_default (Partition model) NoPartition;
  PartitionEvent := or_default (PartitionEvent model) NoPartitionEvent;
  Init := Init model;
  Step := Step model;
  Equal := or_default (Equal model) ShallowEqual;
  DescribeOperation := or_default (DescribeOperation model) DefaultDescribeOperation;
  DescribeState := or_default (DescribeState model) DefaultDescribeState
|}.

(** Calling a function field: a [nil] function panics. *)
Definition callEqual (model : Model) (s t : V) : option bool :=
  f ← Equal model; f s t.

Definition callPartition (model : Model) (history : list Operation) :
    option (list (list Operation)) :=
  match Partition model with None => None | Some f => f history end.

Definition callPartitionEvent (model : Model) (history : list Event) :
    option (list (list Event)) :=
  match PartitionEvent model with None => None | Some f => f history end.

End Model.

Arguments Operation V : clear implicits.
Arguments Event V : clear implicits.
Arguments Model V : clear implicits.

(** The three results of a check. *)
Inductive CheckResult := Unknown | Ok | Illegal.

#[global] Instance CheckResult_eq_dec : EqDecision CheckResult.
Proof. solve_decision. Defined.
