(* ===== verification/Entries.v ===== *)
(** * Entries of [porcupine/checker.go]

    A history becomes a list of call and return entries: [makeEntries] sorts the
    entries of timestamped operations, [renumber] and [convertEntries] prepare a
    list of events. *)
From S2P Require Import Prelude Model.

Inductive entryKind := callEntry | returnEntry.

#[global] Instance entryKind_eq_dec : EqDecision entryKind.
Proof. solve_decision. Defined.

Module Entry.
Section Entry.
Context {V : Type}.

Record entry := MkEntry {
  kind : entryKind;
  value : V;
  id : Z;
  time : Z;
  clientId : Z
}.

(** [byTime.Less] *)
Definition Less (a b : entry) : bool :=
  if decide (time a ≠ time b) then bool_decide (time a < time b)%Z
  else bool_decide (kind a = callEntry) && bool_decide (kind b = returnEntry).

Definition callOf (id : Z) (elem : Operation V) : entry :=
  MkEntry callEntry (Input elem) id (Call elem) (ClientId elem).
Definition returnOf (id : Z) (elem : Operation V) : entry :=
  MkEntry returnEntry (Output elem) id (Return elem) (ClientId elem).

(** The loop of [makeEntries]: two entries per operation, ids from [id] on. *)
Fixpoint collect (history : list (Operation V)) (id : Z) : list entry :=
  match history with
  | [] => []
  | elem :: rest => callOf id elem :: returnOf id elem :: collect rest (id + 1)
  end.

Definition makeEntries (sort : forall A, (A -> A -> bool) -> list A -> list A)
    (history : list (Operation V)) : list entry :=
  sort entry Less (collect history 0).

(** The loop of [renumber]: the events renumbered so far, the map from old to new
    ids, and the next new id. *)
Definition renumber_step (st : list (Event V) * gmap Z Z * Z) (v : Event V) :
    list (Event V) * gmap Z Z * Z :=
  let '(e, m, id) := st in
  match m !! Id v with
  | Some r => (e ++ [MkEvent (evClientId v) (Kind v) (Value v) r], m, id)
  | None => (e ++ [MkEvent (evClientId v) (Kind v) (Value v) id],
             <[Id v := id]> m, id + 1)%Z
  end.

Definition renumber (events : list (Event V)) : list (Event V) :=
  (foldl renumber_step ([], ∅, 0%Z) events).1.1.

Definition convertEntry (i : nat) (elem : Event V) : entry :=
  let kind := if decide (Kind elem = ReturnEvent) then returnEntry else callEntry in
  MkEntry kind (Value elem) (Id elem) (Z.of_nat i) (evClientId elem).

Definition convertEntries (events : list (Event V)) : list entry :=
  imap convertEntry events.

(** ** Well-formed entry lists

    [n] operations numbered from 0: each has one call entry and, after it, one
    return entry. *)
Definition key (e : entry) : entryKind * Z := (kind e, id e).

Record wf_entries (n : nat) (es : list entry) : Prop := {
  wf_length : length es = 2 * n;
  wf_keys : NoDup (key <$> es);
  wf_ids : forall e, e ∈ es -> (0 <= id e < Z.of_nat n)%Z;
  wf_pairs : forall k, (0 <= k < Z.of_nat n)%Z ->
    ∃ c r, before es c r ∧ key c = (callEntry, k) ∧ key r = (returnEntry, k)
}.

Lemma Less_spec a b :
  Less a b = true <->
  (time a < time b)%Z ∨ (time a = time b ∧ kind a = callEntry ∧ kind b = returnEntry).
Proof.
  unfold Less. case_decide as Ht; [rewrite bool_decide_eq_true; naive_solver lia|].
  assert (time a = time b) by lia.
  rewrite andb_true_iff, !bool_decide_eq_true. naive_solver lia.
Qed.

Lemma Less_false a b :
  Less a b = false <->
  (time b < time a)%Z ∨ (time a = time b ∧ (kind a = returnEntry ∨ kind b = callEntry)).
Proof.
  rewrite <- not_true_iff_false, Less_spec.
  destruct (Ztrichotomy (time a) (time b)) as [?|[?|?]], (kind a), (kind b);
    naive_solver lia.
Qed.

Lemma Less_strict_weak : strict_weak Less.
Proof.
  split_and!.
  - intros a. apply Less_false. destruct (kind a); naive_solver.
  - intros a b c. rewrite !Less_spec. destruct (kind b); naive_solver lia.
  - intros a b c. rewrite !Less_false. destruct (kind b); naive_solver lia.
Qed.

(** ** The entries of an operation history *)

Lemma elem_of_collect (h : list (Operation V)) i e :
  e ∈ collect h i <->
  ∃ k elem, h !! k = Some elem ∧
    (e = callOf (i + Z.of_nat k) elem ∨ e = returnOf (i + Z.of_nat k) elem).
Proof.
  revert i. induction h as [|o h IH]; intros i; simpl.
  - rewrite elem_of_nil. naive_solver.
  - rewrite !elem_of_cons, IH. split.
    + intros [->|[->|(k & elem & Hk & He)]].
      * exists 0, o. rewrite Z.add_0_r. auto.
      * exists 0, o. rewrite Z.add_0_r. auto.
      * exists (S k), elem. split; [done|].
        replace (i + Z.of_nat (S k))%Z with (i + 1 + Z.of_nat k)%Z by lia. done.
    + intros ([|k] & elem & Hk & He); simplify_eq/=.
      * rewrite Z.add_0_r in He. naive_solver.
      * right. right. exists k, elem. split; [done|].
        replace (i + 1 + Z.of_nat k)%Z with (i + Z.pos (Pos.of_succ_nat k))%Z by lia.
        done.
Qed.

Lemma collect_length (h : list (Operation V)) i : length (collect h i) = 2 * length h.
Proof. revert i. induction h as [|o h IH]; intros i; simpl; [done|]. rewrite IH. lia. Qed.

Lemma collect_ids (h : list (Operation V)) i e :
  e ∈ collect h i -> (i <= id e < i + Z.of_nat (length h))%Z.
Proof.
  rewrite elem_of_collect. intros (k & elem & Hk & He).
  apply lookup_lt_Some in Hk. destruct He as [-> | ->]; simpl; lia.
Qed.

Lemma collect_keys (h : list (Operation V)) i : NoDup (key <$> collect h i).
Proof.
  revert i. induction h as [|o h IH]; intros i; simpl; [constructor|].
  assert (Hi : forall kd, (kd, i) ∉ key <$> collect h (i + 1)).
  { intros kd (e & He & Hin)%list_elem_of_fmap. apply collect_ids in Hin.
    injection He as _ Hid. lia. }
  apply NoDup_cons. split; [|apply NoDup_cons; split; [apply Hi|apply IH]].
  rewrite elem_of_cons. intros [[=]|Hin]. by apply (Hi _ Hin).
Qed.

Section Sorted.
Context (sort : forall A, (A -> A -> bool) -> list A -> list A) `{!GoSort sort}.

Lemma makeEntries_perm h : makeEntries sort h ≡ₚ collect h 0.
Proof. apply go_sort_perm. Qed.

Lemma makeEntries_sorted h : StronglySorted (not_after Less) (makeEntries sort h).
Proof.
  apply is_sorted_strongly; [apply Less_strict_weak|].
  apply go_sort_sorted, Less_strict_weak.
Qed.

Lemma makeEntries_keys h : NoDup (key <$> makeEntries sort h).
Proof. rewrite makeEntries_perm. apply collect_keys. Qed.

(** [makeEntries] puts [a] before [b] when [Less a b]. *)
Lemma makeEntries_before_Less h a b :
  a ∈ makeEntries sort h -> b ∈ makeEntries sort h -> Less a b = true ->
  before (makeEntries sort h) a b.
Proof.
  intros Ha Hb Hab.
  destruct (before_total (makeEntries sort h) a b) as [|Hba]; [done..| |done|].
  - intros ->. destruct Less_strict_weak as [Hir _]. by rewrite Hir in Hab.
  - pose proof (StronglySorted_before _ _ _ _ (makeEntries_sorted h) Hba) as Hf.
    unfold not_after in Hf. by rewrite Hf in Hab.
Qed.

Lemma makeEntries_elem h k o :
  h !! k = Some o ->
  callOf (Z.of_nat k) o ∈ makeEntries sort h ∧
  returnOf (Z.of_nat k) o ∈ makeEntries sort h.
Proof.
  intros Hk. rewrite makeEntries_perm, !elem_of_collect. split; exists k, o; auto.
Qed.

(** An operation's call comes before its return. *)
Lemma makeEntries_call_return h k o :
  h !! k = Some o -> (Call o <= Return o)%Z ->
  before (makeEntries sort h) (callOf (Z.of_nat k) o) (returnOf (Z.of_nat k) o).
Proof.
  intros Hk Ho. destruct (makeEntries_elem h k o Hk). apply makeEntries_before_Less;
    [done..|]. apply Less_spec. simpl.
  destruct (decide (Call o < Return o)%Z); [by left|right]. split_and!; [lia|done..].
Qed.

(** The real-time order: [a] returns before [b] is called in the entries iff it
    does so strictly in the timestamps. *)
Lemma makeEntries_real_time h k a j b :
  h !! k = Some a -> h !! j = Some b ->
  before (makeEntries sort h) (returnOf (Z.of_nat k) a) (callOf (Z.of_nat j) b) <->
  (Return a < Call b)%Z.
Proof.
  intros Hk Hj. destruct (makeEntries_elem h k a Hk), (makeEntries_elem h j b Hj).
  split.
  - intros Hb. pose proof (StronglySorted_before _ _ _ _ (makeEntries_sorted h) Hb) as Hf.
    unfold not_after in Hf. rewrite Less_false in Hf. simpl in Hf. naive_solver lia.
  - intros Hlt. apply makeEntries_before_Less; [done..|]. apply Less_spec. by left.
Qed.

Lemma makeEntries_wf (h : list (Operation V)) :
  Forall (λ o, (Call o <= Return o)%Z) h -> wf_entries (length h) (makeEntries sort h).
Proof.
  intros Hh. split.
  - by rewrite makeEntries_perm, collect_length.
  - apply makeEntries_keys.
  - intros e He. rewrite makeEntries_perm in He. apply collect_ids in He. lia.
  - intros k Hk. destruct (lookup_lt_is_Some_2 h (Z.to_nat k) ltac:(lia)) as [o Ho].
    exists (callOf k o), (returnOf k o). split; [|done].
    replace k with (Z.of_nat (Z.to_nat k)) by lia.
    apply makeEntries_call_return; [done|]. rewrite Forall_forall in Hh.
    apply Hh. by eapply list_elem_of_lookup_2.
Qed.

End Sorted.

End Entry.
Arguments entry V : clear implicits.
End Entry.
