(* ===== verification/LinkedList.v ===== *)
(** * The doubly linked list of [porcupine/checker.go]

    [node], [insertBefore], [length], [lift] and [unlift].  Nodes live in a heap
    from addresses to records; a [nil] or dangling dereference panics ([None]). *)
From S2P Require Import Prelude.

Module LinkedList.

Abbreviation ptr := nat.

(** [match_] is the return node of a call node, and [nil] for a return node. *)
Record node {V : Type} := Node {
  value : V;
  match_ : option ptr;
  nid : Z;
  next : option ptr;
  prev : option ptr
}.
Arguments node V : clear implicits.

Section Ops.
Context {V : Type}.
Implicit Types (m : gmap ptr (node V)) (n e p : ptr).

(** [p.next = x] and [p.prev = x]. *)
Definition with_next (x : option ptr) (nd : node V) : node V :=
  Node _ (value nd) (match_ nd) (nid nd) x (prev nd).
Definition with_prev (x : option ptr) (nd : node V) : node V :=
  Node _ (value nd) (match_ nd) (nid nd) (next nd) x.

Definition set_next m p x : option (gmap ptr (node V)) :=
  nd ← m !! p; Some (<[p := with_next x nd]> m).
Definition set_prev m p x : option (gmap ptr (node V)) :=
  nd ← m !! p; Some (<[p := with_prev x nd]> m).

Definition insertBefore m n (mark : option ptr) : option (gmap ptr (node V)) :=
  match mark with
  | None => Some m
  | Some k =>
      nk ← m !! k;
      let beforeMark := prev nk in
      m ← set_prev m k (Some n);
      m ← set_next m n (Some k);
      match beforeMark with
      | None => Some m
      | Some b => m ← set_prev m n (Some b); set_next m b (Some n)
      end
  end.

(** The loop runs at most once per node of the heap on a list without a cycle:
    [fuel] is the number of nodes. *)
Fixpoint length_loop (fuel : nat) m (n : option ptr) (l : nat) : option nat :=
  match n with
  | None => Some l
  | Some p =>
      match fuel with
      | O => None
      | S fuel => nd ← m !! p; length_loop fuel m (next nd) (S l)
      end
  end.

Definition length m (n : option ptr) : option nat := length_loop (size m) m n 0.

Definition lift m e : option (gmap ptr (node V)) :=
  ne ← m !! e; p ← prev ne; m ← set_next m p (next ne);
  ne ← m !! e; q ← next ne; m ← set_prev m q (prev ne);
  ne ← m !! e; r ← match_ ne;
  nr ← m !! r; p' ← prev nr; m ← set_next m p' (next nr);
  nr ← m !! r;
  match next nr with
  | None => Some m
  | Some c => set_prev m c (prev nr)
  end.

Definition unlift m e : option (gmap ptr (node V)) :=
  ne ← m !! e; r ← match_ ne;
  nr ← m !! r; p' ← prev nr; m ← set_next m p' (Some r);
  nr ← m !! r;
  m ← match next nr with
      | None => Some m
      | Some c => set_prev m c (Some r)
      end;
  ne ← m !! e; p ← prev ne; m ← set_next m p (Some e);
  ne ← m !! e; q ← next ne; set_prev m q (Some e).

(** ** Representation of a doubly linked segment

    [dseg m pr l nx]: the nodes [l] are linked in this order in [m], the [prev]
    of the first is [pr] and the [next] of the last is [nx]. *)
Definition first (l : list ptr) (nx : option ptr) : option ptr :=
  match l with [] => nx | q :: _ => Some q end.

Fixpoint dseg m (pr : option ptr) (l : list ptr) (nx : option ptr) : Prop :=
  match l with
  | [] => True
  | p :: l' =>
      ∃ nd, m !! p = Some nd ∧ prev nd = pr ∧ next nd = first l' nx ∧
            dseg m (Some p) l' nx
  end.

(** A whole list, from its first node. *)
Definition dlist m (l : list ptr) : Prop := dseg m None l None.

Lemma dseg_cons m pr p l nx :
  dseg m pr (p :: l) nx <->
  ∃ nd, m !! p = Some nd ∧ prev nd = pr ∧ next nd = first l nx ∧
        dseg m (Some p) l nx.
Proof. done. Qed.

Lemma dseg_app m pr l1 p l2 nx :
  dseg m pr (l1 ++ p :: l2) nx <->
  dseg m pr l1 (Some p) ∧
  dseg m (from_option Some pr (last l1)) (p :: l2) nx.
Proof.
  revert pr. induction l1 as [|q l1 IH]; intros pr; [naive_solver|].
  change ((q :: l1) ++ p :: l2) with (q :: (l1 ++ p :: l2)).
  rewrite !(dseg_cons m pr q), last_cons.
  assert (Hf : first (l1 ++ p :: l2) nx = first l1 (Some p)) by (by destruct l1).
  rewrite Hf. setoid_rewrite IH.
  destruct (last l1) as [x|]; simpl; naive_solver.
Qed.

Lemma dseg_frame m m' pr l nx :
  (forall p, p ∈ l -> m' !! p = m !! p) -> dseg m pr l nx -> dseg m' pr l nx.
Proof.
  revert pr. induction l as [|p l IH]; intros pr Hm Hd; [done|].
  apply dseg_cons in Hd as (nd & Hp & Hpr & Hnx & Hd). apply dseg_cons.
  exists nd. rewrite Hm by left. split_and!; try done.
  apply IH; [|done]. intros q Hq. apply Hm. by right.
Qed.

Lemma dseg_lookup m pr l nx p : dseg m pr l nx -> p ∈ l -> is_Some (m !! p).
Proof.
  revert pr. induction l as [|q l IH]; intros pr Hd Hin; [by apply elem_of_nil in Hin|].
  apply dseg_cons in Hd as (nd & Hq & _ & _ & Hd).
  apply elem_of_cons in Hin as [->|Hin]; [eauto|]. by eapply IH.
Qed.

(** What [lift] and [unlift] never change: the payload of a node. *)
Definition payload (nd : node V) : V * option ptr * Z := (value nd, match_ nd, nid nd).

Definition same_payload m m' : Prop := forall p, payload <$> m' !! p = payload <$> m !! p.

#[global] Instance same_payload_equiv : Equivalence same_payload.
Proof.
  split; unfold same_payload; [done| |].
  - intros m m' E p. by rewrite E.
  - intros m1 m2 m3 E1 E2 p. by rewrite E2, E1.
Qed.

Lemma same_payload_insert m p nd nd' :
  m !! p = Some nd -> payload nd' = payload nd -> same_payload m (<[p := nd']> m).
Proof.
  intros Hp Hnd q. destruct (decide (p = q)) as [<-|].
  - rewrite lookup_insert_eq, Hp. simpl. by rewrite Hnd.
  - by rewrite lookup_insert_ne.
Qed.

(** ** Removing one node, and putting it back

    [unlink] is one half of [lift] and [relink] one half of [unlift]. *)
Definition unlink m p : option (gmap ptr (node V)) :=
  nd ← m !! p; a ← prev nd; m ← set_next m a (next nd);
  nd ← m !! p;
  match next nd with
  | None => Some m
  | Some c => set_prev m c (prev nd)
  end.

Definition relink m p : option (gmap ptr (node V)) :=
  nd ← m !! p; a ← prev nd; m ← set_next m a (Some p);
  nd ← m !! p;
  match next nd with
  | None => Some m
  | Some c => set_prev m c (Some p)
  end.

(** Changing only the [prev] of the first node of a segment. *)
Lemma dseg_set_prev m pr pr' q l nx nd :
  q ∉ l -> m !! q = Some nd -> dseg m pr (q :: l) nx ->
  dseg (<[q := with_prev pr' nd]> m) pr' (q :: l) nx.
Proof.
  intros Hq Hm Hd. apply dseg_cons in Hd as (nd' & Hq' & _ & Hnx & Hd).
  assert (nd' = nd) as -> by congruence. apply dseg_cons. exists (with_prev pr' nd).
  rewrite lookup_insert_eq. split_and!; try done.
  eapply dseg_frame; [|exact Hd]. intros x Hx. rewrite lookup_insert_ne; [done|].
  by intros ->.
Qed.

(** Changing only the [next] of the last node of a segment. *)
Lemma dseg_set_next m pr l a nx nx' nd :
  a ∉ l -> m !! a = Some nd -> dseg m pr (l ++ [a]) nx ->
  dseg (<[a := with_next nx' nd]> m) pr (l ++ [a]) nx'.
Proof.
  intros Ha Hm Hd. apply dseg_app in Hd as [Hl Hd]. apply dseg_app. split.
  - eapply dseg_frame; [|exact Hl]. intros x Hx. rewrite lookup_insert_ne; [done|].
    by intros ->.
  - apply dseg_cons in Hd as (nd' & Ha' & Hpr & _ & _).
    assert (nd' = nd) as -> by congruence. apply dseg_cons.
    exists (with_next nx' nd). by rewrite lookup_insert_eq.
Qed.

(** Restoring the old links of a node is the identity. *)
Lemma with_next_id (nd : node V) x : next nd = x -> with_next x nd = nd.
Proof. destruct nd; simpl; by intros ->. Qed.
Lemma with_prev_id (nd : node V) x : prev nd = x -> with_prev x nd = nd.
Proof. destruct nd; simpl; by intros ->. Qed.
Lemma with_next_next (nd : node V) x y : with_next x (with_next y nd) = with_next x nd.
Proof. done. Qed.
Lemma with_prev_prev (nd : node V) x y : with_prev x (with_prev y nd) = with_prev x nd.
Proof. done. Qed.

(** [p] is the last node: only its predecessor [a] is written. *)
Lemma unlink_last m a p na np :
  a ≠ p -> m !! a = Some na -> m !! p = Some np ->
  prev np = Some a -> next np = None -> next na = Some p ->
  unlink m p = Some (<[a := with_next None na]> m) ∧
  relink (<[a := with_next None na]> m) p = Some m.
Proof.
  intros Hap Ha Hp Hpr Hnx Hna. unfold unlink, relink, set_next.
  rewrite lookup_insert_ne, Hp by done. simpl. rewrite Hpr. simpl.
  rewrite Ha, lookup_insert_eq. simpl. rewrite Hnx.
  rewrite !lookup_insert_ne, Hp by done. simpl. rewrite Hnx.
  split; [done|]. by rewrite with_next_next, insert_insert_eq, with_next_id, insert_id.
Qed.

(** [p] lies between [a] and [b]. *)
Lemma unlink_between m a p b na np nb :
  a ≠ p -> p ≠ b -> a ≠ b ->
  m !! a = Some na -> m !! p = Some np -> m !! b = Some nb ->
  prev np = Some a -> next np = Some b -> next na = Some p -> prev nb = Some p ->
  let m' := <[b := with_prev (Some a) nb]> (<[a := with_next (Some b) na]> m) in
  unlink m p = Some m' ∧ relink m' p = Some m.
Proof.
  intros Hap Hpb Hab Ha Hp Hb Hpr Hnx Hna Hnb m'. split.
  - unfold unlink, set_next, set_prev. rewrite Hp. simpl. rewrite Hpr. simpl.
    rewrite Ha. simpl. rewrite lookup_insert_ne, Hp by done. simpl. rewrite Hnx.
    rewrite lookup_insert_ne, Hb by done. simpl. by rewrite Hpr.
  - assert (Hp' : m' !! p = Some np) by (unfold m'; by rewrite !lookup_insert_ne).
    assert (Ha' : m' !! a = Some (with_next (Some b) na)).
    { unfold m'. by rewrite lookup_insert_ne, lookup_insert_eq. }
    unfold relink, set_next, set_prev. rewrite Hp'. simpl. rewrite Hpr. simpl.
    rewrite Ha'. simpl. rewrite lookup_insert_ne, Hp' by done. simpl. rewrite Hnx.
    rewrite lookup_insert_ne by done. unfold m'.
    rewrite lookup_insert_eq. simpl. rewrite with_next_next, with_prev_prev.
    rewrite (insert_insert_ne _ a b), !insert_insert_eq by done.
    rewrite with_next_id, with_prev_id by done. f_equal.
    rewrite (insert_id (<[a := na]> m)); [by apply insert_id|].
    by rewrite lookup_insert_ne.
Qed.

(** The effect of [unlink] on the node [p] between [a] and [B]. *)
Lemma unlink_spec m pr A a p B :
  NoDup (A ++ a :: p :: B) -> dseg m pr (A ++ a :: p :: B) None ->
  ∃ m', unlink m p = Some m' ∧ dseg m' pr (A ++ a :: B) None ∧
        (forall x, x ∉ a :: B -> m' !! x = m !! x) ∧
        same_payload m m' ∧ relink m' p = Some m.
Proof.
  intros Hnd Hd. apply NoDup_app in Hnd as (_ & HA & Hnd).
  apply NoDup_cons in Hnd as [Ha Hnd]. apply NoDup_cons in Hnd as [Hp HndB].
  apply dseg_app in Hd as [HdA Hd].
  apply dseg_cons in Hd as (na & Hma & Hpra & Hnxa & Hd).
  apply dseg_cons in Hd as (np & Hmp & Hprp & Hnxp & HdB). simpl in Hnxa.
  assert (Hap : a ≠ p) by set_solver. assert (HaA : a ∉ A) by set_solver.
  assert (Hs1 : forall nx, dseg (<[a := with_next nx na]> m) pr (A ++ [a]) nx).
  { intros nx. apply dseg_set_next with (nx := Some p); [done..|].
    apply dseg_app. split; [done|]. apply dseg_cons. by exists na. }
  destruct B as [|b B]; simpl in Hnxp.
  - destruct (unlink_last m a p na np) as [Hu Hr]; try done.
    eexists. split_and!; [exact Hu|apply Hs1| | |exact Hr].
    + intros x Hx. rewrite lookup_insert_ne; [done|]. set_solver.
    + by apply same_payload_insert with (nd := na).
  - assert (HdB0 := HdB). apply dseg_cons in HdB0 as (nb & Hmb & Hprb & _ & _).
    apply NoDup_cons in HndB as [HbB _].
    destruct (unlink_between m a p b na np nb) as [Hu Hr]; try done; [set_solver..|].
    eexists. split_and!; [exact Hu| | | |exact Hr].
    + replace (A ++ a :: b :: B) with ((A ++ [a]) ++ b :: B) by (by rewrite <- app_assoc).
      apply dseg_app. rewrite last_snoc. split.
      * eapply dseg_frame; [|apply Hs1]. intros x Hx. rewrite lookup_insert_ne; [done|].
        set_solver.
      * apply dseg_set_prev with (pr := Some p); [done| |].
        -- rewrite lookup_insert_ne; [done|]. set_solver.
        -- eapply dseg_frame; [|exact HdB]. intros x Hx.
           rewrite lookup_insert_ne; [done|]. set_solver.
    + intros x Hx. rewrite !lookup_insert_ne; [done|set_solver..].
    + transitivity (<[a := with_next (Some b) na]> m).
      * by apply same_payload_insert with (nd := na).
      * apply same_payload_insert with (nd := nb); [|done].
        rewrite lookup_insert_ne; [done|]. set_solver.
Qed.

(** [lift] and [unlift] are two [unlink]s and two [relink]s. *)
Lemma lift_unlink m e ne :
  m !! e = Some ne -> is_Some (next ne) -> prev ne ≠ Some e ->
  lift m e = (m1 ← unlink m e; ne ← m1 !! e; r ← match_ ne; unlink m1 r).
Proof.
  intros He [q Hq] Hp. unfold lift, unlink. rewrite He. simpl.
  destruct (prev ne) as [p|]; [simpl|done]. unfold set_next.
  destruct (m !! p) as [np|]; [simpl|done].
  rewrite !lookup_insert_ne, He by congruence. simpl. by rewrite Hq.
Qed.

Lemma unlift_relink m e m1 ne ne1 r :
  m !! e = Some ne -> match_ ne = Some r -> relink m r = Some m1 ->
  m1 !! e = Some ne1 -> prev ne1 ≠ Some e -> is_Some (next ne1) ->
  unlift m e = relink m1 e.
Proof.
  intros He Hr Hm1 He1 Hp [q Hq]. unfold unlift. rewrite He. simpl. rewrite Hr. simpl.
  assert (Hre : forall (K : gmap ptr (node V) -> option (gmap ptr (node V))),
    (nr ← m !! r; p' ← prev nr; m' ← set_next m p' (Some r); nr ← m' !! r;
     m' ← match next nr with None => Some m' | Some c => set_prev m' c (Some r) end;
     K m') = (m' ← relink m r; K m')).
  { intros K. unfold relink.
    destruct (m !! r) as [nr|]; [simpl|done]. destruct (prev nr); [simpl|done].
    destruct (set_next m _ _) as [m2|]; [simpl|done].
    by destruct (m2 !! r). }
  rewrite Hre, Hm1. simpl. unfold relink. rewrite He1. simpl.
  destruct (prev ne1) as [p|]; [simpl|done]. unfold set_next.
  destruct (m1 !! p) as [np|]; [simpl|done].
  rewrite lookup_insert_ne, He1 by congruence. simpl. by rewrite Hq.
Qed.

Lemma snoc_of_cons {A} (a : A) (l : list A) : ∃ l' x, a :: l = l' ++ [x].
Proof.
  destruct (exists_last (l := a :: l)) as (l' & x & E); [done|]. eauto.
Qed.

(** Payload of a node whose links may have changed. *)
Lemma same_payload_lookup m m' p nd :
  same_payload m m' -> m !! p = Some nd ->
  ∃ nd', m' !! p = Some nd' ∧ payload nd' = payload nd.
Proof.
  intros Hs Hp. specialize (Hs p). rewrite Hp in Hs.
  destruct (m' !! p) as [nd'|]; [|done]. exists nd'. simpl in Hs. split; congruence.
Qed.

(** [lift] takes the call node [e] and its return node [r] out of the list, and
    [unlift] puts them back: it restores the heap it started from. *)
Lemma lift_spec m pr A a e B r C ne :
  NoDup (A ++ a :: e :: B ++ r :: C) ->
  dseg m pr (A ++ a :: e :: B ++ r :: C) None ->
  m !! e = Some ne -> match_ ne = Some r ->
  ∃ m', lift m e = Some m' ∧ dseg m' pr (A ++ a :: B ++ C) None ∧
        same_payload m m' ∧ unlift m' e = Some m.
Proof.
  intros Hnd Hd He Hr.
  assert (Hlinks : prev ne = Some a ∧ is_Some (next ne)).
  { apply dseg_app in Hd as [_ Hd]. apply dseg_cons in Hd as (na & _ & _ & _ & Hd).
    apply dseg_cons in Hd as (ne' & He' & Hp & Hn & _). simplify_eq.
    rewrite Hn. by destruct B. }
  destruct Hlinks as [Hprev Hnext].
  destruct (unlink_spec m pr A a e (B ++ r :: C)) as (m1 & Hu1 & Hd1 & Hf1 & Hs1 & Hr1);
    [done..|].
  destruct (snoc_of_cons a B) as (X & x & Ex).
  assert (Hsplit : forall D, A ++ a :: B ++ D = (A ++ X) ++ x :: D).
  { intros D. change (a :: B ++ D) with ((a :: B) ++ D). rewrite Ex.
    by rewrite <- !app_assoc. }
  assert (Hnd1 : NoDup ((A ++ X) ++ x :: r :: C)).
  { rewrite <- (Hsplit (r :: C)). eapply sublist_NoDup; [exact Hnd|].
    apply sublist_app; [done|]. apply sublist_skip, sublist_cons. done. }
  rewrite (Hsplit (r :: C)) in Hd1.
  destruct (unlink_spec m1 pr (A ++ X) x r C) as (m2 & Hu2 & Hd2 & Hf2 & Hs2 & Hr2);
    [done..|].
  assert (Hea : a ≠ e ∧ e ∉ B ++ r :: C).
  { apply NoDup_app in Hnd as (_ & _ & Hnd). apply NoDup_cons in Hnd as [Ha Hnd].
    apply NoDup_cons in Hnd as [He1 _]. split; [|done]. intros ->. apply Ha. by left. }
  destruct Hea as [Hae HeB].
  assert (He1 : m1 !! e = Some ne) by (rewrite Hf1; [done|set_solver]).
  destruct (same_payload_lookup _ _ _ _ Hs2 He1) as (ne2 & He2 & Hpl).
  exists m2. split_and!.
  - rewrite (lift_unlink m e ne He Hnext) by congruence. rewrite Hu1. simpl.
    rewrite He1. simpl. rewrite Hr. simpl. done.
  - by rewrite Hsplit.
  - by transitivity m1.
  - rewrite <- Hr1. apply unlift_relink with (ne := ne2) (ne1 := ne) (r := r); try done.
    + injection Hpl as _ Hm _. congruence.
    + congruence.
Qed.

(** ** Traversal and insertion at the front *)

Lemma length_loop_spec m pr l fuel acc :
  dseg m pr l None -> List.length l ≤ fuel ->
  length_loop fuel m (first l None) acc = Some (acc + List.length l).
Proof.
  revert pr fuel acc. induction l as [|p l IH]; intros pr fuel acc Hd Hf.
  - destruct fuel; simpl; by rewrite Nat.add_0_r.
  - destruct fuel as [|fuel]; [simpl in Hf; lia|].
    apply dseg_cons in Hd as (nd & Hp & _ & Hn & Hd). simpl. rewrite Hp. simpl.
    rewrite Hn, (IH (Some p) fuel); [f_equal; lia|done|simpl in Hf; lia].
Qed.

Lemma dseg_length_size m pr l nx : NoDup l -> dseg m pr l nx -> List.length l ≤ size m.
Proof.
  intros Hnd Hd. rewrite <- (size_list_to_set (C := gset ptr) l) by done.
  rewrite <- (size_dom m). apply subseteq_size. intros p Hp.
  apply elem_of_list_to_set in Hp. apply elem_of_dom. by eapply dseg_lookup.
Qed.

(** On a list without repetition the fuel of [length] is enough. *)
Lemma length_spec m pr l :
  NoDup l -> dseg m pr l None -> length m (first l None) = Some (List.length l).
Proof.
  intros Hnd Hd. unfold length. rewrite (length_loop_spec m pr l (size m) 0 Hd); [done|].
  by eapply dseg_length_size.
Qed.

Lemma insertBefore_spec m n l nd :
  NoDup (n :: l) -> dlist m l ->
  m !! n = Some nd -> next nd = None -> prev nd = None ->
  ∃ m', insertBefore m n (first l None) = Some m' ∧ dlist m' (n :: l) ∧
        same_payload m m' ∧ dom m' = dom m.
Proof.
  intros Hnd Hd Hm Hnx Hpr. destruct l as [|k l].
  - exists m. split_and!; [done| |done|done]. apply dseg_cons. exists nd. split_and!; done.
  - apply NoDup_cons in Hnd as [Hn Hnd]. apply NoDup_cons in Hnd as [Hkl _].
    assert (Hnk : n ≠ k) by set_solver.
    assert (Hd0 := Hd). apply dseg_cons in Hd0 as (nk & Hk & Hprk & _ & _).
    simpl. unfold set_prev, set_next. rewrite Hk. simpl.
    rewrite lookup_insert_ne, Hm by done. simpl. rewrite Hprk.
    eexists. split_and!; [done| | |].
    + apply dseg_cons. exists (with_next (Some k) nd). rewrite lookup_insert_eq.
      split_and!; try done.
      apply dseg_frame with (m := <[k := with_prev (Some n) nk]> m).
      { intros x Hx. rewrite lookup_insert_ne; [done|]. set_solver. }
      by apply dseg_set_prev with (pr := None).
    + transitivity (<[k := with_prev (Some n) nk]> m).
      * by apply same_payload_insert with (nd := nk).
      * apply same_payload_insert with (nd := nd); [|done]. by rewrite lookup_insert_ne.
    + rewrite !dom_insert_L. apply elem_of_dom_2 in Hk, Hm. set_solver.
Qed.

End Ops.

End LinkedList.
