(* ===== verification/LinkedEntries.v ===== *)
(** * [makeLinkedEntries] of [porcupine/checker.go]

    The entries of a history as a doubly linked list: the loop runs from the last
    entry to the first, so the node of the last entry is allocated first and a
    return node is known when the call node that matches it is built. *)
From S2P Require Import Prelude Model Entries LinkedList.
Import Entry LinkedList.

Section LinkedEntries.
Context {V : Type}.

(** The state of the loop: the heap, the next free address, [root] and the map
    [match] from ids to return nodes. *)
Record lstate := LState {
  lheap : gmap ptr (node V);
  lbrk : ptr;
  lroot : option ptr;
  lmatch : gmap Z ptr
}.

Definition link_step (elem : entry V) (st : lstate) : option lstate :=
  let n := lbrk st in
  if decide (kind elem = returnEntry) then
    let nd := Node _ (Entry.value elem) None (id elem) None None in
    m ← insertBefore (<[n := nd]> (lheap st)) n (lroot st);
    Some (LState m (S n) (Some n) (<[id elem := n]> (lmatch st)))
  else
    let nd := Node _ (Entry.value elem) (lmatch st !! id elem) (id elem) None None in
    m ← insertBefore (<[n := nd]> (lheap st)) n (lroot st);
    Some (LState m (S n) (Some n) (lmatch st)).

Fixpoint makeLinkedEntries (entries : list (entry V)) : option lstate :=
  match entries with
  | [] => Some (LState ∅ 0 None ∅)
  | elem :: rest => st ← makeLinkedEntries rest; link_step elem st
  end.

(** ** The list that [makeLinkedEntries] builds

    The entry at address [p] is the one at position [p] of the reversed history. *)
Definition addrs (es : list (entry V)) : list ptr := reverse (seq 0 (List.length es)).

Lemma addrs_cons e es : addrs (e :: es) = List.length es :: addrs es.
Proof.
  unfold addrs. change (List.length (e :: es)) with (S (List.length es)).
  by rewrite seq_S, reverse_snoc.
Qed.

Lemma addrs_NoDup es : NoDup (addrs es).
Proof. unfold addrs. rewrite reverse_Permutation. apply NoDup_seq. Qed.

Lemma elem_of_addrs es p : p ∈ addrs es <-> p < List.length es.
Proof. unfold addrs. rewrite elem_of_reverse, elem_of_seq. lia. Qed.

(** The node of entry [e] at address [p], its [match] read off the return nodes of
    the entries after it. *)
Definition node_ok (es : list (entry V)) (p : ptr) (e : entry V) (nd : node V) : Prop :=
  value nd = Entry.value e ∧ nid nd = id e ∧
  forall q, match_ nd = Some q <->
    kind e = callEntry ∧ q < p ∧ ∃ r, reverse es !! q = Some r ∧ key r = (returnEntry, id e).

Record linked (es : list (entry V)) (st : lstate) : Prop := {
  linked_brk : lbrk st = List.length es;
  linked_root : lroot st = first (addrs es) None;
  linked_dom : forall p, is_Some (lheap st !! p) <-> p < List.length es;
  linked_list : dlist (lheap st) (addrs es);
  linked_match : forall k p, lmatch st !! k = Some p <->
    ∃ r, reverse es !! p = Some r ∧ key r = (returnEntry, k);
  linked_nodes : forall p e, reverse es !! p = Some e ->
    ∃ nd, lheap st !! p = Some nd ∧ node_ok es p e nd
}.

Lemma reverse_cons_lookup {A} (x : A) (l : list A) p y :
  reverse (x :: l) !! p = Some y <->
  (p < List.length l ∧ reverse l !! p = Some y) ∨ (p = List.length l ∧ y = x).
Proof.
  rewrite reverse_cons. rewrite lookup_app_Some, list_lookup_singleton_Some, length_reverse.
  split.
  - intros [Hp|[Hge [Hp ->]]]; [left|right].
    + split; [|done]. apply lookup_lt_Some in Hp. by rewrite length_reverse in Hp.
    + split; [lia|done].
  - intros [[Hlt Hp]|[-> ->]]; [by left|right]. split; [lia|]. split; [lia|done].
Qed.

(** The return node with a given key sits at one address. *)
Lemma reverse_key_inj (es : list (entry V)) p q e e' :
  NoDup (key <$> es) -> reverse es !! p = Some e -> reverse es !! q = Some e' ->
  key e = key e' -> p = q.
Proof.
  intros Hnd Hp Hq Hk. apply (NoDup_lookup (key <$> reverse es) p q (key e)).
  - by rewrite reverse_Permutation.
  - rewrite list_lookup_fmap, Hp. done.
  - rewrite list_lookup_fmap, Hq. simpl. by rewrite Hk.
Qed.

Lemma reverse_lookup_lt {A} (l : list A) p x : reverse l !! p = Some x -> p < List.length l.
Proof. intros Hp. apply lookup_lt_Some in Hp. by rewrite length_reverse in Hp. Qed.

(** One iteration of the loop, for either kind of entry. *)
Lemma insert_entry es st nd :
  linked es st -> next nd = None -> prev nd = None ->
  ∃ m, insertBefore (<[lbrk st := nd]> (lheap st)) (lbrk st) (lroot st) = Some m ∧
       dlist m (List.length es :: addrs es) ∧
       (forall p, is_Some (m !! p) <-> p < S (List.length es)) ∧
       (forall p nd', (<[List.length es := nd]> (lheap st)) !! p = Some nd' ->
          ∃ nd'', m !! p = Some nd'' ∧ payload nd'' = payload nd').
Proof.
  intros [Hb Hr Hdom Hl _ _] Hn Hp. rewrite Hb, Hr.
  assert (Hfresh : List.length es ∉ addrs es) by (rewrite elem_of_addrs; lia).
  destruct (insertBefore_spec (<[List.length es := nd]> (lheap st)) (List.length es)
    (addrs es) nd) as (m & Hm & Hd & Hs & Hdm); [|..|done|done|].
  - apply NoDup_cons. split; [done|apply addrs_NoDup].
  - eapply dseg_frame; [|exact Hl]. intros p Hin. rewrite lookup_insert_ne; [done|].
    by intros <-.
  - apply lookup_insert_eq.
  - exists m. split_and!; [done|done| |].
    + intros p. rewrite <- elem_of_dom, Hdm, dom_insert_L, elem_of_union,
        elem_of_singleton, elem_of_dom, Hdom. lia.
    + intros p nd' Hnd'. by eapply same_payload_lookup.
Qed.

Lemma payload_inj3 (nd nd' : node V) :
  payload nd = payload nd' -> value nd = value nd' ∧ match_ nd = match_ nd' ∧ nid nd = nid nd'.
Proof. unfold payload. naive_solver. Qed.

(** The nodes of the later entries keep their meaning. *)
Lemma node_ok_cons es e p e' nd :
  p < List.length es -> node_ok es p e' nd -> node_ok (e :: es) p e' nd.
Proof.
  intros Hp (Hv & Hi & Hm). split_and!; [done..|]. intros q. rewrite Hm.
  setoid_rewrite reverse_cons_lookup. split.
  - intros (Hk & Hq & r & Hr & Hkey). split_and!; [done..|]. exists r.
    split; [|done]. left. split; [|done]. by eapply reverse_lookup_lt.
  - intros (Hk & Hq & r & [[_ Hr]|[-> ->]] & Hkey); [|lia]. eauto.
Qed.

Lemma node_ok_payload es p e nd nd' :
  payload nd' = payload nd -> node_ok es p e nd -> node_ok es p e nd'.
Proof.
  intros (Hv & Hm & Hi)%payload_inj3. unfold node_ok. by rewrite Hv, Hm, Hi.
Qed.

(** The table of returns seen so far, after one more entry. *)
Lemma link_match es st e :
  NoDup (key <$> e :: es) -> linked es st ->
  forall k p,
    (if decide (kind e = returnEntry) then <[id e := lbrk st]> (lmatch st) else lmatch st) !! k
      = Some p <->
    ∃ r, reverse (e :: es) !! p = Some r ∧ key r = (returnEntry, k).
Proof.
  intros Hnd Hl k p. pose proof (linked_match _ _ Hl) as Hmatch.
  pose proof (linked_brk _ _ Hl) as Hb.
  assert (Hkey : forall p r, reverse es !! p = Some r -> key r ≠ key e).
  { intros q r Hp Hk. apply NoDup_cons in Hnd as [Hnin _]. apply Hnin. rewrite <- Hk.
    apply list_elem_of_fmap_2, elem_of_reverse. by eapply list_elem_of_lookup_2. }
  setoid_rewrite reverse_cons_lookup. case_decide as Hk.
  - rewrite lookup_insert_Some, Hmatch, Hb. split.
    + intros [[<- <-]|[Hne (r & Hp & Hkr)]].
      * exists e. split; [by right|]. unfold key. by rewrite Hk.
      * exists r. split; [left|done]. split; [|done]. by eapply reverse_lookup_lt.
    + intros (r & [[Hp Hrv]|[-> ->]] & Hkr).
      * right. split; [|by exists r]. intros Hid. apply (Hkey p r Hrv).
        rewrite Hkr. unfold key. by rewrite Hk, Hid.
      * left. unfold key in Hkr. injection Hkr as _ Hid. split; done.
  - rewrite Hmatch. split.
    + intros (r & Hp & Hkr). exists r. split; [left|done]. split; [|done].
      by eapply reverse_lookup_lt.
    + intros (r & [[Hp Hrv]|[-> ->]] & Hkr); [by exists r|].
      unfold key in Hkr. by injection Hkr as ? _.
Qed.

(** The payload of the node that [link_step] makes for an entry is right. *)
Lemma link_node_ok es st e :
  linked es st ->
  node_ok (e :: es) (List.length es) e
    (Node _ (Entry.value e) (if decide (kind e = returnEntry) then None else lmatch st !! id e)
       (id e) None None).
Proof.
  intros Hl. split_and!; [done..|]. intros q. simpl. case_decide as Hk.
  - rewrite Hk. split; [done|]. by intros [? _].
  - rewrite (linked_match _ _ Hl). setoid_rewrite reverse_cons_lookup.
    assert (Hc : kind e = callEntry) by (by destruct (kind e)). rewrite Hc. split.
    + intros (r & Hq & Hkr). apply reverse_lookup_lt in Hq as Hlt.
      split_and!; [done|done|]. exists r. auto.
    + intros (_ & Hlt & r & [[_ Hq]|[-> ->]] & Hkr); [eauto|lia].
Qed.

Lemma link_step_linked es st e :
  NoDup (key <$> e :: es) -> linked es st ->
  ∃ st', link_step e st = Some st' ∧ linked (e :: es) st'.
Proof.
  intros Hnd Hl. pose proof (link_match es st e Hnd Hl) as Hmp.
  pose proof (link_node_ok es st e Hl) as Hnew.
  pose proof Hl as [Hb Hr Hdom Hlist Hmatch Hnodes].
  set (mt := if decide (kind e = returnEntry) then None else lmatch st !! id e) in *.
  set (nd := Node _ (Entry.value e) mt (id e) None None) in *.
  destruct (insert_entry es st nd Hl) as (m & Hm & Hd & Hdom' & Hpay); [done..|].
  set (mp := if decide (kind e = returnEntry) then <[id e := lbrk st]> (lmatch st)
             else lmatch st) in *.
  exists (LState m (S (lbrk st)) (Some (lbrk st)) mp). split.
  - unfold link_step. unfold nd, mt in Hm. unfold mp.
    case_decide; rewrite Hm; done.
  - split; simpl.
    + by rewrite Hb.
    + by rewrite addrs_cons, Hb.
    + exact Hdom'.
    + by rewrite addrs_cons.
    + exact Hmp.
    + intros p e' [[Hp He']|[-> ->]]%reverse_cons_lookup.
      * destruct (Hnodes p e' He') as (nd1 & Hnd1 & Hok).
        destruct (Hpay p nd1) as (nd2 & Hnd2 & Hpl).
        { rewrite lookup_insert_ne; [done|lia]. }
        exists nd2. split; [done|]. apply node_ok_cons; [done|].
        by eapply node_ok_payload.
      * destruct (Hpay (List.length es) nd) as (nd2 & Hnd2 & Hpl).
        { apply lookup_insert_eq. }
        exists nd2. split; [done|]. by eapply node_ok_payload.
Qed.

Lemma makeLinkedEntries_linked es :
  NoDup (key <$> es) -> ∃ st, makeLinkedEntries es = Some st ∧ linked es st.
Proof.
  induction es as [|e es IH]; intros Hnd.
  - eexists. split; [done|]. split; simpl; try done.
    + intros p. rewrite lookup_empty. split; [intros [? ?]; done|lia].
    + intros k p. rewrite lookup_empty. split; [done|]. by intros (r & ? & _).
  - destruct IH as (st & Hst & Hl); [by apply NoDup_cons in Hnd as [_ ?]|].
    destruct (link_step_linked es st e Hnd Hl) as (st' & Hst' & Hl').
    exists st'. simpl. rewrite Hst. done.
Qed.

End LinkedEntries.
Arguments lstate V : clear implicits.
