(* ===== verification/Linearizability.v ===== *)
(** * Linearizability, declaratively and as a search

    The declarative specification of what the checker decides, and the search
    relation ([path]) that its loop explores, with the proof that both agree. *)
From S2P Require Import Prelude Model.

Section Legal.
Context {V : Type} (M : Model V).

(** A sequence of (input, output) pairs that the model accepts from a state. *)
Fixpoint legal (s : V) (ios : list (V * V)) : Prop :=
  match ios with
  | [] => True
  | (i, o) :: ios' => ∃ s', Step M s i o = Some (true, s') ∧ legal s' ios'
  end.

Definition io (o : Operation V) : V * V := (Input o, Output o).

(** [a] may come before [b] in a linearization: [b] did not return before [a] was
    called. *)
Definition may_precede (a b : Operation V) : Prop := ¬ (Return b < Call a)%Z.

(** A history is linearizable when some ordering of its operations is legal for
    the model and consistent with the real-time order of the operations. *)
Definition linearization (h σ : list (Operation V)) : Prop :=
  σ ≡ₚ h ∧ legal (Init M) (io <$> σ) ∧ ForallOrdPairs may_precede σ.

Definition linearizable (h : list (Operation V)) : Prop := ∃ σ, linearization h σ.

End Legal.

(** ** Interface of a model towards the checker

    [op_ok] describes the inputs and outputs of the history, [valid] the states
    that are reached.  The model's functions do not panic on them, and [Equal] is a
    simulation: a state that is [Equal] to another accepts at most what it does. *)
Class ModelLaws {V : Type} (M : Model V) (op_ok : V -> V -> Prop) (valid : V -> Prop) :
    Prop := {
  init_valid : valid (Init M);
  step_total : forall s i o, valid s -> op_ok i o ->
    ∃ b s', Step M s i o = Some (b, s') ∧ (b = true -> valid s');
  equal_total : forall s t, valid s -> valid t -> is_Some (callEqual M s t);
  equal_sim : forall s t i o s', valid s -> valid t -> op_ok i o ->
    callEqual M s t = Some true -> Step M s i o = Some (true, s') ->
    ∃ t', Step M t i o = Some (true, t') ∧ callEqual M s' t' = Some true
}.

Section Search.
Context {V : Type} (M : Model V).
(** Nodes: the value of a node and the return node that a call node points to. *)
Context {P : Type} `{!EqDecision P} (val : P -> V) (mt : P -> option P).
Implicit Types (L A B C : list P) (e r : P) (s : V).

(** The live list: each call node is followed by its return node. *)
Record wf_live (L : list P) : Prop := {
  live_NoDup : NoDup L;
  live_call : forall e r, e ∈ L -> mt e = Some r -> before L e r ∧ mt r = None;
  live_return : forall r, r ∈ L -> mt r = None -> ∃ e, e ∈ L ∧ mt e = Some r;
  live_inj : forall e e' r, e ∈ L -> e' ∈ L -> mt e = Some r -> mt e' = Some r -> e = e'
}.

Definition is_call e : Prop := is_Some (mt e).

(** One linearization step: a call with no return before it takes effect, and its
    two nodes leave the list. *)
Inductive lin_step : list P -> V -> P -> list P -> V -> Prop :=
| lin_step_intro A e B r C s s' :
    Forall is_call A -> mt e = Some r -> Step M s (val e) (val r) = Some (true, s') ->
    lin_step (A ++ e :: B ++ r :: C) s e (A ++ B ++ C) s'.

Inductive path : list P -> V -> list P -> list P -> V -> Prop :=
| path_nil L s : path L s [] L s
| path_cons L s e L1 s1 σ L2 s2 :
    lin_step L s e L1 s1 -> path L1 s1 σ L2 s2 -> path L s (e :: σ) L2 s2.

(** No way to linearize all that is left. *)
Definition dead L s : Prop := forall σ s', ¬ path L s σ [] s'.

(** No way to do so that starts with [e]. *)
Definition refuted L s e : Prop := forall σ s', ¬ path L s (e :: σ) [] s'.

Lemma path_app L s σ1 L1 s1 σ2 L2 s2 :
  path L s σ1 L1 s1 -> path L1 s1 σ2 L2 s2 -> path L s (σ1 ++ σ2) L2 s2.
Proof. induction 1; intros Hp; simpl; [done|]. eapply path_cons; eauto. Qed.

Lemma path_snoc L s σ L1 s1 e L2 s2 :
  path L s σ L1 s1 -> lin_step L1 s1 e L2 s2 -> path L s (σ ++ [e]) L2 s2.
Proof. intros H1 H2. eapply path_app; [done|]. eapply path_cons; [done|constructor]. Qed.

(** ** The live list under a step *)

Lemma wf_live_split L e r :
  wf_live L -> e ∈ L -> mt e = Some r -> ∃ A B C, L = A ++ e :: B ++ r :: C.
Proof. intros Hwf He Hr. apply before_split. by apply (live_call L Hwf). Qed.

Lemma wf_live_remove A e B r C :
  wf_live (A ++ e :: B ++ r :: C) -> mt e = Some r -> wf_live (A ++ B ++ C).
Proof.
  intros Hwf Her. pose proof (live_NoDup _ Hwf) as Hnd.
  assert (Hel := fun x => remove_pair_elem A e B r C x Hnd).
  assert (HeL : e ∈ A ++ e :: B ++ r :: C) by set_solver.
  assert (Hr : mt r = None) by (by apply (live_call _ Hwf e r)).
  split.
  - rewrite (remove_pair_filter A e B r C Hnd). by apply NoDup_filter.
  - intros e' r' He' Hr'. apply Hel in He' as (He' & Hne & Hnr).
    destruct (live_call _ Hwf e' r' He' Hr') as [Hb Hn]. split; [|done].
    assert (r' ≠ r) by (intros ->; apply Hne; by eapply (live_inj _ Hwf)).
    assert (r' ≠ e) by congruence.
    apply before_elem_of in Hb as Hin.
    apply (remove_pair_before A e B r C); [done|apply Hel; tauto..|done].
  - intros r' Hr' Hn. apply Hel in Hr' as (Hr' & Hne & Hnr).
    destruct (live_return _ Hwf r' Hr' Hn) as (e' & He' & Hm).
    exists e'. split; [|done]. apply Hel. split_and!; [done|congruence|congruence].
  - intros e1 e2 r' H1 H2. apply (live_inj _ Hwf); by apply Hel.
Qed.

Lemma lin_step_wf L s e L' s' : wf_live L -> lin_step L s e L' s' -> wf_live L'.
Proof. intros Hwf Hs. destruct Hs. by eapply wf_live_remove. Qed.

Lemma path_wf L s σ L' s' : wf_live L -> path L s σ L' s' -> wf_live L'.
Proof. intros Hwf. induction 1; [done|]. eauto using lin_step_wf. Qed.

(** ** The search relation and the declarative order

    The order in which the calls take effect: no call is placed before one that
    had returned when it was made. *)
Definition ret_before L (a b : P) : Prop := ∃ r, mt b = Some r ∧ before L r a.

Definition order_ok L (σ : list P) : Prop := ForallOrdPairs (λ a b, ¬ ret_before L a b) σ.

Definition node_io e : V * V := (val e, from_option val (val e) (mt e)).

Lemma filter_call_pair A e B r C :
  mt e = Some r -> mt r = None ->
  filter is_call (A ++ e :: B ++ r :: C) ≡ₚ e :: filter is_call (A ++ B ++ C).
Proof.
  intros He Hr. rewrite !filter_app, filter_cons_True, filter_app, filter_cons_False.
  - symmetry. apply Permutation_middle.
  - unfold is_call. rewrite Hr. by intros [? ?].
  - unfold is_call. rewrite He. eauto.
Qed.

(** No return of a live node comes before a call that takes effect first. *)
Lemma lin_step_order A e B r C b :
  wf_live (A ++ e :: B ++ r :: C) -> mt e = Some r -> Forall is_call A ->
  b ∈ A ++ B ++ C -> ¬ ret_before (A ++ e :: B ++ r :: C) e b.
Proof.
  intros Hwf He HA Hb (rb & Hrb & Hbef).
  assert (Hwf' := wf_live_remove _ _ _ _ _ Hwf He).
  destruct (live_call _ Hwf' b rb Hb Hrb) as [_ Hn].
  apply before_split in Hbef as (A' & B' & C' & Heq).
  change (A' ++ rb :: B' ++ e :: C') with (A' ++ (rb :: B') ++ e :: C') in Heq.
  rewrite app_assoc in Heq.
  apply NoDup_split_unique in Heq as [-> _]; [|apply (live_NoDup _ Hwf)].
  rewrite Forall_forall in HA. destruct (HA rb) as [? ?]; [set_solver|congruence].
Qed.

(** The order among the nodes that stay does not depend on the pair taken out. *)
Lemma ret_before_remove A e B r C a b :
  wf_live (A ++ e :: B ++ r :: C) -> mt e = Some r ->
  a ∈ A ++ B ++ C -> b ∈ A ++ B ++ C ->
  ret_before (A ++ e :: B ++ r :: C) a b -> ret_before (A ++ B ++ C) a b.
Proof.
  intros Hwf He Ha Hb (rb & Hrb & Hbef). exists rb. split; [done|].
  assert (Hwf' := wf_live_remove _ _ _ _ _ Hwf He).
  destruct (live_call _ Hwf' b rb Hb Hrb) as [Hbb _].
  apply before_elem_of in Hbb as [_ Hin].
  apply (remove_pair_before A e B r C); auto. apply (live_NoDup _ Hwf).
Qed.

(** What a path from [L] to [L'] says about the calls made on it and those left. *)
Lemma path_partial L s σ L' s' :
  wf_live L -> path L s σ L' s' ->
  σ ++ filter is_call L' ≡ₚ filter is_call L ∧ legal M s (node_io <$> σ) ∧
  order_ok L σ ∧ forall a b, a ∈ σ -> b ∈ filter is_call L' -> ¬ ret_before L a b.
Proof.
  intros Hwf Hp. revert Hwf.
  induction Hp as [L s|L s e L1 s1 σ L2 s2 Hs Hp IH]; intros Hwf.
  { split_and!; [done|done|constructor|]. intros a b Ha. by apply elem_of_nil in Ha. }
  destruct (IH (lin_step_wf _ _ _ _ _ Hwf Hs)) as (Hperm & Hleg & Hord & Hleft).
  destruct Hs as [A e B r C s s1 HA He Hst].
  assert (HeL : e ∈ A ++ e :: B ++ r :: C) by set_solver.
  assert (Hr : mt r = None) by (by apply (live_call _ Hwf e r)).
  assert (Hin : forall b, b ∈ σ ++ filter is_call L2 -> b ∈ A ++ B ++ C).
  { intros b Hb. rewrite Hperm in Hb. by apply list_elem_of_filter in Hb as [_ ?]. }
  split_and!.
  - by rewrite filter_call_pair, <- Hperm.
  - simpl. exists s1. split; [|done]. unfold node_io. by rewrite He.
  - constructor.
    + apply Forall_forall. intros b Hb. apply lin_step_order; [done..|]. set_solver.
    + apply (ForallOrdPairs_impl_in _ _ _ Hord). intros a b Ha Hb Hnr Hret.
      apply Hnr. apply (ret_before_remove A e B r C); [done|done|set_solver..|done].
  - intros a b [->|Ha]%elem_of_cons Hb.
    + apply lin_step_order; [done..|]. set_solver.
    + intros Hret. apply (Hleft a b Ha Hb).
      apply (ret_before_remove A e B r C); [done|done|set_solver..|done].
Qed.

Lemma path_declarative L s σ s' :
  wf_live L -> path L s σ [] s' ->
  σ ≡ₚ filter is_call L ∧ legal M s (node_io <$> σ) ∧ order_ok L σ.
Proof.
  intros Hwf Hp. destruct (path_partial L s σ [] s' Hwf Hp) as (Hperm & ? & ? & _).
  rewrite filter_nil, app_nil_r in Hperm. done.
Qed.

(** A call that no return must precede: everything before it is a call. *)
Lemma first_call_prefix A e B r C σ :
  wf_live (A ++ e :: B ++ r :: C) -> mt e = Some r ->
  e :: σ ≡ₚ filter is_call (A ++ e :: B ++ r :: C) ->
  order_ok (A ++ e :: B ++ r :: C) (e :: σ) -> Forall is_call A.
Proof.
  intros Hwf He Hperm Hord. apply Forall_forall. intros a Ha.
  destruct (mt a) as [ra|] eqn:Hma; [unfold is_call; rewrite Hma; eauto|exfalso].
  destruct (live_return _ Hwf a ltac:(set_solver) Hma) as (c & Hc & Hmc).
  assert (Hnd := live_NoDup _ Hwf).
  assert (Hae : before (A ++ e :: B ++ r :: C) a e).
  { apply list_elem_of_split in Ha as (A1 & A2 & ->). apply before_split.
    exists A1, A2, (B ++ r :: C). by rewrite <- app_assoc. }
  assert (c ≠ e).
  { intros ->. destruct (live_call _ Hwf e a Hc Hmc) as [Hea _].
    by apply (before_asym _ a e Hnd). }
  assert (Hcσ : c ∈ e :: σ).
  { rewrite Hperm. apply list_elem_of_filter. split; [|done]. unfold is_call. eauto. }
  apply elem_of_cons in Hcσ as [->|Hcσ]; [done|].
  inversion Hord as [|? ? Hall _]; subst. rewrite Forall_forall in Hall.
  apply (Hall c Hcσ). exists a. done.
Qed.

Lemma declarative_path L s σ :
  wf_live L -> σ ≡ₚ filter is_call L -> legal M s (node_io <$> σ) -> order_ok L σ ->
  ∃ s', path L s σ [] s'.
Proof.
  revert L s. induction σ as [|e σ IH]; intros L s Hwf Hperm Hleg Hord.
  - destruct L as [|p L]; [exists s; constructor|exfalso].
    assert (Hnil : forall x, x ∉ filter is_call (p :: L)).
    { intros x. rewrite <- Hperm. apply not_elem_of_nil. }
    assert (Hcall : forall x, x ∈ p :: L -> mt x = None).
    { intros x Hx. destruct (mt x) eqn:E; [|done]. exfalso. apply (Hnil x).
      apply list_elem_of_filter. unfold is_call. rewrite E. eauto. }
    destruct (live_return _ Hwf p) as (e & He & Hm); [left|apply Hcall; left|].
    by rewrite Hcall in Hm.
  - assert (He : e ∈ filter is_call L) by (rewrite <- Hperm; left).
    apply list_elem_of_filter in He as [[r Hr] He].
    destruct (wf_live_split L e r Hwf He Hr) as (A & B & C & ->).
    simpl in Hleg. destruct Hleg as (s1 & Hst & Hleg). rewrite Hr in Hst. simpl in Hst.
    assert (HA := first_call_prefix _ _ _ _ _ _ Hwf Hr Hperm Hord).
    assert (Hrn : mt r = None) by (by apply (live_call _ Hwf e r)).
    rewrite filter_call_pair in Hperm by done. apply Permutation_cons_inv in Hperm.
    assert (Hwf' := wf_live_remove _ _ _ _ _ Hwf Hr).
    inversion Hord as [|? ? _ Hord']; subst.
    destruct (IH (A ++ B ++ C) s1) as [s' Hp]; try done.
    + apply (ForallOrdPairs_impl_in _ _ _ Hord'). intros a b Ha Hb Hnr (rb & Hrb & Hbef).
      apply Hnr. exists rb. split; [done|]. eapply before_sublist; [exact Hbef|].
      apply sublist_app; [done|]. apply sublist_cons, sublist_app; [done|].
      by apply sublist_cons.
    + exists s'. eapply path_cons; [|exact Hp]. by constructor.
Qed.

End Search.
