(* ===== verification/CheckSingle.v ===== *)
(** * [checkSingle] of [porcupine/checker.go]

    The search for a linearization of one partition: a loop over the linked
    entries with an explicit stack of the calls made so far ([calls]) and a cache of
    the configurations already visited.  [checkSingle] is the function; the
    invariants and the exploration lemma that prove it correct are in
    [CheckSingleProof]. *)
From S2P Require Import Prelude Bitset Model Entries LinkedList LinkedEntries.
Import Entry LinkedList.

(** The result of running a loop with a bounded number of iterations. *)
Inductive outcome (A : Type) :=
| Returned (a : A)
| Panicked
| OutOfFuel.
Arguments Returned {A}.
Arguments Panicked {A}.
Arguments OutOfFuel {A}.

Section CheckSingle.
Context {V : Type} `{Iface V}.

Record cacheEntry := CacheEntry { clinearized : list N; cstate : V }.

(** [elem] of [cache[entry.linearized.hash()]], in order, [Equal] called only on
    equal bit sets. *)
Fixpoint cacheContains_loop (model : Model V) (elems : list cacheEntry)
    (entry : cacheEntry) : option bool :=
  match elems with
  | [] => Some false
  | elem :: elems' =>
      if Bitset.equals (clinearized entry) (clinearized elem) then
        b ← callEqual model (cstate entry) (cstate elem);
        if (b : bool) then Some true else cacheContains_loop model elems' entry
      else cacheContains_loop model elems' entry
  end.

(** A missing key of a Go map reads as the empty slice. *)
Definition cache_get (cache : gmap N (list cacheEntry)) (h : N) : list cacheEntry :=
  default [] (cache !! h).

Definition cacheContains (model : Model V) (cache : gmap N (list cacheEntry))
    (entry : cacheEntry) : option bool :=
  cacheContains_loop model (cache_get cache (Bitset.hash (clinearized entry))) entry.

Record callsEntry := CallsEntry { centry : ptr; cestate : V }.

(** A [*[]int]: the identity of the variable and the slice it holds. *)
Abbreviation seqref := (nat * list Z)%type.

Record checker := Checker {
  heap : gmap ptr (node V);
  cursor : option ptr;            (* the variable [entry] *)
  linearized : list N;
  cache : gmap N (list cacheEntry);
  calls : list callsEntry;
  longest : list (option seqref);
  nseq : nat;                     (* the next fresh variable [seq] *)
  state : V
}.

Definition deref (m : gmap ptr (node V)) (p : ptr) : option (node V) := m !! p.

(** The ids of the entries on the stack. *)
Definition calls_ids (m : gmap ptr (node V)) (cs : list callsEntry) : option (list Z) :=
  mapM (λ v, nd ← deref m (centry v); Some (nid nd)) cs.

(** The loop under [computePartial]: point every entry of the stack to [seq] when
    that is longer than what it has. *)
Fixpoint longest_loop (m : gmap ptr (node V)) (callsLen : nat) (seq : seqref)
    (cs : list callsEntry) (longest : list (option seqref)) :
    option (list (option seqref)) :=
  match cs with
  | [] => Some longest
  | v :: cs' =>
      nd ← deref m (centry v);
      old ← longest.[nid nd];
      let upd := match old with
                 | None => true
                 | Some o => bool_decide (List.length (snd o) < callsLen)
                 end in
      longest ← (if (upd : bool) then longest.[nid nd := Some seq]
                 else Some longest);
      longest_loop m callsLen seq cs' longest
  end.

Definition update_longest (c : checker) : option (list (option seqref)) :=
  ids ← calls_ids (heap c) (calls c);
  longest_loop (heap c) (List.length (calls c)) (nseq c, ids) (calls c) (longest c).

Abbreviation result := (bool * list (option seqref))%type.

(** The branch of a call entry. *)
Definition visit_call (model : Model V) (head : ptr) (c : checker) (e : ptr)
    (nd : node V) (matching : ptr) : option checker :=
  nm ← deref (heap c) matching;
  '(ok, newState) ← Step model (state c) (value nd) (value nm);
  let skip := Checker (heap c) (next nd) (linearized c) (cache c) (calls c)
                (longest c) (nseq c) (state c) in
  if (ok : bool) then
    newLinearized ← Bitset.set (Bitset.clone (linearized c)) (wrap64 (nid nd));
    let newCacheEntry := CacheEntry newLinearized newState in
    hit ← cacheContains model (cache c) newCacheEntry;
    if negb hit then
      let h := Bitset.hash newLinearized in
      let cache' := <[h := cache_get (cache c) h ++ [newCacheEntry]]> (cache c) in
      let calls' := calls c ++ [CallsEntry e (state c)] in
      linearized' ← Bitset.set (linearized c) (wrap64 (nid nd));
      heap' ← lift (heap c) e;
      hd ← deref heap' head;
      Some (Checker heap' (next hd) linearized' cache' calls' (longest c) (nseq c) newState)
    else Some skip
  else Some skip.

(** The branch of a return entry, with a call to take back. *)
Definition backtrack (computePartial : bool) (c : checker) : option checker :=
  longest' ← (if computePartial then update_longest c else Some (longest c));
  callsTop ← last (calls c);
  let e := centry callsTop in
  nd ← deref (heap c) e;
  linearized' ← Bitset.clear (linearized c) (wrap64 (nid nd));
  let calls' := take (List.length (calls c) - 1) (calls c) in
  heap' ← unlift (heap c) e;
  nd' ← deref heap' e;
  Some (Checker heap' (next nd') linearized' (cache c) calls' longest' (S (nseq c))
          (cestate callsTop)).

(** One test of the loop condition and one run of the body: the next state, or the
    returned values. *)
Definition loop_step (model : Model V) (computePartial : bool) (n : nat) (head : ptr)
    (kill : Z) (c : checker) : option (checker + result) :=
  hd ← deref (heap c) head;
  match next hd with
  | None =>
      seq ← calls_ids (heap c) (calls c);
      Some (inr (true, replicate n (Some (nseq c, seq)) ++ drop n (longest c)))
  | Some _ =>
      if decide (kill ≠ 0%Z) then Some (inr (false, longest c))
      else
        e ← cursor c;
        nd ← deref (heap c) e;
        match match_ nd with
        | Some matching => inl <$> visit_call model head c e nd matching
        | None =>
            match calls c with
            | [] => Some (inr (false, longest c))
            | _ :: _ => inl <$> backtrack computePartial c
            end
        end
  end.

(** The loop; [kill k] is what iteration [k] loads from the variable [kill]. *)
Fixpoint run (model : Model V) (computePartial : bool) (n : nat) (head : ptr)
    (kill : nat -> Z) (fuel k : nat) (c : checker) : outcome result :=
  match fuel with
  | O => OutOfFuel
  | S fuel =>
      match loop_step model computePartial n head (kill k) c with
      | None => Panicked
      | Some (inl c') => run model computePartial n head kill fuel (S k) c'
      | Some (inr r) => Returned r
      end
  end.

(** The loop reaches the result [r] after [k] iterations that are not killed, and
    [longest] satisfies [P] all along. *)
Inductive resolves (model : Model V) (computePartial : bool) (n : nat) (head : ptr)
    (P : list (option seqref) -> Prop) : checker -> nat -> result -> Prop :=
| resolves_done c r :
    loop_step model computePartial n head 0 c = Some (inr r) -> P (longest c) -> P r.2 ->
    resolves model computePartial n head P c 0 r
| resolves_step c c' k r :
    loop_step model computePartial n head 0 c = Some (inl c') -> P (longest c) ->
    resolves model computePartial n head P c' k r ->
    resolves model computePartial n head P c (S k) r.

(** The code before the loop: the number of operations, the head node and the
    initial state. *)
Definition start (model : Model V) (history : list (entry V)) :
    option (nat * ptr * checker) :=
  st ← makeLinkedEntries history;
  len ← length (lheap st) (lroot st);
  let n := len / 2 in
  let head := lbrk st in
  let hnode := Node _ iface_nil None (-1)%Z None None in
  m ← insertBefore (<[head := hnode]> (lheap st)) head (lroot st);
  Some (n, head,
    Checker m (lroot st) (Bitset.newBitset (wrap64 (Z.of_nat n))) ∅ []
      (replicate n None) 0 (Init model)).

Definition checkSingle (fuel : nat) (model : Model V) (history : list (entry V))
    (computePartial : bool) (kill : nat -> Z) : outcome result :=
  match start model history with
  | None => Panicked
  | Some (n, head, c) => run model computePartial n head kill fuel 0 c
  end.

(** ** Facts about runs of the loop *)
Section Run.
Context (model : Model V) (computePartial : bool) (n : nat) (head : ptr).
Context (P : list (option seqref) -> Prop).
Abbreviation run := (run model computePartial n head).
Abbreviation resolves := (resolves model computePartial n head P).
Abbreviation loop_step := (loop_step model computePartial n head).

(** A test of [kill] that succeeds ends the loop, unless it is over anyway. *)
Lemma loop_step_killed kill c x :
  kill ≠ 0%Z -> loop_step 0 c = Some x ->
  loop_step kill c = Some (inr (false, longest c)) ∨
  loop_step kill c = Some x ∧ ∃ r, x = inr r.
Proof.
  intros Hk. unfold CheckSingle.loop_step.
  destruct (deref (heap c) head) as [hd|]; [simpl|done].
  destruct (next hd).
  - intros _. left. by rewrite decide_True.
  - destruct (calls_ids _ _) as [seq|]; [simpl|done]. intros [= <-]. right. eauto.
Qed.

(** With enough fuel an unkilled loop returns the result that it resolves to. *)
Lemma resolves_run c k r fuel j :
  resolves c k r -> k < fuel -> run (λ _, 0%Z) fuel j c = Returned r.
Proof.
  intros Hr. revert fuel j.
  induction Hr as [c r Hs HP HPr|c c' k r Hs HP Hr IH]; intros [|fuel] j Hf; try lia; simpl.
  - by rewrite Hs.
  - rewrite Hs. apply IH. lia.
Qed.

(** Whatever the loop reads from [kill]: it stops, keeps [P], and answers [true] only
    if the unkilled loop does. *)
Lemma resolves_kill c k r kill fuel j :
  resolves c k r -> k < fuel ->
  ∃ r', run kill fuel j c = Returned r' ∧ P r'.2 ∧ (r'.1 = true -> r.1 = true).
Proof.
  intros Hr. revert fuel j.
  induction Hr as [c r Hs HP HPr|c c' k r Hs HP Hr IH]; intros [|fuel] j Hf; try lia; simpl;
    destruct (decide (kill j = 0%Z)) as [->|Hk].
  - rewrite Hs. eauto.
  - destruct (loop_step_killed _ _ _ Hk Hs) as [-> |[-> _]]; [|by eauto].
    by exists (false, longest c).
  - rewrite Hs. apply IH. lia.
  - destruct (loop_step_killed _ _ _ Hk Hs) as [-> |[_ [r' Hr']]]; [|done].
    by exists (false, longest c).
Qed.

End Run.

Lemma resolves_impl model cp n head (P Q : list (option seqref) -> Prop) c k r :
  (forall l, P l -> Q l) -> resolves model cp n head P c k r ->
  resolves model cp n head Q c k r.
Proof.
  intros HPQ. induction 1; [by apply resolves_done; auto|].
  eapply resolves_step; eauto.
Qed.

End CheckSingle.
Arguments cacheEntry V : clear implicits.
Arguments callsEntry V : clear implicits.
Arguments checker V : clear implicits.
