(* ===== verification/CheckSingleProof.v ===== *)
(** * Correctness of [checkSingle]

    The loop explores the search relation [path] of [Linearizability]: from every
    configuration it either reaches a complete linearization, or comes back to the
    configuration with all nodes restored and the knowledge that it is dead. *)
From S2P Require Import Prelude Bitset Model Entries LinkedList LinkedEntries.
From S2P Require Import Linearizability CheckSingle.
Import Entry LinkedList.

Section Explore.
Context {V : Type} `{Iface V} (M : Model V) (op_ok : V -> V -> Prop) (valid : V -> Prop).
Context `{!ModelLaws M op_ok valid}.
(** The linked entries as [start] leaves them: [L0] after the node [head]. *)
Context (cp : bool) (n : nat) (head : ptr) (m0 : gmap ptr (node V)) (L0 : list ptr).

Definition pval (p : ptr) : V := from_option value iface_nil (m0 !! p).
Definition pid (p : ptr) : Z := from_option nid (-1)%Z (m0 !! p).
Definition pmt (p : ptr) : option ptr := m0 !! p ≫= match_.
(** The bit of a node's operation. *)
Definition pos (p : ptr) : N := wrap64 (pid p).

Record linked_entries : Prop := {
  le_small : (Z.of_nat n < 2 ^ 64)%Z;
  le_NoDup : NoDup (head :: L0);
  le_dlist : dlist m0 (head :: L0);
  le_wf : wf_live pmt L0;
  le_ids : forall p, p ∈ L0 -> (0 <= pid p < Z.of_nat n)%Z;
  le_pair : forall e r, e ∈ L0 -> pmt e = Some r -> pid r = pid e;
  le_inj : forall e e', e ∈ L0 -> e' ∈ L0 -> is_call pmt e -> is_call pmt e' ->
    pid e = pid e' -> e = e';
  le_all : forall k, (0 <= k < Z.of_nat n)%Z -> ∃ e, e ∈ L0 ∧ is_call pmt e ∧ pid e = k;
  le_ok : forall e r, e ∈ L0 -> pmt e = Some r -> op_ok (pval e) (pval r)
}.
Context (LE : linked_entries).

Abbreviation path := (path M pval pmt).
Abbreviation dead := (dead M pval pmt).
Abbreviation refuted := (refuted M pval pmt).

(** The nodes still in the list when the operations in [S] are linearized. *)
Definition live (S : gset N) : list ptr := filter (λ p, pos p ∉ S) L0.

Lemma live_sub S p : p ∈ live S -> p ∈ L0.
Proof. unfold live. rewrite list_elem_of_filter. tauto. Qed.

Lemma live_empty : live ∅ = L0.
Proof. apply filter_all. intros p _. apply not_elem_of_empty. Qed.

Lemma pos_eq p q : p ∈ L0 -> q ∈ L0 -> pos p = pos q <-> pid p = pid q.
Proof.
  intros Hp%(le_ids LE) Hq%(le_ids LE). pose proof (le_small LE). unfold pos.
  rewrite !wrap64_small by lia. lia.
Qed.

Lemma pos_lt p : p ∈ L0 -> (pos p < N.of_nat n)%N.
Proof.
  intros Hp%(le_ids LE). pose proof (le_small LE). unfold pos.
  rewrite wrap64_small by lia. lia.
Qed.

(** The two nodes of an operation are the ones with its id. *)
Lemma pid_pair e r p :
  e ∈ L0 -> pmt e = Some r -> p ∈ L0 -> pid p = pid e <-> p = e ∨ p = r.
Proof.
  intros He Hr Hp. split; [|intros [->| ->]; [done|by apply (le_pair LE)]].
  intros Hid. destruct (pmt p) as [q|] eqn:Hm.
  - left. apply (le_inj LE); try done; unfold is_call; [rewrite Hm|rewrite Hr]; eauto.
  - right. destruct (live_return _ _ (le_wf LE) p Hp Hm) as (c & Hc & Hcm).
    assert (c = e) as ->; [|congruence].
    apply (le_inj LE); try done; unfold is_call; [rewrite Hcm; eauto|rewrite Hr; eauto|].
    by rewrite <- (le_pair LE c p Hc Hcm).
Qed.

Lemma live_NoDup' S : NoDup (live S).
Proof. apply NoDup_filter, (live_NoDup _ _ (le_wf LE)). Qed.

(** Linearizing one more operation takes its two nodes out. *)
Lemma live_add S A e B r C :
  live S = A ++ e :: B ++ r :: C -> pmt e = Some r ->
  live ({[pos e]} ∪ S) = A ++ B ++ C.
Proof.
  intros Hl Hr. pose proof (live_NoDup' S) as Hnd. rewrite Hl in Hnd.
  rewrite (remove_pair_filter A e B r C Hnd), <- Hl. unfold live.
  rewrite list_filter_filter. apply filter_ext_in. intros p Hp.
  assert (He : e ∈ L0) by (apply (live_sub S); rewrite Hl; set_solver).
  rewrite not_elem_of_union, not_elem_of_singleton, (pos_eq p e Hp He).
  rewrite (pid_pair e r p He Hr Hp). tauto.
Qed.

(** ** Invariant of the loop *)

Definition ce_wf (ce : cacheEntry V) : Prop :=
  Bitset.wf (clinearized ce) ∧
  List.length (clinearized ce) = List.length (Bitset.newBitset (N.of_nat n)) ∧
  valid (cstate ce).

Definition ce_dead (ce : cacheEntry V) : Prop :=
  ce_wf ce ∧ dead (live (Bitset.mem (clinearized ce))) (cstate ce).

(** Every cached configuration is dead or is no deeper than the stack. *)
Definition cache_ok (ca : gmap N (list (cacheEntry V))) (k : nat) : Prop :=
  forall h ce, ce ∈ cache_get ca h ->
    ce_dead ce ∨ (ce_wf ce ∧ size (Bitset.mem (clinearized ce)) ≤ k).

(** The ids of a sequence of calls that is a linearization of its operations. *)
Definition partial_lin (ids : list Z) : Prop :=
  ∃ σ L s, path L0 (Init M) σ L s ∧ ids = pid <$> σ.

Definition longest_ok (l : list (option (nat * list Z))) : Prop :=
  List.length l = n ∧
  forall i q ids, l !! i = Some (Some (q, ids)) -> Z.of_nat i ∈ ids ∧ partial_lin ids.

Record inv (c : checker V) (S : gset N) (pre suf : list ptr) : Prop := {
  inv_live : live S = pre ++ suf;
  inv_list : dlist (heap c) (head :: pre ++ suf);
  inv_payload : same_payload m0 (heap c);
  inv_cursor : cursor c = first suf None;
  inv_bits : Bitset.wf (linearized c);
  inv_length : List.length (linearized c) = List.length (Bitset.newBitset (N.of_nat n));
  inv_mem : Bitset.mem (linearized c) = S;
  inv_path : path L0 (Init M) (centry <$> calls c) (live S) (state c);
  inv_valid : valid (state c);
  inv_cache : cache_ok (cache c) (size S);
  inv_longest : longest_ok (longest c)
}.

(** One iteration that is not killed, with [longest] sound after it. *)
Definition step (c c' : checker V) : Prop :=
  loop_step M cp n head 0 c = Some (inl c') ∧ longest_ok (longest c').

(** Reading a node of the history. *)
Lemma read_node m p :
  same_payload m0 m -> is_Some (m0 !! p) ->
  ∃ nd, m !! p = Some nd ∧ value nd = pval p ∧ match_ nd = pmt p ∧ nid nd = pid p.
Proof.
  intros Hs [nd0 Hp]. destruct (same_payload_lookup _ _ _ _ Hs Hp) as (nd & Hm & Hpl).
  exists nd. unfold pval, pmt, pid. rewrite Hp. simpl.
  apply payload_inj3 in Hpl. naive_solver.
Qed.

Lemma L0_lookup p : p ∈ L0 -> is_Some (m0 !! p).
Proof. intros Hp. eapply dseg_lookup; [apply (le_dlist LE)|]. by right. Qed.

Lemma path_elem L s σ L' s' e : path L s σ L' s' -> e ∈ σ -> e ∈ L ∧ is_call pmt e.
Proof.
  induction 1 as [|L s e' L1 s1 σ L2 s2 Hs Hp IH]; intros He; [by apply elem_of_nil in He|].
  destruct Hs as [A e' B r C s s1 HA Hr Hst].
  apply elem_of_cons in He as [->|He].
  - split; [set_solver|]. unfold is_call. rewrite Hr. eauto.
  - destruct (IH He) as [Hin Hc]. split; [set_solver|done].
Qed.

Lemma inv_head c S pre suf :
  inv c S pre suf -> ∃ hd, heap c !! head = Some hd ∧ next hd = first (pre ++ suf) None.
Proof.
  intros Hi. pose proof (inv_list _ _ _ _ Hi) as Hd. apply dseg_cons in Hd. naive_solver.
Qed.

Lemma inv_wf_live c S pre suf : inv c S pre suf -> wf_live pmt (live S).
Proof. intros Hi. exact (path_wf _ _ _ _ _ _ _ _ (le_wf LE) (inv_path _ _ _ _ Hi)). Qed.

(** The link of the node under the cursor. *)
Lemma inv_next c S pre p suf nd :
  inv c S pre (p :: suf) -> heap c !! p = Some nd -> next nd = first suf None.
Proof.
  intros Hi Hp. pose proof (inv_list _ _ _ _ Hi) as Hd.
  change (head :: pre ++ p :: suf) with ((head :: pre) ++ p :: suf) in Hd.
  apply dseg_app in Hd as [_ Hd]. apply dseg_cons in Hd as (nd' & Hp' & _ & Hn & _).
  congruence.
Qed.

Lemma bits_capacity b p :
  List.length b = List.length (Bitset.newBitset (N.of_nat n)) -> p ∈ L0 ->
  (pos p < Bitset.capacity b)%N.
Proof.
  intros Hl Hp%pos_lt. pose proof (Bitset.new_capacity (N.of_nat n)).
  unfold Bitset.capacity in *. rewrite Hl. lia.
Qed.

(** ** The branch of a call entry *)

Definition move_cursor (c : checker V) (x : option ptr) : checker V :=
  Checker (heap c) x (linearized c) (cache c) (calls c) (longest c) (nseq c) (state c).

Lemma inv_skip c S pre p suf :
  inv c S pre (p :: suf) -> inv (move_cursor c (first suf None)) S (pre ++ [p]) suf.
Proof.
  intros [Hl Hd ? ? ? ? ? ? ? ? ?]. split; simpl; try done.
  - by rewrite <- app_assoc.
  - by rewrite <- app_assoc.
Qed.

(** The nodes that the branch reads. *)
Lemma step_call c S pre p suf r :
  inv c S pre (p :: suf) -> pmt p = Some r ->
  ∃ nd nm, heap c !! p = Some nd ∧ heap c !! r = Some nm ∧
    value nd = pval p ∧ value nm = pval r ∧ nid nd = pid p ∧ match_ nd = Some r ∧
    next nd = first suf None ∧
    loop_step M cp n head 0 c = inl <$> visit_call M head c p nd r.
Proof.
  intros Hi Hr.
  assert (Hp : p ∈ L0) by (apply (live_sub S); rewrite (inv_live _ _ _ _ Hi); set_solver).
  assert (Hr0 : r ∈ L0).
  { destruct (live_call _ _ (le_wf LE) p r Hp Hr) as [Hb _].
    eauto with go. }
  destruct (read_node (heap c) p (inv_payload _ _ _ _ Hi) (L0_lookup p Hp))
    as (nd & Hnd & Hv & Hm & Hid).
  destruct (read_node (heap c) r (inv_payload _ _ _ _ Hi) (L0_lookup r Hr0))
    as (nm & Hnm & Hvm & _ & _).
  exists nd, nm. split_and!; try done; [congruence|by eapply inv_next|].
  destruct (inv_head _ _ _ _ Hi) as (hd & Hhd & Hnx).
  unfold loop_step, deref. rewrite Hhd. simpl. rewrite Hnx.
  destruct (first (pre ++ p :: suf) None) eqn:Hf; [|by destruct pre].
  rewrite (inv_cursor _ _ _ _ Hi). simpl.
  rewrite Hnd. simpl. by rewrite Hm, Hr.
Qed.

Lemma cacheContains_total elems ce :
  valid (cstate ce) -> (forall e, e ∈ elems -> valid (cstate e)) ->
  is_Some (cacheContains_loop M elems ce).
Proof.
  intros Hv. induction elems as [|e elems IH]; intros Hall; simpl; [eauto|].
  assert (is_Some (cacheContains_loop M elems ce)) by (apply IH; set_solver).
  destruct (Bitset.equals _ _); [|done].
  destruct (equal_total (M := M) (cstate ce) (cstate e)) as [b Hb]; [done|set_solver|].
  rewrite Hb. simpl. by destruct b.
Qed.

Lemma cacheContains_true elems ce :
  cacheContains_loop M elems ce = Some true ->
  ∃ e, e ∈ elems ∧ clinearized e = clinearized ce ∧
       callEqual M (cstate ce) (cstate e) = Some true.
Proof.
  induction elems as [|e elems IH]; simpl; [done|].
  destruct (Bitset.equals (clinearized ce) (clinearized e)) eqn:Heq.
  - apply Bitset.equals_eq in Heq.
    destruct (callEqual M (cstate ce) (cstate e)) as [[|]|] eqn:Hc; simpl; [|..|done].
    + intros _. exists e. split_and!; [left|done|done].
    + intros (e' & He' & ?)%IH. exists e'. split; [by right|done].
  - intros (e' & He' & ?)%IH. exists e'. split; [by right|done].
Qed.

(** A state that is [Equal] to another has no more linearizations. *)
Lemma path_sim L s t σ s1 :
  (forall e, e ∈ L -> e ∈ L0) -> valid s -> valid t -> callEqual M s t = Some true ->
  path L s σ [] s1 -> ∃ t1, path L t σ [] t1.
Proof.
  intros HL Hs Ht Heq Hp. remember [] as L' eqn:HL'. revert t HL Hs Ht Heq.
  induction Hp as [L s|L s e L1 s1 σ L2 s2 Hst Hp IH]; intros t HL Hs Ht Heq; subst.
  - exists t. constructor.
  - destruct Hst as [A e B r C s s1 HA Hr Hst].
    assert (Hok : op_ok (pval e) (pval r)) by (apply (le_ok LE); [apply HL; set_solver|done]).
    destruct (equal_sim (M := M) s t _ _ s1 Hs Ht Hok Heq Hst) as (t1 & Ht1 & Heq1).
    destruct (step_total (M := M) s _ _ Hs Hok) as (b & s' & E & Hv1).
    destruct (step_total (M := M) t _ _ Ht Hok) as (b' & t' & E' & Hv2).
    rewrite Hst in E. rewrite Ht1 in E'. simplify_eq.
    destruct (IH eq_refl t') as [t2 Hp2]; [set_solver|by apply Hv1|by apply Hv2|done|].
    exists t2. eapply path_cons; [|exact Hp2]. by constructor.
Qed.

(** Only the given result of the model's step can start a linearization with [p]. *)
Lemma refuted_no_step S s p r :
  live S ≠ [] -> pmt p = Some r -> (forall s', Step M s (pval p) (pval r) ≠ Some (true, s')) ->
  refuted (live S) s p.
Proof.
  intros _ Hr Hno σ s' Hp. inversion Hp as [|? ? ? ? ? ? ? ? Hst]; subst.
  inversion Hst; subst. simplify_eq. by eapply Hno.
Qed.

Lemma refuted_child S pre p suf r s s' :
  live S = pre ++ p :: suf -> wf_live pmt (live S) -> pmt p = Some r ->
  Step M s (pval p) (pval r) = Some (true, s') ->
  dead (live ({[pos p]} ∪ S)) s' -> refuted (live S) s p.
Proof.
  intros Hl Hwf Hr Hst Hdead σ sf Hp. inversion Hp as [|? ? ? ? ? ? ? ? Hls Hrest]; subst.
  inversion Hls as [A ? B r' C ? ? HA Hr' Hst' HL]; subst. simplify_eq.
  eapply (Hdead σ). rewrite (live_add S A p B r C); [|done..]. exact Hrest.
Qed.

(** The state after the call [p] has been linearized. *)
Record pushed (c : checker V) (S : gset N) (p : ptr) (s' : V) (c1 : checker V) : Prop := {
  pushed_inv : inv c1 ({[pos p]} ∪ S) [] (live ({[pos p]} ∪ S));
  pushed_calls : calls c1 = calls c ++ [CallsEntry p (state c)];
  pushed_state : state c1 = s';
  pushed_heap : unlift (heap c1) p = Some (heap c);
  pushed_bits : Bitset.set (linearized c) (pos p) = Some (linearized c1);
  pushed_longest : longest c1 = longest c;
  pushed_cache : forall h ce, ce ∈ cache_get (cache c1) h ->
    ce ∈ cache_get (cache c) h ∨
    (ce_wf ce ∧ Bitset.mem (clinearized ce) = {[pos p]} ∪ S ∧ cstate ce = s')
}.

(** A configuration found in the cache is dead. *)
Lemma refuted_hit c S pre p suf r s' b :
  inv c S pre (p :: suf) -> pmt p = Some r ->
  Step M (state c) (pval p) (pval r) = Some (true, s') -> valid s' ->
  Bitset.set (linearized c) (pos p) = Some b ->
  cacheContains M (cache c) (CacheEntry b s') = Some true ->
  refuted (live S) (state c) p.
Proof.
  intros Hi Hr Hst Hv' Hb (ce & Hce & Hbits & Heq)%cacheContains_true.
  assert (HpS : pos p ∉ S).
  { assert (Hp : p ∈ live S) by (rewrite (inv_live _ _ _ _ Hi); set_solver).
    unfold live in Hp. by apply list_elem_of_filter in Hp as [? _]. }
  assert (Hmem : Bitset.mem (clinearized ce) = {[pos p]} ∪ S).
  { rewrite Hbits. simpl. by rewrite (Bitset.mem_set _ _ _ Hb), (inv_mem _ _ _ _ Hi). }
  apply (refuted_child S pre p suf r (state c) s'); try done.
  - apply (inv_live _ _ _ _ Hi).
  - by eapply inv_wf_live.
  - destruct (inv_cache _ _ _ _ Hi _ _ Hce) as [[(_ & _ & Hv) Hdead]|[_ Hsz]].
    + rewrite Hmem in Hdead. intros σ sf Hp.
      destruct (path_sim _ s' (cstate ce) σ sf (live_sub _) Hv' Hv Heq Hp) as [t1 Ht1].
      by apply (Hdead σ t1).
    + rewrite Hmem, size_union, size_singleton in Hsz by set_solver. lia.
Qed.

Lemma cache_get_insert (ca : gmap N (list (cacheEntry V))) h h' l :
  cache_get (<[h := l]> ca) h' = if decide (h = h') then l else cache_get ca h'.
Proof. unfold cache_get. rewrite lookup_insert. by case_decide. Qed.

(** Adding a configuration of the next depth to the cache. *)
Lemma cache_ok_push ca k h ce :
  cache_ok ca k -> ce_wf ce -> size (Bitset.mem (clinearized ce)) = S k ->
  cache_ok (<[h := cache_get ca h ++ [ce]]> ca) (S k).
Proof.
  intros Hca Hwf Hsz h' ce' Hce'. rewrite cache_get_insert in Hce'.
  assert (Hold : ce' ∈ cache_get ca h' ->
    ce_dead ce' ∨ (ce_wf ce' ∧ size (Bitset.mem (clinearized ce')) ≤ S k)).
  { intros Hin. destruct (Hca _ _ Hin) as [|[? ?]]; [by left|right; split; [done|lia]]. }
  case_decide; [|by apply Hold]. subst.
  apply elem_of_app in Hce' as [Hin|Hin]; [by apply Hold|].
  apply list_elem_of_singleton in Hin as ->. right. split; [done|lia].
Qed.

(** The nodes of an operation in the live list. *)
Lemma inv_split c S pre p suf r :
  inv c S pre (p :: suf) -> pmt p = Some r -> ∃ B C, suf = B ++ r :: C.
Proof.
  intros Hi Hr. pose proof (inv_wf_live _ _ _ _ Hi) as Hwf.
  pose proof (live_NoDup' S) as Hnd. rewrite (inv_live _ _ _ _ Hi) in Hwf, Hnd.
  destruct (wf_live_split _ _ p r Hwf) as (A & B & C & Heq); [set_solver|done|].
  apply NoDup_split_unique in Heq as [_ ->]; [|done]. eauto.
Qed.

Lemma inv_lift c S pre p B r C :
  inv c S pre (p :: B ++ r :: C) -> pmt p = Some r ->
  ∃ m', lift (heap c) p = Some m' ∧ dlist m' (head :: pre ++ B ++ C) ∧
        same_payload m0 m' ∧ unlift m' p = Some (heap c).
Proof.
  intros Hi Hr. destruct (snoc_of_cons head pre) as (X & x & Ex).
  assert (Hsp : forall D, head :: pre ++ D = X ++ x :: D).
  { intros D. change (head :: pre ++ D) with ((head :: pre) ++ D). rewrite Ex.
    by rewrite <- app_assoc. }
  pose proof (inv_list _ _ _ _ Hi) as Hd. rewrite Hsp in Hd.
  assert (Hnd : NoDup (X ++ x :: p :: B ++ r :: C)).
  { rewrite <- Hsp, <- (inv_live _ _ _ _ Hi). pose proof (le_NoDup LE) as Hn.
    apply NoDup_cons in Hn as [Hh _]. apply NoDup_cons. split; [|apply live_NoDup'].
    intros Hin. apply Hh. by eapply live_sub. }
  destruct (read_node (heap c) p (inv_payload _ _ _ _ Hi)) as (nd & Hnd' & _ & Hm & _).
  { apply L0_lookup, (live_sub S). rewrite (inv_live _ _ _ _ Hi). set_solver. }
  destruct (lift_spec (heap c) None X x p B r C nd) as (m' & Hlift & Hd' & Hs & Hun);
    [done|done|done|congruence|].
  exists m'. split_and!; [done| | |done].
  - by rewrite (Hsp (B ++ C)).
  - transitivity (heap c); [apply (inv_payload _ _ _ _ Hi)|done].
Qed.

(** The state that [visit_call] builds satisfies the invariant. *)
Lemma pushed_intro c S pre p B r C s' b m' hd :
  inv c S pre (p :: B ++ r :: C) -> pmt p = Some r ->
  Step M (state c) (pval p) (pval r) = Some (true, s') -> valid s' ->
  Forall (is_call pmt) pre ->
  Bitset.set (linearized c) (pos p) = Some b ->
  dlist m' (head :: pre ++ B ++ C) -> same_payload m0 m' ->
  unlift m' p = Some (heap c) -> m' !! head = Some hd ->
  pushed c S p s'
    (Checker m' (next hd) b
      (<[Bitset.hash b := cache_get (cache c) (Bitset.hash b) ++ [CacheEntry b s']]> (cache c))
      (calls c ++ [CallsEntry p (state c)]) (longest c) (nseq c) s').
Proof.
  intros Hi Hr Hst Hv Hpre Hb Hd Hs Hun Hhd.
  assert (HpS : pos p ∉ S).
  { assert (Hp : p ∈ live S) by (rewrite (inv_live _ _ _ _ Hi); set_solver).
    unfold live in Hp. by apply list_elem_of_filter in Hp as [? _]. }
  assert (Hlive := live_add S pre p B r C (inv_live _ _ _ _ Hi) Hr).
  assert (Hmem : Bitset.mem b = {[pos p]} ∪ S).
  { by rewrite (Bitset.mem_set _ _ _ Hb), (inv_mem _ _ _ _ Hi). }
  assert (Hsize : size ({[pos p]} ∪ S) = Datatypes.S (size S)).
  { rewrite size_union by set_solver. by rewrite size_singleton. }
  assert (Hce : ce_wf (CacheEntry b s')).
  { split_and!; simpl; [|..|done].
    - by eapply Bitset.set_wf; [apply (inv_bits _ _ _ _ Hi)|].
    - by rewrite (Bitset.set_length _ _ _ Hb), (inv_length _ _ _ _ Hi). }
  split; simpl; try done.
  - split; simpl; try done.
    + by rewrite Hlive.
    + apply dseg_cons in Hd as (hd' & Hhd' & _ & Hnx & _). rewrite Hlive. congruence.
    + apply Hce.
    + apply Hce.
    + rewrite fmap_app, Hlive. simpl. eapply path_snoc; [apply (inv_path _ _ _ _ Hi)|].
      rewrite (inv_live _ _ _ _ Hi). by constructor.
    + rewrite Hsize. apply cache_ok_push; [apply (inv_cache _ _ _ _ Hi)|done|].
      simpl. by rewrite Hmem.
    + apply (inv_longest _ _ _ _ Hi).
  - intros h ce Hin. rewrite cache_get_insert in Hin. case_decide as Hh; [subst|by left].
    apply elem_of_app in Hin as [|Hin]; [by left|]. right.
    apply list_elem_of_singleton in Hin as ->. split_and!; done.
Qed.

(** What one iteration does on a call entry: it moves on with the call refuted, or
    linearizes the call. *)
Lemma visit_spec c S pre p suf r :
  inv c S pre (p :: suf) -> pmt p = Some r -> Forall (is_call pmt) pre ->
  (step c (move_cursor c (first suf None)) ∧ refuted (live S) (state c) p) ∨
  ∃ s' c1, Step M (state c) (pval p) (pval r) = Some (true, s') ∧
           step c c1 ∧ pushed c S p s' c1.
Proof.
  intros Hi Hr Hpre.
  destruct (step_call _ _ _ _ _ _ Hi Hr)
    as (nd & nm & Hnd & Hnm & Hv & Hvm & Hid & Hm & Hnx & Hstep).
  assert (HpL : p ∈ live S) by (rewrite (inv_live _ _ _ _ Hi); set_solver).
  assert (Hp : p ∈ L0) by (by eapply live_sub).
  assert (Hne : live S ≠ []) by (intros E; rewrite E in HpL; by apply elem_of_nil in HpL).
  destruct (step_total (M := M) (state c) (pval p) (pval r) (inv_valid _ _ _ _ Hi)
    (le_ok LE p r Hp Hr)) as (ok & s' & Hst & Hvalid).
  unfold step. pose proof (inv_longest _ _ _ _ Hi) as Hlong.
  rewrite Hstep. unfold visit_call, deref. rewrite Hnm. simpl.
  rewrite Hv, Hvm, Hst. simpl. rewrite Hnx. destruct ok.
  2: { left. split; [done|]. apply (refuted_no_step S (state c) p r Hne Hr).
       intros s1. rewrite Hst. congruence. }
  rewrite Bitset.clone_eq, Hid. fold (pos p).
  destruct (proj2 (Bitset.set_is_Some (linearized c) (pos p))) as [b Hb].
  { apply bits_capacity; [apply (inv_length _ _ _ _ Hi)|done]. }
  rewrite Hb. simpl. specialize (Hvalid eq_refl).
  destruct (cacheContains_total (cache_get (cache c) (Bitset.hash b)) (CacheEntry b s'))
    as [hit Hhit]; [done| |].
  { intros ce Hce. by destruct (inv_cache _ _ _ _ Hi _ _ Hce) as [[(_&_&?) _]|[(_&_&?) _]]. }
  assert (Hhit' : cacheContains M (cache c) (CacheEntry b s') = Some hit) by exact Hhit.
  rewrite Hhit'. simpl. destruct hit; simpl.
  - left. split; [done|]. by eapply refuted_hit.
  - right. destruct (inv_split _ _ _ _ _ _ Hi Hr) as (B & C & ->).
    destruct (inv_lift _ _ _ _ _ _ _ Hi Hr) as (m' & Hlift & Hd & Hs & Hun).
    pose proof Hd as Hd0. apply dseg_cons in Hd0 as (hd & Hhd & _).
    eexists s', _. split; [done|]. rewrite Hlift. simpl. rewrite Hhd.
    split; [split; done|]. by eapply pushed_intro.
Qed.

(** ** The branch of a return entry *)

Lemma calls_ids_spec m cs :
  same_payload m0 m -> (forall v, v ∈ cs -> centry v ∈ L0) ->
  calls_ids m cs = Some (pid <$> (centry <$> cs)).
Proof.
  intros Hs. unfold calls_ids, deref. induction cs as [|v cs IH]; intros Hin; [done|].
  destruct (read_node m (centry v) Hs) as (nd & Hnd & _ & _ & Hid).
  { apply L0_lookup, Hin. left. }
  simpl. rewrite Hnd. simpl. rewrite IH by set_solver. simpl.
  by rewrite Hid.
Qed.

Lemma longest_loop_spec m k seq cs l :
  same_payload m0 m -> (forall v, v ∈ cs -> centry v ∈ L0 ∧ pid (centry v) ∈ seq.2) ->
  partial_lin seq.2 -> longest_ok l ->
  ∃ l', longest_loop m k seq cs l = Some l' ∧ longest_ok l'.
Proof.
  intros Hs. revert l. induction cs as [|v cs IH]; intros l Hin Hlin Hl; simpl; [eauto|].
  destruct (Hin v) as [Hv Hvs]; [left|].
  destruct (read_node m (centry v) Hs (L0_lookup _ Hv)) as (nd & Hnd & _ & _ & Hid).
  unfold deref. rewrite Hnd. simpl. rewrite Hid.
  pose proof (le_ids LE _ Hv) as Hrange. destruct Hl as [Hlen Hl].
  set (i := Z.to_nat (pid (centry v))).
  assert (Hi : pid (centry v) = Z.of_nat i) by lia.
  rewrite Hi. autorewrite with go.
  destruct (lookup_lt_is_Some_2 l i ltac:(lia)) as [old Hold]. rewrite Hold. simpl.
  case_match; simpl.
  - autorewrite with go. simpl. apply IH; [set_solver|done|].
    split; [by rewrite length_insert|]. intros j q ids Hj.
    apply list_lookup_insert_Some in Hj as [(<- & [= E] & _)|[_ Hj]]; [|by eapply Hl].
    rewrite E in Hvs, Hlin. simpl in *. split; [congruence|done].
  - apply IH; [set_solver|done|done].
Qed.

Lemma update_longest_spec c S pre suf :
  inv c S pre suf -> ∃ l', update_longest c = Some l' ∧ longest_ok l'.
Proof.
  intros Hi. unfold update_longest.
  assert (Hin : forall v, v ∈ calls c -> centry v ∈ L0).
  { intros v Hv. apply (path_elem _ _ _ _ _ _ (inv_path _ _ _ _ Hi)).
    by apply list_elem_of_fmap_2. }
  rewrite calls_ids_spec by (apply (inv_payload _ _ _ _ Hi) || done). simpl.
  apply longest_loop_spec; [apply (inv_payload _ _ _ _ Hi)| | |apply (inv_longest _ _ _ _ Hi)].
  - intros v Hv. split; [auto|]. simpl. by apply list_elem_of_fmap_2, list_elem_of_fmap_2.
  - eexists _, _, _. split; [apply (inv_path _ _ _ _ Hi)|done].
Qed.

(** The exploration of configuration [(S, state c)] came back without success: the
    cursor is on a return entry, everything but the cache is as before, and what was
    added to the cache is dead. *)
Record failed (c : checker V) (S : gset N) (c' : checker V) : Prop := {
  failed_heap : heap c' = heap c;
  failed_calls : calls c' = calls c;
  failed_state : state c' = state c;
  failed_bits : linearized c' = linearized c;
  failed_cache : forall h ce, ce ∈ cache_get (cache c') h ->
    ce ∈ cache_get (cache c) h ∨ ce_dead ce;
  failed_inv : ∃ pre r suf, inv c' S pre (r :: suf) ∧ pmt r = None
}.

(** Clearing the bit that was set gives the old bit set back. *)
Lemma clear_set c S pre p suf b1 b2 :
  inv c S pre (p :: suf) -> Bitset.set (linearized c) (pos p) = Some b1 ->
  Bitset.clear b1 (pos p) = Some b2 -> b2 = linearized c.
Proof.
  intros Hi H1 H2. pose proof (inv_bits _ _ _ _ Hi) as Hw.
  assert (HpS : pos p ∉ S).
  { assert (Hp : p ∈ live S) by (rewrite (inv_live _ _ _ _ Hi); set_solver).
    unfold live in Hp. by apply list_elem_of_filter in Hp as [? _]. }
  apply Bitset.mem_inj.
  - eapply Bitset.clear_wf; [|done]. by eapply Bitset.set_wf.
  - done.
  - by rewrite (Bitset.clear_length _ _ _ H2), (Bitset.set_length _ _ _ H1).
  - rewrite (Bitset.mem_clear _ _ _ H2), (Bitset.mem_set _ _ _ H1), (inv_mem _ _ _ _ Hi).
    set_solver.
Qed.

(** The iteration that takes the call [p] back. *)
Lemma step_backtrack c S pre p suf s' c1 c2 :
  inv c S pre (p :: suf) -> pushed c S p s' c1 -> failed c1 ({[pos p]} ∪ S) c2 ->
  ∃ l k, longest_ok l ∧
    step c2 (Checker (heap c) (first suf None) (linearized c) (cache c2) (calls c) l k
              (state c)).
Proof.
  intros Hi Hpu Hfa. destruct (failed_inv _ _ _ Hfa) as (pre2 & r & suf2 & Hi2 & Hr).
  assert (Hp : p ∈ L0) by (apply (live_sub S); rewrite (inv_live _ _ _ _ Hi); set_solver).
  assert (Hr0 : r ∈ L0).
  { eapply live_sub. rewrite (inv_live _ _ _ _ Hi2). set_solver. }
  pose proof (inv_payload _ _ _ _ Hi2) as Hs2.
  destruct (read_node (heap c2) r Hs2 (L0_lookup r Hr0)) as (nr & Hnr & _ & Hmr & _).
  destruct (read_node (heap c2) p Hs2 (L0_lookup p Hp)) as (np & Hnp & _ & _ & Hidp).
  destruct (read_node (heap c) p (inv_payload _ _ _ _ Hi) (L0_lookup p Hp))
    as (np' & Hnp' & _).
  assert (Hcalls : calls c2 = calls c ++ [CallsEntry p (state c)]).
  { by rewrite (failed_calls _ _ _ Hfa), (pushed_calls _ _ _ _ _ Hpu). }
  destruct (proj2 (Bitset.clear_is_Some (linearized c2) (pos p))) as [b2 Hb2].
  { apply bits_capacity; [apply (inv_length _ _ _ _ Hi2)|done]. }
  assert (b2 = linearized c) as ->.
  { eapply clear_set; [exact Hi|apply (pushed_bits _ _ _ _ _ Hpu)|].
    by rewrite <- (failed_bits _ _ _ Hfa). }
  assert (Hlong : ∃ l, (if cp then update_longest c2 else Some (longest c2)) = Some l ∧
                       longest_ok l).
  { destruct cp; [by eapply update_longest_spec|].
    exists (longest c2). split; [done|apply (inv_longest _ _ _ _ Hi2)]. }
  destruct Hlong as (l & Hl & Hlok). exists l, (Datatypes.S (nseq c2)). split; [done|]. split; [|done].
  destruct (inv_head _ _ _ _ Hi2) as (hd & Hhd & Hnx).
  unfold loop_step, deref. rewrite Hhd. simpl. rewrite Hnx.
  destruct (first (pre2 ++ r :: suf2) None) eqn:Hf; [|by destruct pre2].
  rewrite (inv_cursor _ _ _ _ Hi2). simpl. rewrite Hnr. simpl. rewrite Hmr, Hr.
  destruct (calls c2) as [|v vs] eqn:Ecalls; [by destruct (calls c)|]. rewrite <- Ecalls in *.
  unfold backtrack, deref. rewrite Hl. simpl. rewrite Hcalls, last_snoc. simpl.
  rewrite Hnp. simpl. rewrite Hidp. fold (pos p). rewrite Hb2. simpl.
  rewrite (failed_heap _ _ _ Hfa), (pushed_heap _ _ _ _ _ Hpu). simpl. rewrite Hnp'. simpl.
  rewrite (inv_next _ _ _ _ _ _ Hi Hnp'), length_app, take_app_length'; [done|].
  simpl. lia.
Qed.

(** The cache after a failed exploration of a child is sound for its parent. *)
Lemma cache_after_failure c S p s' c1 c2 pre suf :
  inv c S pre (p :: suf) -> pushed c S p s' c1 -> failed c1 ({[pos p]} ∪ S) c2 ->
  dead (live ({[pos p]} ∪ S)) s' ->
  forall h ce, ce ∈ cache_get (cache c2) h -> ce ∈ cache_get (cache c) h ∨ ce_dead ce.
Proof.
  intros Hi Hpu Hfa Hdead h ce [Hin|]%(failed_cache _ _ _ Hfa); [|by right].
  destruct (pushed_cache _ _ _ _ _ Hpu h ce Hin) as [|(Hwf & Hmem & Hst)]; [by left|].
  right. split; [done|]. by rewrite Hmem, Hst.
Qed.

Lemma cache_ok_extend ca ca' k :
  cache_ok ca k ->
  (forall h ce, ce ∈ cache_get ca' h -> ce ∈ cache_get ca h ∨ ce_dead ce) -> cache_ok ca' k.
Proof. intros Hca Hext h ce [Hin|Hd]%Hext; [by apply (Hca h)|by left]. Qed.

(** ** Exploration *)

Definition succeeded (c : checker V) : Prop := ∃ S, inv c S [] [].

Definition explored (c : checker V) (S : gset N) : Prop :=
  (∃ c', rtc step c c' ∧ succeeded c') ∨
  (∃ c', rtc step c c' ∧ failed c S c' ∧ dead (live S) (state c)).

(** A return entry under the cursor, all calls before it refuted: dead. *)
Lemma dead_at_return c S pre r suf :
  inv c S pre (r :: suf) -> pmt r = None ->
  Forall (refuted (live S) (state c)) pre -> dead (live S) (state c).
Proof.
  intros Hi Hr Hpre σ sf Hp. rewrite (inv_live _ _ _ _ Hi) in Hp.
  inversion Hp as [|? ? e ? ? σe ? ? Hst Hrest]; subst; [by destruct pre|].
  inversion Hst as [A ? B r' C ? ? HA He Hstep Heq]; subst.
  assert (Hin : e ∈ pre).
  { assert (HrA : r ∉ A).
    { intros HrA. rewrite Forall_forall in HA. destruct (HA r HrA). congruence. }
    assert (Hel : e ∈ pre ++ r :: suf) by (rewrite <- Heq; set_solver).
    destruct (decide (e ∈ pre)) as [|Hn]; [done|exfalso].
    apply elem_of_app in Hel as [|Hel]; [done|].
    apply elem_of_cons in Hel as [->|Hel]; [congruence|].
    apply list_elem_of_split in Hel as (D & E & ->).
    pose proof (live_NoDup' S) as Hnd. rewrite (inv_live _ _ _ _ Hi) in Hnd.
    replace (pre ++ r :: D ++ e :: E) with ((pre ++ r :: D) ++ e :: E) in Heq, Hnd
      by (by rewrite <- app_assoc).
    symmetry in Heq. apply NoDup_split_unique in Heq as [<- _]; [|done].
    apply HrA. set_solver. }
  rewrite Forall_forall in Hpre. apply (Hpre e Hin σe sf).
  by rewrite (inv_live _ _ _ _ Hi).
Qed.

(** A live list that is not empty holds a return entry. *)
Lemma live_has_return S :
  wf_live pmt (live S) -> live S ≠ [] -> ¬ Forall (is_call pmt) (live S).
Proof.
  intros Hwf Hne Hall. destruct (live S) as [|p l] eqn:E; [done|].
  rewrite Forall_forall in Hall.
  destruct (Hall p) as [r Hr]; [left|].
  destruct (live_call _ _ Hwf p r) as [Hb Hn]; [left|done|].
  apply before_elem_of in Hb as [_ Hin]. destruct (Hall r Hin). congruence.
Qed.

(** Going from the state [c] to [c3], from which the exploration continues at the
    same configuration with a sound larger cache. *)
Lemma explored_continue c c3 S :
  rtc step c c3 -> heap c3 = heap c -> calls c3 = calls c -> state c3 = state c ->
  linearized c3 = linearized c ->
  (forall h ce, ce ∈ cache_get (cache c3) h -> ce ∈ cache_get (cache c) h ∨ ce_dead ce) ->
  explored c3 S -> explored c S.
Proof.
  intros Hst Hh Hc Hs Hl Hca [(c' & Hr & Hsu)|(c' & Hr & Hfa & Hd)].
  - left. exists c'. split; [by etrans|done].
  - right. exists c'. split; [by etrans|]. destruct Hfa as [F1 F2 F3 F4 F5 F6].
    split; [|by rewrite <- Hs]. split; [congruence..| |exact F6].
    intros h ce [Hin|?]%F5; [by apply Hca|by right].
Qed.

Lemma is_call_decision p : Decision (is_call pmt p).
Proof. unfold is_call. apply _. Defined.

(** The exploration of a configuration from a position on: every call before the
    position is refuted.  Outer induction on the number of live nodes, inner
    induction on the nodes after the position. *)
Lemma explore N : forall suf c S pre,
  List.length (live S) ≤ N -> inv c S pre suf -> live S ≠ [] ->
  Forall (is_call pmt) pre -> Forall (refuted (live S) (state c)) pre -> explored c S.
Proof.
  induction N as [|N IHN].
  { intros suf c S pre Hlen _ Hne. destruct (live S); [done|simpl in Hlen; lia]. }
  induction suf as [|p suf IHsuf]; intros c S pre Hlen Hi Hne Hcalls Href.
  { exfalso. apply (live_has_return S); [by eapply inv_wf_live|done|].
    by rewrite (inv_live _ _ _ _ Hi), app_nil_r. }
  destruct (pmt p) as [r|] eqn:Hr.
  2: { right. exists c. split; [done|]. split; [|by eapply dead_at_return].
       split; try done; [by left|]. exists pre, p, suf. done. }
  assert (Hcalls' : Forall (is_call pmt) (pre ++ [p])).
  { apply Forall_app. split; [done|]. apply Forall_singleton. unfold is_call.
    rewrite Hr. eauto. }
  destruct (visit_spec _ _ _ _ _ _ Hi Hr Hcalls) as [[Hst Hrp]|(s' & c1 & Hs' & Hst & Hpu)].
  - eapply explored_continue; [by eapply rtc_once|done..|by left|].
    apply (IHsuf _ S (pre ++ [p])); [done|by apply inv_skip|done|done|].
    apply Forall_app. split; [done|]. by apply Forall_singleton.
  - assert (Hlive := inv_split _ _ _ _ _ _ Hi Hr). destruct Hlive as (B & C & ->).
    assert (Hadd := live_add S pre p B r C (inv_live _ _ _ _ Hi) Hr).
    destruct (decide (live ({[pos p]} ∪ S) = [])) as [Hnil|Hnn].
    { left. exists c1. split; [by eapply rtc_once|]. exists ({[pos p]} ∪ S).
      rewrite <- Hnil at 2. apply (pushed_inv _ _ _ _ _ Hpu). }
    destruct (IHN (live ({[pos p]} ∪ S)) c1 ({[pos p]} ∪ S) []) as [(c' & Hr' & Hsu)|(c2 & Hr2 & Hfa & Hdead)].
    + rewrite Hadd. rewrite (inv_live _ _ _ _ Hi) in Hlen.
      rewrite !length_app in *. simpl in Hlen. rewrite length_app in Hlen. simpl in Hlen.
      rewrite ?length_app. lia.
    + apply (pushed_inv _ _ _ _ _ Hpu).
    + done.
    + done.
    + done.
    + left. exists c'. split; [|done]. by eapply rtc_l.
    + rewrite (pushed_state _ _ _ _ _ Hpu) in Hdead.
      destruct (step_backtrack _ _ _ _ _ _ _ _ Hi Hpu Hfa) as (l & k & Hl & Hst3).
      assert (Hca := cache_after_failure _ _ _ _ _ _ _ _ Hi Hpu Hfa Hdead).
      match type of Hst3 with step _ ?c3 => apply (explored_continue c c3 S) end;
        [|done..|exact Hca|].
      { eapply rtc_l; [exact Hst|]. eapply rtc_r; [exact Hr2|exact Hst3]. }
      apply (IHsuf _ S (pre ++ [p])); [done| |done|done|].
      * apply inv_skip in Hi. destruct Hi. split; simpl; try done.
        by eapply cache_ok_extend.
      * apply Forall_app. split; [done|]. apply Forall_singleton. simpl.
        eapply refuted_child; [apply (inv_live _ _ _ _ Hi)| |exact Hr|exact Hs'|exact Hdead].
        by eapply inv_wf_live.
Qed.

(** ** The result of the loop *)

Lemma steps_resolve c c' k r :
  longest_ok (longest c) -> rtc step c c' -> resolves M cp n head longest_ok c' k r ->
  ∃ k', resolves M cp n head longest_ok c k' r.
Proof.
  intros Hl Hst Hr. revert Hl. induction Hst as [c|c c1 c' [Hs Hl1] Hst IH]; intros Hl.
  - by exists k.
  - destruct (IH Hr Hl1) as [k' Hk']. exists (S k'). by eapply resolves_step.
Qed.

Lemma success_returns c :
  succeeded c -> ∃ l, loop_step M cp n head 0 c = Some (inr (true, l)) ∧ longest_ok l ∧
                      ∃ σ s', path L0 (Init M) σ [] s'.
Proof.
  intros [S Hi]. pose proof (inv_path _ _ _ _ Hi) as Hp.
  rewrite (inv_live _ _ _ _ Hi) in Hp. simpl in Hp.
  destruct (inv_head _ _ _ _ Hi) as (hd & Hhd & Hnx). simpl in Hnx.
  unfold loop_step, deref. rewrite Hhd. simpl. rewrite Hnx.
  rewrite calls_ids_spec; [simpl|apply (inv_payload _ _ _ _ Hi)|].
  2: { intros v Hv. apply (path_elem _ _ _ _ _ _ (inv_path _ _ _ _ Hi)).
       by apply list_elem_of_fmap_2. }
  eexists. split; [done|]. split; [|eauto].
  destruct (inv_longest _ _ _ _ Hi) as [Hlen _]. rewrite drop_ge, app_nil_r by lia.
  split; [apply length_replicate|]. intros i q ids Hlk.
  apply lookup_replicate in Hlk as [Heq Hlt]. injection Heq as -> ->.
  destruct (path_declarative _ _ _ _ _ _ _ (le_wf LE) Hp) as (Hperm & _ & _). split.
  - destruct (le_all LE (Z.of_nat i)) as (e & He & Hc & <-); [lia|].
    apply list_elem_of_fmap_2. rewrite Hperm. by apply list_elem_of_filter.
  - by eexists _, _, _.
Qed.

Lemma failure_returns c c' S :
  failed c S c' -> calls c = [] ->
  ∃ l, loop_step M cp n head 0 c' = Some (inr (false, l)) ∧ l = longest c' ∧ longest_ok l.
Proof.
  intros Hfa Hc. destruct (failed_inv _ _ _ Hfa) as (pre & r & suf & Hi & Hr).
  exists (longest c'). split; [|split; [done|apply (inv_longest _ _ _ _ Hi)]].
  destruct (inv_head _ _ _ _ Hi) as (hd & Hhd & Hnx).
  destruct (read_node (heap c') r (inv_payload _ _ _ _ Hi)) as (nr & Hnr & _ & Hmr & _).
  { apply L0_lookup, (live_sub S). rewrite (inv_live _ _ _ _ Hi). set_solver. }
  unfold loop_step, deref. rewrite Hhd. simpl. rewrite Hnx.
  destruct (first (pre ++ r :: suf) None) eqn:Hf; [|by destruct pre].
  rewrite (inv_cursor _ _ _ _ Hi). simpl. rewrite Hnr. simpl.
  by rewrite Hmr, Hr, (failed_calls _ _ _ Hfa), Hc.
Qed.

(** The loop terminates and decides whether the entries have a linearization. *)
Lemma loop_decides c :
  inv c ∅ [] L0 -> calls c = [] ->
  ∃ k b l, resolves M cp n head longest_ok c k (b, l) ∧
    (b = true <-> ∃ σ s', path L0 (Init M) σ [] s').
Proof.
  intros Hi Hc. pose proof (inv_longest _ _ _ _ Hi) as Hlong.
  assert (Hst0 : path L0 (Init M) [] L0 (state c)).
  { pose proof (inv_path _ _ _ _ Hi) as Hp. by rewrite Hc, live_empty in Hp. }
  assert (Hexp : explored c ∅).
  { destruct (decide (L0 = [])) as [Hnil|Hne].
    - left. exists c. split; [done|]. exists ∅. by rewrite <- Hnil at 2.
    - apply (explore (List.length (live ∅)) L0 c ∅ []); try done. by rewrite live_empty. }
  destruct Hexp as [(c' & Hr & Hsu)|(c' & Hr & Hfa & Hdead)].
  - destruct (success_returns c' Hsu) as (l & Hl & Hlok & Hpath).
    destruct Hsu as [S Hi'].
    destruct (steps_resolve c c' 0 (true, l) Hlong Hr) as [k Hk].
    { apply resolves_done; [done|apply (inv_longest _ _ _ _ Hi')|done]. }
    exists k, true, l. done.
  - destruct (failure_returns c c' ∅ Hfa Hc) as (l & Hl & El & Hlok).
    destruct (steps_resolve c c' 0 (false, l) Hlong Hr) as [k Hk].
    { apply resolves_done; [done|by rewrite <- El|done]. }
    exists k, false, l. split; [done|]. split; [done|].
    intros (σ & s' & Hp). exfalso. rewrite live_empty in Hdead.
    assert (E : state c = Init M) by (by inversion Hst0). rewrite E in Hdead.
    by apply (Hdead σ s').
Qed.

End Explore.
