(* ===== verification/CheckSingleSpec.v ===== *)
(** * What [checkSingle] decides

    The state that [start] builds for a well-formed list of entries meets the
    hypotheses of the exploration, and the search relation on its nodes is the
    declarative order on the entries. *)
From S2P Require Import Prelude Bitset Model Entries LinkedList LinkedEntries.
From S2P Require Import Linearizability CheckSingle CheckSingleProof.
Import Entry LinkedList.

(** ** Linearizability of a list of entries *)
Section EntriesSpec.
Context {V : Type} `{Iface V}.

(** The value of the call or return entry of operation [k]. *)
Definition entry_value (es : list (entry V)) (kd : entryKind) (k : Z) : V :=
  from_option Entry.value iface_nil (head (filter (λ e, key e = (kd, k)) es)).

Definition entry_io (es : list (entry V)) (k : Z) : V * V :=
  (entry_value es callEntry k, entry_value es returnEntry k).

(** Operation [b] returned before operation [a] was called. *)
Definition returned_before (es : list (entry V)) (b a : Z) : Prop :=
  ∃ r c, before es r c ∧ key r = (returnEntry, b) ∧ key c = (callEntry, a).

Definition entries_linearizable (M : Model V) (n : nat) (es : list (entry V)) : Prop :=
  ∃ τ : list Z, τ ≡ₚ seqZ 0 (Z.of_nat n) ∧ legal M (Init M) (entry_io es <$> τ) ∧
    ForallOrdPairs (λ a b, ¬ returned_before es b a) τ.

(** A linearization of some of the operations: legal, in real-time order, and
    leaving out no operation that returned before one of them was called. *)
Record partial_linearization (M : Model V) (n : nat) (es : list (entry V)) (ids : list Z) :
    Prop := {
  partial_NoDup : NoDup ids;
  partial_range : forall k, k ∈ ids -> (0 <= k < Z.of_nat n)%Z;
  partial_legal : legal M (Init M) (entry_io es <$> ids);
  partial_order : ForallOrdPairs (λ a b, ¬ returned_before es b a) ids;
  partial_closed : forall a b, a ∈ ids -> (0 <= b < Z.of_nat n)%Z -> b ∉ ids ->
    ¬ returned_before es b a
}.

(** What [checkSingle] stores for each operation when [computePartial] is set. *)
Definition longest_correct (M : Model V) (n : nat) (es : list (entry V))
    (l : list (option (nat * list Z))) : Prop :=
  List.length l = n ∧
  forall i q ids, l !! i = Some (Some (q, ids)) ->
    Z.of_nat i ∈ ids ∧ partial_linearization M n es ids.

(** The inputs and outputs that a list of entries pairs up. *)
Definition entries_ok (op_ok : V -> V -> Prop) (es : list (entry V)) : Prop :=
  forall c r k, c ∈ es -> r ∈ es -> key c = (callEntry, k) -> key r = (returnEntry, k) ->
    op_ok (Entry.value c) (Entry.value r).

Lemma entry_value_of es kd k e :
  NoDup (key <$> es) -> e ∈ es -> key e = (kd, k) -> entry_value es kd k = Entry.value e.
Proof.
  intros Hnd He Hk. unfold entry_value. by rewrite (filter_key_unique key es _ e).
Qed.

End EntriesSpec.

(** ** Positions in a reversed list *)

Lemma reverse_before {A} (l : list A) p q x y :
  reverse l !! p = Some x -> reverse l !! q = Some y -> q < p -> before l x y.
Proof.
  intros Hp Hq Hlt. apply before_lookup.
  exists (List.length l - S p), (List.length l - S q).
  apply reverse_lookup_lt in Hp as Hpl. apply reverse_lookup_lt in Hq as Hql.
  rewrite reverse_lookup_Some in Hp, Hq. destruct Hp as [Hp _], Hq as [Hq _].
  split; [lia|done].
Qed.

Lemma reverse_elem {A} (l : list A) x : x ∈ l -> ∃ p, reverse l !! p = Some x.
Proof. intros Hx. apply list_elem_of_lookup. by apply elem_of_reverse. Qed.

Section Start.
Context {V : Type} `{Iface V} (M : Model V) (op_ok : V -> V -> Prop) (valid : V -> Prop).
Context `{!ModelLaws M op_ok valid}.
Context (n : nat) (es : list (entry V)).
Context (Hwf : wf_entries n es) (Hsmall : (Z.of_nat n < 2 ^ 63)%Z) (Hok : entries_ok op_ok es).

Lemma before_addrs p q :
  before (addrs es) p q <-> q < p ∧ p < List.length es.
Proof.
  rewrite before_lookup. unfold addrs. setoid_rewrite reverse_lookup_Some.
  setoid_rewrite lookup_seq. rewrite length_seq. split.
  - intros (i & j & Hij & [Hp Hi] & [Hq Hj]). lia.
  - intros [Hqp Hp]. exists (List.length es - S p), (List.length es - S q). lia.
Qed.

Lemma before_reverse x y p q :
  reverse es !! p = Some x -> reverse es !! q = Some y -> before es x y -> q < p.
Proof.
  intros Hp Hq Hb.
  assert (Hnd : NoDup es) by (apply (NoDup_fmap_1 key), (wf_keys _ _ Hwf)).
  destruct (Nat.lt_trichotomy q p) as [?|[->|Hlt]]; [done|..]; exfalso.
  - assert (x = y) as -> by congruence. by apply (before_asym es y y Hnd).
  - apply (before_asym es x y Hnd); [done|by eapply reverse_before].
Qed.

(** The heap after the head node has been put in front. *)
Context (m0 : gmap ptr (node V)).
Context (Hlist : dlist m0 (List.length es :: addrs es)).
Context (Hnodes : forall p e, reverse es !! p = Some e ->
  ∃ nd, m0 !! p = Some nd ∧ node_ok es p e nd).

Abbreviation pval := (pval m0).
Abbreviation pmt := (pmt m0).
Abbreviation pid := (pid m0).

Lemma node_facts p e :
  reverse es !! p = Some e ->
  pval p = Entry.value e ∧ pid p = id e ∧
  forall q, pmt p = Some q <->
    kind e = callEntry ∧ q < p ∧ ∃ r, reverse es !! q = Some r ∧ key r = (returnEntry, id e).
Proof.
  intros Hp. destruct (Hnodes p e Hp) as (nd & Hnd & Hv & Hi & Hm).
  unfold CheckSingleProof.pval, CheckSingleProof.pid, CheckSingleProof.pmt.
  rewrite Hnd. simpl. done.
Qed.

Lemma match_facts p e q :
  reverse es !! p = Some e -> pmt p = Some q ->
  kind e = callEntry ∧ q < p ∧ ∃ r, reverse es !! q = Some r ∧ key r = (returnEntry, id e).
Proof. intros Hp Hq. by apply (node_facts p e Hp). Qed.

Lemma addr_entry p : p ∈ addrs es -> ∃ e, reverse es !! p = Some e.
Proof.
  rewrite elem_of_addrs. intros Hp. apply lookup_lt_is_Some_2. by rewrite length_reverse.
Qed.

Lemma entry_addr p e : reverse es !! p = Some e -> p ∈ addrs es.
Proof. rewrite elem_of_addrs. apply reverse_lookup_lt. Qed.

Lemma reverse_in p e : reverse es !! p = Some e -> e ∈ es.
Proof. intros Hp. apply elem_of_reverse. by eapply list_elem_of_lookup_2. Qed.

(** A call node points to its return node. *)
Lemma call_match p e :
  reverse es !! p = Some e -> kind e = callEntry ->
  ∃ q r, pmt p = Some q ∧ reverse es !! q = Some r ∧ key r = (returnEntry, id e).
Proof.
  intros Hp Hk. destruct (wf_pairs _ _ Hwf (id e)) as (c & r & Hb & Hc & Hr).
  { apply (wf_ids _ _ Hwf). by eapply reverse_in. }
  apply before_elem_of in Hb as Hin. destruct Hin as [Hcin Hrin].
  destruct (reverse_elem es c Hcin) as [pc Hpc], (reverse_elem es r Hrin) as [q Hq].
  assert (pc = p) as ->.
  { eapply reverse_key_inj; [apply (wf_keys _ _ Hwf)|done|done|].
    rewrite Hc. unfold key. by rewrite Hk. }
  exists q, r. split_and!; [|done|done]. apply (node_facts p e Hp).
  split_and!; [done| |by exists r]. by eapply before_reverse.
Qed.

Lemma return_match p e : reverse es !! p = Some e -> pmt p = None <-> kind e = returnEntry.
Proof.
  intros Hp. split.
  - intros Hn. destruct (kind e) eqn:Hk; [|done].
    destruct (call_match p e Hp Hk) as (q & r & Hq & _). congruence.
  - intros Hk. destruct (pmt p) as [q|] eqn:Hq; [|done].
    destruct (match_facts p e q Hp Hq) as [Hc _]. congruence.
Qed.

Lemma call_kind p e : reverse es !! p = Some e -> is_call pmt p <-> kind e = callEntry.
Proof.
  intros Hp. pose proof (return_match p e Hp) as Hr. unfold is_call. split.
  - intros [q Hq]. by destruct (match_facts p e q Hp Hq) as [? _].
  - intros Hk. destruct (call_match p e Hp Hk) as (q & _ & Hq & _). eauto.
Qed.

Lemma start_wf_live : wf_live pmt (addrs es).
Proof.
  split.
  - apply addrs_NoDup.
  - intros p q Hp Hq. destruct (addr_entry p Hp) as [e He].
    destruct (match_facts p e _ He Hq) as (Hk & Hlt & r & Hr & Hkr). split.
    + apply before_addrs. rewrite elem_of_addrs in Hp. done.
    + apply (return_match q r Hr). by injection Hkr.
  - intros q Hq Hn. destruct (addr_entry q Hq) as [r Hr].
    apply (return_match q r Hr) in Hn.
    destruct (wf_pairs _ _ Hwf (id r)) as (c & r' & Hb & Hc & Hr').
    { apply (wf_ids _ _ Hwf). by eapply reverse_in. }
    apply before_elem_of in Hb as Hin. destruct Hin as [Hcin _].
    destruct (reverse_elem es c Hcin) as [p Hp]. exists p.
    injection Hc as Hkc Hidc. split; [by eapply entry_addr|].
    destruct (call_match p c Hp Hkc) as (q' & r'' & Hq' & Hr'' & Hkr).
    rewrite Hq'. f_equal. eapply reverse_key_inj; [apply (wf_keys _ _ Hwf)|done|done|].
    rewrite Hkr, Hidc. unfold key. by rewrite Hn.
  - intros p p' q Hp Hp' Hq Hq'. destruct (addr_entry p Hp) as [e He].
    destruct (addr_entry p' Hp') as [e' He'].
    destruct (match_facts p e _ He Hq) as (Hk & _ & r & Hr & Hkr).
    destruct (match_facts p' e' _ He' Hq') as (Hk' & _ & r' & Hr' & Hkr').
    eapply reverse_key_inj; [apply (wf_keys _ _ Hwf)|done|done|].
    unfold key. rewrite Hk, Hk'. f_equal. simplify_eq. rewrite Hkr in Hkr'. by injection Hkr'.
Qed.

Lemma start_linked : linked_entries op_ok n (List.length es) m0 (addrs es).
Proof.
  split.
  - lia.
  - apply NoDup_cons. split; [rewrite elem_of_addrs; lia|apply addrs_NoDup].
  - done.
  - apply start_wf_live.
  - intros p Hp. destruct (addr_entry p Hp) as [e He].
    destruct (node_facts p e He) as (_ & -> & _). apply (wf_ids _ _ Hwf).
    by eapply reverse_in.
  - intros p q Hp Hq. destruct (addr_entry p Hp) as [e He].
    destruct (node_facts p e He) as (_ & -> & _).
    destruct (match_facts p e q He Hq) as (_ & _ & r & Hr & Hkr).
    destruct (node_facts q r Hr) as (_ & -> & _). by injection Hkr.
  - intros p p' Hp Hp' Hc Hc' Hid. destruct (addr_entry p Hp) as [e He].
    destruct (addr_entry p' Hp') as [e' He'].
    apply (call_kind p e He) in Hc. apply (call_kind p' e' He') in Hc'.
    destruct (node_facts p e He) as (_ & Hi & _).
    destruct (node_facts p' e' He') as (_ & Hi' & _).
    eapply reverse_key_inj; [apply (wf_keys _ _ Hwf)|done|done|].
    unfold key. rewrite Hc, Hc'. f_equal. congruence.
  - intros k Hk. destruct (wf_pairs _ _ Hwf k Hk) as (c & r & Hb & Hc & Hr).
    apply before_elem_of in Hb as [Hcin _].
    destruct (reverse_elem es c Hcin) as [p Hp]. injection Hc as Hkc Hidc. exists p.
    split_and!; [by eapply entry_addr|by apply (call_kind p c Hp)|].
    by destruct (node_facts p c Hp) as (_ & -> & _).
  - intros p q Hp Hq. destruct (addr_entry p Hp) as [e He].
    destruct (match_facts p e _ He Hq) as (Hk & Hlt & r & Hr & Hkr).
    destruct (node_facts p e He) as (-> & _ & _), (node_facts q r Hr) as (-> & _ & _).
    apply (Hok e r (id e)); [by eapply reverse_in..| |done]. unfold key. by rewrite Hk.
Qed.

(** ** From nodes to entries *)

Let LE := start_linked.

Lemma call_node p :
  p ∈ filter (is_call pmt) (addrs es) ->
  ∃ e q r, reverse es !! p = Some e ∧ key e = (callEntry, pid p) ∧ pmt p = Some q ∧
           reverse es !! q = Some r ∧ key r = (returnEntry, pid p).
Proof.
  intros [Hc Hp]%list_elem_of_filter. destruct (addr_entry p Hp) as [e He].
  apply (call_kind p e He) in Hc. destruct (node_facts p e He) as (_ & Hi & _).
  destruct (call_match p e He Hc) as (q & r & Hq & Hr & Hk). exists e, q, r.
  rewrite Hi. split_and!; [done| |done..]. unfold key. by rewrite Hc.
Qed.

Lemma node_io_entry p :
  p ∈ filter (is_call pmt) (addrs es) -> node_io pval pmt p = entry_io es (pid p).
Proof.
  intros Hp. destruct (call_node p Hp) as (e & q & r & He & Hke & Hq & Hr & Hkr).
  unfold node_io, entry_io. rewrite Hq. simpl.
  rewrite (entry_value_of es _ _ e), (entry_value_of es _ _ r);
    [|apply (wf_keys _ _ Hwf)|by eapply reverse_in|done
     |apply (wf_keys _ _ Hwf)|by eapply reverse_in|done].
  by destruct (node_facts p e He) as (-> & _), (node_facts q r Hr) as (-> & _).
Qed.

Lemma ret_before_entry a b :
  a ∈ filter (is_call pmt) (addrs es) -> b ∈ filter (is_call pmt) (addrs es) ->
  ret_before pmt (addrs es) a b <-> returned_before es (pid b) (pid a).
Proof.
  intros Ha Hb. destruct (call_node a Ha) as (ea & qa & ra & Hea & Hka & _).
  destruct (call_node b Hb) as (eb & qb & rb & Heb & Hkb & Hqb & Hrb & Hkrb). split.
  - intros (q & Hq & Hbef). assert (q = qb) as -> by congruence.
    apply before_addrs in Hbef as [Hlt _]. exists rb, ea.
    split; [by eapply reverse_before|done].
  - intros (r & c & Hbef & Hkr & Hkc). exists qb. split; [done|].
    apply before_elem_of in Hbef as Hin. destruct Hin as [Hrin Hcin].
    destruct (reverse_elem es r Hrin) as [p1 Hp1], (reverse_elem es c Hcin) as [p2 Hp2].
    pose proof (before_reverse _ _ _ _ Hp1 Hp2 Hbef) as Hlt.
    assert (p1 = qb) as ->.
    { eapply reverse_key_inj; [apply (wf_keys _ _ Hwf)|done|done|congruence]. }
    assert (p2 = a) as ->.
    { eapply reverse_key_inj; [apply (wf_keys _ _ Hwf)|done|done|congruence]. }
    apply before_addrs. split; [done|]. by eapply reverse_lookup_lt.
Qed.

Lemma pid_calls : pid <$> filter (is_call pmt) (addrs es) ≡ₚ seqZ 0 (Z.of_nat n).
Proof.
  apply NoDup_Permutation.
  - apply NoDup_fmap_2_strong; [|apply NoDup_filter, addrs_NoDup].
    intros x y [Hcx Hx]%list_elem_of_filter [Hcy Hy]%list_elem_of_filter Hid.
    by apply (le_inj _ _ _ _ _ LE).
  - apply NoDup_seqZ.
  - intros k. rewrite elem_of_seqZ, list_elem_of_fmap. split.
    + intros (p & -> & [_ Hp]%list_elem_of_filter). apply (le_ids _ _ _ _ _ LE) in Hp. lia.
    + intros Hk. destruct (le_all _ _ _ _ _ LE k) as (e & He & Hc & <-); [lia|].
      exists e. split; [done|]. by apply list_elem_of_filter.
Qed.

(** Every list of ids is the list of ids of call nodes. *)
Lemma ids_nodes (τ : list Z) :
  (forall k, k ∈ τ -> (0 <= k < Z.of_nat n)%Z) ->
  ∃ σ, τ = pid <$> σ ∧ forall p, p ∈ σ -> p ∈ filter (is_call pmt) (addrs es).
Proof.
  induction τ as [|k τ IH]; intros Hτ; [exists []; split; [done|set_solver]|].
  destruct IH as (σ & -> & Hσ); [intros; apply Hτ; by right|].
  destruct (le_all _ _ _ _ _ LE k) as (e & He & Hc & <-); [apply Hτ; left|].
  exists (e :: σ). split; [done|]. intros p [->|Hp]%elem_of_cons; [|auto].
  by apply list_elem_of_filter.
Qed.

Lemma path_entries :
  (∃ σ s', path M pval pmt (addrs es) (Init M) σ [] s') <-> entries_linearizable M n es.
Proof.
  split.
  - intros (σ & s' & Hp).
    apply (path_declarative _ _ _ _ _ _ _ start_wf_live) in Hp as (Hperm & Hleg & Hord).
    assert (Hσ : forall p, p ∈ σ -> p ∈ filter (is_call pmt) (addrs es)).
    { intros p Hp. by rewrite <- Hperm. }
    exists (pid <$> σ). split_and!.
    + rewrite Hperm. apply pid_calls.
    + rewrite <- list_fmap_compose.
      rewrite (list_fmap_ext (entry_io es ∘ pid) (node_io pval pmt) σ); [done|].
      intros i x Hx%list_elem_of_lookup_2. symmetry. by apply node_io_entry, Hσ.
    + apply ForallOrdPairs_fmap. apply (ForallOrdPairs_impl_in _ _ _ Hord).
      intros a b Ha Hb Hn. rewrite <- ret_before_entry; auto.
  - intros (τ & Hperm & Hleg & Hord).
    destruct (ids_nodes τ) as (σ & -> & Hσ).
    { intros k Hk. rewrite Hperm, elem_of_seqZ in Hk. lia. }
    exists σ. refine (declarative_path M pval pmt _ _ _ start_wf_live _ _ _).
    + apply NoDup_Permutation.
      * apply (NoDup_fmap_1 pid). rewrite Hperm. apply NoDup_seqZ.
      * apply NoDup_filter, addrs_NoDup.
      * intros p. split; [auto|]. intros Hp.
        assert (Hk : pid p ∈ pid <$> σ).
        { rewrite Hperm, <- pid_calls. by apply list_elem_of_fmap_2. }
        apply list_elem_of_fmap in Hk as (p' & Hid & Hp'). 
        apply Hσ in Hp' as Hf. apply list_elem_of_filter in Hf as [Hc' Hl'].
        apply list_elem_of_filter in Hp as [Hc Hl].
        by rewrite (le_inj _ _ _ _ _ LE p p' Hl Hl' Hc Hc' Hid).
    + rewrite <- list_fmap_compose in Hleg.
      rewrite (list_fmap_ext (node_io pval pmt) (entry_io es ∘ pid) σ); [done|].
      intros i x Hx%list_elem_of_lookup_2. by apply node_io_entry, Hσ.
    + apply ForallOrdPairs_fmap in Hord. apply (ForallOrdPairs_impl_in _ _ _ Hord).
      intros a b Ha Hb Hn. rewrite ret_before_entry; auto.
Qed.

Lemma partial_entries ids :
  partial_lin M m0 (addrs es) ids -> partial_linearization M n es ids.
Proof.
  intros (σ & L & s' & Hp & ->).
  destruct (path_partial _ _ _ _ _ _ _ _ start_wf_live Hp) as (Hperm & Hleg & Hord & Hleft).
  assert (Hσ : forall p, p ∈ σ -> p ∈ filter (is_call pmt) (addrs es)).
  { intros p Hin. rewrite <- Hperm. set_solver. }
  assert (Hids := pid_calls). rewrite <- Hperm, fmap_app in Hids.
  split.
  - pose proof (NoDup_seqZ 0 (Z.of_nat n)) as Hnd. rewrite <- Hids in Hnd.
    by apply NoDup_app in Hnd as [? _].
  - intros k Hk. assert (Hin : k ∈ seqZ 0 (Z.of_nat n)) by (rewrite <- Hids; set_solver).
    rewrite elem_of_seqZ in Hin. lia.
  - rewrite <- list_fmap_compose.
    rewrite (list_fmap_ext (entry_io es ∘ pid) (node_io pval pmt) σ); [done|].
    intros i x Hx%list_elem_of_lookup_2. symmetry. by apply node_io_entry, Hσ.
  - apply ForallOrdPairs_fmap. apply (ForallOrdPairs_impl_in _ _ _ Hord).
    intros a b Ha Hb Hn. rewrite <- ret_before_entry; auto.
  - intros ka kb (a & -> & Ha)%list_elem_of_fmap Hkb Hnin.
    assert (Hb : kb ∈ seqZ 0 (Z.of_nat n)) by (rewrite elem_of_seqZ; lia).
    rewrite <- Hids, elem_of_app in Hb. destruct Hb as [|Hb]; [done|].
    apply list_elem_of_fmap in Hb as (b & -> & Hb).
    rewrite <- ret_before_entry; [by apply Hleft|by apply Hσ|].
    rewrite <- Hperm. set_solver.
Qed.

End Start.

(** ** [checkSingle] on well-formed entries *)
Section Decides.
Context {V : Type} `{Iface V} (M : Model V) (op_ok : V -> V -> Prop) (valid : V -> Prop).
Context `{!ModelLaws M op_ok valid}.

(** The code before the loop succeeds and establishes the invariant. *)
Lemma start_spec n es :
  wf_entries n es -> (Z.of_nat n < 2 ^ 63)%Z ->
  ∃ m0 c, start M es = Some (n, List.length es, c) ∧ calls c = [] ∧
    dlist m0 (List.length es :: addrs es) ∧
    (forall p e, reverse es !! p = Some e ->
       ∃ nd, m0 !! p = Some nd ∧ node_ok es p e nd) ∧
    inv M valid n (List.length es) m0 (addrs es) c ∅ [] (addrs es).
Proof.
  intros Hwf Hsmall.
  destruct (makeLinkedEntries_linked es (wf_keys _ _ Hwf)) as (st & Hst & Hl).
  set (hnode := Node V iface_nil None (-1)%Z None None).
  destruct (insert_entry es st hnode Hl) as (m & Hm & Hd & _ & Hpay); [done..|].
  pose proof Hl as [Hb Hr _ Hlist _ Hnodes].
  exists m. eexists. split.
  { unfold start. rewrite Hst. cbn -[Nat.div].
    rewrite Hr, (length_spec _ None (addrs es) (addrs_NoDup es) Hlist). cbn -[Nat.div].
    fold hnode. rewrite Hr in Hm. rewrite Hm. cbn -[Nat.div].
    assert (Hlen : List.length (addrs es) / 2 = n).
    { unfold addrs. rewrite length_reverse, length_seq, (wf_length _ _ Hwf).
      by rewrite Nat.mul_comm, Nat.div_mul. }
    rewrite Hlen, Hb. done. }
  split; [done|]. split; [done|]. split.
  { intros p e Hp. destruct (Hnodes p e Hp) as (nd & Hnd & Hok).
    apply reverse_lookup_lt in Hp as Hlt.
    destruct (Hpay p nd) as (nd' & Hnd' & Hpl).
    { rewrite lookup_insert_ne; [done|lia]. }
    exists nd'. split; [done|]. by eapply node_ok_payload. }
  assert (Hw : wrap64 (Z.of_nat n) = N.of_nat n) by (rewrite wrap64_small; lia).
  split; simpl.
  - by rewrite live_empty.
  - done.
  - done.
  - done.
  - apply Bitset.new_wf.
  - by rewrite Hw.
  - apply Bitset.mem_new.
  - rewrite live_empty. constructor.
  - apply init_valid.
  - intros h ce Hin. unfold cache_get in Hin. rewrite lookup_empty in Hin.
    by apply elem_of_nil in Hin.
  - split; [apply length_replicate|]. intros i q ids Hlk.
    by apply lookup_replicate in Hlk as [? _].
Qed.

(** The loop that [checkSingle] starts resolves to the right answer. *)
Lemma start_resolves n es cp :
  wf_entries n es -> (Z.of_nat n < 2 ^ 63)%Z -> entries_ok op_ok es ->
  ∃ c k b l, start M es = Some (n, List.length es, c) ∧
    resolves M cp n (List.length es) (longest_correct M n es) c k (b, l) ∧
    (b = true <-> entries_linearizable M n es).
Proof.
  intros Hwf Hsmall Hok.
  destruct (start_spec n es Hwf Hsmall) as (m0 & c & Hst & Hcalls & Hd & Hnodes & Hi).
  pose proof (start_linked op_ok n es Hwf Hsmall Hok m0 Hd Hnodes) as LE.
  destruct (loop_decides M op_ok valid cp n _ m0 (addrs es) LE c Hi Hcalls)
    as (k & b & l & Hr & Hb).
  exists c, k, b, l. split_and!; [done| |].
  - eapply resolves_impl; [|exact Hr]. intros l' [Hlen Hl]. split; [done|].
    intros i q ids Hlk. destruct (Hl i q ids Hlk) as [Hin Hp].
    split; [done|]. by eapply partial_entries.
  - rewrite Hb. by eapply path_entries.
Qed.

(** [checkSingle] terminates without a panic, and returns [true] exactly when the
    entries have a linearization. *)
Lemma checkSingle_decides n es cp :
  wf_entries n es -> (Z.of_nat n < 2 ^ 63)%Z -> entries_ok op_ok es ->
  ∃ fuel0 b l,
    (forall fuel, fuel0 ≤ fuel -> checkSingle fuel M es cp (λ _, 0%Z) = Returned (b, l)) ∧
    longest_correct M n es l ∧ (b = true <-> entries_linearizable M n es).
Proof.
  intros Hwf Hsmall Hok.
  destruct (start_resolves n es cp Hwf Hsmall Hok) as (c & k & b & l & Hst & Hr & Hb).
  exists (S k), b, l. split_and!; [| |done].
  - intros fuel Hf. unfold checkSingle. rewrite Hst. eapply resolves_run; [done|lia].
  - clear -Hr. remember (b, l) as r eqn:E. induction Hr as [c r ? ? HP|]; subst; auto.
Qed.

(** Whatever is read from [kill]: [checkSingle] returns, an answer [true] is right,
    and so are the partial linearizations. *)
Lemma checkSingle_kill_decides n es cp kill :
  wf_entries n es -> (Z.of_nat n < 2 ^ 63)%Z -> entries_ok op_ok es ->
  ∃ fuel0, forall fuel, fuel0 ≤ fuel ->
    ∃ b l, checkSingle fuel M es cp kill = Returned (b, l) ∧
      longest_correct M n es l ∧ (b = true -> entries_linearizable M n es).
Proof.
  intros Hwf Hsmall Hok.
  destruct (start_resolves n es cp Hwf Hsmall Hok) as (c & k & b & l & Hst & Hr & Hb).
  exists (S k). intros fuel Hf.
  destruct (resolves_kill M cp n _ _ c k (b, l) kill fuel 0 Hr Hf) as ([b' l'] & H1 & H2 & H3).
  exists b', l'. unfold checkSingle. rewrite Hst. split_and!; [done|done|].
  intros ->. by apply Hb, H3.
Qed.

End Decides.
