(* ===== verification/HistorySpec.v ===== *)
(** * Histories of operations

    The entries that [makeEntries] builds have a linearization exactly when the
    history they come from has one. *)
From S2P Require Import Prelude Model Entries Linearizability CheckSingleSpec.
Import Entry.

(** ** Operations *)
Section Operations.
Context {V : Type} `{Iface V} (M : Model V).
Context (sort : forall A, (A -> A -> bool) -> list A -> list A) `{!GoSort sort}.
Implicit Types (h : list (Operation V)).

(** The operations with their ids. *)
Definition numbered h : list (Z * Operation V) := zip (seqZ 0 (Z.of_nat (length h))) h.

Lemma numbered_fst h : (numbered h).*1 = seqZ 0 (Z.of_nat (length h)).
Proof. unfold numbered. apply fst_zip. rewrite length_seqZ. lia. Qed.

Lemma numbered_snd h : (numbered h).*2 = h.
Proof. unfold numbered. apply snd_zip. rewrite length_seqZ. lia. Qed.

Lemma elem_of_numbered h k o :
  (k, o) ∈ numbered h -> ∃ i, k = Z.of_nat i ∧ h !! i = Some o.
Proof.
  intros [i Hi]%list_elem_of_lookup. unfold numbered in Hi.
  apply lookup_zip_with_Some in Hi as (k' & o' & Heq & Hk & Ho). simplify_eq.
  apply lookup_seqZ in Hk as [-> _]. exists i. split; [lia|done].
Qed.

Lemma numbered_io h k o :
  (k, o) ∈ numbered h -> entry_io (makeEntries sort h) k = io o.
Proof.
  intros (i & -> & Hi)%elem_of_numbered. destruct (makeEntries_elem sort h i o Hi).
  unfold entry_io, io.
  rewrite (entry_value_of _ _ _ (callOf (Z.of_nat i) o)),
    (entry_value_of _ _ _ (returnOf (Z.of_nat i) o)); try done; by apply makeEntries_keys.
Qed.

Lemma numbered_order h a b :
  a ∈ numbered h -> b ∈ numbered h ->
  returned_before (makeEntries sort h) b.1 a.1 <-> (Return b.2 < Call a.2)%Z.
Proof.
  destruct a as [ka a], b as [kb b]. intros (i & -> & Hi)%elem_of_numbered
    (j & -> & Hj)%elem_of_numbered. simpl. split.
  - intros (r & c & Hb & Hr & Hc). apply before_elem_of in Hb as Hin.
    assert (Hkey : forall x y, x ∈ makeEntries sort h -> y ∈ makeEntries sort h ->
      key x = key y -> x = y).
    { intros x y. apply key_inj, makeEntries_keys. done. }
    destruct (makeEntries_elem sort h i a Hi), (makeEntries_elem sort h j b Hj).
    rewrite (Hkey r (returnOf (Z.of_nat j) b)) in Hb; [|tauto|done|done].
    rewrite (Hkey c (callOf (Z.of_nat i) a)) in Hb; [|tauto|done|done].
    by apply (makeEntries_real_time sort h j b i a Hj Hi).
  - intros Hlt. exists (returnOf (Z.of_nat j) b), (callOf (Z.of_nat i) a).
    split; [|done]. by apply (makeEntries_real_time sort h j b i a Hj Hi).
Qed.

(** The entries of a timestamped history have a linearization exactly when the
    history is linearizable. *)
Lemma makeEntries_linearizable h :
  entries_linearizable M (length h) (makeEntries sort h) <-> linearizable M h.
Proof.
  assert (Hzs : forall zs : list (Z * Operation V), zs ≡ₚ numbered h ->
    (legal M (Init M) (entry_io (makeEntries sort h) <$> zs.*1) <->
     legal M (Init M) (io <$> zs.*2)) ∧
    (ForallOrdPairs (λ a b, ¬ returned_before (makeEntries sort h) b a) zs.*1 <->
     ForallOrdPairs may_precede zs.*2)).
  { intros zs Hzs. assert (Hin : forall z, z ∈ zs -> z ∈ numbered h).
    { intros z Hz. by rewrite <- Hzs. }
    split.
    - rewrite <- !list_fmap_compose.
      rewrite (list_fmap_ext (entry_io (makeEntries sort h) ∘ fst) (io ∘ snd) zs); [done|].
      intros i [k o] Hx%list_elem_of_lookup_2. by apply numbered_io, Hin.
    - rewrite !ForallOrdPairs_fmap. unfold may_precede.
      split; intros Ho; apply (ForallOrdPairs_impl_in _ _ _ Ho); intros a b Ha Hb;
        rewrite numbered_order; auto. }
  split.
  - intros (τ & Hperm & Hleg & Hord). rewrite <- numbered_fst in Hperm.
    apply Permutation_map_inv in Hperm as (zs & -> & Hp). symmetry in Hp.
    destruct (Hzs zs Hp) as [Hl Ho].
    exists (zs.*2). split_and!; [|by apply Hl|by apply Ho].
    transitivity ((numbered h).*2); [by rewrite Hp|by rewrite numbered_snd].
  - intros (σ & Hperm & Hleg & Hord). rewrite <- (numbered_snd h) in Hperm.
    apply Permutation_map_inv in Hperm as (zs & -> & Hp). symmetry in Hp.
    destruct (Hzs zs Hp) as [Hl Ho].
    exists (zs.*1). split_and!; [|by apply Hl|by apply Ho].
    rewrite <- numbered_fst. by rewrite Hp.
Qed.

(** Well-formed histories: no operation returns before it is called, and the
    inputs and outputs are what the model expects. *)
Definition wf_history (op_ok : V -> V -> Prop) h : Prop :=
  Forall (λ o, (Call o <= Return o)%Z ∧ op_ok (Input o) (Output o)) h ∧
  (Z.of_nat (length h) < 2 ^ 63)%Z.

Lemma makeEntries_ok op_ok h :
  wf_history op_ok h -> entries_ok op_ok (makeEntries sort h).
Proof.
  intros [Hh _] c r k Hc Hr Hkc Hkr. rewrite (makeEntries_perm sort), elem_of_collect in Hc, Hr.
  destruct Hc as (i & o & Hi & Hc), Hr as (j & o' & Hj & Hr).
  destruct Hc as [-> | ->]; [|done]. destruct Hr as [-> | ->]; [done|].
  injection Hkc as <-. injection Hkr as Hij. assert (j = i) as -> by lia.
  assert (o' = o) as -> by congruence. simpl. rewrite Forall_forall in Hh.
  destruct (Hh o) as [_ ?]; [by eapply list_elem_of_lookup_2|done].
Qed.

Lemma wf_history_entries op_ok h :
  wf_history op_ok h -> wf_entries (length h) (makeEntries sort h).
Proof.
  intros [Hh _]. apply makeEntries_wf; [done|]. eapply Forall_impl; [exact Hh|].
  by intros o [? _].
Qed.

End Operations.
