(* ===== verification/EventSpec.v ===== *)
(** * Histories of events

    [renumber] maps the ids of a list of events to 0, 1, 2, ... in the order in which
    they appear, and [convertEntries] turns the events into entries.  The entries have
    a linearization exactly when the events do. *)
From S2P Require Import Prelude Model Entries Linearizability CheckSingleSpec.
Import Entry.

(** ** [renumber] *)
Section Renumber.
Context {V : Type}.
Implicit Types (evs : list (Event V)) (m : gmap Z Z).

Definition relabel (f : Z -> Z) (v : Event V) : Event V :=
  MkEvent (evClientId v) (Kind v) (Value v) (f (Id v)).

(** The numbering that a map stands for. *)
Definition numbering m (k : Z) : Z := default 0%Z (m !! k).

(** The state of the loop after the events [evs]: a bijection between their ids and
    the numbers below [id], increasing in the order of first appearance. *)
Record renumber_inv evs (st : list (Event V) * gmap Z Z * Z) : Prop := {
  ren_events : st.1.1 = relabel (numbering st.1.2) <$> evs;
  ren_dom : forall k, is_Some (st.1.2 !! k) <-> k ∈ Id <$> evs;
  ren_range : forall k x, st.1.2 !! k = Some x -> (0 <= x < st.2)%Z;
  ren_surj : forall x, (0 <= x < st.2)%Z -> ∃ k, st.1.2 !! k = Some x;
  ren_inj : forall k k' x, st.1.2 !! k = Some x -> st.1.2 !! k' = Some x -> k = k';
  ren_next : (0 <= st.2)%Z
}.

Lemma relabel_ext f g evs :
  (forall k, k ∈ Id <$> evs -> f k = g k) -> relabel f <$> evs = relabel g <$> evs.
Proof.
  intros Hfg. apply list_fmap_ext. intros i v Hv%list_elem_of_lookup_2.
  unfold relabel. rewrite Hfg; [done|]. by apply list_elem_of_fmap_2.
Qed.

Lemma renumber_step_inv evs st v :
  renumber_inv evs st -> renumber_inv (evs ++ [v]) (renumber_step st v).
Proof.
  destruct st as [[e m] id]. intros [He Hd Hr Hs Hi Hn]; simpl in *.
  destruct (m !! Id v) as [r|] eqn:Hm; split; simpl.
  - rewrite fmap_app, He. simpl. unfold relabel at 3, numbering. by rewrite Hm.
  - intros k. rewrite fmap_app, elem_of_app, <- Hd. simpl.
    rewrite list_elem_of_singleton. split; [by left|]. intros [?| ->]; eauto.
  - done.
  - done.
  - done.
  - done.
  - rewrite fmap_app, He. simpl. f_equal.
    + apply relabel_ext. intros k Hk%Hd. unfold numbering.
      rewrite lookup_insert_ne; [done|]. intros <-. rewrite Hm in Hk. by destruct Hk.
    + unfold relabel, numbering. by rewrite lookup_insert_eq.
  - intros k. rewrite fmap_app, elem_of_app, <- Hd, lookup_insert_is_Some. simpl.
    rewrite list_elem_of_singleton. destruct (decide (Id v = k)); naive_solver.
  - intros k x. rewrite lookup_insert_Some. intros [[_ <-]|[_ Hk]]; [lia|].
    apply Hr in Hk. lia.
  - intros x Hx. destruct (decide (x = id)) as [->|Hne].
    + exists (Id v). by rewrite lookup_insert_eq.
    + destruct (Hs x) as [k Hk]; [lia|]. exists k. rewrite lookup_insert_ne; [done|].
      intros <-. congruence.
  - intros k k' x. rewrite !lookup_insert_Some.
    intros [[<- <-]|[_ Hk]] [[<- Hx]|[_ Hk']]; [done| | |by eapply Hi].
    + apply Hr in Hk'. lia.
    + subst x. apply Hr in Hk. lia.
  - lia.
Qed.

Lemma renumber_loop evs : renumber_inv evs (foldl renumber_step ([], ∅, 0%Z) evs).
Proof.
  induction evs as [|v evs IH] using rev_ind.
  - split; simpl; try done; [|lia]. intros k. rewrite lookup_empty. split; [by intros []|].
    intros Hk. by apply elem_of_nil in Hk.
  - rewrite foldl_app. by apply renumber_step_inv.
Qed.

(** The new ids are the numbers below [n], and distinct ids stay distinct. *)
Lemma renumber_spec evs :
  ∃ f (n : nat), renumber evs = relabel f <$> evs ∧
    (forall k k', k ∈ Id <$> evs -> k' ∈ Id <$> evs -> f k = f k' -> k = k') ∧
    (forall x, x ∈ f <$> (Id <$> evs) <-> (0 <= x < Z.of_nat n)%Z).
Proof.
  destruct (renumber_loop evs) as [He Hd Hr Hs Hi Hn].
  set (st := foldl renumber_step ([], ∅, 0%Z) evs) in *.
  exists (numbering st.1.2), (Z.to_nat st.2). split; [done|].
  unfold numbering. split.
  - intros k k' Hk Hk'. apply Hd in Hk as [x Hx], Hk' as [x' Hx'].
    rewrite Hx, Hx'. simpl. intros <-. by eapply Hi.
  - intros x. rewrite list_elem_of_fmap. split.
    + intros (k & -> & Hk). apply Hd in Hk as [x Hx]. rewrite Hx. simpl.
      apply Hr in Hx. lia.
    + intros Hx. destruct (Hs x) as [k Hk]; [lia|]. exists k. rewrite Hk. split; [done|].
      apply Hd. eauto.
Qed.

End Renumber.

(** ** Linearizability of events *)
Section Events.
Context {V : Type} `{Iface V} (M : Model V).
Implicit Types (evs : list (Event V)).

Definition ev_key (v : Event V) : EventKind * Z := (Kind v, Id v).

Definition call_ids evs : list Z := Id <$> filter (λ v, Kind v = CallEvent) evs.

Definition event_value evs (kd : EventKind) (k : Z) : V :=
  from_option Value iface_nil (head (filter (λ v, ev_key v = (kd, k)) evs)).

Definition event_io evs (k : Z) : V * V :=
  (event_value evs CallEvent k, event_value evs ReturnEvent k).

(** The return event of [b] comes before the call event of [a]. *)
Definition ev_returned_before evs (b a : Z) : Prop :=
  ∃ r c, before evs r c ∧ ev_key r = (ReturnEvent, b) ∧ ev_key c = (CallEvent, a).

Definition events_linearizable evs : Prop :=
  ∃ τ, τ ≡ₚ call_ids evs ∧ legal M (Init M) (event_io evs <$> τ) ∧
    ForallOrdPairs (λ a b, ¬ ev_returned_before evs b a) τ.

(** Every id has one call event and, after it, one return event. *)
Record wf_events (op_ok : V -> V -> Prop) evs : Prop := {
  ev_keys : NoDup (ev_key <$> evs);
  ev_pairs : forall v, v ∈ evs -> ∃ c r, before evs c r ∧
    ev_key c = (CallEvent, Id v) ∧ ev_key r = (ReturnEvent, Id v);
  ev_ok : forall c r k, c ∈ evs -> r ∈ evs -> ev_key c = (CallEvent, k) ->
    ev_key r = (ReturnEvent, k) -> op_ok (Value c) (Value r);
  ev_small : (Z.of_nat (length evs) < 2 ^ 63)%Z
}.

Definition kind_of (kd : EventKind) : entryKind :=
  match kd with CallEvent => callEntry | ReturnEvent => returnEntry end.

Lemma convertEntry_key i (v : Event V) : key (convertEntry i v) = (kind_of (Kind v), Id v).
Proof. unfold convertEntry, key. destruct (Kind v); done. Qed.

Section Convert.
Context (evs : list (Event V)) (op_ok : V -> V -> Prop) (Hwf : wf_events op_ok evs).
Context (f : Z -> Z) (n : nat).
Context (Hinj : forall k k', k ∈ Id <$> evs -> k' ∈ Id <$> evs -> f k = f k' -> k = k').
Context (Hran : forall x, x ∈ f <$> (Id <$> evs) <-> (0 <= x < Z.of_nat n)%Z).
Let es := convertEntries (relabel f <$> evs).

Lemma es_lookup i : es !! i = (λ v, convertEntry i (relabel f v)) <$> evs !! i.
Proof.
  unfold es, convertEntries. rewrite list_lookup_imap, list_lookup_fmap.
  by destruct (evs !! i).
Qed.

Lemma es_elem e : e ∈ es -> ∃ i v, evs !! i = Some v ∧ e = convertEntry i (relabel f v).
Proof.
  intros [i Hi]%list_elem_of_lookup. rewrite es_lookup in Hi.
  destruct (evs !! i) as [v|] eqn:Hv; [|done]. simplify_eq/=. eauto.
Qed.

Lemma es_keys : key <$> es = (λ v, (kind_of (Kind v), f (Id v))) <$> evs.
Proof.
  apply list_eq. intros i. rewrite !list_lookup_fmap, es_lookup.
  destruct (evs !! i) as [v|]; [|done]. simpl. by rewrite convertEntry_key.
Qed.

Lemma ev_id_in i v : evs !! i = Some v -> Id v ∈ Id <$> evs.
Proof. intros Hv. by eapply list_elem_of_fmap_2, list_elem_of_lookup_2. Qed.

Lemma es_NoDup : NoDup (key <$> es).
Proof.
  rewrite es_keys. apply NoDup_alt. intros i j x.
  rewrite !list_lookup_fmap. destruct (evs !! i) as [v|] eqn:Hi; [|done].
  destruct (evs !! j) as [w|] eqn:Hj; [|done]. simpl. intros [= <-] [= Hk Hf].
  apply Hinj in Hf; [|by eapply ev_id_in..].
  eapply NoDup_lookup; [exact (ev_keys _ _ Hwf)|by rewrite list_lookup_fmap, Hi|].
  rewrite list_lookup_fmap, Hj. simpl. unfold ev_key.
  rewrite Hf. by destruct (Kind v), (Kind w).
Qed.

(** Order and keys carry over, both ways. *)
Lemma es_before k1 k2 a b :
  a ∈ Id <$> evs -> b ∈ Id <$> evs ->
  (∃ x y, before es x y ∧ key x = (kind_of k1, f a) ∧ key y = (kind_of k2, f b)) <->
  (∃ v w, before evs v w ∧ ev_key v = (k1, a) ∧ ev_key w = (k2, b)).
Proof.
  intros Ha Hb. assert (Hkd : forall k k', kind_of k = kind_of k' -> k = k') by (by intros [] []).
  split.
  - intros (x & y & (i & j & Hij & Hx & Hy)%before_lookup & Hkx & Hky).
    rewrite es_lookup in Hx, Hy.
    destruct (evs !! i) as [v|] eqn:Hi; [|done]. destruct (evs !! j) as [w|] eqn:Hj; [|done].
    simplify_eq/=. rewrite convertEntry_key in Hkx, Hky. simplify_eq/=.
    exists v, w. split; [apply before_lookup; eauto|]. unfold ev_key.
    apply Hkd in H0 as ->. apply Hkd in H2 as ->.
    rewrite (Hinj _ a (ev_id_in _ _ Hi) Ha) by done.
    by rewrite (Hinj _ b (ev_id_in _ _ Hj) Hb).
  - intros (v & w & (i & j & Hij & Hi & Hj)%before_lookup & [= <- <-] & [= <- <-]).
    exists (convertEntry i (relabel f v)), (convertEntry j (relabel f w)).
    rewrite !convertEntry_key. split; [|done]. apply before_lookup. exists i, j.
    by rewrite !es_lookup, Hi, Hj.
Qed.

Lemma call_ids_elem k : k ∈ call_ids evs <-> k ∈ Id <$> evs.
Proof.
  unfold call_ids. rewrite !list_elem_of_fmap. split.
  - intros (v & -> & [_ Hv]%list_elem_of_filter). eauto.
  - intros (v & -> & Hv). destruct (ev_pairs _ _ Hwf v Hv) as (c & r & Hb & [= Hk Hc] & _).
    exists c. split; [done|]. apply list_elem_of_filter. split; [done|].
    eauto with go.
Qed.

Lemma kind_ids_NoDup kd : NoDup (Id <$> filter (λ v, Kind v = kd) evs).
Proof.
  apply NoDup_fmap_2_strong.
  - intros v w [Hv Hiv]%list_elem_of_filter [Hw Hiw]%list_elem_of_filter Hid.
    apply (key_inj ev_key evs); [apply (ev_keys _ _ Hwf)|done|done|].
    unfold ev_key. by rewrite Hv, Hw, Hid.
  - apply NoDup_filter. eapply NoDup_fmap_1. apply (ev_keys _ _ Hwf).
Qed.

Lemma return_ids : Id <$> filter (λ v, Kind v = ReturnEvent) evs ≡ₚ call_ids evs.
Proof.
  apply NoDup_Permutation; [apply kind_ids_NoDup..|]. intros k.
  rewrite call_ids_elem, !list_elem_of_fmap. split.
  - intros (v & -> & [_ Hv]%list_elem_of_filter). eauto.
  - intros (v & -> & Hv). destruct (ev_pairs _ _ Hwf v Hv) as (c & r & Hb & _ & [= Hk Hr]).
    exists r. split; [done|]. apply list_elem_of_filter. split; [done|].
    eauto with go.
Qed.

Lemma renumbered_ids : f <$> call_ids evs ≡ₚ seqZ 0 (Z.of_nat n).
Proof.
  apply NoDup_Permutation.
  - apply NoDup_fmap_2_strong; [|apply kind_ids_NoDup].
    intros x y Hx%call_ids_elem Hy%call_ids_elem. by apply Hinj.
  - apply NoDup_seqZ.
  - intros x. rewrite elem_of_seqZ, Z.add_0_l, <- Hran, !list_elem_of_fmap.
    by setoid_rewrite call_ids_elem.
Qed.

Lemma events_length : length evs = 2 * n.
Proof.
  assert (Hp : evs ≡ₚ filter (λ v, Kind v = CallEvent) evs ++
                      filter (λ v, Kind v = ReturnEvent) evs).
  { rewrite <- (filter_app_complement (λ v, Kind v = CallEvent) evs) at 1.
    rewrite (list_filter_iff (λ v, Kind v ≠ CallEvent) (λ v, Kind v = ReturnEvent)); [done|].
    intros v. by destruct (Kind v). }
  apply Permutation_length in Hp. rewrite length_app in Hp.
  pose proof (Permutation_length return_ids) as Hr.
  pose proof (Permutation_length renumbered_ids) as Hc.
  unfold call_ids in *. rewrite !length_fmap in *. rewrite length_seqZ in Hc. lia.
Qed.

Lemma converted_wf : wf_entries n es.
Proof.
  split.
  - unfold es, convertEntries. rewrite length_imap, length_fmap. apply events_length.
  - apply es_NoDup.
  - intros e (i & v & Hv & ->)%es_elem.
    assert (Hx : f (Id v) ∈ f <$> (Id <$> evs)) by (by eapply list_elem_of_fmap_2, ev_id_in).
    by apply Hran in Hx.
  - intros k Hk. apply Hran, list_elem_of_fmap in Hk as (k0 & -> & Hk0).
    apply (es_before CallEvent ReturnEvent); [done|done|].
    apply list_elem_of_fmap in Hk0 as (v & -> & Hv). by apply (ev_pairs _ _ Hwf).
Qed.

Lemma converted_value kd k :
  k ∈ Id <$> evs -> entry_value es (kind_of kd) (f k) = event_value evs kd k.
Proof.
  intros Hk. assert (Hv : ∃ i v, evs !! i = Some v ∧ ev_key v = (kd, k)).
  { apply list_elem_of_fmap in Hk as (w & -> & Hw).
    destruct (ev_pairs _ _ Hwf w Hw) as (c & r & (i & j & _ & Hi & Hj)%before_lookup & Hc & Hr).
    destruct kd; eauto. }
  destruct Hv as (i & v & Hv & Hkey).
  rewrite (entry_value_of es _ _ (convertEntry i (relabel f v))).
  - unfold event_value. rewrite (filter_key_unique ev_key evs _ v); [done| | |done].
    + apply (ev_keys _ _ Hwf).
    + by eapply list_elem_of_lookup_2.
  - apply es_NoDup.
  - eapply list_elem_of_lookup_2. by rewrite es_lookup, Hv.
  - rewrite convertEntry_key. unfold ev_key in Hkey. simplify_eq/=. done.
Qed.

Lemma converted_ok : entries_ok op_ok es.
Proof.
  intros c r k (i & v & Hv & ->)%es_elem (j & w & Hw & ->)%es_elem.
  rewrite !convertEntry_key. simpl. intros [= Hkv Hfv] [= Hkw Hfw].
  assert (Hid : Id v = Id w) by (apply Hinj; [by eapply ev_id_in..|congruence]).
  apply (ev_ok _ _ Hwf v w (Id v)); [by eapply list_elem_of_lookup_2..| |].
  - unfold ev_key. by destruct (Kind v).
  - unfold ev_key. rewrite Hid. by destruct (Kind w).
Qed.

Lemma converted_linearizable :
  entries_linearizable M n es <-> events_linearizable evs.
Proof.
  assert (Hτ : forall τ, τ ≡ₚ call_ids evs ->
    (entry_io es <$> (f <$> τ) = event_io evs <$> τ) ∧
    (ForallOrdPairs (λ a b, ¬ returned_before es b a) (f <$> τ) <->
     ForallOrdPairs (λ a b, ¬ ev_returned_before evs b a) τ)).
  { intros τ Hp. assert (Hin : forall k, k ∈ τ -> k ∈ Id <$> evs).
    { intros k Hk. rewrite Hp in Hk. by apply call_ids_elem. }
    split.
    - rewrite <- list_fmap_compose. apply list_fmap_ext. intros i k Hk%list_elem_of_lookup_2.
      unfold entry_io, event_io. simpl.
      by rewrite <- !(converted_value _ k) by auto.
    - rewrite ForallOrdPairs_fmap.
      split; intros Ho; apply (ForallOrdPairs_impl_in _ _ _ Ho); intros a b Ha Hb Hn Hr;
        apply Hn; by apply (es_before ReturnEvent CallEvent b a (Hin _ Hb) (Hin _ Ha)). }
  split.
  - intros (τ' & Hp & Hleg & Hord). rewrite <- renumbered_ids in Hp.
    apply Permutation_map_inv in Hp as (τ & -> & Hp). symmetry in Hp.
    destruct (Hτ τ Hp) as [Hio Ho]. exists τ. change (map f τ) with (f <$> τ) in *.
    rewrite Hio in Hleg. split_and!; [done|done|by apply Ho].
  - intros (τ & Hp & Hleg & Hord). destruct (Hτ τ Hp) as [Hio Ho].
    exists (f <$> τ). rewrite Hio. split_and!; [|done|by apply Ho].
    rewrite <- renumbered_ids. by rewrite Hp.
Qed.

End Convert.

(** What the checker needs of a history of events. *)
Lemma events_entries op_ok evs :
  wf_events op_ok evs ->
  ∃ n, length evs = 2 * n ∧
    wf_entries n (convertEntries (renumber evs)) ∧
    entries_ok op_ok (convertEntries (renumber evs)) ∧
    (entries_linearizable M n (convertEntries (renumber evs)) <-> events_linearizable evs).
Proof.
  intros Hwf. destruct (renumber_spec evs) as (f & n & -> & Hinj & Hran).
  exists n. split_and!.
  - by eapply events_length.
  - by eapply converted_wf.
  - by eapply converted_ok.
  - by eapply converted_linearizable.
Qed.

End Events.
