(* ===== verification/CheckParallel.v ===== *)
(** * [checkParallel] of [porcupine/checker.go]

    One goroutine per partition runs [checkSingle]; the caller collects the results
    from a buffered channel, with an optional timeout.  The goroutines, the channel,
    the shared variable [kill] and the collecting loop form a transition system whose
    steps interleave freely. *)
From S2P Require Import Prelude Bitset Model Entries LinkedList LinkedEntries.
From S2P Require Import Linearizability CheckSingle CheckSingleProof CheckSingleSpec.
Import Entry LinkedList.

Section Parallel.
Context {V : Type} `{Iface V}.
Context (model : Model V) (history : list (list (entry V))) (computeInfo : bool) (timeout : Z).

(** A goroutine: not started, in the loop of [checkSingle], or done. *)
Inductive worker :=
| Waiting (subhistory : list (entry V))
| Running (n : nat) (head : ptr) (c : checker V)
| Sent.

(** The caller: in the [select] loop, after it, or returned. *)
Inductive phase := Selecting | Collecting | Finished.

Record pstate := PState {
  workers : list worker;
  results : list bool;                           (* the buffered channel *)
  plongest : list (list (option (nat * list Z)));  (* longest *)
  kill : Z;
  ok : bool;
  timedOut : bool;
  count : nat;
  pphase : phase
}.

Definition pinit : pstate :=
  PState (Waiting <$> history) [] (replicate (List.length history) []) 0 true false 0 Selecting.

Definition set_worker (st : pstate) (i : nat) (w : worker) : pstate :=
  PState (<[i := w]> (workers st)) (results st) (plongest st) (kill st) (ok st)
    (timedOut st) (count st) (pphase st).

(** [longest[i] = l; results <- ok] *)
Definition send_result (st : pstate) (i : nat) (b : bool) l : pstate :=
  PState (<[i := Sent]> (workers st)) (results st ++ [b]) (<[i := l]> (plongest st))
    (kill st) (ok st) (timedOut st) (count st) (pphase st).

(** [case result := <-results] *)
Definition on_result (st : pstate) (result : bool) (rest : list bool) : pstate :=
  let count' := S (count st) in
  let ok' := ok st && result in
  if negb ok' && negb computeInfo then
    PState (workers st) rest (plongest st) 1 ok' (timedOut st) count' Collecting
  else if bool_decide (List.length history ≤ count') then
    PState (workers st) rest (plongest st) (kill st) ok' (timedOut st) count' Collecting
  else
    PState (workers st) rest (plongest st) (kill st) ok' (timedOut st) count' Selecting.

(** [case <-timeoutChan] *)
Definition on_timeout (st : pstate) : pstate :=
  PState (workers st) (results st) (plongest st) 1 (ok st) true (count st) Collecting.

Definition drain (st : pstate) (rest : list bool) : pstate :=
  PState (workers st) rest (plongest st) (kill st) (ok st) (timedOut st) (S (count st))
    Collecting.

Definition finish (st : pstate) : pstate :=
  PState (workers st) (results st) (plongest st) (kill st) (ok st) (timedOut st)
    (count st) Finished.

Inductive pstep : pstate -> pstate -> Prop :=
| W_start st i sub n head c :
    workers st !! i = Some (Waiting sub) -> start model sub = Some (n, head, c) ->
    pstep st (set_worker st i (Running n head c))
| W_iterate st i n head c c' :
    workers st !! i = Some (Running n head c) ->
    loop_step model computeInfo n head (kill st) c = Some (inl c') ->
    pstep st (set_worker st i (Running n head c'))
| W_return st i n head c b l :
    workers st !! i = Some (Running n head c) ->
    loop_step model computeInfo n head (kill st) c = Some (inr (b, l)) ->
    List.length (results st) < List.length history ->
    pstep st (send_result st i b l)
| M_result st result rest :
    pphase st = Selecting -> results st = result :: rest ->
    pstep st (on_result st result rest)
| M_timeout st :
    pphase st = Selecting -> (0 < timeout)%Z -> pstep st (on_timeout st)
| M_drain st result rest :
    pphase st = Collecting -> computeInfo = true -> count st < List.length history ->
    results st = result :: rest -> pstep st (drain st rest)
| M_finish st :
    pphase st = Collecting -> (computeInfo = true -> List.length history ≤ count st) ->
    pstep st (finish st).

(** The returned [CheckResult]. *)
Definition check_result (st : pstate) : CheckResult :=
  if negb (ok st) then Illegal else if timedOut st then Unknown else Ok.

(** The returned [partialLinearizations] of a partition: the distinct sequences that
    [longest] points to; the order in which a Go map is ranged over is unspecified. *)
Definition unique_partials (l : list (option (nat * list Z))) : list (list Z) :=
  snd <$> remove_dups (omap (λ x, x) l).

Definition partialLinearizations (st : pstate) (info : list (list (list Z))) : Prop :=
  Forall2 (λ l partials, partials ≡ₚ unique_partials l) (plongest st) info.

(** ** Invariant *)

Definition nops (es : list (entry V)) : nat := List.length es / 2.

Definition sub_linearizable (es : list (entry V)) : Prop :=
  entries_linearizable model (nops es) es.

Abbreviation sub_resolves es n head c k r :=
  (resolves model computeInfo n head (longest_correct model (nops es) es) c k r).

(** The loop answers [true] exactly on a linearizable partition. *)
Definition decides (es : list (entry V)) (n : nat) (head : ptr) (c : checker V) (k : nat) :
    Prop :=
  ∃ b l, sub_resolves es n head c k (b, l) ∧ (b = true <-> sub_linearizable es).

(** The interface that [checkSingle] offers to this component: started on a
    partition of the history, it resolves to the right answer. *)
Definition checks (es : list (entry V)) : Prop :=
  ∃ n head c k, start model es = Some (n, head, c) ∧ decides es n head c k.

(** [cost] bounds the steps that the goroutine still takes. *)
Definition worker_ok (es : list (entry V)) (l : list (option (nat * list Z))) (w : worker)
    (cost : nat) : Prop :=
  match w with
  | Waiting sub => sub = es ∧ ∃ n head c k,
      start model es = Some (n, head, c) ∧ decides es n head c k ∧ cost = S (S k)
  | Running n head c => ∃ k, decides es n head c k ∧ cost = S k
  | Sent => longest_correct model (nops es) es l ∧ cost = 0
  end.

(** The answers sent so far, oldest first; the first [count] of them were received. *)
Record sent_ok (st : pstate) (sent : list (nat * bool)) : Prop := {
  sent_NoDup : NoDup (sent.*1);
  sent_workers : forall i, i ∈ sent.*1 <-> workers st !! i = Some Sent;
  sent_results : results st = drop (count st) (sent.*2);
  sent_count : count st ≤ List.length sent;
  sent_true : forall i es, (i, true) ∈ sent -> history !! i = Some es -> sub_linearizable es;
  sent_false : pphase st = Selecting ->
    forall i es, (i, false) ∈ sent -> history !! i = Some es -> ¬ sub_linearizable es;
  sent_ok_var : pphase st = Selecting -> ok st = forallb Datatypes.id (take (count st) (sent.*2))
}.

Record pinv (st : pstate) (costs : list nat) : Prop := {
  p_len : List.length (workers st) = List.length history;
  p_worker : forall i es, history !! i = Some es -> ∃ w l k, workers st !! i = Some w ∧
    plongest st !! i = Some l ∧ costs !! i = Some k ∧ worker_ok es l w k;
  p_sent : ∃ sent, sent_ok st sent;
  p_selecting : pphase st = Selecting -> kill st = 0%Z ∧ timedOut st = false ∧
    (count st < List.length history ∨ history = []);
  p_finished : pphase st = Finished -> computeInfo = true ->
    List.length history ≤ count st;
  p_answer : pphase st ≠ Selecting ->
    (ok st = false -> ∃ es, es ∈ history ∧ ¬ sub_linearizable es) ∧
    (ok st = true -> timedOut st = false -> forall es, es ∈ history -> sub_linearizable es);
  p_timeout : timedOut st = true -> (0 < timeout)%Z;
  p_longest : List.length (plongest st) = List.length history
}.

Definition phase_weight (p : phase) : nat :=
  match p with Selecting => 2 | Collecting => 1 | Finished => 0 end.

(** Every step of the system decreases the measure. *)
Definition pmeasure (st : pstate) (costs : list nat) : nat :=
  sum_list costs + (List.length history - count st) + phase_weight (pphase st).

Lemma sum_list_insert_lt (l : list nat) i x y :
  l !! i = Some x -> y < x -> sum_list (<[i := y]> l) < sum_list l.
Proof.
  revert i. induction l as [|z l IH]; intros [|i] Hi Hlt; simplify_eq/=; [lia|].
  specialize (IH i Hi Hlt). lia.
Qed.

(** *** The answers that were sent *)

Section SentFacts.
Context (st : pstate) (costs : list nat) (Hinv : pinv st costs).
Context (sent : list (nat * bool)) (Hsent : sent_ok st sent).

Lemma sent_index i : i ∈ sent.*1 -> i < List.length history.
Proof.
  intros Hi. apply (sent_workers _ _ Hsent) in Hi. apply lookup_lt_Some in Hi.
  by rewrite (p_len _ _ Hinv) in Hi.
Qed.

Lemma sent_submseteq : sent.*1 ⊆+ seq 0 (List.length history).
Proof.
  apply NoDup_submseteq; [apply (sent_NoDup _ _ Hsent)|]. intros i Hi.
  apply elem_of_seq. apply sent_index in Hi. lia.
Qed.

Lemma sent_length : List.length sent ≤ List.length history.
Proof.
  pose proof (submseteq_length _ _ sent_submseteq) as Hl.
  by rewrite length_fmap, length_seq in Hl.
Qed.

(** Once as many answers as partitions were received, every partition answered. *)
Lemma sent_complete i : List.length history ≤ count st -> i < List.length history -> i ∈ sent.*1.
Proof.
  intros Hc Hi. pose proof (sent_count _ _ Hsent) as Hcs.
  assert (Hp : seq 0 (List.length history) ≡ₚ sent.*1).
  { symmetry. apply submseteq_length_Permutation; [apply sent_submseteq|].
    rewrite length_fmap, length_seq. lia. }
  rewrite <- Hp. apply elem_of_seq. lia.
Qed.

Lemma received_false m :
  pphase st = Selecting -> forallb Datatypes.id (take m (sent.*2)) = false ->
  ∃ es, es ∈ history ∧ ¬ sub_linearizable es.
Proof.
  intros Hph Hf. apply not_true_iff_false in Hf. rewrite forallb_forall in Hf.
  destruct (decide (false ∈ take m (sent.*2))) as [Hin|Hn].
  - apply subseteq_take, list_elem_of_fmap_1 in Hin as ([i b] & Hb & Hin); simpl in Hb; subst b.
    assert (Hi : i ∈ sent.*1) by (apply list_elem_of_fmap; by exists (i, false)).
    destruct (lookup_lt_is_Some_2 history i (sent_index i Hi)) as [es Hes].
    exists es. split; [by eapply list_elem_of_lookup_2|].
    by apply (sent_false _ _ Hsent Hph i).
  - destruct Hf. intros [] Hx; [done|]. destruct Hn. by apply list_elem_of_In.
Qed.

Lemma received_true es :
  List.length history ≤ S (count st) -> forallb Datatypes.id (take (S (count st)) (sent.*2)) = true ->
  List.length sent = List.length history -> es ∈ history -> sub_linearizable es.
Proof.
  intros Hc Ht Hl Hes. apply list_elem_of_lookup in Hes as [i Hi].
  apply lookup_lt_Some in Hi as Hlt.
  assert (Hp : seq 0 (List.length history) ≡ₚ sent.*1).
  { symmetry. apply submseteq_length_Permutation; [apply sent_submseteq|].
    rewrite length_fmap, length_seq. lia. }
  assert (Hin : i ∈ sent.*1) by (rewrite <- Hp; apply elem_of_seq; lia).
  apply list_elem_of_fmap in Hin as ([i' b] & -> & Hb). simpl in *.
  apply (sent_true _ _ Hsent i'); [|done].
  rewrite forallb_forall in Ht. destruct b; [done|].
  assert (Hf : false ∈ sent.*2) by (apply list_elem_of_fmap; by exists (i', false)).
  rewrite take_ge in Ht by (rewrite length_fmap; lia).
  by apply list_elem_of_In, Ht in Hf.
Qed.

(** The answer at the head of the channel is the next of the answers. *)
Lemma receive result rest :
  results st = result :: rest ->
  count st < List.length sent ∧ rest = drop (S (count st)) (sent.*2) ∧
  take (S (count st)) (sent.*2) = take (count st) (sent.*2) ++ [result].
Proof.
  intros Hr. rewrite (sent_results _ _ Hsent) in Hr.
  assert (Hl : sent.*2 !! count st = Some result).
  { rewrite <- (Nat.add_0_r (count st)), <- lookup_drop, Hr. done. }
  split_and!.
  - apply lookup_lt_Some in Hl. by rewrite length_fmap in Hl.
  - rewrite (drop_S _ _ _ Hl) in Hr. by simplify_eq.
  - by apply take_S_r.
Qed.

End SentFacts.

(** *** Initial state *)

Lemma pinit_inv : Forall checks history -> ∃ costs, pinv pinit costs.
Proof.
  intros Hall.
  assert (Hc : ∃ costs : list nat, Forall2 (λ es k, worker_ok es [] (Waiting es) k) history costs).
  { induction Hall as [|es h Hes _ [costs IH]]; [by exists []|].
    destruct Hes as (n & head & c & k & Hs & Hd). exists (S (S k) :: costs).
    constructor; [|done]. split; [done|]. by exists n, head, c, k. }
  destruct Hc as [costs Hc]. exists costs.
  split; simpl; try done.
  - by rewrite length_fmap.
  - intros i es Hi. destruct (Forall2_lookup_l _ _ _ _ _ Hc Hi) as (k & Hk & Hok).
    exists (Waiting es), [], k. rewrite list_lookup_fmap, Hi. split_and!; [done| |done|done].
    apply lookup_replicate. split; [done|]. by eapply lookup_lt_Some.
  - exists []. split; simpl; try done.
    + apply NoDup_nil_2.
    + intros i. split; intros Hi; [by apply elem_of_nil in Hi|].
      rewrite list_lookup_fmap in Hi. by destruct (history !! i).
    + intros i es Hi. by apply elem_of_nil in Hi.
    + intros _ i es Hi. by apply elem_of_nil in Hi.
  - intros _. split_and!; try done. destruct history; simpl; [by right|left; lia].
  - by rewrite length_replicate.
Qed.

(** *** Steps of a goroutine *)

Section WorkerStep.
Context (st : pstate) (costs : list nat) (Hinv : pinv st costs).
Context (i : nat) (es : list (entry V)) (Hes : history !! i = Some es).

Lemma worker_inv w :
  workers st !! i = Some w -> ∃ l k, plongest st !! i = Some l ∧ costs !! i = Some k ∧
    worker_ok es l w k.
Proof.
  intros Hw. destruct (p_worker _ _ Hinv i es Hes) as (w' & l & k & Hw' & Hl & Hk & Hok).
  simplify_eq. eauto.
Qed.

Lemma set_worker_inv w w' l k :
  workers st !! i = Some w -> w ≠ Sent -> w' ≠ Sent -> plongest st !! i = Some l ->
  worker_ok es l w' k -> pinv (set_worker st i w') (<[i := k]> costs).
Proof.
  intros Hw Hns Hns' Hl Hok. apply lookup_lt_Some in Hw as Hlt.
  destruct Hinv as [Hlen Hwk [sent Hs] Hsel Hfin Hans Hto Hlon].
  split; simpl; try done.
  - by rewrite length_insert.
  - intros j es' Hj. destruct (Hwk j es' Hj) as (wj & lj & kj & Hwj & Hlj & Hkj & Hokj).
    destruct (decide (i = j)) as [->|Hij].
    + simplify_eq. exists w', l, k. apply lookup_lt_Some in Hkj.
      rewrite !list_lookup_insert_eq by done. done.
    + exists wj, lj, kj. by rewrite !list_lookup_insert_ne by done.
  - exists sent. destruct Hs as [? Hsw]. split; simpl; try done.
    intros j. rewrite Hsw. destruct (decide (i = j)) as [->|Hij].
    + rewrite list_lookup_insert_eq by done. naive_solver.
    + by rewrite list_lookup_insert_ne.
Qed.

Lemma send_result_inv n head c b l k :
  workers st !! i = Some (Running n head c) -> costs !! i = Some k ->
  longest_correct model (nops es) es l -> (b = true -> sub_linearizable es) ->
  (kill st = 0%Z -> b = false -> ¬ sub_linearizable es) ->
  pinv (send_result st i b l) (<[i := 0]> costs).
Proof.
  intros Hw Hk Hlc Hbt Hbf. apply lookup_lt_Some in Hw as Hlt.
  destruct Hinv as [Hlen Hwk [sent Hs] Hsel Hfin Hans Hto Hlon].
  split; simpl; try done.
  - by rewrite length_insert.
  - intros j es' Hj. destruct (Hwk j es' Hj) as (wj & lj & kj & Hwj & Hlj & Hkj & Hokj).
    destruct (decide (i = j)) as [->|Hij].
    + simplify_eq. exists Sent, l, 0. apply lookup_lt_Some in Hk, Hlj.
      rewrite !list_lookup_insert_eq by done. done.
    + exists wj, lj, kj. by rewrite !list_lookup_insert_ne by done.
  - exists (sent ++ [(i, b)]).
    destruct Hs as [Hnd Hsw Hres Hcnt Hst Hsf Hokv].
    assert (Hi : i ∉ sent.*1) by (rewrite Hsw, Hw; naive_solver).
    split; simpl; rewrite ?fmap_app; simpl.
    + apply NoDup_app. split_and!; [done| |apply NoDup_singleton].
      intros j Hj ->%list_elem_of_singleton. done.
    + intros j. rewrite elem_of_app, list_elem_of_singleton, Hsw.
      destruct (decide (i = j)) as [->|Hij].
      * rewrite list_lookup_insert_eq by done. naive_solver.
      * rewrite list_lookup_insert_ne by done. naive_solver.
    + rewrite Hres, drop_app_le; [done|]. by rewrite length_fmap.
    + rewrite length_app. lia.
    + intros j es' [Hj|Hj%list_elem_of_singleton]%elem_of_app Hes'; [by eauto|].
      simplify_eq. by apply Hbt.
    + intros Hph j es' [Hj|Hj%list_elem_of_singleton]%elem_of_app Hes'; [by eapply Hsf|].
      simplify_eq. apply Hbf; [|done]. by apply Hsel.
    + intros Hph. rewrite take_app_le by (by rewrite length_fmap). by apply Hokv.
  - by rewrite length_insert.
Qed.

(** A goroutine never panics: it can always take its next step. *)
Lemma worker_start sub :
  workers st !! i = Some (Waiting sub) -> is_Some (start model sub).
Proof.
  intros Hw. destruct (worker_inv _ Hw) as (l & k & _ & _ & -> & n & head & c & k' & -> & _).
  eauto.
Qed.

Lemma worker_loop n head c kill :
  workers st !! i = Some (Running n head c) ->
  is_Some (loop_step model computeInfo n head kill c).
Proof.
  intros Hw. destruct (worker_inv _ Hw) as (l & k & _ & _ & k' & (b & l' & Hr & _) & _).
  assert (Hs : is_Some (loop_step model computeInfo n head 0 c)) by (destruct Hr; eauto).
  destruct (decide (kill = 0%Z)) as [->|Hk]; [done|]. destruct Hs as [x Hs].
  destruct (loop_step_killed _ _ _ _ _ _ _ Hk Hs) as [-> |[-> _]]; eauto.
Qed.

Lemma start_inv sub n head c :
  workers st !! i = Some (Waiting sub) -> start model sub = Some (n, head, c) ->
  ∃ costs', pinv (set_worker st i (Running n head c)) costs' ∧
    sum_list costs' < sum_list costs.
Proof.
  intros Hw Hs.
  destruct (worker_inv _ Hw) as (l & k & Hl & Hk & -> & n' & head' & c' & k' & Hs' & Hd & ->).
  rewrite Hs in Hs'. simplify_eq. exists (<[i := S k']> costs). split.
  - eapply set_worker_inv; [exact Hw|done|done|exact Hl|]. by exists k'.
  - by eapply sum_list_insert_lt; [exact Hk|lia].
Qed.

Lemma iterate_inv n head c c' :
  workers st !! i = Some (Running n head c) ->
  loop_step model computeInfo n head (kill st) c = Some (inl c') ->
  ∃ costs', pinv (set_worker st i (Running n head c')) costs' ∧
    sum_list costs' < sum_list costs.
Proof.
  intros Hw Hs.
  destruct (worker_inv _ Hw) as (l & k & Hl & Hk & k' & (b & l' & Hr & Hb) & ->).
  assert (H0 : loop_step model computeInfo n head 0 c = Some (inl c')).
  { destruct (decide (kill st = 0%Z)) as [Hz|Hz]; [by rewrite Hz in Hs|].
    assert (Hx : is_Some (loop_step model computeInfo n head 0 c)) by (destruct Hr; eauto).
    destruct Hx as [x Hx].
    destruct (loop_step_killed _ _ _ _ _ _ _ Hz Hx) as [E|[E [r ->]]]; congruence. }
  inversion Hr as [|? c1 k1 ? H1 HP Hr']; simplify_eq.
  exists (<[i := S k1]> costs). split.
  - eapply set_worker_inv; [exact Hw|done|done|exact Hl|].
    exists k1. split; [|done]. by exists b, l'.
  - eapply sum_list_insert_lt; [exact Hk|lia].
Qed.

Lemma return_inv n head c b l :
  workers st !! i = Some (Running n head c) ->
  loop_step model computeInfo n head (kill st) c = Some (inr (b, l)) ->
  ∃ costs', pinv (send_result st i b l) costs' ∧ sum_list costs' < sum_list costs.
Proof.
  intros Hw Hs.
  destruct (worker_inv _ Hw) as (l0 & k & Hl & Hk & k' & (b' & l' & Hr & Hb) & ->).
  exists (<[i := 0]> costs). split; [|eapply sum_list_insert_lt; [exact Hk|lia]].
  assert (Hx : ∃ x, loop_step model computeInfo n head 0 c = Some x ∧
    longest_correct model (nops es) es (longest c) ∧
    (forall r, x = inr r -> r = (b', l') ∧ longest_correct model (nops es) es l')).
  { inversion Hr; simplify_eq; eexists; (split_and!; [done|done|]); naive_solver. }
  destruct Hx as (x & Hx & HP & Hxr).
  destruct (decide (kill st = 0%Z)) as [Hz|Hz].
  - rewrite Hz, Hx in Hs. simplify_eq. destruct (Hxr _ eq_refl) as [[= -> ->] Hlc].
    eapply send_result_inv; [exact Hw|exact Hk|done|by apply Hb|].
    intros _ -> Hsl. by apply Hb in Hsl.
  - destruct (loop_step_killed _ _ _ _ _ _ _ Hz Hx) as [E|[E [r ->]]].
    + rewrite E in Hs. simplify_eq. by eapply send_result_inv.
    + rewrite E in Hs. simplify_eq. destruct (Hxr _ eq_refl) as [[= -> ->] Hlc].
      eapply send_result_inv; [exact Hw|exact Hk|done|by apply Hb|done].
Qed.

End WorkerStep.

(** *** Steps of the caller *)

Section CallerStep.
Context (st : pstate) (costs : list nat) (Hinv : pinv st costs).

(** A step of the caller changes neither the goroutines nor [longest]. *)
Lemma caller_inv st' :
  workers st' = workers st -> plongest st' = plongest st ->
  (timedOut st' = true -> (0 < timeout)%Z) ->
  (∃ sent, sent_ok st' sent) ->
  (pphase st' = Selecting -> kill st' = 0%Z ∧ timedOut st' = false ∧
    (count st' < List.length history ∨ history = [])) ->
  (pphase st' = Finished -> computeInfo = true -> List.length history ≤ count st') ->
  (pphase st' ≠ Selecting ->
    (ok st' = false -> ∃ es, es ∈ history ∧ ¬ sub_linearizable es) ∧
    (ok st' = true -> timedOut st' = false ->
      forall es, es ∈ history -> sub_linearizable es)) ->
  pinv st' costs.
Proof.
  intros Hw Hl Ht Hs Hsel Hfin Hans.
  destruct Hinv as [Hlen Hwk _ _ _ _ _ Hlon].
  split; [by rewrite Hw|by rewrite Hw, Hl|done..|by rewrite Hl].
Qed.

Lemma on_result_sent result rest sent :
  sent_ok st sent -> pphase st = Selecting -> results st = result :: rest ->
  sent_ok (on_result st result rest) sent.
Proof.
  intros Hs Hph Hr. destruct (receive _ _ Hs _ _ Hr) as (Hlt & -> & Htk).
  destruct Hs as [Hnd Hsw Hres Hcnt Hst Hsf Hokv].
  assert (Hok : ok st && result = forallb Datatypes.id (take (S (count st)) (sent.*2))).
  { rewrite Htk, forallb_app, (Hokv Hph). simpl. by rewrite andb_true_r. }
  unfold on_result.
  destruct (negb (ok st && result) && negb computeInfo); [|destruct (bool_decide _)];
    (split; simpl; [done|done|done|lia|done|intros _; exact (Hsf Hph)|done]).
Qed.

Lemma on_result_inv result rest :
  pphase st = Selecting -> results st = result :: rest -> pinv (on_result st result rest) costs.
Proof.
  intros Hph Hr. destruct (p_sent _ _ Hinv) as [sent Hs].
  destruct (receive _ _ Hs _ _ Hr) as (Hlt & _ & Htk).
  destruct (p_selecting _ _ Hinv Hph) as (Hk & Hto & Hcnt).
  assert (Hok : ok st && result = forallb Datatypes.id (take (S (count st)) (sent.*2))).
  { rewrite Htk, forallb_app, (sent_ok_var _ _ Hs Hph). simpl. by rewrite andb_true_r. }
  assert (Hneg : ok st && result = false -> ∃ es, es ∈ history ∧ ¬ sub_linearizable es).
  { rewrite Hok. by apply (received_false _ _ Hinv _ Hs). }
  pose proof (on_result_sent _ _ _ Hs Hph Hr) as Hs'.
  pose proof (sent_length _ _ Hinv _ Hs) as Hsl.
  unfold on_result in *.
  destruct (negb (ok st && result) && negb computeInfo) eqn:E1; [|case_bool_decide as Hc];
    (apply caller_inv; simpl in *; [done|done|congruence|by exists sent| |done|]); try done.
  - intros _. apply andb_prop in E1 as [E1 _]. apply negb_true_iff in E1.
    split; [done|]. congruence.
  - intros _. split; [done|]. intros Ht _ es Hes.
    apply (received_true _ _ Hinv _ Hs); [lia|by rewrite <- Hok|lia|done].
  - intros _. split_and!; [done..|]. left. lia.
Qed.

Lemma on_timeout_inv :
  pphase st = Selecting -> (0 < timeout)%Z -> pinv (on_timeout st) costs.
Proof.
  intros Hph Ht. destruct (p_sent _ _ Hinv) as [sent Hs].
  apply caller_inv; simpl; try done.
  - exists sent. destruct Hs. by split.
  - intros _. split; [|done]. intros Hok.
    apply (received_false _ _ Hinv _ Hs (count st) Hph).
    by rewrite <- (sent_ok_var _ _ Hs Hph).
Qed.

Lemma drain_inv result rest :
  pphase st = Collecting -> results st = result :: rest -> pinv (drain st rest) costs.
Proof.
  intros Hph Hr. destruct (p_sent _ _ Hinv) as [sent Hs].
  destruct (receive _ _ Hs _ _ Hr) as (Hlt & -> & _).
  apply caller_inv; simpl; try done; [apply (p_timeout _ _ Hinv)| |].
  - exists sent. destruct Hs. by split.
  - intros _. apply (p_answer _ _ Hinv). by rewrite Hph.
Qed.

Lemma finish_inv :
  pphase st = Collecting -> (computeInfo = true -> List.length history ≤ count st) ->
  pinv (finish st) costs.
Proof.
  intros Hph Hc. destruct (p_sent _ _ Hinv) as [sent Hs].
  apply caller_inv; simpl; try done; [apply (p_timeout _ _ Hinv)| |].
  - exists sent. destruct Hs. by split.
  - intros _. apply (p_answer _ _ Hinv). by rewrite Hph.
Qed.

(** The counter stays below the number of partitions while an answer is pending. *)
Lemma pending result rest :
  results st = result :: rest -> count st < List.length history.
Proof.
  intros Hr. destruct (p_sent _ _ Hinv) as [sent Hs].
  destruct (receive _ _ Hs _ _ Hr) as (Hlt & _).
  pose proof (sent_length _ _ Hinv _ Hs). lia.
Qed.

End CallerStep.

(** Every step preserves the invariant and decreases the measure. *)
Lemma pstep_inv st costs st' :
  pinv st costs -> pstep st st' ->
  ∃ costs', pinv st' costs' ∧ pmeasure st' costs' < pmeasure st costs.
Proof.
  intros Hinv Hs. unfold pmeasure.
  assert (Hidx : forall i w, workers st !! i = Some w -> ∃ es, history !! i = Some es).
  { intros i w Hw. apply lookup_lt_is_Some_2. rewrite <- (p_len _ _ Hinv).
    by eapply lookup_lt_Some. }
  destruct Hs as [st i sub n head c Hw Hst|st i n head c c' Hw Hst|st i n head c b l Hw Hst Hch
    |st result rest Hph Hr|st Hph Ht|st result rest Hph Hci Hc Hr|st Hph Hc].
  - destruct (Hidx _ _ Hw) as [es Hes].
    destruct (start_inv _ _ Hinv _ _ Hes _ _ _ _ Hw Hst) as (costs' & Hi & Hlt).
    exists costs'. split; [done|]. simpl. lia.
  - destruct (Hidx _ _ Hw) as [es Hes].
    destruct (iterate_inv _ _ Hinv _ _ Hes _ _ _ _ Hw Hst) as (costs' & Hi & Hlt).
    exists costs'. split; [done|]. simpl. lia.
  - destruct (Hidx _ _ Hw) as [es Hes].
    destruct (return_inv _ _ Hinv _ _ Hes _ _ _ _ _ Hw Hst) as (costs' & Hi & Hlt).
    exists costs'. split; [done|]. simpl. lia.
  - exists costs. split; [by apply on_result_inv|]. pose proof (pending _ _ Hinv _ _ Hr).
    unfold on_result. rewrite Hph. repeat case_match; simpl; lia.
  - exists costs. split; [by apply on_timeout_inv|]. rewrite Hph. simpl. lia.
  - exists costs. split; [by eapply drain_inv|]. rewrite Hph. simpl. lia.
  - exists costs. split; [by apply finish_inv|]. rewrite Hph. simpl. lia.
Qed.

Lemma psteps_inv st costs st' :
  pinv st costs -> rtc pstep st st' -> ∃ costs', pinv st' costs'.
Proof.
  intros Hinv Hs. revert costs Hinv.
  induction Hs as [st|st st1 st2 H1 _ IH]; intros costs Hinv; [by eauto|].
  destruct (pstep_inv _ _ _ Hinv H1) as (costs' & Hinv' & _). eauto.
Qed.

(** No run goes on for ever, whatever the order of the steps. *)
Lemma pinv_terminates st costs : pinv st costs -> Acc (flip pstep) st.
Proof.
  remember (pmeasure st costs) as m eqn:Hm. revert st costs Hm.
  induction (lt_wf m) as [m _ IH]. intros st costs -> Hinv. constructor. intros st' Hs.
  destruct (pstep_inv _ _ _ Hinv Hs) as (costs' & Hinv' & Hlt). by eapply IH.
Qed.

(** While some goroutine has not answered, it can take a step. *)
Lemma worker_progress st costs i w :
  pinv st costs -> workers st !! i = Some w -> w ≠ Sent -> ∃ st', pstep st st'.
Proof.
  intros Hinv Hw Hns.
  assert (Hes : is_Some (history !! i)).
  { apply lookup_lt_is_Some_2. rewrite <- (p_len _ _ Hinv). by eapply lookup_lt_Some. }
  destruct Hes as [es Hes]. destruct w as [sub|n head c|]; [| |done].
  - destruct (worker_start _ _ Hinv _ _ Hes _ Hw) as [[[n head] c] Hs].
    eexists. by eapply W_start.
  - destruct (worker_loop _ _ Hinv _ _ Hes _ _ _ (kill st) Hw) as [[c'|[b l]] Hs].
    + eexists. by eapply W_iterate.
    + eexists. eapply W_return; [done..|].
      destruct (p_sent _ _ Hinv) as [sent Hsent].
      pose proof (sent_length _ _ Hinv _ Hsent) as Hle.
      rewrite (sent_results _ _ Hsent), length_drop, length_fmap.
      assert (List.length sent ≠ List.length history); [|lia]. intros Heq.
      assert (Hp : sent.*1 ≡ₚ seq 0 (List.length history)).
      { apply submseteq_length_Permutation; [by eapply sent_submseteq|].
        rewrite length_fmap, length_seq. lia. }
      assert (Hin : i ∈ sent.*1).
      { rewrite Hp. apply elem_of_seq. apply lookup_lt_Some in Hes. lia. }
      apply (sent_workers _ _ Hsent) in Hin. congruence.
Qed.

(** The system is never stuck before the caller returns. *)
Lemma pinv_progress st costs :
  history ≠ [] -> pinv st costs -> pphase st ≠ Finished -> ∃ st', pstep st st'.
Proof.
  intros Hne Hinv Hph. destruct (results st) as [|result rest] eqn:Hr.
  - destruct (decide (count st < List.length history)) as [Hc|Hc].
    + destruct (p_sent _ _ Hinv) as [sent Hs].
      assert (Hex : ∃ i w, workers st !! i = Some w ∧ w ≠ Sent).
      { rewrite (sent_results _ _ Hs) in Hr. apply (f_equal List.length) in Hr.
        rewrite length_drop, length_fmap in Hr. simpl in Hr.
        assert (Hni : ∃ i, i < List.length history ∧ i ∉ sent.*1).
        { destruct (decide (Forall (λ i, i ∈ sent.*1) (seq 0 (List.length history)))) as [Hf|Hf].
          - assert (Hsub : seq 0 (List.length history) ⊆+ sent.*1).
            { apply NoDup_submseteq; [apply NoDup_seq|]. by rewrite Forall_forall in Hf. }
            apply submseteq_length in Hsub. rewrite length_seq, length_fmap in Hsub. lia.
          - apply not_Forall_Exists in Hf; [|apply _]. apply Exists_exists in Hf as (i & Hi & Hn).
            apply elem_of_seq in Hi. exists i. split; [lia|done]. }
        destruct Hni as (i & Hi & Hn). rewrite <- (p_len _ _ Hinv) in Hi.
        apply lookup_lt_is_Some_2 in Hi as [w Hw]. exists i, w. split; [done|].
        intros ->. apply Hn. by apply (sent_workers _ _ Hs). }
      destruct Hex as (i & w & Hw & Hns). by eapply worker_progress.
    + destruct (pphase st) eqn:Hp; [|by eexists; eapply M_finish; [done|lia]|done].
      destruct (p_selecting _ _ Hinv Hp) as (_ & _ & [?|?]); [lia|done].
  - pose proof (pending _ _ Hinv _ _ Hr) as Hc.
    destruct (pphase st) eqn:Hp; [by eexists; eapply M_result| |done].
    destruct computeInfo eqn:Hci.
    + eexists. by eapply M_drain.
    + eexists. eapply M_finish; [done|congruence].
Qed.

(** What the returned result says. *)
Lemma pinv_result st costs :
  pinv st costs -> pphase st = Finished ->
  (check_result st = Illegal -> ∃ es, es ∈ history ∧ ¬ sub_linearizable es) ∧
  (check_result st = Ok -> forall es, es ∈ history -> sub_linearizable es) ∧
  (check_result st = Unknown -> (0 < timeout)%Z).
Proof.
  intros Hinv Hph. destruct (p_answer _ _ Hinv) as [Hf Ht]; [by rewrite Hph|].
  unfold check_result. destruct (ok st), (timedOut st) eqn:Hto; simpl; split_and!; try done; auto.
  intros _. by apply (p_timeout _ _ Hinv).
Qed.

(** With [computeInfo], every goroutine has stored its partial linearizations when
    the caller reads them. *)
Lemma pinv_longest st costs i es :
  pinv st costs -> pphase st = Finished -> computeInfo = true -> history !! i = Some es ->
  ∃ l, plongest st !! i = Some l ∧ longest_correct model (nops es) es l.
Proof.
  intros Hinv Hph Hci Hes. destruct (p_sent _ _ Hinv) as [sent Hs].
  pose proof (p_finished _ _ Hinv Hph Hci) as Hc.
  destruct (p_worker _ _ Hinv i es Hes) as (w & l & k & Hw & Hl & _ & Hok).
  assert (Hi : i ∈ sent.*1).
  { apply (sent_complete _ _ Hinv _ Hs); [done|]. by eapply lookup_lt_Some. }
  apply (sent_workers _ _ Hs) in Hi. simplify_eq. exists l. split; [done|]. apply Hok.
Qed.

Lemma unique_partials_elem l ids :
  ids ∈ unique_partials l -> ∃ i q, l !! i = Some (Some (q, ids)).
Proof.
  unfold unique_partials. intros ([q ids'] & -> & Hin)%list_elem_of_fmap. simpl.
  apply elem_of_remove_dups, list_elem_of_omap in Hin as (x & Hx & ->).
  apply list_elem_of_lookup in Hx as [i Hi]. eauto.
Qed.

Lemma pinv_partials st costs info i es partials ids :
  pinv st costs -> pphase st = Finished -> computeInfo = true ->
  partialLinearizations st info -> history !! i = Some es -> info !! i = Some partials ->
  ids ∈ partials -> ids ≠ [] ∧ partial_linearization model (nops es) es ids.
Proof.
  intros Hinv Hph Hci Hinfo Hes Hp Hids.
  destruct (pinv_longest _ _ _ _ Hinv Hph Hci Hes) as (l & Hl & _ & Hlc).
  pose proof (Forall2_lookup_lr _ _ _ _ _ _ Hinfo Hl Hp) as Hperm. simpl in Hperm.
  rewrite Hperm in Hids. apply unique_partials_elem in Hids as (j & q & Hj).
  destruct (Hlc _ _ _ Hj) as [Hin Hpl]. split; [|done]. intros ->. by apply elem_of_nil in Hin.
Qed.

(** ** One schedule, executable

    The goroutines run to their end one after the other, then the caller collects. *)
Definition caller_exec (st : pstate) : option pstate :=
  match pphase st, results st with
  | Selecting, result :: rest => Some (on_result st result rest)
  | Selecting, [] => None
  | Collecting, rs =>
      if computeInfo && bool_decide (count st < List.length history) then
        match rs with [] => None | _ :: rest => Some (drain st rest) end
      else Some (finish st)
  | Finished, _ => None
  end.

Definition worker_exec (st : pstate) (i : nat) (w : worker) : option pstate :=
  match w with
  | Waiting sub =>
      '(n, head, c) ← start model sub;
      Some (set_worker st i (Running n head c))
  | Running n head c =>
      r ← loop_step model computeInfo n head (kill st) c;
      match r with
      | inl c' => Some (set_worker st i (Running n head c'))
      | inr (b, l) =>
          if decide (List.length (results st) < List.length history)
          then Some (send_result st i b l) else None
      end
  | Sent => None
  end.

Fixpoint first_unsent (ws : list worker) (i : nat) : option (nat * worker) :=
  match ws with
  | [] => None
  | Sent :: ws' => first_unsent ws' (S i)
  | w :: _ => Some (i, w)
  end.

Definition pstep_exec (st : pstate) : option pstate :=
  match first_unsent (workers st) 0 with
  | Some (i, w) => worker_exec st i w
  | None => caller_exec st
  end.

Fixpoint prun (fuel : nat) (st : pstate) : option pstate :=
  match fuel with
  | O => None
  | S fuel =>
      match pphase st with
      | Finished => Some st
      | _ => st' ← pstep_exec st; prun fuel st'
      end
  end.

Lemma first_unsent_lookup ws i j w :
  first_unsent ws i = Some (j, w) -> i ≤ j ∧ ws !! (j - i) = Some w.
Proof.
  revert i. induction ws as [|w' ws IH]; intros i Hf; [done|]. simpl in Hf.
  destruct w'; simplify_eq; try (rewrite Nat.sub_diag; split; [lia|done]).
  apply IH in Hf as [Hle Hl]. split; [lia|].
  by replace (j - i) with (S (j - S i)) by lia.
Qed.

Lemma pstep_exec_sound st st' : pstep_exec st = Some st' -> pstep st st'.
Proof.
  unfold pstep_exec. destruct (first_unsent (workers st) 0) as [[i w]|] eqn:Hf.
  - apply first_unsent_lookup in Hf as [_ Hw]. rewrite Nat.sub_0_r in Hw.
    destruct w as [sub|n head c|]; simpl; [| |done].
    + destruct (start model sub) as [[[n head] c]|] eqn:Hs; [|done].
      intros [= <-]. by eapply W_start.
    + destruct (loop_step _ _ _ _ _ c) as [[c'|[b l]]|] eqn:Hs; simpl; [| |done].
      * intros [= <-]. by eapply W_iterate.
      * case_decide; [|done]. intros [= <-]. by eapply W_return.
  - unfold caller_exec. destruct (pphase st) eqn:Hph; [| |done].
    + destruct (results st) eqn:Hr; [done|]. intros [= <-]. by apply M_result.
    + destruct (computeInfo && _) eqn:Hc.
      * apply andb_prop in Hc as [Hci Hc]. apply bool_decide_eq_true in Hc.
        destruct (results st) eqn:Hr; [done|]. intros [= <-]. by eapply M_drain.
      * intros [= <-]. apply M_finish; [done|]. intros Hci. rewrite Hci in Hc.
        simpl in Hc. apply bool_decide_eq_false in Hc. lia.
Qed.

Lemma prun_sound fuel st st' :
  prun fuel st = Some st' -> rtc pstep st st' ∧ pphase st' = Finished.
Proof.
  revert st. induction fuel as [|fuel IH]; intros st Hr; [done|]. simpl in Hr.
  destruct (pphase st) eqn:Hph; [| |by simplify_eq];
    (destruct (pstep_exec st) as [st1|] eqn:Hs; [|done];
     apply IH in Hr as [Hr Hf]; split; [|done];
     eapply rtc_l; [by apply pstep_exec_sound|exact Hr]).
Qed.

End Parallel.
Arguments pstate V : clear implicits.
Arguments worker V : clear implicits.
