(* ===== verification/Check.v ===== *)
(** * [porcupine/porcupine.go], and [checkOperations], [checkEvents] of
    [porcupine/checker.go]

    The entry points of the checker.  A call starts the transition system of
    [CheckParallel] on the partitions of the history; the values it can return are
    those of the finished states that the system reaches. *)
From S2P Require Import Prelude Bitset Model Entries LinkedList LinkedEntries.
From S2P Require Import Linearizability CheckSingle CheckSingleProof CheckSingleSpec.
From S2P Require Import HistorySpec EventSpec CheckParallel.
Import Entry.

Section Check.
Context {V : Type} `{Iface V}.
Context (sort : forall A, (A -> A -> bool) -> list A -> list A).

Record linearizationInfo := LinearizationInfo {
  info_history : list (list (entry V));
  info_partials : list (list (list Z))
}.

(** The values that [checkParallel] returns in a finished state. *)
Definition parallel_info (history : list (list (entry V))) (computeInfo : bool)
    (st : pstate V) (info : linearizationInfo) : Prop :=
  if computeInfo then
    info_history info = history ∧ partialLinearizations st (info_partials info)
  else info = LinearizationInfo [] [].

Definition checkParallel (model : Model V) (history : list (list (entry V)))
    (computeInfo : bool) (timeout : Z) (r : CheckResult * linearizationInfo) : Prop :=
  ∃ st, rtc (pstep model history computeInfo timeout) (pinit history) st ∧
    pphase st = Finished ∧ r.1 = check_result st ∧ parallel_info history computeInfo st r.2.

(** The partitions as entries; [None] when the partition function panics. *)
Definition operation_entries (model : Model V) (history : list (Operation V)) :
    option (list (list (entry V))) :=
  fmap (M:=list) (makeEntries sort) <$> callPartition model history.

Definition event_entries (model : Model V) (history : list (Event V)) :
    option (list (list (entry V))) :=
  fmap (M:=list) (λ subhistory, convertEntries (renumber subhistory)) <$>
    callPartitionEvent model history.

Definition checkEvents (model : Model V) (history : list (Event V)) (verbose : bool)
    (timeout : Z) (r : CheckResult * linearizationInfo) : Prop :=
  ∃ l, event_entries (fillDefault model) history = Some l ∧
    checkParallel (fillDefault model) l verbose timeout r.

Definition checkOperations (model : Model V) (history : list (Operation V)) (verbose : bool)
    (timeout : Z) (r : CheckResult * linearizationInfo) : Prop :=
  ∃ l, operation_entries (fillDefault model) history = Some l ∧
    checkParallel (fillDefault model) l verbose timeout r.

(** *** The exported functions *)

Definition CheckOperations (model : Model V) (history : list (Operation V)) (b : bool) :
    Prop :=
  ∃ res info, checkOperations model history false 0 (res, info) ∧ b = bool_decide (res = Ok).

Definition CheckOperationsTimeout (model : Model V) (history : list (Operation V))
    (timeout : Z) (res : CheckResult) : Prop :=
  ∃ info, checkOperations model history false timeout (res, info).

Definition CheckOperationsVerbose (model : Model V) (history : list (Operation V))
    (timeout : Z) (r : CheckResult * linearizationInfo) : Prop :=
  checkOperations model history true timeout r.

Definition CheckEvents (model : Model V) (history : list (Event V)) (b : bool) : Prop :=
  ∃ res info, checkEvents model history false 0 (res, info) ∧ b = bool_decide (res = Ok).

Definition CheckEventsTimeout (model : Model V) (history : list (Event V))
    (timeout : Z) (res : CheckResult) : Prop :=
  ∃ info, checkEvents model history false timeout (res, info).

Definition CheckEventsVerbose (model : Model V) (history : list (Event V))
    (timeout : Z) (r : CheckResult * linearizationInfo) : Prop :=
  checkEvents model history true timeout r.

(** ** Termination

    Whatever the order of the steps, the system comes to an end, no goroutine panics
    on the way, and it does not stop before the caller has returned. *)
Definition no_panic (model : Model V) (computeInfo : bool) (st : pstate V) : Prop :=
  (forall i sub, workers st !! i = Some (Waiting sub) -> is_Some (start model sub)) ∧
  (forall i n head c, workers st !! i = Some (Running n head c) ->
     is_Some (loop_step model computeInfo n head (kill st) c)).

Definition always_returns (model : Model V) (history : list (list (entry V)))
    (computeInfo : bool) (timeout : Z) : Prop :=
  Acc (flip (pstep model history computeInfo timeout)) (pinit history) ∧
  forall st, rtc (pstep model history computeInfo timeout) (pinit history) st ->
    no_panic model computeInfo st ∧
    (pphase st ≠ Finished -> ∃ st', pstep model history computeInfo timeout st st').

Section Parallel.
Context (model : Model V) (history : list (list (entry V))) (computeInfo : bool).
Context (Hall : Forall (checks model computeInfo) history).

Lemma checkParallel_returns timeout :
  history ≠ [] -> always_returns model history computeInfo timeout.
Proof.
  intros Hne. destruct (pinit_inv model history computeInfo timeout Hall) as [costs Hinv].
  split; [by eapply pinv_terminates|]. intros st Hst.
  destruct (psteps_inv _ _ _ _ _ _ _ Hinv Hst) as [costs' Hinv'].
  assert (Hidx : forall i w, workers st !! i = Some w -> ∃ es, history !! i = Some es).
  { intros i w Hw. apply lookup_lt_is_Some_2.
    rewrite <- (p_len _ _ _ _ _ _ Hinv'). by eapply lookup_lt_Some. }
  split; [split|].
  - intros i sub Hw. destruct (Hidx _ _ Hw) as [es Hes]. by eapply worker_start.
  - intros i n head c Hw. destruct (Hidx _ _ Hw) as [es Hes]. by eapply worker_loop.
  - intros Hph. by eapply pinv_progress.
Qed.

(** A system that always returns has a run that does. *)
Lemma returns_some timeout :
  always_returns model history computeInfo timeout ->
  ∃ st, rtc (pstep model history computeInfo timeout) (pinit history) st ∧
    pphase st = Finished.
Proof.
  intros [Hacc Hprog].
  assert (Hgen : forall st, Acc (flip (pstep model history computeInfo timeout)) st ->
    rtc (pstep model history computeInfo timeout) (pinit history) st ->
    ∃ st', rtc (pstep model history computeInfo timeout) (pinit history) st' ∧
      pphase st' = Finished); [|by apply (Hgen (pinit history))].
  clear Hacc. intros st Hacc. induction Hacc as [st _ IH]. intros Hst.
  destruct (pphase st) eqn:Hph; [..|by eauto];
    (destruct (Hprog st Hst) as [_ [st' Hs]]; [congruence|];
     apply (IH st' Hs); eapply rtc_r; eassumption).
Qed.

Lemma info_exists st : ∃ info, parallel_info history computeInfo st info.
Proof.
  unfold parallel_info. destruct computeInfo; [|by eexists].
  exists (LinearizationInfo history (unique_partials <$> plongest st)). split; [done|].
  unfold partialLinearizations. simpl. apply Forall2_fmap_r, Forall_Forall2_diag.
  apply Forall_true. intros l. apply Permutation_refl.
Qed.

Lemma checkParallel_some timeout :
  history ≠ [] -> ∃ r, checkParallel model history computeInfo timeout r.
Proof.
  intros Hne. destruct (returns_some timeout (checkParallel_returns timeout Hne))
    as (st & Hst & Hph).
  destruct (info_exists st) as [info Hinfo]. by exists (check_result st, info), st.
Qed.

Lemma checkParallel_result timeout r :
  checkParallel model history computeInfo timeout r ->
  (r.1 = Illegal -> ∃ es, es ∈ history ∧ ¬ sub_linearizable model es) ∧
  (r.1 = Ok -> forall es, es ∈ history -> sub_linearizable model es) ∧
  (r.1 = Unknown -> (0 < timeout)%Z).
Proof.
  intros (st & Hst & Hph & -> & _).
  destruct (pinit_inv model history computeInfo timeout Hall) as [costs Hinv].
  destruct (psteps_inv _ _ _ _ _ _ _ Hinv Hst) as [costs' Hinv'].
  by eapply pinv_result.
Qed.

Lemma checkParallel_partials timeout r i es partials ids :
  checkParallel model history computeInfo timeout r -> computeInfo = true ->
  history !! i = Some es -> info_partials r.2 !! i = Some partials -> ids ∈ partials ->
  ids ≠ [] ∧ partial_linearization model (nops es) es ids.
Proof.
  intros (st & Hst & Hph & _ & Hinfo) Hci Hes Hp Hids. unfold parallel_info in Hinfo.
  destruct (pinit_inv model history computeInfo timeout Hall) as [costs Hinv].
  destruct (psteps_inv _ _ _ _ _ _ _ Hinv Hst) as [costs' Hinv'].
  rewrite Hci in Hinfo. destruct Hinfo as [_ Hinfo]. by eapply pinv_partials.
Qed.

End Parallel.

(** The result of the executable schedule is one that the function can return. *)
Lemma run_checkOperations model h l fuel timeout res longest partials :
  operation_entries (fillDefault model) h = Some l ->
  (λ st, (check_result st, plongest st)) <$>
    prun (fillDefault model) l true fuel (pinit l) = Some (res, longest) ->
  Forall2 (λ l partials, partials ≡ₚ unique_partials l) longest partials ->
  checkOperations model h true timeout (res, LinearizationInfo l partials).
Proof.
  intros Hl (st & Hr & [= -> ->])%fmap_Some Hp.
  destruct (prun_sound _ _ _ timeout _ _ _ Hr) as [Hst Hph].
  exists l. split; [done|]. by exists st.
Qed.

Lemma run_CheckOperationsTimeout model h l fuel timeout res :
  operation_entries (fillDefault model) h = Some l ->
  check_result <$> prun (fillDefault model) l false fuel (pinit l) = Some res ->
  CheckOperationsTimeout model h timeout res.
Proof.
  intros Hl (st & Hr & ->)%fmap_Some.
  destruct (prun_sound _ _ _ timeout _ _ _ Hr) as [Hst Hph].
  exists (LinearizationInfo [] []), l. split; [done|]. by exists st.
Qed.

(** Without a partition and without a timeout nothing can happen: the [select] waits
    for an answer that no goroutine will send. *)
Lemma checkParallel_empty_stuck model computeInfo timeout st :
  (timeout <= 0)%Z -> ¬ pstep model [] computeInfo timeout (pinit []) st.
Proof.
  intros Ht Hs. inversion Hs; simplify_eq/=; lia.
Qed.

(** What can happen then: only the timeout ends the [select], and the result is [Unknown]. *)
Lemma checkParallel_empty_idle model computeInfo timeout st :
  rtc (pstep model [] computeInfo timeout) (pinit []) st ->
  workers st = [] ∧ results st = [] ∧ ok st = true ∧
  (pphase st ≠ Selecting -> timedOut st = true).
Proof.
  intros Hr. set (P := λ st : @pstate V, workers st = [] ∧ results st = [] ∧ ok st = true ∧
    (pphase st ≠ Selecting -> timedOut st = true)).
  assert (Hp : P st); [|exact Hp]. assert (H0 : P (pinit [])) by done. revert H0.
  induction Hr as [st|st st1 st2 Hs _ IH]; [done|]. intros (Hw & Hres & Hok & Ht). apply IH.
  inversion Hs; subst; rewrite ?Hw, ?Hres in *; simplify_eq/=; unfold P; simpl; auto.
  split_and!; auto. intros _. apply Ht. congruence.
Qed.

Lemma checkParallel_empty_timeout model (h : list (Operation V)) timeout res :
  operation_entries (fillDefault model) h = Some [] -> (0 < timeout)%Z ->
  CheckOperationsTimeout model h timeout res <-> res = Unknown.
Proof.
  intros Hl Ht. split.
  - intros (info & l & Hl' & st & Hst & Hph & Hres & _). rewrite Hl in Hl'. simplify_eq/=.
    destruct (checkParallel_empty_idle _ _ _ _ Hst) as (_ & _ & Hok & Hout).
    unfold check_result. rewrite Hok, Hout by congruence. done.
  - intros ->. exists (LinearizationInfo [] []), []. split; [done|].
    exists (finish (on_timeout (pinit []))). split_and!; [|done..].
    eapply rtc_l; [by apply M_timeout|]. eapply rtc_l; [by apply M_finish|]. apply rtc_refl.
Qed.

End Check.
Arguments linearizationInfo V : clear implicits.

(** ** Correctness of the checker *)
Section Correct.
Context {V : Type} `{Iface V} (model : Model V).
Abbreviation M := (fillDefault model).
Context (op_ok : V -> V -> Prop) (valid : V -> Prop) `{!ModelLaws M op_ok valid}.
Context (sort : forall A, (A -> A -> bool) -> list A -> list A) `{!GoSort sort}.

Lemma wf_nops n (es : list (entry V)) : wf_entries n es -> nops es = n.
Proof. intros Hwf. unfold nops. rewrite (wf_length _ _ Hwf), Nat.mul_comm. by apply Nat.div_mul. Qed.

(** [checkSingle] meets the interface of [CheckParallel]. *)
Lemma wf_entries_checks n es ci :
  wf_entries n es -> (Z.of_nat n < 2 ^ 63)%Z -> entries_ok op_ok es -> checks M ci es.
Proof.
  intros Hwf Hn Hok.
  destruct (start_resolves M op_ok valid n es ci Hwf Hn Hok) as (c & k & b & l & Hs & Hr & Hb).
  exists n, (List.length es), c, k. split; [done|]. exists b, l.
  unfold sub_linearizable. by rewrite (wf_nops n).
Qed.

Lemma operation_checks ci h :
  wf_history op_ok h -> checks M ci (makeEntries sort h).
Proof.
  intros Hh. eapply wf_entries_checks; [by eapply wf_history_entries|apply Hh|].
  by apply makeEntries_ok.
Qed.

Lemma operation_sub h :
  wf_history op_ok h ->
  sub_linearizable M (makeEntries sort h) <-> linearizable M h.
Proof.
  intros Hh. unfold sub_linearizable.
  rewrite (wf_nops (length h)) by (by eapply wf_history_entries).
  by apply makeEntries_linearizable.
Qed.

Lemma event_checks ci evs :
  wf_events op_ok evs -> checks M ci (convertEntries (renumber evs)).
Proof.
  intros Hwf. destruct (events_entries M op_ok evs Hwf) as (n & Hn & Hw & Hok & _).
  pose proof (ev_small _ _ Hwf). eapply wf_entries_checks; [done|lia|done].
Qed.

Lemma event_sub evs :
  wf_events op_ok evs ->
  sub_linearizable M (convertEntries (renumber evs)) <-> events_linearizable M evs.
Proof.
  intros Hwf. destruct (events_entries M op_ok evs Hwf) as (n & Hn & Hw & Hok & Hlin).
  unfold sub_linearizable. by rewrite (wf_nops n).
Qed.

(** The documented contract of the function [Partition]: the history is linearizable
    if and only if each partition is. *)
Record partition_ok (h : list (Operation V)) (partitions : list (list (Operation V))) :
    Prop := {
  part_call : callPartition M h = Some partitions;
  part_wf : Forall (wf_history op_ok) partitions;
  part_ne : partitions ≠ []
}.

Section Operations.
Context (h : list (Operation V)) (partitions : list (list (Operation V))).
Context (Hp : partition_ok h partitions).

Lemma partition_entries :
  operation_entries sort M h = Some (makeEntries sort <$> partitions).
Proof.
  unfold operation_entries. by rewrite (part_call _ _ Hp).
Qed.

Lemma partition_checks ci : Forall (checks M ci) (makeEntries sort <$> partitions).
Proof.
  apply Forall_fmap. eapply Forall_impl; [apply (part_wf _ _ Hp)|].
  intros p Hw. by apply operation_checks.
Qed.

Lemma operations_return verbose timeout :
  always_returns M (makeEntries sort <$> partitions) verbose timeout ∧
  ∃ r, checkOperations sort model h verbose timeout r.
Proof.
  assert (Hne : makeEntries sort <$> partitions ≠ []).
  { intros E%fmap_nil_inv. by apply (part_ne _ _ Hp). }
  split; [apply checkParallel_returns; [apply partition_checks|done]|].
  destruct (checkParallel_some M _ verbose (partition_checks verbose) timeout Hne) as [r Hr].
  exists r. exists (makeEntries sort <$> partitions). split; [apply partition_entries|done].
Qed.

Lemma operations_result verbose timeout r :
  checkOperations sort model h verbose timeout r ->
  (r.1 = Illegal -> ∃ p, p ∈ partitions ∧ ¬ linearizable M p) ∧
  (r.1 = Ok -> forall p, p ∈ partitions -> linearizable M p) ∧
  (r.1 = Unknown -> (0 < timeout)%Z).
Proof.
  intros (l & Hl & Hr). rewrite partition_entries in Hl. simplify_eq.
  pose proof (part_wf _ _ Hp) as Hw. rewrite Forall_forall in Hw.
  destruct (checkParallel_result M _ verbose (partition_checks verbose) timeout r Hr)
    as (Hill & Hok & Hun).
  split_and!; [| |done].
  - intros Hres. destruct (Hill Hres) as (es & (p & -> & Hin)%list_elem_of_fmap & Hn).
    exists p. split; [done|]. by rewrite <- operation_sub by auto.
  - intros Hres p Hin. apply operation_sub; [by auto|]. apply (Hok Hres).
    by apply list_elem_of_fmap_2.
Qed.

Lemma operations_partials timeout r i p partials ids :
  checkOperations sort model h true timeout r ->
  partitions !! i = Some p -> info_partials r.2 !! i = Some partials -> ids ∈ partials ->
  ids ≠ [] ∧ partial_linearization M (length p) (makeEntries sort p) ids.
Proof.
  intros (l & Hl & Hr) Hpi. rewrite partition_entries in Hl. simplify_eq.
  intros Hpart Hids. assert (Hw : wf_history op_ok p).
  { pose proof (part_wf _ _ Hp) as Hw. rewrite Forall_lookup in Hw. by eapply Hw. }
  erewrite <- (wf_nops (length p)); [|by eapply wf_history_entries].
  eapply checkParallel_partials; [apply (partition_checks true)|exact Hr|done| |done|done].
  by rewrite list_lookup_fmap, Hpi.
Qed.

End Operations.

End Correct.
