(* ===== verification/KvModel.v ===== *)
(** * [models/kv.go]: the model of the key/value service

    [KvModel] describes one key and relies on [Partition] to split a history by key.
    The specification here is a store with all the keys; that a history is
    linearizable for the store exactly when every partition is linearizable for
    [KvModel] is the locality of linearizability. *)
From stdpp Require Import pretty.
From S2P Require Import Prelude Bitset Model Entries LinkedList LinkedEntries.
From S2P Require Import Linearizability CheckSingle CheckSingleProof CheckSingleSpec.
From S2P Require Import HistorySpec EventSpec CheckParallel Check.

(** The values of the interface type that occur here. *)
Record KvInput := MkKvInput { Op : N; Key : string; KValue : string }.
Record KvOutput := MkKvOutput { OValue : string }.

Inductive any :=
| ANil
| AString (s : string)
| AKvInput (i : KvInput)
| AKvOutput (o : KvOutput).

#[global] Instance KvInput_eq_dec : EqDecision KvInput.
Proof. solve_decision. Defined.
#[global] Instance KvOutput_eq_dec : EqDecision KvOutput.
Proof. solve_decision. Defined.
#[global] Instance any_eq_dec : EqDecision any.
Proof. solve_decision. Defined.

#[global] Instance any_iface : Iface any := {|
  iface_nil := ANil;
  iface_eq a b := Some (bool_decide (a = b));
  iface_show v := match v with
    | ANil => "<nil>"
    | AString s => s
    | AKvInput i => "{" +:+ pretty (Op i) +:+ " " +:+ Key i +:+ " " +:+ KValue i +:+ "}"
    | AKvOutput o => "{" +:+ OValue o +:+ "}"
    end
|}.

Section KvModel.
Context (sort : forall A, (A -> A -> bool) -> list A -> list A).

(** The first loop of [Partition]: [m[key] = append(m[key], v)]. *)
Definition group_step (m : gmap string (list (Operation any))) (v : Operation any) :
    option (gmap string (list (Operation any))) :=
  match Input v with
  | AKvInput i => Some (<[Key i := default [] (m !! Key i) ++ [v]]> m)
  | _ => None
  end.

Fixpoint group_loop (m : gmap string (list (Operation any))) (history : list (Operation any)) :
    option (gmap string (list (Operation any))) :=
  match history with
  | [] => Some m
  | v :: history' => m' ← group_step m v; group_loop m' history'
  end.

Definition KvPartition (history : list (Operation any)) :
    option (list (list (Operation any))) :=
  m ← group_loop ∅ history;
  let keys := sort string String.ltb (map_to_list m).*1 in
  Some ((λ k, default [] (m !! k)) <$> keys).

Definition KvStep (state input output : any) : option (bool * any) :=
  match input, output, state with
  | AKvInput inp, AKvOutput out, AString st =>
      if decide (Op inp = 0%N) then Some (bool_decide (OValue out = st), state)
      else if decide (Op inp = 1%N) then Some (true, AString (KValue inp))
      else if decide (Op inp = 2%N) then Some (true, AString (st +:+ KValue inp))
      else Some (bool_decide (OValue out = st), AString (st +:+ KValue inp))
  | _, _, _ => None
  end.

Definition KvDescribe (input output : any) : option string :=
  match input, output with
  | AKvInput inp, AKvOutput out =>
      Some (if decide (Op inp = 0%N) then
              "get('" +:+ Key inp +:+ "') -> '" +:+ OValue out +:+ "'"
            else if decide (Op inp = 1%N) then
              "put('" +:+ Key inp +:+ "', '" +:+ KValue inp +:+ "')"
            else if decide (Op inp = 2%N) then
              "append('" +:+ Key inp +:+ "', '" +:+ KValue inp +:+ "')"
            else "<invalid>")
  | _, _ => None
  end.

Definition KvModel : Model any := {|
  Partition := Some KvPartition;
  PartitionEvent := None;
  Init := AString "";
  Step := KvStep;
  Equal := None;
  DescribeOperation := Some KvDescribe;
  DescribeState := None
|}.

(** ** The model meets the interface of the checker *)

Definition kv_ok (i o : any) : Prop :=
  match i, o with AKvInput _, AKvOutput _ => True | _, _ => False end.

Definition kv_valid (s : any) : Prop := match s with AString _ => True | _ => False end.

#[global] Instance KvModel_laws : ModelLaws (fillDefault KvModel) kv_ok kv_valid.
Proof.
  split.
  - done.
  - intros s i o Hs Hio. destruct s, i, o; try done.
    simpl. repeat case_decide; eexists _, _; (split; [done|]); done.
  - intros s t _ _. unfold callEqual. simpl. eauto.
  - intros s t i o s' _ _ _ Heq Hs. unfold callEqual in *. simpl in *.
    injection Heq as Heq. apply bool_decide_eq_true in Heq as ->.
    exists s'. split; [done|]. unfold ShallowEqual. simpl. by rewrite bool_decide_true.
Qed.

(** ** The store with all the keys *)

(** One operation on a store in which a missing key reads as the empty string. *)
Inductive store_step : gmap string string -> KvInput -> KvOutput -> gmap string string -> Prop :=
| store_get m i o :
    Op i = 0%N -> OValue o = default "" (m !! Key i) -> store_step m i o m
| store_put m i o :
    Op i = 1%N -> store_step m i o (<[Key i := KValue i]> m)
| store_append m i o :
    Op i = 2%N ->
    store_step m i o (<[Key i := default "" (m !! Key i) +:+ KValue i]> m)
| store_append_ret m i o :
    (2 < Op i)%N -> OValue o = default "" (m !! Key i) ->
    store_step m i o (<[Key i := default "" (m !! Key i) +:+ KValue i]> m).

Inductive store_legal : gmap string string -> list (Operation any) -> Prop :=
| store_legal_nil m : store_legal m []
| store_legal_cons m v i o m' l :
    Input v = AKvInput i -> Output v = AKvOutput o -> store_step m i o m' ->
    store_legal m' l -> store_legal m (v :: l).

Definition store_linearizable (h : list (Operation any)) : Prop :=
  ∃ σ, σ ≡ₚ h ∧ store_legal ∅ σ ∧ ForallOrdPairs may_precede σ.

(** Histories of clients: key/value inputs and outputs, and no operation that
    returns before it is called. *)
Definition kv_history (h : list (Operation any)) : Prop := wf_history kv_ok h.

Definition op_key (v : Operation any) : string :=
  match Input v with AKvInput i => Key i | _ => "" end.

Definition of_key (k : string) (h : list (Operation any)) : list (Operation any) :=
  filter (λ v, op_key v = k) h.

#[global] Instance of_key_proper k : Proper ((≡ₚ) ==> (≡ₚ)) (of_key k).
Proof. intros l l' Hl. unfold of_key. by rewrite Hl. Qed.

Lemma of_key_none k h : k ∉ op_key <$> h -> of_key k h = [].
Proof.
  intros Hk. unfold of_key. destruct (filter _ h) as [|v vs] eqn:E; [done|].
  destruct Hk. assert (Hv : v ∈ filter (λ v, op_key v = k) h) by (rewrite E; left).
  apply list_elem_of_filter in Hv as [<- Hv]. by apply list_elem_of_fmap_2.
Qed.

(** *** One key *)

Lemma store_step_key m i o m' :
  store_step m i o m' ->
  KvStep (AString (default "" (m !! Key i))) (AKvInput i) (AKvOutput o) =
    Some (true, AString (default "" (m' !! Key i))) ∧
  forall k, k ≠ Key i -> m' !! k = m !! k.
Proof.
  intros Hs. destruct Hs as [m i o Hop Ho|m i o Hop|m i o Hop|m i o Hop Ho]; simpl;
    (split; [|by intros k Hk; rewrite ?lookup_insert_ne]).
  - rewrite decide_True by done. by rewrite bool_decide_true.
  - by rewrite Hop, lookup_insert_eq.
  - by rewrite Hop, lookup_insert_eq.
  - rewrite !decide_False by lia. by rewrite lookup_insert_eq, bool_decide_true.
Qed.

Lemma key_store_step m i o s' :
  KvStep (AString (default "" (m !! Key i))) (AKvInput i) (AKvOutput o) = Some (true, s') ->
  ∃ m', store_step m i o m' ∧ s' = AString (default "" (m' !! Key i)).
Proof.
  simpl. intros Hs. repeat case_decide; simplify_eq;
    repeat match goal with Hb : bool_decide _ = true |- _ => apply bool_decide_eq_true in Hb end.
  - exists m. split; [by constructor|done].
  - eexists. split; [by apply store_put|]. by rewrite lookup_insert_eq.
  - eexists. split; [by apply store_append|]. by rewrite lookup_insert_eq.
  - eexists. split; [apply store_append_ret; [lia|done]|]. by rewrite lookup_insert_eq.
Qed.

(** A sequence is legal for the store exactly when, for every key, what it does to
    that key is legal for [KvModel]. *)
Lemma store_legal_local m l :
  Forall (λ v, kv_ok (Input v) (Output v)) l ->
  store_legal m l <->
  forall k, legal KvModel (AString (default "" (m !! k))) (io <$> of_key k l).
Proof.
  intros Hok. revert m. induction Hok as [|v l Hv _ IH]; intros m.
  { split; [done|constructor]. }
  destruct (Input v) as [| |i|] eqn:Hi; try done.
  destruct (Output v) as [| | |o] eqn:Ho; try done.
  assert (Hkey : op_key v = Key i) by (unfold op_key; by rewrite Hi).
  assert (Hcons : forall k, of_key k (v :: l) =
    if decide (Key i = k) then v :: of_key k l else of_key k l).
  { intros k. unfold of_key. rewrite filter_cons, Hkey. done. }
  assert (Hio : io v = (AKvInput i, AKvOutput o)) by (unfold io; by rewrite Hi, Ho).
  split.
  - intros Hl. inversion Hl as [|? ? i' o' m' ? Hi' Ho' Hst Hl']; subst.
    assert (i' = i) as -> by congruence. assert (o' = o) as -> by congruence.
    apply store_step_key in Hst as [Hst Hne]. intros k. rewrite Hcons.
    destruct (decide (Key i = k)) as [<-|Hk].
    + rewrite fmap_cons, Hio. simpl. eexists. split; [exact Hst|]. by apply IH.
    + rewrite <- Hne by done. by apply IH.
  - intros Hl. pose proof (Hl (Key i)) as Hki.
    rewrite Hcons, decide_True, fmap_cons, Hio in Hki by done.
    destruct Hki as (s' & Hst & Hl').
    apply key_store_step in Hst as (m' & Hst & ->).
    apply (store_legal_cons m v i o m'); [done..|]. apply IH. intros k.
    apply store_step_key in Hst as [_ Hne]. specialize (Hl k). rewrite Hcons in Hl.
    destruct (decide (Key i = k)) as [<-|Hk]; [done|]. by rewrite Hne.
Qed.

(** *** Merging the linearizations of the keys

    Take the operation that returned first; what comes first in the linearization of
    its key can come first of all. *)
Lemma min_return (h : list (Operation any)) :
  h ≠ [] -> ∃ y, y ∈ h ∧ forall z, z ∈ h -> (Return y <= Return z)%Z.
Proof.
  induction h as [|x h IH]; [done|]. intros _. destruct h as [|x' h].
  - exists x. split; [left|]. intros z ->%list_elem_of_singleton. lia.
  - destruct IH as (y & Hy & Hmin); [done|].
    destruct (decide (Return x <= Return y)%Z).
    + exists x. split; [left|]. intros z [->|Hz]%elem_of_cons; [lia|].
      specialize (Hmin z Hz). lia.
    + exists y. split; [by right|]. intros z [->|Hz]%elem_of_cons; [lia|auto].
Qed.

Lemma merge_keys (h : list (Operation any)) (s : string -> list (Operation any)) :
  Forall (λ v, (Call v <= Return v)%Z) h ->
  (forall k, s k ≡ₚ of_key k h) -> (forall k, ForallOrdPairs may_precede (s k)) ->
  ∃ σ, σ ≡ₚ h ∧ (forall k, of_key k σ = s k) ∧ ForallOrdPairs may_precede σ.
Proof.
  remember (length h) as n eqn:Hn. revert h s Hn.
  induction n as [|n IH]; intros h s Hn Hh Hs Hord.
  { symmetry in Hn. apply nil_length_inv in Hn as ->. exists []. split_and!; [done| |constructor].
    intros k. specialize (Hs k). unfold of_key in *. rewrite filter_nil in *.
    by apply Permutation_nil_r in Hs. }
  destruct (min_return h) as (y & Hy & Hmin); [by intros ->|].
  assert (Hys : y ∈ s (op_key y)).
  { rewrite Hs. unfold of_key. by apply list_elem_of_filter. }
  destruct (s (op_key y)) as [|x rest] eqn:Hsy; [by apply elem_of_nil in Hys|].
  assert (Hx : x ∈ of_key (op_key y) h) by (rewrite <- Hs, Hsy; left).
  unfold of_key in Hx. apply list_elem_of_filter in Hx as [Hkx Hx].
  apply elem_of_Permutation in Hx as [h' Hh'].
  set (s' := λ k, if decide (k = op_key y) then rest else s k).
  destruct (IH h' s') as (σ & Hσ & Hfil & Hσo).
  - apply Permutation_length in Hh'. simpl in Hh'. lia.
  - rewrite Hh' in Hh. by apply Forall_cons in Hh as [_ ?].
  - intros k. unfold s'. specialize (Hs k). rewrite Hh' in Hs. unfold of_key in Hs |- *.
    rewrite filter_cons, Hkx in Hs. destruct (decide (k = op_key y)) as [->|Hk].
    + rewrite decide_True in Hs by done. rewrite Hsy in Hs.
      by apply Permutation_cons_inv in Hs.
    + by rewrite decide_False in Hs by done.
  - intros k. unfold s'. destruct (decide (k = op_key y)) as [->|Hk]; [|apply Hord].
    pose proof (Hord (op_key y)) as Ho. rewrite Hsy in Ho. by inversion Ho.
  - exists (x :: σ). split_and!.
    + by rewrite Hσ.
    + intros k. specialize (Hfil k). unfold s', of_key in *. rewrite filter_cons, Hkx.
      destruct (decide (k = op_key y)) as [->|Hk].
      * rewrite decide_True by done. by rewrite Hfil, Hsy.
      * by rewrite decide_False by done.
    + constructor; [|done].
      assert (Hxy : (Call x <= Return y)%Z).
      { pose proof (Hord (op_key y)) as Ho. rewrite Hsy in Ho.
        apply elem_of_cons in Hys as [->|Hys].
        - rewrite Forall_forall in Hh. apply Hh. by rewrite Hh'; left.
        - inversion Ho as [|? ? Hall _]; subst. rewrite Forall_forall in Hall.
          specialize (Hall y Hys). unfold may_precede in Hall. lia. }
      apply Forall_forall. intros z Hz. unfold may_precede.
      assert (Hzh : z ∈ h) by (rewrite Hh', <- Hσ; by right).
      specialize (Hmin z Hzh). lia.
Qed.

Lemma FOP_filter {A} (R : A -> A -> Prop) (P : A -> Prop) `{!forall x, Decision (P x)} l :
  ForallOrdPairs R l -> ForallOrdPairs R (filter P l).
Proof.
  induction 1 as [|x l Hx _ IH]; [constructor|]. rewrite filter_cons.
  destruct (decide (P x)); [|done]. constructor; [|done].
  rewrite Forall_forall in *. intros y [_ Hy]%list_elem_of_filter. auto.
Qed.

(** Locality: a history is linearizable for the store exactly when the operations on
    each key are linearizable for [KvModel]. *)
Lemma store_local h :
  kv_history h -> store_linearizable h <-> forall k, linearizable KvModel (of_key k h).
Proof.
  intros [Hh _].
  assert (Hok : forall l, l ≡ₚ h -> Forall (λ v, kv_ok (Input v) (Output v)) l).
  { intros l ->. eapply Forall_impl; [exact Hh|]. by intros v [_ ?]. }
  split.
  - intros (σ & Hp & Hleg & Hord) k. exists (of_key k σ). split_and!.
    + unfold of_key. by rewrite Hp.
    + apply store_legal_local with (k := k) in Hleg; [|by apply Hok].
      by rewrite lookup_empty in Hleg.
    + by apply FOP_filter.
  - intros Hlin.
    assert (Hs : ∃ s, forall k, k ∈ op_key <$> h -> linearization KvModel (of_key k h) (s k)).
    { generalize (op_key <$> h). intros ks. induction ks as [|k ks [s IH]].
      - exists (λ _, []). intros k Hk. by apply elem_of_nil in Hk.
      - destruct (Hlin k) as [σ Hσ]. exists (λ k', if decide (k' = k) then σ else s k').
        intros k' Hk'. destruct (decide (k' = k)) as [->|Hne]; [done|].
        apply IH. by apply elem_of_cons in Hk' as [?|?]. }
    destruct Hs as [s Hs].
    set (s' := λ k, if decide (k ∈ op_key <$> h) then s k else []).
    assert (Hs' : forall k, linearization KvModel (of_key k h) (s' k)).
    { intros k. unfold s'. destruct (decide (k ∈ op_key <$> h)) as [Hk|Hk]; [by apply Hs|].
      rewrite (of_key_none k h Hk). split_and!; [done|done|constructor]. }
    destruct (merge_keys h s') as (σ & Hp & Hfil & Hord).
    + eapply Forall_impl; [exact Hh|]. by intros v [? _].
    + intros k. apply Hs'.
    + intros k. apply Hs'.
    + exists σ. split_and!; [done| |done]. apply store_legal_local; [by apply Hok|].
      intros k. rewrite Hfil, lookup_empty. apply Hs'.
Qed.

(** ** [Partition] *)

Lemma group_loop_spec m h :
  Forall (λ v, kv_ok (Input v) (Output v)) h ->
  ∃ m', group_loop m h = Some m' ∧
    (forall k, default [] (m' !! k) = default [] (m !! k) ++ of_key k h) ∧
    (forall k, is_Some (m' !! k) <-> is_Some (m !! k) ∨ k ∈ op_key <$> h).
Proof.
  intros Hok. revert m. induction Hok as [|v h Hv _ IH]; intros m.
  { exists m. split_and!; [done| |].
    - intros k. unfold of_key. by rewrite filter_nil, app_nil_r.
    - intros k. rewrite elem_of_nil. tauto. }
  simpl. unfold group_step. destruct (Input v) as [| |i|] eqn:Hi; try done. simpl.
  assert (Hkey : op_key v = Key i) by (unfold op_key; by rewrite Hi).
  destruct (IH (<[Key i := default [] (m !! Key i) ++ [v]]> m)) as (m' & Hm & Hget & Hdom).
  exists m'. split_and!; [done| |].
  - intros k. rewrite Hget. unfold of_key. rewrite filter_cons, Hkey.
    destruct (decide (Key i = k)) as [<-|Hk].
    + rewrite lookup_insert_eq. simpl. by rewrite <- app_assoc.
    + by rewrite lookup_insert_ne.
  - intros k. rewrite Hdom, lookup_insert_is_Some, elem_of_cons, Hkey.
    destruct (decide (Key i = k)); naive_solver.
Qed.

Section Sorted.
Context `{!GoSort sort}.

(** One partition per key of the history, with the operations on it in order; the
    order of the partitions is that of the keys. *)
Lemma KvPartition_spec h :
  Forall (λ v, kv_ok (Input v) (Output v)) h ->
  ∃ keys, KvPartition h = Some ((λ k, of_key k h) <$> keys) ∧ NoDup keys ∧
    (forall k, k ∈ keys <-> k ∈ op_key <$> h) ∧ is_sorted String.ltb keys.
Proof.
  intros Hok. destruct (group_loop_spec ∅ h Hok) as (m & Hm & Hget & Hdom).
  unfold KvPartition. rewrite Hm. simpl.
  exists (sort string String.ltb (map_to_list m).*1). split_and!.
  - f_equal. apply list_fmap_ext. intros i k _. by rewrite Hget, lookup_empty.
  - rewrite go_sort_perm. apply NoDup_fst_map_to_list.
  - intros k. rewrite go_sort_perm, list_elem_of_fmap. split.
    + intros ([k' l] & -> & Hk). apply elem_of_map_to_list in Hk.
      destruct (proj1 (Hdom k')) as [Hk'|Hk']; [by eauto| |done].
      rewrite lookup_empty in Hk'. by destruct Hk'.
    + intros Hk. destruct (proj2 (Hdom k)) as [l Hl]; [by right|].
      exists (k, l). split; [done|]. by apply elem_of_map_to_list.
  - apply go_sort_sorted, ltb_strict_weak.
Qed.

Lemma of_key_history k h : kv_history h -> kv_history (of_key k h).
Proof.
  intros [Hh Hn]. split.
  - rewrite Forall_forall in *. intros v [_ Hv]%list_elem_of_filter. auto.
  - pose proof (length_filter (λ v, op_key v = k) h) as Hl. unfold of_key. lia.
Qed.

Lemma kv_history_ok h : kv_history h -> Forall (λ v, kv_ok (Input v) (Output v)) h.
Proof. intros [Hh _]. eapply Forall_impl; [exact Hh|]. by intros v [_ ?]. Qed.

Lemma KvPartition_ok h :
  kv_history h -> h ≠ [] ->
  ∃ parts, partition_ok KvModel kv_ok h parts ∧
    ((forall p, p ∈ parts -> linearizable KvModel p) <-> store_linearizable h).
Proof.
  intros Hh Hne.
  destruct (KvPartition_spec h (kv_history_ok h Hh)) as (keys & Hpart & _ & Hkeys & _).
  exists ((λ k, of_key k h) <$> keys). split; [split|].
  - done.
  - apply Forall_fmap, Forall_true. intros k. by apply of_key_history.
  - intros E%fmap_nil_inv. subst keys. destruct h as [|v h]; [done|].
    apply (not_elem_of_nil (op_key v)). apply Hkeys. left.
  - rewrite store_local by done. split.
    + intros Hp k. destruct (decide (k ∈ op_key <$> h)) as [Hk|Hk].
      * apply Hp. apply (list_elem_of_fmap_2 (λ k, of_key k h)). by apply Hkeys.
      * rewrite of_key_none by done. exists []. split_and!; [done|done|constructor].
    + intros Hl p (k & -> & _)%list_elem_of_fmap. apply Hl.
Qed.

End Sorted.

End KvModel.
