(* ===== verification/Porcupine.v ===== *)
(** * What the exported functions of [porcupine] decide

    The theorems about [CheckOperations] and its variants, for any model that meets
    the documented contract and for [KvModel] of [models/kv.go], with concrete
    histories as witnesses. *)
From S2P Require Import Prelude Bitset Model Entries LinkedList LinkedEntries.
From S2P Require Import Linearizability CheckSingle CheckSingleProof CheckSingleSpec.
From S2P Require Import HistorySpec EventSpec CheckParallel Check KvModel.
Import Entry.

(** ** Example histories *)
Module Examples.

Definition op (c : Z) (o : N) (k v out : string) (t1 t2 : Z) : Operation any :=
  MkOperation c (AKvInput (MkKvInput o k v)) t1 (AKvOutput (MkKvOutput out)) t2.

(** A put and an overlapping append on ["x"], a put on ["y"], then two reads. *)
Definition h_good : list (Operation any) :=
  [op 0 1 "x" "a" "" 1 5; op 1 2 "x" "b" "" 2 6; op 2 1 "y" "c" "" 3 4;
   op 0 0 "x" "" "ab" 7 8; op 2 0 "y" "" "c" 7 9].

(** A read that returns a value overwritten before it was called. *)
Definition h_bad : list (Operation any) :=
  [op 0 1 "x" "a" "" 1 2; op 0 1 "x" "b" "" 3 4; op 1 0 "x" "" "a" 5 6].

Definition ev (c : Z) (kd : EventKind) (v : any) (id : Z) : Event any := MkEvent c kd v id.

(** Two overlapping operations on one key, as events with arbitrary ids. *)
Definition e_good : list (Event any) :=
  [ev 0 CallEvent (AKvInput (MkKvInput 1 "x" "a")) 17;
   ev 1 CallEvent (AKvInput (MkKvInput 0 "x" "")) 4;
   ev 1 ReturnEvent (AKvOutput (MkKvOutput "a")) 4;
   ev 0 ReturnEvent (AKvOutput (MkKvOutput "")) 17].

Lemma h_good_wf : kv_history h_good.
Proof. split; [|simpl; lia]. unfold h_good. repeat constructor; simpl; lia. Qed.

Lemma h_bad_wf : kv_history h_bad.
Proof. split; [|simpl; lia]. unfold h_bad. repeat constructor; simpl; lia. Qed.

Lemma e_good_wf : wf_events kv_ok e_good.
Proof.
  split.
  - apply (bool_decide_unpack _). vm_compute. exact I.
  - intros v Hv. unfold e_good in *.
    assert (Hc : Id v = 17%Z ∨ Id v = 4%Z) by (set_unfold; naive_solver).
    destruct Hc as [-> | ->].
    + eexists _, _. split; [apply before_lookup; exists 0, 3; split_and!; [lia|done..]|done].
    + eexists _, _. split; [apply before_lookup; exists 1, 2; split_and!; [lia|done..]|done].
  - intros c r k Hc Hr Hkc Hkr. unfold e_good in *. set_unfold.
    destruct_or!; subst; done.
  - simpl. lia.
Qed.

End Examples.
Import Examples.

(** ** Any model *)
Section Any.
Context {V : Type} `{Iface V} (model : Model V).
Context (op_ok : V -> V -> Prop) (valid : V -> Prop).
Context (laws : ModelLaws (fillDefault model) op_ok valid).
Context (sort : forall A, (A -> A -> bool) -> list A -> list A) (sort_ok : GoSort sort).

(** C2: [checkSingle] on well-formed entries, with nobody setting [kill], returns for
    every large enough number of iterations, and returns [true] exactly when the entries
    have a linearization. *)
Theorem checkSingle_correct n es cp :
  wf_entries n es -> (Z.of_nat n < 2 ^ 63)%Z -> entries_ok op_ok es ->
  ∃ fuel0 b l,
    (forall fuel, fuel0 ≤ fuel ->
       checkSingle fuel (fillDefault model) es cp (λ _, 0%Z) = Returned (b, l)) ∧
    (b = true <-> entries_linearizable (fillDefault model) n es).
Proof.
  intros Hwf Hn Hok.
  destruct (checkSingle_decides _ op_ok valid n es cp Hwf Hn Hok) as (f & b & l & Hr & _ & Hb).
  by exists f, b, l.
Qed.

(** Whatever [checkSingle] reads from the variable [kill] at each iteration, it
    returns; an answer [true] is right, and each partial linearization that it stores for
    an operation contains the operation, is legal, respects real time, and leaves out no
    operation that had returned before one of its members was called. *)
Theorem checkSingle_killed n es cp kill :
  wf_entries n es -> (Z.of_nat n < 2 ^ 63)%Z -> entries_ok op_ok es ->
  ∃ fuel0, forall fuel, fuel0 ≤ fuel ->
    ∃ b l, checkSingle fuel (fillDefault model) es cp kill = Returned (b, l) ∧
      longest_correct (fillDefault model) n es l ∧
      (b = true -> entries_linearizable (fillDefault model) n es).
Proof. by apply (checkSingle_kill_decides _ op_ok valid). Qed.

(** The entries that [makeEntries] sorts have a linearization exactly when the
    timestamped history has one: the sort puts a return before a call only when the
    operation returned strictly before the other was called. *)
Theorem makeEntries_faithful (M : Model V) h :
  Forall (λ o, (Call o <= Return o)%Z) h ->
  wf_entries (length h) (makeEntries sort h) ∧
  (entries_linearizable M (length h) (makeEntries sort h) <-> linearizable M h).
Proof. intros Hh. split; [by apply makeEntries_wf|by apply makeEntries_linearizable]. Qed.

(** [renumber] and [convertEntries] turn events with arbitrary ids into well-formed
    entries that have a linearization exactly when the events do. *)
Theorem convertEntries_faithful (M : Model V) evs :
  wf_events op_ok evs ->
  ∃ n, length evs = 2 * n ∧ wf_entries n (convertEntries (renumber evs)) ∧
    (entries_linearizable M n (convertEntries (renumber evs)) <-> events_linearizable M evs).
Proof.
  intros Hwf. destruct (events_entries M op_ok evs Hwf) as (n & ? & ? & _ & ?). by exists n.
Qed.

(** C8: under every interleaving of the goroutines with the collecting loop and the
    timer, [checkParallel] on a non-empty list of well-formed partitions comes to an end
    without a panic or a deadlock, and some run of it returns. *)
Theorem checkParallel_terminates partitions computeInfo timeout :
  Forall (wf_history op_ok) partitions -> partitions ≠ [] ->
  always_returns (fillDefault model) (makeEntries sort <$> partitions) computeInfo timeout ∧
  ∃ r, checkParallel (fillDefault model) (makeEntries sort <$> partitions)
         computeInfo timeout r.
Proof.
  intros Hp Hne.
  assert (Hall : Forall (checks (fillDefault model) computeInfo) (makeEntries sort <$> partitions)).
  { apply Forall_fmap. eapply Forall_impl; [exact Hp|].
    intros p Hw. by apply (operation_checks model op_ok valid). }
  assert (Hne' : makeEntries sort <$> partitions ≠ []) by (by intros E%fmap_nil_inv).
  split; [by apply checkParallel_returns|by apply checkParallel_some].
Qed.

(** Whatever the interleaving, [Illegal] means that some partition is not
    linearizable, [Ok] that all of them are, and [Unknown] is returned only with a
    positive timeout. *)
Theorem checkOperations_sound h partitions verbose timeout r :
  partition_ok model op_ok h partitions ->
  checkOperations sort model h verbose timeout r ->
  (r.1 = Illegal -> ∃ p, p ∈ partitions ∧ ¬ linearizable (fillDefault model) p) ∧
  (r.1 = Ok -> forall p, p ∈ partitions -> linearizable (fillDefault model) p) ∧
  (r.1 = Unknown -> (0 < timeout)%Z).
Proof. intros Hp. by apply (operations_result model op_ok valid sort h partitions Hp). Qed.

(** Every sequence of ids that [CheckOperationsVerbose] reports for a partition is a
    partial linearization of it, also after a timeout. *)
Theorem CheckOperationsVerbose_partials h partitions timeout r i p partials ids :
  partition_ok model op_ok h partitions ->
  CheckOperationsVerbose sort model h timeout r ->
  partitions !! i = Some p -> info_partials r.2 !! i = Some partials -> ids ∈ partials ->
  partial_linearization (fillDefault model) (length p) (makeEntries sort p) ids.
Proof.
  intros Hp Hr Hi Hpi Hids.
  by apply (operations_partials model op_ok valid sort h partitions Hp timeout r i p partials ids).
Qed.

(** C10: for a model without [PartitionEvent], [CheckEvents] returns on every well-formed
    list of events, and returns [true] exactly when the events are linearizable. *)
Theorem CheckEvents_correct evs :
  PartitionEvent model = None -> wf_events op_ok evs ->
  (∃ b, CheckEvents model evs b) ∧
  forall b, CheckEvents model evs b -> b = true <-> events_linearizable (fillDefault model) evs.
Proof.
  intros Hpe Hwf.
  assert (Hent : event_entries (fillDefault model) evs = Some [convertEntries (renumber evs)]).
  { unfold event_entries, callPartitionEvent. simpl. by rewrite Hpe. }
  assert (Hall : Forall (checks (fillDefault model) false) [convertEntries (renumber evs)]).
  { constructor; [|done]. by apply (event_checks model op_ok valid). }
  split.
  - destruct (checkParallel_some (fillDefault model) _ false Hall 0 ltac:(done)) as [[res info] Hr].
    exists (bool_decide (res = Ok)), res, info. split; [|done]. by eexists.
  - intros b (res & info & (l & Hl & Hr) & ->). rewrite Hent in Hl. simplify_eq.
    destruct (checkParallel_result _ _ false Hall 0 _ Hr) as (Hill & Hok & Hun). simpl in *.
    rewrite bool_decide_eq_true, <- (event_sub model op_ok evs) by done. split.
    + intros ->. apply Hok; [done|]. left.
    + intros Hs. destruct res; [specialize (Hun eq_refl); lia|done|].
      destruct (Hill eq_refl) as (es & ->%list_elem_of_singleton & Hn). done.
Qed.

End Any.

(** ** The key/value service *)
Section Kv.
Context (sort : forall A, (A -> A -> bool) -> list A -> list A) (sort_ok : GoSort sort).

(** C9: partitioning by key is sound and complete: a history of the key/value service is
    linearizable with respect to the store of all keys exactly when every partition that
    [KvModel.Partition] returns is linearizable with respect to the one-key model. *)
Theorem KvModel_partition_local h :
  kv_history h -> h ≠ [] ->
  ∃ parts, KvPartition sort h = Some parts ∧
    (store_linearizable h <-> Forall (linearizable (KvModel sort)) parts).
Proof.
  intros Hh Hne. destruct (KvPartition_ok sort h Hh Hne) as (parts & Hp & Hl).
  exists parts. split; [apply (part_call _ _ _ _ Hp)|]. by rewrite Forall_forall, Hl.
Qed.

(** [KvModel.Partition] returns, in the order of the keys, one partition per key of
    the history with exactly the operations on that key, in their order; and the result
    does not depend on the order in which Go ranges over the map. *)
Theorem KvPartition_by_key h :
  Forall (λ v, kv_ok (Input v) (Output v)) h ->
  ∃ keys, KvPartition sort h = Some ((λ k, of_key k h) <$> keys) ∧ NoDup keys ∧
    (forall k, k ∈ keys <-> k ∈ op_key <$> h) ∧ is_sorted String.ltb keys.
Proof. by apply KvPartition_spec. Qed.

(** One check of operations with the model, for the theorems below and those on whole tests. *)
Lemma kv_check h :
  kv_history h -> h ≠ [] ->
  (∃ b, CheckOperations sort (KvModel sort) h b) ∧
  forall b, CheckOperations sort (KvModel sort) h b -> b = true <-> store_linearizable h.
Proof.
  intros Hh Hne. destruct (KvPartition_ok sort h Hh Hne) as (parts & Hp & Hl). split.
  - destruct (operations_return _ kv_ok kv_valid sort h parts Hp false 0) as [_ [[res info] Hr]].
    exists (bool_decide (res = Ok)), res, info. done.
  - intros b (res & info & Hr & ->).
    destruct (operations_result _ kv_ok kv_valid sort h parts Hp false 0 _ Hr)
      as (Hill & Hok & Hun). simpl in *. rewrite bool_decide_eq_true, <- Hl. split.
    + intros ->. by apply Hok.
    + intros Hs. destruct res; [specialize (Hun eq_refl); lia|done|].
      destruct (Hill eq_refl) as (p & Hin & Hn). destruct (Hn (Hs p Hin)).
Qed.

(** C1: on a non-empty history, [CheckOperations(KvModel, history)] returns, and returns
    [true] exactly when the history is linearizable with respect to the key/value store. *)
Theorem CheckOperations_KvModel h :
  kv_history h -> h ≠ [] ->
  (∃ b, CheckOperations sort (KvModel sort) h b) ∧
  forall b, CheckOperations sort (KvModel sort) h b -> b = true <-> store_linearizable h.
Proof. apply kv_check. Qed.

(** With a timeout, [Ok] still means linearizable and [Illegal] not linearizable;
    [Unknown] is the only result that leaves it open. *)
Theorem CheckOperationsTimeout_KvModel h timeout res :
  kv_history h -> h ≠ [] -> CheckOperationsTimeout sort (KvModel sort) h timeout res ->
  match res with
  | Ok => store_linearizable h
  | Illegal => ¬ store_linearizable h
  | Unknown => (0 < timeout)%Z
  end.
Proof.
  intros Hh Hne [info Hr]. destruct (KvPartition_ok sort h Hh Hne) as (parts & Hp & Hl).
  destruct (operations_result _ kv_ok kv_valid sort h parts Hp false timeout _ Hr)
    as (Hill & Hok & Hun). simpl in *.
  destruct res; [by auto|by apply Hl, Hok|]. destruct (Hill eq_refl) as (p & Hin & Hn).
  intros Hs. apply Hn. by apply Hl.
Qed.

Lemma no_partitions : operation_entries sort (fillDefault (KvModel sort)) [] = Some [].
Proof.
  unfold operation_entries. simpl. unfold KvPartition. simpl. rewrite map_to_list_empty. simpl.
  by rewrite (proj1 (Permutation_nil_r _) (go_sort_perm string String.ltb [])).
Qed.

(** C37: the empty history has no partition, and [KvPartition] does not panic on it, so
    [checkParallel] starts no goroutine and nothing is ever sent on [results].  Without a
    timeout the only state it reaches is that of the first [select], from which no step leads
    on: it waits for ever, and [CheckOperations(KvModel, nil)] and the variants with timeout 0
    never return.  With a timeout the result is [Unknown]. *)
Theorem CheckOperations_KvModel_empty :
  operation_entries sort (fillDefault (KvModel sort)) [] = Some [] ∧
  (forall computeInfo timeout st,
     rtc (pstep (fillDefault (KvModel sort)) [] computeInfo timeout) (pinit []) st ->
     workers st = [] ∧ results st = [] ∧
     ((timeout <= 0)%Z -> st = pinit [] ∧ pphase st = Selecting ∧
        forall st', ¬ pstep (fillDefault (KvModel sort)) [] computeInfo timeout st st')) ∧
  (forall b, ¬ CheckOperations sort (KvModel sort) [] b) ∧
  (forall verbose timeout r, (timeout <= 0)%Z ->
     ¬ checkOperations sort (KvModel sort) [] verbose timeout r) ∧
  forall timeout res, (0 < timeout)%Z ->
    CheckOperationsTimeout sort (KvModel sort) [] timeout res <-> res = Unknown.
Proof.
  pose proof no_partitions as Hent.
  assert (Hstuck : forall ci timeout st, (timeout <= 0)%Z ->
    rtc (pstep (fillDefault (KvModel sort)) [] ci timeout) (pinit []) st -> st = pinit []).
  { intros ci timeout st Ht Hst. apply rtc_inv in Hst as [<-|(st' & Hs & _)]; [done|].
    by eapply checkParallel_empty_stuck in Hs. }
  assert (Hnone : forall verbose timeout r, (timeout <= 0)%Z ->
    ¬ checkOperations sort (KvModel sort) [] verbose timeout r).
  { intros verbose timeout r Ht (l & Hl & st & Hst & Hph & _). rewrite Hent in Hl. simplify_eq.
    by rewrite (Hstuck _ _ _ Ht Hst) in Hph. }
  split_and!; [done| | |done|].
  - intros ci timeout st Hst. destruct (checkParallel_empty_idle _ _ _ _ Hst) as (H1 & H2 & _).
    split_and!; [done..|]. intros Ht. rewrite (Hstuck _ _ _ Ht Hst). split_and!; [done..|].
    intros st'. by apply checkParallel_empty_stuck.
  - intros b (res & info & Hr & _). by apply Hnone in Hr.
  - intros timeout res Ht. by apply checkParallel_empty_timeout.
Qed.

End Kv.

(** ** Witnesses *)

Abbreviation isort := insertion_sort.
Abbreviation kvm := (KvModel isort).

(** The outcome of the executable schedule on [h_good]: both reads are explained, and
    the whole of each partition is reported as one linearization. *)
Abbreviation good_parts := [of_key "x" h_good; of_key "y" h_good].
Abbreviation good_es := (makeEntries isort <$> good_parts).

Lemma good_entries : operation_entries isort (fillDefault kvm) h_good = Some good_es.
Proof. vm_compute. reflexivity. Qed.

Lemma good_run_value :
  (λ st, (check_result st, plongest st)) <$>
    prun (fillDefault kvm) good_es true 200 (pinit good_es) =
  Some (Ok, [replicate 3 (Some (0, [0; 1; 2]%Z)); replicate 2 (Some (0, [0; 1]%Z))]).
Proof. vm_compute. reflexivity. Qed.

Lemma good_verbose :
  checkOperations isort kvm h_good true 0
    (Ok, LinearizationInfo good_es [[[0; 1; 2]%Z]; [[0; 1]%Z]]).
Proof.
  apply (run_checkOperations _ _ _ _ _ _ _ _ _ good_entries good_run_value).
  constructor; [|constructor; [|constructor]]; by vm_compute.
Qed.

Lemma good_partition :
  partition_ok kvm kv_ok h_good [of_key "x" h_good; of_key "y" h_good].
Proof.
  split; [vm_compute; reflexivity| |done].
  repeat constructor; simpl; lia.
Qed.

(** The operations on ["x"]. *)
Abbreviation hx := (of_key "x" h_good).

Lemma hx_wf : wf_entries 3 (makeEntries isort hx).
Proof.
  pose proof (wf_history_entries isort kv_ok hx (of_key_history "x" h_good h_good_wf)) as Hw.
  exact Hw.
Qed.

Lemma hx_ok : entries_ok kv_ok (makeEntries isort hx).
Proof. apply (makeEntries_ok isort), of_key_history, h_good_wf. Qed.

Lemma checkSingle_correct_witness :
  ∃ fuel0 b l,
    (forall fuel, fuel0 ≤ fuel -> checkSingle fuel (fillDefault kvm)
       (makeEntries isort hx) false (λ _, 0%Z) = Returned (b, l)) ∧
    (b = true <-> entries_linearizable (fillDefault kvm) 3 (makeEntries isort hx)).
Proof.
  apply (checkSingle_correct kvm kv_ok kv_valid (KvModel_laws isort)).
  - apply hx_wf.
  - lia.
  - apply hx_ok.
Defined.

(** Killed at the third iteration. *)
Lemma checkSingle_killed_witness :
  ∃ fuel0, forall fuel, fuel0 ≤ fuel ->
    ∃ b l, checkSingle fuel (fillDefault kvm) (makeEntries isort hx) true
             (λ k, if decide (k < 2) then 0%Z else 1%Z) = Returned (b, l) ∧
      longest_correct (fillDefault kvm) 3 (makeEntries isort hx) l ∧
      (b = true -> entries_linearizable (fillDefault kvm) 3 (makeEntries isort hx)).
Proof.
  apply (checkSingle_killed kvm kv_ok kv_valid (KvModel_laws isort)).
  - apply hx_wf.
  - lia.
  - apply hx_ok.
Defined.

Lemma makeEntries_faithful_witness :
  wf_entries (length h_bad) (makeEntries isort h_bad) ∧
  (entries_linearizable kvm (length h_bad) (makeEntries isort h_bad) <->
   linearizable kvm h_bad).
Proof.
  apply (makeEntries_faithful isort insertion_sort_GoSort).
  unfold h_bad. repeat constructor; simpl; lia.
Defined.

Lemma convertEntries_faithful_witness :
  ∃ n, length e_good = 2 * n ∧ wf_entries n (convertEntries (renumber e_good)) ∧
    (entries_linearizable kvm n (convertEntries (renumber e_good)) <->
     events_linearizable kvm e_good).
Proof. apply (convertEntries_faithful kv_ok). apply e_good_wf. Defined.

Lemma checkParallel_terminates_witness :
  always_returns (fillDefault kvm) good_es true 5 ∧
  ∃ r, checkParallel (fillDefault kvm) good_es true 5 r.
Proof.
  apply (checkParallel_terminates kvm kv_ok kv_valid (KvModel_laws isort) isort
    insertion_sort_GoSort).
  - apply (part_wf _ _ _ _ good_partition).
  - done.
Defined.

Lemma checkOperations_sound_witness :
  linearizable (fillDefault kvm) (of_key "x" h_good).
Proof.
  apply (proj1 (proj2 (checkOperations_sound kvm kv_ok kv_valid (KvModel_laws isort) isort
    insertion_sort_GoSort h_good good_parts true 0 _ good_partition good_verbose)) eq_refl).
  left.
Defined.

Lemma CheckOperationsVerbose_partials_witness :
  partial_linearization (fillDefault kvm) 2 (makeEntries isort (of_key "y" h_good)) [0; 1]%Z.
Proof.
  apply (CheckOperationsVerbose_partials kvm kv_ok kv_valid (KvModel_laws isort) isort
    insertion_sort_GoSort h_good good_parts 0 _ 1 (of_key "y" h_good) [[0; 1]%Z] _
    good_partition good_verbose); [done|done|left].
Defined.

Lemma CheckEvents_correct_witness :
  (∃ b, CheckEvents kvm e_good b) ∧
  forall b, CheckEvents kvm e_good b ->
    b = true <-> events_linearizable (fillDefault kvm) e_good.
Proof.
  apply (CheckEvents_correct kvm kv_ok kv_valid (KvModel_laws isort)).
  - done.
  - apply e_good_wf.
Defined.

Lemma KvModel_partition_local_witness :
  ∃ parts, KvPartition isort h_bad = Some parts ∧
    (store_linearizable h_bad <-> Forall (linearizable kvm) parts).
Proof.
  apply (KvModel_partition_local isort insertion_sort_GoSort); [apply h_bad_wf|done].
Defined.

Lemma KvPartition_by_key_witness :
  ∃ keys, KvPartition isort h_good = Some ((λ k, of_key k h_good) <$> keys) ∧ NoDup keys ∧
    (forall k, k ∈ keys <-> k ∈ op_key <$> h_good) ∧ is_sorted String.ltb keys.
Proof.
  apply (KvPartition_by_key isort insertion_sort_GoSort).
  apply kv_history_ok, h_good_wf.
Defined.

Lemma CheckOperations_KvModel_witness :
  (∃ b, CheckOperations isort kvm h_good b) ∧
  forall b, CheckOperations isort kvm h_good b -> b = true <-> store_linearizable h_good.
Proof.
  apply (CheckOperations_KvModel isort insertion_sort_GoSort); [apply h_good_wf|done].
Defined.

Lemma good_timeout_value :
  check_result <$> prun (fillDefault kvm) good_es false 200 (pinit good_es) = Some Ok.
Proof. vm_compute. reflexivity. Qed.

Lemma good_timeout : CheckOperationsTimeout isort kvm h_good 7 Ok.
Proof. apply (run_CheckOperationsTimeout _ _ _ _ _ _ _ good_entries good_timeout_value). Qed.

Lemma CheckOperationsTimeout_KvModel_witness : store_linearizable h_good.
Proof.
  exact (CheckOperationsTimeout_KvModel isort insertion_sort_GoSort h_good 7 Ok
    h_good_wf ltac:(done) good_timeout).
Defined.

Lemma CheckOperations_KvModel_empty_witness :
  (forall b, ¬ CheckOperations isort kvm [] b) ∧
  (forall r, ¬ checkOperations isort kvm [] true 0 r).
Proof.
  destruct (CheckOperations_KvModel_empty isort insertion_sort_GoSort) as (_ & _ & H1 & H2 & _).
  split; [exact H1|]. intros r. apply H2. lia.
Defined.
