(* ===== verification/Visualization.v ===== *)
(** * [computeVisualizationData] of [porcupine/visualization.go]

    The data of the page that shows a history: for each partition its operations, and the
    partial linearizations that the checker reports with the states they go through.  The
    loops replay the model and panic ([None]) when it rejects a step.  The sort is done in
    place, so the function returns the partial linearizations of [info] as it leaves them.
    [Page] has the functions that write the page, and the page itself. *)
From S2P Require Import Prelude Bitset Model Entries LinkedList LinkedEntries.
From S2P Require Import Linearizability CheckSingle CheckSingleProof CheckSingleSpec.
From S2P Require Import HistorySpec EventSpec CheckParallel Check KvModel Porcupine.
Import Entry.

Module Visualization.

Record historyElement := MkHistoryElement {
  heClientId : Z;
  Start : Z;
  End_ : Z;
  Description : string
}.

Record linearizationStep := MkLinearizationStep {
  Index : Z;
  StateDescription : string
}.

Abbreviation partialLinearization := (list linearizationStep).

Record partitionVisualizationData := MkPartitionVisualizationData {
  History : list historyElement;
  PartialLinearizations : list partialLinearization;
  Largest : gmap Z nat
}.

Section Compute.
Context {V : Type} `{Iface V}.

Definition callDescribeOperation (model : Model V) (i o : V) : option string :=
  f ← DescribeOperation model; f i o.
Definition callDescribeState (model : Model V) (s : V) : option string :=
  f ← DescribeState model; f s.

(** Reading a Go map: the zero value for a key that is not there. *)
Definition read (m : gmap Z V) (k : Z) : V := default iface_nil (m !! k).

Section Loops.
Context (model : Model V).

(** The loop over the entries: [history], [callValue] and [returnValue]. *)
Record tables := MkTables {
  history : list historyElement;
  callValue : gmap Z V;
  returnValue : gmap Z V
}.

Definition history_step (st : tables) (elem : entry V) : option tables :=
  he ← (history st).[id elem];
  match kind elem with
  | callEntry =>
      history' ← (history st).[id elem :=
        MkHistoryElement (clientId elem) (time elem) (End_ he) (Description he)];
      Some (MkTables history' (<[id elem := Entry.value elem]> (callValue st)) (returnValue st))
  | returnEntry =>
      d ← callDescribeOperation model (read (callValue st) (id elem)) (Entry.value elem);
      history' ← (history st).[id elem :=
        MkHistoryElement (heClientId he) (Start he) (time elem) d];
      Some (MkTables history' (callValue st) (<[id elem := Entry.value elem]> (returnValue st)))
  end.

Definition history_loop (st : tables) (es : list (entry V)) : option tables :=
  foldl (λ o elem, o ≫= λ st, history_step st elem) (Some st) es.

Definition empty_tables (n : nat) : tables :=
  MkTables (replicate n (MkHistoryElement 0 0 0 EmptyString)) ∅ ∅.

(** [largestSize] and [largestIndex]. *)
Record sizes := MkSizes { largestSize : gmap Z nat; largestIndex : gmap Z nat }.

Definition note_size (i len : nat) (histId : Z) (sz : sizes) : sizes :=
  if decide (default 0 (largestSize sz !! histId) < len)
  then MkSizes (<[histId := len]> (largestSize sz)) (<[histId := i]> (largestIndex sz))
  else sz.

(** The loop over a partial linearization, number [i], of length [len]. *)
Fixpoint partial_loop (t : tables) (i len : nat) (state : V) (partial : list Z) (sz : sizes) :
    option (partialLinearization * sizes) :=
  match partial with
  | [] => Some ([], sz)
  | histId :: rest =>
      '(ok, state') ← Step model state (read (callValue t) histId) (read (returnValue t) histId);
      if negb ok then None else
      stateDesc ← callDescribeState model state';
      '(steps, sz') ← partial_loop t i len state' rest (note_size i len histId sz);
      Some (MkLinearizationStep histId stateDesc :: steps, sz')
  end.

Fixpoint partials_loop (t : tables) (i : nat) (partials : list (list Z)) (sz : sizes) :
    option (list partialLinearization * sizes) :=
  match partials with
  | [] => Some ([], sz)
  | partial :: rest =>
      '(linearization, sz') ← partial_loop t i (length partial) (Init model) partial sz;
      '(linearizations, sz'') ← partials_loop t (S i) rest sz';
      Some (linearization :: linearizations, sz'')
  end.

Context (sort : forall A, (A -> A -> bool) -> list A -> list A).

Definition longer (a b : list Z) : bool := bool_decide (length b < length a).

(** One round of the loop over the partitions; also the slice [partials] after the sort. *)
Definition partition_data (es : list (entry V)) (partials : list (list Z)) :
    option (partitionVisualizationData * list (list Z)) :=
  t ← history_loop (empty_tables (length es / 2)) es;
  let partials := sort (list Z) longer partials in
  '(linearizations, sz) ← partials_loop t 0 partials (MkSizes ∅ ∅);
  Some (MkPartitionVisualizationData (history t) linearizations (largestIndex sz), partials).

Fixpoint partitions_loop (histories : list (list (entry V))) (partials : list (list (list Z))) :
    option (list partitionVisualizationData * list (list (list Z))) :=
  match histories, partials with
  | [], _ => Some ([], partials)
  | _ :: _, [] => None
  | es :: histories', ps :: partials' =>
      '(d, ps') ← partition_data es ps;
      '(data, rest) ← partitions_loop histories' partials';
      Some (d :: data, ps' :: rest)
  end.
End Loops.

Definition computeVisualizationData (sort : forall A, (A -> A -> bool) -> list A -> list A)
    (model : Model V) (info : linearizationInfo V) :
    option (list partitionVisualizationData * linearizationInfo V) :=
  '(data, partials) ←
    partitions_loop (fillDefault model) sort (info_history info) (info_partials info);
  Some (data, LinearizationInfo (info_history info) partials).

(** ** The table of operations *)

(** What a row of the table shows of an operation: its call and its return entry. *)
Definition shows (M : Model V) (es : list (entry V)) (k : Z) (he : historyElement) : Prop :=
  ∃ c r, c ∈ es ∧ r ∈ es ∧ key c = (callEntry, k) ∧ key r = (returnEntry, k) ∧
    heClientId he = clientId c ∧ Start he = time c ∧ End_ he = time r ∧
    callDescribeOperation M (Entry.value c) (Entry.value r) = Some (Description he).

Section Tables.
Context (M : Model V) (n : nat) (es : list (entry V)) (Hwf : wf_entries n es).
Context (op_ok : V -> V -> Prop) (Hok : entries_ok op_ok es).
Context (Hdesc : forall i o, op_ok i o -> is_Some (callDescribeOperation M i o)).

(** The tables after the entries of [pre]. *)
Record tables_ok (pre : list (entry V)) (t : tables) : Prop := {
  t_length : length (history t) = n;
  t_call : forall c, c ∈ pre -> kind c = callEntry -> ∃ he,
    history t !! Z.to_nat (id c) = Some he ∧ heClientId he = clientId c ∧ Start he = time c ∧
    callValue t !! id c = Some (Entry.value c);
  t_return : forall c r, c ∈ pre -> r ∈ pre -> key c = (callEntry, id r) ->
    kind r = returnEntry -> ∃ he,
    history t !! Z.to_nat (id r) = Some he ∧ End_ he = time r ∧
    callDescribeOperation M (Entry.value c) (Entry.value r) = Some (Description he) ∧
    returnValue t !! id r = Some (Entry.value r)
}.

Lemma entry_inj x y : x ∈ es -> y ∈ es -> key x = key y -> x = y.
Proof. apply key_inj, (wf_keys _ _ Hwf). Qed.

(** The call of a return entry comes before it. *)
Lemma call_of_return pre r post :
  es = pre ++ r :: post -> kind r = returnEntry -> ∃ c, c ∈ pre ∧ key c = (callEntry, id r).
Proof.
  intros Hes Hr. assert (Hin : r ∈ es) by (rewrite Hes; set_solver).
  destruct (wf_pairs _ _ Hwf (id r)) as (c & r' & Hb & Hc & Hr'); [by apply (wf_ids _ _ Hwf)|].
  apply before_elem_of in Hb as Hel. assert (r' = r) as ->.
  { apply entry_inj; [tauto|done|]. rewrite Hr'. unfold key. by rewrite Hr. }
  exists c. split; [|done].
  assert (Hnd : NoDup es) by (apply (NoDup_fmap_1 key), (wf_keys _ _ Hwf)).
  apply before_lookup in Hb as (i & j & Hij & Hi & Hj).
  assert (j = length pre) as ->.
  { eapply NoDup_lookup; [exact Hnd|done|]. rewrite Hes. by apply list_lookup_middle. }
  rewrite Hes, lookup_app_l in Hi by lia. by eapply list_elem_of_lookup_2.
Qed.

(** One step: the entry [e] after those of [pre]. *)
Section Step.
Context (pre post : list (entry V)) (e : entry V) (t : tables).
Context (Hes : es = pre ++ e :: post) (Ht : tables_ok pre t).

Lemma step_in x : x ∈ pre ++ [e] -> x ∈ es.
Proof. rewrite Hes. set_solver. Qed.

Lemma step_fresh x : x ∈ pre -> key x ≠ key e.
Proof.
  intros Hx Hk. pose proof (wf_keys _ _ Hwf) as Hnd. rewrite Hes, fmap_app in Hnd.
  apply NoDup_app in Hnd as (_ & Hnd & _). apply (Hnd (key x)); [by apply list_elem_of_fmap_2|].
  rewrite Hk. left.
Qed.

Lemma step_id x : x ∈ es -> (0 <= id x)%Z ∧ Z.to_nat (id x) < length (history t).
Proof. intros Hx%(wf_ids _ _ Hwf). rewrite (t_length _ _ Ht). lia. Qed.

(** Writing the row of [e] leaves the rows of the other operations. *)
Lemma row_other x he :
  x ∈ pre -> id x ≠ id e -> <[Z.to_nat (id e) := he]> (history t) !! Z.to_nat (id x) =
    history t !! Z.to_nat (id x).
Proof.
  intros Hx Hne. apply list_lookup_insert_ne.
  pose proof (step_id x (step_in x ltac:(set_solver))).
  pose proof (step_id e (step_in e ltac:(set_solver))). lia.
Qed.

Lemma row_same he :
  <[Z.to_nat (id e) := he]> (history t) !! Z.to_nat (id e) = Some he.
Proof. apply list_lookup_insert_eq, step_id, step_in. set_solver. Qed.

Lemma history_step_call :
  kind e = callEntry -> ∃ t', history_step M t e = Some t' ∧ tables_ok (pre ++ [e]) t'.
Proof.
  intros Hkind. destruct (step_id e (step_in e ltac:(set_solver))) as [Hid Hlt].
  unfold history_step, slice_get, slice_set. rewrite decide_True, Hkind by lia.
  destruct (lookup_lt_is_Some_2 (history t) (Z.to_nat (id e)) Hlt) as [he Hhe].
  rewrite Hhe. simpl. rewrite decide_True by lia. simpl.
  eexists. split; [done|]. split; simpl.
  - rewrite length_insert. apply Ht.
  - intros c [Hc | ->%list_elem_of_singleton]%elem_of_app Hck.
    + destruct (t_call _ _ Ht c Hc Hck) as (h0 & Hh0 & H1 & H2 & H3).
      assert (id c ≠ id e).
      { intros Hi. apply (step_fresh c Hc). unfold key. by rewrite Hck, Hkind, Hi. }
      exists h0. by rewrite row_other, lookup_insert_ne.
    + eexists. by rewrite row_same, lookup_insert_eq.
  - intros c r Hc Hr Hck Hrk.
    apply elem_of_app in Hr as [Hr | ->%list_elem_of_singleton]; [|congruence].
    apply elem_of_app in Hc as [Hc | ->%list_elem_of_singleton].
    + destruct (t_return _ _ Ht c r Hc Hr Hck Hrk) as (h0 & Hh0 & H1 & H2 & H3).
      assert (id r ≠ id e).
      { intros Hre. destruct (step_fresh c Hc). rewrite Hck. unfold key. by rewrite Hkind, Hre. }
      exists h0. by rewrite row_other.
    + apply list_elem_of_split in Hr as (p1 & p2 & Hp). pose proof Hes as Hes'.
      rewrite Hp, <- app_assoc in Hes'. destruct (call_of_return _ _ _ Hes' Hrk) as (c & Hc & Hck').
      destruct (step_fresh c); [rewrite Hp; set_solver|]. by rewrite Hck', Hck.
Qed.

Lemma history_step_return :
  kind e = returnEntry -> ∃ t', history_step M t e = Some t' ∧ tables_ok (pre ++ [e]) t'.
Proof.
  intros Hkind. destruct (step_id e (step_in e ltac:(set_solver))) as [Hid Hlt].
  destruct (call_of_return _ _ _ Hes Hkind) as (c & Hc & Hck).
  assert (Hck' : kind c = callEntry ∧ id c = id e) by (unfold key in Hck; naive_solver).
  destruct (t_call _ _ Ht c Hc (proj1 Hck')) as (he & Hhe & H1 & H2 & H3).
  rewrite (proj2 Hck') in Hhe, H3.
  destruct (Hdesc (Entry.value c) (Entry.value e)) as [d Hd].
  { apply (Hok c e (id e)); [apply step_in; set_solver..|done|]. unfold key. by rewrite Hkind. }
  unfold history_step, slice_get, slice_set, read. rewrite decide_True, Hkind, Hhe, H3 by lia.
  simpl. rewrite Hd. simpl. rewrite decide_True by lia. simpl.
  eexists. split; [done|]. split; simpl.
  - rewrite length_insert. apply Ht.
  - intros c' [Hc' | ->%list_elem_of_singleton]%elem_of_app Hk'; [|congruence].
    destruct (t_call _ _ Ht c' Hc' Hk') as (h1 & Hh1 & Hf).
    destruct (decide (id c' = id e)) as [Heq|Hne].
    + rewrite Heq in *. eexists. rewrite row_same. split; [done|]. simpl. by simplify_eq.
    + exists h1. by rewrite row_other.
  - intros c' r Hc' Hr Hk' Hrk.
    apply elem_of_app in Hc' as [Hc' | ->%list_elem_of_singleton];
      [|unfold key in Hk'; congruence].
    apply elem_of_app in Hr as [Hr | ->%list_elem_of_singleton].
    + destruct (t_return _ _ Ht c' r Hc' Hr Hk' Hrk) as (h1 & Hh1 & G1 & G2 & G3).
      assert (id r ≠ id e).
      { intros Hi. apply (step_fresh r Hr). unfold key. by rewrite Hrk, Hkind, Hi. }
      exists h1. by rewrite row_other, lookup_insert_ne.
    + assert (c' = c) as -> by (apply entry_inj; [apply step_in; set_solver..|congruence]).
      eexists. by rewrite row_same, lookup_insert_eq.
Qed.

Lemma history_step_ok : ∃ t', history_step M t e = Some t' ∧ tables_ok (pre ++ [e]) t'.
Proof. destruct (kind e) eqn:Hk; [by apply history_step_call|by apply history_step_return]. Qed.
End Step.

Lemma history_loop_ok pre post :
  es = pre ++ post -> ∃ t, history_loop M (empty_tables n) pre = Some t ∧ tables_ok pre t.
Proof.
  revert post. induction pre as [|e pre IH] using rev_ind; intros post Hes.
  - eexists. split; [done|]. split; simpl; [apply length_replicate|set_solver..].
  - rewrite <- app_assoc in Hes. destruct (IH _ Hes) as (t & Hl & Ht).
    destruct (history_step_ok _ _ _ _ Hes Ht) as (t' & Hs & Ht'). exists t'. split; [|done].
    unfold history_loop in *. rewrite foldl_app, Hl. done.
Qed.

Lemma tables_rows t k he :
  tables_ok es t -> history t !! k = Some he -> shows M es (Z.of_nat k) he.
Proof.
  intros Ht Hk. apply lookup_lt_Some in Hk as Hlt. rewrite (t_length _ _ Ht) in Hlt.
  destruct (wf_pairs _ _ Hwf (Z.of_nat k)) as (c & r & Hb & Hc & Hr); [lia|].
  apply before_elem_of in Hb as Hel. exists c, r.
  assert (Hc' : kind c = callEntry ∧ id c = Z.of_nat k) by (unfold key in Hc; naive_solver).
  assert (Hr' : kind r = returnEntry ∧ id r = Z.of_nat k) by (unfold key in Hr; naive_solver).
  destruct (t_call _ _ Ht c) as (h1 & Hh1 & A1 & A2 & _); [tauto..|].
  destruct (t_return _ _ Ht c r) as (h2 & Hh2 & B1 & B2 & _); [tauto|tauto| |tauto|].
  { rewrite Hc. by rewrite (proj2 Hr'). }
  rewrite (proj2 Hc'), Nat2Z.id in Hh1. rewrite (proj2 Hr'), Nat2Z.id in Hh2. simplify_eq.
  tauto.
Qed.

(** The values that the second loop reads are those of the entries. *)
Lemma tables_io t k :
  tables_ok es t -> (0 <= k < Z.of_nat n)%Z ->
  (read (callValue t) k, read (returnValue t) k) = entry_io es k.
Proof.
  intros Ht Hk. destruct (wf_pairs _ _ Hwf k Hk) as (c & r & Hb & Hc & Hr).
  apply before_elem_of in Hb as Hel. unfold entry_io, read.
  assert (Hc' : kind c = callEntry ∧ id c = k) by (unfold key in Hc; naive_solver).
  assert (Hr' : kind r = returnEntry ∧ id r = k) by (unfold key in Hr; naive_solver).
  destruct (t_call _ _ Ht c) as (h1 & _ & _ & _ & A); [tauto..|].
  destruct (t_return _ _ Ht c r) as (h2 & _ & _ & _ & B); [tauto|tauto| |tauto|].
  { rewrite Hc. by rewrite (proj2 Hr'). }
  rewrite (proj2 Hc') in A. rewrite (proj2 Hr') in B. rewrite A, B. simpl.
  rewrite (entry_value_of es callEntry k c), (entry_value_of es returnEntry k r);
    try done; try tauto; apply (wf_keys _ _ Hwf).
Qed.
End Tables.

(** ** The partial linearizations *)

Definition indices (l : partialLinearization) : list Z := Index <$> l.
Definition descriptions (l : partialLinearization) : list string := StateDescription <$> l.

(** The descriptions of the states that a sequence of operations goes through. *)
Fixpoint described (M : Model V) (s : V) (ios : list (V * V)) (ds : list string) : Prop :=
  match ios, ds with
  | [], [] => True
  | (i, o) :: ios', d :: ds' => ∃ s', Step M s i o = Some (true, s') ∧
      callDescribeState M s' = Some d ∧ described M s' ios' ds'
  | _, _ => False
  end.

(** [i] is the number of the first of the longest sequences that contain [k]. *)
Definition is_largest (partials : list (list Z)) (k : Z) (i : nat) : Prop :=
  ∃ p, partials !! i = Some p ∧ k ∈ p ∧
    (forall q, q ∈ partials -> k ∈ q -> length q <= length p) ∧
    forall j q, j < i -> partials !! j = Some q -> k ∈ q -> length q < length p.

(** [largestSize] and [largestIndex] after the sequences of [seen]. *)
Definition sizes_ok (seen : list (list Z)) (sz : sizes) : Prop :=
  forall k, match largestIndex sz !! k with
    | Some i => is_largest seen k i ∧
        ∃ p, seen !! i = Some p ∧ largestSize sz !! k = Some (length p)
    | None => largestSize sz !! k = None ∧ forall p, p ∈ seen -> k ∉ p
    end.

Lemma note_size_lookup i len x sz k :
  (largestSize (note_size i len x sz) !! k, largestIndex (note_size i len x sz) !! k) =
    if decide (k = x ∧ default 0 (largestSize sz !! k) < len)
    then (Some len, Some i) else (largestSize sz !! k, largestIndex sz !! k).
Proof.
  unfold note_size. destruct (decide (k = x)) as [->|Hne].
  - destruct (decide (default 0 (largestSize sz !! x) < len)); simpl.
    + rewrite decide_True by done. by rewrite !lookup_insert_eq.
    + by rewrite decide_False by naive_solver.
  - rewrite (decide_False (P := k = x ∧ _)) by naive_solver.
    case_decide; simpl; by rewrite ?lookup_insert_ne by done.
Qed.

(** The effect of the loop over one sequence on the sizes. *)
Lemma partial_loop_sizes M t i len s ids sz steps sz' :
  partial_loop M t i len s ids sz = Some (steps, sz') ->
  forall k, (largestSize sz' !! k, largestIndex sz' !! k) =
    if decide (k ∈ ids ∧ default 0 (largestSize sz !! k) < len)
    then (Some len, Some i) else (largestSize sz !! k, largestIndex sz !! k).
Proof.
  revert s sz steps. induction ids as [|x ids IH]; intros s sz steps Hl k; simpl in Hl.
  { simplify_eq. rewrite decide_False; [done|]. intros [?%elem_of_nil _]. done. }
  inv_bind. destruct (negb b); [done|]. inv_bind.
  rewrite (IH _ _ _ ltac:(eassumption) k). pose proof (note_size_lookup i len x sz k) as Hn.
  destruct (decide (k = x ∧ _)) as [[-> Hlt]|Hno]; injection Hn as Hs Hi; rewrite Hs, Hi; simpl.
  - rewrite decide_False by lia. rewrite decide_True; [done|]. split; [left|done].
  - apply decide_ext. rewrite elem_of_cons. naive_solver.
Qed.

Lemma sizes_step M t s seen ids sz steps sz' :
  partial_loop M t (length seen) (length ids) s ids sz = Some (steps, sz') ->
  sizes_ok seen sz -> sizes_ok (seen ++ [ids]) sz'.
Proof.
  intros Hl Hsz k. pose proof (partial_loop_sizes _ _ _ _ _ _ _ _ _ Hl k) as Hk.
  specialize (Hsz k). case_decide as Hd.
  - destruct Hd as [Hin Hlt]. injection Hk as Hs Hi. rewrite Hi, Hs.
    split; [|exists ids; by rewrite list_lookup_middle].
    assert (Hless : forall q, q ∈ seen -> k ∈ q -> length q < length ids).
    { intros q Hq Hkq. destruct (largestIndex sz !! k) as [i|]; [|naive_solver].
      destruct Hsz as ((p & Hp & _ & Hmax & _) & p' & Hp' & Hsize). simplify_eq.
      rewrite Hsize in Hlt. simpl in Hlt. specialize (Hmax q Hq Hkq). lia. }
    exists ids. split_and!; [by rewrite list_lookup_middle|done| |].
    + intros q [Hq | ->%list_elem_of_singleton]%elem_of_app Hkq; [|done].
      specialize (Hless q Hq Hkq). lia.
    + intros j q Hj Hq. apply Hless. rewrite lookup_app_l in Hq by done.
      by eapply list_elem_of_lookup_2.
  - injection Hk as Hs Hi. rewrite Hi, Hs. destruct (largestIndex sz !! k) as [i|].
    + destruct Hsz as ((p & Hp & Hkp & Hmax & Hfirst) & p' & Hp' & Hsize). simplify_eq.
      assert (Hp' : (seen ++ [ids]) !! i = Some p) by (by apply lookup_app_l_Some).
      apply lookup_lt_Some in Hp as Hi'.
      split; [|by exists p]. exists p. split_and!; [done..| |].
      * intros q [Hq | ->%list_elem_of_singleton]%elem_of_app Hkq; [by apply Hmax|].
        rewrite Hsize in Hd. simpl in Hd. destruct (decide (length p < length ids)); [|lia].
        naive_solver.
      * intros j q Hj Hq. apply (Hfirst j); [done|]. by rewrite lookup_app_l in Hq by lia.
    + destruct Hsz as [Hnone Hno]. split; [done|].
      intros p [Hp | ->%list_elem_of_singleton]%elem_of_app; [by apply Hno|].
      intros Hkp. apply Hd. split; [done|]. rewrite Hnone. simpl.
      destruct ids; [by apply elem_of_nil in Hkp|simpl; lia].
Qed.

Section Replay.
Context (M : Model V) (op_ok : V -> V -> Prop) (valid : V -> Prop) `{!ModelLaws M op_ok valid}.
Context (Hstate : forall s, valid s -> is_Some (callDescribeState M s)).
Context (t : tables).

Definition tio (k : Z) : V * V := (read (callValue t) k, read (returnValue t) k).

(** A legal sequence is replayed without a panic. *)
Lemma partial_loop_ok i len s ids sz :
  valid s -> Forall (λ k, op_ok (tio k).1 (tio k).2) ids -> legal M s (tio <$> ids) ->
  ∃ steps sz', partial_loop M t i len s ids sz = Some (steps, sz') ∧ indices steps = ids ∧
    described M s (tio <$> ids) (descriptions steps).
Proof.
  revert s sz. induction ids as [|k ids IH]; intros s sz Hv Hio Hleg; simpl.
  { by exists [], sz. }
  apply Forall_cons in Hio as [Hk Hio]. destruct Hleg as (s' & Hs & Hleg).
  assert (Hv' : valid s').
  { destruct (step_total s _ _ Hv Hk) as (b & s'' & Hs'' & Hv''). simpl in *.
    rewrite Hs in Hs''. simplify_eq. by apply Hv''. }
  destruct (Hstate s' Hv') as [d Hd]. rewrite Hs. simpl. rewrite Hd. simpl.
  destruct (IH s' (note_size i len k sz) Hv' Hio Hleg) as (steps & sz' & -> & Hix & Hds).
  simpl. eexists _, _. split; [done|]. unfold indices, descriptions in *.
  rewrite !fmap_cons, Hix. split; [done|]. by exists s'.
Qed.

Lemma partials_loop_ok seen partials sz :
  Forall (λ ids, Forall (λ k, op_ok (tio k).1 (tio k).2) ids ∧ legal M (Init M) (tio <$> ids))
    partials -> sizes_ok seen sz ->
  ∃ ls sz', partials_loop M t (length seen) partials sz = Some (ls, sz') ∧
    indices <$> ls = partials ∧
    Forall2 (λ ids l, described M (Init M) (tio <$> ids) (descriptions l)) partials ls ∧
    sizes_ok (seen ++ partials) sz'.
Proof.
  revert seen sz. induction partials as [|ids partials IH]; intros seen sz Hall Hsz; simpl.
  { exists [], sz. rewrite app_nil_r. split_and!; [done..|constructor|done]. }
  apply Forall_cons in Hall as [[Hio Hleg] Hall].
  destruct (partial_loop_ok (length seen) (length ids) (Init M) ids sz)
    as (steps & sz1 & Hl & Hix & Hd); [apply init_valid|done|done|].
  rewrite Hl. simpl. apply sizes_step in Hl; [|done].
  destruct (IH (seen ++ [ids]) sz1 Hall Hl) as (ls & sz2 & Hls & Hixs & Hds & Hsz2).
  rewrite length_app, Nat.add_1_r in Hls. rewrite Hls. simpl. eexists _, _. split; [done|].
  split_and!; [by rewrite fmap_cons, Hix, Hixs|by constructor|].
  by rewrite <- app_assoc in Hsz2.
Qed.
End Replay.

(** ** One partition *)

(** Interface of a model towards the visualization: its descriptions do not panic. *)
Class DescribeLaws (M : Model V) (op_ok : V -> V -> Prop) (valid : V -> Prop) : Prop := {
  describe_operation : forall i o, op_ok i o -> is_Some (callDescribeOperation M i o);
  describe_state : forall s, valid s -> is_Some (callDescribeState M s)
}.

(** A row shows an operation. *)
Definition row_shows (M : Model V) (o : Operation V) (he : historyElement) : Prop :=
  heClientId he = ClientId o ∧ Start he = Call o ∧ End_ he = Return o ∧
  callDescribeOperation M (Input o) (Output o) = Some (Description he).

(** The data of a partition [p] of the history with entries [es]; [partials] are the
    sequences that the checker reported and [sorted] the same slice after the sort. *)
Record partition_shown (M : Model V) (p : list (Operation V)) (es : list (entry V))
    (partials sorted : list (list Z)) (d : partitionVisualizationData) : Prop := {
  shown_rows : Forall2 (row_shows M) p (History d);
  shown_perm : sorted ≡ₚ partials;
  shown_sorted : is_sorted longer sorted;
  shown_indices : indices <$> PartialLinearizations d = sorted;
  shown_states : Forall2 (λ ids l, described M (Init M) (entry_io es <$> ids) (descriptions l))
    sorted (PartialLinearizations d);
  shown_largest : forall k, match Largest d !! k with
    | Some i => is_largest sorted k i
    | None => forall ids, ids ∈ sorted -> k ∉ ids
    end
}.

Lemma longer_strict_weak : strict_weak longer.
Proof.
  unfold longer. split_and!; intros *; rewrite ?bool_decide_eq_true, ?bool_decide_eq_false; lia.
Qed.

Section Partition.
Context (sort : forall A, (A -> A -> bool) -> list A -> list A) `{!GoSort sort}.
Context (M : Model V) (op_ok : V -> V -> Prop) (valid : V -> Prop).
Context `{!ModelLaws M op_ok valid} `{!DescribeLaws M op_ok valid}.
Context (p : list (Operation V)) (Hp : wf_history op_ok p).

Abbreviation es := (makeEntries sort p).

Lemma rows_operations rows :
  length rows = length p -> (forall k he, rows !! k = Some he -> shows M es (Z.of_nat k) he) ->
  Forall2 (row_shows M) p rows.
Proof.
  intros Hlen Hrows. apply Forall2_same_length_lookup_2; [done|]. intros k o he Ho Hhe.
  destruct (Hrows k he Hhe) as (c & r & Hc & Hr & Hck & Hrk & Hs).
  destruct (makeEntries_elem sort p k o Ho) as [Hc' Hr'].
  assert (Hkey : forall x y, x ∈ es -> y ∈ es -> key x = key y -> x = y).
  { intros x y. apply key_inj, makeEntries_keys. done. }
  assert (c = callOf (Z.of_nat k) o) as -> by (by apply Hkey).
  assert (r = returnOf (Z.of_nat k) o) as -> by (by apply Hkey).
  done.
Qed.

(** Every sequence of ids that is a partial linearization can be replayed. *)
Lemma partial_replays t ids :
  tables_ok M (length p) es t -> partial_linearization M (length p) es ids ->
  Forall (λ k, op_ok (tio t k).1 (tio t k).2) ids ∧ (tio t <$> ids) = (entry_io es <$> ids).
Proof.
  intros Ht Hpl. pose proof (wf_history_entries sort op_ok p Hp) as Hwf.
  assert (Hio : forall k, k ∈ ids -> tio t k = entry_io es k).
  { intros k Hk. eapply tables_io; [done|done|]. by apply (partial_range _ _ _ _ Hpl). }
  split; [|apply Forall_fmap_ext_1, Forall_forall; exact Hio].
  apply Forall_forall. intros k Hk. rewrite Hio by done. simpl.
  destruct (wf_pairs _ _ Hwf k) as (c & r & Hb & Hc & Hr);
    [by apply (partial_range _ _ _ _ Hpl)|].
  apply before_elem_of in Hb as [Hce Hre].
  rewrite (entry_value_of es callEntry k c), (entry_value_of es returnEntry k r);
    try done; try apply (wf_keys _ _ Hwf).
  by apply (makeEntries_ok sort op_ok p Hp c r k).
Qed.

Lemma partition_data_ok partials :
  Forall (partial_linearization M (length p) es) partials ->
  ∃ d sorted, partition_data M sort es partials = Some (d, sorted) ∧
    partition_shown M p es partials sorted d.
Proof.
  intros Hall. pose proof (wf_history_entries sort op_ok p Hp) as Hwf.
  pose proof (makeEntries_ok sort op_ok p Hp) as Hok.
  destruct (history_loop_ok M (length p) es Hwf op_ok Hok describe_operation es [])
    as (t & Hl & Ht); [by rewrite app_nil_r|].
  unfold partition_data. rewrite (wf_length _ _ Hwf), Nat.mul_comm, Nat.div_mul by done.
  rewrite Hl. simpl. assert (Hperm := go_sort_perm (list Z) longer partials).
  assert (Hrep : forall ids, ids ∈ sort (list Z) longer partials ->
    partial_linearization M (length p) es ids).
  { intros ids Hin. rewrite Hperm in Hin. rewrite Forall_forall in Hall. by apply Hall. }
  destruct (partials_loop_ok M op_ok valid describe_state t []
    (sort (list Z) longer partials) (MkSizes ∅ ∅)) as (ls & sz & Hls & Hix & Hds & Hsz).
  - apply Forall_forall. intros ids Hin. destruct (partial_replays t ids Ht (Hrep ids Hin)) as [H1 H2].
    split; [done|]. rewrite H2. by apply (partial_legal _ _ _ _ (Hrep ids Hin)).
  - intros k. simpl. rewrite !lookup_empty. split; [done|]. intros q Hq. by apply elem_of_nil in Hq.
  - simpl in Hls. rewrite Hls. simpl. eexists _, _. split; [done|]. split; simpl.
    + apply rows_operations; [apply (t_length _ _ _ _ Ht)|]. intros k he. by eapply tables_rows.
    + done.
    + apply go_sort_sorted, longer_strict_weak.
    + done.
    + apply Forall2_same_length_lookup. split; [by eapply Forall2_length|].
      intros i ids l Hi Hli. pose proof (Forall2_lookup_lr _ _ _ _ _ _ Hds Hi Hli) as Hd.
      simpl in Hd. destruct (partial_replays t ids Ht) as [_ <-]; [|done].
      by apply Hrep, (list_elem_of_lookup_2 _ i).
    + intros k. specialize (Hsz k). simpl in Hsz. destruct (largestIndex sz !! k); naive_solver.
Qed.
End Partition.

End Compute.
End Visualization.
Import Visualization.

Section Info.
Context {V : Type} `{Iface V} (model : Model V).
Context (op_ok : V -> V -> Prop) (valid : V -> Prop) (laws : ModelLaws (fillDefault model) op_ok valid).
Context (describes : DescribeLaws (fillDefault model) op_ok valid).
Context (sort : forall A, (A -> A -> bool) -> list A -> list A) (sort_ok : GoSort sort).

Abbreviation reported :=
  (λ p, Forall (partial_linearization (fillDefault model) (length p) (makeEntries sort p))).

Lemma partitions_loop_ok partitions partialss :
  Forall (wf_history op_ok) partitions -> Forall2 reported partitions partialss ->
  ∃ data sorteds, partitions_loop (fillDefault model) sort (makeEntries sort <$> partitions)
      partialss = Some (data, sorteds) ∧ length data = length partitions ∧
    forall i p, partitions !! i = Some p -> ∃ d partials sorted, data !! i = Some d ∧
      partialss !! i = Some partials ∧ sorteds !! i = Some sorted ∧
      partition_shown (fillDefault model) p (makeEntries sort p) partials sorted d.
Proof.
  intros Hw Hrep. revert Hw. induction Hrep as [|p ps parts partss Hp Hrep IH]; intros Hw.
  { exists [], []. split_and!; [done..|]. intros i p Hi. by rewrite lookup_nil in Hi. }
  apply Forall_cons in Hw as [Hwp Hw]. destruct (IH Hw) as (data & sorteds & Hl & Hlen & Hall).
  destruct (partition_data_ok sort (fillDefault model) op_ok valid p Hwp ps Hp)
    as (d & sorted & Hd & Hshown).
  exists (d :: data), (sorted :: sorteds). rewrite fmap_cons. cbn [partitions_loop].
  rewrite Hd. simpl. rewrite Hl. simpl. split_and!; [done|by rewrite Hlen|].
  intros [|i] q Hq; simpl in *; [simplify_eq; eauto 10|by apply Hall].
Qed.

Lemma verbose_info h partitions timeout r :
  partition_ok model op_ok h partitions -> CheckOperationsVerbose sort model h timeout r ->
  info_history r.2 = makeEntries sort <$> partitions ∧
  Forall2 reported partitions (info_partials r.2) ∧
  forall i p partials, partitions !! i = Some p -> info_partials r.2 !! i = Some partials ->
    Forall (λ ids, ids ≠ []) partials.
Proof.
  intros Hp Hr. pose proof (operations_partials model op_ok valid sort h partitions Hp timeout r)
    as Hpart. pose proof Hr as Hr0.
  destruct Hr as (l & Hl & st & Hst & Hph & _ & Hinfo).
  rewrite (partition_entries model op_ok sort h partitions Hp) in Hl. simplify_eq.
  pose proof (partition_checks model op_ok valid sort h partitions Hp true) as Hall.
  destruct (pinit_inv _ _ true timeout Hall) as [costs Hinv].
  destruct (psteps_inv _ _ _ _ _ _ _ Hinv Hst) as [costs' Hinv'].
  destruct Hinfo as [Hh Hps]. split; [done|]. split.
  2:{ intros i p partials Hi Hpi. apply Forall_forall. intros ids Hids. by eapply Hpart. }
  apply Forall2_same_length_lookup_2.
  - apply Forall2_length in Hps. rewrite <- Hps, (p_longest _ _ _ _ _ _ Hinv').
    by rewrite length_fmap.
  - intros i p partials Hi Hpi. apply Forall_forall. intros ids Hids. by eapply Hpart.
Qed.

(** C21: after [CheckOperationsVerbose], with a timeout or not, [computeVisualizationData] does
    not panic: every partial linearization replays without a rejected step.  For each
    partition the table has the client, the times and the description of each operation;
    the partial linearizations shown are those reported, longest first, each step with the
    description of the state it leads to; and [Largest] gives for each operation the first of
    the longest sequences that contain it, and nothing when none does. *)
Theorem computeVisualizationData_correct h partitions timeout r :
  partition_ok model op_ok h partitions -> CheckOperationsVerbose sort model h timeout r ->
  ∃ data info, computeVisualizationData sort model r.2 = Some (data, info) ∧
    length data = length partitions ∧
    forall i p, partitions !! i = Some p -> ∃ d partials sorted, data !! i = Some d ∧
      info_partials r.2 !! i = Some partials ∧ info_partials info !! i = Some sorted ∧
      partition_shown (fillDefault model) p (makeEntries sort p) partials sorted d.
Proof.
  intros Hp Hr. destruct (verbose_info h partitions timeout r Hp Hr) as (Hh & Hrep & _).
  destruct (partitions_loop_ok _ _ (part_wf _ _ _ _ Hp) Hrep) as (data & sorteds & Hl & Hlen & Hall).
  unfold computeVisualizationData. rewrite Hh, Hl. by eexists _, _.
Qed.
End Info.

(** ** The key/value model *)
Import Porcupine.Examples.

#[export] Instance KvModel_describes :
  DescribeLaws (fillDefault (KvModel insertion_sort)) kv_ok kv_valid.
Proof.
  split.
  - intros [] [] Hio; try contradiction; unfold callDescribeOperation; simpl; eauto.
  - intros s _. unfold callDescribeState. simpl. unfold DefaultDescribeState. eauto.
Qed.

Lemma computeVisualizationData_correct_witness :
  ∃ data info, computeVisualizationData insertion_sort (KvModel insertion_sort)
      (LinearizationInfo (makeEntries insertion_sort <$> [of_key "x" h_good; of_key "y" h_good])
        [[[0; 1; 2]%Z]; [[0; 1]%Z]]) = Some (data, info) ∧
    length data = 2.
Proof.
  destruct (computeVisualizationData_correct (KvModel insertion_sort) kv_ok kv_valid
    (KvModel_laws insertion_sort) KvModel_describes insertion_sort insertion_sort_GoSort
    h_good [of_key "x" h_good; of_key "y" h_good] 0 _ good_partition good_verbose)
    as (data & info & Hd & Hlen & _).
  by exists data, info.
Defined.

(** The page for [h_good]: the states along each linearization. *)
Definition page_states (data : list partitionVisualizationData) : list (list (list string)) :=
  map (λ d, map descriptions (PartialLinearizations d)) data.

Example good_page :
  (page_states ∘ fst) <$>
    computeVisualizationData insertion_sort (KvModel insertion_sort)
      (LinearizationInfo (makeEntries insertion_sort <$> [of_key "x" h_good; of_key "y" h_good])
        [[[0; 1; 2]%Z]; [[0; 1]%Z]]) =
  Some [[["a"; "ab"; "ab"]]; [["c"; "c"]]].
Proof. vm_compute. reflexivity. Qed.
