(* ===== verification/Layout.v ===== *)
(** * The layout of the page of [porcupine/visualization.go]

    The first half of the function [render] of the script that [Visualize] writes: elements
    with their GIDs, the set of timestamps, the tweak of ends that are also starts, and the
    left-to-right scan that gives each timestamp and each linearization point its position.

    Times are counted in half units of the histories, so that the mean of two timestamps is
    exact; positions are counted in units of [1/px] of a pixel.  Both are integers: the
    script computes with doubles, which hold them exactly below [2^53].  A number is an
    [option Z]: [None] stands for [NaN], and for [undefined] where it is used as a number.
    A [TypeError] of the script is the [None] of the outer [option]. *)
From S2P Require Import Prelude Visualization.
Import Visualization.

(** ** Numbers of the script *)
Abbreviation num := (option Z).

Definition nadd (a : num) (k : Z) : num := (λ x, x + k)%Z <$> a.
Definition nsub (a b : num) : num := x ← a; y ← b; Some (x - y)%Z.
(** [Math.max] is [NaN] when an argument is. *)
Definition nmax (a b : num) : num := x ← a; y ← b; Some (Z.max x y).

(** [Set.prototype.add], in the order of insertion. *)
Definition set_add (x : Z) (s : list Z) : list Z := if decide (x ∈ s) then s else s ++ [x].

(** [Array.prototype.sort] is stable. *)
Definition sort_by {A} (key : A -> Z) (l : list A) : list A :=
  insertion_sort A (λ a b, bool_decide (key a < key b)%Z) l.

Module Layout.

(** An element of a ['History'] with the properties that [render] adds to it. *)
Record element := MkElement {
  elClientId : Z;
  elStart : Z;
  elEnd : Z;
  elDescription : string;
  elOriginalEnd : Z;
  elGid : nat
}.

(** What [render] keeps of a partition: its elements and the linearizations. *)
Record partition := MkPartition {
  elements : list element;
  linearizations : list partialLinearization;
  largest : gmap Z nat
}.

(** *** Elements and timestamps *)

Fixpoint number_elements (gid : nat) (hs : list historyElement) : list element :=
  match hs with
  | [] => []
  | el :: hs' =>
      MkElement (heClientId el) (2 * Start el) (2 * End_ el) (Description el) (2 * End_ el) gid
      :: number_elements (S gid) hs'
  end.

Fixpoint add_gids (gid : nat) (data : list partitionVisualizationData) : list partition :=
  match data with
  | [] => []
  | d :: data' =>
      MkPartition (number_elements gid (History d)) (PartialLinearizations d) (Largest d)
      :: add_gids (gid + length (History d)) data'
  end.

(** [byGid]: the same objects, in the order of their GIDs. *)
Definition byGid (ps : list partition) : list element := ps ≫= elements.

Definition allTimestamps (els : list element) : list Z :=
  foldl (λ s el, set_add (elEnd el) (set_add (elStart el) s)) [] els.

Definition startTimestamps (els : list element) : list Z :=
  foldl (λ s el, set_add (elStart el) s) [] els.

Definition sort_timestamps (ts : list Z) : list Z := sort_by id ts.

Fixpoint nextTs (sorted : list Z) (m : gmap Z Z) : gmap Z Z :=
  match sorted with
  | a :: (b :: _) as sorted' => nextTs sorted' (<[a := b]> m)
  | _ => m
  end.

Section Tweak.
Context (starts : list Z) (next : gmap Z Z).

(** The end that replaces the end of [el], if any. *)
Definition tweaked (el : element) : option Z :=
  let end_ := elEnd el in
  if decide (end_ ∈ starts) then (λ n, (end_ + n) / 2)%Z <$> (next !! end_) else None.

Definition tweak (el : element) : element :=
  match tweaked el with
  | Some e =>
      MkElement (elClientId el) (elStart el) e (elDescription el) (elOriginalEnd el) (elGid el)
  | None => el
  end.

Definition tweak_partition (p : partition) : partition :=
  MkPartition (tweak <$> elements p) (linearizations p) (largest p).

Definition tweaked_timestamps (els : list element) (all : list Z) : list Z :=
  foldl (λ s el, match tweaked el with Some e => set_add e s | None => s end) all els.
End Tweak.

(** The partitions and [sortedTimestamps], before the layout. *)
Definition prepare (data : list partitionVisualizationData) : list partition * list Z :=
  let ps := add_gids 0 data in
  let all := allTimestamps (byGid ps) in
  let starts := startTimestamps (byGid ps) in
  let next := nextTs (sort_timestamps all) ∅ in
  (tweak_partition starts next <$> ps,
   sort_timestamps (tweaked_timestamps starts next (byGid ps) all)).

(** *** Linearization points *)

(** The indices of a history that a linearization does not include. *)
Definition not_included (lin : partialLinearization) (els : list element) :
    list (nat * element) :=
  filter (λ ie, Z.of_nat ie.1 ∉ indices lin) (imap pair els).

(** [minEnd]; [None] is [Infinity]. *)
Definition min_end (rest : list (nat * element)) : option Z :=
  foldl (λ m ie, Some (match m with
    | None => elEnd ie.2
    | Some m => Z.min m (elEnd ie.2)
    end)) None rest.

Definition below (x : Z) (m : option Z) : Prop :=
  match m with None => True | Some m => (x < m)%Z end.

#[export] Instance below_dec x m : Decision (below x m).
Proof. destruct m; simpl; apply _. Defined.

(** The elements that could be next: not included, and called before [minEnd]. *)
Definition illegal_next (lin : partialLinearization) (els : list element) :
    list (nat * element) :=
  let rest := not_included lin els in
  filter (λ ie, below (elStart ie.2) (min_end rest)) rest.

(** [eventToLinearizations], [eventIllegalLast] and [allLinearizations]. *)
Record lp_tables := MkLpTables {
  eventToLinearizations : list (list (nat * Z));
  eventIllegalLast : list (list nat);
  allLinearizations : list (list nat)
}.

Definition empty_lp_tables (gid : nat) : lp_tables :=
  MkLpTables (replicate gid []) (replicate gid []) [].

(** The loop over the steps of a linearization, from [position]: [globalized], and the
    pairs pushed to [eventToLinearizations]. *)
Fixpoint globalize (els : list element) (lgid : nat) (position : Z)
    (lin : partialLinearization) (e2l : list (list (nat * Z))) :
    option (list nat * list (list (nat * Z))) :=
  match lin with
  | [] => Some ([], e2l)
  | step :: lin' =>
      el ← els.[Index step];
      '(globalized, e2l') ← globalize els lgid (position + 1) lin'
        (alter (λ l, l ++ [(lgid, position)]) (elGid el) e2l);
      Some (elGid el :: globalized, e2l')
  end.

Definition push_illegal (lgid : nat) (e2i : list (list nat)) (el : element) : list (list nat) :=
  alter (λ l, l ++ [lgid]) (elGid el) e2i.

Definition add_linearization (els : list element) (st : lp_tables) (lin : partialLinearization) :
    option lp_tables :=
  let lgid := length (allLinearizations st) in
  '(globalized, e2l) ← globalize els lgid 0 lin (eventToLinearizations st);
  Some (MkLpTables e2l
    (foldl (push_illegal lgid) (eventIllegalLast st) (snd <$> illegal_next lin els))
    (allLinearizations st ++ [globalized])).

Definition add_linearizations (st : lp_tables) (p : partition) : option lp_tables :=
  foldl (λ o lin, o ≫= λ st, add_linearization (elements p) st lin) (Some st) (linearizations p).

Definition lp_tables_of (ps : list partition) : option lp_tables :=
  foldl (λ o p, o ≫= λ st, add_linearizations st p)
    (Some (empty_lp_tables (length (byGid ps)))) ps.

(** *** The scan *)
Section Scan.
(** [px] units to a pixel; [text_width] is what [getBBox] measures, in units. *)
Context (px : Z) (text_width : string -> Z).

Definition EPSILON : Z := 20 * px.
Definition BOX_GAP : Z := 20 * px.
Definition BOX_TEXT_PADDING : Z := 10 * px.

(** The entries of [byEnd]. *)
Record box := MkBox { box_start : Z; box_end : Z; box_width : Z; box_gid : nat }.

Definition box_of (el : element) : box :=
  MkBox (elStart el) (elEnd el) (text_width (elDescription el) + 2 * BOX_TEXT_PADDING) (elGid el).

Definition byEnd (els : list element) : list box := sort_by box_end (box_of <$> els).

Context (els : list element) (tables : lp_tables).

(** [xPos], by the property name of a timestamp; [None] is the name [undefined]. *)
Abbreviation positions := (gmap (option Z) num).
Definition x_at (xPos : positions) (ts : option Z) : num := mjoin (xPos !! ts).

(** The loop that pushes [k] points of the linearization [lin] to [ps]. *)
Fixpoint push_points (xPos : positions) (lin : list nat) (k : nat) (ps : list num) :
    option (list num) :=
  match k with
  | 0 => Some ps
  | S k' =>
      nextGid ← lin !! length ps;
      el ← els !! nextGid;
      let here := x_at xPos (Some (elStart el)) in
      let nextPos := match last ps with
        | None => here
        | Some prev => nmax here (nadd prev EPSILON)
        end in
      push_points xPos lin k' (ps ++ [nextPos])
  end.

(** The body of the [forEach] over the linearizations of an event. *)
Definition place_point (xPos : positions) (st : num * list (list num)) (li : nat * Z) :
    option (num * list (list num)) :=
  let '(pos, lps) := st in
  let '(index, position) := li in
  ps ← lps !! index;
  lin ← allLinearizations tables !! index;
  ps' ← push_points xPos lin (Z.to_nat (position + 1 - Z.of_nat (length ps))) ps;
  Some (nmax pos (mjoin (ps'.[position])), <[index := ps']> lps).

(** The linearizations that go through an event, then those that may end before it. *)
Definition points_of (gid : nat) : option (list (nat * Z)) :=
  through ← eventToLinearizations tables !! gid;
  ending ← eventIllegalLast tables !! gid;
  ends ← mapM (λ index, lin ← allLinearizations tables !! index;
                        Some (index, Z.of_nat (length lin) - 1)%Z) ending;
  Some (through ++ ends).

Definition illegal_point (lps : list (list num)) (pos : num) (li : nat) : option num :=
  lin ← lps !! li;
  Some (nmax pos (nadd (mjoin (last lin)) EPSILON)).

(** One round of the [while] loop. *)
Definition place_event (xPos : positions) (st : num * list (list num)) (event : box) :
    option (num * list (list num)) :=
  let '(pos, lps) := st in
  let textEndPos := nadd (x_at xPos (Some (box_start event))) (box_width event) in
  points ← points_of (box_gid event);
  '(pos, lps) ←
    foldl (λ o li, o ≫= λ st, place_point xPos st li) (Some (nmax pos textEndPos, lps)) points;
  ending ← eventIllegalLast tables !! box_gid event;
  pos ← foldl (λ o li, o ≫= λ pos, illegal_point lps pos li) (Some pos) ending;
  Some (pos, lps).

(** The [while] loop; the last component is [byEnd] from [eventIndex] on. *)
Fixpoint place_events (xPos : positions) (ts : Z) (st : num * list (list num))
    (events : list box) : option (num * list (list num) * list box) :=
  match events with
  | event :: events' =>
      if decide (box_end event <= ts)%Z
      then st' ← place_event xPos st event; place_events xPos ts st' events'
      else Some (st, events)
  | [] => Some (st, [])
  end.

Record scan := MkScan {
  xPos : positions;
  linearizationPositions : list (list num);
  events : list box
}.

(** The [for] loop over [sortedTimestamps], after [prev]. *)
Fixpoint scan_loop (prev : Z) (sorted : list Z) (st : scan) : option scan :=
  match sorted with
  | [] => Some st
  | ts :: sorted' =>
      '(pos, lps, rest) ← place_events (xPos st) ts
        (nadd (x_at (xPos st) (Some prev)) BOX_GAP, linearizationPositions st) (events st);
      scan_loop ts sorted' (MkScan (<[Some ts := pos]> (xPos st)) lps rest)
  end.

Definition solve (sorted : list Z) : option scan :=
  let st := MkScan {[head sorted := Some 0%Z]}
    (replicate (length (allLinearizations tables)) []) (byEnd els) in
  match sorted with
  | [] => Some st
  | ts :: sorted' => scan_loop ts sorted' st
  end.
End Scan.

(** The layout: the partitions with their new ends, [sortedTimestamps], and the scan. *)
Record layout := MkLayout {
  partitions : list partition;
  sortedTimestamps : list Z;
  solved : scan
}.

Definition compute_layout (px : Z) (text_width : string -> Z)
    (data : list partitionVisualizationData) : option layout :=
  let '(ps, sorted) := prepare data in
  tables ← lp_tables_of ps;
  st ← solve px text_width (byGid ps) tables sorted;
  Some (MkLayout ps sorted st).

End Layout.
