(* ===== verification/LayoutProof.v ===== *)
(** * The left-to-right scan of [Layout] is optimal

    The constraints on a layout are those that the comment of the script lists: timestamps a
    gap apart, boxes that hold their text, and linearization points inside their boxes, a
    distance apart.  The scan meets them all, and no other assignment that meets them puts a
    timestamp or a point further left. *)
From S2P Require Import Prelude Visualization Layout.
Import Visualization Layout.

#[local] Open Scope Z_scope.

(** A function with the value at one time replaced. *)
Definition upd (w : Z -> Z) (t x : Z) : Z -> Z := λ s, if decide (s = t) then x else w s.

Lemma upd_same w t x : upd w t x t = x.
Proof. unfold upd. by rewrite decide_True. Qed.

Lemma upd_other w t x s : s ≠ t -> upd w t x s = w s.
Proof. intros H. unfold upd. by rewrite decide_False. Qed.

Lemma upd_upd w t x y s : upd (upd w t x) t y s = upd w t y s.
Proof. unfold upd. by case_decide. Qed.

Lemma sort_by_perm {A} (key : A -> Z) l : sort_by key l ≡ₚ l.
Proof. apply (go_sort_perm (sort := insertion_sort)). Qed.

Lemma sort_by_sorted {A} (key : A -> Z) l :
  StronglySorted (λ a b, key a <= key b) (sort_by key l).
Proof.
  assert (Hsw : strict_weak (λ a b : A, bool_decide (key a < key b))).
  { split_and!; intros *; rewrite ?bool_decide_eq_true, ?bool_decide_eq_false; lia. }
  pose proof (is_sorted_strongly _ _ Hsw (go_sort_sorted A _ l Hsw)) as Hs.
  unfold sort_by. induction Hs as [|a l' _ IH Ha]; constructor; [done|].
  eapply Forall_impl; [exact Ha|]. intros b Hb%bool_decide_eq_false. lia.
Qed.

Module LayoutProof.

Section Problem.
Context (px : Z) (text_width : string -> Z) (els : list element) (tables : lp_tables).

Abbreviation lins := (allLinearizations tables).
Abbreviation EPS := (EPSILON px).
Abbreviation GAP := (BOX_GAP px).

Definition width (el : element) : Z := box_width (box_of px text_width el).

(** The point number [k] of the linearization [l]. *)
Definition point (lp : list (list Z)) (l : nat) (k : nat) : option Z := ps ← lp !! l; ps !! k.

(** The constraints: [w] gives the timestamps their positions, [lp] the points. *)
Record feasible (sorted : list Z) (w : Z -> Z) (lp : list (list Z)) : Prop := {
  f_positive : forall t, t ∈ sorted -> 0 <= w t;
  f_gap : forall i a b, sorted !! i = Some a -> sorted !! S i = Some b -> w a + GAP <= w b;
  f_text : forall el, el ∈ els -> w (elStart el) + width el <= w (elEnd el);
  f_points : Forall2 (λ lin ps, length lin = length ps) lins lp;
  f_box : forall l lin k g el, lins !! l = Some lin -> lin !! k = Some g -> els !! g = Some el ->
    ∃ p, point lp l k = Some p ∧ w (elStart el) <= p <= w (elEnd el);
  f_apart : forall l k p q, point lp l k = Some p -> point lp l (S k) = Some q -> p + EPS <= q;
  f_illegal : forall g el ending l lin, els !! g = Some el ->
    eventIllegalLast tables !! g = Some ending -> l ∈ ending -> lins !! l = Some lin ->
    ∃ p, point lp l (pred (length lin)) = Some p ∧ p + EPS <= w (elEnd el)
}.

(** What the order of time and the tables promise to the scan. *)
Class LayoutInput (sorted : list Z) : Prop := {
  li_sorted : StronglySorted Z.lt sorted;
  li_gid : forall g el, els !! g = Some el -> elGid el = g;
  li_start : forall el, el ∈ els -> elStart el ∈ sorted;
  li_end : forall el, el ∈ els -> elEnd el ∈ sorted;
  li_lt : forall el, el ∈ els -> elStart el < elEnd el;
  li_range : forall l lin g, lins !! l = Some lin -> g ∈ lin -> (g < length els)%nat;
  li_order : forall l lin j k g g' el el', lins !! l = Some lin -> (j <= k)%nat ->
    lin !! j = Some g -> lin !! k = Some g' -> els !! g = Some el -> els !! g' = Some el' ->
    elStart el < elEnd el';
  li_through : forall g, (g < length els)%nat ->
    ∃ through, eventToLinearizations tables !! g = Some through ∧
    forall l z, (l, z) ∈ through <-> 0 <= z ∧ ∃ lin, lins !! l = Some lin ∧
      lin !! Z.to_nat z = Some g;
  li_ending : forall g, (g < length els)%nat ->
    ∃ ending, eventIllegalLast tables !! g = Some ending ∧
    forall l, l ∈ ending -> ∃ lin, lins !! l = Some lin ∧ lin ≠ [] ∧
      forall j g' el el', lin !! j = Some g' -> els !! g' = Some el' -> els !! g = Some el ->
        elStart el' < elEnd el
}.

(** One inequality that a step of the scan establishes. *)
Inductive demand :=
  | Span (a b d : Z)
  | Point (l k : nat) (b d : Z).

Definition met (w : Z -> Z) (lp : list (list Z)) (d : demand) : Prop :=
  match d with
  | Span a b d => w a + d <= w b
  | Point l k b d => ∃ p, point lp l k = Some p ∧ p + d <= w b
  end.

(** The times of a demand: the first is placed, the second may be the one being placed. *)
Definition within (placed now : list Z) (d : demand) : Prop :=
  match d with
  | Span a b _ => a ∈ placed ∧ b ∈ placed ++ now
  | Point _ _ b _ => b ∈ placed ++ now
  end.

(** The points [ps] of the linearization [lin] that are placed. *)
Record chain (placed : list Z) (w : Z -> Z) (lin : list nat) (ps : list Z) : Prop := {
  ch_length : (length ps <= length lin)%nat;
  ch_start : forall k g el p, ps !! k = Some p -> lin !! k = Some g -> els !! g = Some el ->
    elStart el ∈ placed ∧ w (elStart el) <= p;
  ch_apart : forall k p q, ps !! k = Some p -> ps !! S k = Some q -> p + EPS <= q
}.

Definition all_below (lp lp' : list (list Z)) : Prop :=
  forall l k p p', point lp l k = Some p -> point lp' l k = Some p' -> p <= p'.

Context (sorted : list Z) `{!LayoutInput sorted} (Hpx : 0 < px).

(** The state of the scan: the times [placed], the time [now] being placed (if any), their
    positions [w], the points [lp], and the demands [D] met so far. *)
Record scan_inv (placed now : list Z) (w : Z -> Z) (lp : list (list Z)) (D : list demand) :
    Prop := {
  si_positive : forall t, t ∈ placed ++ now -> 0 <= w t;
  si_chains : Forall2 (chain placed w) lins lp;
  si_met : forall d, d ∈ D -> met w lp d ∧ within placed now d;
  si_least : forall w' lp', feasible sorted w' lp' ->
    (forall t, t ∈ placed ++ now -> w t <= w' t) ∧ all_below lp lp'
}.

Definition shows_x (placed : list Z) (xp : gmap (option Z) num) (w : Z -> Z) : Prop :=
  forall t, t ∈ placed -> x_at xp (Some t) = Some (w t).

Definition nums (lp : list (list Z)) : list (list num) :=
  (λ ps : list Z, Some <$> ps) <$> lp.

Lemma chain_ext placed w w' lin ps :
  (forall t, t ∈ placed -> w t = w' t) -> chain placed w lin ps -> chain placed w' lin ps.
Proof.
  intros Hw [H1 H2 H3]. split; [done| |done]. intros k g el p Hp Hg Hel.
  destruct (H2 k g el p Hp Hg Hel) as [? ?]. split; [done|]. by rewrite <- Hw.
Qed.

(** *** Steps of the invariant *)
Section Now.
Context (placed : list Z) (ts : Z) (Hnew : ts ∉ placed).

(** [pos = Math.max(pos, q)]. *)
Lemma inv_raise w lp D q :
  scan_inv placed [ts] w lp D ->
  (forall w' lp', feasible sorted w' lp' -> q <= w' ts) ->
  scan_inv placed [ts] (upd w ts (Z.max (w ts) q)) lp D.
Proof.
  intros [Hpos Hch Hmet Hleast] Hq.
  assert (Hmono : forall t, w t <= upd w ts (Z.max (w ts) q) t).
  { intros t. unfold upd. case_decide; subst; lia. }
  assert (Hsame : forall t, t ∈ placed -> upd w ts (Z.max (w ts) q) t = w t).
  { intros t Ht. apply upd_other. by intros ->. }
  split.
  - intros t Ht. pose proof (Hpos t Ht). pose proof (Hmono t). lia.
  - eapply Forall2_impl; [exact Hch|]. intros lin ps. apply chain_ext. intros t Ht.
    by rewrite Hsame.
  - intros d Hd. destruct (Hmet d Hd) as [Hm Hwi]. split; [|done].
    destruct d as [a b c|l k b c]; simpl in *.
    + rewrite Hsame by tauto. pose proof (Hmono b). lia.
    + destruct Hm as (p & Hp & ?). exists p. split; [done|]. pose proof (Hmono b). lia.
  - intros w' lp' Hf. destruct (Hleast w' lp' Hf) as [Ht Hb]. split; [|done].
    intros t Hin. specialize (Ht t Hin). specialize (Hq w' lp' Hf). unfold upd.
    case_decide; subst; lia.
Qed.

Lemma inv_demand w lp D d :
  scan_inv placed [ts] w lp D -> met w lp d -> within placed [ts] d ->
  scan_inv placed [ts] w lp (d :: D).
Proof.
  intros [Hpos Hch Hmet Hleast] Hd Hwi. split; [done|done| |done].
  intros d' [->|Hin]%elem_of_cons; [done|by apply Hmet].
Qed.

Lemma point_insert lp l ps k :
  (l < length lp)%nat -> point (<[l := ps]> lp) l k = ps !! k.
Proof. intros Hl. unfold point. by rewrite list_lookup_insert_eq. Qed.

Lemma point_insert_ne lp l l' ps k :
  l ≠ l' -> point (<[l := ps]> lp) l' k = point lp l' k.
Proof. intros Hl. unfold point. by rewrite list_lookup_insert_ne. Qed.

(** One more point of a linearization. *)
Lemma inv_push w lp D l lin ps g el p :
  scan_inv placed [ts] w lp D -> lins !! l = Some lin -> lp !! l = Some ps ->
  lin !! length ps = Some g -> els !! g = Some el -> elStart el ∈ placed ->
  p = match last ps with
      | None => w (elStart el) | Some prev => Z.max (w (elStart el)) (prev + EPS) end ->
  scan_inv placed [ts] w (<[l := ps ++ [p]]> lp) D.
Proof.
  intros [Hpos Hch Hmet Hleast] Hlin Hps Hg Hel Hstart Hp.
  assert (Hl : (l < length lp)%nat) by (by eapply lookup_lt_Some).
  pose proof (Forall2_lookup_lr _ _ _ _ _ _ Hch Hlin Hps) as [Hlen Hst Hap].
  assert (Hold : forall l' k q, point lp l' k = Some q ->
    point (<[l := ps ++ [p]]> lp) l' k = Some q).
  { intros l' k q Hq. destruct (decide (l = l')) as [<-|Hne].
    - rewrite point_insert by done. unfold point in Hq. rewrite Hps in Hq. simpl in Hq.
      by apply lookup_app_l_Some.
    - by rewrite point_insert_ne. }
  split; [done| | |].
  - rewrite <- (list_insert_id lins l lin Hlin). apply Forall2_insert; [done|]. split.
    + rewrite length_app. simpl. apply lookup_lt_Some in Hg. lia.
    + intros k g' el' q [Hk|[Hk Hq]]%lookup_app_Some Hg' Hel'; [by eapply Hst|].
      apply list_lookup_singleton_Some in Hq as [Hk0 <-].
      assert (k = length ps) as -> by lia. simplify_eq. split; [done|]. case_match; lia.
    + intros k q r Hq Hr. apply lookup_app_Some in Hr as [Hr|[Hk Hr]].
      * rewrite lookup_app_l in Hq by (apply lookup_lt_Some in Hr; lia). by eapply Hap.
      * apply list_lookup_singleton_Some in Hr as [Hk0 <-].
        rewrite lookup_app_l in Hq by lia. assert (Hlast : last ps = Some q).
        { rewrite last_lookup. replace (pred (length ps)) with k by lia. done. }
        rewrite Hlast in Hp. lia.
  - intros d Hd. destruct (Hmet d Hd) as [Hm Hwi]. split; [|done]. destruct d; [done|].
    simpl in *. destruct Hm as (q & Hq & ?). exists q. eauto.
  - intros w' lp' Hf. destruct (Hleast w' lp' Hf) as [Ht Hb]. split; [done|].
    intros l' k q q' Hq Hq'. destruct (decide (l = l')) as [<-|Hne];
      [|rewrite point_insert_ne in Hq by done; by eapply Hb].
    rewrite point_insert in Hq by done. apply lookup_app_Some in Hq as [Hq|[Hk Hq]].
    { eapply Hb; [|done]. unfold point. by rewrite Hps. }
    apply list_lookup_singleton_Some in Hq as [Hk0 <-]. assert (k = length ps) as -> by lia.
    destruct (f_box _ _ _ Hf l lin _ g el Hlin Hg Hel) as (q'' & Hq'' & Hbox). simplify_eq.
    specialize (Ht (elStart el) ltac:(set_solver)). destruct (last ps) as [prev|] eqn:Hlast; [|lia].
    rewrite last_lookup in Hlast. apply lookup_lt_Some in Hlast as Hm.
    assert (Hk' : length ps = S (pred (length ps))) by lia.
    destruct (lookup_lt_is_Some_2 lin (pred (length ps))) as [g0 Hg0]; [lia|].
    destruct (lookup_lt_is_Some_2 els g0) as [el0 Hel0].
    { eapply li_range; [exact Hlin|]. by eapply list_elem_of_lookup_2. }
    destruct (f_box _ _ _ Hf l lin _ g0 el0 Hlin Hg0 Hel0) as (r & Hr & _).
    rewrite Hk' in Hq'. pose proof (f_apart _ _ _ Hf l _ r q' Hr Hq').
    assert (prev <= r); [|lia]. eapply Hb; [|done]. unfold point. by rewrite Hps.
Qed.

(** *** The functions of the scan *)
Context (xp : gmap (option Z) num).
Context (Hplaced : forall t, t ∈ sorted -> t < ts -> t ∈ placed).

(** The state between two statements of the [while] loop. *)
Definition step_inv (st : num * list (list num)) (D : list demand) : Prop :=
  ∃ w lp, st = (Some (w ts), nums lp) ∧ shows_x placed xp w ∧ scan_inv placed [ts] w lp D.

Lemma step_raise w lp D q d :
  shows_x placed xp w -> scan_inv placed [ts] w lp D ->
  (forall w' lp', feasible sorted w' lp' -> q <= w' ts) ->
  (forall w', (forall t, t ∈ placed -> w' t = w t) -> q <= w' ts -> met w' lp d) ->
  within placed [ts] d -> step_inv (nmax (Some (w ts)) (Some q), nums lp) (d :: D).
Proof.
  intros Hx Hinv Hq Hd Hwi. exists (upd w ts (Z.max (w ts) q)), lp.
  assert (Hsame : forall t, t ∈ placed -> upd w ts (Z.max (w ts) q) t = w t).
  { intros t Ht. apply upd_other. by intros ->. }
  split; [by rewrite upd_same|]. split; [intros t Ht; rewrite Hsame by done; by apply Hx|].
  apply inv_demand; [by apply inv_raise| |done]. apply Hd; [done|]. rewrite upd_same. lia.
Qed.

Lemma lookup_nums lp l : nums lp !! l = (λ ps : list Z, Some <$> ps) <$> (lp !! l).
Proof. apply list_lookup_fmap. Qed.

Lemma nums_insert lp l ps : nums (<[l := ps]> lp) = <[l := Some <$> ps]> (nums lp).
Proof. apply list_fmap_insert. Qed.

Lemma push_points_ok w D l lin k : forall lp ps,
  shows_x placed xp w -> scan_inv placed [ts] w lp D -> lins !! l = Some lin ->
  lp !! l = Some ps -> (length ps + k <= length lin)%nat ->
  (forall j g el, (j < length ps + k)%nat -> lin !! j = Some g -> els !! g = Some el ->
    elStart el ∈ placed) ->
  ∃ ps', push_points px els xp lin k (Some <$> ps) = Some (Some <$> ps') ∧
    length ps' = (length ps + k)%nat ∧ scan_inv placed [ts] w (<[l := ps']> lp) D.
Proof.
  induction k as [|k IH]; intros lp ps Hx Hinv Hlin Hps Hlen Hst; simpl.
  { exists ps. rewrite list_insert_id by done. split_and!; [done|lia|done]. }
  destruct (lookup_lt_is_Some_2 lin (length ps)) as [g Hg]; [lia|].
  destruct (lookup_lt_is_Some_2 els g) as [el Hel].
  { eapply li_range; [exact Hlin|]. by eapply list_elem_of_lookup_2. }
  assert (Hs : elStart el ∈ placed) by (eapply (Hst (length ps)); [lia|done|done]).
  rewrite length_fmap, Hg. simpl. rewrite Hel. simpl. rewrite (Hx _ Hs), fmap_last.
  set (p := match last ps with
    | None => w (elStart el) | Some prev => Z.max (w (elStart el)) (prev + EPS) end).
  pose proof (inv_push w lp D l lin ps g el p Hinv Hlin Hps Hg Hel Hs eq_refl) as Hinv'.
  assert (Hl : (l < length lp)%nat) by (by eapply lookup_lt_Some).
  destruct (IH (<[l := ps ++ [p]]> lp) (ps ++ [p])) as (ps' & Hrun & Hlen' & Hinv'').
  - done.
  - done.
  - done.
  - by apply list_lookup_insert_eq.
  - rewrite length_app. simpl. lia.
  - intros j g' el'. rewrite length_app. simpl. intros Hj. apply Hst. lia.
  - exists ps'. rewrite length_app in Hlen'. simpl in Hlen'.
    rewrite list_insert_insert_eq in Hinv''. split_and!; [|lia|done].
    rewrite fmap_app in Hrun. rewrite <- Hrun. unfold p. by destruct (last ps).
Qed.

Lemma inv_lp w lp D l lin :
  scan_inv placed [ts] w lp D -> lins !! l = Some lin ->
  ∃ ps, lp !! l = Some ps ∧ chain placed w lin ps.
Proof.
  intros Hinv Hlin. destruct (Forall2_lookup_l _ _ _ _ _ (si_chains _ _ _ _ _ Hinv) Hlin)
    as (ps & ? & ?). by exists ps.
Qed.

Lemma place_point_ok st D l lin k :
  step_inv st D -> lins !! l = Some lin -> (k < length lin)%nat ->
  (forall j g el, (j <= k)%nat -> lin !! j = Some g -> els !! g = Some el ->
    elStart el ∈ placed) ->
  (forall w' lp' p, feasible sorted w' lp' -> point lp' l k = Some p -> p <= w' ts) ->
  ∃ st', place_point px els tables xp st (l, Z.of_nat k) = Some st' ∧
    step_inv st' (Point l k ts 0 :: D).
Proof.
  intros (w & lp & -> & Hx & Hinv) Hlin Hk Hst Hfeas.
  destruct (inv_lp _ _ _ _ _ Hinv Hlin) as (ps & Hps & Hch). unfold place_point.
  rewrite lookup_nums, Hps. simpl. rewrite Hlin. simpl. rewrite length_fmap.
  set (n := Z.to_nat (Z.of_nat k + 1 - Z.of_nat (length ps))).
  pose proof (ch_length _ _ _ _ Hch) as Hlen.
  destruct (push_points_ok w D l lin n lp ps) as (ps' & Hrun & Hlen' & Hinv');
    [done|done|done|done|lia| |].
  { intros j g el Hj Hg Hel. destruct (decide (j <= k)%nat); [by eapply Hst|].
    eapply (ch_start _ _ _ _ Hch j); [|done|done]. apply list_lookup_lookup_total_lt. lia. }
  rewrite Hrun. simpl. rewrite slice_get_nat, list_lookup_fmap.
  destruct (lookup_lt_is_Some_2 ps' k) as [p Hp]; [lia|]. rewrite Hp. simpl.
  eexists. split; [done|]. rewrite <- nums_insert.
  assert (Hpt : point (<[l := ps']> lp) l k = Some p).
  { rewrite point_insert; [done|]. by eapply lookup_lt_Some. }
  apply (step_raise w _ D p); [done|done| | |simpl; set_solver].
  - intros w' lp' Hf. destruct (lookup_lt_is_Some_2 lin k Hk) as [g Hg].
    destruct (lookup_lt_is_Some_2 els g) as [el Hel].
    { eapply li_range; [exact Hlin|]. by eapply list_elem_of_lookup_2. }
    destruct (f_box _ _ _ Hf l lin k g el Hlin Hg Hel) as (q & Hq & _).
    pose proof (Hfeas w' lp' q Hf Hq).
    pose proof (proj2 (si_least _ _ _ _ _ Hinv' w' lp' Hf) l k p q Hpt Hq). lia.
  - intros w' Hw' Hle. exists p. split; [done|lia].
Qed.

Lemma illegal_point_ok pos lps D l lin :
  step_inv (pos, lps) D -> lins !! l = Some lin -> lin ≠ [] ->
  Point l (pred (length lin)) ts 0 ∈ D ->
  (forall w' lp' p, feasible sorted w' lp' -> point lp' l (pred (length lin)) = Some p ->
    p + EPS <= w' ts) ->
  ∃ pos', illegal_point px lps pos l = Some pos' ∧
    step_inv (pos', lps) (Point l (pred (length lin)) ts EPS :: D).
Proof.
  intros (w & lp & [= -> ->] & Hx & Hinv) Hlin Hne Hin Hfeas.
  destruct (inv_lp _ _ _ _ _ Hinv Hlin) as (ps & Hps & Hch).
  destruct (si_met _ _ _ _ _ Hinv _ Hin) as [(p & Hp & _) _]. unfold illegal_point.
  rewrite lookup_nums, Hps. simpl. eexists. split; [done|]. rewrite fmap_last.
  pose proof Hp as Hp'. unfold point in Hp'. rewrite Hps in Hp'. simpl in Hp'.
  pose proof (ch_length _ _ _ _ Hch). apply lookup_lt_Some in Hp' as Hlt.
  rewrite last_lookup. replace (pred (length ps)) with (pred (length lin)) by lia.
  rewrite Hp'. simpl. apply (step_raise w lp D (p + EPS)); [done|done| | |simpl; set_solver].
  - intros w' lp' Hf. pose proof (f_points _ _ _ Hf) as H2.
    destruct (Forall2_lookup_l _ _ _ _ _ H2 Hlin) as (ps2 & Hps2 & Hlen2).
    destruct (lookup_lt_is_Some_2 ps2 (pred (length lin))) as [q Hq]; [lia|].
    assert (Hq' : point lp' l (pred (length lin)) = Some q) by (unfold point; by rewrite Hps2).
    pose proof (Hfeas w' lp' q Hf Hq').
    pose proof (proj2 (si_least _ _ _ _ _ Hinv w' lp' Hf) l _ p q Hp Hq'). lia.
  - intros w' Hw' Hle. exists p. split; [done|lia].
Qed.

(** *** One event *)
Section Event.
Context (g : nat) (el : element) (Hel : els !! g = Some el) (Hend : elEnd el = ts).

(** What the end of [el] has to satisfy. *)
Inductive demanded : demand -> Prop :=
  | demand_text : demanded (Span (elStart el) ts (width el))
  | demand_box l lin k : lins !! l = Some lin -> lin !! k = Some g -> demanded (Point l k ts 0)
  | demand_illegal ending l lin : eventIllegalLast tables !! g = Some ending -> l ∈ ending ->
      lins !! l = Some lin -> demanded (Point l (pred (length lin)) ts EPS).

Lemma start_placed g' el' : els !! g' = Some el' -> elStart el' < ts -> elStart el' ∈ placed.
Proof. intros H. apply Hplaced, li_start. by eapply list_elem_of_lookup_2. Qed.

(** A point that the event asks for: of a linearization through it, or of one that may end
    before it. *)
Definition asked (li : nat * Z) : Prop :=
  ∃ lin k, li.2 = Z.of_nat k ∧ lins !! li.1 = Some lin ∧ (k < length lin)%nat ∧
    (forall j g' el', (j <= k)%nat -> lin !! j = Some g' -> els !! g' = Some el' ->
      elStart el' ∈ placed) ∧
    (forall w' lp' p, feasible sorted w' lp' -> point lp' li.1 k = Some p -> p <= w' ts).

Lemma asked_through l z lin :
  0 <= z -> lins !! l = Some lin -> lin !! Z.to_nat z = Some g -> asked (l, z).
Proof.
  intros Hz Hlin Hg. exists lin, (Z.to_nat z). simpl. split_and!; [lia|done| | |].
  - by eapply lookup_lt_Some.
  - intros j g' el' Hj Hg' Hel'. eapply start_placed; [done|]. rewrite <- Hend.
    by eapply (li_order l lin j (Z.to_nat z)).
  - intros w' lp' p Hf Hp. destruct (f_box _ _ _ Hf l lin _ g el Hlin Hg Hel) as (q & Hq & ?).
    simplify_eq. lia.
Qed.

Lemma asked_ending ending l lin :
  eventIllegalLast tables !! g = Some ending -> l ∈ ending -> lins !! l = Some lin ->
  lin ≠ [] ∧ asked (l, Z.of_nat (length lin) - 1).
Proof.
  intros He Hl Hlin. destruct (li_ending g) as (ending' & He' & Hall); [by eapply lookup_lt_Some|].
  assert (ending' = ending) as -> by congruence.
  destruct (Hall l Hl) as (lin' & Hlin' & Hne & Hord). assert (lin' = lin) as -> by congruence.
  split; [done|]. exists lin, (pred (length lin)). destruct lin; [done|]. simpl.
  split_and!; [lia|done|lia| |].
  - intros j g' el' Hj Hg' Hel'. eapply start_placed; [done|]. rewrite <- Hend. by eapply Hord.
  - intros w' lp' p Hf Hp. destruct (f_illegal _ _ _ Hf g el ending l _ Hel He Hl Hlin)
      as (q & Hq & ?). simpl in Hq. assert (q = p) as -> by congruence.
    rewrite Hend in *. unfold EPSILON in *. lia.
Qed.

Lemma points_of_ok :
  ∃ pts, points_of tables g = Some pts ∧ Forall asked pts ∧
    (forall l lin k, lins !! l = Some lin -> lin !! k = Some g -> (l, Z.of_nat k) ∈ pts) ∧
    (forall ending l lin, eventIllegalLast tables !! g = Some ending -> l ∈ ending ->
      lins !! l = Some lin -> (l, Z.of_nat (pred (length lin))) ∈ pts).
Proof.
  pose proof (lookup_lt_Some _ _ _ Hel) as Hg.
  destruct (li_through g Hg) as (through & Hth & Hthrough).
  destruct (li_ending g Hg) as (ending & Hen & Hending). unfold points_of.
  rewrite Hth, Hen. simpl.
  set (f := λ index : nat, lin ← lins !! index; Some (index, Z.of_nat (length lin) - 1)).
  assert (Hf : exists ends, mapM f ending = Some ends).
  { apply mapM_is_Some_2, Forall_forall. intros l Hl. destruct (Hending l Hl) as (lin & Hlin & _).
    eexists. unfold f. simpl. rewrite Hlin. reflexivity. }
  destruct Hf as [ends Hends]. rewrite Hends. simpl. eexists. split; [done|].
  apply mapM_Some_1 in Hends as Hall.
  assert (Hask : forall l lin, l ∈ ending -> lins !! l = Some lin ->
    (l, Z.of_nat (pred (length lin))) ∈ ends ∧ asked (l, Z.of_nat (length lin) - 1)).
  { intros l lin Hl Hlin. destruct (asked_ending ending l lin Hen Hl Hlin) as [Hne Ha].
    split; [|done]. apply list_elem_of_lookup in Hl as [i Hi].
    destruct (Forall2_lookup_l _ _ _ _ _ Hall Hi) as (y & Hy & Hfy). unfold f in Hfy.
    rewrite Hlin in Hfy. injection Hfy as <-. destruct lin; [done|]. simpl in *.
    replace (Z.of_nat (length lin)) with (Z.pos (Pos.of_succ_nat (length lin)) - 1) by lia.
    by eapply list_elem_of_lookup_2. }
  split_and!.
  - apply Forall_app. split; apply Forall_forall.
    + intros [l z] Hin. apply Hthrough in Hin as (Hz & lin & Hlin & Hk). by eapply asked_through.
    + intros y Hy. apply list_elem_of_lookup in Hy as [i Hi].
      destruct (Forall2_lookup_r _ _ _ _ _ Hall Hi) as (l & Hl & Hfl). unfold f in Hfl.
      apply list_elem_of_lookup_2 in Hl as Hl'. destruct (Hending l Hl') as (lin & Hlin & _).
      rewrite Hlin in Hfl. injection Hfl as <-. by eapply Hask.
  - intros l lin k Hlin Hk. apply elem_of_app. left. apply Hthrough. split; [lia|].
    exists lin. by rewrite Nat2Z.id.
  - intros ending' l lin He Hl Hlin. assert (ending' = ending) as -> by congruence.
    apply elem_of_app. right. by eapply Hask.
Qed.

Lemma place_points_ok pts : forall st D,
  Forall asked pts -> step_inv st D ->
  ∃ st' D', foldl (λ o li, o ≫= λ st, place_point px els tables xp st li) (Some st) pts = Some st' ∧
    step_inv st' D' ∧ D ⊆ D' ∧ forall l k, (l, Z.of_nat k) ∈ pts -> Point l k ts 0 ∈ D'.
Proof.
  induction pts as [|[l z] pts IH]; intros st D Hpts Hst.
  { exists st, D. split_and!; [done..|]. intros l k []%elem_of_nil. }
  apply Forall_cons in Hpts as [(lin & k & Hz & Hlin & Hk & Hpl & Hfe) Hpts]. simpl in *. subst z.
  destruct (place_point_ok st D l lin k Hst Hlin Hk Hpl Hfe) as (st1 & H1 & Hst1).
  destruct (IH st1 _ Hpts Hst1) as (st2 & D2 & Hrun & Hst2 & Hsub & Hall).
  exists st2, D2. rewrite H1. split_and!; [done|done|set_solver|].
  intros l' k' [Heq|Hin]%elem_of_cons; [|by apply Hall]. injection Heq as -> Hkk.
  assert (k' = k) as -> by lia. set_solver.
Qed.

Lemma illegal_points_ok ending lps : forall pos D,
  eventIllegalLast tables !! g = Some ending -> step_inv (pos, lps) D ->
  (forall l lin, l ∈ ending -> lins !! l = Some lin -> Point l (pred (length lin)) ts 0 ∈ D) ->
  ∃ pos' D', foldl (λ o li, o ≫= λ pos, illegal_point px lps pos li) (Some pos) ending = Some pos' ∧
    step_inv (pos', lps) D' ∧ D ⊆ D' ∧ forall l lin, l ∈ ending -> lins !! l = Some lin ->
      Point l (pred (length lin)) ts EPS ∈ D'.
Proof.
  intros pos D Hen. assert (Hall : forall l, l ∈ ending -> ∃ lin, lins !! l = Some lin ∧ lin ≠ [] ∧
    forall w' lp' p, feasible sorted w' lp' -> point lp' l (pred (length lin)) = Some p ->
      p + EPS <= w' ts).
  { intros l Hl. destruct (li_ending g) as (e' & He' & Hall); [by eapply lookup_lt_Some|].
    assert (e' = ending) as -> by congruence. destruct (Hall l Hl) as (lin & Hlin & Hne & _).
    exists lin. split_and!; [done|done|]. intros w' lp' p Hf Hp.
    destruct (f_illegal _ _ _ Hf g el ending l lin Hel Hen Hl Hlin) as (q & Hq & ?).
    rewrite Hend in *. simplify_eq. lia. }
  clear Hen. revert pos D. induction ending as [|l ending IH]; intros pos D Hst Hin.
  { exists pos, D. split_and!; [done..|]. intros l lin []%elem_of_nil. }
  destruct (Hall l) as (lin & Hlin & Hne & Hfe); [by left|].
  destruct (illegal_point_ok pos lps D l lin Hst Hlin Hne) as (pos1 & H1 & Hst1);
    [apply Hin; [by left|done]|done|].
  destruct (IH ltac:(intros; apply Hall; by right) pos1 _ Hst1) as (pos2 & D2 & Hrun & Hst2 & Hsub & Hd).
  { intros l' lin' Hl' Hlin'. right. apply Hin; [by right|done]. }
  exists pos2, D2. cbn [foldl]. simpl. rewrite H1. split_and!; [done|done|set_solver|].
  intros l' lin' [->|Hl']%elem_of_cons Hlin'; [|by apply Hd]. simplify_eq. set_solver.
Qed.

Lemma place_event_ok st D :
  step_inv st D ->
  ∃ st' D', place_event px els tables xp st (box_of px text_width el) = Some st' ∧
    step_inv st' D' ∧ D ⊆ D' ∧ forall d, demanded d -> d ∈ D'.
Proof.
  intros (w & lp & -> & Hx & Hinv). unfold place_event. cbn [box_start box_gid box_of].
  assert (Hgid : elGid el = g) by (by eapply li_gid). rewrite Hgid.
  assert (Hin : el ∈ els) by (by eapply list_elem_of_lookup_2).
  assert (Hs : elStart el ∈ placed).
  { eapply start_placed; [exact Hel|]. rewrite <- Hend. by apply li_lt. }
  rewrite (Hx _ Hs). destruct points_of_ok as (pts & Hpts & Hask & Hthrough & Hends).
  rewrite Hpts. cbn [mbind option_bind].
  destruct (step_raise w lp D (w (elStart el) + width el) (Span (elStart el) ts (width el)))
    as (w1 & lp1 & Hst1 & Hx1 & Hinv1); [done|done| | |simpl; set_solver|].
  { intros w' lp' Hf. pose proof (f_text _ _ _ Hf el Hin) as Ht. rewrite Hend in Ht.
    pose proof (proj1 (si_least _ _ _ _ _ Hinv w' lp' Hf) (elStart el) ltac:(set_solver)). lia. }
  { intros w' Hw' Hle. simpl. rewrite Hw' by done. lia. }
  destruct (place_points_ok pts (nmax (Some (w ts)) (Some (w (elStart el) + width el)), nums lp) _
    Hask (ex_intro _ w1 (ex_intro _ lp1 (conj Hst1 (conj Hx1 Hinv1)))))
    as ([pos lps] & D2 & Hrun & Hst2 & Hsub & Hd2).
  change (nadd (Some (w (elStart el))) (box_width (box_of px text_width el)))
    with (Some (w (elStart el) + width el)).
  rewrite Hrun. cbn [mbind option_bind].
  destruct (li_ending g) as (ending & He & _); [by eapply lookup_lt_Some|]. rewrite He.
  cbn [mbind option_bind].
  destruct (illegal_points_ok ending lps pos D2 He Hst2) as (pos3 & D3 & Hrun3 & Hst3 & Hsub3 & Hd3).
  { intros l lin Hl Hlin. apply Hd2. by eapply Hends. }
  rewrite Hrun3. cbn [mbind option_bind]. exists (pos3, lps), D3. split_and!; [done|done|set_solver|].
  intros d [|l lin k Hlin Hk|ending' l lin He' Hl Hlin].
  - apply Hsub3, Hsub. left.
  - apply Hsub3, Hd2. by eapply Hthrough.
  - assert (ending' = ending) as -> by congruence. by apply Hd3.
Qed.
End Event.

(** The [while] loop takes the events that end at [ts], and leaves those that end later. *)
Lemma place_events_ok es : forall st D,
  (forall el, el ∈ es -> el ∈ els ∧ ts <= elEnd el) ->
  StronglySorted (λ a b, elEnd a <= elEnd b) es -> step_inv st D ->
  ∃ es1 es2 st' D', es = es1 ++ es2 ∧
    place_events px els tables xp ts st (box_of px text_width <$> es) =
      Some (st', box_of px text_width <$> es2) ∧
    step_inv st' D' ∧ D ⊆ D' ∧ (forall el, el ∈ es2 -> ts < elEnd el) ∧
    (forall el d, el ∈ es1 -> demanded (elGid el) el d -> d ∈ D' ∧ elEnd el = ts).
Proof.
  induction es as [|el es IH]; intros st D Hes Hs Hst.
  { exists [], [], st, D. split_and!; [done..| |]; [intros el []%elem_of_nil|
      intros el d []%elem_of_nil]. }
  apply StronglySorted_inv in Hs as [Hs Hle].
  destruct (Hes el ltac:(by left)) as [Hin Hge]. rewrite fmap_cons. cbn [place_events].
  change (box_end (box_of px text_width el)) with (elEnd el). case_decide as Hend.
  - assert (He : elEnd el = ts) by lia. apply list_elem_of_lookup in Hin as [g Hg].
    destruct (place_event_ok g el Hg He st D Hst) as (st1 & D1 & H1 & Hst1 & Hsub1 & Hd1).
    destruct (IH st1 D1 ltac:(intros; apply Hes; by right) Hs Hst1)
      as (es1 & es2 & st2 & D2 & -> & Hrun & Hst2 & Hsub2 & Hlt & Hd2).
    exists (el :: es1), es2, st2, D2. rewrite H1. split_and!; [done|done|done|set_solver|done|].
    intros el' d [->|Hel']%elem_of_cons Hd; [|by eapply Hd2].
    split; [|done]. apply Hsub2, Hd1. by rewrite <- (li_gid g el Hg).
  - exists [], (el :: es), st, D. split_and!; [done|done|done|done| |].
    + intros el' [->|Hel']%elem_of_cons; [lia|]. rewrite Forall_forall in Hle.
      specialize (Hle el' Hel'). lia.
    + intros el' d []%elem_of_nil.
Qed.
End Now.

(** A new timestamp starts a gap after the last one. *)
Lemma open_ts placed prev ts post w lp D :
  sorted = (placed ++ [prev]) ++ ts :: post -> scan_inv (placed ++ [prev]) [] w lp D ->
  ts ∉ placed ++ [prev] ->
  scan_inv (placed ++ [prev]) [ts] (upd w ts (w prev + GAP)) lp (Span prev ts GAP :: D).
Proof.
  intros Hsorted [Hpos Hch Hmet Hleast] Hnew.
  assert (Hsame : forall t, t ∈ placed ++ [prev] -> upd w ts (w prev + GAP) t = w t).
  { intros t Ht. apply upd_other. by intros ->. }
  rewrite app_nil_r in Hpos. split.
  - intros t [Hin| ->%list_elem_of_singleton]%elem_of_app; [rewrite Hsame by done; by apply Hpos|].
    rewrite upd_same. specialize (Hpos prev ltac:(set_solver)). unfold BOX_GAP. lia.
  - eapply Forall2_impl; [exact Hch|]. intros lin ps. apply chain_ext. intros t Ht.
    by rewrite Hsame.
  - intros d [->|Hd]%elem_of_cons.
    + simpl. rewrite upd_same, Hsame by set_solver. split; [lia|set_solver].
    + destruct (Hmet d Hd) as [Hm Hwi]. destruct d as [a b c|l k b c]; simpl in *;
        rewrite app_nil_r in Hwi; rewrite ?Hsame by tauto; split; try done; set_solver.
  - intros w' lp' Hf. destruct (Hleast w' lp' Hf) as [Ht Hb]. split; [|done].
    rewrite app_nil_r in Ht. intros t [Hin| ->%list_elem_of_singleton]%elem_of_app.
    { rewrite Hsame by done. by apply Ht. }
    rewrite upd_same. specialize (Ht prev ltac:(set_solver)).
    assert (w' prev + GAP <= w' ts); [|lia]. apply (f_gap _ _ _ Hf (length placed)).
    + rewrite Hsorted, <- app_assoc. by apply list_lookup_middle.
    + rewrite Hsorted. apply list_lookup_middle. rewrite length_app. simpl. lia.
Qed.

Lemma close_ts placed ts w lp D :
  scan_inv placed [ts] w lp D -> scan_inv (placed ++ [ts]) [] w lp D.
Proof.
  intros [Hpos Hch Hmet Hleast]. split; rewrite ?app_nil_r; [done| | |done].
  - eapply Forall2_impl; [exact Hch|]. intros lin ps [H1 H2 H3]. split; [done| |done].
    intros k g el p Hp Hg Hel. destruct (H2 k g el p Hp Hg Hel). split; [set_solver|done].
  - intros d Hd. destruct (Hmet d Hd) as [Hm Hwi]. split; [done|].
    destruct d; simpl in *; rewrite app_nil_r; set_solver.
Qed.

(** *** The whole scan *)

(** After the timestamps [placed], the elements of [before] being processed. *)
Record progress (placed : list Z) (before : list element) (D : list demand) : Prop := {
  pr_gaps : forall i a b, placed !! i = Some a -> placed !! S i = Some b -> Span a b GAP ∈ D;
  pr_events : forall el d, el ∈ before -> demanded (elEnd el) (elGid el) el d -> d ∈ D
}.

Lemma sorted_split placed ts post :
  sorted = placed ++ ts :: post -> (ts ∉ placed) ∧
  (forall t, t ∈ sorted -> t < ts -> t ∈ placed) ∧
  (forall t, t ∈ sorted -> t ∉ placed -> ts <= t) ∧ (forall t, t ∈ post -> ts < t).
Proof.
  intros Hs. pose proof li_sorted as Hss. rewrite Hs in Hss.
  apply StronglySorted_app in Hss as (Hlt & _ & Hpost).
  apply StronglySorted_inv in Hpost as [_ Hpost]. rewrite Forall_forall in Hpost.
  split_and!; [| |intros t|done].
  - intros Hin. specialize (Hlt ts ts Hin ltac:(by left)). lia.
  - intros t Ht Hlt'. rewrite Hs in Ht. apply elem_of_app in Ht as [|[->|Ht]%elem_of_cons];
      [done|lia|]. specialize (Hpost t Ht). lia.
  - intros Ht Hnot. rewrite Hs in Ht. apply elem_of_app in Ht as [|[->|Ht]%elem_of_cons];
      [done|lia|]. specialize (Hpost t Ht). lia.
Qed.

Lemma scan_loop_ok post : forall placed prev xp w lp D before es,
  sorted = (placed ++ [prev]) ++ post -> shows_x (placed ++ [prev]) xp w ->
  scan_inv (placed ++ [prev]) [] w lp D -> progress (placed ++ [prev]) before D ->
  els ≡ₚ before ++ es -> StronglySorted (λ a b, elEnd a <= elEnd b) es ->
  (forall el, el ∈ es -> elEnd el ∉ placed ++ [prev]) ->
  ∃ st' w' lp' D', scan_loop px els tables prev post
      (MkScan xp (nums lp) (box_of px text_width <$> es)) = Some st' ∧
    shows_x sorted (xPos st') w' ∧ linearizationPositions st' = nums lp' ∧
    scan_inv sorted [] w' lp' D' ∧ progress sorted els D'.
Proof.
  induction post as [|ts post IH]; intros placed prev xp w lp D before es Hs Hx Hinv Hpr Hp Hse Hnot.
  { rewrite app_nil_r in Hs. eexists _, w, lp, D. split; [done|]. rewrite Hs.
    split_and!; [done|done|done|]. destruct es as [|el es].
    { rewrite app_nil_r in Hp. destruct Hpr as [H1 H2]. split; [done|]. intros el d Hel.
      rewrite Hp in Hel. by apply H2. }
    exfalso. apply (Hnot el ltac:(by left)). rewrite <- Hs. apply li_end. rewrite Hp. set_solver. }
  destruct (sorted_split _ _ _ Hs) as (Hnew & Hpl & Hge & Hpost).
  pose proof (open_ts placed prev ts post w lp D Hs Hinv Hnew) as Hopen.
  set (w1 := upd w ts (w prev + GAP)) in *. set (pl := placed ++ [prev]) in *.
  assert (Hx1 : shows_x pl xp w1).
  { intros t Ht. unfold w1. rewrite upd_other by (by intros ->). by apply Hx. }
  destruct (place_events_ok pl ts Hnew xp Hpl es (Some (w1 ts), nums lp) (Span prev ts GAP :: D))
    as (es1 & es2 & st' & D' & -> & Hrun & Hst & Hsub & Hlt & Hd).
  - intros el Hel. assert (Hin : el ∈ els) by (rewrite Hp; set_solver). split; [done|].
    apply Hge; [by apply li_end|by apply Hnot].
  - done.
  - by exists w1, lp.
  - destruct Hst as (w2 & lp2 & -> & Hx2 & Hinv2).
    cbn [scan_loop xPos linearizationPositions events].
    rewrite (Hx prev) by (unfold pl; set_solver). cbn [nadd fmap option_fmap option_map].
    unfold w1 in Hrun. rewrite upd_same in Hrun. rewrite Hrun. cbn [mbind option_bind].
    apply (IH pl ts _ w2 lp2 D' (before ++ es1) es2).
    + by rewrite Hs, <- app_assoc.
    + intros t Ht. unfold x_at. destruct (decide (t = ts)) as [->|Hne].
      { by rewrite lookup_insert_eq. }
      rewrite lookup_insert_ne by congruence. apply Hx2. set_solver.
    + by apply close_ts.
    + destruct Hpr as [H1 H2]. split.
      * intros i a b Ha [Hb|[Hi Hb]]%lookup_app_Some.
        { apply Hsub. right. apply (H1 i a b); [|done]. rewrite lookup_app_l in Ha; [done|].
          apply lookup_lt_Some in Hb. lia. }
        apply list_lookup_singleton_Some in Hb as [Hi0 <-]. apply Hsub.
        rewrite lookup_app_l in Ha by lia. unfold pl in Ha, Hi, Hi0. rewrite length_app in Hi, Hi0.
        simpl in Hi, Hi0. rewrite list_lookup_middle in Ha by lia. simplify_eq. left.
      * intros el d [Hel|Hel]%elem_of_app Hdem; [apply Hsub; right; by eapply H2|].
        destruct (Hd el (Span (elStart el) ts (width el)) Hel) as [_ He]; [constructor|].
        rewrite He in Hdem. by eapply Hd.
    + by rewrite <- app_assoc.
    + apply StronglySorted_app in Hse. tauto.
    + intros el Hel [Hin|Hin%list_elem_of_singleton]%elem_of_app.
      * apply (Hnot el); [set_solver|done].
      * specialize (Hlt el Hel). lia.
Qed.

Lemma byEnd_elements :
  ∃ es, byEnd px text_width els = box_of px text_width <$> es ∧ els ≡ₚ es ∧
    StronglySorted (λ a b, elEnd a <= elEnd b) es.
Proof.
  pose proof (sort_by_perm box_end (box_of px text_width <$> els)) as Hperm.
  apply (Permutation_map_inv (box_of px text_width)) in Hperm as (es & Hes & Hp).
  exists es. split; [exact Hes|]. split; [done|].
  pose proof (sort_by_sorted box_end (box_of px text_width <$> els)) as Hs.
  rewrite Hes in Hs. clear -Hs. induction es as [|e es IH]; constructor.
  - apply IH. by apply StronglySorted_inv in Hs as [? _].
  - apply StronglySorted_inv in Hs as [_ Hs]. by apply (Forall_fmap (box_of px text_width)) in Hs.
Qed.

Lemma progress_feasible w lp D :
  scan_inv sorted [] w lp D -> progress sorted els D -> feasible sorted w lp.
Proof.
  intros [Hpos Hch Hmet _] [Hgap Hev].
  assert (Hm : forall d el g, els !! g = Some el -> demanded (elEnd el) g el d -> met w lp d).
  { intros d el g Hel Hd. apply Hmet. eapply (Hev el); [by eapply list_elem_of_lookup_2|].
    by rewrite (li_gid g el Hel). }
  assert (Hbox : forall l lin k g el, lins !! l = Some lin -> lin !! k = Some g ->
    els !! g = Some el -> ∃ p, point lp l k = Some p ∧ w (elStart el) <= p <= w (elEnd el)).
  { intros l lin k g el Hlin Hg Hel.
    destruct (Hm _ el g Hel (demand_box _ _ _ l lin k Hlin Hg)) as (p & Hp & Hle).
    exists p. split; [done|]. split; [|lia]. unfold point in Hp.
    apply bind_Some in Hp as (ps & Hps & Hp).
    pose proof (Forall2_lookup_lr _ _ _ _ _ _ Hch Hlin Hps) as Hc.
    by eapply (ch_start _ _ _ _ Hc k g el p). }
  split; rewrite ?app_nil_r in *; [done| | | |done| |].
  - intros i a b Ha Hb. apply (Hmet (Span a b GAP)). by eapply Hgap.
  - intros el Hel. apply list_elem_of_lookup in Hel as [g Hg].
    apply (Hm (Span (elStart el) (elEnd el) (width el)) el g Hg). constructor.
  - apply Forall2_same_length_lookup. split; [by eapply Forall2_length|].
    intros l lin ps Hlin Hps. pose proof (Forall2_lookup_lr _ _ _ _ _ _ Hch Hlin Hps) as Hc.
    apply Nat.le_antisymm; [|apply Hc]. destruct (decide (length lin <= length ps)%nat) as [|Hlt];
      [done|]. exfalso. destruct (lookup_lt_is_Some_2 lin (length ps)) as [g Hg]; [lia|].
    destruct (lookup_lt_is_Some_2 els g) as [el Hel].
    { eapply li_range; [exact Hlin|]. by eapply list_elem_of_lookup_2. }
    destruct (Hbox l lin _ g el Hlin Hg Hel) as (p & Hp & _). unfold point in Hp.
    rewrite Hps in Hp. simpl in Hp. apply lookup_lt_Some in Hp. lia.
  - intros l k p q Hp Hq. unfold point in *. apply bind_Some in Hp as (ps & Hps & Hp).
    rewrite Hps in Hq. simpl in Hq.
    destruct (Forall2_lookup_r _ _ _ _ _ Hch Hps) as (lin & _ & Hc). by eapply ch_apart.
  - intros g el ending l lin Hel He Hl Hlin.
    by apply (Hm (Point l (pred (length lin)) (elEnd el) EPS) el g Hel), (demand_illegal _ _ _ ending).
Qed.

(** The scan meets the constraints, and puts nothing further right than it has to. *)
Lemma solve_ok :
  ∃ st w lp, solve px text_width els tables sorted = Some st ∧ shows_x sorted (xPos st) w ∧
    linearizationPositions st = nums lp ∧ feasible sorted w lp ∧
    forall w' lp', feasible sorted w' lp' ->
      (forall t, t ∈ sorted -> w t <= w' t) ∧ all_below lp lp'.
Proof.
  assert (Hnil : nums (replicate (length lins) []) = replicate (length lins) []).
  { unfold nums. by rewrite fmap_replicate. }
  assert (Hch : forall placed w, Forall2 (chain placed w) lins (replicate (length lins) [])).
  { intros placed w. apply Forall2_same_length_lookup. split; [by rewrite length_replicate|].
    intros i lin ps _ [-> _]%lookup_replicate_1. split; simpl; [lia|done|done]. }
  assert (Hbelow : forall lp', all_below (replicate (length lins) []) lp').
  { intros lp' l k p p' Hp _. unfold point in Hp. apply bind_Some in Hp as (ps & Hps & Hp).
    apply lookup_replicate_1 in Hps as [-> _]. done. }
  destruct byEnd_elements as (es & Hes & Hp & Hse).
  assert (Hcase : sorted = [] ∨ ∃ ts post, sorted = ts :: post) by (destruct sorted; eauto).
  destruct Hcase as [Hsd|(ts & post & Hsd)].
  - assert (els = []) as Hels.
    { destruct els as [|el els'] eqn:He; [done|]. exfalso.
      assert (Hin : el ∈ els) by (rewrite He; left).
      pose proof (li_start el). rewrite He in *. set_solver. }
    eexists _, (λ _, 0), (replicate (length lins) []). split; [by rewrite Hsd|].
    split_and!; [rewrite Hsd; by intros t []%elem_of_nil|by rewrite Hnil| |].
    + apply (progress_feasible _ _ []); [|rewrite Hsd, Hels; split; [done|]; by intros el d []%elem_of_nil].
      rewrite Hsd. split; simpl; [by intros t []%elem_of_nil|done|by intros d []%elem_of_nil|].
      intros w' lp' _. split; [by intros t []%elem_of_nil|done].
    + intros w' lp' _. split; [|done]. rewrite Hsd. by intros t []%elem_of_nil.
  - destruct (scan_loop_ok post [] ts {[Some ts := Some 0]} (λ _, 0)
      (replicate (length lins) []) [] [] es) as (st' & w & lp & D & Hrun & Hx & Hl & Hinv & Hpr).
    + done.
    + intros t ->%list_elem_of_singleton. unfold x_at. by rewrite lookup_singleton_eq.
    + split; simpl; [lia|done|by intros d []%elem_of_nil|]. intros w' lp' Hf. split; [|done].
      intros t Ht. apply (f_positive _ _ _ Hf). rewrite Hsd. set_solver.
    + split; [|by intros el d []%elem_of_nil]. intros [|i] a b Ha Hb; done.
    + done.
    + done.
    + intros el Hel Heq%list_elem_of_singleton. assert (Hin : el ∈ els) by (by rewrite Hp).
      destruct (sorted_split [] ts post Hsd) as (_ & _ & Hge & _).
      pose proof (li_lt el Hin). specialize (Hge (elStart el) (li_start el Hin) ltac:(set_solver)).
      lia.
    + exists st', w, lp. split; [|split_and!; [done|done|by eapply progress_feasible|]].
      * rewrite Hnil, <- Hes in Hrun. rewrite <- Hrun. unfold solve. by rewrite Hsd.
      * intros w' lp' Hf. destruct (si_least _ _ _ _ _ Hinv w' lp' Hf) as [H1 H2].
        by rewrite app_nil_r in H1.
Qed.
End Problem.
End LayoutProof.
