(* ===== verification/LayoutInput.v ===== *)
(** * What [Layout] prepares for the scan

    The timestamps and the tweak of the ends, the tables of the linearization points, and the
    elements that could be next: on data that shows real-time orders they are what the scan of
    [LayoutProof] asks for ([LayoutInput]). *)
From S2P Require Import Prelude Visualization Layout LayoutProof.
Import Visualization Layout LayoutProof.

#[local] Open Scope Z_scope.

(** ** The data of a page *)

(** [lin] goes through operations of [hs], and in an order that their times allow. *)
Record lin_ok (hs : list historyElement) (lin : partialLinearization) : Prop := {
  lo_nonempty : lin ≠ [];
  lo_range : forall k, k ∈ indices lin -> 0 <= k < Z.of_nat (length hs);
  lo_order : forall i j a b ha hb, (i < j)%nat -> indices lin !! i = Some a ->
    indices lin !! j = Some b -> hs.[a] = Some ha -> hs.[b] = Some hb -> Start ha <= End_ hb;
  lo_closed : forall a b ha hb, a ∈ indices lin -> b ∉ indices lin ->
    hs.[a] = Some ha -> hs.[b] = Some hb -> Start ha <= End_ hb
}.

Record data_ok (data : list partitionVisualizationData) : Prop := {
  do_times : forall d he, d ∈ data -> he ∈ History d -> Start he <= End_ he;
  do_lins : forall d lin, d ∈ data -> lin ∈ PartialLinearizations d -> lin_ok (History d) lin
}.

Definition operations (data : list partitionVisualizationData) : list historyElement :=
  data ≫= History.

(** Every operation starts before the last timestamp. *)
Definition starts_before_last (data : list partitionVisualizationData) : Prop :=
  forall he, he ∈ operations data -> ∃ he', he' ∈ operations data ∧ Start he < End_ he'.

(** ** Sets and sorted timestamps *)

Lemma set_add_elem x y s : x ∈ set_add y s <-> x = y ∨ x ∈ s.
Proof. unfold set_add. case_decide; set_solver. Qed.

Lemma set_add_NoDup y s : NoDup s -> NoDup (set_add y s).
Proof.
  intros Hs. unfold set_add. case_decide; [done|]. apply NoDup_app.
  split_and!; [done|set_solver|apply NoDup_singleton].
Qed.

Lemma allTimestamps_spec els :
  NoDup (allTimestamps els) ∧
  forall t, t ∈ allTimestamps els <-> ∃ el, el ∈ els ∧ (t = elStart el ∨ t = elEnd el).
Proof.
  unfold allTimestamps. induction els as [|el els [Hnd Hin]] using rev_ind.
  { split; [constructor|]. set_solver. }
  rewrite foldl_app. simpl. split; [by repeat apply set_add_NoDup|].
  intros t. rewrite !set_add_elem, Hin. set_solver.
Qed.

Lemma startTimestamps_spec els t :
  t ∈ startTimestamps els <-> ∃ el, el ∈ els ∧ t = elStart el.
Proof.
  unfold startTimestamps. induction els as [|el els IH] using rev_ind; [set_solver|].
  rewrite foldl_app. simpl. rewrite set_add_elem, IH. set_solver.
Qed.

Lemma tweaked_timestamps_spec starts next els all :
  NoDup all -> NoDup (tweaked_timestamps starts next els all) ∧
  forall t, t ∈ tweaked_timestamps starts next els all <->
    t ∈ all ∨ ∃ el, el ∈ els ∧ tweaked starts next el = Some t.
Proof.
  intros Hall. unfold tweaked_timestamps.
  induction els as [|el els [Hnd Hin]] using rev_ind; [set_solver|].
  rewrite foldl_app. simpl. destruct (tweaked starts next el) as [e|] eqn:He.
  - split; [by apply set_add_NoDup|]. intros t. rewrite set_add_elem, Hin. set_solver.
  - split; [done|]. intros t. rewrite Hin. set_solver.
Qed.

Lemma sort_timestamps_sorted ts : NoDup ts -> StronglySorted Z.lt (sort_timestamps ts).
Proof.
  intros Hnd. pose proof (sort_by_sorted id ts) as Hs. fold (sort_timestamps ts) in Hs.
  assert (Hnd' : NoDup (sort_timestamps ts)) by (unfold sort_timestamps; by rewrite sort_by_perm).
  induction Hs as [|a l _ IH Ha]; constructor; apply NoDup_cons in Hnd' as [Hna Hnd']; [by apply IH|].
  rewrite Forall_forall in Ha |- *. intros b Hb. specialize (Ha b Hb). simpl in Ha.
  assert (a ≠ b) by (by intros ->). lia.
Qed.

Lemma sort_timestamps_elem ts t : t ∈ sort_timestamps ts <-> t ∈ ts.
Proof. unfold sort_timestamps. by rewrite sort_by_perm. Qed.

(** [nextTs] gives the next larger timestamp. *)
Definition is_next (l : list Z) (x n : Z) : Prop :=
  n ∈ l ∧ x < n ∧ forall z, z ∈ l -> x < z -> n <= z.

Lemma nextTs_spec l : forall m, StronglySorted Z.lt l -> forall x,
  (x ∈ l -> (∃ y, y ∈ l ∧ x < y) -> ∃ n, nextTs l m !! x = Some n ∧ is_next l x n) ∧
  (x ∉ l ∨ (forall y, y ∈ l -> y <= x) -> nextTs l m !! x = m !! x).
Proof.
  induction l as [|a l IH]; intros m Hs x; [set_solver|].
  apply StronglySorted_inv in Hs as [Hs Ha]. rewrite Forall_forall in Ha.
  destruct l as [|b l].
  { split; [|done]. intros ->%list_elem_of_singleton (y & ->%list_elem_of_singleton & ?). lia. }
  change (nextTs (a :: b :: l) m) with (nextTs (b :: l) (<[a := b]> m)).
  assert (Hab : a < b) by (apply Ha; left).
  assert (Hb : forall z, z ∈ b :: l -> b <= z).
  { intros z [->|Hz]%elem_of_cons; [lia|]. apply StronglySorted_inv in Hs as [_ Hs].
    rewrite Forall_forall in Hs. specialize (Hs z Hz). lia. }
  destruct (IH (<[a := b]> m) Hs x) as [H1 H2]. split.
  - intros [->|Hx]%elem_of_cons (y & Hy & Hxy).
    + exists b. rewrite H2, lookup_insert_eq. 2:{ left. intros Hin. specialize (Ha a Hin). lia. }
      split; [done|]. split_and!; [set_solver|done|]. intros z [->|Hz]%elem_of_cons; [lia|].
      intros _. by apply Hb.
    + assert (Hy' : y ∈ b :: l).
      { apply elem_of_cons in Hy as [->|]; [|done]. specialize (Ha x Hx). lia. }
      destruct (H1 Hx) as (n & Hn & Hin & Hlt & Hle); [by exists y|]. exists n. split; [done|].
      split_and!; [set_solver|done|]. intros z [->|Hz]%elem_of_cons; [|by apply Hle].
      specialize (Ha x Hx). lia.
  - intros Hx. assert (Hxa : x ≠ a).
    { intros ->. destruct Hx as [Hx|Hx]; [set_solver|]. specialize (Hx b ltac:(set_solver)). lia. }
    rewrite H2, lookup_insert_ne by (done || set_solver). done.
Qed.

Module Prepared.

(** ** Elements *)

Lemma number_elements_lookup hs : forall gid j,
  number_elements gid hs !! j = (λ he, MkElement (heClientId he) (2 * Start he) (2 * End_ he)
    (Description he) (2 * End_ he) (gid + j)) <$> (hs !! j).
Proof.
  induction hs as [|he hs IH]; intros gid [|j]; simpl; [done..| |].
  - by rewrite Nat.add_0_r.
  - rewrite IH. by replace (S gid + j)%nat with (gid + S j)%nat by lia.
Qed.

Lemma number_elements_length hs : forall gid, length (number_elements gid hs) = length hs.
Proof. induction hs as [|he hs IH]; intros gid; simpl; [done|]. by rewrite IH. Qed.

Lemma add_gids_lookup data : forall gid g el,
  byGid (add_gids gid data) !! g = Some el -> elGid el = (gid + g)%nat.
Proof.
  induction data as [|d data IH]; intros gid g el; [done|]. cbn [add_gids byGid mbind list_bind].
  simpl. intros [Hel|[Hge Hel]]%lookup_app_Some.
  - rewrite number_elements_lookup in Hel. by apply fmap_Some in Hel as (he & _ & ->).
  - rewrite number_elements_length in Hge, Hel. apply IH in Hel. lia.
Qed.

Lemma add_gids_elem data : forall gid p,
  p ∈ add_gids gid data -> ∃ d gid', d ∈ data ∧ p = MkPartition (number_elements gid' (History d))
    (PartialLinearizations d) (Largest d).
Proof.
  induction data as [|d data IH]; intros gid p Hp; simpl in Hp; [set_solver|].
  apply elem_of_cons in Hp as [->|Hp]; [exists d, gid; set_solver|].
  destruct (IH _ _ Hp) as (d' & g' & Hd & ->). exists d', g'. set_solver.
Qed.

Lemma byGid_tweak starts next ps :
  byGid (tweak_partition starts next <$> ps) = tweak starts next <$> byGid ps.
Proof.
  unfold byGid. induction ps as [|p ps IH]; [done|]. simpl. rewrite fmap_app. f_equal. exact IH.
Qed.

Lemma tweak_gid starts next el : elGid (tweak starts next el) = elGid el.
Proof. unfold tweak. by destruct (tweaked starts next el). Qed.

Lemma tweak_start starts next el : elStart (tweak starts next el) = elStart el.
Proof. unfold tweak. by destruct (tweaked starts next el). Qed.

Lemma tweak_end starts next el :
  elEnd (tweak starts next el) = default (elEnd el) (tweaked starts next el).
Proof. unfold tweak. by destruct (tweaked starts next el). Qed.

(** ** Timestamps *)
Section Times.
Context (data : list partitionVisualizationData).

Abbreviation els0 := (byGid (add_gids 0 data)).
Abbreviation all0 := (allTimestamps els0).
Abbreviation starts0 := (startTimestamps els0).
Abbreviation next0 := (nextTs (sort_timestamps all0) ∅).
Abbreviation tweak0 := (tweak starts0 next0).
Abbreviation sorted0 := (prepare data).2.

Lemma byGid_prepare : byGid (prepare data).1 = tweak0 <$> els0.
Proof. apply byGid_tweak. Qed.

Lemma els0_elem el :
  el ∈ els0 -> ∃ he, he ∈ operations data ∧ elStart el = 2 * Start he ∧ elEnd el = 2 * End_ he.
Proof.
  intros (p & Hel & Hp)%list_elem_of_bind.
  destruct (add_gids_elem _ _ _ Hp) as (d & gid & Hd & ->). simpl in Hel.
  apply list_elem_of_lookup in Hel as [j Hj]. rewrite number_elements_lookup in Hj.
  apply fmap_Some in Hj as (he & Hhe & ->). exists he. split; [|done].
  apply list_elem_of_bind. exists d. split; [by eapply list_elem_of_lookup_2|done].
Qed.

Lemma operations_elem he :
  he ∈ operations data ->
  ∃ el, el ∈ els0 ∧ elStart el = 2 * Start he ∧ elEnd el = 2 * End_ he.
Proof.
  unfold operations. generalize 0%nat as gid. induction data as [|d l IH]; intros gid Hhe; [set_solver|].
  simpl in Hhe. unfold byGid. simpl. apply elem_of_app in Hhe as [Hhe|Hhe].
  - apply list_elem_of_lookup in Hhe as [j Hj]. eexists. rewrite elem_of_app. split.
    { left. apply list_elem_of_lookup. exists j. by rewrite number_elements_lookup, Hj. }
    done.
  - destruct (IH (gid + length (History d))%nat Hhe) as (el & Hel & H1).
    exists el. rewrite elem_of_app. split; [by right|done].
Qed.

Lemma all0_even t : t ∈ all0 -> ∃ x, t = 2 * x.
Proof.
  intros (el & Hel & Ht)%(proj2 (allTimestamps_spec els0)).
  destruct (els0_elem el Hel) as (he & _ & H1 & H2). destruct Ht as [->| ->]; eauto.
Qed.

Lemma next0_spec x n : next0 !! x = Some n -> is_next (sort_timestamps all0) x n.
Proof.
  pose proof (nextTs_spec (sort_timestamps all0) ∅
    (sort_timestamps_sorted _ (proj1 (allTimestamps_spec els0))) x) as [H1 H2]. intros Hn.
  destruct (decide (x ∈ sort_timestamps all0)) as [Hx|Hx];
    [|by rewrite H2, lookup_empty in Hn by (by left)].
  destruct (decide (Exists (λ y, x < y) (sort_timestamps all0))) as [He|He].
  - apply Exists_exists in He as (y & Hy & Hxy). destruct (H1 Hx) as (n' & Hn' & His); [eauto|].
    by simplify_eq.
  - rewrite H2, lookup_empty in Hn; [done|]. right. intros y Hy.
    destruct (decide (y <= x)) as [|Hlt]; [done|]. exfalso. apply He, Exists_exists.
    exists y. split; [done|lia].
Qed.

(** A tweaked end lies strictly between the end and the next timestamp. *)
Lemma tweaked_between el e :
  el ∈ els0 -> tweaked starts0 next0 el = Some e ->
  elEnd el < e ∧ forall t, t ∈ all0 -> elEnd el < t -> e < t.
Proof.
  intros Hel He. unfold tweaked in He. case_decide; [|done].
  apply fmap_Some in He as (n & Hn & ->). apply next0_spec in Hn as (Hin & Hlt & Hle).
  rewrite sort_timestamps_elem in Hin. destruct (all0_even n Hin) as [y ->].
  destruct (els0_elem el Hel) as (he & _ & _ & Hend). rewrite Hend in *.
  replace (2 * End_ he + 2 * y) with ((End_ he + y) * 2) by lia. rewrite Z.div_mul by lia.
  split; [lia|]. intros t Ht Hlt'. rewrite <- sort_timestamps_elem in Ht.
  specialize (Hle t Ht Hlt'). lia.
Qed.

Lemma tweak_end_le el : el ∈ els0 -> elEnd el <= elEnd (tweak0 el).
Proof.
  intros Hel. rewrite tweak_end. destruct (tweaked starts0 next0 el) as [e|] eqn:He; simpl; [|lia].
  pose proof (proj1 (tweaked_between el e Hel He)). lia.
Qed.

Lemma tweak_end_lt el t : el ∈ els0 -> t ∈ all0 -> elEnd el < t -> elEnd (tweak0 el) < t.
Proof.
  intros Hel Ht Hlt. rewrite tweak_end.
  destruct (tweaked starts0 next0 el) as [e|] eqn:He; simpl; [|done].
  by apply (proj2 (tweaked_between el e Hel He)).
Qed.

Context (Hlast : starts_before_last data).

Lemma tweak_end_start el b :
  el ∈ els0 -> b ∈ els0 -> elStart b = elEnd el -> elEnd el < elEnd (tweak0 el).
Proof.
  intros Hel Hb Heq. rewrite tweak_end. pose proof (allTimestamps_spec els0) as [Hnd Hall].
  assert (Hst : elEnd el ∈ starts0) by (apply startTimestamps_spec; eauto).
  destruct (tweaked starts0 next0 el) as [e|] eqn:He; simpl.
  { apply (tweaked_between el e Hel He). }
  exfalso. unfold tweaked in He. rewrite decide_True in He by done.
  destruct (els0_elem b Hb) as (hb & Hhb & Hs & _).
  destruct (Hlast hb Hhb) as (hc & Hhc & Hlt). destruct (operations_elem hc Hhc) as (c & Hc & _ & Hce).
  destruct (proj1 (nextTs_spec (sort_timestamps all0) ∅ (sort_timestamps_sorted _ Hnd) (elEnd el)))
    as (n & Hn & _).
  - apply sort_timestamps_elem, Hall. eauto.
  - exists (elEnd c). rewrite sort_timestamps_elem, Hall. split; [eauto|lia].
  - by rewrite Hn in He.
Qed.

(** The order that the page shows is the order of the histories. *)
Lemma tweak_order a b :
  a ∈ els0 -> b ∈ els0 -> elStart b < elEnd (tweak0 a) <-> elStart b <= elEnd a.
Proof.
  intros Ha Hb. split.
  - intros Hlt. destruct (decide (elStart b <= elEnd a)) as [|Hn]; [done|]. exfalso.
    destruct (allTimestamps_spec els0) as [_ Hall].
    assert (Hin : elStart b ∈ all0) by (apply Hall; eauto).
    pose proof (tweak_end_lt a (elStart b) Ha Hin ltac:(lia)). lia.
  - intros Hle. pose proof (tweak_end_le a Ha). destruct (decide (elStart b = elEnd a)) as [Heq|];
      [|lia]. pose proof (tweak_end_start a b Ha Hb Heq). lia.
Qed.

Lemma sorted0_spec :
  StronglySorted Z.lt sorted0 ∧ forall el, el ∈ els0 -> elStart el ∈ sorted0 ∧ elEnd (tweak0 el) ∈ sorted0.
Proof.
  pose proof (allTimestamps_spec els0) as [Hnd Hall].
  pose proof (tweaked_timestamps_spec starts0 next0 els0 all0 Hnd) as [Hnd' Hall'].
  split; [by apply sort_timestamps_sorted|]. intros el Hel.
  change sorted0 with (sort_timestamps (tweaked_timestamps starts0 next0 els0 all0)).
  rewrite !sort_timestamps_elem, !Hall', tweak_end. split; [left; apply Hall; eauto|].
  destruct (tweaked starts0 next0 el) as [e|] eqn:He; simpl; [eauto|left; apply Hall; eauto].
Qed.
End Times.

(** ** The tables of the linearization points *)

(** A linearization with the elements of its partition. *)
Abbreviation shown_lin := (list element * partialLinearization)%type.

Definition pairs (ps : list partition) : list shown_lin :=
  ps ≫= λ p, (λ lin, (elements p, lin)) <$> linearizations p.

Definition step_gid (els : list element) (s : linearizationStep) (g : nat) : Prop :=
  ∃ el, els.[Index s] = Some el ∧ elGid el = g.

Definition in_range (x : shown_lin) : Prop :=
  forall s, s ∈ x.2 -> 0 <= Index s < Z.of_nat (length x.1).

Lemma globalize_ok els lgid lin : forall pos e2l,
  in_range (els, lin) ->
  ∃ gids e2l', globalize els lgid pos lin e2l = Some (gids, e2l') ∧
    Forall2 (step_gid els) lin gids ∧
    forall g th, e2l !! g = Some th -> ∃ th', e2l' !! g = Some th' ∧
      forall x, x ∈ th' <-> x ∈ th ∨ ∃ k, gids !! k = Some g ∧ x = (lgid, pos + Z.of_nat k).
Proof.
  induction lin as [|s lin IH]; intros pos e2l Hr; simpl.
  { exists [], e2l. split_and!; [done|constructor|]. intros g th Hg. exists th. split; [done|].
    intros x. split; [by left|]. by intros [|(k & ? & _)]. }
  assert (Hs : 0 <= Index s < Z.of_nat (length els)) by (apply (Hr s); left).
  unfold slice_get. rewrite decide_True by lia.
  destruct (lookup_lt_is_Some_2 els (Z.to_nat (Index s))) as [el Hel]; [lia|]. rewrite Hel. simpl.
  destruct (IH (pos + 1) (alter (λ l, l ++ [(lgid, pos)]) (elGid el) e2l)) as
    (gids & e2l' & Hrun & Hg2 & Hall); [intros s' Hs'; apply (Hr s'); by right|].
  rewrite Hrun. simpl. eexists _, _. split; [done|]. split.
  { constructor; [|done]. exists el. unfold slice_get. by rewrite decide_True by lia. }
  intros g th Hg. destruct (decide (elGid el = g)) as [<-|Hne].
  - destruct (Hall (elGid el) (th ++ [(lgid, pos)])) as (th' & Hth' & Hin).
    { rewrite list_lookup_alter_eq, Hg. done. }
    exists th'. split; [done|]. intros x. rewrite Hin, elem_of_app, list_elem_of_singleton. split.
    + intros [[?| ->]|(k & Hk & ->)]; [by left|right; exists 0%nat|right; exists (S k)].
      * simpl. by rewrite Z.add_0_r.
      * split; [done|]. f_equal. lia.
    + intros [?|([|k] & Hk & ->)]; [by do 2 left|left; right; by rewrite Z.add_0_r|].
      right. exists k. split; [done|]. f_equal. lia.
  - destruct (Hall g th) as (th' & Hth' & Hin); [by rewrite list_lookup_alter_ne|].
    exists th'. split; [done|]. intros x. rewrite Hin. split.
    + intros [?|(k & Hk & ->)]; [by left|]. right. exists (S k). split; [done|]. f_equal. lia.
    + intros [?|([|k] & Hk & ->)]; [by left|simpl in Hk; congruence|]. right. exists k.
      split; [done|]. f_equal. lia.
Qed.

Lemma push_illegal_ok lgid es : forall e2i g en,
  e2i !! g = Some en -> ∃ en', foldl (push_illegal lgid) e2i es !! g = Some en' ∧
    forall l, l ∈ en' <-> l ∈ en ∨ l = lgid ∧ ∃ el, el ∈ es ∧ elGid el = g.
Proof.
  induction es as [|el es IH]; intros e2i g en Hg; simpl.
  { exists en. split; [done|]. set_solver. }
  unfold push_illegal at 2. destruct (decide (elGid el = g)) as [<-|Hne].
  - destruct (IH (alter (λ l, l ++ [lgid]) (elGid el) e2i) (elGid el) (en ++ [lgid]))
      as (en' & Hen' & Hin); [by rewrite list_lookup_alter_eq, Hg|].
    exists en'. split; [done|]. intros l. rewrite Hin. set_solver.
  - destruct (IH (alter (λ l, l ++ [lgid]) (elGid el) e2i) g en) as (en' & Hen' & Hin);
      [by rewrite list_lookup_alter_ne|].
    exists en'. split; [done|]. intros l. rewrite Hin. set_solver.
Qed.

Record tables_ok (n : nat) (seen : list shown_lin) (st : lp_tables) : Prop := {
  to_all : Forall2 (λ x gids, Forall2 (step_gid x.1) x.2 gids) seen (allLinearizations st);
  to_through : forall g, (g < n)%nat -> ∃ th, eventToLinearizations st !! g = Some th ∧
    forall l z, (l, z) ∈ th <-> 0 <= z ∧ ∃ gids, allLinearizations st !! l = Some gids ∧
      gids !! Z.to_nat z = Some g;
  to_ending : forall g, (g < n)%nat -> ∃ en, eventIllegalLast st !! g = Some en ∧
    forall l, l ∈ en <-> ∃ x ie, seen !! l = Some x ∧ ie ∈ illegal_next x.2 x.1 ∧ elGid ie.2 = g
}.

Lemma tables_ok_empty n : tables_ok n [] (empty_lp_tables n).
Proof.
  split; [constructor|..]; intros g Hg; exists []; (split; [by apply lookup_replicate_2|]); intros l.
  - intros z. split; [by intros ?%elem_of_nil|]. by intros (_ & gids & Hl & _).
  - split; [by intros ?%elem_of_nil|]. by intros (x & ie & Hx & _).
Qed.

Lemma add_linearization_ok n seen st els lin :
  tables_ok n seen st -> in_range (els, lin) ->
  ∃ st', add_linearization els st lin = Some st' ∧ tables_ok n (seen ++ [(els, lin)]) st'.
Proof.
  intros [Hall Hth Hen] Hr. pose proof (Forall2_length _ _ _ Hall) as Hlen. unfold add_linearization.
  destruct (globalize_ok els (length (allLinearizations st)) lin 0 (eventToLinearizations st) Hr)
    as (gids & e2l & Hrun & Hg2 & Hin).
  rewrite Hrun. simpl. eexists. split; [done|]. split; simpl.
  - apply Forall2_app; [done|]. by constructor.
  - intros g Hg. destruct (Hth g Hg) as (th & Hthg & Hiff). destruct (Hin g th Hthg) as (th' & Hth' & Hin').
    exists th'. split; [done|]. intros l z. rewrite Hin', Hiff. split.
    + intros [(Hz & q & Hq & Hqz)|(k & Hk & [= -> ->])].
      * split; [done|]. exists q. split; [by apply lookup_app_l_Some|done].
      * split; [lia|]. exists gids.
        replace (Z.to_nat (0 + Z.of_nat k)) with k by lia. split; [by apply list_lookup_middle|done].
    + intros (Hz & q & [Hq|[Hl Hq]]%lookup_app_Some & Hqz); [left; eauto|].
      apply list_lookup_singleton_Some in Hq as [Hl0 <-]. right. exists (Z.to_nat z).
      split; [done|]. f_equal; lia.
  - intros g Hg. destruct (Hen g Hg) as (en & Heng & Hiff).
    destruct (push_illegal_ok (length (allLinearizations st)) (snd <$> illegal_next lin els)
      _ _ _ Heng) as (en' & Hen' & Hin'). exists en'. split; [done|]. intros l. rewrite Hin', Hiff. split.
    + intros [(x & ie & Hx & Hie)|(-> & el & (ie & -> & Hie)%list_elem_of_fmap & Hel)].
      * exists x, ie. split; [by apply lookup_app_l_Some|done].
      * exists (els, lin), ie. split; [by apply list_lookup_middle|done].
    + intros (x & ie & [Hx|[Hl Hx]]%lookup_app_Some & Hie); [left; eauto|].
      apply list_lookup_singleton_Some in Hx as [Hl0 <-]. right. split; [lia|].
      exists ie.2. destruct Hie as [Hie Hieg]. split; [by apply (list_elem_of_fmap_2 snd)|done].
Qed.

Lemma lp_tables_of_pairs ps st :
  foldl (λ o p, o ≫= λ st, add_linearizations st p) st ps =
  foldl (λ o (x : shown_lin), o ≫= λ st, add_linearization x.1 st x.2) st (pairs ps).
Proof.
  revert st. induction ps as [|p ps IH]; intros st; [done|]. unfold pairs. simpl.
  rewrite foldl_app, IH. f_equal. unfold add_linearizations. generalize (linearizations p) as ls.
  assert (Hnone : forall ls : list shown_lin,
    foldl (λ o x, o ≫= λ st, add_linearization x.1 st x.2) None ls = None).
  { by induction ls. }
  intros ls. destruct st as [st|]; simpl; [|by rewrite Hnone]. revert st.
  induction ls as [|l ls IHl]; intros st; [done|]. simpl.
  destruct (add_linearization (elements p) st l) as [st'|]; [apply IHl|]. rewrite Hnone.
  clear IHl. by induction ls.
Qed.

Lemma lp_tables_of_ok ps :
  Forall in_range (pairs ps) ->
  ∃ st, lp_tables_of ps = Some st ∧ tables_ok (length (byGid ps)) (pairs ps) st.
Proof.
  unfold lp_tables_of. rewrite lp_tables_of_pairs. generalize (length (byGid ps)) as n.
  intros n. generalize (pairs ps) as xs. induction xs as [|[els lin] xs IH] using rev_ind; intros Hr.
  { eexists. split; [done|]. apply tables_ok_empty. }
  apply Forall_app in Hr as [Hr Hx]. apply Forall_cons in Hx as [Hx _].
  destruct (IH Hr) as (st & Hst & Hok).
  destruct (add_linearization_ok n xs st els lin Hok Hx) as (st' & Hst' & Hok').
  exists st'. split; [|done]. by rewrite foldl_app, Hst.
Qed.

(** ** The elements that could be next *)

Lemma min_end_below rest x :
  below x (min_end rest) <-> forall ie, ie ∈ rest -> x < elEnd ie.2.
Proof.
  unfold min_end. induction rest as [|ie rest IH] using rev_ind; [split; [set_solver|done]|].
  rewrite foldl_app. simpl. setoid_rewrite elem_of_app. setoid_rewrite list_elem_of_singleton.
  destruct (foldl _ None rest) as [m|] eqn:Hm; simpl in *.
  - split.
    + intros Hlt ie' [Hin| ->]; [apply IH; [lia|done]|lia].
    + intros Hall. assert (x < m) by (apply IH; auto). specialize (Hall ie (or_intror eq_refl)). lia.
  - split; [|intros Hall; apply Hall; by right].
    intros Hlt ie' [Hin| ->]; [|done]. by apply IH.
Qed.

Lemma not_included_elem lin els j el :
  (j, el) ∈ not_included lin els <-> els !! j = Some el ∧ Z.of_nat j ∉ indices lin.
Proof.
  unfold not_included. rewrite list_elem_of_filter. simpl. split.
  - intros [Hj Hin]. split; [|done]. apply list_elem_of_lookup in Hin as [i Hi].
    rewrite list_lookup_imap in Hi. apply fmap_Some in Hi as (el' & Hel & [= -> ->]). done.
  - intros [Hel Hj]. split; [done|]. apply list_elem_of_lookup. exists j.
    by rewrite list_lookup_imap, Hel.
Qed.

Lemma illegal_next_elem lin els j el :
  (j, el) ∈ illegal_next lin els <-> els !! j = Some el ∧ (Z.of_nat j ∉ indices lin) ∧
    forall j' el', els !! j' = Some el' -> Z.of_nat j' ∉ indices lin -> elStart el < elEnd el'.
Proof.
  unfold illegal_next. rewrite list_elem_of_filter, not_included_elem, min_end_below. simpl. split.
  - intros (Hall & Hel & Hj). split_and!; [done..|]. intros j' el' Hel' Hj'.
    apply (Hall (j', el')). by apply not_included_elem.
  - intros (Hel & Hj & Hall). split_and!; [|done..]. intros [j' el'] Hin.
    apply not_included_elem in Hin as [? ?]. by eapply Hall.
Qed.

(** ** The input of the scan *)
Section Input.
Context (data : list partitionVisualizationData) (Hdata : data_ok data).

Abbreviation ps1 := (prepare data).1.
Abbreviation els1 := (byGid ps1).
Abbreviation sorted1 := (prepare data).2.
Abbreviation starts1 := (startTimestamps (byGid (add_gids 0 data))).
Abbreviation next1 :=
  (nextTs (sort_timestamps (allTimestamps (byGid (add_gids 0 data)))) ∅).

(** An element of the page, with the operation that it shows. *)
Definition shows_op (el : element) (he : historyElement) : Prop :=
  ∃ el0, el0 ∈ byGid (add_gids 0 data) ∧ el = tweak starts1 next1 el0 ∧
    elStart el0 = 2 * Start he ∧ elEnd el0 = 2 * End_ he.

Lemma els1_gid g el : els1 !! g = Some el -> elGid el = g.
Proof.
  rewrite byGid_prepare, list_lookup_fmap. intros (el0 & Hel0 & ->)%fmap_Some.
  rewrite tweak_gid. by apply add_gids_lookup in Hel0.
Qed.

Lemma els1_elem el : el ∈ els1 -> els1 !! elGid el = Some el.
Proof. intros [g Hg]%list_elem_of_lookup. by rewrite (els1_gid g el Hg). Qed.

Lemma els1_op el : el ∈ els1 -> ∃ he, he ∈ operations data ∧ shows_op el he.
Proof.
  rewrite byGid_prepare. intros (el0 & -> & Hel0)%list_elem_of_fmap.
  destruct (els0_elem data el0 Hel0) as (he & Hhe & H1 & H2). exists he. split; [done|].
  by exists el0.
Qed.

Lemma add_gids_at l : forall gid i,
  add_gids gid l !! i = None ∧ l !! i = None ∨
  ∃ d gid', l !! i = Some d ∧ add_gids gid l !! i = Some (MkPartition
    (number_elements gid' (History d)) (PartialLinearizations d) (Largest d)).
Proof.
  induction l as [|d l IH]; intros gid [|i]; simpl; [by left|by left| |apply IH].
  right. by exists d, gid.
Qed.

(** The partitions of the page are those of the data, in their order, and so are the
    operations of a partition. *)
Lemma prepare_lookup i p :
  ps1 !! i = Some p -> ∃ d, data !! i = Some d ∧ linearizations p = PartialLinearizations d ∧
    largest p = Largest d ∧ length (elements p) = length (History d) ∧
    forall j el, elements p !! j = Some el -> el ∈ els1 ∧
      ∃ he, History d !! j = Some he ∧ shows_op el he.
Proof.
  intros Hp0. pose proof Hp0 as Hp.
  change ps1 with (tweak_partition starts1 next1 <$> add_gids 0 data) in Hp.
  rewrite list_lookup_fmap in Hp. destruct (add_gids_at data 0 i) as [[Hn _]|(d & gid & Hd & Ha)].
  { by rewrite Hn in Hp. }
  rewrite Ha in Hp. injection Hp as Hp. exists d. rewrite <- Hp. simpl.
  split_and!; [done|done|done|by rewrite length_fmap, number_elements_length|].
  intros j el Hj. split.
  { apply list_elem_of_bind. exists p. split; [|by eapply list_elem_of_lookup_2].
    rewrite <- Hp. by eapply list_elem_of_lookup_2. }
  rewrite list_lookup_fmap in Hj. apply fmap_Some in Hj as (el0 & Hj & ->).
  pose proof Hj as Hj0. rewrite number_elements_lookup in Hj. apply fmap_Some in Hj as (he & Hhe & ->).
  exists he. split; [done|]. eexists. split; [|done]. apply list_elem_of_bind.
  eexists. split; [|by eapply list_elem_of_lookup_2]. by eapply list_elem_of_lookup_2.
Qed.

Lemma partition_elements p :
  p ∈ ps1 -> ∃ d, d ∈ data ∧ linearizations p = PartialLinearizations d ∧
    length (elements p) = length (History d) ∧
    forall j el, elements p !! j = Some el -> el ∈ els1 ∧
      ∃ he, History d !! j = Some he ∧ shows_op el he.
Proof.
  intros [i Hi]%list_elem_of_lookup.
  destruct (prepare_lookup i p Hi) as (d & Hd & H1 & _ & H2 & H3). exists d.
  split_and!; [by eapply list_elem_of_lookup_2|done..].
Qed.

Lemma prepare_length : length ps1 = length data.
Proof.
  change ps1 with (tweak_partition starts1 next1 <$> add_gids 0 data). rewrite length_fmap.
  clear Hdata. generalize 0%nat as gid. induction data as [|d l IH]; intros gid; simpl; [done|].
  by rewrite IH.
Qed.

Lemma prepare_lookup_data i d : data !! i = Some d -> is_Some (ps1 !! i).
Proof.
  intros Hd. change ps1 with (tweak_partition starts1 next1 <$> add_gids 0 data).
  rewrite list_lookup_fmap. destruct (add_gids_at data 0 i) as [[_ Hn]|(d' & gid & _ & ->)];
    [congruence|by eexists].
Qed.

(** The elements and the linearization of [x] are those of [d]. *)
Record shown_in (x : shown_lin) (d : partitionVisualizationData) : Prop := {
  sh_data : d ∈ data;
  sh_lin : x.2 ∈ PartialLinearizations d;
  sh_length : length x.1 = length (History d);
  sh_elements : forall j el, x.1 !! j = Some el -> el ∈ els1 ∧
    ∃ he, History d !! j = Some he ∧ shows_op el he
}.

Lemma pairs_lin x : x ∈ pairs ps1 -> ∃ d, shown_in x d.
Proof.
  intros (p & (lin & -> & Hlin)%list_elem_of_fmap & Hp)%list_elem_of_bind.
  destruct (partition_elements p Hp) as (d & Hd & Hl & Hlen & Hall). exists d.
  split; simpl; [done|by rewrite <- Hl|done|done].
Qed.

Lemma pairs_in_range : Forall in_range (pairs ps1).
Proof.
  apply Forall_forall. intros x Hx. destruct (pairs_lin x Hx) as [d [Hd Hlin Hlen _]].
  intros s Hs. rewrite Hlen. apply (lo_range _ _ (do_lins _ Hdata d x.2 Hd Hlin)).
  by apply list_elem_of_fmap_2.
Qed.

(** The step number [j] of a linearization, its element and its operation. *)
Lemma step_op x d gids j g el :
  shown_in x d -> Forall2 (step_gid x.1) x.2 gids -> gids !! j = Some g -> els1 !! g = Some el ->
  ∃ s he, x.2 !! j = Some s ∧ (History d).[Index s] = Some he ∧ shows_op el he.
Proof.
  intros Hx Hg2 Hg Hel.
  destruct (Forall2_lookup_r _ _ _ _ _ Hg2 Hg) as (s & Hs & el' & Hel' & Hgid).
  unfold slice_get in *. case_decide as Hpos; [|done].
  destruct (sh_elements _ _ Hx _ _ Hel') as [Hin (he & Hhe & Hop)]. exists s, he.
  rewrite decide_True by done.
  assert (el' = el) as ->; [|done]. apply els1_elem in Hin. rewrite Hgid in Hin. congruence.
Qed.

Context (Hlast : starts_before_last data).

Lemma shows_order a b ha hb :
  shows_op a ha -> shows_op b hb -> elStart b < elEnd a <-> Start hb <= End_ ha.
Proof.
  intros (a0 & Ha & -> & Ha1 & Ha2) (b0 & Hb & -> & Hb1 & Hb2).
  rewrite tweak_start, (tweak_order data Hlast a0 b0 Ha Hb). lia.
Qed.

Lemma op_times el : el ∈ els1 -> elStart el < elEnd el.
Proof.
  intros Hel. destruct (els1_op el Hel) as (he & Hhe & Hop). apply (shows_order _ _ _ _ Hop Hop).
  apply list_elem_of_bind in Hhe as (d & Hhe & Hd). by apply (do_times _ Hdata d).
Qed.

Section Tables.
Context (tables : lp_tables) (Hok : tables_ok (length els1) (pairs ps1) tables).

Lemma lins_pair l gids :
  allLinearizations tables !! l = Some gids ->
  ∃ x d, pairs ps1 !! l = Some x ∧ shown_in x d ∧ Forall2 (step_gid x.1) x.2 gids ∧
    lin_ok (History d) x.2.
Proof.
  intros Hl. destruct (Forall2_lookup_r _ _ _ _ _ (to_all _ _ _ Hok) Hl) as (x & Hx & Hg2).
  destruct (pairs_lin x) as [d Hd]; [by eapply list_elem_of_lookup_2|]. exists x, d.
  split_and!; [done..|]. apply (do_lins _ Hdata); apply Hd.
Qed.

Lemma input_order l gids j k g g' el el' :
  allLinearizations tables !! l = Some gids -> (j <= k)%nat ->
  gids !! j = Some g -> gids !! k = Some g' -> els1 !! g = Some el -> els1 !! g' = Some el' ->
  elStart el < elEnd el'.
Proof.
  intros Hl Hjk Hg Hg' Hel Hel'. destruct (decide (j = k)) as [->|Hne].
  { simplify_eq. apply op_times. by eapply list_elem_of_lookup_2. }
  destruct (lins_pair l gids Hl) as (x & d & Hx & Hd & Hg2 & Hlin).
  destruct (step_op x d gids j g el Hd Hg2 Hg Hel) as (s & he & Hs & Hhe & Hop).
  destruct (step_op x d gids k g' el' Hd Hg2 Hg' Hel') as (s' & he' & Hs' & Hhe' & Hop').
  apply (shows_order _ _ _ _ Hop' Hop).
  apply (lo_order _ _ Hlin j k (Index s) (Index s')); [lia| | |done|done];
    unfold indices; rewrite list_lookup_fmap; [by rewrite Hs|by rewrite Hs'].
Qed.

(** An operation that could be next ends after the start of every operation before it. *)
Lemma input_ending l gids x ie j g el :
  allLinearizations tables !! l = Some gids -> pairs ps1 !! l = Some x ->
  ie ∈ illegal_next x.2 x.1 -> gids !! j = Some g -> els1 !! g = Some el ->
  elStart el < elEnd ie.2.
Proof.
  intros Hl Hx Hie Hg Hel. destruct ie as [i el']. apply illegal_next_elem in Hie as (Hi & Hni & _).
  destruct (lins_pair l gids Hl) as (x' & d & Hx' & Hd & Hg2 & Hlin).
  assert (x' = x) as -> by congruence.
  destruct (step_op x d gids j g el Hd Hg2 Hg Hel) as (s & he & Hs & Hhe & Hop).
  destruct (sh_elements _ _ Hd _ _ Hi) as [_ (he' & Hhe' & Hop')].
  apply (shows_order _ _ _ _ Hop' Hop).
  apply (lo_closed _ _ Hlin (Index s) (Z.of_nat i)); [|done|done|by rewrite slice_get_nat].
  apply (list_elem_of_fmap_2 Index). by eapply list_elem_of_lookup_2.
Qed.

Lemma els1_times el : el ∈ els1 -> elStart el ∈ sorted1 ∧ elEnd el ∈ sorted1.
Proof.
  rewrite byGid_prepare. intros (el0 & -> & Hel0)%list_elem_of_fmap. rewrite tweak_start.
  by apply sorted0_spec.
Qed.

Lemma layout_input : LayoutInput els1 tables sorted1.
Proof.
  split.
  - apply sorted0_spec.
  - apply els1_gid.
  - intros el Hel. by apply els1_times.
  - intros el Hel. by apply els1_times.
  - apply op_times.
  - intros l gids g Hl Hg. destruct (lins_pair l gids Hl) as (x & d & _ & Hd & Hg2 & _).
    apply list_elem_of_lookup in Hg as [j Hj].
    destruct (Forall2_lookup_r _ _ _ _ _ Hg2 Hj) as (s & _ & el & Hel & <-).
    unfold slice_get in Hel. case_decide; [|done].
    destruct (sh_elements _ _ Hd _ _ Hel) as [Hin _]. apply els1_elem in Hin.
    by eapply lookup_lt_Some.
  - apply input_order.
  - apply (to_through _ _ _ Hok).
  - intros g Hg. destruct (to_ending _ _ _ Hok g Hg) as (en & Hen & Hall). exists en.
    split; [done|]. intros l Hl. apply Hall in Hl as (x & ie & Hx & Hie & Hgid).
    destruct (Forall2_lookup_l _ _ _ _ _ (to_all _ _ _ Hok) Hx) as (gids & Hl & Hg2).
    destruct (lins_pair l gids Hl) as (x' & d & Hx' & Hd & _ & Hlin).
    assert (x' = x) as -> by congruence. exists gids. split; [done|]. split.
    { intros ->. apply Forall2_length in Hg2. destruct (lo_nonempty _ _ Hlin).
      by apply nil_length_inv. }
    intros j g' el el' Hg' Hel' Hel.
    pose proof (input_ending l gids x ie j g' el' Hl Hx Hie Hg' Hel') as Hlt.
    destruct ie as [i el1]. apply illegal_next_elem in Hie as (Hi & _).
    destruct (sh_elements _ _ Hd _ _ Hi) as [Hin%els1_elem _]. simpl in *.
    rewrite Hgid in Hin. by simplify_eq.
Qed.
End Tables.
End Input.
End Prepared.
