(* ===== verification/LayoutBreaks.v ===== *)
(** * The layout of a history with an operation at its last timestamp

    The script moves the end of an operation that is also a start halfway to the next
    timestamp.  For an operation that starts and ends at the last timestamp there is no next
    one: when its end is placed its start has no position yet, and the position of the last
    timestamp, and with it the width of the picture, is [NaN]. *)
From S2P Require Import Prelude Visualization Layout LayoutProof LayoutInput.
Import Visualization Layout LayoutProof Prepared.

#[local] Open Scope Z_scope.

Section Total.
Context (px : Z) (text_width : string -> Z) (els : list element) (tables : lp_tables).
Abbreviation lins := (allLinearizations tables).

(** The tables are in range: no step of the scan is a [TypeError]. *)
Record tables_total : Prop := {
  tt_range : forall l lin g, lins !! l = Some lin -> g ∈ lin -> (g < length els)%nat;
  tt_through : forall g, (g < length els)%nat -> ∃ th, eventToLinearizations tables !! g = Some th ∧
    forall l z, (l, z) ∈ th -> ∃ lin, lins !! l = Some lin ∧ 0 <= z < Z.of_nat (length lin);
  tt_ending : forall g, (g < length els)%nat -> ∃ en, eventIllegalLast tables !! g = Some en ∧
    forall l, l ∈ en -> is_Some (lins !! l)
}.
Context (Htt : tables_total) (xp : gmap (option Z) num).

Definition short (lps : list (list num)) : Prop :=
  Forall2 (λ (lin : list nat) ps, (length ps <= length lin)%nat) lins lps.

Lemma push_points_total l lin k : forall ps,
  lins !! l = Some lin -> (length ps + k <= length lin)%nat ->
  ∃ ps', push_points px els xp lin k ps = Some ps' ∧ length ps' = (length ps + k)%nat.
Proof.
  induction k as [|k IH]; intros ps Hl Hlen; simpl; [exists ps; split; [done|lia]|].
  destruct (lookup_lt_is_Some_2 lin (length ps)) as [g Hg]; [lia|]. rewrite Hg. simpl.
  destruct (lookup_lt_is_Some_2 els g) as [el Hel].
  { eapply tt_range; [exact Htt|exact Hl|]. by eapply list_elem_of_lookup_2. }
  rewrite Hel. cbn [mbind option_bind]. set (p := match last ps with None => _ | Some _ => _ end).
  destruct (IH (ps ++ [p]) Hl) as (ps' & Hrun & Hlen'); [rewrite length_app; simpl; lia|].
  rewrite length_app in Hlen'. simpl in Hlen'. eexists. split; [exact Hrun|lia].
Qed.

Definition nan_stays (pos pos' : num) : Prop := pos = None -> pos' = None.

Lemma nmax_none a b : nmax a b = None <-> a = None ∨ b = None.
Proof. destruct a, b; simpl; naive_solver. Qed.

Lemma place_point_total pos lps l z lin :
  short lps -> lins !! l = Some lin -> -1 <= z < Z.of_nat (length lin) ->
  ∃ pos' lps', place_point px els tables xp (pos, lps) (l, z) = Some (pos', lps') ∧
    short lps' ∧ nan_stays pos pos'.
Proof.
  intros Hs Hl Hz. destruct (Forall2_lookup_l _ _ _ _ _ Hs Hl) as (ps & Hps & Hlen).
  unfold place_point. rewrite Hps. simpl. rewrite Hl. simpl.
  destruct (push_points_total l lin (Z.to_nat (z + 1 - Z.of_nat (length ps))) ps Hl)
    as (ps' & -> & Hlen'); [lia|].
  simpl. eexists _, _. split; [done|]. split.
  - unfold short. rewrite <- (list_insert_id lins l lin Hl). apply Forall2_insert; [done|lia].
  - intros ->. done.
Qed.

Lemma place_points_total pts : forall pos lps,
  short lps -> (forall l z, (l, z) ∈ pts -> ∃ lin, lins !! l = Some lin ∧
    -1 <= z < Z.of_nat (length lin)) ->
  ∃ pos' lps', foldl (λ o li, o ≫= λ st, place_point px els tables xp st li)
      (Some (pos, lps)) pts = Some (pos', lps') ∧ short lps' ∧ nan_stays pos pos'.
Proof.
  induction pts as [|[l z] pts IH]; intros pos lps Hs Hpts.
  { exists pos, lps. split_and!; [done|done|by intros ?]. }
  destruct (Hpts l z ltac:(by left)) as (lin & Hl & Hz). cbn [foldl mbind option_bind].
  destruct (place_point_total pos lps l z lin Hs Hl Hz) as (pos1 & lps1 & -> & Hs1 & Hn1).
  destruct (IH pos1 lps1 Hs1) as (pos2 & lps2 & Hrun & Hs2 & Hn2).
  { intros l' z' Hin. apply Hpts. by right. }
  exists pos2, lps2. split_and!; [done|done|]. intros Hp. by apply Hn2, Hn1.
Qed.

Lemma illegal_points_total en lps : forall pos,
  short lps -> (forall l, l ∈ en -> is_Some (lins !! l)) ->
  ∃ pos', foldl (λ o li, o ≫= λ pos, illegal_point px lps pos li) (Some pos) en = Some pos' ∧
    nan_stays pos pos'.
Proof.
  induction en as [|l en IH]; intros pos Hs Hen.
  { exists pos. split; [done|]. by intros ?. }
  destruct (Hen l ltac:(by left)) as [lin Hl]. cbn [foldl mbind option_bind].
  destruct (Forall2_lookup_l _ _ _ _ _ Hs Hl) as (ps & Hps & _). unfold illegal_point at 2.
  rewrite Hps. cbn [mbind option_bind].
  destruct (IH (nmax pos (nadd (mjoin (last ps)) (EPSILON px))) Hs) as (pos' & Hrun & Hn).
  { intros l' Hl'. apply Hen. by right. }
  exists pos'. split; [done|]. intros ->. by apply Hn.
Qed.

Lemma place_event_total pos lps ev :
  short lps -> (box_gid ev < length els)%nat ->
  ∃ pos' lps', place_event px els tables xp (pos, lps) ev = Some (pos', lps') ∧ short lps' ∧
    (pos = None ∨ x_at xp (Some (box_start ev)) = None -> pos' = None).
Proof.
  intros Hs Hg. destruct (tt_through Htt _ Hg) as (th & Hth & Hthrough).
  destruct (tt_ending Htt _ Hg) as (en & Hen & Hending).
  unfold place_event, points_of. rewrite Hth, Hen. cbn [mbind option_bind].
  set (f := λ index : nat, lin ← lins !! index; Some (index, Z.of_nat (length lin) - 1)).
  assert (Hf : is_Some (mapM f en)).
  { apply mapM_is_Some_2, Forall_forall. intros l Hl. destruct (Hending l Hl) as [lin Hlin].
    eexists. unfold f. simpl. rewrite Hlin. reflexivity. }
  destruct Hf as [ends Hends]. rewrite Hends. cbn [mbind option_bind].
  set (text := nadd (x_at xp (Some (box_start ev))) (box_width ev)).
  destruct (place_points_total (th ++ ends) (nmax pos text) lps Hs) as (pos1 & lps1 & Hrun & Hs1 & Hn1).
  { intros l z [Hin|Hin]%elem_of_app.
    - destruct (Hthrough l z Hin) as (lin & ? & ?). exists lin. split; [done|lia].
    - apply mapM_Some_1 in Hends. apply list_elem_of_lookup in Hin as [i Hi].
      destruct (Forall2_lookup_r _ _ _ _ _ Hends Hi) as (l' & Hl' & Hfl). unfold f in Hfl.
      apply bind_Some in Hfl as (lin & Hlin & [= -> <-]). exists lin. split; [done|lia]. }
  rewrite Hrun. cbn [mbind option_bind].
  destruct (illegal_points_total en lps1 pos1 Hs1 Hending) as (pos2 & -> & Hn2).
  cbn [mbind option_bind]. exists pos2, lps1. split_and!; [done|done|].
  intros Hnone. apply Hn2, Hn1, nmax_none. destruct Hnone as [->|Hx]; [by left|right].
  unfold text. by rewrite Hx.
Qed.

(** The [while] loop leaves the events that end after [ts]; a start without a position makes
    the position [NaN]. *)
Lemma place_events_total ts evs : forall pos lps,
  short lps -> (forall ev, ev ∈ evs -> (box_gid ev < length els)%nat) ->
  ∃ pos' lps' rest, place_events px els tables xp ts (pos, lps) evs = Some (pos', lps', rest) ∧
    short lps' ∧ (forall ev, ev ∈ rest -> ev ∈ evs) ∧
    (forall ev, ev ∈ evs -> ts < box_end ev -> ev ∈ rest) ∧ nan_stays pos pos' ∧
    ((forall ev, ev ∈ evs -> box_end ev <= ts) -> forall ev, ev ∈ evs ->
      x_at xp (Some (box_start ev)) = None -> pos' = None).
Proof.
  induction evs as [|ev evs IH]; intros pos lps Hs Hg; cbn [place_events].
  { exists pos, lps, []. split_and!; [done|done|done|done|by intros ?|].
    by intros _ ev []%elem_of_nil. }
  case_decide as Hend.
  - destruct (place_event_total pos lps ev Hs) as (pos1 & lps1 & -> & Hs1 & Hn1); [apply Hg; by left|].
    cbn [mbind option_bind].
    destruct (IH pos1 lps1 Hs1) as (pos2 & lps2 & rest & Hrun & Hs2 & Hsub & Hlater & Hn2 & Hnan).
    { intros ev' Hin. apply Hg. by right. }
    exists pos2, lps2, rest. split_and!; [done|done| | | |].
    + intros ev' Hin. right. by apply Hsub.
    + intros ev' [->|Hin]%elem_of_cons Hlt; [lia|by apply Hlater].
    + intros Hp. apply Hn2, Hn1. by left.
    + intros Hle ev' [->|Hin]%elem_of_cons Hx; [apply Hn2, Hn1; by right|].
      eapply Hnan; [|done|done]. intros ev'' Hin''. apply Hle. by right.
  - exists pos, lps, (ev :: evs). split_and!; [done|done|done|done|by intros ?|]. intros Hle. specialize (Hle ev ltac:(by left)).
    lia.
Qed.
End Total.

Section Scan.
Context (px : Z) (text_width : string -> Z) (els : list element) (tables : lp_tables).
Context (Htt : tables_total els tables).

(** The scan does not throw, whatever the positions. *)
Lemma scan_loop_total sorted : forall prev st,
  short tables (linearizationPositions st) ->
  (forall e, e ∈ events st -> (box_gid e < length els)%nat) ->
  is_Some (scan_loop px els tables prev sorted st).
Proof.
  induction sorted as [|ts sorted IH]; intros prev st Hs Hev; cbn [scan_loop]; [by eexists|].
  destruct (place_events_total px els tables Htt (xPos st) ts (events st)
    (nadd (x_at (xPos st) (Some prev)) (BOX_GAP px)) (linearizationPositions st) Hs Hev)
    as (pos & lps & rest & -> & Hs' & Hsub & _).
  cbn [mbind option_bind]. apply IH; simpl; [done|]. intros e He. by apply Hev, Hsub.
Qed.

Lemma short_nothing : short tables (replicate (length (allLinearizations tables)) []).
Proof.
  unfold short. apply Forall2_same_length_lookup. split; [by rewrite length_replicate|].
  intros i lin ps _ [-> _]%lookup_replicate_1. simpl. lia.
Qed.

Lemma solve_total sorted :
  (forall el, el ∈ els -> (elGid el < length els)%nat) ->
  is_Some (solve px text_width els tables sorted).
Proof.
  intros Hg. destruct sorted as [|ts sorted]; [by eexists|]. apply scan_loop_total.
  - apply short_nothing.
  - cbn [events]. intros e He. unfold byEnd in He. rewrite sort_by_perm in He.
    apply list_elem_of_fmap in He as (el & -> & Hel). by apply Hg.
Qed.

(** The loop reaches the last timestamp [z] with the events that end there. *)
Lemma scan_loop_breaks z ev pre : forall prev st,
  short tables (linearizationPositions st) ->
  (forall e, e ∈ events st -> (box_gid e < length els)%nat ∧ box_end e <= z) ->
  ev ∈ events st -> box_end ev = z -> box_start ev = z -> (forall t, t ∈ pre -> t < z) ->
  x_at (xPos st) (Some z) = None ->
  ∃ st', scan_loop px els tables prev (pre ++ [z]) st = Some st' ∧ x_at (xPos st') (Some z) = None.
Proof.
  induction pre as [|ts pre IH]; intros prev st Hs Hev Hin Hend Hstart Hpre Hx; cbn [app scan_loop].
  - destruct (place_events_total px els tables Htt (xPos st) z (events st)
      (nadd (x_at (xPos st) (Some prev)) (BOX_GAP px)) (linearizationPositions st) Hs)
      as (pos & lps & rest & -> & _ & _ & _ & _ & Hnan); [apply Hev|].
    cbn [mbind option_bind]. eexists. split; [done|]. simpl. unfold x_at.
    rewrite lookup_insert_eq. simpl. apply (Hnan (λ e He, proj2 (Hev e He)) ev Hin). by rewrite Hstart.
  - destruct (place_events_total px els tables Htt (xPos st) ts (events st)
      (nadd (x_at (xPos st) (Some prev)) (BOX_GAP px)) (linearizationPositions st) Hs)
      as (pos & lps & rest & -> & Hs' & Hsub & Hlater & _ & _); [apply Hev|].
    cbn [mbind option_bind]. assert (Hts : ts < z) by (apply Hpre; left).
    apply IH; simpl; [done| | |done|done| |].
    + intros e He. by apply Hev, Hsub.
    + apply Hlater; [done|lia].
    + intros t Ht. apply Hpre. by right.
    + unfold x_at. rewrite lookup_insert_ne; [done|]. intros [= ->]. lia.
Qed.
End Scan.

Section Data.
Context (data : list partitionVisualizationData) (Hdata : data_ok data).

Abbreviation els1 := (byGid (prepare data).1).
Abbreviation sorted1 := (prepare data).2.

Lemma tables_total_ok tables :
  Prepared.tables_ok (length els1) (pairs (prepare data).1) tables -> tables_total els1 tables.
Proof.
  intros Hok. split.
  - intros l gids g Hl Hg. destruct (lins_pair data Hdata tables Hok l gids Hl)
      as (x & d & _ & Hd & Hg2 & _).
    apply list_elem_of_lookup in Hg as [j Hj].
    destruct (Forall2_lookup_r _ _ _ _ _ Hg2 Hj) as (s & _ & el & Hel & <-).
    unfold slice_get in Hel. case_decide; [|done].
    destruct (sh_elements _ _ _ Hd _ _ Hel) as [Hin _]. apply els1_elem in Hin.
    by eapply lookup_lt_Some.
  - intros g Hg. destruct (to_through _ _ _ Hok g Hg) as (th & Hth & Hall). exists th.
    split; [done|]. intros l z Hin. apply Hall in Hin as (Hz & gids & Hl & Hgz). exists gids.
    split; [done|]. apply lookup_lt_Some in Hgz. lia.
  - intros g Hg. destruct (to_ending _ _ _ Hok g Hg) as (en & Hen & Hall). exists en.
    split; [done|]. intros l Hl. apply Hall in Hl as (x & ie & Hx & _).
    destruct (Forall2_lookup_l _ _ _ _ _ (to_all _ _ _ Hok) Hx) as (gids & Hl & _). by exists gids.
Qed.

Lemma compute_layout_total px text_width :
  ∃ lay tables, compute_layout px text_width data = Some lay ∧
    lp_tables_of (prepare data).1 = Some tables ∧
    Prepared.tables_ok (length els1) (pairs (prepare data).1) tables ∧
    partitions lay = (prepare data).1 ∧ sortedTimestamps lay = sorted1 ∧
    solve px text_width els1 tables sorted1 = Some (solved lay).
Proof.
  unfold compute_layout. rewrite (surjective_pairing (prepare data)).
  destruct (lp_tables_of_ok (prepare data).1) as (tables & Htab & Hok);
    [by apply pairs_in_range|]. rewrite Htab. cbn [mbind option_bind].
  destruct (solve_total px text_width els1 tables (tables_total_ok tables Hok) sorted1)
    as [st Hst].
  { intros el Hel%els1_elem. by eapply lookup_lt_Some. }
  rewrite Hst. cbn [mbind option_bind]. eexists _, tables. by split_and!.
Qed.

Context (he : historyElement) (Hhe : he ∈ operations data).
Context (Hmax : forall he', he' ∈ operations data -> End_ he' <= Start he).

Abbreviation z := (2 * Start he).

Lemma els0_le el :
  el ∈ byGid (add_gids 0 data) -> elStart el <= elEnd el <= z.
Proof.
  intros Hel. destruct (els0_elem data el Hel) as (h & Hh & -> & ->).
  pose proof (Hmax h Hh). apply list_elem_of_bind in Hh as (d & Hh & Hd).
  pose proof (do_times _ Hdata d h Hd Hh). lia.
Qed.

Lemma tweaked_last el :
  elEnd el = z -> tweaked (startTimestamps (byGid (add_gids 0 data))) (nextTs (sort_timestamps
    (allTimestamps (byGid (add_gids 0 data)))) ∅) el = None.
Proof.
  intros Hend. unfold tweaked. case_decide; [|done]. rewrite Hend.
  pose proof (allTimestamps_spec (byGid (add_gids 0 data))) as [Hnd Hall].
  destruct (nextTs_spec (sort_timestamps (allTimestamps (byGid (add_gids 0 data)))) ∅
    (sort_timestamps_sorted _ Hnd) z) as [_ H2].
  rewrite H2, lookup_empty; [done|]. right. intros y Hy. rewrite sort_timestamps_elem in Hy.
  apply Hall in Hy as (el' & Hel' & Hy). pose proof (els0_le el' Hel'). destruct Hy; subst; lia.
Qed.

Lemma els1_le el : el ∈ els1 -> elEnd el <= z.
Proof.
  rewrite byGid_prepare. intros (el0 & -> & Hel0)%list_elem_of_fmap.
  pose proof (els0_le el0 Hel0). destruct (decide (elEnd el0 = z)) as [Heq|Hne].
  - rewrite tweak_end, tweaked_last by done. simpl. lia.
  - assert (Hz : z ∈ allTimestamps (byGid (add_gids 0 data))).
    { destruct (operations_elem data he Hhe) as (el & Hel & Hs & _).
      apply allTimestamps_spec. exists el. split; [done|]. by left. }
    pose proof (tweak_end_lt data el0 z Hel0 Hz). lia.
Qed.

Lemma last_element : ∃ el, el ∈ els1 ∧ elStart el = z ∧ elEnd el = z.
Proof.
  destruct (operations_elem data he Hhe) as (el & Hel & Hs & He).
  pose proof (els0_le el Hel). assert (elEnd el = z) by lia.
  eexists. split; [rewrite byGid_prepare; by apply list_elem_of_fmap_2|].
  rewrite tweak_start, tweak_end, tweaked_last by done. done.
Qed.

Lemma sorted1_le t : t ∈ sorted1 -> t <= z.
Proof.
  change sorted1 with (sort_timestamps (tweaked_timestamps
    (startTimestamps (byGid (add_gids 0 data))) (nextTs (sort_timestamps
    (allTimestamps (byGid (add_gids 0 data)))) ∅) (byGid (add_gids 0 data))
    (allTimestamps (byGid (add_gids 0 data))))).
  pose proof (allTimestamps_spec (byGid (add_gids 0 data))) as [Hnd Hall].
  rewrite sort_timestamps_elem, (proj2 (tweaked_timestamps_spec _ _ _ _ Hnd)), Hall.
  intros [(el & Hel & Ht)|(el & Hel & Ht)].
  - pose proof (els0_le el Hel). destruct Ht; subst; lia.
  - pose proof (els1_le (tweak (startTimestamps (byGid (add_gids 0 data))) (nextTs
      (sort_timestamps (allTimestamps (byGid (add_gids 0 data)))) ∅) el)) as Hle.
    rewrite tweak_end, Ht in Hle. apply Hle. rewrite byGid_prepare. by apply list_elem_of_fmap_2.
Qed.

Lemma sorted_last l :
  StronglySorted Z.lt l -> z ∈ l -> (forall t, t ∈ l -> t <= z) ->
  ∃ pre, l = pre ++ [z] ∧ forall t, t ∈ pre -> t < z.
Proof.
  induction 1 as [|a l Hs IH Ha]; intros Hz Hle; [by apply elem_of_nil in Hz|].
  rewrite Forall_forall in Ha. destruct l as [|b l].
  { apply list_elem_of_singleton in Hz as <-. exists []. split; [done|]. by intros t []%elem_of_nil. }
  assert (Hz' : z ∈ b :: l).
  { apply elem_of_cons in Hz as [<-|]; [|done]. specialize (Ha b ltac:(left)).
    specialize (Hle b ltac:(set_solver)). lia. }
  destruct (IH Hz') as (pre & -> & Hpre); [intros t Ht; apply Hle; by right|].
  exists (a :: pre). split; [done|]. intros t [->|Ht]%elem_of_cons; [|by apply Hpre].
  apply Ha. set_solver.
Qed.

(** C27: an edge case that the layout does not deal with, although the comment on the tweak
    of the ends says so: when an operation starts at the last timestamp of the histories, and
    an earlier timestamp exists, the script runs without an error but gives the last
    timestamp, the right end of the picture, the position [NaN]. *)
Theorem last_start_breaks_layout px text_width :
  (∃ he0, he0 ∈ operations data ∧ Start he0 < Start he) ->
  ∃ lay, compute_layout px text_width data = Some lay ∧
    last (sortedTimestamps lay) = Some z ∧ x_at (xPos (solved lay)) (Some z) = None.
Proof.
  intros (he0 & Hhe0 & Hlt). unfold compute_layout. rewrite (surjective_pairing (prepare data)).
  destruct (lp_tables_of_ok (prepare data).1) as (tables & Htab & Hok);
    [by apply pairs_in_range|]. rewrite Htab. cbn [mbind option_bind].
  destruct last_element as (el & Hel & Hs & He). pose proof (sorted0_spec data) as [Hss Hin0].
  assert (Hz : z ∈ sorted1) by (rewrite <- Hs; by apply els1_times).
  destruct (sorted_last _ Hss Hz sorted1_le) as (pre & Hsorted & Hpre).
  destruct pre as [|t0 pre].
  { exfalso. destruct (operations_elem data he0 Hhe0) as (el0 & Hel0 & Hs0 & _).
    destruct (Hin0 el0 Hel0) as [Hin _]. rewrite Hsorted in Hin.
    apply list_elem_of_singleton in Hin. lia. }
  destruct (scan_loop_breaks px els1 tables (tables_total_ok tables Hok) z
    (box_of px text_width el) pre t0 (MkScan {[Some t0 := Some 0]}
      (replicate (length (allLinearizations tables)) []) (byEnd px text_width els1)))
    as (st & Hrun & Hx).
  - apply short_nothing.
  - intros e Hein. cbn [events] in Hein. unfold byEnd in Hein. rewrite sort_by_perm in Hein.
    apply list_elem_of_fmap in Hein as (el' & -> & Hel'). split; [|by apply els1_le].
    apply els1_elem in Hel'. by eapply lookup_lt_Some.
  - cbn [events]. unfold byEnd. rewrite sort_by_perm. by apply list_elem_of_fmap_2.
  - done.
  - done.
  - intros t Ht. apply Hpre. by right.
  - unfold x_at. cbn [xPos]. rewrite lookup_singleton_ne; [done|]. intros [= ->].
    specialize (Hpre z ltac:(left)). lia.
  - rewrite Hsorted. cbn [app solve head]. rewrite Hrun. eexists. split; [done|].
    cbn [sortedTimestamps solved]. split; [|done]. rewrite app_comm_cons. apply last_snoc.
Qed.
End Data.

(** A client whose only operation begins and ends when the other client's ends. *)
Definition zero_at_end : list partitionVisualizationData :=
  [MkPartitionVisualizationData
    [MkHistoryElement 0 0 10 "put('x')"; MkHistoryElement 1 10 10 "get() -> 'x'"]
    [[MkLinearizationStep 0 "x"; MkLinearizationStep 1 "x"]] {[0 := 0%nat; 1 := 0%nat]}].

Lemma zero_at_end_ok : data_ok zero_at_end.
Proof.
  split.
  - intros d he ->%list_elem_of_singleton Hhe. simpl in Hhe.
    apply elem_of_cons in Hhe as [->|Hhe]; [simpl; lia|].
    apply list_elem_of_singleton in Hhe as ->. simpl. lia.
  - intros d lin ->%list_elem_of_singleton ->%list_elem_of_singleton. split; [done| | |].
    + intros k Hk. simpl in *. set_solver by lia.
    + intros [|[|i]] [|[|j]] a b ha hb Hij Ha Hb Hha Hhb; try lia; simplify_eq/=.
      unfold slice_get in *. simpl in *. by simplify_eq.
    + intros a b ha hb Ha Hb Hha Hhb. exfalso. apply Hb. unfold slice_get in Hhb.
      case_decide; [|done]. simpl in *. apply lookup_lt_Some in Hhb. simpl in Hhb.
      assert (b = 0 ∨ b = 1) as [->| ->] by lia; set_solver.
Qed.

Lemma last_start_breaks_layout_witness :
  ∃ lay, compute_layout 1 (λ _, 50) zero_at_end = Some lay ∧
    last (sortedTimestamps lay) = Some 20 ∧ x_at (xPos (solved lay)) (Some 20) = None.
Proof.
  apply (last_start_breaks_layout zero_at_end zero_at_end_ok
    (MkHistoryElement 1 10 10 "get() -> 'x'")).
  - unfold operations. simpl. set_solver.
  - intros he' Hin. unfold operations in Hin. simpl in Hin.
    apply elem_of_cons in Hin as [->|Hin]; [simpl; lia|].
    apply list_elem_of_singleton in Hin as ->. simpl. lia.
  - exists (MkHistoryElement 0 0 10 "put('x')"). split; [unfold operations; simpl; set_solver|].
    simpl. lia.
Defined.
