(* ===== verification/Page.v ===== *)
(** * The page of [porcupine/visualization.go]

    The second half of [render]: the picture that is drawn from the [Layout], the handlers of
    the mouse with the state they share, and [Visualize], which writes the page.

    The SVG elements that the script creates are records; an element of the page is
    identified by the partition, the history element or the linearization it was made for.
    The class names that the handlers add and remove are booleans. *)
From S2P Require Import Prelude Model Check Visualization Layout.
From stdpp Require Import pretty.
Import Visualization Layout.

#[local] Open Scope Z_scope.

Module Page.

(** ** The picture *)

Record rect := MkRect {
  rect_x : num;
  rect_y : Z;
  rect_width : num;
  rect_height : Z;
  rect_text : string   (* drawn at the centre of the box *)
}.

Inductive line_class := ValidLine | ValidPoint | InvalidLine | InvalidPoint.

Record line := MkLine { x1 : num; y1 : Z; x2 : num; y2 : Z; class : line_class }.

(** [element] is the marker: the last line of the layer [ep_lin] of [ep_partition] when it
    is pushed. *)
Record error_point := MkErrorPoint {
  ep_x : num;
  ep_partition : nat;
  ep_index : Z;
  ep_lin : nat
}.

Section Draw.
Context (px : Z).

Definition PADDING : Z := 10 * px.
Definition BOX_HEIGHT : Z := 30 * px.
Definition BOX_SPACE : Z := 15 * px.
Definition XOFF : Z := 20 * px.
Definition LINE_BLEED : Z := 5 * px.

Definition maxClient (data : list partitionVisualizationData) : Z :=
  foldl (λ m d, foldl (λ m el, Z.max m (heClientId el)) m (History d)) (-1) data.

Definition height (nClient : Z) : Z :=
  2 * PADDING + BOX_HEIGHT * nClient + BOX_SPACE * (nClient - 1).

Context (xPos : gmap (option Z) num).

Definition width (sorted : list Z) : num := nadd (x_at xPos (last sorted)) (2 * PADDING + XOFF).

Definition draw_rect (el : element) : rect :=
  let rx := x_at xPos (Some (elStart el)) in
  let w := nsub (x_at xPos (Some (elEnd el))) rx in
  MkRect (nadd rx (XOFF + PADDING)) (PADDING + elClientId el * (BOX_HEIGHT + BOX_SPACE))
    w BOX_HEIGHT (elDescription el).

(** [prevX], [prevY] and [prevEl], which are [null] together. *)
Record previous := MkPrevious { prevX : num; prevY : Z; prevEl : element }.

Definition point_x (prev : option previous) (el : element) : num :=
  let hereX := nadd (x_at xPos (Some (elStart el))) (PADDING + XOFF) in
  match prev with
  | Some p => nmax hereX (nadd (prevX p) (EPSILON px))
  | None => hereX
  end.

Definition point_y (el : element) : Z :=
  PADDING + elClientId el * (BOX_HEIGHT + BOX_SPACE) - LINE_BLEED.

(** The line from the previous point. *)
Definition connect (p : previous) (el : element) (x : num) (y : Z) (c : line_class) : line :=
  MkLine (prevX p)
    (if decide (elClientId el <= elClientId (prevEl p)) then prevY p
     else prevY p + BOX_HEIGHT + 2 * LINE_BLEED)
    x
    (if decide (elClientId (prevEl p) <= elClientId el) then y
     else y + BOX_HEIGHT + 2 * LINE_BLEED) c.

Definition mark (x : num) (y : Z) (c : line_class) : line :=
  MkLine x y x (y + BOX_HEIGHT + 2 * LINE_BLEED) c.

(** The [forEach] over the steps of a linearization. *)
Fixpoint draw_steps (els : list element) (lin : partialLinearization) (prev : option previous) :
    option (list line * option previous) :=
  match lin with
  | [] => Some ([], prev)
  | step :: lin' =>
      el ← els.[Index step];
      let x := point_x prev el in
      let y := point_y el in
      let lines := match prev with Some p => [connect p el x y ValidLine] | None => [] end in
      '(rest, last) ← draw_steps els lin' (Some (MkPrevious x y el));
      Some (lines ++ mark x y ValidPoint :: rest, last)
  end.

(** What the drawing of the linearizations of a partition accumulates; the two maps are the
    entries of [largestIllegal] and [largestIllegalLength] for the partition. *)
Record illegals := MkIllegals {
  errorPoints : list error_point;
  illegalLast : list nat;
  largestIllegal : gmap Z nat;
  largestIllegalLength : gmap Z nat
}.

Definition note_illegal (index linIndex len : nat) (st : illegals) : illegals :=
  if match largestIllegalLength st !! Z.of_nat index with
     | None => true
     | Some l => bool_decide (l < len)%nat
     end
  then MkIllegals (errorPoints st) (illegalLast st)
         (<[Z.of_nat index := linIndex]> (largestIllegal st))
         (<[Z.of_nat index := len]> (largestIllegalLength st))
  else st.

(** The possible but illegal next operation [index] after [lin]. *)
Definition draw_illegal (partitionIndex linIndex : nat) (lin : partialLinearization)
    (prev : option previous) (st : list line * illegals) (ie : nat * element) :
    option (list line * illegals) :=
  let '(lines, ill) := st in
  let '(index, el) := ie in
  p ← prev;
  step ← last lin;
  let x := point_x prev el in
  let y := point_y el in
  let ill' := MkIllegals
    (errorPoints ill ++ [MkErrorPoint x partitionIndex (Index step) linIndex])
    (illegalLast ill ++ [index]) (largestIllegal ill) (largestIllegalLength ill) in
  Some (lines ++ [connect p el x y InvalidLine; mark x y InvalidPoint],
        note_illegal index linIndex (length lin) ill').

(** A layer: the lines of a linearization, and the indices of [illegalLast]. *)
Record layer := MkLayer { lines : list line; illegal : list nat }.

Definition draw_linearization (partitionIndex : nat) (els : list element) (linIndex : nat)
    (lin : partialLinearization) (ill : illegals) : option (layer * illegals) :=
  '(valid, prev) ← draw_steps els lin None;
  '(invalid, ill') ←
    foldl (λ o ie, o ≫= λ st, draw_illegal partitionIndex linIndex lin prev st ie)
      (Some ([], MkIllegals (errorPoints ill) [] (largestIllegal ill) (largestIllegalLength ill)))
      (illegal_next lin els);
  Some (MkLayer (valid ++ invalid) (illegalLast ill'), ill').

Fixpoint draw_linearizations (partitionIndex : nat) (els : list element) (linIndex : nat)
    (lins : list partialLinearization) (ill : illegals) : option (list layer * illegals) :=
  match lins with
  | [] => Some ([], ill)
  | lin :: lins' =>
      '(l, ill') ← draw_linearization partitionIndex els linIndex lin ill;
      '(ls, ill'') ← draw_linearizations partitionIndex els (S linIndex) lins' ill';
      Some (l :: ls, ill'')
  end.

(** The partitions of the page: [historyRects], [partialLayers], [illegalLast] and
    [largestIllegal]; [Largest] is that of the data. *)
Record drawn := MkDrawn {
  historyRects : list rect;
  partialLayers : list layer;
  drawnIllegal : gmap Z nat
}.

Fixpoint draw_partitions (partitionIndex : nat) (ps : list partition) (eps : list error_point) :
    option (list drawn * list error_point) :=
  match ps with
  | [] => Some ([], eps)
  | p :: ps' =>
      '(layers, ill) ← draw_linearizations partitionIndex (elements p) 0 (linearizations p)
        (MkIllegals eps [] ∅ ∅);
      '(ds, eps') ← draw_partitions (S partitionIndex) ps' (errorPoints ill);
      Some (MkDrawn (draw_rect <$> elements p) layers (largestIllegal ill) :: ds, eps')
  end.
End Draw.

(** [errorPoints.sort((a, b) => a.x - b.x)]; a difference that is [NaN] counts as zero.  The
    order of such points is the engine's: here that of a stable insertion. *)
Definition before_x (a b : error_point) : bool :=
  match ep_x a, ep_x b with
  | Some x, Some y => bool_decide (x < y)
  | _, _ => false
  end.

Record page := MkPage {
  pageLayout : layout;
  pageHeight : Z;
  pageWidth : num;
  drawnPartitions : list drawn;
  allErrorPoints : list error_point
}.

Definition draw (px : Z) (text_width : string -> Z) (data : list partitionVisualizationData) :
    option page :=
  lay ← compute_layout px text_width data;
  let xp := xPos (solved lay) in
  '(ds, eps) ← draw_partitions px xp 0 (partitions lay) [];
  Some (MkPage lay (height px (maxClient data + 1)) (width px xp (sortedTimestamps lay)) ds
    (insertion_sort error_point before_x eps)).

(** ** The handlers *)

(** What the handlers change: the classes [hidden] of the history layers and of the layers of
    the linearizations, the class [selected] of the rectangles, the link and the tooltip. *)
Record ui := MkUi {
  selected : bool;
  selectedIndex : Z * Z;
  historyHidden : list bool;
  partialHidden : list (list bool);
  rectSelected : list (list bool);
  jumpInactive : bool;
  jumpPoint : option error_point;
  lastTooltip : option (Z * Z * bool * (Z * Z));
  tooltipHTML : string;
  tooltipShown : bool;
  tooltipAt : Z * Z
}.

Section Ui.
Context (pg : page).

Definition pagePartition (p : Z) : option partition := (partitions (pageLayout pg)).[p].

(** [linearizationIndex]; the inner [None] is [null]. *)
Definition linearizationIndex (p index : Z) : option (option nat) :=
  data ← pagePartition p;
  match largest data !! index with
  | Some i => Some (Some i)
  | None => d ← (drawnPartitions pg).[p]; Some (drawnIllegal d !! index)
  end.

Definition point_hidden (hidden : list (list bool)) (pt : error_point) : bool :=
  default false (layers ← hidden !! ep_partition pt; layers !! ep_lin pt).

Definition first_point (hidden : list (list bool)) : option error_point :=
  snd <$> list_find (λ pt, point_hidden hidden pt = false) (allErrorPoints pg).

Definition updateJump (u : ui) : ui :=
  match first_point (partialHidden u) with
  | Some pt =>
      MkUi (selected u) (selectedIndex u) (historyHidden u) (partialHidden u) (rectSelected u)
        false (Some pt) (lastTooltip u) (tooltipHTML u) (tooltipShown u) (tooltipAt u)
  | None =>
      MkUi (selected u) (selectedIndex u) (historyHidden u) (partialHidden u) (rectSelected u)
        true (jumpPoint u) (lastTooltip u) (tooltipHTML u) (tooltipShown u) (tooltipAt u)
  end.

Definition set_hidden (u : ui) (hist : list bool) (part : list (list bool)) : ui :=
  MkUi (selected u) (selectedIndex u) hist part (rectSelected u) (jumpInactive u) (jumpPoint u)
    (lastTooltip u) (tooltipHTML u) (tooltipShown u) (tooltipAt u).

Definition highlight (p index : Z) (u : ui) : option ui :=
  let hist := imap (λ i _, negb (bool_decide (Z.of_nat i = p))) (historyHidden u) in
  let hidden := (λ layers : list bool, (λ _, true) <$> layers) <$> partialHidden u in
  maxIndex ← linearizationIndex p index;
  hidden' ← match maxIndex with
    | None => Some hidden
    | Some i => layers ← hidden.[p]; layers' ← layers.[Z.of_nat i := false]; hidden.[p := layers']
    end;
  Some (updateJump (set_hidden u hist hidden')).

Definition resetHighlight (u : ui) : ui :=
  updateJump (set_hidden u ((λ _, false) <$> historyHidden u)
    ((λ layers : list bool, imap (λ i _, negb (bool_decide (i = 0%nat))) layers) <$>
      partialHidden u)).

(** Adding or removing the class [selected] of [historyRects[p][index]]. *)
Definition mark_rect (p index : Z) (on : bool) (u : ui) : option ui :=
  rects ← (rectSelected u).[p];
  rects' ← rects.[index := on];
  sel ← (rectSelected u).[p := rects'];
  Some (MkUi (selected u) (selectedIndex u) (historyHidden u) (partialHidden u) sel
    (jumpInactive u) (jumpPoint u) (lastTooltip u) (tooltipHTML u) (tooltipShown u) (tooltipAt u)).

Definition set_selected (sel : bool) (index : Z * Z) (u : ui) : ui :=
  MkUi sel index (historyHidden u) (partialHidden u) (rectSelected u) (jumpInactive u)
    (jumpPoint u) (lastTooltip u) (tooltipHTML u) (tooltipShown u) (tooltipAt u).

Definition select (p index : Z) (u : ui) : option ui :=
  u ← highlight p index (set_selected true (p, index) u);
  mark_rect p index true u.

Definition deselect (u : ui) : option ui :=
  if negb (selected u) then Some u else
  let u := resetHighlight (set_selected false (selectedIndex u) u) in
  mark_rect (selectedIndex u).1 (selectedIndex u).2 false u.

Definition show_tooltip (shown : bool) (u : ui) : ui :=
  MkUi (selected u) (selectedIndex u) (historyHidden u) (partialHidden u) (rectSelected u)
    (jumpInactive u) (jumpPoint u) (lastTooltip u) (tooltipHTML u) shown (tooltipAt u).

Definition handleMouseOver (p index : Z) (u : ui) : option ui :=
  u ← (if negb (selected u) then highlight p index u else Some u);
  Some (show_tooltip true u).

Definition forget_tooltip (u : ui) : ui :=
  MkUi (selected u) (selectedIndex u) (historyHidden u) (partialHidden u) (rectSelected u)
    (jumpInactive u) (jumpPoint u) None (tooltipHTML u) (tooltipShown u) (tooltipAt u).

Definition handleMouseOut (u : ui) : ui :=
  forget_tooltip (show_tooltip false (if negb (selected u) then resetHighlight u else u)).

Definition handleClick (p index : Z) (u : ui) : option ui :=
  if selected u then
    let '(sPartition, sIndex) := selectedIndex u in
    if decide (p = sPartition ∧ index = sIndex) then deselect u
    else u ← mark_rect sPartition sIndex false u; select p index u
  else select p index u.

Definition handleBgClick (u : ui) : option ui := deselect u.

(** The function assigned to [jump.onclick]; the link has to be displayed to be clicked. *)
Definition handleJump (u : ui) : option ui :=
  if jumpInactive u then Some u else
  match jumpPoint u with
  | None => Some u
  | Some pt => if negb (selected u) then select (Z.of_nat (ep_partition pt)) (ep_index pt) u
               else Some u
  end.

(** *** The tooltip *)

(** The loop that looks for [index] in a linearization: the step before it, and the step. *)
Fixpoint find_step (prev : option linearizationStep) (lin : partialLinearization) (index : Z) :
    option (option linearizationStep * linearizationStep) :=
  match lin with
  | [] => None
  | curr :: lin' =>
      if decide (Index curr = index) then Some (prev, curr) else find_step (Some curr) lin' index
  end.

Definition times (el : element) : string :=
  "<br><br>Call: " +:+ pretty (elStart el / 2) +:+
  "<br><br>Return: " +:+ pretty (elOriginalEnd el / 2).

Definition tooltip (p index : Z) (sel : bool) (sp si : Z) : option string :=
  maxIndex ← (if negb sel then linearizationIndex p index else linearizationIndex sp si);
  if sel && negb (bool_decide (sp = p)) then Some "Not part of selected partition."%string else
  match maxIndex with
  | None =>
      Some (if negb sel then "Not part of any partial linearization."
            else "Selected element is not part of any partial linearization.")%string
  | Some m =>
      data ← pagePartition p;
      lin ← linearizations data !! m;
      el ← (elements data).[index];
      match find_step None lin index with
      | Some (prev, curr) =>
          Some (match prev with
            | Some s => "<strong>Previous state:</strong><br>" +:+ StateDescription s +:+ "<br><br>"
            | None => ""
            end +:+ "<strong>New state:</strong><br>" +:+ StateDescription curr +:+ times el)%string
      | None =>
          d ← (drawnPartitions pg).[p];
          l ← partialLayers d !! m;
          if decide (index ∈ Z.of_nat <$> illegal l) then
            s ← last lin;
            Some ("<strong>Previous state:</strong><br>" +:+ StateDescription s +:+
              "<br><br><strong>New state:</strong><br>&langle;invalid op&rangle;" +:+ times el)%string
          else Some "Not part of selected element's partial linearization."%string
      end
  end.

Definition set_tooltip (u : ui) (key : Z * Z * bool * (Z * Z)) (msg : string) : ui :=
  MkUi (selected u) (selectedIndex u) (historyHidden u) (partialHidden u) (rectSelected u)
    (jumpInactive u) (jumpPoint u) (Some key) msg (tooltipShown u) (tooltipAt u).

Definition move_tooltip (x y : Z) (u : ui) : ui :=
  MkUi (selected u) (selectedIndex u) (historyHidden u) (partialHidden u) (rectSelected u)
    (jumpInactive u) (jumpPoint u) (lastTooltip u) (tooltipHTML u) (tooltipShown u)
    (x + 20, y + 20).

Definition handleMouseMove (p index pageX pageY : Z) (u : ui) : option ui :=
  let '(sPartition, sIndex) := selectedIndex u in
  let thisTooltip := (p, index, selected u, (sPartition, sIndex)) in
  u ← (if decide (lastTooltip u = Some thisTooltip) then Some u else
       msg ← tooltip p index (selected u) sPartition sIndex;
       Some (set_tooltip u thisTooltip msg));
  Some (move_tooltip pageX pageY u).

(** *** The page and its events *)

Definition drawn_ui : ui :=
  MkUi false (-1, -1) ((λ _, false) <$> drawnPartitions pg)
    ((λ d, (λ _, false) <$> partialLayers d) <$> drawnPartitions pg)
    ((λ d, (λ _, false) <$> historyRects d) <$> drawnPartitions pg)
    false None None "" false (0, 0).

(** [render] ends with a call of [handleMouseOut]. *)
Definition initial : ui := handleMouseOut drawn_ui.

Inductive event :=
  | MouseOver (p index : nat)
  | MouseMove (p index : nat) (pageX pageY : Z)
  | MouseOut
  | Click (p index : nat)
  | BgClick
  | JumpClick.

Definition handle (u : ui) (ev : event) : option ui :=
  match ev with
  | MouseOver p i => handleMouseOver (Z.of_nat p) (Z.of_nat i) u
  | MouseMove p i x y => handleMouseMove (Z.of_nat p) (Z.of_nat i) x y u
  | MouseOut => Some (handleMouseOut u)
  | Click p i => handleClick (Z.of_nat p) (Z.of_nat i) u
  | BgClick => handleBgClick u
  | JumpClick => handleJump u
  end.

Definition run_events (u : ui) (evs : list event) : option ui :=
  foldl (λ o ev, o ≫= λ u, handle u ev) (Some u) evs.
End Ui.

Definition render (px : Z) (text_width : string -> Z) (data : list partitionVisualizationData) :
    option (page * ui) :=
  pg ← draw px text_width data;
  Some (pg, initial pg).

(** ** [Visualize] and [VisualizePath] *)
Section Write.
Context {V Err : Type} `{Iface V}.
Context (sort : forall A, (A -> A -> bool) -> list A -> list A).
(** [json.Marshal] of the data, and the text before and after the verb [%s] of [html]. *)
Context (Marshal : list partitionVisualizationData -> string + Err).
Context (html_prefix html_suffix : string).

(** An [io.Writer]: a write may fail, and may have written a part when it does. *)
Context {W : Type} (Write : W -> string -> W * option Err).
(** [os.Create] and the [Close] of a file. *)
Context (Create : string -> W + Err) (Close : W -> W).

(** [Visualize]; the outer [None] is a panic of [computeVisualizationData]. *)
Definition Visualize (model : Model V) (info : linearizationInfo V) (output : W) :
    option (W * option Err) :=
  '(data, _) ← computeVisualizationData sort model info;
  match Marshal data with
  | inr err => Some (output, Some err)
  | inl jsonData => Some (Write output (html_prefix +:+ jsonData +:+ html_suffix))
  end.

(** [VisualizePath]: the file, closed, if it could be created. *)
Definition VisualizePath (model : Model V) (info : linearizationInfo V) (path : string) :
    option (option W * option Err) :=
  match Create path with
  | inr err => Some (None, Some err)
  | inl f => '(f, err) ← Visualize model info f; Some (Some (Close f), err)
  end.
End Write.

End Page.
