(* ===== verification/PageUi.v ===== *)
(** * The handlers of [Page] as a machine of three states

    What the page shows is a function of one of three states: nothing is singled out, the
    mouse is over an operation, or an operation is selected.  Every handler of the script
    takes the page from what one state shows to what the next one shows. *)
From S2P Require Import Prelude Visualization Layout Page.
Import Visualization Layout Page.

#[local] Open Scope Z_scope.

Module PageUi.

Inductive mode :=
  | Idle
  | Hovering (p index : nat)
  | Selected (p index : nat).

#[export] Instance mode_eq_dec : EqDecision mode.
Proof. solve_decision. Defined.

Definition focus (m : mode) : option (nat * nat) :=
  match m with Idle => None | Hovering p i => Some (p, i) | Selected p i => Some (p, i) end.

Definition is_selected (m : mode) : bool := match m with Selected _ _ => true | _ => false end.

Section Machine.
Context (pg : page).

(** ** What a state shows *)
Definition hidden_history (m : mode) (i : nat) : bool :=
  match focus m with Some (p, _) => negb (bool_decide (i = p)) | None => false end.

Definition hidden_layer (m : mode) (q k : nat) : bool :=
  match focus m with
  | Some (p, i) => negb (bool_decide (q = p ∧
      linearizationIndex pg (Z.of_nat p) (Z.of_nat i) = Some (Some k)))
  | None => negb (bool_decide (k = 0%nat))
  end.

Definition hist_of (m : mode) : list bool :=
  imap (λ i _, hidden_history m i) (drawnPartitions pg).
Definition layers_of (m : mode) : list (list bool) :=
  imap (λ q d, imap (λ k _, hidden_layer m q k) (partialLayers d)) (drawnPartitions pg).
Definition rects_of (m : mode) : list (list bool) :=
  imap (λ q d, imap (λ k _, bool_decide (m = Selected q k)) (historyRects d)) (drawnPartitions pg).

(** Everything but the selected rectangle. *)
Record view (m : mode) (u : ui) : Prop := {
  sh_selected : selected u = is_selected m;
  sh_index : forall p i, m = Selected p i -> selectedIndex u = (Z.of_nat p, Z.of_nat i);
  sh_history : historyHidden u = hist_of m;
  sh_layers : partialHidden u = layers_of m;
  sh_inactive : jumpInactive u = bool_decide (first_point pg (layers_of m) = None);
  sh_jump : forall pt, first_point pg (layers_of m) = Some pt -> jumpPoint u = Some pt;
  sh_tooltip : forall p i sel sp si, lastTooltip u = Some (p, i, sel, (sp, si)) ->
    tooltip pg p i sel sp si = Some (tooltipHTML u)
}.

Definition shows (m : mode) (u : ui) : Prop := view m u ∧ rectSelected u = rects_of m.

(** ** The machine *)
Definition next (m : mode) (ev : event) : mode :=
  match ev, m with
  | MouseOver p i, Selected _ _ => m
  | MouseOver p i, _ => Hovering p i
  | MouseOut, Selected _ _ => m
  | MouseOut, _ => Idle
  | MouseMove _ _ _ _, _ => m
  | Click p i, Selected _ _ => if decide (m = Selected p i) then Idle else Selected p i
  | Click p i, _ => Selected p i
  | BgClick, Selected _ _ => Idle
  | BgClick, _ => m
  | JumpClick, Selected _ _ => m
  | JumpClick, _ =>
      match first_point pg (layers_of m) with
      | Some pt => Selected (ep_partition pt) (Z.to_nat (ep_index pt))
      | None => m
      end
  end.

(** An operation of the page. *)
Definition target (p i : nat) : Prop :=
  ∃ q d, partitions (pageLayout pg) !! p = Some q ∧ drawnPartitions pg !! p = Some d ∧
    (i < length (elements q))%nat.

Definition mode_ok (m : mode) : Prop :=
  match focus m with Some (p, i) => target p i | None => True end.

Definition event_ok (ev : event) : Prop :=
  match ev with
  | MouseOver p i | Click p i | MouseMove p i _ _ => target p i
  | _ => True
  end.

(** What the drawing promises to the handlers. *)
Class PageOk : Prop := {
  po_rects : forall p q d, partitions (pageLayout pg) !! p = Some q ->
    drawnPartitions pg !! p = Some d -> length (historyRects d) = length (elements q);
  po_layers : forall p q d, partitions (pageLayout pg) !! p = Some q ->
    drawnPartitions pg !! p = Some d -> length (partialLayers d) = length (linearizations q);
  po_nonempty : forall p q lin, partitions (pageLayout pg) !! p = Some q ->
    lin ∈ linearizations q -> lin ≠ [];
  po_largest : forall p q k j, partitions (pageLayout pg) !! p = Some q ->
    largest q !! k = Some j -> (j < length (linearizations q))%nat;
  po_illegal : forall p q d k j, partitions (pageLayout pg) !! p = Some q ->
    drawnPartitions pg !! p = Some d -> drawnIllegal d !! k = Some j ->
    (j < length (linearizations q))%nat;
  po_points : forall pt, pt ∈ allErrorPoints pg -> 0 <= ep_index pt ∧
    target (ep_partition pt) (Z.to_nat (ep_index pt))
}.
Context `{!PageOk}.

Lemma linearizationIndex_ok p i q d :
  partitions (pageLayout pg) !! p = Some q -> drawnPartitions pg !! p = Some d ->
  ∃ o, linearizationIndex pg (Z.of_nat p) (Z.of_nat i) = Some o ∧
    forall j, o = Some j -> (j < length (partialLayers d))%nat.
Proof.
  intros Hq Hd. unfold linearizationIndex, pagePartition. rewrite !slice_get_nat, Hq, Hd. simpl.
  rewrite (po_layers p q d Hq Hd). destruct (largest q !! Z.of_nat i) as [j|] eqn:Hj.
  - eexists. split; [done|]. intros j' [= <-]. by eapply po_largest.
  - eexists. split; [done|]. intros j Hj'. by eapply po_illegal.
Qed.

Lemma first_point_elem hidden pt : first_point pg hidden = Some pt -> pt ∈ allErrorPoints pg.
Proof.
  unfold first_point. intros ([i x] & Hf & ->)%fmap_Some. simpl.
  apply list_find_Some in Hf as (Hi & _). by eapply list_elem_of_lookup_2.
Qed.

Lemma next_ok m ev : mode_ok m -> event_ok ev -> mode_ok (next m ev).
Proof.
  intros Hm Hev. destruct ev, m; simpl; try done; try (by case_decide);
    destruct (first_point pg _) eqn:Hf; try done; apply first_point_elem in Hf;
    by apply po_points.
Qed.

(** *** The lists of classes *)
Lemma hist_of_highlight m p i :
  imap (λ j _, negb (bool_decide (Z.of_nat j = Z.of_nat p))) (hist_of m) =
    hist_of (Hovering p i) ∧ hist_of (Hovering p i) = hist_of (Selected p i).
Proof.
  split; [|done]. apply list_eq. intros j. unfold hist_of. rewrite !list_lookup_imap.
  destruct (drawnPartitions pg !! j); [|done]. unfold hidden_history. simpl. do 2 f_equal.
  apply bool_decide_ext. lia.
Qed.

Lemma hist_of_reset m : (λ _, false) <$> hist_of m = hist_of Idle.
Proof.
  apply list_eq. intros j. unfold hist_of. rewrite list_lookup_fmap, !list_lookup_imap.
  by destruct (drawnPartitions pg !! j).
Qed.

Lemma lookup_layers_of m q :
  layers_of m !! q = (λ d, imap (λ k _, hidden_layer m q k) (partialLayers d)) <$>
    drawnPartitions pg !! q.
Proof. unfold layers_of. by rewrite list_lookup_imap. Qed.

Lemma layers_of_reset m :
  (λ layers : list bool, imap (λ i _, negb (bool_decide (i = 0%nat))) layers) <$> layers_of m =
    layers_of Idle.
Proof.
  apply list_eq. intros q. rewrite list_lookup_fmap, !lookup_layers_of.
  destruct (drawnPartitions pg !! q) as [d|]; [|done]. simpl. f_equal. apply list_eq. intros k.
  rewrite !list_lookup_imap. by destruct (partialLayers d !! k).
Qed.

Lemma lookup_hide_all m q :
  ((λ layers : list bool, (λ _, true) <$> layers) <$> layers_of m) !! q =
    (λ d, (λ _, true) <$> partialLayers d) <$> drawnPartitions pg !! q.
Proof.
  rewrite list_lookup_fmap, lookup_layers_of. destruct (drawnPartitions pg !! q) as [d|]; [|done].
  simpl. f_equal. apply list_eq. intros k. rewrite !list_lookup_fmap, list_lookup_imap.
  by destruct (partialLayers d !! k).
Qed.

Lemma layers_of_highlight m m' p i q d o :
  partitions (pageLayout pg) !! p = Some q -> drawnPartitions pg !! p = Some d ->
  focus m' = Some (p, i) -> linearizationIndex pg (Z.of_nat p) (Z.of_nat i) = Some o ->
  let hidden := (λ layers : list bool, (λ _, true) <$> layers) <$> layers_of m in
  match o with
  | None => Some hidden
  | Some k => layers ← hidden.[Z.of_nat p]; layers' ← layers.[Z.of_nat k := false];
              hidden.[Z.of_nat p := layers']
  end = Some (layers_of m').
Proof.
  intros Hq Hd Hfocus Ho hidden. destruct (linearizationIndex_ok p i q d Hq Hd) as (o' & Ho' & Hlt).
  assert (o' = o) as -> by congruence.
  assert (Hh : forall r, hidden !! r = (λ d, (λ _, true) <$> partialLayers d) <$>
    drawnPartitions pg !! r) by (intros r; apply lookup_hide_all).
  assert (Hlen : (p < length hidden)%nat).
  { unfold hidden. rewrite length_fmap. unfold layers_of. rewrite length_imap.
    by eapply lookup_lt_Some. }
  clearbody hidden.
  assert (Hother : forall r, r ≠ p ∨ o = None -> hidden !! r = layers_of m' !! r).
  { intros r Hr. rewrite Hh, lookup_layers_of.
    destruct (drawnPartitions pg !! r) as [d'|]; [|done]. simpl. f_equal. apply list_eq. intros j.
    rewrite list_lookup_fmap, list_lookup_imap. unfold hidden_layer. rewrite Hfocus.
    destruct (partialLayers d' !! j); [|done]. simpl. rewrite bool_decide_eq_false_2; [done|].
    intros [-> Heq]. rewrite Ho in Heq. destruct Hr; congruence. }
  destruct o as [k|]; [|f_equal; apply list_eq; intros r; apply Hother; by right].
  specialize (Hlt k eq_refl). rewrite slice_get_nat, Hh, Hd. simpl.
  rewrite slice_set_nat by (by rewrite length_fmap). simpl. rewrite slice_set_nat by done.
  f_equal. apply list_eq. intros r. destruct (decide (p = r)) as [<-|Hne];
    [|rewrite list_lookup_insert_ne by done; apply Hother; by left].
  rewrite list_lookup_insert_eq, lookup_layers_of, Hd by done. simpl. f_equal.
  apply list_eq. intros j. rewrite list_lookup_imap. unfold hidden_layer. rewrite Hfocus.
  destruct (decide (k = j)) as [<-|Hkj].
  - rewrite list_lookup_insert_eq by (by rewrite length_fmap).
    destruct (lookup_lt_is_Some_2 (partialLayers d) k Hlt) as [l ->]. simpl.
    by rewrite bool_decide_eq_true_2.
  - rewrite list_lookup_insert_ne, list_lookup_fmap by done.
    destruct (partialLayers d !! j); [|done]. simpl. rewrite bool_decide_eq_false_2; [done|].
    intros [_ Heq]. congruence.
Qed.

Lemma lookup_rects_of m q :
  rects_of m !! q = (λ d, imap (λ k _, bool_decide (m = Selected q k)) (historyRects d)) <$>
    drawnPartitions pg !! q.
Proof. unfold rects_of. by rewrite list_lookup_imap. Qed.

(** Setting the class of one rectangle. *)
Lemma rects_set m m' p i b d :
  drawnPartitions pg !! p = Some d -> (i < length (historyRects d))%nat ->
  (forall q k, bool_decide (m' = Selected q k) =
    if decide (q = p ∧ k = i) then b else bool_decide (m = Selected q k)) ->
  (rects ← (rects_of m).[Z.of_nat p]; rects' ← rects.[Z.of_nat i := b];
   (rects_of m).[Z.of_nat p := rects']) = Some (rects_of m').
Proof.
  intros Hd Hi Hm. rewrite slice_get_nat, lookup_rects_of, Hd. simpl.
  assert (Hp : (p < length (rects_of m))%nat).
  { unfold rects_of. rewrite length_imap. by eapply lookup_lt_Some. }
  rewrite slice_set_nat by (by rewrite length_imap). simpl. rewrite slice_set_nat by done.
  f_equal. apply list_eq. intros r. destruct (decide (p = r)) as [<-|Hne].
  - rewrite list_lookup_insert_eq, lookup_rects_of, Hd by done. simpl. f_equal.
    apply list_eq. intros j. destruct (decide (i = j)) as [<-|Hij].
    + rewrite list_lookup_insert_eq by (by rewrite length_imap). rewrite list_lookup_imap.
      destruct (lookup_lt_is_Some_2 (historyRects d) i Hi) as [l ->]. simpl.
      rewrite Hm. by rewrite decide_True.
    + rewrite list_lookup_insert_ne, !list_lookup_imap by done.
      destruct (historyRects d !! j); [|done]. simpl. rewrite Hm. by rewrite decide_False by naive_solver.
  - rewrite list_lookup_insert_ne, !lookup_rects_of by done.
    destruct (drawnPartitions pg !! r) as [d'|]; [|done]. simpl. f_equal. apply list_eq. intros j.
    rewrite !list_lookup_imap. destruct (historyRects d' !! j); [|done]. simpl. rewrite Hm.
    by rewrite decide_False by naive_solver.
Qed.

Lemma rects_on m p i d :
  is_selected m = false -> drawnPartitions pg !! p = Some d -> (i < length (historyRects d))%nat ->
  (rects ← (rects_of m).[Z.of_nat p]; rects' ← rects.[Z.of_nat i := true];
   (rects_of m).[Z.of_nat p := rects']) = Some (rects_of (Selected p i)).
Proof.
  intros Hm Hd Hi. apply (rects_set _ _ _ _ _ d); [done|done|]. intros q k. case_decide as Heq.
  - destruct Heq as [-> ->]. by rewrite bool_decide_eq_true_2.
  - rewrite !bool_decide_eq_false_2; [done|destruct m; try done; naive_solver|naive_solver].
Qed.

Lemma rects_off p i d :
  drawnPartitions pg !! p = Some d -> (i < length (historyRects d))%nat ->
  (rects ← (rects_of (Selected p i)).[Z.of_nat p]; rects' ← rects.[Z.of_nat i := false];
   (rects_of (Selected p i)).[Z.of_nat p := rects']) = Some (rects_of Idle).
Proof.
  intros Hd Hi. apply (rects_set _ _ _ _ _ d); [done|done|]. intros q k.
  rewrite bool_decide_eq_false_2 by done. case_decide as Heq; [done|].
  rewrite bool_decide_eq_false_2; [done|naive_solver].
Qed.

Lemma rects_unselected m : is_selected m = false -> rects_of m = rects_of Idle.
Proof.
  intros Hm. unfold rects_of. apply imap_ext. intros q d _. apply imap_ext. intros k r _.
  rewrite !bool_decide_eq_false_2; [done|done|destruct m; done].
Qed.

(** ** The handlers *)

(** A tooltip that is remembered is the one that would be computed again. *)
Definition remembered (u : ui) : Prop := forall p i sel sp si,
  lastTooltip u = Some (p, i, sel, (sp, si)) -> tooltip pg p i sel sp si = Some (tooltipHTML u).

Lemma view_update m u :
  selected u = is_selected m ->
  (forall p i, m = Selected p i -> selectedIndex u = (Z.of_nat p, Z.of_nat i)) -> remembered u ->
  view m (updateJump pg (set_hidden u (hist_of m) (layers_of m))).
Proof.
  intros Hs Hi Ht. unfold updateJump. cbn [partialHidden set_hidden].
  destruct (first_point pg (layers_of m)) as [pt|] eqn:Hf; split; simpl; rewrite ?Hf; try done.
Qed.

Lemma updateJump_rects u : rectSelected (updateJump pg u) = rectSelected u.
Proof. unfold updateJump. by destruct (first_point pg (partialHidden u)). Qed.

Lemma highlight_ok m m' p i u :
  target p i -> historyHidden u = hist_of m -> partialHidden u = layers_of m ->
  focus m' = Some (p, i) ->
  highlight pg (Z.of_nat p) (Z.of_nat i) u =
    Some (updateJump pg (set_hidden u (hist_of m') (layers_of m'))).
Proof.
  intros (q & d & Hq & Hd & _) Hh Hl Hf. unfold highlight.
  destruct (linearizationIndex_ok p i q d Hq Hd) as (o & Ho & _). rewrite Ho, Hh, Hl.
  cbn [mbind option_bind].
  pose proof (layers_of_highlight m m' p i q d o Hq Hd Hf Ho) as Hset. simpl in Hset.
  destruct (hist_of_highlight m p i) as [H1 H2].
  assert (Hhist : hist_of (Hovering p i) = hist_of m').
  { destruct m'; simpl in Hf; simplify_eq; done. }
  rewrite H1, Hhist. destruct o as [k|]; [|by injection Hset as ->]. by rewrite Hset.
Qed.

Lemma mark_rect_ok m u p i b R :
  view m u -> (rects ← (rectSelected u).[p]; rects' ← rects.[i := b];
    (rectSelected u).[p := rects']) = Some R ->
  ∃ u', mark_rect p i b u = Some u' ∧ view m u' ∧ rectSelected u' = R.
Proof.
  intros [] Hset. unfold mark_rect. destruct ((rectSelected u).[p]) as [rects|]; [|done].
  simpl in *. destruct (rects.[i := b]) as [rects'|]; [|done]. simpl in *. rewrite Hset. simpl.
  eexists. split; [done|]. split; [by split|done].
Qed.

Lemma target_rects p i : target p i -> ∃ d, drawnPartitions pg !! p = Some d ∧
  (i < length (historyRects d))%nat.
Proof. intros (q & d & Hq & Hd & Hi). exists d. by rewrite (po_rects p q d Hq Hd). Qed.

Lemma select_ok m p i u :
  target p i -> historyHidden u = hist_of m -> partialHidden u = layers_of m -> remembered u ->
  rectSelected u = rects_of Idle ->
  ∃ u', select pg (Z.of_nat p) (Z.of_nat i) u = Some u' ∧ shows (Selected p i) u'.
Proof.
  intros Ht Hh Hl Hr Hrect. destruct (target_rects p i Ht) as (d & Hd & Hi). unfold select.
  rewrite (highlight_ok m (Selected p i) p i); [|done..]. cbn [mbind option_bind].
  apply mark_rect_ok.
  - apply view_update; [done| |done]. by intros p' i' [= <- <-].
  - rewrite updateJump_rects. simpl. rewrite Hrect. by apply (rects_on _ _ _ d).
Qed.

Lemma deselect_ok p i u :
  target p i -> shows (Selected p i) u -> ∃ u', deselect pg u = Some u' ∧ shows Idle u'.
Proof.
  intros Ht [Hv Hrect]. destruct (target_rects p i Ht) as (d & Hd & Hi). unfold deselect.
  rewrite (sh_selected _ _ Hv). cbn [is_selected negb]. unfold resetHighlight.
  cbn [historyHidden partialHidden set_selected].
  rewrite (sh_history _ _ Hv), (sh_layers _ _ Hv), hist_of_reset, layers_of_reset.
  pose proof (sh_index _ _ Hv p i eq_refl) as Hix.
  set (u1 := updateJump pg _). assert (Hu1 : selectedIndex u1 = (Z.of_nat p, Z.of_nat i)).
  { unfold u1, updateJump. by destruct (first_point pg _). }
  rewrite Hu1. apply mark_rect_ok.
  - apply view_update; [done|done|]. exact (sh_tooltip _ _ Hv).
  - unfold u1. rewrite updateJump_rects. simpl. rewrite Hrect. by apply (rects_off _ _ d).
Qed.

Lemma shows_unselected m m' u :
  is_selected m = false -> is_selected m' = false -> shows m u ->
  shows m' (updateJump pg (set_hidden u (hist_of m') (layers_of m'))).
Proof.
  intros Hm Hm' [Hv Hr]. split.
  - apply view_update; [by rewrite (sh_selected _ _ Hv), Hm, Hm'| |exact (sh_tooltip _ _ Hv)].
    intros p i ->. by simpl in Hm'.
  - rewrite updateJump_rects. simpl. by rewrite Hr, (rects_unselected m), (rects_unselected m').
Qed.

Lemma reset_ok m u :
  is_selected m = false -> shows m u -> shows Idle (resetHighlight pg u).
Proof.
  intros Hm Hs. unfold resetHighlight. destruct Hs as [Hv Hr] eqn:E. clear E.
  rewrite (sh_history _ _ Hv), (sh_layers _ _ Hv), hist_of_reset, layers_of_reset.
  by apply (shows_unselected m).
Qed.

Lemma handleMouseOver_ok m p i u :
  target p i -> shows m u ->
  ∃ u', handleMouseOver pg (Z.of_nat p) (Z.of_nat i) u = Some u' ∧ shows (next m (MouseOver p i)) u'.
Proof.
  intros Ht Hs. pose proof Hs as [Hv Hr]. unfold handleMouseOver. rewrite (sh_selected _ _ Hv).
  assert (Hshow : forall m u, shows m u -> shows m (show_tooltip true u)).
  { intros m0 u0 [[] ?]. by repeat split. }
  destruct (is_selected m) eqn:Hm.
  - cbn [negb mbind option_bind]. eexists. split; [done|].
    destruct m; [done..|]. by apply Hshow.
  - cbn [negb]. rewrite (highlight_ok m (Hovering p i) p i);
      [|done|apply Hv|apply Hv|done]. cbn [mbind option_bind]. eexists. split; [done|]. apply Hshow.
    destruct m; try done; by apply (shows_unselected _ (Hovering p i) _ Hm eq_refl Hs).
Qed.

Lemma handleMouseOut_ok m u : shows m u -> shows (next m MouseOut) (handleMouseOut pg u).
Proof.
  intros Hs. pose proof Hs as [Hv _]. unfold handleMouseOut. rewrite (sh_selected _ _ Hv).
  assert (Hforget : forall m u, shows m u -> shows m (forget_tooltip (show_tooltip false u))).
  { intros m0 u0 [[] ?]. by repeat split. }
  apply Hforget. destruct m; simpl; [exact (reset_ok Idle u eq_refl Hs)| |done].
  exact (reset_ok _ u (eq_refl : is_selected (Hovering p index) = false) Hs).
Qed.

Lemma handleClick_ok m p i u :
  mode_ok m -> target p i -> shows m u ->
  ∃ u', handleClick pg (Z.of_nat p) (Z.of_nat i) u = Some u' ∧ shows (next m (Click p i)) u'.
Proof.
  intros Hm Ht Hs. pose proof Hs as [Hv Hr]. unfold handleClick. rewrite (sh_selected _ _ Hv).
  destruct m as [|p' i'|p' i']; cbn [is_selected next].
  1,2: eapply select_ok; [done|apply Hv|apply Hv|exact (sh_tooltip _ _ Hv)|];
    by rewrite Hr, ?rects_unselected.
  rewrite (sh_index _ _ Hv p' i' eq_refl). simpl in Hm.
  destruct (decide (Z.of_nat p = Z.of_nat p' ∧ Z.of_nat i = Z.of_nat i')) as [Heq|Hne].
  - assert (p = p' ∧ i = i') as [-> ->] by lia. rewrite decide_True by done.
    by eapply deselect_ok.
  - rewrite decide_False by (intros [= -> ->]; lia).
    destruct (target_rects p' i' Hm) as (d & Hd & Hi).
    destruct (mark_rect_ok (Selected p' i') u (Z.of_nat p') (Z.of_nat i') false (rects_of Idle) Hv)
      as (u' & -> & Hv' & Hr'); [rewrite Hr; by apply (rects_off _ _ d)|].
    cbn [mbind option_bind].
    by eapply select_ok; [done|apply Hv'|apply Hv'|exact (sh_tooltip _ _ Hv')|].
Qed.

Lemma handleJump_ok m u :
  mode_ok m -> shows m u -> ∃ u', handleJump pg u = Some u' ∧ shows (next m JumpClick) u'.
Proof.
  intros Hm Hs. pose proof Hs as [Hv Hr]. unfold handleJump. rewrite (sh_inactive _ _ Hv).
  destruct (first_point pg (layers_of m)) as [pt|] eqn:Hf.
  - rewrite bool_decide_eq_false_2, (sh_jump _ _ Hv pt Hf), (sh_selected _ _ Hv) by done.
    destruct (po_points pt (first_point_elem _ _ Hf)) as [Hpos Ht].
    assert (Hk : ∃ k, ep_index pt = Z.of_nat k) by (by apply Z_of_nat_complete).
    destruct Hk as [k Hk].
    destruct m as [|p i|p i]; cbn [is_selected next negb]; rewrite ?Hf; [| |by exists u].
    all: rewrite Hk, Nat2Z.id in *;
      eapply select_ok; [done|apply Hv|apply Hv|exact (sh_tooltip _ _ Hv)|];
      by rewrite Hr, ?rects_unselected.
  - rewrite bool_decide_eq_true_2 by done. exists u. split; [done|].
    destruct m; simpl; by rewrite ?Hf.
Qed.

(** *** The tooltip *)

Lemma tooltip_ok p i sel sp si :
  target p i -> (sel = true -> target sp si) ->
  ∃ msg, tooltip pg (Z.of_nat p) (Z.of_nat i) sel (Z.of_nat sp) (Z.of_nat si) = Some msg.
Proof.
  intros Ht Hsel. set (fp := if sel then sp else p). set (fi := if sel then si else i).
  assert (Hft : target fp fi) by (unfold fp, fi; destruct sel; auto).
  destruct Hft as (q' & d' & Hq' & Hd' & _).
  destruct (linearizationIndex_ok fp fi q' d' Hq' Hd') as (o & Ho & Hlt).
  unfold tooltip. assert (Hm : (if negb sel then linearizationIndex pg (Z.of_nat p) (Z.of_nat i)
    else linearizationIndex pg (Z.of_nat sp) (Z.of_nat si)) = Some o).
  { unfold fp, fi in Ho. by destruct sel. }
  rewrite Hm. cbn [mbind option_bind]. destruct (sel && _) eqn:Hother; [by eexists|].
  destruct o as [m|]; [|by destruct sel; eexists]. specialize (Hlt m eq_refl).
  assert (Hfp : fp = p).
  { unfold fp. destruct sel; [|done]. simpl in Hother.
    apply negb_false_iff, bool_decide_eq_true in Hother. lia. }
  rewrite Hfp in *. destruct Ht as (q & d & Hq & Hd & Hi).
  assert (q' = q) as -> by congruence. assert (d' = d) as -> by congruence.
  unfold pagePartition. rewrite !slice_get_nat, Hq, Hd. cbn [mbind option_bind].
  rewrite (po_layers p q d Hq Hd) in Hlt.
  destruct (lookup_lt_is_Some_2 (linearizations q) m Hlt) as [lin Hlin]. rewrite Hlin.
  destruct (lookup_lt_is_Some_2 (elements q) i Hi) as [el Hel]. cbn [mbind option_bind].
  rewrite slice_get_nat, Hel. cbn [mbind option_bind].
  destruct (find_step None lin (Z.of_nat i)) as [[prev curr]|]; [by eexists|].
  rewrite <- (po_layers p q d Hq Hd) in Hlt.
  destruct (lookup_lt_is_Some_2 (partialLayers d) m Hlt) as [l ->]. cbn [mbind option_bind].
  destruct (decide (Z.of_nat i ∈ Z.of_nat <$> illegal l)); [|by eexists]. assert (Hne : lin ≠ []).
  { eapply po_nonempty; [exact Hq|]. by eapply list_elem_of_lookup_2. }
  apply last_is_Some in Hne as [s ->]. by eexists.
Qed.

Lemma handleMouseMove_ok m p i x y u :
  mode_ok m -> target p i -> shows m u ->
  ∃ u', handleMouseMove pg (Z.of_nat p) (Z.of_nat i) x y u = Some u' ∧ shows m u'.
Proof.
  intros Hm Ht Hs. pose proof Hs as [Hv Hr]. unfold handleMouseMove.
  destruct (selectedIndex u) as [sp si] eqn:Hix.
  assert (Hmove : forall u, shows m u -> shows m (move_tooltip x y u)).
  { intros u0 [[] ?]. by repeat split. }
  destruct (decide _) as [|Hnew]; cbn [mbind option_bind].
  { eexists. split; [done|]. by apply Hmove. }
  assert (Hmsg : ∃ msg, tooltip pg (Z.of_nat p) (Z.of_nat i) (selected u) sp si = Some msg).
  { rewrite (sh_selected _ _ Hv). destruct m as [|p' i'|p' i']; cbn [is_selected].
    1,2: apply (tooltip_ok p i false 0 0); done.
    rewrite (sh_index _ _ Hv p' i' eq_refl) in Hix. injection Hix as <- <-.
    by apply (tooltip_ok p i true p' i'). }
  destruct Hmsg as [msg Hmsg]. rewrite Hmsg. cbn [mbind option_bind]. eexists. split; [done|].
  apply Hmove. split; [|exact Hr]. destruct Hv. split; simpl; try done.
  intros p0 i0 sel sp0 si0 [= <- <- <- <- <-]. done.
Qed.

(** ** Every run of events *)

Lemma handle_ok m u ev :
  mode_ok m -> event_ok ev -> shows m u -> ∃ u', handle pg u ev = Some u' ∧ shows (next m ev) u'.
Proof.
  intros Hm Hev Hs. destruct ev as [p i|p i x y| |p i| |]; simpl in *.
  - by apply handleMouseOver_ok.
  - destruct (handleMouseMove_ok m p i x y u Hm Hev Hs) as (u' & Hu & Hs'). exists u'.
    by destruct m.
  - eexists. split; [done|]. by apply handleMouseOut_ok.
  - by apply handleClick_ok.
  - unfold handleBgClick. destruct m as [|p i|p i].
    1,2: exists u; unfold deselect; rewrite (sh_selected _ _ (proj1 Hs)); done.
    by apply (deselect_ok p i).
  - by apply handleJump_ok.
Qed.

Lemma initial_ui_ok : shows Idle (initial pg).
Proof.
  assert (Hd : shows Idle (resetHighlight pg (drawn_ui pg))).
  { unfold resetHighlight.
    assert (Hh : (λ _, false) <$> historyHidden (drawn_ui pg) = hist_of Idle).
    { apply list_eq. intros j. unfold hist_of. cbn [historyHidden drawn_ui].
      rewrite !list_lookup_fmap, list_lookup_imap. by destruct (drawnPartitions pg !! j). }
    assert (Hl : (λ layers : list bool, imap (λ i _, negb (bool_decide (i = 0%nat))) layers) <$>
      partialHidden (drawn_ui pg) = layers_of Idle).
    { apply list_eq. intros q. cbn [partialHidden drawn_ui].
      rewrite !list_lookup_fmap, lookup_layers_of. destruct (drawnPartitions pg !! q) as [d|]; [|done].
      simpl. f_equal. apply list_eq. intros k. rewrite !list_lookup_imap, list_lookup_fmap.
      by destruct (partialLayers d !! k). }
    rewrite Hh, Hl. split; [by apply view_update|]. rewrite updateJump_rects. simpl.
    apply list_eq. intros q. rewrite lookup_rects_of, list_lookup_fmap.
    destruct (drawnPartitions pg !! q) as [d|]; [|done]. simpl. f_equal. apply list_eq. intros k.
    rewrite list_lookup_imap, list_lookup_fmap. by destruct (historyRects d !! k). }
  destruct Hd as [[] ?]. by repeat split.
Qed.

Lemma run_events_ok evs : forall m u,
  mode_ok m -> Forall event_ok evs -> shows m u ->
  ∃ u', run_events pg u evs = Some u' ∧ mode_ok (foldl next m evs) ∧ shows (foldl next m evs) u'.
Proof.
  induction evs as [|ev evs IH]; intros m u Hm Hevs Hs; [by exists u|].
  apply Forall_cons in Hevs as [Hev Hevs]. destruct (handle_ok m u ev Hm Hev Hs) as (u1 & H1 & Hs1).
  destruct (IH (next m ev) u1) as (u2 & H2 & Hm2 & Hs2); [by apply next_ok|done|done|].
  exists u2. unfold run_events in *. cbn [foldl mbind option_bind]. by rewrite H1.
Qed.
End Machine.
End PageUi.
