(* ===== verification/PageDraw.v ===== *)
(** * What [Page] draws

    The drawing does not throw on data with linearizations that are not empty.  Its markers
    are described by the positions of the operations, and the tables for the handlers by the
    operations that could be next. *)
From S2P Require Import Prelude Visualization Layout LayoutProof LayoutInput Page.
Import Visualization Layout LayoutProof Prepared Page.

#[local] Open Scope Z_scope.

#[export] Instance line_class_eq_dec : EqDecision line_class.
Proof. solve_decision. Defined.

Module PageDraw.

(** The lines of a class. *)
Definition of_class (c : line_class) (ls : list line) : list line := filter (λ l, class l = c) ls.

Section Draw.
Context (px : Z) (xp : gmap (option Z) num).

Abbreviation OFF := (PADDING px + XOFF px).
Abbreviation start_x := (λ el, x_at xp (Some (elStart el))).

(** The positions of the markers of a linearization through [els]. *)
Fixpoint marker_xs (prev : option num) (els : list element) : list num :=
  match els with
  | [] => []
  | el :: els' =>
      let here := nadd (start_x el) OFF in
      let x := match prev with Some p => nmax here (nadd p (EPSILON px)) | None => here end in
      x :: marker_xs (Some x) els'
  end.

Definition visits (els : list element) (lin : partialLinearization) (es : list element) : Prop :=
  Forall2 (λ s el, els.[Index s] = Some el) lin es.

Lemma in_range_visits els lin : in_range (els, lin) -> ∃ es, visits els lin es.
Proof.
  induction lin as [|s lin IH]; intros Hr; [exists []; constructor|].
  destruct IH as [es Hes]; [intros s' Hs'; apply Hr; by right|].
  destruct (Hr s ltac:(by left)) as [Hpos Hlt]. simpl in Hlt.
  destruct (lookup_lt_is_Some_2 els (Z.to_nat (Index s))) as [el Hel]; [lia|].
  exists (el :: es). constructor; [|done]. unfold slice_get. by rewrite decide_True.
Qed.

Lemma draw_steps_ok els lin : forall es prev,
  visits els lin es ->
  ∃ ls prev', draw_steps px xp els lin prev = Some (ls, prev') ∧
    of_class ValidPoint ls = zip_with (λ x el, mark px x (point_y px el) ValidPoint)
      (marker_xs (prevX <$> prev) es) es ∧
    of_class InvalidPoint ls = [] ∧
    prevX <$> prev' = (match last (marker_xs (prevX <$> prev) es) with
      | Some x => Some x | None => prevX <$> prev end).
Proof.
  induction lin as [|s lin IH]; intros es prev Hv; inversion Hv as [|? el ? es' Hel Hv']; subst.
  { exists [], prev. by split_and!. }
  cbn [draw_steps]. rewrite Hel. cbn [mbind option_bind].
  set (x := point_x px xp prev el). set (y := point_y px el).
  destruct (IH es' (Some (MkPrevious x y el)) Hv') as (ls & prev' & Hrun & Hval & Hinv & Hlast).
  rewrite Hrun. cbn [mbind option_bind]. eexists _, _. split; [done|].
  assert (Hx : marker_xs (prevX <$> prev) (el :: es') = x :: marker_xs (Some x) es').
  { cbn [marker_xs]. unfold x, point_x. by destruct prev. }
  rewrite Hx. cbn [fmap option_fmap option_map prevX] in Hval, Hlast.
  assert (Hhead : forall c, of_class c ((match prev with
      | Some p => [connect px p el x y ValidLine] | None => [] end) ++ mark px x y ValidPoint :: ls) =
    (if decide (c = ValidLine) then (match prev with
      | Some p => [connect px p el x y ValidLine] | None => [] end) else []) ++
    (if decide (c = ValidPoint) then [mark px x y ValidPoint] else []) ++ of_class c ls).
  { intros c. unfold of_class. rewrite filter_app, filter_cons. destruct prev, c; done. }
  split_and!.
  - by rewrite Hhead, Hval.
  - by rewrite Hhead, Hinv.
  - rewrite Hlast. rewrite last_cons. by destruct (last _).
Qed.

(** *** The illegal next operations *)

(** Where an operation that could be next is marked, after a marker at [prev]. *)
Definition illegal_x (prev : num) (el : element) : num :=
  nmax (nadd (start_x el) OFF) (nadd prev (EPSILON px)).

(** An error point for the operation [ie] after the linearization [lin], number [lIx]. *)
Record point_for (pIx lIx : nat) (lin : partialLinearization) (prev : num) (ie : nat * element)
    (pt : error_point) : Prop := {
  pf_partition : ep_partition pt = pIx;
  pf_lin : ep_lin pt = lIx;
  pf_index : Index <$> last lin = Some (ep_index pt);
  pf_x : ep_x pt = illegal_x prev ie.2
}.

(** The test of [largestIllegalLength]. *)
Definition beats (o : option nat) (len : nat) : Prop :=
  match o with None => True | Some l => (l < len)%nat end.

#[local] Instance beats_dec o len : Decision (beats o len).
Proof. destruct o; simpl; apply _. Defined.

Record illegal_drawn (partitionIndex linIndex : nat) (lin : partialLinearization)
    (rest : list (nat * element)) (prev : num) (st st' : list line * illegals) : Prop := {
  id_points : of_class InvalidPoint st'.1 = of_class InvalidPoint st.1 ++
    ((λ ie, mark px (illegal_x prev ie.2) (point_y px ie.2)
      InvalidPoint) <$> rest);
  id_valid : of_class ValidPoint st'.1 = of_class ValidPoint st.1;
  id_illegal : illegalLast st'.2 = illegalLast st.2 ++ (fst <$> rest);
  id_errors : ∃ eps, errorPoints st'.2 = errorPoints st.2 ++ eps ∧
    Forall2 (point_for partitionIndex linIndex lin prev) rest eps;
  id_largest : forall k, (largestIllegalLength st'.2 !! k, largestIllegal st'.2 !! k) =
    if decide (k ∈ Z.of_nat <$> rest.*1 ∧ beats (largestIllegalLength st.2 !! k) (length lin))
    then (Some (length lin), Some linIndex)
    else (largestIllegalLength st.2 !! k, largestIllegal st.2 !! k)
}.

Lemma note_illegal_lookup index linIndex len st k :
  (largestIllegalLength (note_illegal index linIndex len st) !! k,
   largestIllegal (note_illegal index linIndex len st) !! k) =
    if decide (k = Z.of_nat index ∧ beats (largestIllegalLength st !! k) len)
    then (Some len, Some linIndex) else (largestIllegalLength st !! k, largestIllegal st !! k).
Proof.
  unfold note_illegal. destruct (decide (k = Z.of_nat index)) as [->|Hne].
  - destruct (largestIllegalLength st !! Z.of_nat index) as [l|] eqn:Hl.
    + case_bool_decide; simpl.
      * by rewrite decide_True, !lookup_insert_eq.
      * by rewrite decide_False, Hl by naive_solver.
    + simpl. by rewrite decide_True, !lookup_insert_eq.
  - rewrite decide_False by naive_solver. case_match; simpl; by rewrite ?lookup_insert_ne.
Qed.

Lemma note_illegal_same index linIndex len st :
  errorPoints (note_illegal index linIndex len st) = errorPoints st ∧
  illegalLast (note_illegal index linIndex len st) = illegalLast st.
Proof. unfold note_illegal. by case_match. Qed.

Lemma draw_illegals_ok pIx lIx lin p rest : forall st,
  lin ≠ [] ->
  ∃ st', foldl (λ o ie, o ≫= λ st, draw_illegal px xp pIx lIx lin (Some p) st ie) (Some st) rest =
      Some st' ∧ illegal_drawn pIx lIx lin rest (prevX p) st st'.
Proof.
  intros st Hne. induction rest as [|[k el] rest (st' & Hrun & H)] using rev_ind.
  { exists st. split; [done|]. split.
    - by rewrite app_nil_r.
    - done.
    - by rewrite app_nil_r.
    - exists []. rewrite app_nil_r. split; [done|constructor].
    - intros k. rewrite decide_False; [done|]. by intros [?%elem_of_nil _]. }
  rewrite foldl_app, Hrun. cbn [foldl mbind option_bind]. destruct st' as [ls ill].
  apply last_is_Some in Hne as [step Hlast]. unfold draw_illegal at 1. rewrite Hlast.
  cbn [mbind option_bind]. eexists. split; [done|]. destruct H as [H1 H2 H3 H4 H5]. cbn [fst snd] in *.
  destruct (note_illegal_same k lIx (length lin) (MkIllegals (errorPoints ill ++
    [MkErrorPoint (point_x px xp (Some p) el) pIx (Index step) lIx]) (illegalLast ill ++ [k])
    (largestIllegal ill) (largestIllegalLength ill))) as [He Hi].
  split; cbn [fst snd]; rewrite ?He, ?Hi; cbn [errorPoints illegalLast].
  - rewrite fmap_app, app_assoc, <- H1. unfold of_class. by rewrite filter_app.
  - unfold of_class in *. rewrite filter_app, H2. simpl. by rewrite app_nil_r.
  - by rewrite H3, fmap_app, app_assoc.
  - destruct H4 as (eps & -> & Hall). eexists. rewrite <- app_assoc. split; [done|].
    apply Forall2_app; [done|]. constructor; [|constructor]. split; simpl; try done. by rewrite Hlast.
  - intros j. rewrite note_illegal_lookup. cbn [largestIllegalLength largestIllegal].
    specialize (H5 j).
    assert (Hmem : j ∈ Z.of_nat <$> (rest ++ [(k, el)]).*1 <->
      j ∈ Z.of_nat <$> rest.*1 ∨ j = Z.of_nat k).
    { rewrite !fmap_app, elem_of_app. simpl. by rewrite list_elem_of_singleton. }
    destruct (decide (j ∈ Z.of_nat <$> rest.*1 ∧ _)) as [[Hj Hl]|Hn]; injection H5 as -> ->.
    + rewrite decide_False by (intros [_ Hb]; simpl in Hb; lia). rewrite decide_True; [done|].
      split; [|done]. apply Hmem. by left.
    + apply decide_ext. rewrite Hmem. naive_solver.
Qed.

(** *** One linearization *)

(** [k] could be the next operation after [lin]. *)
Definition could_be_next (els : list element) (lin : partialLinearization) (k : Z) : Prop :=
  k ∈ Z.of_nat <$> (illegal_next lin els).*1.

#[local] Instance could_be_next_dec els lin k : Decision (could_be_next els lin k) :=
  decide (k ∈ Z.of_nat <$> (illegal_next lin els).*1).

Record layer_drawn (els : list element) (lin : partialLinearization) (l : layer) : Prop := {
  ld_illegal : illegal l = (illegal_next lin els).*1;
  ld_marks : ∃ es prev, visits els lin es ∧ last (marker_xs None es) = Some prev ∧
    of_class ValidPoint (lines l) = zip_with (λ x el, mark px x (point_y px el) ValidPoint)
      (marker_xs None es) es ∧
    of_class InvalidPoint (lines l) =
      (λ ie, mark px (illegal_x prev ie.2) (point_y px ie.2)
        InvalidPoint) <$> illegal_next lin els
}.

(** [j] is the number of the first of the longest of [lins] with the property [P]. *)
Definition first_longest (lins : list partialLinearization) (P : partialLinearization -> Prop)
    (j : nat) : Prop :=
  ∃ lin, lins !! j = Some lin ∧ P lin ∧
    (forall lin', lin' ∈ lins -> P lin' -> (length lin' <= length lin)%nat) ∧
    forall j' lin', (j' < j)%nat -> lins !! j' = Some lin' -> P lin' ->
      (length lin' < length lin)%nat.

Lemma first_longest_ext lins P Q j :
  (forall lin, lin ∈ lins -> P lin <-> Q lin) -> first_longest lins P j -> first_longest lins Q j.
Proof.
  intros Hpq (lin & Hl & Hp & Hmax & Hfirst).
  pose proof (list_elem_of_lookup_2 _ _ _ Hl) as Hin. exists lin.
  split_and!; [done|by apply Hpq| |].
  - intros lin' Hin' Hq. apply Hmax; [done|]. by apply Hpq.
  - intros j' lin' Hj Hl' Hq. apply (Hfirst j'); [done..|].
    apply Hpq; [by eapply list_elem_of_lookup_2|done].
Qed.

(** The number of the first of the longest of the linearizations after which [k] could be
    next. *)
Definition largest_next (els : list element) (seen : list partialLinearization) (k : Z)
    (o : option nat) : Prop :=
  match o with
  | Some j => first_longest seen (λ lin, could_be_next els lin k) j
  | None => forall lin, lin ∈ seen -> ¬ could_be_next els lin k
  end.

Definition largest_ok (els : list element) (seen : list partialLinearization) (ill : illegals) :
    Prop :=
  forall k, largest_next els seen k (largestIllegal ill !! k) ∧
    largestIllegalLength ill !! k = length <$> (j ← largestIllegal ill !! k; seen !! j).

(** The error points of the linearization number [lIx]. *)
Definition points_for (pIx lIx : nat) (els : list element) (lin : partialLinearization)
    (eps : list error_point) : Prop :=
  ∃ es prev, visits els lin es ∧ last (marker_xs None es) = Some prev ∧
    Forall2 (point_for pIx lIx lin prev) (illegal_next lin els) eps.

Lemma last_marker es : es ≠ [] -> is_Some (last (marker_xs None es)).
Proof. intros Hes. apply last_is_Some. by destruct es. Qed.

Lemma largest_ok_step els seen lin ill ill' :
  largest_ok els seen ill ->
  (forall k, (largestIllegalLength ill' !! k, largestIllegal ill' !! k) =
    if decide (could_be_next els lin k ∧ beats (largestIllegalLength ill !! k) (length lin))
    then (Some (length lin), Some (length seen))
    else (largestIllegalLength ill !! k, largestIllegal ill !! k)) ->
  largest_ok els (seen ++ [lin]) ill'.
Proof.
  intros Hok Hstep k. specialize (Hstep k). destruct (Hok k) as [Hl Hlen].
  destruct (decide _) as [[Hk Hb]|Hn]; injection Hstep as -> ->.
  - assert (Hlt : forall lin', lin' ∈ seen -> could_be_next els lin' k -> (length lin' < length lin)%nat).
    { intros lin' Hin Hk'. destruct (largestIllegal ill !! k) as [j|]; [|by destruct (Hl lin' Hin)].
      destruct Hl as (lj & Hj & _ & Hmax & _). specialize (Hmax lin' Hin Hk').
      rewrite Hlen in Hb. simpl in Hb. rewrite Hj in Hb. simpl in Hb. lia. }
    simpl. rewrite list_lookup_middle by done. split; [|done]. exists lin.
    split_and!; [by apply list_lookup_middle|done| |].
    + intros lin' [Hin| ->%list_elem_of_singleton]%elem_of_app Hk'; [|done]. by apply Nat.lt_le_incl, Hlt.
    + intros j' lin' Hj' Hl' Hk'. rewrite lookup_app_l in Hl' by done.
      apply Hlt; [by eapply list_elem_of_lookup_2|done].
  - destruct (largestIllegal ill !! k) as [j|]; simpl in *.
    + destruct Hl as (lj & Hj & Hkj & Hmax & Hfirst). rewrite Hj in Hlen. simpl in Hlen.
      assert (Hj' : (seen ++ [lin]) !! j = Some lj) by (by apply lookup_app_l_Some).
      rewrite Hj'. split; [|done]. exists lj. split_and!; [done..| |].
      * intros lin' [Hin| ->%list_elem_of_singleton]%elem_of_app Hk'; [by apply Hmax|].
        destruct (decide (length lin <= length lj)%nat); [done|]. exfalso. apply Hn.
        split; [done|]. rewrite Hlen. simpl. lia.
      * intros j' lin' Hlt Hl'. apply lookup_lt_Some in Hj. rewrite lookup_app_l in Hl' by lia.
        by eapply Hfirst.
    + split; [|done]. intros lin' [Hin| ->%list_elem_of_singleton]%elem_of_app; [by apply Hl|].
      intros Hk'. apply Hn. split; [done|]. by rewrite Hlen.
Qed.

Lemma draw_linearization_ok pIx els seen lin ill :
  in_range (els, lin) -> lin ≠ [] -> largest_ok els seen ill ->
  ∃ l ill', draw_linearization px xp pIx els (length seen) lin ill = Some (l, ill') ∧
    layer_drawn els lin l ∧ largest_ok els (seen ++ [lin]) ill' ∧
    ∃ eps, errorPoints ill' = errorPoints ill ++ eps ∧ points_for pIx (length seen) els lin eps.
Proof.
  intros Hr Hne Hok. destruct (in_range_visits els lin Hr) as [es Hes].
  destruct (draw_steps_ok els lin es None Hes) as (ls & prev' & Hrun & Hval & Hinv & Hlast).
  assert (Hes' : es ≠ []).
  { intros ->. apply Forall2_length in Hes. by apply Hne, nil_length_inv. }
  destruct (last_marker es Hes') as [x Hx]. cbn [fmap option_fmap option_map] in Hval, Hlast.
  rewrite Hx in Hlast. destruct prev' as [p|]; [|done]. injection Hlast as Hp.
  unfold draw_linearization. rewrite Hrun. cbn [mbind option_bind].
  set (ill0 := MkIllegals (errorPoints ill) [] (largestIllegal ill) (largestIllegalLength ill)).
  destruct (draw_illegals_ok pIx (length seen) lin p (illegal_next lin els) ([], ill0) Hne)
    as ([lsi ill'] & Hrun' & [H1 H2 H3 H4 H5]).
  rewrite Hrun'. cbn [mbind option_bind]. eexists _, _. split; [done|]. cbn [fst snd] in *.
  split_and!.
  - split; [exact H3|]. exists es, x. cbn [lines]. unfold of_class in *.
    rewrite !filter_app, Hval, Hinv, H1, H2, Hp, app_nil_r. done.
  - apply (largest_ok_step els seen lin ill ill' Hok H5).
  - destruct H4 as (eps & -> & Hall). exists eps. split; [done|]. rewrite Hp in Hall.
    by exists es, x.
Qed.

Lemma draw_linearizations_ok pIx els lins : forall seen ill,
  (forall lin, lin ∈ lins -> in_range (els, lin) ∧ lin ≠ []) -> largest_ok els seen ill ->
  ∃ ls ill', draw_linearizations px xp pIx els (length seen) lins ill = Some (ls, ill') ∧
    Forall2 (layer_drawn els) lins ls ∧ largest_ok els (seen ++ lins) ill' ∧
    ∃ epss, errorPoints ill' = errorPoints ill ++ mjoin epss ∧ length epss = length lins ∧
      forall j eps lin, epss !! j = Some eps -> lins !! j = Some lin ->
        points_for pIx (length seen + j) els lin eps.
Proof.
  induction lins as [|lin lins IH]; intros seen ill Hlins Hok.
  { exists [], ill. rewrite app_nil_r. split_and!; [done|constructor|done|].
    exists []. rewrite app_nil_r. split_and!; [done|done|]. by intros j eps lin. }
  destruct (Hlins lin ltac:(by left)) as [Hr Hne].
  destruct (draw_linearization_ok pIx els seen lin ill Hr Hne Hok)
    as (l & ill1 & Hrun & Hl & Hok1 & eps & Heps & Hpts).
  destruct (IH (seen ++ [lin]) ill1) as (ls & ill2 & Hrun2 & Hls & Hok2 & epss & Hepss & Hlen2 & Hall).
  { intros lin' Hin. apply Hlins. by right. }
  { done. }
  rewrite length_app, Nat.add_1_r in Hrun2. cbn [draw_linearizations]. rewrite Hrun.
  cbn [mbind option_bind]. rewrite Hrun2. cbn [mbind option_bind]. eexists _, _. split; [done|].
  split_and!; [by constructor|by rewrite <- app_assoc in Hok2|].
  exists (eps :: epss). split_and!; [by rewrite Hepss, Heps, <- app_assoc|simpl; by rewrite Hlen2|].
  intros [|j] eps' lin' He Hl'; simpl in He, Hl'; simplify_eq; [by rewrite Nat.add_0_r|].
  pose proof (Hall j eps' lin' He Hl') as Hp.
  rewrite length_app in Hp. simpl in Hp. by replace (length seen + S j)%nat with (length seen + 1 + j)%nat by lia.
Qed.

(** *** The partitions *)

Record partition_drawn (p : partition) (d : drawn) : Prop := {
  pd_rects : historyRects d = draw_rect px xp <$> elements p;
  pd_layers : Forall2 (layer_drawn (elements p)) (linearizations p) (partialLayers d);
  pd_largest : forall k, largest_next (elements p) (linearizations p) k (drawnIllegal d !! k)
}.

(** The error points of the partitions [ps], numbered from [n]. *)
Record points_drawn (n : nat) (ps : list partition) (eps : list error_point) : Prop := {
  pt_sound : forall pt, pt ∈ eps -> ∃ i p lin, ps !! i = Some p ∧ ep_partition pt = (n + i)%nat ∧
    linearizations p !! ep_lin pt = Some lin ∧ Index <$> last lin = Some (ep_index pt) ∧
    ∃ es prev ie, visits (elements p) lin es ∧ last (marker_xs None es) = Some prev ∧
      ie ∈ illegal_next lin (elements p) ∧ ep_x pt = illegal_x prev ie.2;
  pt_complete : forall i p j lin, ps !! i = Some p -> linearizations p !! j = Some lin ->
    illegal_next lin (elements p) ≠ [] ->
    ∃ pt, pt ∈ eps ∧ ep_partition pt = (n + i)%nat ∧ ep_lin pt = j
}.

Definition partition_lins_ok (p : partition) : Prop :=
  forall lin, lin ∈ linearizations p -> in_range (elements p, lin) ∧ lin ≠ [].

Lemma draw_partitions_ok ps : forall n eps,
  Forall partition_lins_ok ps ->
  ∃ ds eps', draw_partitions px xp n ps eps = Some (ds, eps ++ eps') ∧
    Forall2 partition_drawn ps ds ∧ points_drawn n ps eps'.
Proof.
  induction ps as [|p ps IH]; intros n eps Hps.
  { exists [], []. rewrite app_nil_r. split_and!; [done|constructor|].
    split; [by intros pt ?%elem_of_nil|done]. }
  apply Forall_cons in Hps as [Hp Hps]. cbn [draw_partitions].
  destruct (draw_linearizations_ok n (elements p) (linearizations p) [] (MkIllegals eps [] ∅ ∅) Hp)
    as (ls & ill & Hrun & Hls & Hok & epss & Hepss & Hlen & Hall).
  { intros k. cbn [largestIllegal largestIllegalLength]. rewrite !lookup_empty. split; [|done].
    by intros lin ?%elem_of_nil. }
  cbn [length] in Hrun. rewrite Hrun. cbn [mbind option_bind].
  destruct (IH (S n) (errorPoints ill) Hps) as (ds & eps' & Hrun2 & Hds & [Hsound Hcomplete]).
  rewrite Hrun2. cbn [mbind option_bind]. rewrite Hepss, <- app_assoc. cbn [errorPoints].
  eexists _, _. split; [done|]. split.
  { constructor; [|done]. split; [done|done|]. intros k. apply Hok. }
  split.
  - intros pt [Hin|Hin]%elem_of_app.
    + apply list_elem_of_join in Hin as (eps1 & Hpt & [j Hj]%list_elem_of_lookup).
      destruct (lookup_lt_is_Some_2 (linearizations p) j) as [lin Hlin].
      { rewrite <- Hlen. by eapply lookup_lt_Some. }
      destruct (Hall j eps1 lin Hj Hlin) as (es & prev & Hes & Hprev & Hpts).
      apply list_elem_of_lookup in Hpt as [q Hq].
      destruct (Forall2_lookup_r _ _ _ _ _ Hpts Hq) as (ie & Hie & [H1 H2 H3 H4]). simpl in H2.
      exists 0%nat, p, lin. rewrite H2. split_and!; [done|lia|done|done|].
      exists es, prev, ie. split_and!; [done|done|by eapply list_elem_of_lookup_2|done].
    + destruct (Hsound pt Hin) as (i & p' & lin & Hi & H1 & H2). exists (S i), p', lin.
      split_and!; [done|lia|apply H2..].
  - intros [|i] p' j lin Hi Hlin Hne; simpl in Hi; simplify_eq.
    + destruct (lookup_lt_is_Some_2 epss j) as [eps1 Hj].
      { rewrite Hlen. by eapply lookup_lt_Some. }
      destruct (Hall j eps1 lin Hj Hlin) as (es & prev & _ & _ & Hpts).
      destruct (illegal_next lin (elements p')) as [|ie ies]; [done|].
      apply Forall2_cons_inv_l in Hpts as (pt & eps2 & [H1 H2 _ _] & _ & ->).
      exists pt. split_and!; [|lia|done].
      apply elem_of_app. left. apply list_elem_of_join. exists (pt :: eps2).
      split; [by left|by eapply list_elem_of_lookup_2].
    + destruct (Hcomplete i p' j lin Hi Hlin Hne) as (pt & Hpt & H1 & H2). exists pt.
      split_and!; [set_solver|lia|done].
Qed.
End Draw.
End PageDraw.
