(* ===== verification/PageProof.v ===== *)
(** * The page of data that [computeVisualizationData] returns

    [render] does not throw, and the page it draws is one that the handlers of [PageUi] can
    work on. *)
From S2P Require Import Prelude Visualization Layout LayoutProof LayoutInput LayoutBreaks.
From S2P Require Import Page PageUi PageDraw.
Import Visualization Layout LayoutProof Prepared Page PageUi PageDraw.

#[local] Open Scope Z_scope.

(** The data of a page: what is shown respects real time, the linearizations are sorted by
    length, and [Largest] points to the first of the longest. *)
Record page_data (data : list partitionVisualizationData) : Prop := {
  pgd_ok : data_ok data;
  pgd_sorted : forall d, d ∈ data -> is_sorted longer (indices <$> PartialLinearizations d);
  pgd_largest : forall d k, d ∈ data -> match Largest d !! k with
    | Some i => is_largest (indices <$> PartialLinearizations d) k i
    | None => forall ids, ids ∈ indices <$> PartialLinearizations d -> k ∉ ids
    end
}.

Section Proof.
Context (px : Z) (text_width : string -> Z).
Context (data : list partitionVisualizationData) (Hdata : data_ok data).

Abbreviation ps1 := (prepare data).1.
Abbreviation els1 := (byGid (prepare data).1).
Abbreviation sorted1 := (prepare data).2.

Lemma lins_ok : Forall partition_lins_ok ps1.
Proof.
  apply Forall_forall. intros p Hp lin Hlin.
  assert (Hx : (elements p, lin) ∈ pairs ps1).
  { apply list_elem_of_bind. exists p. split; [|done]. by apply list_elem_of_fmap_2. }
  destruct (pairs_lin data _ Hx) as [d Hd]. split.
  - pose proof (pairs_in_range data Hdata) as Hr. rewrite Forall_forall in Hr. by apply Hr.
  - apply (lo_nonempty (History d)), (do_lins _ Hdata); apply Hd.
Qed.

(** What is drawn, with the scan that it is drawn from. *)
Record drawing (pg : page) : Prop := {
  dr_partitions : partitions (pageLayout pg) = ps1;
  dr_sorted : sortedTimestamps (pageLayout pg) = sorted1;
  dr_scan : ∃ tables, lp_tables_of ps1 = Some tables ∧
    Prepared.tables_ok (length els1) (pairs ps1) tables ∧
    solve px text_width els1 tables sorted1 = Some (solved (pageLayout pg));
  dr_drawn : Forall2 (partition_drawn px (xPos (solved (pageLayout pg)))) ps1 (drawnPartitions pg);
  dr_points : ∃ eps, allErrorPoints pg = insertion_sort error_point before_x eps ∧
    points_drawn px (xPos (solved (pageLayout pg))) 0 ps1 eps;
  dr_width : pageWidth pg = width px (xPos (solved (pageLayout pg))) sorted1
}.

Lemma draw_ok : ∃ pg, draw px text_width data = Some pg ∧ drawing pg.
Proof.
  destruct (compute_layout_total data Hdata px text_width)
    as (lay & tables & Hlay & Htab & Hok & Hps & Hsorted & Hsolve).
  unfold draw. rewrite Hlay. cbn [mbind option_bind].
  destruct (draw_partitions_ok px (xPos (solved lay)) ps1 0 [] lins_ok)
    as (ds & eps & Hrun & Hds & Heps).
  rewrite Hps, Hrun. cbn [mbind option_bind app]. eexists. split; [done|].
  split; cbn [pageLayout drawnPartitions allErrorPoints pageWidth];
    [done|done|by exists tables|done|by exists eps|by rewrite Hsorted].
Qed.

Section Drawn.
Context (pg : page) (Hpg : drawing pg).

Lemma error_point_spec pt :
  pt ∈ allErrorPoints pg <-> ∃ eps, pt ∈ eps ∧ points_drawn px (xPos (solved (pageLayout pg))) 0 ps1 eps ∧
    allErrorPoints pg = insertion_sort error_point before_x eps.
Proof.
  destruct (dr_points _ Hpg) as (eps & Heq & Hpts).
  assert (Hperm : allErrorPoints pg ≡ₚ eps).
  { rewrite Heq. apply (go_sort_perm (sort := insertion_sort)). }
  split; [intros Hin; exists eps; rewrite Hperm in Hin; by split_and!|].
  intros (eps' & Hin & _ & Heq'). rewrite Heq'.
  by rewrite (go_sort_perm (sort := insertion_sort)).
Qed.

Lemma error_point_sound pt :
  pt ∈ allErrorPoints pg -> ∃ p lin, ps1 !! ep_partition pt = Some p ∧
    linearizations p !! ep_lin pt = Some lin ∧ Index <$> last lin = Some (ep_index pt) ∧
    ∃ es prev ie, visits (elements p) lin es ∧
      last (marker_xs px (xPos (solved (pageLayout pg))) None es) = Some prev ∧
      ie ∈ illegal_next lin (elements p) ∧
      ep_x pt = illegal_x px (xPos (solved (pageLayout pg))) prev ie.2.
Proof.
  intros (eps & Hin & Hpts & _)%error_point_spec.
  destruct (pt_sound _ _ _ _ _ Hpts pt Hin) as (i & p & lin & Hp & -> & Hrest). by exists p, lin.
Qed.

Lemma error_point_complete i p j lin :
  ps1 !! i = Some p -> linearizations p !! j = Some lin -> illegal_next lin (elements p) ≠ [] ->
  ∃ pt, pt ∈ allErrorPoints pg ∧ ep_partition pt = i ∧ ep_lin pt = j.
Proof.
  intros Hp Hlin Hne. destruct (dr_points _ Hpg) as (eps & Heq & Hpts).
  destruct (pt_complete _ _ _ _ _ Hpts i p j lin Hp Hlin Hne) as (pt & Hin & H1 & H2).
  exists pt. split_and!; [|done|done]. apply error_point_spec. by exists eps.
Qed.

Lemma drawn_lookup i p :
  ps1 !! i = Some p -> ∃ d, drawnPartitions pg !! i = Some d ∧
    partition_drawn px (xPos (solved (pageLayout pg))) p d.
Proof. intros Hp. by apply (Forall2_lookup_l _ _ _ _ _ (dr_drawn _ Hpg)). Qed.

Lemma drawn_partition i p d :
  partitions (pageLayout pg) !! i = Some p -> drawnPartitions pg !! i = Some d ->
  partition_drawn px (xPos (solved (pageLayout pg))) p d.
Proof.
  rewrite (dr_partitions _ Hpg). intros Hp Hd.
  by apply (Forall2_lookup_lr _ _ _ _ _ _ (dr_drawn _ Hpg) Hp Hd).
Qed.

(** The last step of a linearization is an operation of its partition. *)
Lemma last_in_range p lin k :
  p ∈ ps1 -> lin ∈ linearizations p -> Index <$> last lin = Some k ->
  0 <= k < Z.of_nat (length (elements p)).
Proof.
  intros Hp Hlin Hk. pose proof lins_ok as Hall. rewrite Forall_forall in Hall.
  destruct (Hall p Hp lin Hlin) as [Hr _]. apply fmap_Some in Hk as (s & Hs & ->).
  apply Hr. simpl. rewrite last_lookup in Hs. by eapply list_elem_of_lookup_2.
Qed.

Context (Hfull : page_data data).

Lemma page_ok : PageOk pg.
Proof.
  pose proof (dr_partitions _ Hpg) as Hps. split.
  - intros i p d Hp Hd. rewrite (pd_rects _ _ _ _ (drawn_partition i p d Hp Hd)).
    apply length_fmap.
  - intros i p d Hp Hd. pose proof (pd_layers _ _ _ _ (drawn_partition i p d Hp Hd)) as Hl.
    symmetry. by eapply Forall2_length.
  - intros i p lin Hp Hlin. pose proof lins_ok as Hall. rewrite Forall_forall in Hall.
    rewrite Hps in Hp. apply list_elem_of_lookup_2 in Hp. by apply (Hall p Hp lin Hlin).
  - intros i p k j Hp Hj. rewrite Hps in Hp.
    destruct (prepare_lookup data i p Hp) as (d & Hd & -> & Hl & _). rewrite Hl in Hj.
    pose proof (pgd_largest _ Hfull d k (list_elem_of_lookup_2 _ _ _ Hd)) as Hlarge.
    rewrite Hj in Hlarge. destruct Hlarge as (q & Hq & _). apply lookup_lt_Some in Hq.
    by rewrite length_fmap in Hq.
  - intros i p d k j Hp Hd Hj.
    pose proof (pd_largest _ _ _ _ (drawn_partition i p d Hp Hd) k) as Hlarge.
    rewrite Hj in Hlarge. destruct Hlarge as (lin & Hlin & _). by eapply lookup_lt_Some.
  - intros pt Hpt. destruct (error_point_sound pt Hpt) as (p & lin & Hp & Hlin & Hix & _).
    destruct (last_in_range p lin (ep_index pt)) as [Hpos Hlt];
      [by eapply list_elem_of_lookup_2|by eapply list_elem_of_lookup_2|done|].
    split; [done|]. destruct (drawn_lookup _ _ Hp) as (d & Hd & _). exists p, d.
    rewrite Hps. split_and!; [done|done|lia].
Qed.
End Drawn.
End Proof.
