(* ===== verification/PageFits.v ===== *)
(** * The picture of a page whose operations start before the last timestamp

    The coordinates of [PageDraw] under a layout that meets the constraints of
    [LayoutProof]: everything has a place, boxes hold their text and their markers. *)
From S2P Require Import Prelude Visualization Layout LayoutProof LayoutInput LayoutBreaks.
From S2P Require Import Page PageUi PageDraw PageProof.
Import Visualization Layout LayoutProof Prepared Page PageUi PageDraw.

#[local] Open Scope Z_scope.

Lemma StronglySorted_lookup {A} (R : relation A) l i j a b :
  StronglySorted R l -> (i < j)%nat -> l !! i = Some a -> l !! j = Some b -> R a b.
Proof.
  intros Hs. revert i j. induction Hs as [|x l _ IH Hx]; intros [|i] [|j] Hij Ha Hb; try lia; try done.
  - simpl in *. simplify_eq. rewrite Forall_forall in Hx. apply Hx. by eapply list_elem_of_lookup_2.
  - apply (IH i j); [lia|done|done].
Qed.

(** The marker [ln] crosses the box [r], inside it. *)
Definition marks (px : Z) (r : rect) (ln : line) : Prop :=
  ∃ x rx w, x1 ln = Some x ∧ x2 ln = Some x ∧ rect_x r = Some rx ∧ rect_width r = Some w ∧
    rx <= x <= rx + w ∧ y1 ln = rect_y r - LINE_BLEED px ∧
    y2 ln = rect_y r + rect_height r + LINE_BLEED px.

Definition rect_fits (px : Z) (text_width : string -> Z) (el : element) (r : rect) : Prop :=
  rect_text r = elDescription el ∧ is_Some (rect_x r) ∧
  ∃ w, rect_width r = Some w ∧ text_width (rect_text r) + 2 * BOX_TEXT_PADDING px <= w.

(** The markers of a layer: one for each step in the box of its operation, one for each
    operation that could be next in the box of that, each at a distance from the one before. *)
Record layer_fits (px : Z) (rects : list rect) (lin : partialLinearization) (l : layer) : Prop := {
  lf_valid : Forall2 (λ s ln, ∃ r, rects.[Index s] = Some r ∧ marks px r ln) lin
    (of_class ValidPoint (lines l));
  lf_invalid : Forall2 (λ k ln, ∃ r, rects !! k = Some r ∧ marks px r ln) (illegal l)
    (of_class InvalidPoint (lines l));
  lf_apart : forall k a b xa xb, of_class ValidPoint (lines l) !! k = Some a ->
    of_class ValidPoint (lines l) !! S k = Some b -> x1 a = Some xa -> x1 b = Some xb ->
    xa + EPSILON px <= xb;
  lf_next : forall a b xa xb, last (of_class ValidPoint (lines l)) = Some a ->
    b ∈ of_class InvalidPoint (lines l) -> x1 a = Some xa -> x1 b = Some xb ->
    xa + EPSILON px <= xb
}.

Section Fits.
Context (px : Z) (text_width : string -> Z) (Hpx : 0 < px).
Context (data : list partitionVisualizationData) (Hdata : data_ok data).
Context (Hlast : starts_before_last data).

Abbreviation ps1 := (prepare data).1.
Abbreviation els1 := (byGid (prepare data).1).
Abbreviation sorted1 := (prepare data).2.
Abbreviation OFF := (PADDING px + XOFF px).
Abbreviation EPS := (EPSILON px).

(** A layout that meets the constraints, and the scan that shows it. *)
Record placed (xp : gmap (option Z) num) (tables : lp_tables) (w : Z -> Z) (lp : list (list Z)) :
    Prop := {
  pl_tables : Prepared.tables_ok (length els1) (pairs ps1) tables;
  pl_x : shows_x sorted1 xp w;
  pl_feasible : feasible px text_width els1 tables sorted1 w lp
}.

Section Placed.
Context (xp : gmap (option Z) num) (tables : lp_tables) (w : Z -> Z) (lp : list (list Z)).
Context (Hpl : placed xp tables w lp).

Lemma placed_start el : el ∈ els1 -> x_at xp (Some (elStart el)) = Some (w (elStart el)).
Proof. intros Hel. apply (pl_x _ _ _ _ Hpl). by apply els1_times. Qed.

Lemma placed_end el : el ∈ els1 -> x_at xp (Some (elEnd el)) = Some (w (elEnd el)).
Proof. intros Hel. apply (pl_x _ _ _ _ Hpl). by apply els1_times. Qed.

Lemma placed_mono_at i j a b :
  (i < j)%nat -> sorted1 !! i = Some a -> sorted1 !! j = Some b -> w a <= w b.
Proof.
  revert b. induction j as [|j IH]; intros b Hij Ha Hb; [lia|].
  destruct (lookup_lt_is_Some_2 sorted1 j) as [c Hc]; [apply lookup_lt_Some in Hb; lia|].
  pose proof (f_gap _ _ _ _ _ _ _ (pl_feasible _ _ _ _ Hpl) j c b Hc Hb) as Hgap.
  unfold BOX_GAP in Hgap. destruct (decide (i = j)) as [->|Hne]; [simplify_eq; lia|].
  specialize (IH c ltac:(lia) Ha Hc). lia.
Qed.

Lemma placed_mono a b : a ∈ sorted1 -> b ∈ sorted1 -> a < b -> w a <= w b.
Proof.
  intros [i Hi]%list_elem_of_lookup [j Hj]%list_elem_of_lookup Hab.
  destruct (decide (i < j)%nat) as [Hij|Hij]; [by eapply placed_mono_at|].
  destruct (sorted0_spec data) as [Hss _]. exfalso. destruct (decide (i = j)) as [->|Hne].
  { simplify_eq. lia. }
  assert (b < a); [|lia]. assert (Hji : (j < i)%nat) by lia.
  by apply (StronglySorted_lookup _ _ j i _ _ Hss).
Qed.

(** *** Boxes *)
Lemma rect_placed el :
  el ∈ els1 -> rect_fits px text_width el (draw_rect px xp el) ∧
  rect_x (draw_rect px xp el) = Some (w (elStart el) + OFF) ∧
  rect_width (draw_rect px xp el) = Some (w (elEnd el) - w (elStart el)).
Proof.
  intros Hel. unfold draw_rect, rect_fits. cbn [rect_x rect_width rect_text].
  rewrite placed_start, placed_end by done. cbn [nadd nsub fmap option_fmap option_map mbind option_bind].
  replace (w (elStart el) + (XOFF px + PADDING px)) with (w (elStart el) + OFF) by lia.
  split_and!; [done|by eexists| |done|done]. eexists. split; [done|].
  pose proof (f_text _ _ _ _ _ _ _ (pl_feasible _ _ _ _ Hpl) el Hel) as Ht.
  unfold LayoutProof.width in Ht. cbn [box_width box_of] in Ht. lia.
Qed.

Lemma mark_placed el x c :
  el ∈ els1 -> w (elStart el) + OFF <= x <= w (elEnd el) + OFF ->
  marks px (draw_rect px xp el) (mark px (Some x) (point_y px el) c).
Proof.
  intros Hel Hx. destruct (rect_placed el Hel) as (_ & H1 & H2). exists x. eexists _, _.
  split_and!; [done|done|exact H1|exact H2|lia|lia|..]; cbn [mark y1 y2 draw_rect rect_y rect_height];
    unfold point_y; lia.
Qed.

(** *** Markers *)

(** The markers of a linearization are not right of the points [ps] of the layout. *)
Lemma marker_xs_placed es : forall prev ps,
  Forall2 (λ el p, el ∈ els1 ∧ w (elStart el) <= p) es ps ->
  (forall k p q, ps !! k = Some p -> ps !! S k = Some q -> p + EPS <= q) ->
  (forall z p, prev = Some (Some z) -> head ps = Some p -> z + EPS <= p + OFF) ->
  prev ≠ Some None ->
  ∃ zs, marker_xs px xp prev es = Some <$> zs ∧
    Forall2 (λ el z, w (elStart el) + OFF <= z) es zs ∧ Forall2 (λ z p, z <= p + OFF) zs ps ∧
    (forall k z z', zs !! k = Some z -> zs !! S k = Some z' -> z + EPS <= z') ∧
    (forall z z', prev = Some (Some z) -> head zs = Some z' -> z + EPS <= z').
Proof.
  induction es as [|el es IH]; intros prev ps Hps Hap Hprev Hnan;
    inversion Hps as [|? p ? ps' [Hel Hp] Hps']; subst.
  { exists []. by split_and!. }
  cbn [marker_xs]. rewrite placed_start by done.
  change (nadd (Some (w (elStart el))) OFF) with (Some (w (elStart el) + OFF)).
  set (z := match prev with Some (Some z0) => Z.max (w (elStart el) + OFF) (z0 + EPS)
    | _ => w (elStart el) + OFF end).
  assert (Hz : match prev with
    | Some p0 => nmax (Some (w (elStart el) + OFF)) (nadd p0 EPS)
    | None => Some (w (elStart el) + OFF) end = Some z) by (unfold z; by destruct prev as [[]|]).
  assert (Hge : forall z0, prev = Some (Some z0) -> z0 + EPS <= z).
  { intros z0 Hz0. unfold z. rewrite Hz0. lia. }
  assert (Hlo : w (elStart el) + OFF <= z) by (unfold z; destruct prev as [[]|]; lia).
  rewrite Hz. assert (Hzp : z <= p + OFF).
  { unfold z. destruct prev as [[z0|]|]; [|lia..]. specialize (Hprev z0 p eq_refl eq_refl). lia. }
  destruct (IH (Some (Some z)) ps' Hps') as (zs & -> & H1 & H2 & H3 & H4).
  - intros k p0 q Hp0 Hq. by apply (Hap (S k)).
  - intros z0 q [= <-] Hq. destruct ps' as [|q' ps']; [done|]. simpl in Hq. simplify_eq.
    specialize (Hap 0%nat p q eq_refl eq_refl). lia.
  - done.
  - exists (z :: zs). split_and!; [done| | | |].
    + by constructor.
    + by constructor.
    + intros [|k] a b Ha Hb; [|by eapply H3]. simpl in Ha, Hb. assert (a = z) as -> by congruence.
      apply (H4 z b eq_refl). by destruct zs.
    + intros z0 z' Hz0 Hz'. simpl in Hz'. specialize (Hge z0 Hz0). simplify_eq. lia.
Qed.

(** The points of the layout for a linearization of the page. *)
Lemma lin_points p lin es :
  p ∈ ps1 -> lin ∈ linearizations p -> visits (elements p) lin es ->
  ∃ l ps, pairs ps1 !! l = Some (elements p, lin) ∧ lp !! l = Some ps ∧
    Forall2 (λ el q, el ∈ els1 ∧ w (elStart el) <= q <= w (elEnd el)) es ps.
Proof.
  intros Hp Hlin Hes. assert (Hx : (elements p, lin) ∈ pairs ps1).
  { apply list_elem_of_bind. exists p. split; [|done]. by apply list_elem_of_fmap_2. }
  apply list_elem_of_lookup in Hx as [l Hl].
  destruct (Forall2_lookup_l _ _ _ _ _ (to_all _ _ _ (pl_tables _ _ _ _ Hpl)) Hl) as (gids & Hg & Hg2).
  pose proof (pl_feasible _ _ _ _ Hpl) as Hf.
  destruct (Forall2_lookup_l _ _ _ _ _ (f_points _ _ _ _ _ _ _ Hf) Hg) as (ps & Hps & Hlen).
  exists l, ps. split_and!; [done|done|]. simpl in Hg2. apply Forall2_same_length_lookup. split.
  { rewrite <- Hlen, <- (Forall2_length _ _ _ Hg2). symmetry. by eapply Forall2_length. }
  intros k el q Hel Hq.
  destruct (Forall2_lookup_r _ _ _ _ _ Hes Hel) as (s & Hs & Hsel).
  destruct (Forall2_lookup_l _ _ _ _ _ Hg2 Hs) as (g & Hgk & el' & Hel' & Hgid).
  assert (el' = el) as -> by congruence.
  destruct (partition_elements data p Hp) as (d & _ & _ & _ & Hall).
  unfold slice_get in Hsel. case_decide; [|done]. destruct (Hall _ _ Hsel) as [Hin _].
  split; [done|]. apply els1_elem in Hin as Hgel. rewrite Hgid in Hgel.
  destruct (f_box _ _ _ _ _ _ _ Hf l gids k g el Hg Hgk Hgel) as (q' & Hq' & Hbox).
  unfold point in Hq'. rewrite Hps in Hq'. simpl in Hq'. by simplify_eq.
Qed.

Lemma apart_points l ps k a b :
  lp !! l = Some ps -> ps !! k = Some a -> ps !! S k = Some b -> a + EPS <= b.
Proof.
  intros Hl Ha Hb. apply (f_apart _ _ _ _ _ _ _ (pl_feasible _ _ _ _ Hpl) l k);
    unfold point; rewrite Hl; done.
Qed.

(** The markers of a linearization of the page. *)
Lemma lin_markers p lin es :
  p ∈ ps1 -> lin ∈ linearizations p -> visits (elements p) lin es ->
  ∃ zs, marker_xs px xp None es = Some <$> zs ∧
    Forall2 (λ el z, el ∈ els1 ∧ w (elStart el) + OFF <= z <= w (elEnd el) + OFF) es zs ∧
    (forall k z z', zs !! k = Some z -> zs !! S k = Some z' -> z + EPS <= z') ∧
    forall z k el, last zs = Some z -> (k, el) ∈ illegal_next lin (elements p) ->
      el ∈ els1 ∧ z + EPS <= w (elEnd el) + OFF.
Proof.
  intros Hp Hlin Hes. destruct (lin_points p lin es Hp Hlin Hes) as (l & ps & Hl & Hps & Hbox).
  destruct (marker_xs_placed es None ps) as (zs & Hrun & H1 & H2 & H3 & _).
  { eapply Forall2_impl; [exact Hbox|]. intros el q [? ?]. split; [done|lia]. }
  { intros k a b. by apply (apart_points l). }
  { done. }
  { done. }
  exists zs. split_and!; [done| |done|].
  - apply Forall2_same_length_lookup. split; [by eapply Forall2_length|]. intros k el z Hel Hz.
    pose proof (Forall2_lookup_lr _ _ _ _ _ _ H1 Hel Hz) as Hlo. simpl in Hlo.
    destruct (Forall2_lookup_l _ _ _ _ _ Hbox Hel) as (q & Hq & Hin & Hqb).
    pose proof (Forall2_lookup_lr _ _ _ _ _ _ H2 Hz Hq) as Hhi. simpl in Hhi. split; [done|lia].
  - intros z k el Hz Hie. destruct (partition_elements data p Hp) as (d & _ & _ & _ & Hall).
    apply illegal_next_elem in Hie as Hk. destruct Hk as (Hk & _).
    destruct (Hall _ _ Hk) as [Hin _]. split; [done|]. apply els1_elem in Hin as Hg.
    destruct (to_ending _ _ _ (pl_tables _ _ _ _ Hpl) (elGid el)) as (en & Hen & Hiff).
    { by eapply lookup_lt_Some. }
    assert (Hlen : l ∈ en) by (apply Hiff; by exists (elements p, lin), (k, el)).
    destruct (Forall2_lookup_l _ _ _ _ _ (to_all _ _ _ (pl_tables _ _ _ _ Hpl)) Hl) as (gids & Hgl & Hg2).
    destruct (f_illegal _ _ _ _ _ _ _ (pl_feasible _ _ _ _ Hpl) (elGid el) el en l gids Hg Hen Hlen Hgl)
      as (q & Hq & Hle).
    unfold point in Hq. rewrite Hps in Hq. simpl in Hq.
    assert (Hlz : length gids = length zs).
    { rewrite <- (Forall2_length _ _ _ Hg2), <- (Forall2_length _ _ _ H1).
      by eapply Forall2_length. }
    rewrite Hlz in Hq. rewrite last_lookup in Hz.
    pose proof (Forall2_lookup_lr _ _ _ _ _ _ H2 Hz Hq). simpl in *. lia.
Qed.

Lemma start_end el : el ∈ els1 -> w (elStart el) <= w (elEnd el).
Proof.
  intros Hel. destruct (els1_times data el Hel). apply placed_mono; [done|done|].
  by apply (op_times data Hdata Hlast).
Qed.

(** A marker for an operation that could be next. *)
Lemma illegal_placed z el :
  el ∈ els1 -> z + EPS <= w (elEnd el) + OFF ->
  ∃ x, illegal_x px xp (Some z) el = Some x ∧ z + EPS <= x ∧
    w (elStart el) + OFF <= x <= w (elEnd el) + OFF.
Proof.
  intros Hel Hz. unfold illegal_x. rewrite placed_start by done.
  exists (Z.max (w (elStart el) + OFF) (z + EPS)). split; [done|]. pose proof (start_end el Hel). lia.
Qed.

Lemma rects_of_elements p k el :
  (elements p).[k] = Some el -> (draw_rect px xp <$> elements p).[k] = Some (draw_rect px xp el).
Proof.
  unfold slice_get. case_decide; [|done]. intros Hel. by rewrite list_lookup_fmap, Hel.
Qed.

Lemma layer_placed p lin l :
  p ∈ ps1 -> lin ∈ linearizations p -> layer_drawn px xp (elements p) lin l ->
  layer_fits px (draw_rect px xp <$> elements p) lin l.
Proof.
  intros Hp Hlin [Hill (es & prev & Hes & Hprev & Hval & Hinv)].
  destruct (lin_markers p lin es Hp Hlin Hes) as (zs & Hzs & Hbox & Hap & Hnext).
  rewrite Hzs in Hval, Hprev. rewrite fmap_last in Hprev.
  destruct (last zs) as [z|] eqn:Hz; [|done]. injection Hprev as <-.
  assert (Hk : forall k ln, of_class ValidPoint (lines l) !! k = Some ln -> ∃ z0 el,
    zs !! k = Some z0 ∧ es !! k = Some el ∧ ln = mark px (Some z0) (point_y px el) ValidPoint).
  { intros k ln. rewrite Hval, lookup_zip_with, list_lookup_fmap. intros Hln.
    destruct (zs !! k) as [z0|]; [|done]. destruct (es !! k) as [el|]; [|done]. simpl in Hln.
    exists z0, el. by simplify_eq. }
  assert (Hnx : forall k el, (k, el) ∈ illegal_next lin (elements p) ->
    ∃ x, illegal_x px xp (Some z) el = Some x ∧ z + EPS <= x ∧ el ∈ els1 ∧
      w (elStart el) + OFF <= x <= w (elEnd el) + OFF).
  { intros k el Hie. destruct (Hnext z k el eq_refl Hie) as [Hel Hle].
    destruct (illegal_placed z el Hel Hle) as (x & H1 & H2 & H3). by exists x. }
  split.
  - apply Forall2_same_length_lookup. split.
    { rewrite Hval, length_zip_with, length_fmap, (Forall2_length _ _ _ Hbox) at 1.
      rewrite <- (Forall2_length _ _ _ Hbox), (Forall2_length _ _ _ Hes). lia. }
    intros k s ln Hs Hln. destruct (Hk k ln Hln) as (z0 & el & Hz0 & Hel & ->).
    pose proof (Forall2_lookup_lr _ _ _ _ _ _ Hes Hs Hel) as Hsel. simpl in Hsel.
    destruct (Forall2_lookup_lr _ _ _ _ _ _ Hbox Hel Hz0) as [Hin Hb]. simpl in Hb.
    eexists. split; [by apply rects_of_elements|]. by apply mark_placed.
  - rewrite Hill, Hinv. apply Forall2_fmap_r, Forall2_fmap_l, Forall_Forall2_diag.
    apply Forall_forall. intros [k el] Hie. simpl. apply illegal_next_elem in Hie as Hk'.
    destruct (Hnx k el Hie) as (x & -> & _ & Hin & Hb). eexists.
    rewrite list_lookup_fmap, (proj1 Hk'). split; [done|]. by apply mark_placed.
  - intros k a b xa xb Ha Hb Hxa Hxb.
    destruct (Hk _ _ Ha) as (za & ea & Hza & _ & ->). destruct (Hk _ _ Hb) as (zb & eb & Hzb & _ & ->).
    simpl in Hxa, Hxb. simplify_eq. by apply (Hap k).
  - intros a b xa xb Ha Hb Hxa Hxb. rewrite Hinv in Hb.
    apply list_elem_of_fmap in Hb as ([k el] & -> & Hie).
    destruct (Hnx k el Hie) as (x & Hx & Hzx & _). cbn [snd mark x1] in Hxb. rewrite Hx in Hxb.
    rewrite last_lookup in Ha. destruct (Hk _ _ Ha) as (za & ea & Hza & _ & ->).
    simpl in Hxa. injection Hxa as <-. injection Hxb as <-. assert (za = z) as ->; [|done].
    rewrite last_lookup in Hz. rewrite Hval, length_zip_with, length_fmap in Hza.
    rewrite (Forall2_length _ _ _ Hbox), Nat.min_id in Hza. congruence.
Qed.
End Placed.

(** The page that [draw] makes is placed. *)
Lemma drawing_placed pg :
  drawing px text_width data pg -> ∃ tables w lp,
    lp_tables_of ps1 = Some tables ∧ placed (xPos (solved (pageLayout pg))) tables w lp ∧
    linearizationPositions (solved (pageLayout pg)) = nums lp ∧
    forall w' lp', feasible px text_width els1 tables sorted1 w' lp' ->
      (forall t, t ∈ sorted1 -> w t <= w' t) ∧ all_below lp lp'.
Proof.
  intros Hpg. destruct (dr_scan _ _ _ _ Hpg) as (tables & Htab & Hok & Hsolve).
  destruct (solve_ok px text_width els1 tables sorted1 (LayoutInput0 :=
    layout_input data Hdata Hlast tables Hok) Hpx) as (st & w & lp & Hst & Hx & Hl & Hf & Hleast).
  rewrite Hsolve in Hst. injection Hst as <-. exists tables, w, lp. split_and!; [done|by split|done|exact Hleast].
Qed.
End Fits.
