(* ===== verification/PageTheorems.v ===== *)
(** * The page of a checked history

    What the user of [Visualize] sees: where things are drawn, what the handlers show, and
    that the data of a history that [CheckOperationsVerbose] checked always makes a page. *)
From S2P Require Import Prelude Bitset Model Entries LinkedList LinkedEntries.
From S2P Require Import Linearizability CheckSingle CheckSingleProof CheckSingleSpec.
From S2P Require Import HistorySpec EventSpec CheckParallel Check KvModel Porcupine Visualization.
From S2P Require Import Layout LayoutProof LayoutInput LayoutBreaks Page PageUi PageDraw.
From S2P Require Import PageProof PageFits.
Import Visualization Layout LayoutProof Prepared Page PageUi PageDraw.

#[local] Open Scope Z_scope.

(** ** Layout and drawing *)

Lemma draw_layout px text_width data pg :
  draw px text_width data = Some pg -> compute_layout px text_width data = Some (pageLayout pg).
Proof.
  unfold draw. destruct (compute_layout px text_width data) as [lay|]; [|done]. simpl.
  destruct (draw_partitions _ _ _ _ _) as [[ds eps]|]; [|done]. simpl. by intros [= <-].
Qed.

(** C22: the scan over the timestamps solves the layout optimally, as the comment claims: when
    every operation starts before the last timestamp, every timestamp and every linearization
    point gets a position, the positions meet all constraints (timestamps a gap apart, boxes
    as wide as their text, linearization points inside their boxes and a distance apart, room
    for the operations that could be next), and no other assignment that meets them puts any
    timestamp or any point further left. *)
Theorem layout_optimal px text_width data :
  0 < px -> data_ok data -> starts_before_last data ->
  ∃ lay tables w lp, compute_layout px text_width data = Some lay ∧
    lp_tables_of (partitions lay) = Some tables ∧
    shows_x (sortedTimestamps lay) (xPos (solved lay)) w ∧
    linearizationPositions (solved lay) = nums lp ∧
    feasible px text_width (byGid (partitions lay)) tables (sortedTimestamps lay) w lp ∧
    forall w' lp',
      feasible px text_width (byGid (partitions lay)) tables (sortedTimestamps lay) w' lp' ->
      (forall t, t ∈ sortedTimestamps lay -> w t <= w' t) ∧ all_below lp lp'.
Proof.
  intros Hpx Hdata Hlast. destruct (draw_ok px text_width data Hdata) as (pg & Hdraw & Hpg).
  destruct (drawing_placed px text_width Hpx data Hdata Hlast pg Hpg)
    as (tables & w & lp & Htab & [_ Hx Hf] & Hl & Hleast).
  pose proof (draw_layout px text_width data pg Hdraw) as Hlay.
  rewrite <- (dr_partitions _ _ _ _ Hpg), <- (dr_sorted _ _ _ _ Hpg) in *.
  by exists (pageLayout pg), tables, w, lp.
Qed.

Lemma page_width px text_width data pg :
  0 < px -> data_ok data -> starts_before_last data -> drawing px text_width data pg ->
  is_Some (pageWidth pg).
Proof.
  intros Hpx Hdata Hlast Hpg. destruct (drawing_placed px text_width Hpx data Hdata Hlast pg Hpg)
    as (tables & w & lp & _ & Hpl & _). rewrite (dr_width _ _ _ _ Hpg). unfold width.
  destruct (last (prepare data).2) as [t|] eqn:Ht.
  - rewrite last_lookup in Ht.
    rewrite (pl_x _ _ _ _ _ _ _ Hpl t) by (by eapply list_elem_of_lookup_2). by eexists.
  - apply last_None in Ht. destruct (dr_scan _ _ _ _ Hpg) as (t' & _ & _ & Hs).
    rewrite Ht in Hs. injection Hs as Hs. rewrite <- Hs. by eexists.
Qed.

(** C24: when every operation starts before the last timestamp the picture is complete and
    readable: the page has a width, every box has a place and is wide enough for its text,
    every marker of a linearization, and of an operation that could be next, lies within the
    box of its operation, and markers that follow each other are at least [EPSILON] apart. *)
Theorem drawing_fits px text_width data :
  0 < px -> data_ok data -> starts_before_last data ->
  ∃ pg, draw px text_width data = Some pg ∧ is_Some (pageWidth pg) ∧
    length (drawnPartitions pg) = length data ∧
    forall i p d, partitions (pageLayout pg) !! i = Some p -> drawnPartitions pg !! i = Some d ->
      Forall2 (rect_fits px text_width) (elements p) (historyRects d) ∧
      Forall2 (layer_fits px (historyRects d)) (linearizations p) (partialLayers d).
Proof.
  intros Hpx Hdata Hlast. destruct (draw_ok px text_width data Hdata) as (pg & Hdraw & Hpg).
  destruct (drawing_placed px text_width Hpx data Hdata Hlast pg Hpg)
    as (tables & w & lp & _ & Hpl & _). exists pg. split_and!; [done| | |].
  - by apply (page_width px text_width data pg).
  - rewrite <- (Forall2_length _ _ _ (dr_drawn _ _ _ _ Hpg)). apply prepare_length.
  - intros i p d Hp Hd. pose proof (drawn_partition px text_width data pg Hpg i p d Hp Hd) as Hpd.
    rewrite (dr_partitions _ _ _ _ Hpg) in Hp. apply list_elem_of_lookup_2 in Hp.
    rewrite (pd_rects _ _ _ _ Hpd). split.
    + apply Forall2_fmap_r, Forall_Forall2_diag, Forall_forall. intros el Hel.
      apply (rect_placed px text_width data _ tables w lp Hpl).
      apply list_elem_of_bind. by exists p.
    + apply Forall2_same_length_lookup. pose proof (pd_layers _ _ _ _ Hpd) as Hl.
      split; [by eapply Forall2_length|]. intros j lin l Hlin Hj.
      apply (layer_placed px text_width Hpx data Hdata Hlast _ tables w lp Hpl); [done| |].
      * by eapply list_elem_of_lookup_2.
      * by apply (Forall2_lookup_lr _ _ _ _ _ _ Hl Hlin Hj).
Qed.

(** ** The operations that could be next *)

(** In terms of the history: [k] is not in [lin], and no operation outside [lin] returned
    before [k] was called. *)
Definition next_after (d : partitionVisualizationData) (lin : partialLinearization) (k : nat) : Prop :=
  (Z.of_nat k ∉ indices lin) ∧ ∃ he, History d !! k = Some he ∧
    forall k' he', History d !! k' = Some he' -> Z.of_nat k' ∉ indices lin -> Start he <= End_ he'.

Lemma could_be_next_elem els lin k :
  could_be_next els lin (Z.of_nat k) <-> ∃ el, (k, el) ∈ illegal_next lin els.
Proof.
  unfold could_be_next. split.
  - intros (j & Hj & ([j' el] & -> & Hin)%list_elem_of_fmap)%list_elem_of_fmap. exists el.
    simpl in Hj. assert (j' = k) as <- by lia. done.
  - intros [el Hin]. apply list_elem_of_fmap_2. by apply (list_elem_of_fmap_2 fst) in Hin.
Qed.

Lemma could_be_next_after data i p d lin k :
  data_ok data -> starts_before_last data -> (prepare data).1 !! i = Some p -> data !! i = Some d ->
  could_be_next (elements p) lin (Z.of_nat k) <-> next_after d lin k.
Proof.
  intros Hdata Hlast Hp Hd. rewrite could_be_next_elem.
  destruct (prepare_lookup data i p Hp) as (d' & Hd' & _ & _ & Hlen & Hall).
  assert (d' = d) as -> by congruence. split.
  - intros [el Hin]. apply illegal_next_elem in Hin as (Hel & Hk & Hle).
    destruct (Hall k el Hel) as (_ & he & Hhe & Hop). split; [done|]. exists he. split; [done|].
    intros k' he' Hhe' Hk'. destruct (lookup_lt_is_Some_2 (elements p) k') as [el' Hel'].
    { rewrite Hlen. by eapply lookup_lt_Some. }
    destruct (Hall k' el' Hel') as (_ & he2 & Hhe2 & Hop'). assert (he2 = he') as -> by congruence.
    apply (shows_order data Hlast _ _ _ _ Hop' Hop). by eapply Hle.
  - intros (Hk & he & Hhe & Hle). destruct (lookup_lt_is_Some_2 (elements p) k) as [el Hel].
    { rewrite Hlen. by eapply lookup_lt_Some. }
    exists el. apply illegal_next_elem. split_and!; [done|done|]. intros j el' Hel' Hj.
    destruct (Hall k el Hel) as (_ & h1 & Hh1 & Hop). assert (h1 = he) as -> by congruence.
    destruct (Hall j el' Hel') as (_ & h2 & Hh2 & Hop').
    apply (shows_order data Hlast _ _ _ _ Hop' Hop). by eapply Hle.
Qed.

(** ** Highlighting *)

(** What [linearizationIndex] should find for the operation [k] of [d]. *)
Definition highlighted (d : partitionVisualizationData) (k : nat) (o : option nat) : Prop :=
  let shown := indices <$> PartialLinearizations d in
  match o with
  | Some j => is_largest shown (Z.of_nat k) j ∨
      (forall ids, ids ∈ shown -> Z.of_nat k ∉ ids) ∧
      first_longest (PartialLinearizations d) (λ lin, next_after d lin k) j
  | None => (forall ids, ids ∈ shown -> Z.of_nat k ∉ ids) ∧
      forall lin, lin ∈ PartialLinearizations d -> ¬ next_after d lin k
  end.

Lemma drawing_of px text_width data pg :
  data_ok data -> draw px text_width data = Some pg -> drawing px text_width data pg.
Proof.
  intros Hdata Hdraw. destruct (draw_ok px text_width data Hdata) as (pg' & Hdraw' & Hpg).
  by rewrite Hdraw in Hdraw'; injection Hdraw' as ->.
Qed.

Lemma data_partition px text_width data pg i d :
  drawing px text_width data pg -> data !! i = Some d ->
  ∃ p dr, (prepare data).1 !! i = Some p ∧ drawnPartitions pg !! i = Some dr ∧
    partition_drawn px (xPos (solved (pageLayout pg))) p dr ∧
    linearizations p = PartialLinearizations d ∧ largest p = Largest d ∧
    length (elements p) = length (History d).
Proof.
  intros Hpg Hd. destruct (prepare_lookup_data data i d Hd) as [p Hp].
  destruct (prepare_lookup data i p Hp) as (d' & Hd' & H1 & H2 & H3 & _).
  assert (d' = d) as -> by congruence.
  destruct (drawn_lookup px text_width data pg Hpg i p Hp) as (dr & Hdr & Hpd). by exists p, dr.
Qed.

(** What [linearizationIndex] finds in the data of a page. *)
Lemma highlight_found px text_width data pg i d k :
  page_data data -> starts_before_last data -> draw px text_width data = Some pg ->
  data !! i = Some d -> (k < length (History d))%nat ->
  ∃ o, linearizationIndex pg (Z.of_nat i) (Z.of_nat k) = Some o ∧ highlighted d k o.
Proof.
  intros Hfull Hlast Hdraw Hd Hk. pose proof (pgd_ok _ Hfull) as Hdata.
  pose proof (drawing_of _ _ _ _ Hdata Hdraw) as Hpg.
  destruct (data_partition _ _ _ _ i d Hpg Hd) as (p & dr & Hp & Hdr & Hpd & Hlins & Hlarge & _).
  unfold linearizationIndex, pagePartition. rewrite (dr_partitions _ _ _ _ Hpg), !slice_get_nat, Hp, Hdr.
  cbn [mbind option_bind]. rewrite Hlarge.
  pose proof (pgd_largest _ Hfull d (Z.of_nat k) (list_elem_of_lookup_2 _ _ _ Hd)) as Hl.
  destruct (Largest d !! Z.of_nat k) as [j|].
  { exists (Some j). split; [done|]. by left. }
  eexists. split; [done|]. pose proof (pd_largest _ _ _ _ Hpd (Z.of_nat k)) as Hn.
  rewrite Hlins in Hn. destruct (drawnIllegal dr !! Z.of_nat k) as [j|]; simpl in Hn.
  - right. split; [done|]. eapply first_longest_ext; [|exact Hn]. intros lin _.
    by apply (could_be_next_after data i p d).
  - split; [done|]. intros lin Hlin Hnext. apply (Hn lin Hlin).
    by apply (could_be_next_after data i p d).
Qed.

(** C23: the handlers never fail, and the page always shows what one of three states says:
    nothing singled out (the longest linearization of each partition is shown), the mouse over
    an operation, or an operation selected (its partition and its linearization are shown and
    the rest is dimmed).  The link is active exactly when a visible linearization has an
    error point and leads to the first of them, exactly the selected operation is framed, and
    a tooltip that is kept is the one that would be computed again. *)
Theorem page_ui_correct px text_width data :
  page_data data ->
  ∃ pg, render px text_width data = Some (pg, initial pg) ∧
    (forall i d k, data !! i = Some d -> (k < length (History d))%nat -> target pg i k) ∧
    forall evs, Forall (event_ok pg) evs ->
      ∃ u, run_events pg (initial pg) evs = Some u ∧ shows pg (foldl (next pg) Idle evs) u.
Proof.
  intros Hfull. pose proof (pgd_ok _ Hfull) as Hdata.
  destruct (draw_ok px text_width data Hdata) as (pg & Hdraw & Hpg). exists pg.
  pose proof (page_ok px text_width data Hdata pg Hpg Hfull) as Hok. split_and!.
  - unfold render. by rewrite Hdraw.
  - intros i d k Hd Hk.
    destruct (data_partition _ _ _ _ i d Hpg Hd) as (p & dr & Hp & Hdr & _ & _ & _ & Hlen).
    exists p, dr. rewrite (dr_partitions _ _ _ _ Hpg), Hlen. done.
  - intros evs Hevs.
    destruct (run_events_ok pg evs Idle (initial pg)) as (u & Hu & _ & Hs); [done|done|by apply initial_ui_ok|].
    by exists u.
Qed.

(** ** The link to the first error *)

Lemma insert_sorted_ext {A} (less less' : A -> A -> bool) x l :
  (forall y, y ∈ l -> less x y = less' x y) -> insert_sorted less x l = insert_sorted less' x l.
Proof.
  induction l as [|y l IH]; intros Hext; simpl; [done|]. rewrite <- (Hext y) by left.
  rewrite IH; [done|]. intros z Hz. apply Hext. by right.
Qed.

Lemma insertion_sort_ext {A} (less less' : A -> A -> bool) l :
  (forall x y, x ∈ l -> y ∈ l -> less x y = less' x y) ->
  insertion_sort A less l = insertion_sort A less' l.
Proof.
  induction l as [|x l IH] using rev_ind; intros Hext; [done|].
  unfold insertion_sort. rewrite !foldl_app. simpl.
  change (insert_sorted less x (insertion_sort A less l) =
    insert_sorted less' x (insertion_sort A less' l)).
  rewrite <- IH by (intros; apply Hext; set_solver). apply insert_sorted_ext. intros y Hy.
  apply Hext; [set_solver|]. rewrite (go_sort_perm (sort := insertion_sort)) in Hy. set_solver.
Qed.

(** With numbers for coordinates the error points are in the order of these. *)
Lemma error_points_sorted eps :
  (forall pt, pt ∈ eps -> is_Some (ep_x pt)) ->
  StronglySorted (λ a b, default 0 (ep_x a) <= default 0 (ep_x b))
    (insertion_sort error_point before_x eps).
Proof.
  intros Hx. rewrite (insertion_sort_ext _ (λ a b, bool_decide (default 0 (ep_x a) < default 0 (ep_x b)))).
  - apply (sort_by_sorted (λ a, default 0 (ep_x a))).
  - intros a b [xa Ha]%Hx [xb Hb]%Hx. unfold before_x. by rewrite Ha, Hb.
Qed.

Section Jump.
Context (px : Z) (text_width : string -> Z) (data : list partitionVisualizationData) (pg : page).
Context (Hfull : page_data data) (Hpg : drawing px text_width data pg).

(** On the page as it is loaded, an error point is visible when its linearization is the
    longest of its partition. *)
Lemma idle_point_hidden pt :
  pt ∈ allErrorPoints pg -> point_hidden (layers_of pg Idle) pt = negb (bool_decide (ep_lin pt = 0%nat)).
Proof.
  intros Hpt. destruct (error_point_sound px text_width data pg Hpg pt Hpt)
    as (p & lin & Hp & Hlin & _).
  destruct (drawn_lookup px text_width data pg Hpg _ p Hp) as (dr & Hdr & Hpd).
  unfold point_hidden. rewrite lookup_layers_of, Hdr. cbn [fmap option_fmap option_map mbind option_bind].
  rewrite list_lookup_imap.
  destruct (Forall2_lookup_l _ _ _ _ _ (pd_layers _ _ _ _ Hpd) Hlin) as (l & -> & _). done.
Qed.

(** The last operation of the longest linearization is shown with that linearization. *)
Lemma last_of_longest i d lin k :
  data !! i = Some d -> PartialLinearizations d !! 0%nat = Some lin ->
  Index <$> last lin = Some k -> 0 <= k ->
  linearizationIndex pg (Z.of_nat i) k = Some (Some 0%nat).
Proof.
  intros Hd Hlin Hk Hpos. destruct (data_partition _ _ _ _ i d Hpg Hd) as (p & dr & Hp & Hdr & _ & _ & Hl & _).
  unfold linearizationIndex, pagePartition. rewrite (dr_partitions _ _ _ _ Hpg), !slice_get_nat, Hp.
  cbn [mbind option_bind]. rewrite Hl. apply list_elem_of_lookup_2 in Hd.
  pose proof (pgd_largest _ Hfull d k Hd) as Hlarge. pose proof (pgd_sorted _ Hfull d Hd) as Hsorted.
  assert (H0 : (indices <$> PartialLinearizations d) !! 0%nat = Some (indices lin)).
  { by rewrite list_lookup_fmap, Hlin. }
  assert (Hin : k ∈ indices lin).
  { apply fmap_Some in Hk as (s & Hs & ->). apply (list_elem_of_fmap_2 Index).
    rewrite last_lookup in Hs. by eapply list_elem_of_lookup_2. }
  destruct (Largest d !! k) as [j|].
  - destruct Hlarge as (q & Hq & _ & _ & Hfirst). destruct j as [|j]; [done|]. exfalso.
    specialize (Hfirst 0%nat (indices lin) ltac:(lia) H0 Hin).
    pose proof (is_sorted_strongly _ _ longer_strict_weak Hsorted) as Hss.
    pose proof (StronglySorted_lookup _ _ 0%nat (S j) _ _ Hss ltac:(lia) H0 Hq) as Hlong.
    unfold not_after, longer in Hlong. apply bool_decide_eq_false in Hlong. lia.
  - exfalso. apply (Hlarge (indices lin)); [by eapply list_elem_of_lookup_2|done].
Qed.

Lemma error_points_numbers pt :
  0 < px -> starts_before_last data -> pt ∈ allErrorPoints pg -> is_Some (ep_x pt).
Proof.
  intros Hpx Hlast Hpt. pose proof (pgd_ok _ Hfull) as Hdata.
  destruct (drawing_placed px text_width Hpx data Hdata Hlast pg Hpg)
    as (tables & w & lp & _ & Hpl & _).
  destruct (error_point_sound px text_width data pg Hpg pt Hpt)
    as (p & lin & Hp & Hlin & _ & es & prev & [k el] & Hes & Hprev & Hie & ->).
  apply list_elem_of_lookup_2 in Hp, Hlin.
  destruct (lin_markers px text_width data _ tables w lp Hpl p lin es Hp Hlin Hes)
    as (zs & Hzs & _ & _ & Hnext).
  rewrite Hzs, fmap_last in Hprev. destruct (last zs) as [z|] eqn:Hz; [|done].
  injection Hprev as <-. destruct (Hnext z k el eq_refl Hie) as [Hel Hle].
  destruct (illegal_placed px text_width Hpx data Hdata Hlast _ tables w lp Hpl z el Hel Hle)
    as (x & Hx & _). by exists x.
Qed.
End Jump.

(** On the page as it is loaded, the link is inactive exactly when no operation could be
    next after any of the longest linearizations; otherwise clicking it selects the operation
    before the leftmost of the visible error points, and the linearization with that point
    stays visible. *)
Theorem jump_shows_error px text_width data pg :
  0 < px -> page_data data -> starts_before_last data -> draw px text_width data = Some pg ->
  match first_point pg (layers_of pg Idle) with
  | None => forall i d lin k, data !! i = Some d -> PartialLinearizations d !! 0%nat = Some lin ->
      ¬ next_after d lin k
  | Some pt =>
      let m := next pg Idle JumpClick in
      m = Selected (ep_partition pt) (Z.to_nat (ep_index pt)) ∧
      ep_lin pt = 0%nat ∧ hidden_layer pg m (ep_partition pt) (ep_lin pt) = false ∧
      ∃ x, ep_x pt = Some x ∧ forall pt' x', pt' ∈ allErrorPoints pg ->
        point_hidden (layers_of pg Idle) pt' = false -> ep_x pt' = Some x' -> x <= x'
  end.
Proof.
  intros Hpx Hfull Hlast Hdraw. pose proof (pgd_ok _ Hfull) as Hdata.
  pose proof (drawing_of _ _ _ _ Hdata Hdraw) as Hpg.
  destruct (first_point pg (layers_of pg Idle)) as [pt|] eqn:Hf; unfold first_point in Hf.
  - cbn [next]. unfold first_point. rewrite Hf. apply fmap_Some in Hf as ([n pt'] & Hf & ->).
    cbn [snd]. apply list_find_Some in Hf as (Hn & Hvis & Hbefore).
    apply list_elem_of_lookup_2 in Hn as Hpt. rewrite (idle_point_hidden _ _ _ _ Hpg) in Hvis by done.
    apply negb_false_iff, bool_decide_eq_true in Hvis.
    destruct (error_point_sound px text_width data pg Hpg pt' Hpt) as (p & lin & Hp & Hlin & Hix & _).
    destruct (prepare_lookup data _ p Hp) as (d & Hd & Hlins & _). rewrite Hvis, Hlins in Hlin.
    assert (Hrange : 0 <= ep_index pt').
    { eapply (last_in_range data Hdata p lin); [by eapply list_elem_of_lookup_2| |done].
      rewrite Hlins. by eapply list_elem_of_lookup_2. }
    split_and!; [done|done| |].
    + unfold hidden_layer. cbn [focus]. rewrite bool_decide_eq_true_2; [done|]. split; [done|].
      rewrite Z2Nat.id, Hvis by done. by eapply last_of_longest.
    + pose proof (error_points_numbers px text_width data pg Hfull Hpg) as Hnum.
      destruct (Hnum pt' Hpx Hlast Hpt) as [x Hx]. exists x. split; [done|].
      intros q xq Hq Hqvis Hxq. apply list_elem_of_lookup in Hq as [j Hj].
      destruct (decide (j < n)%nat) as [Hjn|Hjn]; [by destruct (Hbefore j q Hj Hjn)|].
      destruct (decide (j = n)) as [->|Hne]; [simplify_eq; lia|].
      destruct (dr_points _ _ _ _ Hpg) as (eps & Heq & _).
      assert (Hs : StronglySorted (λ a b, default 0 (ep_x a) <= default 0 (ep_x b)) (allErrorPoints pg)).
      { rewrite Heq. apply error_points_sorted. intros a Ha. apply Hnum; [done|done|].
        rewrite Heq. by rewrite (go_sort_perm (sort := insertion_sort)). }
      pose proof (StronglySorted_lookup _ _ n j _ _ Hs ltac:(lia) Hn Hj) as Hle. simpl in Hle.
      by rewrite Hx, Hxq in Hle.
  - intros i d lin k Hd Hlin Hk. apply fmap_None, list_find_None in Hf. rewrite Forall_forall in Hf.
    destruct (data_partition _ _ _ _ i d Hpg Hd) as (p & dr & Hp & _ & _ & Hlins & _).
    rewrite <- Hlins in Hlin. apply (could_be_next_after data i p d lin k Hdata Hlast Hp Hd) in Hk.
    apply could_be_next_elem in Hk as [el Hel].
    destruct (error_point_complete px text_width data pg Hpg i p 0%nat lin Hp Hlin)
      as (pt & Hpt & _ & Hl0); [intros Hnil; rewrite Hnil in Hel; by apply elem_of_nil in Hel|].
    apply (Hf pt Hpt). rewrite (idle_point_hidden _ _ _ _ Hpg) by done. by rewrite Hl0.
Qed.

(** ** The page of a history that was checked *)
Import Entry.

Section Checked.
Context {V : Type} `{Iface V} (sort : forall A, (A -> A -> bool) -> list A -> list A).
Context `{!GoSort sort} (M : Model V) (p : list (Operation V)) (op_ok : V -> V -> Prop).
Context (Hp : wf_history op_ok p).

Lemma returned_before_times i j a b :
  p !! i = Some a -> p !! j = Some b ->
  ¬ returned_before (makeEntries sort p) (Z.of_nat j) (Z.of_nat i) -> Call a <= Return b.
Proof.
  intros Ha Hb Hn. destruct (decide (Call a <= Return b)) as [|Hlt]; [done|]. exfalso. apply Hn.
  exists (returnOf (Z.of_nat j) b), (callOf (Z.of_nat i) a). split; [|done].
  apply (makeEntries_real_time sort p j b i a Hb Ha). lia.
Qed.

Lemma ForallOrdPairs_lookup {A} (R : A -> A -> Prop) l i j a b :
  ForallOrdPairs R l -> (i < j)%nat -> l !! i = Some a -> l !! j = Some b -> R a b.
Proof.
  intros Hl. revert i j. induction Hl as [|x l Hx _ IH]; intros [|i] [|j] Hij Ha Hb; try lia; try done.
  - simpl in *. simplify_eq. rewrite Forall_forall in Hx. apply Hx. by eapply list_elem_of_lookup_2.
  - apply (IH i j); [lia|done|done].
Qed.

Context (partials sorted : list (list Z)) (d : partitionVisualizationData).
Context (Hshown : partition_shown M p (makeEntries sort p) partials sorted d).
Context (Hpl : Forall (partial_linearization M (length p) (makeEntries sort p)) partials).
Context (Hne : Forall (λ ids, ids ≠ []) partials).

Lemma shown_op k he :
  History d !! k = Some he -> ∃ o, p !! k = Some o ∧ Start he = Call o ∧ End_ he = Return o.
Proof.
  intros Hk. destruct (Forall2_lookup_r _ _ _ _ _ (shown_rows _ _ _ _ _ _ Hshown) Hk)
    as (o & Ho & _ & H1 & H2 & _). by exists o.
Qed.

Lemma shown_times he : he ∈ History d -> Start he <= End_ he.
Proof.
  intros [k Hk]%list_elem_of_lookup. destruct (shown_op k he Hk) as (o & Ho & -> & ->).
  destruct Hp as [Hall _]. rewrite Forall_forall in Hall. by apply Hall, (list_elem_of_lookup_2 _ k).
Qed.

Lemma shown_lin_ok lin : lin ∈ PartialLinearizations d -> lin_ok (History d) lin.
Proof.
  intros Hlin. assert (Hin : indices lin ∈ partials).
  { rewrite <- (shown_perm _ _ _ _ _ _ Hshown), <- (shown_indices _ _ _ _ _ _ Hshown).
    by apply list_elem_of_fmap_2. }
  rewrite Forall_forall in Hpl, Hne. destruct (Hpl _ Hin) as [_ Hrange _ Horder Hclosed].
  assert (Hlen : length (History d) = length p).
  { symmetry. eapply Forall2_length, (shown_rows _ _ _ _ _ _ Hshown). }
  assert (Hget : forall a ha, (History d).[a] = Some ha -> ∃ k o, a = Z.of_nat k ∧
    p !! k = Some o ∧ Start ha = Call o ∧ End_ ha = Return o).
  { intros a ha Ha. unfold slice_get in Ha. case_decide; [|done].
    destruct (shown_op _ _ Ha) as (o & Ho & H1 & H2). exists (Z.to_nat a), o.
    split_and!; [lia|done..]. }
  split.
  - intros ->. by apply (Hne [] Hin).
  - intros k Hk. rewrite Hlen. by apply Hrange.
  - intros i j a b ha hb Hij Ha Hb (ka & oa & -> & Hoa & -> & _)%Hget (kb & ob & -> & Hob & _ & ->)%Hget.
    apply (returned_before_times ka kb); [done|done|].
    by apply (ForallOrdPairs_lookup _ _ _ _ _ _ Horder Hij Ha Hb).
  - intros a b ha hb Ha Hb (ka & oa & -> & Hoa & -> & _)%Hget (kb & ob & -> & Hob & _ & ->)%Hget.
    apply (returned_before_times ka kb); [done|done|]. apply Hclosed; [done| |done].
    apply lookup_lt_Some in Hob. lia.
Qed.

Lemma shown_sorted_largest :
  is_sorted longer (indices <$> PartialLinearizations d) ∧
  forall k, match Largest d !! k with
    | Some i => is_largest (indices <$> PartialLinearizations d) k i
    | None => forall ids, ids ∈ indices <$> PartialLinearizations d -> k ∉ ids
    end.
Proof.
  rewrite (shown_indices _ _ _ _ _ _ Hshown). split; [apply Hshown|].
  intros k. pose proof (shown_largest _ _ _ _ _ _ Hshown k). by destruct (Largest d !! k).
Qed.
End Checked.

Section Visualize.
Context {V : Type} `{Iface V} (model : Model V).
Context (op_ok : V -> V -> Prop) (valid : V -> Prop) (laws : ModelLaws (fillDefault model) op_ok valid).
Context (describes : DescribeLaws (fillDefault model) op_ok valid).
Context (sort : forall A, (A -> A -> bool) -> list A -> list A) (sort_ok : GoSort sort).

(** Every operation starts before the last return. *)
Definition calls_before_last (partitions : list (list (Operation V))) : Prop :=
  forall p o, p ∈ partitions -> o ∈ p -> ∃ p' o', p' ∈ partitions ∧ o' ∈ p' ∧ Call o < Return o'.

Lemma verbose_page_data h partitions timeout r :
  partition_ok model op_ok h partitions -> CheckOperationsVerbose sort model h timeout r ->
  ∃ data info, computeVisualizationData sort model r.2 = Some (data, info) ∧ page_data data ∧
    length data = length partitions ∧
    (calls_before_last partitions -> starts_before_last data) ∧
    (forall i p, partitions !! i = Some p -> ∃ d, data !! i = Some d ∧
       Forall2 (λ o he, Start he = Call o ∧ End_ he = Return o) p (History d)).
Proof.
  intros Hpart Hr. destruct (verbose_info model op_ok valid laws sort sort_ok h partitions timeout r Hpart Hr)
    as (Hh & Hrep & Hne).
  destruct (partitions_loop_ok model op_ok valid laws describes sort sort_ok _ _
    (part_wf _ _ _ _ Hpart) Hrep) as (data & sorteds & Hl & Hlen & Hall).
  exists data, (LinearizationInfo (info_history r.2) sorteds). unfold computeVisualizationData.
  rewrite Hh, Hl. split; [done|].
  assert (Hd : forall d, d ∈ data -> ∃ i p partials sorted, data !! i = Some d ∧
    partitions !! i = Some p ∧ wf_history op_ok p ∧
    partition_shown (fillDefault model) p (makeEntries sort p) partials sorted d ∧
    Forall (partial_linearization (fillDefault model) (length p) (makeEntries sort p)) partials ∧
    Forall (λ ids, ids ≠ []) partials).
  { intros d [i Hi]%list_elem_of_lookup.
    destruct (lookup_lt_is_Some_2 partitions i) as [p Hp]; [rewrite <- Hlen; by eapply lookup_lt_Some|].
    destruct (Hall i p Hp) as (d' & partials & sorted & Hd' & Hps & _ & Hshown).
    assert (d' = d) as -> by congruence. exists i, p, partials, sorted. split_and!; [done..| |done| |].
    - pose proof (part_wf _ _ _ _ Hpart) as Hwf. rewrite Forall_lookup in Hwf. by eapply Hwf.
    - by apply (Forall2_lookup_lr _ _ _ _ _ _ Hrep Hp Hps).
    - by eapply Hne. }
  split_and!; [|done| |].
  - split; [split| |].
    + intros d he Hin. destruct (Hd d Hin) as (i & p & partials & sorted & _ & _ & Hwf & Hs & _).
      by apply (shown_times sort _ p op_ok Hwf partials sorted d Hs).
    + intros d lin Hin. destruct (Hd d Hin) as (i & p & partials & sorted & _ & _ & Hwf & Hs & Hpl & Hn).
      by apply (shown_lin_ok sort _ p partials sorted d Hs Hpl Hn).
    + intros d Hin. destruct (Hd d Hin) as (i & p & partials & sorted & _ & _ & _ & Hs & _).
      by apply (shown_sorted_largest sort _ p partials sorted d Hs).
    + intros d k Hin. destruct (Hd d Hin) as (i & p & partials & sorted & _ & _ & _ & Hs & _).
      by apply (shown_sorted_largest sort _ p partials sorted d Hs).
  - intros Hcalls he (d & Hhe & Hin)%list_elem_of_bind.
    destruct (Hd d Hin) as (i & p & partials & sorted & Hi & Hp & _ & Hs & _).
    apply list_elem_of_lookup in Hhe as [k Hk].
    destruct (shown_op sort _ p partials sorted d Hs k he Hk) as (o & Ho & -> & _).
    destruct (Hcalls p o) as (p' & o' & Hp' & Ho' & Hlt);
      [by eapply list_elem_of_lookup_2|by eapply list_elem_of_lookup_2|].
    apply list_elem_of_lookup in Hp' as [i' Hi']. apply list_elem_of_lookup in Ho' as [k' Hk'].
    destruct (Hall i' p' Hi') as (d' & ps' & s' & Hd' & _ & _ & Hs').
    destruct (Forall2_lookup_l _ _ _ _ _ (shown_rows _ _ _ _ _ _ Hs') Hk') as (he' & Hhe' & _ & _ & Hr' & _).
    exists he'. rewrite Hr'. split; [|done]. apply list_elem_of_bind. exists d'.
    split; by eapply list_elem_of_lookup_2.
  - intros i p Hp. destruct (Hall i p Hp) as (d & ps & s & Hdi & _ & _ & Hs). exists d. split; [done|].
    eapply Forall2_impl; [apply (shown_rows _ _ _ _ _ _ Hs)|]. by intros o he (_ & ? & ? & _).
Qed.

(** *** What is highlighted, in terms of the operations that were checked *)

(** The operation [k] of [p] could come right after [lin]: no operation outside [lin]
    returned before it was called. *)
Definition could_follow (p : list (Operation V)) (lin : partialLinearization) (k : nat) : Prop :=
  (Z.of_nat k ∉ indices lin) ∧ ∃ o, p !! k = Some o ∧
    forall k' o', p !! k' = Some o' -> Z.of_nat k' ∉ indices lin -> Call o <= Return o'.

(** What should be highlighted for the operation [k] of the partition [p], of which [lins]
    are shown. *)
Definition should_highlight (p : list (Operation V)) (lins : list partialLinearization) (k : nat)
    (o : option nat) : Prop :=
  match o with
  | Some j => first_longest lins (λ lin, Z.of_nat k ∈ indices lin) j ∨
      (forall lin, lin ∈ lins -> Z.of_nat k ∉ indices lin) ∧
      first_longest lins (λ lin, could_follow p lin k) j
  | None => forall lin, lin ∈ lins -> (Z.of_nat k ∉ indices lin) ∧ ¬ could_follow p lin k
  end.

Lemma next_after_follow p d lin k :
  Forall2 (λ o he, Start he = Call o ∧ End_ he = Return o) p (History d) ->
  next_after d lin k <-> could_follow p lin k.
Proof.
  intros Hall. split; intros (Hn & x & Hx & Hle); (split; [done|]).
  - destruct (Forall2_lookup_r _ _ _ _ _ Hall Hx) as (o & Ho & Hc & _). exists o. split; [done|].
    intros k' o' Ho' Hk'. destruct (Forall2_lookup_l _ _ _ _ _ Hall Ho') as (he' & Hhe' & _ & Hr).
    rewrite <- Hc, <- Hr. by eapply Hle.
  - destruct (Forall2_lookup_l _ _ _ _ _ Hall Hx) as (he & Hhe & Hc & _). exists he. split; [done|].
    intros k' he' Hhe' Hk'. destruct (Forall2_lookup_r _ _ _ _ _ Hall Hhe') as (o' & Ho' & _ & Hr).
    rewrite Hc, Hr. by eapply Hle.
Qed.

Lemma is_largest_first lins k j :
  is_largest (indices <$> lins) k j -> first_longest lins (λ lin, k ∈ indices lin) j.
Proof.
  assert (Hlen : forall lin : partialLinearization, length (indices lin) = length lin) by (intros; apply length_fmap).
  intros (ids & Hj & Hin & Hmax & Hfirst). apply list_lookup_fmap_Some in Hj as (lin & -> & Hl).
  exists lin. rewrite Hlen in Hmax, Hfirst. split_and!; [done|done| |].
  - intros lin' Hin' Hk. rewrite <- Hlen. apply Hmax; [by apply list_elem_of_fmap_2|done].
  - intros j' lin' Hlt Hl' Hk. rewrite <- Hlen. apply (Hfirst j'); [done| |done].
    by rewrite list_lookup_fmap, Hl'.
Qed.

(** C25: on the page of what [CheckOperationsVerbose] found, when every operation was called
    before the last return, hovering over or selecting an operation highlights the right one of
    the linearizations shown for its partition: the first of the longest that contain it; when
    none does, the first of the longest after which it could have been next, that is no
    operation outside the linearization returned before it was called; and none when there is
    no such linearization either. *)
Theorem highlight_correct h partitions timeout r px text_width :
  partition_ok model op_ok h partitions -> CheckOperationsVerbose sort model h timeout r ->
  calls_before_last partitions ->
  ∃ data info pg, computeVisualizationData sort model r.2 = Some (data, info) ∧
    draw px text_width data = Some pg ∧
    forall i p k, partitions !! i = Some p -> (k < length p)%nat ->
      ∃ d o, data !! i = Some d ∧
        linearizationIndex pg (Z.of_nat i) (Z.of_nat k) = Some o ∧
        should_highlight p (PartialLinearizations d) k o.
Proof.
  intros Hpart Hr Hcalls. destruct (verbose_page_data h partitions timeout r Hpart Hr)
    as (data & info & Hdata & Hfull & _ & Hlast & Hops).
  destruct (draw_ok px text_width data (pgd_ok _ Hfull)) as (pg & Hdraw & _).
  exists data, info, pg. split_and!; [done..|]. intros i p k Hp Hk.
  destruct (Hops i p Hp) as (d & Hd & Hall). pose proof (Forall2_length _ _ _ Hall) as Hlen.
  destruct (highlight_found px text_width data pg i d k Hfull (Hlast Hcalls) Hdraw Hd ltac:(lia))
    as (o & Ho & Hh).
  exists d, o. split_and!; [done..|].
  assert (Hext : forall lin, next_after d lin k <-> could_follow p lin k) by (intros; by apply next_after_follow).
  destruct o as [j|]; simpl in Hh |- *.
  - destruct Hh as [Hh|[Hno Hh]]; [left; by apply is_largest_first|right]. split.
    + intros lin Hlin. apply Hno. by apply list_elem_of_fmap_2.
    + eapply first_longest_ext; [|exact Hh]. intros lin _. apply Hext.
  - destruct Hh as [Hno Hh]. intros lin Hlin. split.
    + apply Hno. by apply list_elem_of_fmap_2.
    + rewrite <- Hext. by apply Hh.
Qed.

(** C26: whatever [CheckOperationsVerbose] found, with a timeout or not, [Visualize] does not
    panic on its result: it hands the writer the page with the data, and returns the error of
    the writer, or that of [json.Marshal] without writing; [VisualizePath] does the same with
    the file it creates, which it closes in every case.  The script of the page draws
    these data without throwing an error and ends with nothing singled out; when every
    operation was called before the last return the picture has a width. *)
Theorem Visualize_correct h partitions timeout r :
  partition_ok model op_ok h partitions -> CheckOperationsVerbose sort model h timeout r ->
  ∃ data, (forall Err (W : Type) Marshal html_prefix html_suffix Write (output : W),
      Visualize (Err := Err) sort Marshal html_prefix html_suffix Write model r.2 output =
        Some (match Marshal data with
          | inr err => (output, Some err)
          | inl json => Write output (html_prefix +:+ json +:+ html_suffix)
          end) ∧
      forall Create Close path,
        VisualizePath (Err := Err) sort Marshal html_prefix html_suffix Write Create Close model
            r.2 path =
          Some (match Create path with
            | inr err => (None, Some err)
            | inl f => match Marshal data with
              | inr err => (Some (Close f), Some err)
              | inl json => let '(f, err) := Write f (html_prefix +:+ json +:+ html_suffix) in
                            (Some (Close f), err)
              end
            end)) ∧
    forall px text_width, 0 < px -> ∃ pg u, render px text_width data = Some (pg, u) ∧
      shows pg Idle u ∧ length (drawnPartitions pg) = length partitions ∧
      (calls_before_last partitions -> is_Some (pageWidth pg)).
Proof.
  intros Hpart Hr. destruct (verbose_page_data h partitions timeout r Hpart Hr)
    as (data & info & Hdata & Hfull & Hlen & Hlast & _). exists data. split.
  - intros Err W Marshal pre suf Write output. split; [|intros Create Close path];
      unfold VisualizePath, Visualize; rewrite Hdata; cbn [mbind option_bind].
    + by destruct (Marshal data).
    + destruct (Create path) as [f|err]; [|done]. destruct (Marshal data); cbn [mbind option_bind];
        [|done]. by destruct (Write f _).
  - intros px text_width Hpx. pose proof (pgd_ok _ Hfull) as Hok.
    destruct (draw_ok px text_width data Hok) as (pg & Hdraw & Hpg).
    exists pg, (initial pg). split; [unfold render; by rewrite Hdraw|]. split; [by apply initial_ui_ok|].
    split.
    + rewrite <- Hlen, <- (Forall2_length _ _ _ (dr_drawn _ _ _ _ Hpg)). apply prepare_length.
    + intros Hcalls. by apply (page_width px text_width data pg Hpx Hok (Hlast Hcalls) Hpg).
Qed.
End Visualize.

(** ** Witnesses *)

(** Three clients: two operations in a linearization, and one that could come next. *)
Definition sample : list partitionVisualizationData :=
  [MkPartitionVisualizationData
    [MkHistoryElement 0 0 10 "put('a')"; MkHistoryElement 1 5 20 "get() -> 'a'";
     MkHistoryElement 2 12 30 "get() -> 'b'"]
    [[MkLinearizationStep 0 "a"; MkLinearizationStep 1 "a"]] {[0 := 0%nat; 1 := 0%nat]}].

Lemma sample_lookup k he :
  [MkHistoryElement 0 0 10 "put('a')"; MkHistoryElement 1 5 20 "get() -> 'a'";
   MkHistoryElement 2 12 30 "get() -> 'b'"].[k] = Some he ->
  k = 0 ∧ Start he = 0 ∧ End_ he = 10 ∨ k = 1 ∧ Start he = 5 ∧ End_ he = 20 ∨
  k = 2 ∧ Start he = 12 ∧ End_ he = 30.
Proof.
  unfold slice_get. case_decide; [|done].
  destruct (Z.to_nat k) as [|[|[|n]]] eqn:Hk; intros [= <-]; simpl; lia.
Qed.

Lemma sample_ok : data_ok sample.
Proof.
  split.
  - intros d he ->%list_elem_of_singleton [k Hk]%list_elem_of_lookup.
    pose proof (sample_lookup (Z.of_nat k) he) as Hs. rewrite slice_get_nat in Hs.
    specialize (Hs Hk). lia.
  - intros d lin ->%list_elem_of_singleton ->%list_elem_of_singleton. split; [done| | |].
    + intros k Hk. simpl in *. set_solver by lia.
    + intros [|[|i]] [|[|j]] a b ha hb Hij Ha Hb Hha%sample_lookup Hhb%sample_lookup;
        try lia; simplify_eq/=. lia.
    + intros a b ha hb Ha Hb Hha%sample_lookup Hhb%sample_lookup. simpl in Ha, Hb. set_solver by lia.
Qed.

Lemma sample_before_last : starts_before_last sample.
Proof.
  intros he Hhe. exists (MkHistoryElement 2 12 30 "get() -> 'b'").
  unfold operations in *. simpl in *. split; [set_solver|].
  apply elem_of_cons in Hhe as [->|Hhe]; [simpl; lia|].
  apply elem_of_cons in Hhe as [->|Hhe]; [simpl; lia|].
  apply list_elem_of_singleton in Hhe as ->. simpl. lia.
Qed.

Lemma sample_page_data : page_data sample.
Proof.
  split; [apply sample_ok| |].
  - intros d ->%list_elem_of_singleton [|i] a b Ha Hb; done.
  - intros d k ->%list_elem_of_singleton. cbn [Largest PartialLinearizations].
    destruct (decide (k = 0 ∨ k = 1)) as [Hk|Hk].
    + assert (Hl : ({[0 := 0%nat; 1 := 0%nat]} : gmap Z nat) !! k = Some 0%nat).
      { by destruct Hk as [->| ->]. }
      rewrite Hl. exists [0; 1]. split_and!; [done|set_solver| |lia].
      by intros q ->%list_elem_of_singleton.
    + assert (Hl : ({[0 := 0%nat; 1 := 0%nat]} : gmap Z nat) !! k = None).
      { rewrite lookup_insert_ne, lookup_singleton_ne by lia. done. }
      rewrite Hl. intros ids ->%list_elem_of_singleton. simpl. set_solver.
Qed.

Definition sample_width (s : string) : Z := 8 * Z.of_nat (String.length s).

Lemma layout_optimal_witness :
  ∃ lay tables w lp, compute_layout 1 sample_width sample = Some lay ∧
    feasible 1 sample_width (byGid (partitions lay)) tables (sortedTimestamps lay) w lp.
Proof.
  destruct (layout_optimal 1 sample_width sample ltac:(lia) sample_ok sample_before_last)
    as (lay & tables & w & lp & H1 & _ & _ & _ & H2 & _).
  exists lay, tables, w, lp. exact (conj H1 H2).
Defined.

Lemma drawing_fits_witness : ∃ pg, draw 1 sample_width sample = Some pg ∧ is_Some (pageWidth pg).
Proof.
  destruct (drawing_fits 1 sample_width sample ltac:(lia) sample_ok sample_before_last)
    as (pg & H1 & H2 & _).
  exists pg. exact (conj H1 H2).
Defined.

(** The page of [sample]. *)
Definition sample_page : page :=
  default (MkPage (MkLayout [] [] (MkScan ∅ [] [])) 0 None [] []) (draw 1 sample_width sample).

Lemma sample_draw : draw 1 sample_width sample = Some sample_page.
Proof.
  destruct (draw_ok 1 sample_width sample sample_ok) as (pg & Hdraw & _).
  unfold sample_page. by rewrite Hdraw.
Qed.

Lemma page_ui_correct_witness :
  ∃ pg, render 1 sample_width sample = Some (pg, initial pg) ∧
    ∃ u, run_events pg (initial pg) [JumpClick; MouseOut; BgClick] = Some u ∧
      shows pg (foldl (next pg) Idle [JumpClick; MouseOut; BgClick]) u.
Proof.
  destruct (page_ui_correct 1 sample_width sample sample_page_data) as (pg & H1 & _ & H2).
  exists pg. split; [done|]. apply H2. by repeat constructor.
Defined.

Lemma jump_shows_error_witness :
  match first_point sample_page (layers_of sample_page Idle) with
  | None => True
  | Some pt => ep_lin pt = 0%nat
  end.
Proof.
  pose proof (jump_shows_error 1 sample_width sample sample_page ltac:(lia) sample_page_data
    sample_before_last sample_draw) as H.
  destruct (first_point sample_page (layers_of sample_page Idle)); [apply H|exact I].
Defined.

Import Porcupine.Examples.

(** In [h_good] the last return is that of the read of ["y"], at 9. *)
Lemma h_good_calls : calls_before_last [of_key "x" h_good; of_key "y" h_good].
Proof.
  assert (Hall : Forall (λ p, Forall (λ o, Call o < 9) p) [of_key "x" h_good; of_key "y" h_good])
    by (repeat constructor).
  intros p o Hp Ho. rewrite Forall_forall in Hall. specialize (Hall p Hp).
  rewrite Forall_forall in Hall.
  exists (of_key "y" h_good), (op 2 0 "y" "" "c" 7 9). split_and!.
  - right. left.
  - vm_compute. right. left.
  - by apply Hall.
Qed.

Lemma highlight_correct_witness :
  ∃ data info pg, computeVisualizationData insertion_sort (KvModel insertion_sort)
      (LinearizationInfo good_es [[[0; 1; 2]]; [[0; 1]]]) = Some (data, info) ∧
    draw 1 sample_width data = Some pg ∧ ∃ o, linearizationIndex pg 0 2 = Some o.
Proof.
  destruct (highlight_correct (KvModel insertion_sort) kv_ok kv_valid
    (KvModel_laws insertion_sort) KvModel_describes insertion_sort insertion_sort_GoSort
    h_good [of_key "x" h_good; of_key "y" h_good] 0 _ 1 sample_width good_partition good_verbose)
    as (data & info & pg & H1 & H2 & H3).
  - exact h_good_calls.
  - exists data, info, pg. split; [exact H1|]. split; [exact H2|].
    destruct (H3 0%nat _ 2%nat eq_refl ltac:(vm_compute; lia)) as (d & o & _ & Ho & _).
    by exists o.
Defined.

Lemma Visualize_correct_witness :
  ∃ data, forall px text_width, 0 < px -> ∃ pg u, render px text_width data = Some (pg, u) ∧
    shows pg Idle u ∧ length (drawnPartitions pg) = 2%nat.
Proof.
  destruct (Visualize_correct (KvModel insertion_sort) kv_ok kv_valid
    (KvModel_laws insertion_sort) KvModel_describes insertion_sort insertion_sort_GoSort
    h_good [of_key "x" h_good; of_key "y" h_good] 0 _ good_partition good_verbose) as (data & _ & H).
  exists data. intros px text_width Hpx. destruct (H px text_width Hpx) as (pg & u & H1 & H2 & H3 & _).
  by exists pg, u.
Defined.
