(* ===== verification/KvraftClerk.v ===== *)
(** * The clerk of [kvraft/client.go]

    A skeleton: it sends nothing, and answers with the empty string.  The network that the ends
    belong to is a parameter. *)
From S2P Require Import Prelude.

Module Kvraft.

Section Clerk.
Context {End Net : Type}.

Record Clerk := MkClerk { servers : list End }.

Definition MakeClerk (servers : list End) : Clerk := MkClerk servers.

(** The state of the network is returned with the result. *)
Definition Get (ck : Clerk) (key : string) (net : Net) : Net * string := (net, "").

Definition PutAppend (ck : Clerk) (key value op : string) (net : Net) : Net := net.

Definition Put (ck : Clerk) (key value : string) (net : Net) : Net :=
  PutAppend ck key value "Put" net.
Definition Append (ck : Clerk) (key value : string) (net : Net) : Net :=
  PutAppend ck key value "Append" net.
End Clerk.

#[global] Arguments Clerk : clear implicits.
End Kvraft.
