(* ===== verification/KvsrvClerk.v ===== *)
(** * The clerk of [kvsrv/client.go]

    A skeleton as that of [kvraft], with one server and an [Append] that returns a value. *)
From S2P Require Import Prelude.

Module Kvsrv.

Section Clerk.
Context {End Net : Type}.

Record Clerk := MkClerk { server : End }.

Definition MakeClerk (server : End) : Clerk := MkClerk server.

Definition Get (ck : Clerk) (key : string) (net : Net) : Net * string := (net, "").

Definition PutAppend (ck : Clerk) (key value op : string) (net : Net) : Net * string := (net, "").

Definition Put (ck : Clerk) (key value : string) (net : Net) : Net :=
  (PutAppend ck key value "Put" net).1.
Definition Append (ck : Clerk) (key value : string) (net : Net) : Net * string :=
  PutAppend ck key value "Append" net.
End Clerk.

#[global] Arguments Clerk : clear implicits.
End Kvsrv.
