(* ===== verification/KvClerks.v ===== *)
(** * The clerks of [kvraft] and [kvsrv] under the checker

    These clerks are skeletons ([KvraftClerk], [KvsrvClerk]).  The test of a package records the calls of its clients in a log, which it gives to
    the checker: here the two are put together, and the checker sees through the skeletons. *)
From S2P Require Import Prelude Bitset Model Entries LinkedList LinkedEntries.
From S2P Require Import Linearizability CheckSingle CheckSingleProof CheckSingleSpec.
From S2P Require Import HistorySpec EventSpec CheckParallel Check KvModel.
From S2P Require Import KvraftClerk KvsrvClerk.

#[local] Open Scope Z_scope.

(** ** The log of a test *)

(** A call of a client, with the times that the test takes before and after it. *)
Inductive request := RGet (key : string) | RPut (key value : string) | RAppend (key value : string).

Record client_call := MkClientCall { req : request; began : Z; ended : Z; cli : Z }.

Definition log_entry (c : client_call) (i : KvInput) (o : string) : Operation any :=
  MkOperation (cli c) (AKvInput i) (began c) (AKvOutput (MkKvOutput o)) (ended c).

Section Logs.
Context {End Net : Type}.

(** [Get], [Put] and [Append] of [kvraft/test_test.go]. *)
Definition kvraft_call (ck : Kvraft.Clerk End) (net : Net) (c : client_call) :
    Net * Operation any :=
  match req c with
  | RGet k => let '(net, v) := Kvraft.Get ck k net in (net, log_entry c (MkKvInput 0 k "") v)
  | RPut k v => (Kvraft.Put ck k v net, log_entry c (MkKvInput 1 k v) "")
  | RAppend k v => (Kvraft.Append ck k v net, log_entry c (MkKvInput 2 k v) "")
  end.

(** The same of [kvsrv/test_test.go], where [Append] returns the old value. *)
Definition kvsrv_call (ck : Kvsrv.Clerk End) (net : Net) (c : client_call) :
    Net * Operation any :=
  match req c with
  | RGet k => let '(net, v) := Kvsrv.Get ck k net in (net, log_entry c (MkKvInput 0 k "") v)
  | RPut k v => (Kvsrv.Put ck k v net, log_entry c (MkKvInput 1 k v) "")
  | RAppend k v =>
      let '(net, last) := Kvsrv.Append ck k v net in (net, log_entry c (MkKvInput 3 k v) last)
  end.

(** The calls of a test, in the order in which they are added to the log, each with its clerk. *)
Fixpoint run_log {Clerk} (call : Clerk -> Net -> client_call -> Net * Operation any)
    (cs : list (Clerk * client_call)) (net : Net) : Net * list (Operation any) :=
  match cs with
  | [] => (net, [])
  | (ck, c) :: cs' =>
      let '(net, op) := call ck net c in
      let '(net, ops) := run_log call cs' net in (net, op :: ops)
  end.
End Logs.

(** ** What the checker says *)

(** The entry of a call whose answer is empty; an append is logged as operation [app]. *)
Definition entry (app : N) (c : client_call) : Operation any :=
  log_entry c (match req c with
    | RGet k => MkKvInput 0 k ""
    | RPut k v => MkKvInput 1 k v
    | RAppend k v => MkKvInput app k v
    end) "".

Lemma run_log_entries {Clerk Net} (call : Clerk -> Net -> client_call -> Net * Operation any) f cs net :
  (forall ck net c, call ck net c = (net, f c)) -> run_log call cs net = (net, f <$> cs.*2).
Proof.
  intros Hcall. induction cs as [|[ck c] cs IH]; [done|]. simpl. by rewrite Hcall, IH.
Qed.

Definition writes (k v : string) (r : request) : Prop :=
  match r with RPut k' v' | RAppend k' v' => k' = k ∧ v' = v | RGet _ => False end.

(** A test that would notice a lost write: a client reads a key after another has written
    something to it, and nobody empties it. *)
Definition noticing (cs : list client_call) : Prop :=
  ∃ w r k v, w ∈ cs ∧ r ∈ cs ∧ writes k v (req w) ∧ v ≠ "" ∧ req r = RGet k ∧
    ended w < began r ∧ forall c, c ∈ cs -> req c ≠ RPut k "".

Lemma append_not_empty a b : b ≠ "" -> a +:+ b ≠ "".
Proof. by destruct a. Qed.

Lemma append_not_empty_l a b : a ≠ "" -> a +:+ b ≠ "".
Proof. by destruct a. Qed.

Section Rejected.
Context (app : N) (Happ : (1 < app)%N).
Context (k : string).

(** A key that is not empty stays so. *)
Lemma step_keeps m c i m' :
  Input (entry app c) = AKvInput i -> req c ≠ RPut k "" ->
  store_step m i (MkKvOutput "") m' -> default "" (m !! k) ≠ "" -> default "" (m' !! k) ≠ "".
Proof.
  intros Hi Hp Hs Hm. destruct (decide (Key i = k)) as [<-|Hne].
  - inversion Hs; subst; rewrite ?lookup_insert_eq; simpl; try done;
      [|by apply append_not_empty_l..].
    unfold entry, log_entry in Hi. destruct (req c); simplify_eq/=; naive_solver.
  - inversion Hs; subst; by rewrite ?lookup_insert_ne.
Qed.

Lemma legal_reads_nothing m cs r :
  store_legal m (entry app <$> cs) -> (forall c, c ∈ cs -> req c ≠ RPut k "") ->
  default "" (m !! k) ≠ "" -> r ∈ cs -> req r ≠ RGet k.
Proof.
  revert m. induction cs as [|c cs IH]; intros m Hl Hp Hm Hr; [by apply elem_of_nil in Hr|].
  inversion Hl as [|? v i o m' l Hi Ho Hs Hl']; subst. simpl in Ho. injection Ho as <-.
  apply elem_of_cons in Hr as [->|Hr].
  - intros Hreq. unfold entry, log_entry in Hi. rewrite Hreq in Hi. simpl in Hi. injection Hi as <-.
    inversion Hs; simplify_eq/=; congruence.
  - apply (IH m'); [done|intros; apply Hp; by right| |done].
    eapply step_keeps; [done|apply Hp; left|done|done].
Qed.

Lemma write_fills m c v i m' :
  Input (entry app c) = AKvInput i -> writes k v (req c) -> v ≠ "" ->
  store_step m i (MkKvOutput "") m' -> default "" (m' !! k) ≠ "".
Proof.
  intros Hi Hw Hv Hs. unfold entry, log_entry in Hi.
  destruct (req c); [done|..]; simpl in *; destruct Hw as [-> ->]; injection Hi as <-;
    inversion Hs; simplify_eq/=; try lia; rewrite lookup_insert_eq; simpl; try done;
    by apply append_not_empty.
Qed.
End Rejected.

Lemma ordered_before {A} (R : A -> A -> Prop) l1 a b l2 :
  ForallOrdPairs R (l1 ++ b :: l2) -> a ∈ l1 -> R a b.
Proof.
  intros Ho Ha. induction l1 as [|x l1 IH]; [by apply elem_of_nil in Ha|].
  inversion Ho as [|? ? Hx Ho']; subst. apply elem_of_cons in Ha as [->|Ha]; [|by apply IH].
  rewrite Forall_forall in Hx. apply Hx. set_solver.
Qed.

Lemma store_legal_suffix m l1 l2 : store_legal m (l1 ++ l2) -> ∃ m', store_legal m' l2.
Proof.
  revert m. induction l1 as [|v l1 IH]; intros m Hl; [by exists m|].
  inversion Hl; subst. by eapply IH.
Qed.

(** No order of the calls explains such a log. *)
Lemma noticing_not_linearizable app cs :
  (1 < app)%N -> noticing cs -> (forall c, c ∈ cs -> began c <= ended c) ->
  ¬ store_linearizable (entry app <$> cs).
Proof.
  intros Happ (w & r & k & v & Hw & Hr & Hwk & Hv & Hrk & Hlt & Hp) Ht (σ & Hσ & Hl & Hord).
  apply Permutation_map_inv in Hσ as (τ & -> & Hτ).
  change (map (entry app) τ) with (entry app <$> τ) in *.
  setoid_rewrite Hτ in Hw. setoid_rewrite Hτ in Hr.
  apply list_elem_of_split in Hw as (τ1 & τ2 & ->).
  rewrite fmap_app, fmap_cons in Hl, Hord.
  apply elem_of_app in Hr as [Hr|[->|Hr]%elem_of_cons].
  - apply (ordered_before _ _ (entry app r)) in Hord; [|by apply list_elem_of_fmap_2]. by apply Hord.
  - rewrite Hrk in Hwk. done.
  - apply store_legal_suffix in Hl as [m Hl]. inversion Hl as [|? ? i o m' l Hi Ho Hs Hl']; subst.
    simpl in Ho. injection Ho as <-.
    apply (legal_reads_nothing app Happ k m' τ2 r); [done| |by eapply write_fills|done|done].
    intros c Hc. apply Hp. rewrite Hτ. apply elem_of_app. right. by right.
Qed.

(** The log of a test is a history for the checker. *)
Lemma entries_history app cs :
  (forall c, c ∈ cs -> began c <= ended c) -> Z.of_nat (length cs) < 2 ^ 63 ->
  kv_history (entry app <$> cs).
Proof.
  intros Ht Hlen. split; [|by rewrite length_fmap].
  apply Forall_fmap, Forall_forall. intros c Hc. split; [by apply Ht|done].
Qed.

Lemma noticing_rejected (sort : forall A, (A -> A -> bool) -> list A -> list A) `{!GoSort sort}
    app cs timeout :
  (1 < app)%N -> noticing cs -> (forall c, c ∈ cs -> began c <= ended c) ->
  Z.of_nat (length cs) < 2 ^ 63 ->
  (∃ r, CheckOperationsVerbose sort (KvModel sort) (entry app <$> cs) timeout r) ∧
  forall r, CheckOperationsVerbose sort (KvModel sort) (entry app <$> cs) timeout r ->
    r.1 ≠ Ok ∧ (timeout <= 0 -> r.1 = Illegal).
Proof.
  intros Happ Hn Ht Hlen. assert (Hne : entry app <$> cs ≠ []).
  { destruct Hn as (w & _ & _ & _ & Hw & _). by destruct cs; [apply elem_of_nil in Hw|]. }
  destruct (KvPartition_ok sort _ (entries_history app cs Ht Hlen) Hne) as (parts & Hp & Hl).
  split; [by apply (operations_return _ kv_ok kv_valid sort _ parts Hp true timeout)|].
  intros r Hr. destruct (operations_result _ kv_ok kv_valid sort _ parts Hp true timeout r Hr)
    as (_ & Hok & Hun).
  pose proof (noticing_not_linearizable app cs Happ Hn Ht) as Hnot. split.
  - intros Hres. by apply Hnot, Hl, Hok.
  - intros Hto. destruct r.1; [specialize (Hun eq_refl); lia| |done].
    by destruct Hnot; apply Hl, Hok.
Qed.

(** The clerks of [kvraft] and [kvsrv] put together with the checker: a run of a test over
    these skeletons leaves the network as it was, and when the test would notice a lost write
    (a client reads a key after something was written to it that nobody replaced by the
    empty string) the check of its log never answers [Ok], and answers [Illegal] without a
    timeout. *)
Theorem skeletons_rejected (sort : forall A, (A -> A -> bool) -> list A -> list A) `{!GoSort sort}
    {End Net : Type} (raft : list (Kvraft.Clerk End * client_call))
    (srv : list (Kvsrv.Clerk End * client_call)) (net : Net) timeout :
  noticing raft.*2 -> noticing srv.*2 -> (forall c, c ∈ raft.*2 ++ srv.*2 -> began c <= ended c) ->
  Z.of_nat (length (raft.*2 ++ srv.*2)) < 2 ^ 63 ->
  (run_log kvraft_call raft net).1 = net ∧ (run_log kvsrv_call srv net).1 = net ∧
  forall h, h ∈ [(run_log kvraft_call raft net).2; (run_log kvsrv_call srv net).2] ->
    (∃ r, CheckOperationsVerbose sort (KvModel sort) h timeout r) ∧
    forall r, CheckOperationsVerbose sort (KvModel sort) h timeout r ->
      r.1 ≠ Ok ∧ (timeout <= 0 -> r.1 = Illegal).
Proof.
  intros Hraft Hsrv Ht Hlen. rewrite length_app in Hlen.
  rewrite (run_log_entries kvraft_call (entry 2)) by by intros ck n [[] ? ? ?].
  rewrite (run_log_entries kvsrv_call (entry 3)) by by intros ck n [[] ? ? ?].
  split_and!; [done..|]. cbn [snd]. intros h [->| ->%list_elem_of_singleton]%elem_of_cons;
    (apply noticing_rejected; [done|done|done| |lia]); intros; apply Ht; set_solver.
Qed.

(** A client puts, and another gets. *)
Definition demo_calls : list client_call :=
  [MkClientCall (RPut "k" "v") 0 5 0; MkClientCall (RGet "k") 7 9 1].

Lemma skeletons_rejected_witness :
  let h := (run_log kvraft_call (pair (Kvraft.MakeClerk [()]) <$> demo_calls) ()).2 in
  ∃ r, CheckOperationsVerbose insertion_sort (KvModel insertion_sort) h 0 r ∧ r.1 = Illegal.
Proof.
  intros h. assert (Hn : noticing demo_calls).
  { exists (MkClientCall (RPut "k" "v") 0 5 0), (MkClientCall (RGet "k") 7 9 1), "k", "v".
    unfold demo_calls. split_and!; [left|right; left|done|done|done|done|].
    intros c [->|[->|[]%elem_of_nil]%elem_of_cons]%elem_of_cons; done. }
  destruct (skeletons_rejected insertion_sort (pair (Kvraft.MakeClerk [()]) <$> demo_calls)
    (pair (Kvsrv.MakeClerk ()) <$> demo_calls) () 0 ltac:(exact Hn) ltac:(exact Hn)) as (_ & _ & H).
  - simpl. intros c Hc. rewrite !elem_of_cons, elem_of_nil in Hc.
    by destruct Hc as [->|[->|[->|[->|[]]]]].
  - done.
  - destruct (H h ltac:(left)) as [[r Hr] Hv]. exists r. split; [done|]. by apply (Hv r Hr).
Defined.
