(* ===== verification/Labrpc.v ===== *)
(** * [labrpc/labrpc.go]: the simulated network

    [Network], [Server] and [Service] are records with one definition per method.  A
    remote call runs in several goroutines (the caller in [ClientEnd.Call], the
    network's listener, [processReq], the handler); they form a transition system in
    which delays and random choices are nondeterministic.

    Names of ends and servers are of any countable type, [nil] is [None].  A
    [*Server] is a number; the objects are in a heap.  Handlers act on an application
    state [App]; encoding and decoding by [labgob] are functions on bytes. *)
From S2P Require Import Prelude.
From Stdlib Require Import Strings.Byte Strings.Ascii.

Module Labrpc.

(** What a dispatch comes to: a reply, [log.Fatalf], or a panic. *)
Inductive dispatched (A : Type) := Replied (a : A) | Fatal | Panic.
Arguments Replied {A}.
Arguments Fatal {A}.
Arguments Panic {A}.

Section Labrpc.
Context {Name : Type} `{Countable Name}.
Context {App Arg Rep ArgType : Type}.
Context (decode : ArgType -> list byte -> Arg) (encode : Rep -> list byte).

Record reqMsg := ReqMsg {
  endname : Name;
  svcMeth : string;
  argsType : ArgType;
  args : list byte
}.

Record replyMsg := ReplyMsg { ok : bool; reply : list byte }.

Definition failed_reply : replyMsg := ReplyMsg false [].

(** ** Services and servers *)

Abbreviation handler := (App -> Arg -> App * Rep).

(** What reflection tells about a method of the receiver. *)
Record method := Method {
  mname : string;
  PkgPath : string;
  NumIn : nat;
  In2IsPtr : bool;
  NumOut : nat;
  Func : handler
}.

Record Service := MkService { name : string; methods : gmap string handler }.

(** The test of [MakeService] on a method. *)
Definition suitable (m : method) : bool :=
  negb (negb (bool_decide (PkgPath m = "")) || negb (bool_decide (NumIn m = 3)) ||
        negb (In2IsPtr m) || negb (bool_decide (NumOut m = 0))).

Definition MakeService (typename : string) (ms : list method) : Service :=
  MkService typename
    (foldl (λ acc m, if suitable m then <[mname m := Func m]> acc else acc) ∅ ms).

(** [dispatch] of [Service] *)
Definition service_dispatch (svc : Service) (methname : string) (req : reqMsg) (app : App) :
    dispatched (App * replyMsg) :=
  match methods svc !! methname with
  | Some f =>
      let '(app', replyv) := f app (decode (argsType req) (args req)) in
      Replied (app', ReplyMsg true (encode replyv))
  | None => Fatal
  end.

Record Server := MkServer { services : gmap string Service; count : Z }.

Definition MakeServer : Server := MkServer ∅ 0.

Definition AddService (rs : Server) (svc : Service) : Server :=
  MkServer (<[name svc := svc]> (services rs)) (count rs).

(** [strings.LastIndex(s, ".")], counting from [i]; [last] is the best so far. *)
Fixpoint last_dot (s : string) (i last : Z) : Z :=
  match s with
  | EmptyString => last
  | String c s' => last_dot s' (i + 1) (if decide (c = "."%char) then i else last)
  end.

Definition LastIndexDot (s : string) : Z := last_dot s 0 (-1).

(** [svcMeth[:dot]] and [svcMeth[dot+1:]]; slicing at a negative index panics. *)
Definition split_method (svcMeth : string) : option (string * string) :=
  let dot := LastIndexDot svcMeth in
  if decide (dot < 0)%Z then None
  else
    let d := Z.to_nat dot in
    Some (String.substring 0 d svcMeth,
          String.substring (d + 1) (String.length svcMeth - (d + 1)) svcMeth).

(** [dispatch] of [Server] *)
Definition server_dispatch (rs : Server) (req : reqMsg) (app : App) :
    Server * dispatched (App * replyMsg) :=
  let rs' := MkServer (services rs) (signed 64 (count rs + 1)) in
  (rs', match split_method (svcMeth req) with
        | None => Panic
        | Some (serviceName, methodName) =>
            match services rs' !! serviceName with
            | Some service => service_dispatch service methodName req app
            | None => Fatal
            end
        end).

Definition ServerGetCount (rs : Server) : Z := count rs.

(** ** The network *)

Record Network := MkNetwork {
  reliable : bool;
  longDelays : bool;
  longReordering : bool;
  ends : gset Name;
  enabled : gmap Name bool;
  servers : gmap Name (option nat);
  connections : gmap Name (option Name);
  done : bool;                      (* the channel [done] is closed *)
  ncount : Z;
  nbytes : Z
}.

Definition MakeNetwork : Network := MkNetwork true false false ∅ ∅ ∅ ∅ false 0 0.

Definition Cleanup (rn : Network) : option Network :=
  if done rn then None  (* close of a closed channel panics *)
  else Some (MkNetwork (reliable rn) (longDelays rn) (longReordering rn) (ends rn)
    (enabled rn) (servers rn) (connections rn) true (ncount rn) (nbytes rn)).

Definition Reliable (yes : bool) (rn : Network) : Network :=
  MkNetwork yes (longDelays rn) (longReordering rn) (ends rn) (enabled rn) (servers rn)
    (connections rn) (done rn) (ncount rn) (nbytes rn).

Definition LongReordering (yes : bool) (rn : Network) : Network :=
  MkNetwork (reliable rn) (longDelays rn) yes (ends rn) (enabled rn) (servers rn)
    (connections rn) (done rn) (ncount rn) (nbytes rn).

Definition LongDelays (yes : bool) (rn : Network) : Network :=
  MkNetwork (reliable rn) yes (longReordering rn) (ends rn) (enabled rn) (servers rn)
    (connections rn) (done rn) (ncount rn) (nbytes rn).

Definition set_tables (rn : Network) ends enabled servers connections : Network :=
  MkNetwork (reliable rn) (longDelays rn) (longReordering rn) ends enabled servers
    connections (done rn) (ncount rn) (nbytes rn).

(** [log.Fatalf] is [None]. *)
Definition MakeEnd (e : Name) (rn : Network) : option Network :=
  if decide (e ∈ ends rn) then None
  else Some (set_tables rn ({[e]} ∪ ends rn) (<[e := false]> (enabled rn)) (servers rn)
               (<[e := None]> (connections rn))).

Definition DeleteEnd (e : Name) (rn : Network) : option Network :=
  if decide (e ∈ ends rn) then
    Some (set_tables rn (ends rn ∖ {[e]}) (delete e (enabled rn)) (servers rn)
            (delete e (connections rn)))
  else None.

Definition AddServer (sn : Name) (rs : nat) (rn : Network) : Network :=
  set_tables rn (ends rn) (enabled rn) (<[sn := Some rs]> (servers rn)) (connections rn).

Definition DeleteServer (sn : Name) (rn : Network) : Network :=
  set_tables rn (ends rn) (enabled rn) (<[sn := None]> (servers rn)) (connections rn).

Definition Connect (e sn : Name) (rn : Network) : Network :=
  set_tables rn (ends rn) (enabled rn) (servers rn) (<[e := Some sn]> (connections rn)).

Definition Enable (e : Name) (b : bool) (rn : Network) : Network :=
  set_tables rn (ends rn) (<[e := b]> (enabled rn)) (servers rn) (connections rn).

(** A missing key reads as the zero value. *)
Definition is_enabled (rn : Network) (e : Name) : bool := default false (enabled rn !! e).
Definition server_at (rn : Network) (sn : Name) : option nat := mjoin (servers rn !! sn).

(** A nil [*Server] is dereferenced: panic. *)
Definition GetCount (rn : Network) (heap : gmap nat Server) (sn : Name) : option Z :=
  p ← server_at rn sn; rs ← heap !! p; Some (ServerGetCount rs).

Definition GetTotalCount (rn : Network) : Z := ncount rn.
Definition GetTotalBytes (rn : Network) : Z := nbytes rn.

Definition add_bytes (n : nat) (rn : Network) : Network :=
  MkNetwork (reliable rn) (longDelays rn) (longReordering rn) (ends rn) (enabled rn)
    (servers rn) (connections rn) (done rn) (ncount rn)
    (signed 64 (nbytes rn + Z.of_nat n)).

(** The listener's two counters. *)
Definition count_request (req : reqMsg) (rn : Network) : Network :=
  add_bytes (length (args req))
    (MkNetwork (reliable rn) (longDelays rn) (longReordering rn) (ends rn) (enabled rn)
      (servers rn) (connections rn) (done rn) (signed 32 (ncount rn + 1)) (nbytes rn)).

Record endInfo := EndInfo {
  i_enabled : bool;
  i_servername : option Name;
  i_server : option nat;
  i_reliable : bool;
  i_longreordering : bool
}.

Definition readEndnameInfo (rn : Network) (e : Name) : endInfo :=
  let servername := mjoin (connections rn !! e) in
  EndInfo (is_enabled rn e) servername (servername ≫= server_at rn)
    (reliable rn) (longReordering rn).

Definition isServerDead (rn : Network) (e sn : Name) (server : nat) : bool :=
  negb (is_enabled rn e) || negb (bool_decide (server_at rn sn = Some server)).

(** ** A remote call *)

(** What [processReq] has read about the end of its request. *)
Record target := Target { t_name : Name; t_server : nat; t_reliable : bool; t_reorder : bool }.

Inductive proc :=
| Sending                            (* [e.ch <- req] in [Call] *)
| Accepted                           (* [processReq] started *)
| Located (t : target)
| Waiting (t : target)               (* in the [select] loop *)
| Got (t : target) (r : replyMsg)    (* out of the loop, [replyOK] *)
| GaveUp                             (* out of the loop, [serverDead] *)
| Cleared (t : target) (r : replyMsg)  (* after the last [isServerDead] *)
| Delayed (r : replyMsg)             (* in [time.AfterFunc] *)
| Replying (r : replyMsg)            (* [req.replyCh <- r] *)
| Returned (r : replyMsg).           (* [Call] has returned *)

(** The goroutine that runs the handler. *)
Inductive handling := NotStarted | Started (s : nat) | Ran (r : replyMsg) | Taken.

Record call := MkCall { req : reqMsg; pc : proc; hc : handling }.

(** [executed] records the dispatches, for the specification only. *)
Record world := World {
  net : Network;
  listening : bool;
  heap : gmap nat Server;
  app : App;
  calls : list call;
  crashed : bool;
  executed : list (nat * nat * replyMsg)
}.

(** The operations of the test harness. *)
Inductive admin :=
| DoReliable (b : bool) | DoLongReordering (b : bool) | DoLongDelays (b : bool)
| DoMakeEnd (e : Name) | DoDeleteEnd (e : Name)
| DoAddServer (sn : Name) (s : nat) | DoDeleteServer (sn : Name)
| DoConnect (e sn : Name) | DoEnable (e : Name) (b : bool) | DoCleanup.

Definition do_admin (a : admin) (rn : Network) : option Network :=
  match a with
  | DoReliable b => Some (Reliable b rn)
  | DoLongReordering b => Some (LongReordering b rn)
  | DoLongDelays b => Some (LongDelays b rn)
  | DoMakeEnd e => MakeEnd e rn
  | DoDeleteEnd e => DeleteEnd e rn
  | DoAddServer sn s => Some (AddServer sn s rn)
  | DoDeleteServer sn => Some (DeleteServer sn rn)
  | DoConnect e sn => Some (Connect e sn rn)
  | DoEnable e b => Some (Enable e b rn)
  | DoCleanup => Cleanup rn
  end.

Definition set_net (w : world) (rn : Network) : world :=
  World rn (listening w) (heap w) (app w) (calls w) (crashed w) (executed w).

Definition set_call (w : world) (i : nat) (c : call) : world :=
  World (net w) (listening w) (heap w) (app w) (<[i := c]> (calls w)) (crashed w) (executed w).

Definition set_pc (w : world) (i : nat) (c : call) (p : proc) : world :=
  set_call w i (MkCall (req c) p (hc c)).

(** The first lines of [processReq]. *)
Definition locate (rn : Network) (e : Name) : proc :=
  let i := readEndnameInfo rn e in
  match i_enabled i, i_servername i, i_server i with
  | true, Some sn, Some s => Located (Target sn s (i_reliable i) (i_longreordering i))
  | _, _, _ => Replying failed_reply
  end.

(** The last [isServerDead] of [processReq]. *)
Definition last_check (rn : Network) (e : Name) (t : target) (r : replyMsg) : proc :=
  if isServerDead rn e (t_name t) (t_server t) then Replying failed_reply else Cleared t r.

(** An existing server object. *)
Definition admin_ok (w : world) (a : admin) : Prop :=
  match a with DoAddServer _ s => is_Some (heap w !! s) | _ => True end.

Inductive act : world -> world -> Prop :=
(* the caller *)
| C_call w r : act w (World (net w) (listening w) (heap w) (app w)
    (calls w ++ [MkCall r Sending NotStarted]) (crashed w) (executed w))
| C_destroyed w i c :
    calls w !! i = Some c -> pc c = Sending -> done (net w) = true ->
    act w (set_pc w i c (Returned failed_reply))
| C_deliver w i c r :
    calls w !! i = Some c -> pc c = Replying r -> act w (set_pc w i c (Returned r))
(* the listener *)
| L_accept w i c :
    calls w !! i = Some c -> pc c = Sending -> listening w = true ->
    act w (set_pc (set_net w (count_request (req c) (net w))) i c Accepted)
| L_stop w :
    done (net w) = true ->
    act w (World (net w) false (heap w) (app w) (calls w) (crashed w) (executed w))
(* processReq *)
| P_locate w i c :
    calls w !! i = Some c -> pc c = Accepted ->
    act w (set_pc w i c (locate (net w) (endname (req c))))
| P_drop_request w i c t :
    calls w !! i = Some c -> pc c = Located t -> t_reliable t = false ->
    act w (set_pc w i c (Replying failed_reply))
| P_execute w i c t :
    calls w !! i = Some c -> pc c = Located t ->
    act w (set_call w i (MkCall (req c) (Waiting t) (Started (t_server t))))
| P_receive w i c t r :
    calls w !! i = Some c -> pc c = Waiting t -> hc c = Ran r ->
    act w (set_call w i (MkCall (req c) (Got t r) Taken))
| P_dead w i c t :
    calls w !! i = Some c -> pc c = Waiting t ->
    isServerDead (net w) (endname (req c)) (t_name t) (t_server t) = true ->
    act w (set_pc w i c GaveUp)
| P_gave_up w i c :
    calls w !! i = Some c -> pc c = GaveUp -> act w (set_pc w i c (Replying failed_reply))
| P_check w i c t r :
    calls w !! i = Some c -> pc c = Got t r ->
    act w (set_pc w i c (last_check (net w) (endname (req c)) t r))
| P_drop_reply w i c t r :
    calls w !! i = Some c -> pc c = Cleared t r -> t_reliable t = false ->
    act w (set_pc w i c (Replying failed_reply))
| P_reorder w i c t r :
    calls w !! i = Some c -> pc c = Cleared t r -> t_reorder t = true ->
    act w (set_pc w i c (Delayed r))
| P_reply w i c t r :
    calls w !! i = Some c -> pc c = Cleared t r ->
    act w (set_pc (set_net w (add_bytes (length (reply r)) (net w))) i c (Replying r))
| P_fire w i c r :
    calls w !! i = Some c -> pc c = Delayed r ->
    act w (set_pc (set_net w (add_bytes (length (reply r)) (net w))) i c (Replying r))
(* the handler *)
| H_run w i c s rs rs' app' r :
    calls w !! i = Some c -> hc c = Started s -> heap w !! s = Some rs ->
    server_dispatch rs (req c) (app w) = (rs', Replied (app', r)) ->
    act w (World (net w) (listening w) (<[s := rs']> (heap w)) app'
      (<[i := MkCall (req c) (pc c) (Ran r)]> (calls w)) (crashed w)
      (executed w ++ [(i, s, r)]))
| H_crash w i c s rs rs' x :
    calls w !! i = Some c -> hc c = Started s -> heap w !! s = Some rs ->
    server_dispatch rs (req c) (app w) = (rs', x) -> x = Fatal ∨ x = Panic ->
    act w (World (net w) (listening w) (<[s := rs']> (heap w)) (app w) (calls w) true
      (executed w))
(* the harness *)
| A_admin w a rn :
    admin_ok w a -> do_admin a (net w) = Some rn -> act w (set_net w rn)
| A_server w s svcs :
    heap w !! s = None ->
    act w (World (net w) (listening w) (<[s := foldl AddService MakeServer svcs]> (heap w))
      (app w) (calls w) (crashed w) (executed w)).

(** [log.Fatalf] and a panic end the process. *)
Definition step (w w' : world) : Prop := crashed w = false ∧ act w w'.

Definition winit (a : App) : world := World MakeNetwork true ∅ a [] false [].

End Labrpc.
End Labrpc.
