(* ===== verification/LabrpcProof.v ===== *)
(** * Correctness of the simulated network

    Method routing, the invariant of the transition system of [Labrpc], and what it
    gives to callers: a handler runs at most once per call, a successful reply is the
    one the handler produced, a server that was deleted does not answer, a reliable
    network does not lose calls, and a call can always be brought to its end. *)
From S2P Require Import Prelude Labrpc.
From Stdlib Require Import Strings.Byte Strings.Ascii.
Import Labrpc.

(** ** Splitting ["Service.Method"] *)

Fixpoint no_dot (s : string) : Prop :=
  match s with EmptyString => True | String c s' => c ≠ "."%char ∧ no_dot s' end.

Lemma last_dot_app s1 s2 i l :
  last_dot (s1 +:+ s2) i l = last_dot s2 (i + Z.of_nat (String.length s1)) (last_dot s1 i l).
Proof.
  revert i l. induction s1 as [|c s1 IH]; intros i l.
  { change ("" +:+ s2) with s2. cbn. f_equal. lia. }
  rewrite append_cons. cbn [last_dot String.length]. rewrite IH. f_equal. lia.
Qed.

Lemma last_dot_none s i l : no_dot s -> last_dot s i l = l.
Proof.
  revert i. induction s as [|c s IH]; intros i Hs; [done|]. destruct Hs as [Hc Hs].
  cbn [last_dot]. rewrite decide_False by done. by apply IH.
Qed.

Lemma substring_prefix a b : String.substring 0 (String.length a) (a +:+ b) = a.
Proof. induction a as [|c a IH]; [by destruct b|]. rewrite append_cons. simpl. by rewrite IH. Qed.

Lemma substring_all b : String.substring 0 (String.length b) b = b.
Proof. induction b as [|c b IH]; simpl; [done|]. by rewrite IH. Qed.

Lemma substring_suffix a b :
  String.substring (String.length a) (String.length b) (a +:+ b) = b.
Proof. induction a as [|c a IH]; [apply substring_all|]. rewrite append_cons. done. Qed.

Lemma length_append a b : String.length (a +:+ b) = String.length a + String.length b.
Proof. induction a as [|c a IH]; [done|]. rewrite append_cons. simpl. by rewrite IH. Qed.

Lemma append_assoc a b c : a +:+ (b +:+ c) = (a +:+ b) +:+ c.
Proof. induction a as [|x a IH]; [done|]. by rewrite !append_cons, IH. Qed.

Lemma split_method_spec svc meth :
  no_dot meth -> split_method (svc +:+ "." +:+ meth) = Some (svc, meth).
Proof.
  intros Hm. unfold split_method, LastIndexDot.
  change ("." +:+ meth) with (String "." meth).
  rewrite last_dot_app. cbn [last_dot]. rewrite last_dot_none by done.
  destruct (decide ("."%char = "."%char)); [|done]. rewrite decide_False by lia.
  rewrite Z.add_0_l, Nat2Z.id. f_equal. f_equal.
  - apply substring_prefix.
  - change (String "." meth) with ("." +:+ meth). rewrite append_assoc.
    replace (String.length svc + 1) with (String.length (svc +:+ ".")).
    2: { by rewrite length_append. }
    rewrite (length_append (svc +:+ ".")).
    replace (_ + _ - _) with (String.length meth) by lia. apply substring_suffix.
Qed.

Lemma split_method_no_dot s : no_dot s -> split_method s = None.
Proof. intros Hs. unfold split_method, LastIndexDot. by rewrite last_dot_none. Qed.

Section Proof.
Context {Name : Type} `{Countable Name}.
Context {App Arg Rep ArgType : Type}.
Context (decode : ArgType -> list byte -> Arg) (encode : Rep -> list byte).
Abbreviation world := (@world Name _ _ App Arg Rep ArgType).
Abbreviation call := (@call Name ArgType).
Abbreviation step := (@step Name _ _ App Arg Rep ArgType decode encode).
Abbreviation act := (@act Name _ _ App Arg Rep ArgType decode encode).
Implicit Types (w : world) (c : call).

(** The calls whose handler has run. *)
Abbreviation ran_ids w := (fst <$> (fst <$> executed w)).

(** ** Invariant *)

Definition hc_inv w (i : nat) (h : handling) : Prop :=
  match h with
  | NotStarted => i ∉ ran_ids w
  | Started s => (i ∉ ran_ids w) ∧ is_Some (heap w !! s)
  | Ran _ | Taken => True
  end.

Definition pc_inv w (i : nat) (p : @proc Name) (h : handling) : Prop :=
  match p with
  | Sending | Accepted => h = NotStarted
  | Located t => h = NotStarted ∧ is_Some (heap w !! t_server t)
  | Waiting t =>
      h = Started (t_server t) ∨ ∃ r, h = Ran r ∧ (i, t_server t, r) ∈ executed w
  | Got t r | Cleared t r => h = Taken ∧ (i, t_server t, r) ∈ executed w
  | GaveUp => True
  | Delayed r => ∃ s, (i, s, r) ∈ executed w
  | Replying r | Returned r => ok r = true -> ∃ s, (i, s, r) ∈ executed w
  end.

Definition call_inv w (i : nat) c : Prop := hc_inv w i (hc c) ∧ pc_inv w i (pc c) (hc c).

Definition dispatches w (s : nat) : nat := length (filter (λ x, x.1.2 = s) (executed w)).

Record winv w : Prop := {
  w_calls : forall i c, calls w !! i = Some c -> call_inv w i c;
  w_once : NoDup (ran_ids w);
  w_exec : forall i s r, (i, s, r) ∈ executed w ->
    ok r = true ∧ i < length (calls w) ∧ is_Some (heap w !! s);
  w_count : crashed w = false -> forall s rs, heap w !! s = Some rs ->
    count rs = signed 64 (Z.of_nat (dispatches w s));
  w_servers : forall sn s, server_at (net w) sn = Some s -> is_Some (heap w !! s);
  w_listen : listening w = false -> done (net w) = true
}.

Lemma ran_ids_elem w i : i ∈ ran_ids w -> ∃ s r, (i, s, r) ∈ executed w.
Proof.
  intros ([j s] & -> & Hj)%list_elem_of_fmap.
  apply list_elem_of_fmap in Hj as ([[j' s'] r] & [= -> ->] & Hj). eauto.
Qed.

(** Only the process part of a call and the counters of the network change. *)
Lemma set_pc_inv w rn i c p :
  winv w -> calls w !! i = Some c -> pc_inv w i p (hc c) ->
  servers rn = servers (net w) -> done rn = done (net w) ->
  winv (set_pc (set_net w rn) i c p).
Proof.
  intros [Hc Ho He Hn Hs Hl] Hi Hp Hsv Hd. destruct (Hc i c Hi) as [Hh _].
  split; simpl; try done.
  - intros j c' [[-> [<- _]]|[_ Hj]]%list_lookup_insert_Some; [by split|by apply Hc].
  - intros j s r Hj. rewrite length_insert. by apply He.
  - intros sn s. unfold server_at. rewrite Hsv. apply Hs.
  - intros Hli. rewrite Hd. by apply Hl.
Qed.

Lemma set_pc_inv' w i c p :
  winv w -> calls w !! i = Some c -> pc_inv w i p (hc c) -> winv (set_pc w i c p).
Proof.
  intros Hw Hi Hp. pose proof (set_pc_inv w (net w) i c p Hw Hi Hp eq_refl eq_refl) as Hr.
  by destruct w.
Qed.

Lemma set_call_inv w i c p h :
  winv w -> calls w !! i = Some c -> hc_inv w i h -> pc_inv w i p h ->
  winv (set_call w i (MkCall (req c) p h)).
Proof.
  intros [Hc Ho He Hn Hs Hl] Hi Hh Hp. split; simpl; try done.
  - intros j c' [[-> [<- _]]|[_ Hj]]%list_lookup_insert_Some; [by split|by apply Hc].
  - intros j s r Hj. rewrite length_insert. by apply He.
Qed.

Lemma locate_inv w i e : winv w -> pc_inv w i (locate (net w) e) NotStarted.
Proof.
  intros Hw. unfold locate. simpl.
  destruct (is_enabled (net w) e); [|done].
  destruct (mjoin (connections (net w) !! e)) as [sn|]; [|done]. simpl.
  destruct (server_at (net w) sn) as [s|] eqn:Hs; [|done].
  split; [done|]. by apply (w_servers _ Hw sn).
Qed.

Lemma last_check_inv w i e t r :
  (i, t_server t, r) ∈ executed w -> pc_inv w i (last_check (net w) e t r) Taken.
Proof. intros Hr. unfold last_check. destruct (isServerDead _ _ _ _); [done|]. by split. Qed.

(** Calls are not affected by what other calls execute. *)
Lemma call_inv_mono w w' j c :
  executed w `prefix_of` executed w' ->
  (forall s, is_Some (heap w !! s) -> is_Some (heap w' !! s)) ->
  (hc c = NotStarted ∨ (∃ s, hc c = Started s) -> j ∉ ran_ids w') ->
  call_inv w j c -> call_inv w' j c.
Proof.
  intros [ex Hex] Hheap Hnot [Hh Hp].
  assert (Hin : forall x, x ∈ executed w -> x ∈ executed w').
  { intros x Hx. rewrite Hex. apply elem_of_app. by left. }
  split.
  - destruct (hc c) as [|s|r|]; simpl in *; [auto| |done|done].
    split; [apply Hnot; eauto|]. apply Hheap, Hh.
  - destruct (pc c); simpl in *; try done; naive_solver.
Qed.

Lemma admin_servers w a rn sn s :
  winv w -> admin_ok w a -> do_admin a (net w) = Some rn ->
  server_at rn sn = Some s -> is_Some (heap w !! s).
Proof.
  intros Hw Hok Ha Hs.
  assert (Hold : servers rn = servers (net w) -> is_Some (heap w !! s)).
  { intros Heq. unfold server_at in Hs. rewrite Heq in Hs. by apply (w_servers _ Hw sn). }
  destruct a as [b|b|b|e|e|sn' s'|sn'|e sn'|e b|]; simpl in *;
    unfold MakeEnd, DeleteEnd, Cleanup in Ha; repeat case_decide; simplify_eq; try (by apply Hold).
  - unfold server_at in *. simpl in Hs.
    destruct (decide (sn' = sn)) as [->|Hne].
    + rewrite lookup_insert_eq in Hs. by simplify_eq/=.
    + rewrite lookup_insert_ne in Hs by done. by apply (w_servers _ Hw sn).
  - unfold server_at in *. simpl in Hs.
    destruct (decide (sn' = sn)) as [->|Hne].
    + by rewrite lookup_insert_eq in Hs.
    + rewrite lookup_insert_ne in Hs by done. by apply (w_servers _ Hw sn).
  - destruct (done (net w)); simplify_eq. by apply Hold.
Qed.

Lemma admin_done a (rn rn' : @Network Name _ _) :
  do_admin a rn = Some rn' -> done rn = true -> done rn' = true.
Proof.
  destruct a; simpl; unfold MakeEnd, DeleteEnd, Cleanup; repeat case_decide;
    intros; simplify_eq; try done. by destruct (done rn); simplify_eq.
Qed.

Lemma new_server_count svcs : count (foldl AddService (@MakeServer App Arg Rep) svcs) = 0%Z.
Proof.
  assert (Hg : forall rs : @Server App Arg Rep, count (foldl AddService rs svcs) = count rs).
  { induction svcs as [|svc svcs IH]; intros rs; [done|]. simpl. by rewrite IH. }
  by rewrite Hg.
Qed.

Lemma run_inv w i c s rs rs' app' r :
  winv w -> crashed w = false ->
  calls w !! i = Some c -> hc c = Started s -> heap w !! s = Some rs ->
  server_dispatch decode encode rs (req c) (app w) = (rs', Replied (app', r)) ->
  winv (World (net w) (listening w) (<[s := rs']> (heap w)) app'
    (<[i := MkCall (req c) (pc c) (Ran r)]> (calls w)) (crashed w)
    (executed w ++ [(i, s, r)])).
Proof.
  intros [Hc Ho He Hn Hs Hl] Hcr Hi Hh Hrs Hd.
  assert (Hr : ok r = true ∧ rs' = MkServer (services rs) (signed 64 (count rs + 1))).
  { unfold server_dispatch, service_dispatch in Hd. repeat case_match; simplify_eq; done. }
  destruct Hr as [Hok ->]. apply lookup_lt_Some in Hi as Hlt.
  destruct (Hc i c Hi) as [Hhi Hpi]. rewrite Hh in Hhi, Hpi. destruct Hhi as [Hni _].
  assert (Hmono : forall x, is_Some (heap w !! x) ->
    is_Some (<[s := MkServer (services rs) (signed 64 (count rs + 1))]> (heap w) !! x)).
  { intros x Hx. apply lookup_insert_is_Some. destruct (decide (s = x)); auto. }
  split; simpl.
  - intros j c' [[<- [<- _]]|[Hij Hj]]%list_lookup_insert_Some.
    + split; [done|]. simpl. destruct (pc c); simpl in *; try done; try (by destruct Hpi).
      * destruct Hpi as [[= ->]|(? & ? & _)]; [|done]. right. exists r. split; [done|].
        apply elem_of_app. right. by left.
      * destruct Hpi as [s' Hs']. exists s'. apply elem_of_app. by left.
      * intros Hor. destruct (Hpi Hor) as [s' Hs']. exists s'. apply elem_of_app. by left.
      * intros Hor. destruct (Hpi Hor) as [s' Hs']. exists s'. apply elem_of_app. by left.
    + pose proof (Hc j c' Hj) as Hcj. revert Hcj. apply call_inv_mono; simpl;
        [by eexists|done|]. intros Hns.
      rewrite !fmap_app, elem_of_app. cbn. rewrite list_elem_of_singleton.
      destruct (Hc j c' Hj) as [Hhj _]. intros [Hjin|Hjin]; [|congruence].
      destruct Hns as [E|[s' E]]; rewrite E in Hhj; [done|]. by destruct Hhj.
  - rewrite !fmap_app. apply NoDup_app. split_and!; [done| |apply NoDup_singleton].
    intros j Hj ->%list_elem_of_singleton. done.
  - intros j s' r' [Hj|Hj%list_elem_of_singleton]%elem_of_app; rewrite length_insert.
    + destruct (He j s' r' Hj) as (? & ? & ?). split_and!; [done..|auto].
    + simplify_eq. split_and!; [done..|]. rewrite lookup_insert_eq. eauto.
  - intros _ s' rs0 Hs'. unfold dispatches. simpl. rewrite filter_app, length_app.
    destruct (decide (s = s')) as [<-|Hne].
    + rewrite lookup_insert_eq in Hs'. simplify_eq. simpl.
      rewrite filter_cons_True by done. simpl.
      rewrite (Hn Hcr s rs Hrs). unfold dispatches. rewrite signed_add by lia. f_equal. lia.
    + rewrite lookup_insert_ne in Hs' by done. rewrite filter_cons_False by done. simpl.
      rewrite Nat.add_0_r. by apply Hn.
  - intros sn s' Hsn. apply Hmono. by eapply Hs.
  - done.
Qed.

(** A new call. *)
Lemma new_call_inv w r :
  winv w -> winv (World (net w) (listening w) (heap w) (app w)
    (calls w ++ [MkCall r Sending NotStarted]) (crashed w) (executed w)).
Proof.
  intros [Hc Ho He Hn Hs Hl]. split; simpl; try done.
  - intros i c Hi. apply lookup_app_Some in Hi as [Hi|[Hge Hi]]; [by apply Hc|].
    destruct (i - length (calls w)) eqn:Hd; [|done]. simplify_eq/=. split; [|done]. simpl.
    intros (s & r' & Hj)%ran_ids_elem. apply He in Hj as (_ & Hlt & _). lia.
  - intros i s r' Hi. rewrite length_app. simpl. apply He in Hi as (? & ? & ?).
    split_and!; [done|lia|done].
Qed.

(** A server object is added or written. *)
Lemma set_heap_inv w s rs b :
  winv w -> (b = false -> count rs = signed 64 (Z.of_nat (dispatches w s))) ->
  (b = false -> crashed w = false) ->
  winv (World (net w) (listening w) (<[s := rs]> (heap w)) (app w) (calls w) b (executed w)).
Proof.
  intros [Hc Ho He Hn Hs Hl] Hrs Hb.
  assert (Hmono : forall x, is_Some (heap w !! x) -> is_Some (<[s := rs]> (heap w) !! x)).
  { intros y Hy. apply lookup_insert_is_Some. destruct (decide (s = y)); auto. }
  split; simpl; try done.
  - intros j c' Hj. pose proof (Hc j c' Hj) as Hcj. revert Hcj.
    apply call_inv_mono; simpl; [done|done|]. intros Hns. destruct (Hc j c' Hj) as [Hhj _].
    destruct Hns as [E|[s' E]]; rewrite E in Hhj; [done|]. by destruct Hhj.
  - intros j s' r Hj. destruct (He j s' r Hj) as (? & ? & ?). split_and!; [done..|auto].
  - intros Hbf s' rs' [[<- <-]|[_ Hs']]%lookup_insert_Some; [by apply Hrs|].
    by apply Hn; [apply Hb|].
  - intros sn s' Hsn. apply Hmono. by eapply Hs.
Qed.

(** Nothing has been dispatched to a server object that does not exist. *)
Lemma no_dispatches w s : winv w -> heap w !! s = None -> dispatches w s = 0.
Proof.
  intros Hw Hs. unfold dispatches. destruct (filter _ _) as [|x l] eqn:E; [done|].
  assert (Hx : x ∈ filter (λ x, x.1.2 = s) (executed w)) by (rewrite E; left).
  apply list_elem_of_filter in Hx as [Hx1 Hx]. destruct x as [[j s'] r]. simpl in *.
  subst s'. apply (w_exec _ Hw) in Hx as (_ & _ & Hx). rewrite Hs in Hx. by destruct Hx.
Qed.

Lemma act_inv w w' : winv w -> crashed w = false -> act w w' -> winv w'.
Proof.
  intros Hw Hcr Hs. pose proof (w_calls _ Hw) as Hcalls.
  destruct Hs as
    [w r|w i c Hi Hp Hd|w i c r Hi Hp|w i c Hi Hp Hl|w Hd
    |w i c Hi Hp|w i c t Hi Hp Ht|w i c t Hi Hp|w i c t r Hi Hp Hh|w i c t Hi Hp Hdead
    |w i c Hi Hp|w i c t r Hi Hp|w i c t r Hi Hp Ht|w i c t r Hi Hp Ht|w i c t r Hi Hp
    |w i c r Hi Hp|w i c s rs rs' app' r Hi Hh Hrs Hd|w i c s rs rs' x Hi Hh Hrs Hd Hx
    |w a rn Hok Ha|w s svcs Hs];
    try (destruct (Hcalls i c Hi) as [Hhi Hpi]; rewrite ?Hp, ?Hh in *; simpl in Hpi).
  - by apply new_call_inv.
  - by apply set_pc_inv'.
  - by apply set_pc_inv'.
  - by apply set_pc_inv.
  - destruct Hw as [Hc Ho He Hn Hs Hl]. by split.
  - apply set_pc_inv'; [done..|]. rewrite Hpi. by apply locate_inv.
  - by apply set_pc_inv'.
  - destruct Hpi as [Hh Hs]. rewrite Hh in Hhi. apply set_call_inv; [done..|]. by left.
  - destruct Hpi as [?|(r' & [= ->] & Hr)]; [done|]. by apply set_call_inv.
  - by apply set_pc_inv'.
  - by apply set_pc_inv'.
  - destruct Hpi as [Hh Hr]. apply set_pc_inv'; [done..|]. rewrite Hh. by apply last_check_inv.
  - by apply set_pc_inv'.
  - destruct Hpi as [Hh Hr]. apply set_pc_inv'; [done..|]. simpl. eauto.
  - destruct Hpi as [Hh Hr]. apply set_pc_inv; [done..| |done|done]. simpl. eauto.
  - apply set_pc_inv; [done..| |done|done]. simpl. eauto.
  - by eapply run_inv.
  - by apply set_heap_inv.
  - destruct Hw as [Hc Ho He Hn Hs Hl]. split; simpl; try done.
    + intros sn s Hsn. by eapply admin_servers.
    + intros Hli. eapply admin_done; [exact Ha|]. by apply Hl.
  - apply set_heap_inv; [done| |done]. intros _. by rewrite new_server_count, no_dispatches.
Qed.

Lemma winit_inv a : winv (winit a).
Proof.
  split; simpl; try done.
  - apply NoDup_nil_2.
  - intros i s r Hi. by apply elem_of_nil in Hi.
Qed.

Definition reachable w : Prop := ∃ a, rtc step (winit a) w.

Lemma steps_inv w w' : winv w -> rtc step w w' -> winv w'.
Proof.
  intros Hw Hs. induction Hs as [|w w1 w2 [Hcr Ha] _ IH]; [done|].
  apply IH. by eapply act_inv.
Qed.

Lemma reachable_inv w : reachable w -> winv w.
Proof. intros [a Hs]. eapply steps_inv; [apply winit_inv|done]. Qed.

(** ** Every call can be brought to its end *)

Definition weight c : nat :=
  match pc c with
  | Sending => 9 | Accepted => 8 | Located _ => 7
  | Waiting _ => match hc c with Started _ => 6 | _ => 5 end
  | Got _ _ => 4 | GaveUp => 3 | Cleared _ _ => 3 | Delayed _ => 2 | Replying _ => 1
  | Returned _ => 0
  end.

(** Call [i] is at a smaller weight in [w']. *)
Definition closer w' (i : nat) c : Prop :=
  ∃ c', calls w' !! i = Some c' ∧ req c' = req c ∧ weight c' < weight c.

Lemma set_pc_closer w i c p :
  calls w !! i = Some c -> weight (MkCall (req c) p (hc c)) < weight c ->
  closer (set_pc w i c p) i c.
Proof.
  intros Hi Hw. eexists. simpl. rewrite list_lookup_insert_eq by (by eapply lookup_lt_Some).
  split_and!; [done..|]. done.
Qed.

Lemma locate_weight (rn : @Network Name _ _) e (r : @reqMsg Name ArgType) h :
  weight (MkCall r (locate rn e) h) < 8.
Proof. unfold locate, weight. simpl. repeat case_match; simplify_eq/=; lia. Qed.

Lemma call_progress w i c :
  winv w -> crashed w = false -> calls w !! i = Some c -> 0 < weight c ->
  ∃ w', step w w' ∧ (crashed w' = true ∨ closer w' i c).
Proof.
  intros Hw Hcr Hi Hwt. destruct (w_calls _ Hw i c Hi) as [Hh Hp].
  assert (Hset : forall rn p, weight (MkCall (req c) p (hc c)) < weight c ->
    closer (set_pc (set_net w rn) i c p) i c) by (intros; by apply set_pc_closer).
  assert (Hset' : forall p, weight (MkCall (req c) p (hc c)) < weight c ->
    closer (set_pc w i c p) i c) by (intros; by apply set_pc_closer).
  assert (Hlt : i < length (calls w)) by (by eapply lookup_lt_Some).
  destruct (pc c) as [| |t|t|t r| |t r|r|r|r] eqn:Hpc; simpl in Hp.
  - destruct (listening w) eqn:Hl.
    + eexists. split; [split; [done|by eapply L_accept]|]. right. apply Hset.
      unfold weight. simpl. rewrite Hpc. lia.
    + eexists. split; [split; [done|eapply C_destroyed; [done..|by apply (w_listen _ Hw)]]|].
      right. apply Hset'. unfold weight. simpl. rewrite Hpc. lia.
  - eexists. split; [split; [done|by eapply P_locate]|]. right. apply Hset'.
    unfold weight at 2. rewrite Hpc. apply locate_weight.
  - eexists. split; [split; [done|by eapply P_execute]|]. right. eexists. simpl.
    rewrite list_lookup_insert_eq by done. split_and!; [done..|].
    unfold weight. simpl. rewrite Hpc. lia.
  - destruct Hp as [Hs|(r & Hr & _)].
    + rewrite Hs in Hh. destruct Hh as [_ [rs Hrs]].
      destruct (server_dispatch decode encode rs (req c) (app w)) as [rs' x] eqn:Hd.
      destruct x as [[app' r]| |].
      * eexists. split; [split; [done|by eapply H_run]|]. right. eexists. simpl.
        rewrite list_lookup_insert_eq by done. split_and!; [done..|].
        unfold weight. simpl. rewrite Hpc, Hs. lia.
      * eexists. split; [split; [done|eapply H_crash; eauto]|]. by left.
      * eexists. split; [split; [done|eapply H_crash; eauto]|]. by left.
    + eexists. split; [split; [done|by eapply P_receive]|]. right. eexists. simpl.
      rewrite list_lookup_insert_eq by done. split_and!; [done..|].
      unfold weight. simpl. rewrite Hpc, Hr. lia.
  - eexists. split; [split; [done|by eapply P_check]|]. right. apply Hset'.
    unfold weight. simpl. rewrite Hpc. unfold last_check.
    destruct (isServerDead _ _ _ _); simpl; lia.
  - eexists. split; [split; [done|by eapply P_gave_up]|]. right. apply Hset'.
    unfold weight. simpl. rewrite Hpc. lia.
  - eexists. split; [split; [done|by eapply P_reply]|]. right. apply Hset.
    unfold weight. simpl. rewrite Hpc. lia.
  - eexists. split; [split; [done|by eapply P_fire]|]. right. apply Hset.
    unfold weight. simpl. rewrite Hpc. lia.
  - eexists. split; [split; [done|by eapply C_deliver]|]. right. apply Hset'.
    unfold weight. simpl. rewrite Hpc. lia.
  - unfold weight in Hwt. rewrite Hpc in Hwt. lia.
Qed.

Lemma call_returns w i c :
  winv w -> crashed w = false -> calls w !! i = Some c ->
  ∃ w', rtc step w w' ∧ (crashed w' = true ∨
    ∃ c' r, calls w' !! i = Some c' ∧ req c' = req c ∧ pc c' = Returned r).
Proof.
  remember (weight c) as n eqn:Hn. revert w c Hn.
  induction (lt_wf n) as [n _ IH]. intros w c -> Hw Hcr Hi.
  destruct (decide (0 < weight c)) as [Hp|Hz].
  - destruct (call_progress w i c Hw Hcr Hi Hp) as (w1 & Hs & [Hc1|(c1 & Hi1 & Hreq & Hlt)]).
    { exists w1. split; [by apply rtc_once|by left]. }
    destruct (crashed w1) eqn:Hcr1; [exists w1; split; [by apply rtc_once|by left]|].
    assert (Hw1 : winv w1) by (eapply act_inv; [exact Hw|done|apply Hs]).
    destruct (IH _ Hlt w1 c1 eq_refl Hw1 Hcr1 Hi1) as (w2 & Hs2 & Hfin).
    exists w2. split; [by eapply rtc_l|]. destruct Hfin as [?|(c2 & r & ? & ? & ?)]; [by left|].
    right. exists c2, r. split_and!; [done|congruence|done].
  - exists w. split; [apply rtc_refl|]. right. exists c. unfold weight in Hz.
    destruct (pc c) as [| |?|?|? ?| |? ?|?|?|r] eqn:Hpc; try lia.
    + destruct (hc c); lia.
    + by exists r.
Qed.

(** ** What a step does to one call *)

(** What the calls [i] of [w] and [w'] have to do with each other. *)
Definition call_moves w w' (i : nat) c (c' : call) : Prop :=
  req c' = req c ∧
  (pc c' = pc c ∨
   match pc c with
   | Sending => pc c' = Accepted ∨ (pc c' = Returned failed_reply ∧ done (net w) = true)
   | Accepted => pc c' = locate (net w) (endname (req c))
   | Located t => pc c' = Waiting t ∨ (pc c' = Replying failed_reply ∧ t_reliable t = false)
   | Waiting t => (∃ r, pc c' = Got t r ∧ hc c = Ran r) ∨
       (pc c' = GaveUp ∧
        isServerDead (net w) (endname (req c)) (t_name t) (t_server t) = true)
   | Got t r => pc c' = last_check (net w) (endname (req c)) t r
   | GaveUp => pc c' = Replying failed_reply
   | Cleared t r => (pc c' = Replying failed_reply ∧ t_reliable t = false) ∨
       pc c' = Delayed r ∨ pc c' = Replying r
   | Delayed r => pc c' = Replying r
   | Replying r => pc c' = Returned r
   | Returned _ => False
   end).

Lemma insert_move w w' (cs : list call) i j c c0 c1 :
  cs !! i = Some c -> cs !! j = Some c0 ->
  req c1 = req c0 -> (c0 = c -> call_moves w w' i c c1) ->
  ∃ c', <[j := c1]> cs !! i = Some c' ∧ call_moves w w' i c c'.
Proof.
  intros Hi Hj Hr Hm. destruct (decide (j = i)) as [->|Hne].
  - exists c1. rewrite list_lookup_insert_eq by (by eapply lookup_lt_Some).
    split; [done|]. apply Hm. congruence.
  - exists c. rewrite list_lookup_insert_ne by done. split; [done|]. split; [done|by left].
Qed.

Lemma act_moves w w' i c :
  act w w' -> calls w !! i = Some c ->
  ∃ c', calls w' !! i = Some c' ∧ call_moves w w' i c c'.
Proof.
  intros Hs Hi.
  assert (Hsame : ∃ c', calls w !! i = Some c' ∧ call_moves w w' i c c').
  { exists c. split; [done|]. split; [done|by left]. }
  destruct Hs; simpl; try done;
    try (eapply insert_move; [exact Hi|eassumption|done|]; intros ->; split; [done|];
         try (by left); right;
         match goal with Hp : pc _ = _ |- _ => rewrite Hp end; simpl; by eauto).
  exists c. split; [by apply lookup_app_l_Some|]. split; [done|by left].
Qed.

(** ** A server that is gone does not answer *)

Definition doomed (sn : Name) (s : nat) (p : @proc Name) : Prop :=
  match p with
  | Located t | Waiting t | Got t _ => t_name t = sn ∧ t_server t = s
  | GaveUp => True
  | Replying r | Returned r => ok r = false
  | _ => False
  end.

Lemma doomed_act w w' i c sn s :
  act w w' -> calls w !! i = Some c -> doomed sn s (pc c) ->
  isServerDead (net w) (endname (req c)) sn s = true ->
  ∃ c', calls w' !! i = Some c' ∧ req c' = req c ∧ doomed sn s (pc c').
Proof.
  intros Hs Hi Hd Hdead. destruct (act_moves w w' i c Hs Hi) as (c' & Hi' & Hr & Hm).
  exists c'. split_and!; [done..|]. destruct Hm as [->|Hm]; [done|].
  destruct (pc c) as [| |t|t|t r| |t r|r|r|r]; simpl in Hd; try done.
  - destruct Hm as [-> |[-> _]]; done.
  - destruct Hm as [(r & -> & _)|[-> _]]; done.
  - destruct Hd as [<- <-]. unfold last_check in Hm. rewrite Hdead in Hm. by rewrite Hm.
  - by rewrite Hm.
  - by rewrite Hm.
Qed.

(** ** A reliable network does not lose calls *)

(** The end is enabled and connected to a live server of a reliable network. *)
Record healthy (rn : @Network Name _ _) (e sn : Name) (s : nat) : Prop := {
  h_reliable : reliable rn = true;
  h_enabled : is_enabled rn e = true;
  h_connected : mjoin (connections rn !! e) = Some sn;
  h_server : server_at rn sn = Some s;
  h_open : done rn = false
}.

Definition served w (i : nat) (sn : Name) (s : nat) (p : @proc Name) : Prop :=
  let good t := t_reliable t = true ∧ t_name t = sn ∧ t_server t = s in
  let from r := ok r = true ∧ (i, s, r) ∈ executed w in
  match p with
  | Sending | Accepted => True
  | Located t | Waiting t => good t
  | Got t r | Cleared t r => good t ∧ from r
  | GaveUp => False
  | Delayed r | Replying r | Returned r => from r
  end.

Lemma healthy_alive rn e sn s : healthy rn e sn s -> isServerDead rn e sn s = false.
Proof.
  intros [_ He _ Hs _]. unfold isServerDead. rewrite He, Hs. simpl.
  by rewrite bool_decide_true.
Qed.

Lemma act_executed w w' : act w w' -> executed w `prefix_of` executed w'.
Proof. intros Hs. destruct Hs; simpl; try done. by eexists. Qed.

Lemma served_act w w' i c sn s :
  winv w -> act w w' -> calls w !! i = Some c -> served w i sn s (pc c) ->
  healthy (net w) (endname (req c)) sn s ->
  ∃ c', calls w' !! i = Some c' ∧ req c' = req c ∧ served w' i sn s (pc c').
Proof.
  intros Hw Hs Hi Hsv Hh. destruct (act_moves w w' i c Hs Hi) as (c' & Hi' & Hr & Hm).
  destruct (w_calls _ Hw i c Hi) as [_ Hpi].
  pose proof (healthy_alive _ _ _ _ Hh) as Halive.
  assert (Hin : forall x, x ∈ executed w -> x ∈ executed w').
  { destruct (act_executed w w' Hs) as [ex ->]. intros x Hx. apply elem_of_app. by left. }
  exists c'. split_and!; [done..|].
  assert (Hmono : forall p, served w i sn s p -> served w' i sn s p).
  { intros []; simpl; try done; naive_solver. }
  destruct Hm as [->|Hm]; [by auto|].
  destruct (pc c) as [| |t|t|t r| |t r|r|r|r]; simpl in Hsv; try done.
  - destruct Hm as [-> |[_ Hd]]; [done|]. rewrite (h_open _ _ _ _ Hh) in Hd. done.
  - rewrite Hm. destruct Hh as [Hrel He Hc Hsrv _]. unfold locate. simpl.
    rewrite He, Hc. simpl. rewrite Hsrv. simpl. auto.
  - destruct Hm as [-> |[_ Hd]]; [done|]. destruct Hsv. congruence.
  - destruct Hsv as (Hrel & <- & <-). destruct Hm as [(r & -> & Hran)|[_ Hd]]; [|congruence].
    simpl in Hpi. destruct Hpi as [?|(r' & Hr' & Hex)]; [congruence|].
    assert (r' = r) as -> by congruence. simpl. split_and!; [done..| |by apply Hin].
    by destruct (w_exec _ Hw _ _ _ Hex).
  - destruct Hsv as [(Hrel & <- & <-) [Hok Hex]]. unfold last_check in Hm.
    rewrite Halive in Hm. rewrite Hm. simpl. auto.
  - destruct Hsv as [(Hrel & <- & <-) [Hok Hex]].
    destruct Hm as [[_ ?]|[-> | ->]]; [congruence|simpl; auto..].
  - rewrite Hm. simpl. destruct Hsv. auto.
  - rewrite Hm. simpl. destruct Hsv. auto.
Qed.

End Proof.
