(* ===== verification/LabrpcTheorems.v ===== *)
(** * What callers of [labrpc] can rely on

    The theorems about remote calls, and a concrete network with one server as their
    witness. *)
From S2P Require Import Prelude Labrpc LabrpcProof.
From Stdlib Require Import Strings.Byte Strings.Ascii.
Import Labrpc.

Section Theorems.
Context {Name : Type} `{Countable Name}.
Context {App Arg Rep ArgType : Type}.
Context (decode : ArgType -> list byte -> Arg) (encode : Rep -> list byte).
Abbreviation world := (@world Name _ _ App Arg Rep ArgType).
Abbreviation step := (@step Name _ _ App Arg Rep ArgType decode encode).
Abbreviation reachable := (@reachable Name _ _ App Arg Rep ArgType decode encode).
Implicit Types (w : world).

(** C3: in every reachable state a call has run its handler at most once, and a call that
    returned successfully returned the reply of the one run of its handler. *)
Theorem rpc_at_most_once w :
  reachable w ->
  NoDup (fst <$> (fst <$> executed w)) ∧
  forall i c r, calls w !! i = Some c -> pc c = Returned r -> ok r = true ->
    ∃ s, (i, s, r) ∈ executed w ∧
      forall s' r', (i, s', r') ∈ executed w -> s' = s ∧ r' = r.
Proof.
  intros Hr. pose proof (reachable_inv _ _ _ Hr) as Hw. split; [apply (w_once _ Hw)|].
  intros i c r Hi Hpc Hok. destruct (w_calls _ Hw i c Hi) as [_ Hp]. rewrite Hpc in Hp.
  destruct (Hp Hok) as [s Hs]. exists s. split; [done|]. intros s' r' Hs'.
  assert (E : (i, s', r') = (i, s, r)); [|by simplify_eq].
  apply (key_inj (fst ∘ fst) (executed w)); [|done..].
  rewrite list_fmap_compose. apply (w_once _ Hw).
Qed.

(** The counter of a server, which [GetCount] reports, is the number of requests that
    were dispatched to it (as a 64-bit integer). *)
Theorem server_count_correct w s rs :
  reachable w -> crashed w = false -> heap w !! s = Some rs ->
  ServerGetCount rs = signed 64 (Z.of_nat (dispatches w s)).
Proof. intros Hr Hcr. by apply (w_count _ (reachable_inv _ _ _ Hr) Hcr). Qed.

(** C30: once [processReq] has chosen a server for a call, if the server is deleted or the
    end disabled before the last check and stays so, the call does not return
    successfully, whether or not the handler runs. *)
Theorem deleted_server_silent w w' i c t c' r :
  calls w !! i = Some c -> pc c = Located t ∨ pc c = Waiting t ∨ (∃ r, pc c = Got t r) ->
  rtc (λ w1 w2, step w1 w2 ∧
    isServerDead (net w1) (endname (req c)) (t_name t) (t_server t) = true) w w' ->
  calls w' !! i = Some c' -> pc c' = Returned r -> ok r = false.
Proof.
  intros Hi Hpc Hs.
  assert (Hd : doomed (t_name t) (t_server t) (pc c)).
  { by destruct Hpc as [-> |[-> |[r' ->]]]. }
  clear Hpc. remember (req c) as rq eqn:Hrq. revert c Hi Hd Hrq.
  induction Hs as [w|w w1 w2 [[_ Ha] Hdead] _ IH]; intros c Hi Hd Hrq Hi' Hr.
  - simplify_eq. rewrite Hr in Hd. done.
  - subst rq. destruct (doomed_act _ _ w w1 i c _ _ Ha Hi Hd Hdead) as (c1 & Hi1 & Hr1 & Hd1).
    by apply (IH c1).
Qed.

(** C31: as long as the network is reliable and the end stays enabled and connected to the
    same live server, a call on it that returns has succeeded, with the reply that this
    server's handler produced. *)
Theorem reliable_call_succeeds w w' i c sn s c' r :
  reachable w -> calls w !! i = Some c -> pc c = Sending ->
  rtc (λ w1 w2, step w1 w2 ∧ healthy (net w1) (endname (req c)) sn s) w w' ->
  calls w' !! i = Some c' -> pc c' = Returned r ->
  ok r = true ∧ (i, s, r) ∈ executed w'.
Proof.
  intros Hre Hi Hpc Hs. apply reachable_inv in Hre.
  assert (Hsv : served w i sn s (pc c)) by (by rewrite Hpc).
  clear Hpc. remember (req c) as rq eqn:Hrq. revert c Hi Hsv Hrq.
  induction Hs as [w|w w1 w2 [[Hcr Ha] Hh] _ IH]; intros c Hi Hsv Hrq Hi' Hr.
  - simplify_eq. rewrite Hr in Hsv. done.
  - subst rq. destruct (served_act _ _ w w1 i c _ _ Hre Ha Hi Hsv Hh)
      as (c1 & Hi1 & Hr1 & Hsv1).
    apply (IH (act_inv _ _ _ _ Hre Hcr Ha) c1); done.
Qed.

(** No call is stuck: from every reachable state that has not crashed, some sequence
    of steps makes a given call return (or ends the process in a handler). *)
Theorem call_can_return w i c :
  reachable w -> crashed w = false -> calls w !! i = Some c ->
  ∃ w', rtc step w w' ∧ (crashed w' = true ∨
    ∃ c' r, calls w' !! i = Some c' ∧ req c' = req c ∧ pc c' = Returned r).
Proof. intros Hr. by apply call_returns, (reachable_inv _ _ _ Hr). Qed.

(** A request for ["Service.Method"], where the method name has no dot, is dispatched to
    that method of that service: the handler runs on the decoded arguments and its result is
    encoded in a positive reply; an unknown service or method ends the process, and a string
    without a dot panics.  The counter of the server is incremented in every case. *)
Theorem dispatch_routes (rs : @Server App Arg Rep) (req : @reqMsg Name ArgType) app :
  (forall svc meth, svcMeth req = svc +:+ "." +:+ meth -> no_dot meth ->
    (server_dispatch decode encode rs req app).2 =
      match services rs !! svc ≫= λ service, methods service !! meth with
      | Some f =>
          let '(app', rep) := f app (decode (argsType req) (args req)) in
          Replied (app', ReplyMsg true (encode rep))
      | None => Fatal
      end) ∧
  (no_dot (svcMeth req) -> (server_dispatch decode encode rs req app).2 = Panic) ∧
  (server_dispatch decode encode rs req app).1 =
    MkServer (services rs) (signed 64 (count rs + 1)).
Proof.
  unfold server_dispatch. split_and!; [| |done].
  - intros svc meth Hm Hd. rewrite Hm, split_method_spec by done. simpl.
    by destruct (services rs !! svc).
  - intros Hd. by rewrite split_method_no_dot.
Qed.

End Theorems.

(** ** A network with one server

    A counter service: its method [Inc] appends its argument to the state and returns
    the new state. *)
Module Demo.

Definition dec (_ : unit) (b : list byte) : list byte := b.
Definition enc (b : list byte) : list byte := b.

Definition inc (app arg : list byte) : list byte * list byte := (app ++ arg, app ++ arg).

Definition svc : @Service (list byte) (list byte) (list byte) :=
  MakeService "Counter"
    [Method "Inc" "" 3 true 0 inc; Method "hidden" "main" 3 true 0 inc;
     Method "String" "" 1 false 1 inc].

Definition rq : @reqMsg Z unit := ReqMsg 7%Z "Counter.Inc" tt [x01].

Abbreviation dworld := (@world Z _ _ (list byte) (list byte) (list byte) unit).
Abbreviation dstep := (@step Z _ _ (list byte) (list byte) (list byte) unit dec enc).

Definition w0 : dworld := winit [].

(** Server 0 is registered under the name 3; end 7 is connected to it and enabled. *)
Definition net1 : @Network Z _ _ :=
  MkNetwork true false false {[7%Z]} {[7%Z := true]} {[3%Z := Some 0]} {[7%Z := Some 3%Z]}
    false 0 0.
Definition srv : @Server (list byte) (list byte) (list byte) :=
  foldl AddService MakeServer [svc].
Definition target1 : target := Target 3%Z 0 true false.
Definition rep : replyMsg := ReplyMsg true [x01].
Definition srv' : @Server (list byte) (list byte) (list byte) := MkServer (services srv) 1.
Definition net_sent : @Network Z _ _ := count_request rq net1.

Definition at_call (rn : @Network Z _ _) (srv : Server) (app : list byte) (p : proc)
    (h : handling) ex : dworld :=
  World rn true {[0 := srv]} app [MkCall rq p h] false ex.

Definition w_calling : dworld := at_call net1 srv [] Sending NotStarted [].
Definition w_waiting : dworld := at_call net_sent srv [] (Waiting target1) (Started 0) [].
Definition w_done : dworld :=
  at_call (add_bytes 1 net_sent) srv' [x01] (Returned rep) Taken [(0, 0, rep)].

(** The next step is [tac]. *)
Ltac then_step tac := eapply rtc_l; [split; [reflexivity|tac]|].

Lemma calling_reachable : reachable dec enc w_calling.
Proof.
  exists [].
  then_step ltac:(apply (A_server dec enc _ 0 [svc]); done).
  then_step ltac:(apply (A_admin dec enc _ (DoAddServer 3%Z 0)); [by eexists|reflexivity]).
  then_step ltac:(apply (A_admin dec enc _ (DoMakeEnd 7%Z)); [done|reflexivity]).
  then_step ltac:(apply (A_admin dec enc _ (DoConnect 7%Z 3%Z)); [done|reflexivity]).
  then_step ltac:(apply (A_admin dec enc _ (DoEnable 7%Z true)); [done|reflexivity]).
  apply rtc_once. split; [reflexivity|]. exact (C_call dec enc _ rq).
Qed.

(** The end stays connected to the server all along. *)
Ltac then_healthy tac :=
  eapply rtc_l; [split; [split; [reflexivity|tac]|by split]|].

Lemma calling_to_done :
  rtc (λ w1 w2, dstep w1 w2 ∧ healthy (net w1) 7%Z 3%Z 0) w_calling w_done.
Proof.
  then_healthy ltac:(by eapply (L_accept dec enc _ 0)).
  then_healthy ltac:(by eapply (P_locate dec enc _ 0)).
  then_healthy ltac:(by eapply (P_execute dec enc _ 0)).
  then_healthy ltac:(by eapply (H_run dec enc _ 0)).
  then_healthy ltac:(by eapply (P_receive dec enc _ 0)).
  then_healthy ltac:(by eapply (P_check dec enc _ 0)).
  then_healthy ltac:(by eapply (P_reply dec enc _ 0)).
  then_healthy ltac:(by eapply (C_deliver dec enc _ 0)).
  apply rtc_refl.
Qed.

Lemma done_reachable : reachable dec enc w_done.
Proof.
  destruct calling_reachable as [a Ha]. exists a. etrans; [exact Ha|].
  eapply rtc_subrel; [|exact calling_to_done]. by intros ? ? [? _].
Qed.

(** The server is deleted while the handler runs. *)
Definition w_killed : dworld :=
  at_call (DeleteServer 3%Z net_sent) srv [] (Waiting target1) (Started 0) [].
Definition w_killed_done : dworld :=
  at_call (DeleteServer 3%Z net_sent) srv' [x01] (Returned failed_reply) Taken [(0, 0, rep)].

Lemma killed_to_done :
  rtc (λ w1 w2, dstep w1 w2 ∧ isServerDead (net w1) 7%Z 3%Z 0 = true) w_killed w_killed_done.
Proof.
  eapply rtc_l; [split; [split; [reflexivity|by eapply (H_run dec enc _ 0)]|reflexivity]|].
  eapply rtc_l; [split; [split; [reflexivity|by eapply (P_receive dec enc _ 0)]|reflexivity]|].
  eapply rtc_l; [split; [split; [reflexivity|by eapply (P_check dec enc _ 0)]|reflexivity]|].
  eapply rtc_l; [split; [split; [reflexivity|by eapply (C_deliver dec enc _ 0)]|reflexivity]|].
  apply rtc_refl.
Qed.

End Demo.
Import Demo.

Lemma rpc_at_most_once_witness : NoDup (fst <$> (fst <$> executed w_done)).
Proof. exact (proj1 (rpc_at_most_once dec enc w_done done_reachable)). Defined.

Lemma server_count_correct_witness :
  ServerGetCount srv' = signed 64 (Z.of_nat (dispatches w_done 0)).
Proof.
  apply (server_count_correct dec enc w_done 0 srv' done_reachable); reflexivity.
Defined.

Lemma deleted_server_silent_witness : ok failed_reply = false.
Proof.
  apply (deleted_server_silent dec enc w_killed w_killed_done 0
    (MkCall rq (Waiting target1) (Started 0)) target1
    (MkCall rq (Returned failed_reply) Taken) failed_reply).
  - reflexivity.
  - right. by left.
  - exact killed_to_done.
  - reflexivity.
  - reflexivity.
Defined.

Lemma reliable_call_succeeds_witness : ok rep = true ∧ (0, 0, rep) ∈ executed w_done.
Proof.
  apply (reliable_call_succeeds dec enc w_calling w_done 0 (MkCall rq Sending NotStarted) 3%Z 0
    (MkCall rq (Returned rep) Taken) rep).
  - exact calling_reachable.
  - reflexivity.
  - reflexivity.
  - exact calling_to_done.
  - reflexivity.
  - reflexivity.
Defined.

Lemma call_can_return_witness :
  ∃ w', rtc dstep w_calling w' ∧ (crashed w' = true ∨
    ∃ c' r, calls w' !! 0 = Some c' ∧ req c' = rq ∧ pc c' = Returned r).
Proof.
  apply (call_can_return dec enc w_calling 0 (MkCall rq Sending NotStarted)).
  - exact calling_reachable.
  - reflexivity.
  - reflexivity.
Defined.

Lemma dispatch_routes_witness :
  (server_dispatch dec enc srv rq [x02]).2 = Replied ([x02; x01], ReplyMsg true [x02; x01]).
Proof.
  apply (proj1 (dispatch_routes dec enc srv rq [x02]) "Counter" "Inc");
    [reflexivity|simpl; repeat split; discriminate].
Defined.
