(* ===== verification/Stats.v ===== *)
(** * The statistics of a test: [begin], [op] and [end]

    [raft/config.go], [kvraft/config.go] and [kvsrv/config.go] report how many requests were
    sent between [begin] and [end] (and, for Raft, how many bytes and agreements; for the
    others, how many operations of clerks).  The counters are those of the network. *)
From S2P Require Import Prelude Labrpc LabrpcProof LabrpcTheorems.
From Stdlib Require Import Strings.Byte.
Import Labrpc.

Module Stats.
Section Stats.
Context {Name : Type} `{Countable Name}.
Abbreviation Network := (@Network Name _ _).

Definition rpcTotal (rn : Network) : Z := GetTotalCount rn.
Definition bytesTotal (rn : Network) : Z := GetTotalBytes rn.

(** *** [raft/config.go] *)
Record raft_stats := RaftStats { rpcs0 : Z; bytes0 : Z; maxIndex0 : Z }.

Definition raft_begin (rn : Network) (maxIndex : Z) : raft_stats :=
  RaftStats (rpcTotal rn) (bytesTotal rn) maxIndex.

(** The numbers that [end] prints. *)
Definition raft_end (st : raft_stats) (rn : Network) (maxIndex : Z) : Z * Z * Z :=
  (signed 64 (rpcTotal rn - rpcs0 st), signed 64 (bytesTotal rn - bytes0 st),
   signed 64 (maxIndex - maxIndex0 st)).

(** *** [kvraft/config.go] and [kvsrv/config.go] *)
Record kv_stats := KvStats { kv_rpcs0 : Z; ops : Z }.

Definition kv_begin (rn : Network) : kv_stats := KvStats (rpcTotal rn) 0.
Definition op (st : kv_stats) : kv_stats := KvStats (kv_rpcs0 st) (signed 32 (ops st + 1)).
Definition kv_end (st : kv_stats) (rn : Network) : Z * Z :=
  (signed 64 (rpcTotal rn - kv_rpcs0 st), ops st).

End Stats.

Definition kvsrv_begin {Name} `{Countable Name} := @kv_begin Name _ _.
Definition kvsrv_op : kv_stats -> kv_stats := op.
Definition kvsrv_end {Name} `{Countable Name} := @kv_end Name _ _.

Lemma signed_idem (v x : Z) : (0 < v)%Z -> signed v (signed v x) = signed v x.
Proof. intros Hv. rewrite <- (Z.add_0_r (signed v x)), signed_add by done. by rewrite !Z.add_0_r. Qed.

(** ** What is counted *)
Section Traffic.
Context {Name : Type} `{Countable Name}.
Context {App Arg Rep ArgType : Type}.
Context (decode : ArgType -> list byte -> Arg) (encode : Rep -> list byte).
Abbreviation world := (@world Name _ _ App Arg Rep ArgType).
Abbreviation call := (@call Name ArgType).
Abbreviation step := (@step Name _ _ App Arg Rep ArgType decode encode).
Abbreviation act := (@act Name _ _ App Arg Rep ArgType decode encode).
Implicit Types (w : world) (c : call).

(** A call that goes from [c] to [c'] adds [k] requests and [b] bytes: the listener accepts its
    request, or its reply is sent. *)
Inductive sends c c' : Z -> Z -> Prop :=
| S_request : pc c = Sending -> pc c' = Accepted -> sends c c' 1 (Z.of_nat (length (args (req c))))
| S_reply r0 r : (∃ t, pc c = Cleared t r0) ∨ pc c = Delayed r0 -> pc c' = Replying r ->
    sends c c' 0 (Z.of_nat (length (reply r))).

(** A run in which [k] requests were accepted and [b] bytes sent. *)
Inductive traffic : Z -> Z -> world -> world -> Prop :=
| T_refl w : traffic 0 0 w w
| T_sends w w1 w2 i c c' k b k' b' : step w w1 -> calls w !! i = Some c -> calls w1 !! i = Some c' ->
    sends c c' k b -> traffic k' b' w1 w2 -> traffic (k + k') (b + b') w w2
| T_other w w1 w2 k b : step w w1 ->
    (forall i c c' k b, calls w !! i = Some c -> calls w1 !! i = Some c' -> ¬ sends c c' k b) ->
    traffic k b w1 w2 -> traffic k b w w2.

(** The counters after a step. *)
Definition counted w w' (k b : Z) : Prop :=
  ncount (net w') = signed 32 (ncount (net w) + k) ∧
  nbytes (net w') = signed 64 (nbytes (net w) + b).

Definition in_width (rn : @Network Name _ _) : Prop :=
  ncount rn = signed 32 (ncount rn) ∧ nbytes rn = signed 64 (nbytes rn).

Lemma sends_pc c c' k b : sends c c' k b -> pc c' ≠ pc c.
Proof.
  intros [E1 E2|r0 r [[t E1]|E1] E2]; rewrite E1, E2; done.
Qed.

(** What happens to the call [i] when the call [j] changes. *)
Lemma sends_insert (cs : list call) i j c c' c1 k b :
  cs !! i = Some c -> <[j := c1]> cs !! i = Some c' -> sends c c' k b -> i = j ∧ c' = c1.
Proof.
  intros Hi Hi' Hs. destruct (decide (j = i)) as [->|Hne].
  - rewrite list_lookup_insert_eq in Hi' by (by eapply lookup_lt_Some). by simplify_eq.
  - rewrite list_lookup_insert_ne in Hi' by done. simplify_eq. by apply sends_pc in Hs.
Qed.

Lemma counted_same w w' :
  in_width (net w) -> ncount (net w') = ncount (net w) -> nbytes (net w') = nbytes (net w) ->
  counted w w' 0 0.
Proof. intros [H1 H2] E1 E2. split; rewrite Z.add_0_r; congruence. Qed.

Lemma admin_counters a (rn rn' : @Network Name _ _) :
  do_admin a rn = Some rn' -> ncount rn' = ncount rn ∧ nbytes rn' = nbytes rn.
Proof.
  destruct a; simpl; unfold MakeEnd, DeleteEnd, Cleanup; repeat case_decide; intros; simplify_eq; try done.
  by destruct (Labrpc.done rn); simplify_eq.
Qed.

(** A step either sends, or leaves the counters as they are. *)
Lemma act_counted w w1 :
  in_width (net w) -> act w w1 ->
  (forall i c c' k b, calls w !! i = Some c -> calls w1 !! i = Some c' -> sends c c' k b ->
     counted w w1 k b) ∧
  ((forall i c c' k b, calls w !! i = Some c -> calls w1 !! i = Some c' -> ¬ sends c c' k b) ->
     counted w w1 0 0).
Proof.
  intros Hin Ha.
  assert (Hno : forall w1 : world, calls w1 = calls w -> forall i c c' k b,
    calls w !! i = Some c -> calls w1 !! i = Some c' -> ¬ sends c c' k b).
  { intros w2 -> i c c' k b Hi Hi' Hs. simplify_eq. by apply sends_pc in Hs. }
  destruct Ha as
    [w r|w i c Hi Hp Hd|w i c r Hi Hp|w i c Hi Hp Hl|w Hd
    |w i c Hi Hp|w i c t Hi Hp Ht|w i c t Hi Hp|w i c t r Hi Hp Hh|w i c t Hi Hp Hdead
    |w i c Hi Hp|w i c t r Hi Hp|w i c t r Hi Hp Ht|w i c t r Hi Hp Ht|w i c t r Hi Hp
    |w i c r Hi Hp|w i c s rs rs' app' r Hi Hh Hrs Hd|w i c s rs rs' x Hi Hh Hrs Hd Hx
    |w a rn Hok Ha|w s svcs Hsv].
  4: { (* the listener *)
    split.
    - intros j c0 c' k b Hj Hj' Hs. destruct (sends_insert _ _ _ _ _ _ _ _ Hj Hj' Hs) as [-> ->].
      assert (c0 = c) as -> by congruence.
      destruct Hs as [_ _|r0 r [[t E]|E] _]; [by split|congruence..].
    - intros Hn. destruct (Hn i c (MkCall (req c) Accepted (hc c)) 1%Z (Z.of_nat (length (args (req c)))) Hi).
      + simpl. by rewrite list_lookup_insert_eq by (by eapply lookup_lt_Some).
      + by apply S_request. }
  14,15: split;
    [intros j c0 c' k b Hj Hj' Hs; destruct (sends_insert _ _ _ _ _ _ _ _ Hj Hj' Hs) as [-> ->];
     assert (c0 = c) as -> by congruence;
     destruct Hs as [E _|r0 r1 _ E]; [congruence|injection E as <-];
     split; [destruct Hin as [Hin _]; by rewrite Z.add_0_r|done]
    |intros Hn; edestruct (Hn i c (MkCall (req c) (Replying r) (hc c))); [done| |];
     [simpl; by rewrite list_lookup_insert_eq by (by eapply lookup_lt_Some)|];
     eapply S_reply; [|done]; by eauto].
  all: split; [|intros _; apply counted_same; [done|..]; simpl; try done;
                try (by destruct (admin_counters _ _ _ Ha))].
  all: intros j c0 c' k b Hj Hj' Hs; try (exfalso; exact (Hno _ eq_refl j c0 c' k b Hj Hj' Hs)).
  1: { exfalso. simpl in Hj'. rewrite (lookup_app_l_Some _ _ _ _ Hj) in Hj'. simplify_eq. by apply sends_pc in Hs. }
  all: destruct (sends_insert _ _ _ _ _ _ _ _ Hj Hj' Hs) as [-> ->]; assert (c0 = c) as -> by congruence.
  all: try (destruct Hs as [E1 E2|r0 r1 [[t0 E1]|E1] E2]; simpl in E2; try congruence; try done).
  all: try (unfold locate in E2; repeat case_match; congruence).
  injection E2 as <-. by apply counted_same.
Qed.

Lemma counted_width w w' k b : counted w w' k b -> in_width (net w').
Proof. intros [E1 E2]. split; [rewrite E1|rewrite E2]; by rewrite signed_idem. Qed.

Lemma traffic_counted w w' k b : in_width (net w) -> traffic k b w w' -> counted w w' k b.
Proof.
  intros Hin Ht. induction Ht as [w|w w1 w2 i c c' k b k' b' [_ Ha] Hi Hi' Hs _ IH|w w1 w2 k b [_ Ha] Hno _ IH].
  - by apply counted_same.
  - destruct (act_counted w w1 Hin Ha) as [Hc _]. specialize (Hc i c c' k b Hi Hi' Hs).
    pose proof (counted_width _ _ _ _ Hc) as Hin1. destruct (IH Hin1) as [E1 E2].
    destruct Hc as [F1 F2]. split.
    + rewrite E1, F1, signed_add by lia. f_equal. lia.
    + rewrite E2, F2, signed_add by lia. f_equal. lia.
  - destruct (act_counted w w1 Hin Ha) as [_ Hc]. specialize (Hc Hno).
    pose proof (counted_width _ _ _ _ Hc) as Hin1. destruct (IH Hin1) as [E1 E2].
    destruct Hc as [F1 F2]. rewrite Z.add_0_r in F1, F2. split; rewrite ?E1, ?E2, ?F1, ?F2, signed_add; lia || done.
Qed.

End Traffic.
End Stats.
Import Stats.

(** What [end] prints is what happened since [begin]: as long as the counters of the network
    do not overflow, the number of requests is the number that the network accepted, the
    number of bytes that of their arguments and of the replies sent, and the number of
    operations that of the calls of [op]. *)
Theorem reports_exact {Name} `{Countable Name} {App Arg Rep ArgType}
    (decode : ArgType -> list byte -> Arg) (encode : Rep -> list byte)
    (w w' : @world Name _ _ App Arg Rep ArgType) k b m m' (j : nat) :
  traffic decode encode k b w w' ->
  (0 <= ncount (net w))%Z -> (0 <= nbytes (net w))%Z ->
  (0 <= k)%Z -> (ncount (net w) + k < 2 ^ 31)%Z -> (0 <= b)%Z -> (nbytes (net w) + b < 2 ^ 63)%Z ->
  (0 <= m <= m')%Z -> (m' < 2 ^ 63)%Z -> (Z.of_nat j < 2 ^ 31)%Z ->
  raft_end (raft_begin (net w) m) (net w') m' = (k, b, (m' - m)%Z) ∧
  kv_end (Nat.iter j op (kv_begin (net w))) (net w') = (k, Z.of_nat j).
Proof.
  intros Ht Hn Hb Hk Hnk Hb0 Hbb Hm Hm' Hj.
  assert (Hin : in_width (net w)) by (split; rewrite signed_small; lia).
  destruct (traffic_counted decode encode w w' k b Hin Ht) as [E1 E2].
  rewrite signed_small in E1, E2 by lia.
  assert (Hops : forall i st, (0 <= ops st)%Z -> (ops st + Z.of_nat i < 2 ^ 31)%Z ->
    ops (Nat.iter i op st) = (ops st + Z.of_nat i)%Z ∧ kv_rpcs0 (Nat.iter i op st) = kv_rpcs0 st).
  { induction i as [|i IH]; intros st H0 Hi; [simpl; split; [lia|done]|].
    destruct (IH st) as [F1 F2]; [lia..|]. simpl Nat.iter. simpl. rewrite F1, F2.
    split; [|done]. rewrite signed_small; lia. }
  unfold raft_end, raft_begin, kv_end, rpcTotal, bytesTotal, GetTotalCount, GetTotalBytes. simpl.
  destruct (Hops j (kv_begin (net w))) as [G1 G2]; [simpl; lia..|]. rewrite G1, G2. simpl.
  unfold rpcTotal, GetTotalCount. rewrite E1, E2. split; repeat f_equal; rewrite ?signed_small; lia.
Qed.

(** The call of the network with one server. *)
Module StatsDemo.
Import Demo.

Ltac other tac :=
  eapply T_other; [split; [reflexivity|tac]| |];
  [intros [|?] ? ? ? ? ? ? ?; simplify_eq/=; by match goal with H : sends _ _ _ _ |- _ =>
     destruct H as [E1 E2|? ? [[? E1]|E1] E2]; cbn in E1, E2; discriminate end|].

Lemma demo_traffic : traffic dec enc 1 2 w_calling w_done.
Proof.
  change 2%Z with (1 + 1)%Z. change 1%Z with (1 + 0)%Z at 1.
  eapply T_sends with (i := 0); [split; [reflexivity|by eapply (L_accept dec enc _ 0)]|reflexivity..| |].
  { by apply (S_request (MkCall rq Sending NotStarted)). }
  other ltac:(by eapply (P_locate dec enc _ 0)).
  other ltac:(by eapply (P_execute dec enc _ 0)).
  other ltac:(by eapply (H_run dec enc _ 0)).
  other ltac:(by eapply (P_receive dec enc _ 0)).
  other ltac:(by eapply (P_check dec enc _ 0)).
  change 0%Z with (0 + 0)%Z. change 1%Z with (1 + 0)%Z.
  eapply T_sends with (i := 0); [split; [reflexivity|by eapply (P_reply dec enc _ 0)]|reflexivity..| |].
  { eapply (S_reply _ _ rep rep); [left; by eexists|reflexivity]. }
  other ltac:(by eapply (C_deliver dec enc _ 0)).
  apply T_refl.
Qed.

End StatsDemo.

Lemma reports_exact_witness :
  raft_end (raft_begin (net Demo.w_calling) 4) (net Demo.w_done) 6 = (1, 2, 2)%Z ∧
  kv_end (Nat.iter 3 op (kv_begin (net Demo.w_calling))) (net Demo.w_done) = (1, 3)%Z.
Proof.
  exact (reports_exact Demo.dec Demo.enc Demo.w_calling Demo.w_done 1 2 4 6 3
    StatsDemo.demo_traffic ltac:(vm_compute; discriminate) ltac:(vm_compute; discriminate)
    ltac:(lia) ltac:(vm_compute; reflexivity) ltac:(lia) ltac:(vm_compute; reflexivity) ltac:(lia)
    ltac:(lia) ltac:(lia)).
Defined.
