(* ===== verification/Numbers.v ===== *)
(** * Numbers as text

    What the programs use of [strconv.ParseInt] and [fmt.Sscanf] with [%d], and that both read
    back what [fmt.Sprintf] writes for [%d], which is [pretty]. *)
From stdpp Require Import pretty.
From Stdlib Require Import Strings.Ascii.
From S2P Require Import Prelude.

#[local] Open Scope Z_scope.

Module Numbers.

Inductive num_error := ErrSyntax | ErrRange.

Definition digit_of (c : ascii) : option Z :=
  let n := Z.of_N (N_of_ascii c) in
  if decide (48 <= n <= 57) then Some (n - 48) else None.

(** The loop of [strconv.ParseUint] in base 10, from the value [n]. *)
Fixpoint ParseUint_loop (s : string) (n : Z) : Z * option num_error :=
  match s with
  | EmptyString => (n, None)
  | String c s' =>
      match digit_of c with
      | None => (0, Some ErrSyntax)
      | Some d => if decide (n * 10 + d < 2 ^ 64) then ParseUint_loop s' (n * 10 + d)
                  else (2 ^ 64 - 1, Some ErrRange)
      end
  end.

(** A sign, and the rest of the string. *)
Definition cut_sign (s : string) : string * string :=
  match s with
  | String "-" s' => ("-", s')
  | String "+" s' => ("+", s')
  | _ => ("", s)
  end%string.

(** [strconv.ParseInt(s, 10, 64)], and [strconv.Atoi] on a 64-bit machine. *)
Definition ParseInt (s : string) : Z * option num_error :=
  let '(sign, s') := cut_sign s in
  match s' with
  | EmptyString => (0, Some ErrSyntax)
  | _ =>
      let '(un, err) := ParseUint_loop s' 0 in
      let neg := bool_decide (sign = "-"%string) in
      match err with
      | Some ErrSyntax => (0, err)
      | _ =>
          if negb neg && bool_decide (2 ^ 63 <= un) then (2 ^ 63 - 1, Some ErrRange)
          else if neg && bool_decide (2 ^ 63 < un) then (- 2 ^ 63, Some ErrRange)
          else (if neg then - un else un, None)
      end
  end.

(** The longest prefix of digits. *)
Fixpoint take_digits (s : string) : string :=
  match s with
  | EmptyString => ""
  | String c s' => match digit_of c with None => "" | Some _ => String c (take_digits s') end
  end.

(** [SkipSpace] on ASCII blanks; a newline is an error. *)
Fixpoint SkipSpace (s : string) : option string :=
  match s with
  | EmptyString => Some ""%string
  | String c s' =>
      let n := N_of_ascii c in
      if decide (n = 10%N) then None
      else if decide (n ∈ [9; 11; 12; 13; 32]%N) then SkipSpace s' else Some s
  end.

Fixpoint cut_prefix (lit s : string) : option string :=
  match lit, s with
  | EmptyString, _ => Some s
  | String a lit', String b s' => if decide (a = b) then cut_prefix lit' s' else None
  | _, _ => None
  end.

(** [fmt.Sscanf(s, lit + "%d", &x)] where [lit] has no blank and no verb: the value of [x],
    or [None] if it returns an error; what follows the number is ignored. *)
Definition Sscanf_int (lit s : string) : option Z :=
  rest ← cut_prefix lit s;
  rest ← SkipSpace rest;
  let '(sign, digits) := cut_sign rest in
  match take_digits digits with
  | EmptyString => None
  | tok => match ParseInt (sign +:+ tok) with (x, None) => Some x | _ => None end
  end.

(** ** Bounds *)

Lemma digit_of_bounds c d : digit_of c = Some d -> 0 <= d <= 9.
Proof. unfold digit_of. case_decide; [|done]. intros [= <-]. lia. Qed.

Lemma ParseUint_loop_bounds s n : 0 <= n < 2 ^ 64 -> 0 <= (ParseUint_loop s n).1 < 2 ^ 64.
Proof.
  revert n. induction s as [|c s IH]; intros n Hn; simpl; [done|].
  destruct (digit_of c) as [d|] eqn:Hd; [|done]. apply digit_of_bounds in Hd.
  case_decide; [|done]. apply IH. lia.
Qed.

Lemma ParseInt_bounds s : - 2 ^ 63 <= (ParseInt s).1 < 2 ^ 63.
Proof.
  unfold ParseInt. destruct (cut_sign s) as [sign [|c s']]; [done|].
  pose proof (ParseUint_loop_bounds (String c s') 0 ltac:(done)) as Hb.
  destruct (ParseUint_loop (String c s') 0) as [un err]. cbn [fst] in Hb.
  destruct err as [[]|]; simpl; try done;
    repeat case_bool_decide; simpl; try done; lia.
Qed.

(** ** Reading what was written *)

Lemma digit_of_pretty x : (x < 10)%N -> digit_of (pretty_N_char x) = Some (Z.of_N x).
Proof.
  intros Hx. assert (x = 0 ∨ x = 1 ∨ x = 2 ∨ x = 3 ∨ x = 4 ∨ x = 5 ∨ x = 6 ∨ x = 7 ∨ x = 8 ∨
    x = 9)%N as H by lia.
  repeat destruct H as [->|H]; try done. by subst x.
Qed.

(** Digits are written from the last to the first, so facts on what is written go by
    induction on the number. *)
Lemma pretty_N_go_ind (P : N -> string -> Prop) :
  (forall s, P 0%N s) ->
  (forall x s, (0 < x)%N -> P (x `div` 10)%N (String (pretty_N_char (x `mod` 10)) s) -> P x s) ->
  forall x s, P x s.
Proof.
  intros H0 HS x. induction (N.lt_wf_0 x) as [x _ IH]. intros s.
  destruct (decide (x = 0)%N) as [->|Hx]; [done|]. apply HS; [lia|]. apply IH.
  apply N.div_lt; lia.
Qed.

Lemma mod_10_lt x : (x `mod` 10 < 10)%N.
Proof. by apply N.mod_lt. Qed.

Lemma split_digit x :
  Z.of_N x = Z.of_N (x `div` 10) * 10 + Z.of_N (x `mod` 10) ∧ Z.of_N (x `div` 10) <= Z.of_N x.
Proof.
  pose proof (N.div_mod x 10 ltac:(done)) as Hdm. revert Hdm.
  generalize (x `div` 10)%N (x `mod` 10)%N. intros a b ->. lia.
Qed.

Lemma ParseUint_loop_go x s :
  Z.of_N x < 2 ^ 64 -> ParseUint_loop (pretty_N_go x s) 0 = ParseUint_loop s (Z.of_N x).
Proof.
  revert x s. refine (pretty_N_go_ind _ _ _).
  - intros s _. by rewrite pretty_N_go_0.
  - intros x s Hx IH Hlt. rewrite pretty_N_go_step by done.
    destruct (split_digit x) as [Hdm Hle].
    rewrite IH by lia. cbn [ParseUint_loop]. rewrite digit_of_pretty by apply mod_10_lt.
    rewrite <- Hdm.
    by rewrite decide_True.
Qed.

Lemma pretty_N_positive x : (0 < x)%N -> pretty x = pretty_N_go x "".
Proof. intros Hx. unfold pretty, pretty_N. by rewrite decide_False by lia. Qed.

Lemma ParseUint_loop_pretty x : Z.of_N x < 2 ^ 64 -> ParseUint_loop (pretty x) 0 = (Z.of_N x, None).
Proof.
  intros Hx. destruct (decide (x = 0)%N) as [->|Hx0]; [done|].
  rewrite pretty_N_positive by lia. by rewrite ParseUint_loop_go.
Qed.

(** What is written starts with a digit and has only digits. *)
Definition starts_digit (s : string) : Prop :=
  match s with String c _ => is_Some (digit_of c) | EmptyString => False end.

Lemma starts_digit_go x s : starts_digit s -> starts_digit (pretty_N_go x s).
Proof.
  revert x s. refine (pretty_N_go_ind _ _ _).
  - intros s Hs. by rewrite pretty_N_go_0.
  - intros x s Hx IH _. rewrite pretty_N_go_step by done. apply IH.
    exact (mk_is_Some _ _ (digit_of_pretty _ (mod_10_lt x))).
Qed.

Lemma starts_digit_pretty (x : N) : starts_digit (pretty x).
Proof.
  destruct (decide (x = 0)%N) as [->|Hx]; [by eexists|].
  rewrite pretty_N_positive, pretty_N_go_step by lia. apply starts_digit_go.
  exact (mk_is_Some _ _ (digit_of_pretty _ (mod_10_lt x))).
Qed.

Lemma take_digits_cons c s r d :
  digit_of c = Some d -> take_digits (String c s +:+ r) = String c (take_digits (s +:+ r)).
Proof. intros Hd. rewrite append_cons. cbn [take_digits]. by rewrite Hd. Qed.

Lemma take_digits_go x s r :
  take_digits (pretty_N_go x s +:+ r) = pretty_N_go x (take_digits (s +:+ r)).
Proof.
  revert x s. refine (pretty_N_go_ind _ _ _).
  - intros s. by rewrite !pretty_N_go_0.
  - intros x s Hx IH. rewrite (pretty_N_go_step x s), (pretty_N_go_step x (take_digits _)), IH by done.
    f_equal. by apply (take_digits_cons _ _ _ _ (digit_of_pretty _ (mod_10_lt x))).
Qed.

Lemma take_digits_pretty (x : N) r :
  take_digits r = ""%string -> take_digits (pretty x +:+ r) = pretty x.
Proof.
  intros Hr. destruct (decide (x = 0)%N) as [->|Hx].
  { change (pretty 0%N) with (String "0" ""). by rewrite (take_digits_cons _ _ _ 0), (Hr : take_digits ("" +:+ r) = _). }
  rewrite pretty_N_positive, take_digits_go by lia. by rewrite (Hr : take_digits ("" +:+ r) = _).
Qed.

(** [cut_sign] leaves a number without a sign alone, and [SkipSpace] too. *)
Lemma cut_sign_digit s : starts_digit s -> cut_sign s = (""%string, s).
Proof.
  destruct s as [|c s]; [done|]. simpl. intros [d Hd]. apply digit_of_bounds in Hd as Hb.
  destruct c as [[] [] [] [] [] [] [] []]; done.
Qed.

Lemma SkipSpace_digit s : starts_digit s -> SkipSpace s = Some s.
Proof.
  destruct s as [|c s]; [done|]. unfold starts_digit, digit_of. intros [d Hd].
  case_decide as Hc; [|done]. cbn [SkipSpace].
  rewrite decide_False by (intros He; rewrite He in Hc; lia). rewrite decide_False; [done|].
  intros Hin. set_unfold. lia.
Qed.

Lemma starts_digit_app s r : starts_digit s -> starts_digit (s +:+ r).
Proof. by destruct s. Qed.

Lemma ParseInt_pretty (x : N) : Z.of_N x < 2 ^ 63 -> ParseInt (pretty x) = (Z.of_N x, None).
Proof.
  intros Hx. unfold ParseInt. pose proof (starts_digit_pretty x) as Hs.
  rewrite cut_sign_digit by done. destruct (pretty x) as [|c s] eqn:Hp; [done|].
  rewrite <- Hp, ParseUint_loop_pretty by lia. simpl.
  rewrite bool_decide_false by lia. done.
Qed.

Lemma cut_prefix_app lit s : cut_prefix lit (lit +:+ s) = Some s.
Proof. induction lit as [|a lit IH]; [done|]. rewrite append_cons. simpl. by rewrite decide_True. Qed.

(** A number that was written after [lit] is read back, whatever follows it. *)
Lemma Sscanf_pretty lit (x : N) r :
  Z.of_N x < 2 ^ 63 -> take_digits r = ""%string ->
  Sscanf_int lit (lit +:+ pretty x +:+ r) = Some (Z.of_N x).
Proof.
  intros Hx Hr. unfold Sscanf_int. rewrite cut_prefix_app. cbn [mbind option_bind].
  pose proof (starts_digit_pretty x) as Hs.
  rewrite SkipSpace_digit by by apply starts_digit_app. cbn [mbind option_bind].
  rewrite cut_sign_digit by by apply starts_digit_app. rewrite take_digits_pretty by done.
  destruct (pretty x) as [|c s] eqn:Hp; [done|].
  change ("" +:+ String c s) with (String c s). by rewrite <- Hp, ParseInt_pretty.
Qed.

Lemma pretty_of_N (x : N) : pretty (Z.of_N x) = pretty x.
Proof. by destruct x. Qed.

End Numbers.
