(* ===== verification/MapReduce.v ===== *)
(** * The sequential MapReduce of [main/mrsequential.go], its applications and [ihash]

    [main] maps every input file, sorts the intermediate pairs by key, and calls the
    reduce function once per run of equal keys.  The applications of [mrapps] supply
    the functions.  Parameters: the sort of the standard library, how Go ranges over the
    runes of a string, and [unicode.IsLetter]. *)
From stdpp Require Import pretty.
From Stdlib Require Import Strings.Ascii.
From S2P Require Import Prelude.

Module Mr.

Record KeyValue := KV { Key : string; Value : string }.

(** [ByKey.Less] *)
Definition ByKey_Less (a b : KeyValue) : bool := String.ltb (Key a) (Key b).

(** ** [ihash] of [mr/worker.go] *)

(** FNV-1a with 32 bits, as in [hash/fnv]. *)
Definition fnv_step (h : Z) (c : ascii) : Z :=
  (Z.lxor h (Z.of_N (N_of_ascii c)) * 16777619) mod 2 ^ 32.

Fixpoint fnv32a (h : Z) (s : string) : Z :=
  match s with EmptyString => h | String c s' => fnv32a (fnv_step h c) s' end.

Definition ihash (key : string) : Z := Z.land (fnv32a 2166136261 key) 0x7fffffff.

Section Sequential.
Context (sort : forall A, (A -> A -> bool) -> list A -> list A).
Context (mapf : string -> string -> list KeyValue) (reducef : string -> list string -> string).

(** The first loop of [main]: [None] is [log.Fatalf] on a file that cannot be read. *)
Fixpoint map_files (fs : gmap string string) (filenames : list string)
    (intermediate : list KeyValue) : option (list KeyValue) :=
  match filenames with
  | [] => Some intermediate
  | filename :: rest =>
      content ← fs !! filename;
      map_files fs rest (intermediate ++ mapf filename content)
  end.

(** [for j < len(intermediate) && intermediate[j].Key == intermediate[i].Key { j++ }] *)
Fixpoint scan (fuel : nat) (l : list KeyValue) (i j : nat) : nat :=
  match fuel with
  | O => j
  | S fuel =>
      match l !! j, l !! i with
      | Some b, Some a => if decide (Key b = Key a) then scan fuel l i (S j) else j
      | _, _ => j
      end
  end.

(** [for k := i; k < j; k++ { values = append(values, intermediate[k].Value) }] *)
Definition values (l : list KeyValue) (i j : nat) : list string :=
  Value <$> take (j - i) (drop i l).

(** The second loop of [main], one line per iteration; both loops advance, so the
    length of the slice is enough fuel. *)
Fixpoint reduce_loop (fuel : nat) (l : list KeyValue) (i : nat) : list string :=
  match fuel with
  | O => []
  | S fuel =>
      match l !! i with
      | None => []
      | Some kv =>
          let j := scan (length l) l i (i + 1) in
          let output := reducef (Key kv) (values l i j) in
          (Key kv +:+ " " +:+ output) :: reduce_loop fuel l j
      end
  end.

(** The lines of [mr-out-0]. *)
Definition mrsequential (fs : gmap string string) (filenames : list string) :
    option (list string) :=
  intermediate ← map_files fs filenames [];
  let l := sort KeyValue ByKey_Less intermediate in
  Some (reduce_loop (length l) l 0).

(** ** Reference definition: what the reduce phase is for *)

(** The values of a key, in order. *)
Definition values_of (k : string) (l : list KeyValue) : list string :=
  Value <$> filter (λ kv, Key kv = k) l.

(** A run of equal keys at the head of the list. *)
Fixpoint run_length (k : string) (l : list KeyValue) : nat :=
  match l with
  | [] => 0
  | kv :: l' => if decide (Key kv = k) then S (run_length k l') else 0
  end.

Definition line (k : string) (vs : list string) : string := k +:+ " " +:+ reducef k vs.

Lemma scan_run fuel l i j a :
  l !! i = Some a -> length l - j ≤ fuel -> scan fuel l i j = j + run_length (Key a) (drop j l).
Proof.
  intros Hi. revert j. induction fuel as [|fuel IH]; intros j Hf.
  - rewrite drop_ge by lia. simpl. lia.
  - cbn [scan]. destruct (l !! j) as [b|] eqn:Hj.
    + rewrite Hi, (drop_S _ _ _ Hj). cbn [run_length].
      destruct (decide (Key b = Key a)); [|lia]. rewrite IH; [lia|].
      apply lookup_lt_Some in Hj. lia.
    + apply lookup_ge_None in Hj. rewrite drop_ge by lia. simpl. lia.
Qed.

Lemma run_length_le k l : run_length k l ≤ length l.
Proof. induction l as [|kv l IH]; simpl; [lia|]. case_decide; lia. Qed.

Lemma run_prefix k l : Forall (λ kv, Key kv = k) (take (run_length k l) l).
Proof. induction l as [|kv l IH]; simpl; [done|]. case_decide; simpl; by constructor. Qed.

Lemma run_rest k l b : head (drop (run_length k l) l) = Some b -> Key b ≠ k.
Proof.
  induction l as [|kv l IH]; simpl; [done|]. case_decide; simpl; [done|].
  by intros [= <-].
Qed.

Section Sorted.
Context (HSort : GoSort sort).

(** The list sorted by key. *)
Definition key_sorted (l : list KeyValue) : Prop := StronglySorted String.le (Key <$> l).

Lemma ByKey_strict_weak : strict_weak ByKey_Less.
Proof.
  destruct ltb_strict_weak as (Hir & Htr & Hneg). unfold ByKey_Less.
  split_and!; intros; eauto.
Qed.

Lemma sort_key_sorted l : key_sorted (sort KeyValue ByKey_Less l).
Proof.
  assert (Hs : StronglySorted (not_after ByKey_Less) (sort KeyValue ByKey_Less l)).
  { apply is_sorted_strongly; [apply ByKey_strict_weak|].
    apply go_sort_sorted, ByKey_strict_weak. }
  unfold key_sorted. induction Hs as [|a k Hs IH Ha]; simpl; constructor; [done|].
  apply Forall_fmap. eapply Forall_impl; [exact Ha|]. intros b. apply ltb_false.
Qed.

Lemma key_sorted_drop n l : key_sorted l -> key_sorted (drop n l).
Proof.
  unfold key_sorted. rewrite fmap_drop. generalize (Key <$> l). clear.
  induction n as [|n IH]; intros l Hl; [done|]. destruct l as [|k l]; [done|].
  simpl. apply IH. by apply StronglySorted_inv in Hl as [? _].
Qed.

Lemma key_sorted_cons a l :
  key_sorted (a :: l) -> key_sorted l ∧ Forall (λ kv, String.le (Key a) (Key kv)) l.
Proof.
  unfold key_sorted. rewrite fmap_cons. intros [Hs Ha]%StronglySorted_inv.
  by rewrite Forall_fmap in Ha.
Qed.

(** After the run of a key, all keys are greater. *)
Lemma key_sorted_rest a l :
  key_sorted (a :: l) ->
  Forall (λ kv, String.le (Key a) (Key kv) ∧ Key kv ≠ Key a) (drop (run_length (Key a) l) l).
Proof.
  intros [Hs Ha]%key_sorted_cons. set (n := run_length (Key a) l).
  assert (Hd : key_sorted (drop n l)) by (by apply key_sorted_drop).
  assert (Hle : Forall (λ kv, String.le (Key a) (Key kv)) (drop n l)).
  { by apply Forall_drop. }
  destruct (drop n l) as [|b rest] eqn:Hdrop; [done|].
  assert (Hb : Key b ≠ Key a).
  { apply (run_rest (Key a) l). fold n. by rewrite Hdrop. }
  apply key_sorted_cons in Hd as [_ Hbr].
  apply Forall_cons in Hle as [Hab Hle]. constructor; [done|].
  rewrite Forall_forall in *. intros c Hc. split; [by apply Hle|].
  intros Heq. apply Hb. specialize (Hbr c Hc). simpl in Hbr. rewrite Heq in Hbr.
  by apply (anti_symm String.le).
Qed.

(** The groups of a sorted list: the distinct keys in order, each with its values. *)
Lemma values_of_run a l :
  key_sorted (a :: l) ->
  values_of (Key a) (a :: l) = Value <$> (a :: take (run_length (Key a) l) l).
Proof.
  intros Hs. unfold values_of. rewrite filter_cons_True by done. simpl. f_equal. f_equal.
  pose proof (key_sorted_rest a l Hs) as Hr.
  rewrite <- (take_drop (run_length (Key a) l) l) at 1. rewrite filter_app.
  rewrite filter_all by (apply Forall_forall, run_prefix).
  destruct (filter _ (drop _ l)) as [|c cs] eqn:E; [by rewrite app_nil_r|].
  assert (Hc : c ∈ filter (λ kv, Key kv = Key a) (drop (run_length (Key a) l) l))
    by (rewrite E; left).
  apply list_elem_of_filter in Hc as [Hk Hc]. rewrite Forall_forall in Hr.
  by destruct (Hr c Hc).
Qed.

Lemma values_of_rest a l k :
  key_sorted (a :: l) -> k ≠ Key a ->
  values_of k (drop (run_length (Key a) l) l) = values_of k (a :: l).
Proof.
  intros Hs Hk. unfold values_of. rewrite filter_cons_False by done.
  set (n := run_length (Key a) l).
  transitivity (Value <$> filter (λ kv, Key kv = k) (take n l ++ drop n l));
    [|by rewrite take_drop].
  rewrite filter_app. unfold n.
  destruct (filter _ (take _ l)) as [|c cs] eqn:E; [done|].
  assert (Hc : c ∈ filter (λ kv, Key kv = k) (take (run_length (Key a) l) l))
    by (rewrite E; left).
  apply list_elem_of_filter in Hc as [Hck Hc].
  pose proof (run_prefix (Key a) l) as Hp. rewrite Forall_forall in Hp.
  specialize (Hp c Hc). congruence.
Qed.

(** The reduce loop on a sorted list: strictly increasing keys, exactly those that
    occur, each reduced once with all of its values. *)
Lemma reduce_loop_spec fuel l i :
  key_sorted l -> length l - i ≤ fuel ->
  ∃ keys, reduce_loop fuel l i = (λ k, line k (values_of k (drop i l))) <$> keys ∧
    NoDup keys ∧ StronglySorted String.le keys ∧
    (forall k, k ∈ keys <-> k ∈ Key <$> drop i l).
Proof.
  intros Hs. revert i. induction fuel as [|fuel IH]; intros i Hf.
  { exists []. rewrite drop_ge by lia. split_and!; try done; constructor. }
  cbn [reduce_loop]. destruct (l !! i) as [a|] eqn:Hi.
  2: { exists []. rewrite drop_ge by (by apply lookup_ge_None).
       split_and!; try done; constructor. }
  pose proof (drop_S _ _ _ Hi) as Hd. apply lookup_lt_Some in Hi as Hlt.
  rewrite (scan_run _ _ _ _ _ Hi) by lia. rewrite Nat.add_1_r.
  set (rest := drop (S i) l) in *. set (n := run_length (Key a) rest).
  assert (Hsd : key_sorted (a :: rest)) by (rewrite <- Hd; by apply key_sorted_drop).
  assert (Hdn : drop (S i + n) l = drop n rest).
  { unfold rest. rewrite drop_drop. f_equal. }
  destruct (IH (S i + n)) as (keys & Hl & Hnd & Hso & Hk); [lia|]. rewrite Hdn in *.
  pose proof (key_sorted_rest a rest Hsd) as Hr. fold n in Hr.
  assert (Hgt : forall k, k ∈ keys -> String.le (Key a) k ∧ k ≠ Key a).
  { intros k Hin. apply Hk, list_elem_of_fmap in Hin as (b & -> & Hb).
    rewrite Forall_forall in Hr. by apply Hr. }
  exists (Key a :: keys). split_and!.
  - rewrite fmap_cons, Hl, Hd. f_equal.
    + unfold line. rewrite values_of_run by done. fold n. unfold values.
      replace (S i + n - i) with (S n) by lia. by rewrite Hd.
    + apply list_fmap_ext. intros j k Hj%list_elem_of_lookup_2.
      unfold n. rewrite (values_of_rest a rest k); [done|done|]. by apply Hgt.
  - constructor; [|done]. intros Hin. by destruct (Hgt _ Hin).
  - constructor; [done|]. apply Forall_forall. intros k Hin. by apply Hgt.
  - intros k. rewrite Hd, fmap_cons, !elem_of_cons, Hk. fold rest. split.
    + intros [->|Hin]; [by left|right]. apply list_elem_of_fmap in Hin as (b & -> & Hb).
      apply list_elem_of_fmap_2. by eapply subseteq_drop.
    + intros [->|Hin]; [by left|]. apply list_elem_of_fmap in Hin as (b & -> & Hb).
      rewrite <- (take_drop n rest), elem_of_app in Hb. destruct Hb as [Hb|Hb].
      * left. pose proof (run_prefix (Key a) rest) as Hp. rewrite Forall_forall in Hp. by apply Hp.
      * right. by apply list_elem_of_fmap_2.
Qed.

Lemma map_files_spec fs filenames acc :
  (forall f, f ∈ filenames -> is_Some (fs !! f)) ->
  map_files fs filenames acc =
  Some (acc ++ mjoin ((λ f, mapf f (default "" (fs !! f))) <$> filenames)).
Proof.
  revert acc. induction filenames as [|f fl IH]; intros acc Hf; simpl; [by rewrite app_nil_r|].
  destruct (Hf f) as [c Hc]; [left|]. rewrite Hc. simpl.
  rewrite IH; [by rewrite app_assoc|]. intros f' Hf'. apply Hf. by right.
Qed.

End Sorted.
End Sequential.

(** All the pairs that the map phase produces. *)
Definition emitted (mapf : string -> string -> list KeyValue) (fs : gmap string string)
    (filenames : list string) : list KeyValue :=
  mjoin ((λ f, mapf f (default "" (fs !! f))) <$> filenames).

(** ** Applications of [mrapps] *)
Section Apps.
Context (sort : forall A, (A -> A -> bool) -> list A -> list A).
Context (runes : string -> list (Z * string)) (IsLetter : Z -> bool).

(** [strings.FieldsFunc]: the maximal pieces without a separator; [cur] is the piece
    being read. *)
Fixpoint fields (f : Z -> bool) (rs : list (Z * string)) (cur : option string) : list string :=
  match rs with
  | [] => option_list cur
  | (r, b) :: rs' =>
      if f r then option_list cur ++ fields f rs' None
      else fields f rs' (Some (default "" cur +:+ b))
  end.

Definition FieldsFunc (s : string) (f : Z -> bool) : list string := fields f (runes s) None.

Definition words (contents : string) : list string :=
  FieldsFunc contents (λ r, negb (IsLetter r)).

Definition Itoa (n : nat) : string := pretty n.

(** [strings.Join] *)
Fixpoint Join (l : list string) (sep : string) : string :=
  match l with
  | [] => ""
  | [x] => x
  | x :: l' => x +:+ sep +:+ Join l' sep
  end.

(** [wc.go] *)
Definition wc_Map (filename contents : string) : list KeyValue :=
  (λ w, KV w "1") <$> words contents.
Definition wc_Reduce (key : string) (values : list string) : string := Itoa (length values).

(** [indexer.go]; the order in which a Go map is ranged over is unspecified. *)
Definition indexer_Map (document value : string) (res : list KeyValue) : Prop :=
  res ≡ₚ (λ w, KV w document) <$> elements (list_to_set (words value) : gset string).
Definition indexer_Reduce (key : string) (values : list string) : string :=
  Itoa (length values) +:+ " " +:+ Join (sort string String.ltb values) ",".

(** [early_exit.go]; the sleep has no effect on the result. *)
Definition early_exit_Map (filename contents : string) : list KeyValue := [KV filename "1"].
Definition early_exit_Reduce (key : string) (values : list string) : string :=
  Itoa (length values).

(** [nocrash.go] *)
Definition nocrash_Map (filename contents : string) : list KeyValue :=
  [KV "a" filename; KV "b" (Itoa (String.length filename));
   KV "c" (Itoa (String.length contents)); KV "d" "xyzzy"].
Definition nocrash_Reduce (key : string) (values : list string) : string :=
  Join (sort string String.ltb values) " ".

End Apps.
End Mr.
Import Mr.

(** ** Correctness *)

Lemma values_of_perm k l l' : l ≡ₚ l' -> values_of k l ≡ₚ values_of k l'.
Proof. intros Hp. unfold values_of. by rewrite Hp. Qed.

Lemma length_values_of k l : length (values_of k l) = length (filter (λ k', k' = k) (Key <$> l)).
Proof. unfold values_of. by rewrite filter_fmap, !length_fmap. Qed.

Lemma fmap_mjoin_fmap {A B C} (k : B -> C) (g : A -> list B) (h : A -> list C) l :
  (forall x, k <$> g x = h x) -> k <$> mjoin (g <$> l) = mjoin (h <$> l).
Proof.
  intros Hg. induction l as [|x l IH]; [done|]. rewrite !fmap_cons.
  change (k <$> (g x ++ mjoin (g <$> l)) = h x ++ mjoin (h <$> l)).
  by rewrite fmap_app, IH, Hg.
Qed.

Section Correct.
Context (sort : forall A, (A -> A -> bool) -> list A -> list A) (sort_ok : GoSort sort).
Context (fs : gmap string string) (filenames : list string).
Context (readable : forall f, f ∈ filenames -> is_Some (fs !! f)).

Lemma mrsequential_lines mapf reducef :
  ∃ keys l, mrsequential sort mapf reducef fs filenames =
      Some ((λ k, line reducef k (values_of k l)) <$> keys) ∧
    l ≡ₚ emitted mapf fs filenames ∧ NoDup keys ∧ StronglySorted String.le keys ∧
    (forall k, k ∈ keys <-> k ∈ Key <$> emitted mapf fs filenames).
Proof.
  unfold mrsequential. rewrite map_files_spec by done. simpl.
  change (mjoin _) with (emitted mapf fs filenames).
  set (l := sort KeyValue ByKey_Less (emitted mapf fs filenames)).
  destruct (reduce_loop_spec reducef (length l) l 0)
    as (keys & Hl & Hnd & Hs & Hk); [by apply sort_key_sorted|lia|].
  exists keys, l. rewrite Hl. split_and!; try done; [apply go_sort_perm|].
  intros k. rewrite Hk. simpl. unfold l. by rewrite go_sort_perm.
Qed.

(** C19: when the input files can be read, the sequential MapReduce writes one line for
    each key that the map phase produced, in increasing order of the keys, and the line
    of a key is the reduce function applied to all the values produced for it. *)
Theorem mrsequential_correct mapf reducef :
  ∃ keys vs, mrsequential sort mapf reducef fs filenames =
      Some ((λ k, line reducef k (vs k)) <$> keys) ∧
    NoDup keys ∧ StronglySorted String.le keys ∧
    (forall k, k ∈ keys <-> k ∈ Key <$> emitted mapf fs filenames) ∧
    forall k, vs k ≡ₚ values_of k (emitted mapf fs filenames).
Proof.
  destruct (mrsequential_lines mapf reducef) as (keys & l & Hout & Hp & Hnd & Hs & Hk).
  exists keys, (λ k, values_of k l). split_and!; try done.
  intros k. by apply values_of_perm.
Qed.

(** With [wc.go] the line of a word is the number of its occurrences in all the
    input files. *)
Theorem wc_counts runes IsLetter :
  let all := mjoin ((λ f, words runes IsLetter (default "" (fs !! f))) <$> filenames) in
  ∃ keys, mrsequential sort (wc_Map runes IsLetter) wc_Reduce fs filenames =
      Some ((λ w, w +:+ " " +:+ Itoa (length (filter (λ w', w' = w) all))) <$> keys) ∧
    NoDup keys ∧ StronglySorted String.le keys ∧ (forall w, w ∈ keys <-> w ∈ all).
Proof.
  intros all.
  destruct (mrsequential_lines (wc_Map runes IsLetter) wc_Reduce)
    as (keys & l & Hout & Hp & Hnd & Hs & Hk).
  assert (Hall : Key <$> emitted (wc_Map runes IsLetter) fs filenames = all).
  { apply fmap_mjoin_fmap. intros f. unfold wc_Map. rewrite <- list_fmap_compose.
    apply list_fmap_id. }
  exists keys. rewrite Hall in Hk. split_and!; try done. rewrite Hout. f_equal.
  apply list_fmap_ext. intros i w _. unfold line, wc_Reduce. do 3 f_equal.
  rewrite length_values_of. apply Permutation_length. by rewrite Hp, Hall.
Qed.

End Correct.

(** When the reduce function does not depend on the order of the values (those of
    [indexer.go] and [nocrash.go] sort them, see [indexer_Reduce_perm] and
    [nocrash_Reduce_perm], and that of [wc.go] only counts them), the output does not depend on how the
    unstable [sort.Sort] orders pairs with equal keys. *)
Theorem mrsequential_deterministic sort1 sort2 fs filenames mapf reducef :
  GoSort sort1 -> GoSort sort2 -> (forall f, f ∈ filenames -> is_Some (fs !! f)) ->
  (forall k vs vs', vs ≡ₚ vs' -> reducef k vs = reducef k vs') ->
  mrsequential sort1 mapf reducef fs filenames = mrsequential sort2 mapf reducef fs filenames.
Proof.
  intros Hs1 Hs2 Hf Hred.
  destruct (mrsequential_lines sort1 Hs1 fs filenames Hf mapf reducef)
    as (keys1 & l1 & -> & Hp1 & Hnd1 & Hso1 & Hk1).
  destruct (mrsequential_lines sort2 Hs2 fs filenames Hf mapf reducef)
    as (keys2 & l2 & -> & Hp2 & Hnd2 & Hso2 & Hk2).
  assert (keys1 = keys2) as ->.
  { apply (StronglySorted_unique String.le); [done..|].
    apply NoDup_Permutation; [done..|]. intros k. by rewrite Hk1, Hk2. }
  f_equal. apply list_fmap_ext. intros i k _. unfold line. do 2 f_equal.
  apply Hred, values_of_perm. by rewrite Hp1, Hp2.
Qed.

Lemma indexer_Reduce_perm sort key vs vs' :
  GoSort sort -> vs ≡ₚ vs' -> indexer_Reduce sort key vs = indexer_Reduce sort key vs'.
Proof.
  intros Hs Hp. unfold indexer_Reduce.
  by rewrite (sort_strings_unique sort vs vs' Hp), (Permutation_length Hp).
Qed.

Lemma nocrash_Reduce_perm sort key vs vs' :
  GoSort sort -> vs ≡ₚ vs' -> nocrash_Reduce sort key vs = nocrash_Reduce sort key vs'.
Proof. intros Hs Hp. unfold nocrash_Reduce. by rewrite (sort_strings_unique sort vs vs' Hp). Qed.

(** [ihash] is a non-negative 31-bit number, so [ihash(key) % NReduce] is the index of
    a reduce task. *)
Theorem ihash_bucket key NReduce :
  (0 <= ihash key < 2 ^ 31)%Z ∧
  ((0 < NReduce)%Z -> (0 <= Z.rem (ihash key) NReduce < NReduce)%Z).
Proof.
  assert (Hi : (0 <= ihash key < 2 ^ 31)%Z).
  { unfold ihash. change 0x7fffffff%Z with (Z.ones 31). rewrite Z.land_ones by lia.
    by apply Z.mod_pos_bound. }
  split; [done|]. intros Hn. rewrite Z.rem_mod_nonneg by lia. by apply Z.mod_pos_bound.
Qed.

(** ** Witnesses *)

(** Bytes as runes: right for ASCII text. *)
Fixpoint ascii_runes (s : string) : list (Z * string) :=
  match s with
  | EmptyString => []
  | String c s' => (Z.of_N (N_of_ascii c), String c "") :: ascii_runes s'
  end.

Definition ascii_letter (r : Z) : bool :=
  bool_decide (65 <= r <= 90)%Z || bool_decide (97 <= r <= 122)%Z.

Definition demo_fs : gmap string string :=
  {["b.txt" := "to be, or not to be"; "a.txt" := "be"]}.

Lemma demo_readable f : f ∈ ["b.txt"; "a.txt"] -> is_Some (demo_fs !! f).
Proof. intros Hf. set_unfold. destruct Hf as [-> |[-> |[]]]; by eexists. Qed.

Lemma mrsequential_correct_witness :
  ∃ keys vs, Some ["be 3"; "not 1"; "or 1"; "to 2"] =
      Some ((λ k, line wc_Reduce k (vs k)) <$> keys) ∧
    NoDup keys ∧ StronglySorted String.le keys ∧
    (forall k, k ∈ keys <->
       k ∈ Key <$> emitted (wc_Map ascii_runes ascii_letter) demo_fs ["b.txt"; "a.txt"]) ∧
    forall k, vs k ≡ₚ
      values_of k (emitted (wc_Map ascii_runes ascii_letter) demo_fs ["b.txt"; "a.txt"]).
Proof.
  exact (mrsequential_correct insertion_sort insertion_sort_GoSort demo_fs
    ["b.txt"; "a.txt"] demo_readable (wc_Map ascii_runes ascii_letter) wc_Reduce).
Defined.

Lemma wc_counts_witness :
  ∃ keys, Some ["be 3"; "not 1"; "or 1"; "to 2"] =
      Some ((λ w, w +:+ " " +:+ Itoa (length (filter (λ w', w' = w)
        ["to"; "be"; "or"; "not"; "to"; "be"; "be"]))) <$> keys) ∧
    NoDup keys ∧ StronglySorted String.le keys ∧
    (forall w, w ∈ keys <-> w ∈ ["to"; "be"; "or"; "not"; "to"; "be"; "be"]).
Proof.
  exact (wc_counts insertion_sort insertion_sort_GoSort demo_fs
    ["b.txt"; "a.txt"] demo_readable ascii_runes ascii_letter).
Defined.

(** A sort that orders equal elements the other way round. *)
Definition reverse_sort (A : Type) (less : A -> A -> bool) (l : list A) : list A :=
  insertion_sort A less (reverse l).

Lemma reverse_sort_GoSort : GoSort reverse_sort.
Proof.
  split; intros; unfold reverse_sort; [|by apply go_sort_sorted].
  rewrite go_sort_perm. apply reverse_Permutation.
Qed.

Lemma mrsequential_deterministic_witness :
  mrsequential reverse_sort (wc_Map ascii_runes ascii_letter) (indexer_Reduce insertion_sort)
    demo_fs ["b.txt"; "a.txt"] =
  mrsequential insertion_sort (wc_Map ascii_runes ascii_letter) (indexer_Reduce insertion_sort)
    demo_fs ["b.txt"; "a.txt"].
Proof.
  apply (mrsequential_deterministic reverse_sort insertion_sort).
  - apply reverse_sort_GoSort.
  - apply insertion_sort_GoSort.
  - apply demo_readable.
  - intros k vs vs'. apply indexer_Reduce_perm, insertion_sort_GoSort.
Defined.

Lemma ihash_bucket_witness : (0 <= Z.rem (ihash "hello") 10 < 10)%Z.
Proof. apply (ihash_bucket "hello" 10). lia. Defined.
