(* ===== verification/Coordinator.v ===== *)
(** * Processes of the distributed MapReduce

    The skeletons [mr/coordinator.go], [mr/worker.go] and [mr/rpc.go], and the programs
    [main/mrcoordinator.go] and [main/mrworker.go].  A coordinator has one RPC handler and no
    state; what there is to know is who can reach it: the socket has a name that depends on
    the user only, and a new coordinator removes the socket of an older one. *)
From stdpp Require Import pretty.
From S2P Require Import Prelude MapReduce.
Import Mr.

#[local] Open Scope Z_scope.

Module Coordinator.

(** ** [rpc.go] *)

Definition coordinatorSock (uid : Z) : string := "/var/tmp/5840-mr-" +:+ pretty uid.

(** The argument and the reply: [ExampleArgs] has the field [X], [ExampleReply] the field [Y]. *)
Record ExampleArgs := MkExampleArgs { X : Z }.
Record ExampleReply := MkExampleReply { Y : Z }.

(** ** [coordinator.go] *)

(** The handler stores the reply, and returns no error. *)
Definition Example (args : ExampleArgs) : ExampleReply := MkExampleReply (signed 64 (X args + 1)).

Definition Done : bool := false.

(** What is at a path: a socket with the process that listens, a file that can be removed,
    such as the socket of a process that exited, or one that cannot. *)
Inductive node := Socket (id : nat) | Stale | Stuck.

#[export] Instance node_eq_dec : EqDecision node.
Proof. solve_decision. Defined.

Abbreviation machine := (gmap string node).

(** [os.Remove], whose error is ignored. *)
Definition remove_sock (uid : Z) (m : machine) : machine :=
  match m !! coordinatorSock uid with
  | Some Stuck => m
  | _ => delete (coordinatorSock uid) m
  end.

(** [net.Listen]; [None] is [log.Fatal]. *)
Definition listen (id : nat) (uid : Z) (m : machine) : option machine :=
  match m !! coordinatorSock uid with
  | Some _ => None
  | None => Some (<[coordinatorSock uid := Socket id]> m)
  end.

(** [server], without other processes in between. *)
Definition server (id : nat) (uid : Z) (m : machine) : option machine :=
  listen id uid (remove_sock uid m).

(** [MakeCoordinator] makes no use of the files and the number of tasks. *)
Definition MakeCoordinator (files : list string) (nReduce : Z) (id : nat) (uid : Z)
    (m : machine) : option machine := server id uid m.

(** The methods that [rpc.Register] finds: [Example]; [Done] does not have the form of a
    handler. *)
Definition dispatch (serviceMethod : string) (args : ExampleArgs) : option ExampleReply :=
  if decide (serviceMethod = "Coordinator.Example"%string) then Some (Example args) else None.

(** ** [worker.go] *)

(** The coordinator that [rpc.DialHTTP] reaches. *)
Definition serving (uid : Z) (m : machine) : option nat :=
  match m !! coordinatorSock uid with Some (Socket id) => Some id | _ => None end.

(** [call]: [log.Fatal], or the result with the reply that was stored. *)
Inductive result := Fatal | Returned (ok : bool) (reply : ExampleReply).

Definition call (uid : Z) (m : machine) (rpcname : string) (args : ExampleArgs)
    (reply : ExampleReply) : result :=
  match serving uid m with
  | None => Fatal
  | Some _ =>
      match dispatch rpcname args with
      | Some reply' => Returned true reply'
      | None => Returned false reply
      end
  end.

(** [CallExample]: what it prints, or [None] for [log.Fatal]. *)
Definition CallExample (uid : Z) (m : machine) : option string :=
  match call uid m "Coordinator.Example" (MkExampleArgs 99) (MkExampleReply 0) with
  | Fatal => None
  | Returned true reply => Some ("reply.Y " +:+ pretty (Y reply))
  | Returned false _ => Some "call failed!"
  end.

(** [Worker] has no body: no call is made, and no task is run. *)
Definition Worker (mapf : string -> string -> list KeyValue)
    (reducef : string -> list string -> string) (m : machine) : machine := m.

(** ** The programs *)

(** [Running]: the program has not ended after the rounds of its loop that are looked at. *)
Inductive status := Exited (code : Z) | Panicked | Running.

(** The loop [for m.Done() == false]. *)
Fixpoint wait_done (rounds : nat) : status :=
  match rounds with
  | O => Running
  | S rounds' => if Done then Exited 0 else wait_done rounds'
  end.

(** [main] of [mrcoordinator.go]; [args] is [os.Args]. *)
Definition mrcoordinator (args : list string) (id : nat) (uid : Z) (m : machine) (rounds : nat) :
    machine * status :=
  if decide (length args < 2)%nat then (m, Exited 1)
  else match MakeCoordinator (tail args) 10 id uid m with
       | None => (remove_sock uid m, Exited 1)
       | Some m' => (m', wait_done rounds)
       end.

(** What [Lookup] finds in a plugin: a variable or a function of some type. *)
Inductive symbol :=
  | MapFunction (f : string -> string -> list KeyValue)
  | ReduceFunction (f : string -> list string -> string)
  | OtherSymbol.

(** [loadPlugin], in [mrworker.go] and [mrsequential.go], with the plugins that can be opened;
    a symbol of another type makes it panic. *)
Definition loadPlugin (plugins : gmap string (gmap string symbol)) (filename : string) :
    status + ((string -> string -> list KeyValue) * (string -> list string -> string)) :=
  match plugins !! filename with
  | None => inl (Exited 1)
  | Some p =>
      match p !! "Map" with
      | None => inl (Exited 1)
      | Some (MapFunction mapf) =>
          match p !! "Reduce" with
          | None => inl (Exited 1)
          | Some (ReduceFunction reducef) => inr (mapf, reducef)
          | Some _ => inl Panicked
          end
      | Some _ => inl Panicked
      end
  end.

(** [main] of [mrworker.go]. *)
Definition mrworker (args : list string) (plugins : gmap string (gmap string symbol))
    (m : machine) : machine * status :=
  match args with
  | [_; filename] =>
      match loadPlugin plugins filename with
      | inl st => (m, st)
      | inr (mapf, reducef) => (Worker mapf reducef m, Exited 0)
      end
  | _ => (m, Exited 1)
  end.

(** ** Several coordinators *)

(** What other processes can see of a coordinator: the two parts of [server], and its end,
    after which nobody listens on its sockets. *)
Inductive event := Removes (uid : Z) | Listens (id : nat) (uid : Z) | Ends (id : nat).

#[export] Instance event_eq_dec : EqDecision event.
Proof. solve_decision. Defined.

Definition happens (m : machine) (ev : event) : machine :=
  match ev with
  | Removes uid => remove_sock uid m
  | Listens id uid => default m (listen id uid m)
  | Ends id => (λ n, if decide (n = Socket id) then Stale else n) <$> m
  end.

Definition history (m : machine) (evs : list event) : machine := foldl happens m evs.

End Coordinator.
Import Coordinator.

(** ** Who is reached *)

#[export] Instance coordinatorSock_inj : Inj (=) (=) coordinatorSock.
Proof. intros u u' Heq. unfold coordinatorSock in Heq. by apply (inj _), (inj pretty) in Heq. Qed.

Lemma serving_happens uid id m ev :
  serving uid (happens m ev) = Some id <->
  ev = Listens id uid ∧ m !! coordinatorSock uid = None ∨
  serving uid m = Some id ∧ ev ≠ Removes uid ∧ ev ≠ Ends id.
Proof.
  unfold serving. destruct ev as [uid'|id' uid'|id']; simpl.
  - unfold remove_sock. destruct (decide (uid' = uid)) as [->|Hne].
    + destruct (m !! coordinatorSock uid) as [[]|] eqn:Hm; rewrite ?lookup_delete_eq, ?Hm; naive_solver.
    + assert (coordinatorSock uid' ≠ coordinatorSock uid) by by intros ?%(inj _).
      destruct (m !! coordinatorSock uid') as [[]|]; rewrite ?lookup_delete_ne by done; naive_solver.
  - unfold listen. destruct (decide (uid' = uid)) as [->|Hne].
    + destruct (m !! coordinatorSock uid) as [n|] eqn:Hm; simpl; rewrite ?lookup_insert_eq, ?Hm; naive_solver.
    + assert (coordinatorSock uid' ≠ coordinatorSock uid) by by intros ?%(inj _).
      destruct (m !! coordinatorSock uid') as [n|]; simpl; rewrite ?lookup_insert_ne by done; naive_solver.
  - rewrite lookup_fmap. destruct (m !! coordinatorSock uid) as [[n| |]|]; simpl; try naive_solver.
    case_decide; naive_solver.
Qed.

(** The event by which [id] became the one that is reached. *)
Definition took_over (m : machine) (evs : list event) (id : nat) (uid : Z) : Prop :=
  ∃ evs1 evs2, evs = evs1 ++ Listens id uid :: evs2 ∧
    history m evs1 !! coordinatorSock uid = None ∧ (Removes uid ∉ evs2) ∧ (Ends id ∉ evs2).

Lemma took_over_snoc m evs ev id uid :
  took_over m (evs ++ [ev]) id uid <->
  ev = Listens id uid ∧ history m evs !! coordinatorSock uid = None ∨
  took_over m evs id uid ∧ ev ≠ Removes uid ∧ ev ≠ Ends id.
Proof.
  split.
  - intros (evs1 & evs2 & Heq & Hfree & Hr & He).
    destruct evs2 as [|ev' evs2 _] using rev_ind.
    + apply app_inj_tail in Heq as [-> ->]. by left.
    + rewrite app_comm_cons, app_assoc in Heq. apply app_inj_tail in Heq as [-> ->]. right.
      rewrite not_elem_of_app, not_elem_of_cons in Hr, He. split_and!; [|naive_solver..].
      exists evs1, evs2. naive_solver.
  - intros [[-> Hfree]|((evs1 & evs2 & -> & Hfree & Hr & He) & H1 & H2)].
    + exists evs, []. split_and!; [done|done|by apply not_elem_of_nil..].
    + exists evs1, (evs2 ++ [ev]). rewrite app_comm_cons, app_assoc.
      rewrite !not_elem_of_app, !list_elem_of_singleton. naive_solver.
Qed.

(** On a machine where nobody listens yet, in every interleaving of starts and ends of
    coordinators, a worker reaches exactly the coordinator that was the last of its user to
    find the path free when it listened, as long as that has not ended and no other of
    the user has removed its socket since; [CallExample] then prints the reply 100, and
    otherwise ends the program.  Older coordinators that still run are never reached again. *)
Theorem coordinator_reached m evs uid :
  (forall p id, m !! p ≠ Some (Socket id)) ->
  (forall id, serving uid (history m evs) = Some id <-> took_over m evs id uid) ∧
  CallExample uid (history m evs) =
    (if serving uid (history m evs) is Some _ then Some "reply.Y 100" else None).
Proof.
  intros Hm. split.
  - intros id. induction evs as [|ev evs IH] using rev_ind.
    + unfold serving, history. simpl. split.
      * destruct (m !! coordinatorSock uid) as [[]|] eqn:Hp; try done. by destruct (Hm _ _ Hp).
      * intros ([|??] & ? & ? & _); done.
    + rewrite took_over_snoc, <- IH. unfold history at 1. rewrite foldl_app. simpl.
      apply serving_happens.
  - unfold CallExample, call. by destruct (serving uid (history m evs)).
Qed.

(** The coordinator program never ends by itself: [Done] is always false. *)
Lemma mrcoordinator_waits args id uid m rounds :
  (2 <= length args)%nat -> m !! coordinatorSock uid ≠ Some Stuck ->
  mrcoordinator args id uid m rounds =
    (<[coordinatorSock uid := Socket id]> (delete (coordinatorSock uid) m), Running).
Proof.
  intros Ha Hm. assert (Hw : wait_done rounds = Running) by by induction rounds.
  unfold mrcoordinator. rewrite decide_False by lia. unfold MakeCoordinator, server.
  assert (Hr : remove_sock uid m = delete (coordinatorSock uid) m).
  { unfold remove_sock. by destruct (m !! coordinatorSock uid) as [[]|]. }
  unfold listen. by rewrite Hr, lookup_delete_eq, Hw.
Qed.

(** Two coordinators of a user start; the second takes over and ends, and the first is not
    reached although it runs. *)
Lemma coordinator_reached_witness :
  CallExample 7 (history ∅ [Removes 7; Listens 1 7; Removes 7; Listens 2 7]) = Some "reply.Y 100" ∧
  serving 7 (history ∅ [Removes 7; Listens 1 7; Removes 7; Listens 2 7; Ends 2]) ≠ Some 1%nat.
Proof.
  destruct (coordinator_reached ∅ [Removes 7; Listens 1 7; Removes 7; Listens 2 7] 7) as [_ H];
    [by intros p id; rewrite lookup_empty|].
  split; [rewrite H; by vm_compute|by vm_compute].
Defined.
