(* ===== verification/Commands.v ===== *)
(** * The command line programs of earlier labs

    [main/diskvd.go], [lockc.go], [lockd.go], [pbc.go], [pbd.go] and [viewd.go] parse their
    arguments and call packages that are not in the repository.  A program is a function from
    [os.Args] to what it does: the calls it makes of those packages, and how it ends. *)
From stdpp Require Import pretty.
From S2P Require Import Prelude Numbers.
Import Numbers.

#[local] Open Scope Z_scope.

Module Commands.

(** [main] of [diskvd.go]: its variables. *)
Record options := MkOptions {
  gid : Z;
  masters : list string;
  replicas : list string;
  me : Z;
  unreliable : bool;
  dir : string;
  restart : bool
}.

(** Calls of the packages [diskv], [lockservice], [pbservice] and [viewservice]. *)
Inductive ext_call :=
  | DiskvStartServer (gid : Z) (masters replicas : list string) (me : Z) (dir : string)
      (restart : bool)
  | Setunreliable (b : bool)
  | LockMakeClerk (primary backup : string)
  | Lock (name : string)
  | Unlock (name : string)
  | LockStartServer (primary backup : string) (am_primary : bool)
  | PbMakeClerk (vshost me : string)
  | PbGet (key : string)
  | PbPut (key value : string)
  | PbStartServer (vshost me : string)
  | ViewStartServer (me : string).

(** [usage] exits with code 1; a server sleeps for ever, that of [diskvd.go] for ten minutes,
    after which it kills itself. *)
Inductive ending := Usage | Returns | Sleeps | Killed.

Abbreviation run := (list ext_call * ending)%type.

(** ** [diskvd.go] *)

Definition defaults : options := MkOptions (-1) [] [] (-1) false "" false.

(** [strconv.ParseBool], with [false] for an error. *)
Definition ParseBool (s : string) : bool :=
  bool_decide (s ∈ ["1"; "t"; "T"; "TRUE"; "true"; "True"]%string).

(** One round of the loop; [None] is [usage]. *)
Definition set_option (a0 a1 : string) (o : options) : option options :=
  let '(MkOptions gid masters replicas me unreliable dir restart) := o in
  if decide (a0 = "-g"%string) then
    Some (MkOptions (ParseInt a1).1 masters replicas me unreliable dir restart)
  else if decide (a0 = "-m"%string) then
    Some (MkOptions gid (masters ++ [a1]) replicas me unreliable dir restart)
  else if decide (a0 = "-s"%string) then
    Some (MkOptions gid masters (replicas ++ [a1]) me unreliable dir restart)
  else if decide (a0 = "-i"%string) then
    Some (MkOptions gid masters replicas (ParseInt a1).1 unreliable dir restart)
  else if decide (a0 = "-u"%string) then
    Some (MkOptions gid masters replicas me (ParseBool a1) dir restart)
  else if decide (a0 = "-d"%string) then
    Some (MkOptions gid masters replicas me unreliable a1 restart)
  else if decide (a0 = "-r"%string) then
    Some (MkOptions gid masters replicas me unreliable dir (ParseBool a1))
  else None.

(** The loop, on the arguments from [i] on. *)
Fixpoint parse (args : list string) (o : options) : option options :=
  match args with
  | a0 :: a1 :: args' => o' ← set_option a0 a1 o; parse args' o'
  | _ => Some o
  end.

Definition bad (o : options) : bool :=
  bool_decide (gid o < 0) || bool_decide (me o < 0) ||
  bool_decide (Z.of_nat (length (masters o)) < 1) ||
  bool_decide (Z.of_nat (length (replicas o)) <= me o) || bool_decide (dir o = ""%string).

Definition diskvd (args : list string) : run :=
  match parse (tail args) defaults with
  | None => ([], Usage)
  | Some o =>
      if bad o then ([], Usage)
      else ([DiskvStartServer (gid o) (masters o) (replicas o) (me o) (dir o) (restart o);
             Setunreliable (unreliable o)], Killed)
  end.

(** ** [lockc.go] and [lockd.go] *)

(** The clerk is made before the flag is looked at. *)
Definition lockc (args : list string) : run :=
  match args with
  | [_; flag; primary; backup; name] =>
      if decide (flag = "-l"%string) then ([LockMakeClerk primary backup; Lock name], Returns)
      else if decide (flag = "-u"%string) then
        ([LockMakeClerk primary backup; Unlock name], Returns)
      else ([LockMakeClerk primary backup], Usage)
  | _ => ([], Usage)
  end.

Definition lockd (args : list string) : run :=
  match args with
  | [_; flag; primary; backup] =>
      if decide (flag = "-p"%string) then ([LockStartServer primary backup true], Sleeps)
      else if decide (flag = "-b"%string) then ([LockStartServer primary backup false], Sleeps)
      else ([], Usage)
  | _ => ([], Usage)
  end.

(** ** [pbc.go], [pbd.go] and [viewd.go] *)

Definition pbc (args : list string) : run :=
  match args with
  | [_; viewport; key] => ([PbMakeClerk viewport ""; PbGet key], Returns)
  | [_; viewport; key; value] => ([PbMakeClerk viewport ""; PbPut key value], Returns)
  | _ => ([], Usage)
  end.

Definition pbd (args : list string) : run :=
  match args with
  | [_; viewport; myport] => ([PbStartServer viewport myport], Sleeps)
  | _ => ([], Usage)
  end.

Definition viewd (args : list string) : run :=
  match args with
  | [_; port] => ([ViewStartServer port], Sleeps)
  | _ => ([], Usage)
  end.

End Commands.
Import Commands.

(** ** What the arguments of [diskvd] mean *)

(** The flags with their arguments; a flag at the end without an argument is ignored. *)
Fixpoint flags (args : list string) : list (string * string) :=
  match args with a0 :: a1 :: args' => (a0, a1) :: flags args' | _ => [] end.

(** The arguments of a flag, in order. *)
Definition given (flag : string) (fs : list (string * string)) : list string :=
  snd <$> filter (λ f, f.1 = flag) fs.

(** Of a flag with one value the last occurrence counts. *)
Definition setting {A} (flag : string) (read : string -> A) (old : A)
    (fs : list (string * string)) : A :=
  from_option read old (last (given flag fs)).

Definition meaning (o : options) (fs : list (string * string)) : options :=
  MkOptions (setting "-g" (fst ∘ ParseInt) (gid o) fs) (masters o ++ given "-m" fs)
    (replicas o ++ given "-s" fs) (setting "-i" (fst ∘ ParseInt) (me o) fs)
    (setting "-u" ParseBool (unreliable o) fs) (setting "-d" id (dir o) fs)
    (setting "-r" ParseBool (restart o) fs).

Definition known (f : string * string) : Prop :=
  f.1 ∈ ["-g"; "-m"; "-s"; "-i"; "-u"; "-d"; "-r"]%string.

#[export] Instance known_dec f : Decision (known f).
Proof. unfold known. apply _. Defined.

Lemma given_cons flag f fs :
  given flag (f :: fs) = if decide (f.1 = flag) then f.2 :: given flag fs else given flag fs.
Proof. unfold given. rewrite filter_cons. by case_decide. Qed.

Lemma setting_cons {A} flag (read : string -> A) old f fs :
  setting flag read old (f :: fs) =
  setting flag read (if decide (f.1 = flag) then read f.2 else old) fs.
Proof.
  unfold setting. rewrite given_cons. case_decide; [|done]. rewrite last_cons.
  by destruct (last (given flag fs)).
Qed.

Lemma meaning_cons a0 a1 fs o :
  match set_option a0 a1 o with
  | Some o' => known (a0, a1) ∧ meaning o' fs = meaning o ((a0, a1) :: fs)
  | None => ¬ known (a0, a1)
  end.
Proof.
  unfold meaning. rewrite !setting_cons, !given_cons. unfold set_option, known.
  destruct o as [g ms rs i u d r]. cbn [fst snd].
  repeat (case_decide; [subst a0; cbn; rewrite <- ?app_assoc; by split; [set_solver|]|]).
  set_solver.
Qed.

Lemma parse_nil o : Some o = if decide (Forall known []) then Some (meaning o []) else None.
Proof.
  rewrite decide_True by constructor. destruct o. unfold meaning, given, setting. simpl.
  by rewrite !app_nil_r.
Qed.

Lemma parse_meaning args o :
  parse args o = if decide (Forall known (flags args)) then Some (meaning o (flags args)) else None.
Proof.
  revert o. induction args as [args IH] using (induction_ltof1 _ length); unfold ltof in IH.
  intros o. destruct args as [|a0 [|a1 args]]; [by apply parse_nil..|].
  cbn [parse flags]. pose proof (meaning_cons a0 a1 (flags args) o) as Hc.
  destruct (set_option a0 a1 o) as [o'|]; cbn [mbind option_bind].
  - destruct Hc as [Hk <-]. rewrite IH by (simpl; lia).
    destruct (decide (Forall known (flags args))) as [H|H],
      (decide (Forall known ((a0, a1) :: flags args))) as [H'|H']; try done;
      rewrite Forall_cons in H'; tauto.
  - rewrite decide_False; [done|]. by intros [Hk _]%Forall_cons.
Qed.

(** The values that [diskvd] accepts. *)
Definition sensible (fs : list (string * string)) (o : options) : Prop :=
  Forall known fs ∧ 0 <= gid o ∧ masters o ≠ [] ∧ dir o ≠ ""%string ∧
  0 <= me o < Z.of_nat (length (replicas o)).

#[export] Instance sensible_dec fs o : Decision (sensible fs o).
Proof. unfold sensible. apply _. Defined.

Lemma bad_spec fs o : Forall known fs -> bad o = false <-> sensible fs o.
Proof.
  intros Hk. unfold bad, sensible. rewrite !orb_false_iff, !bool_decide_eq_false.
  assert (masters o ≠ [] <-> ¬ Z.of_nat (length (masters o)) < 1) as ->.
  { destruct (masters o); simpl; [naive_solver lia|]. split; [lia|done]. }
  naive_solver lia.
Qed.

Lemma setting_ParseInt flag fs :
  - 2 ^ 63 <= setting flag (fst ∘ ParseInt) (-1) fs < 2 ^ 63.
Proof. unfold setting. destruct (last _); simpl; [apply ParseInt_bounds|lia]. Qed.

(** [diskvd] starts a server exactly when all flags are known and the values make sense:
    a group that is not negative, at least one master, a directory, and an index of the list
    of replicas.  Of a flag with one value the last occurrence counts, ports are kept in
    their order, and the numbers fit 64 bits whatever the text is.  Otherwise it calls
    nothing. *)
Theorem diskvd_correct args :
  let fs := flags (tail args) in
  let o := meaning defaults fs in
  (- 2 ^ 63 <= gid o < 2 ^ 63) ∧ (- 2 ^ 63 <= me o < 2 ^ 63) ∧
  masters o = given "-m" fs ∧ replicas o = given "-s" fs ∧
  diskvd args =
    if decide (sensible fs o) then
      ([DiskvStartServer (gid o) (masters o) (replicas o) (me o) (dir o) (restart o);
        Setunreliable (unreliable o)], Killed)
    else ([], Usage).
Proof.
  intros fs o. split_and!; [apply setting_ParseInt..|done|done|].
  unfold diskvd. rewrite parse_meaning. fold fs. case_decide as Hk.
  - fold o. pose proof (bad_spec fs o Hk) as Hb. destruct (bad o); case_decide; naive_solver.
  - rewrite decide_False; [done|]. by intros [H _].
Qed.

(** A number that cannot be read counts as 0 and is accepted, and one that is too large as the
    largest. *)
Example diskvd_numbers :
  diskvd ["diskvd"; "-g"; "99999999999999999999"; "-i"; "x"; "-m"; "m0"; "-s"; "s0"; "-d"; "/tmp";
          "-u"]%string =
  ([DiskvStartServer (2 ^ 63 - 1) ["m0"] ["s0"] 0 "/tmp" false; Setunreliable false]%string, Killed).
Proof. by vm_compute. Qed.

(** The programs start a server or make a request only with the right number of arguments and
    a known flag; [lockc] makes its clerk before it looks at the flag. *)
Lemma commands_calls args :
  (forall p b prim, LockStartServer p b prim ∈ (lockd args).1 <->
     tail args = [if prim then "-p" else "-b"; p; b]%string ∧ args ≠ []) ∧
  (forall name, Lock name ∈ (lockc args).1 <-> ∃ a p b, args = [a; "-l"; p; b; name]%string) ∧
  (forall name, Unlock name ∈ (lockc args).1 <-> ∃ a p b, args = [a; "-u"; p; b; name]%string) ∧
  (forall k v, PbPut k v ∈ (pbc args).1 <-> ∃ a port, args = [a; port; k; v]) ∧
  (forall port p, PbStartServer port p ∈ (pbd args).1 <-> ∃ a, args = [a; port; p]) ∧
  (forall port, ViewStartServer port ∈ (viewd args).1 <-> ∃ a, args = [a; port]).
Proof.
  destruct args as [|a [|b [|c [|d [|e [|f args]]]]]]; simpl; split_and!; intros;
    repeat case_decide; try match goal with prim : bool |- _ => destruct prim end;
    cbn [fst]; rewrite ?elem_of_cons, ?elem_of_nil; naive_solver.
Qed.
