(* ===== verification/Jobs.v ===== *)
(** * MapReduce applications that observe the workers

    [mrapps/mtiming.go] and [mrapps/rtiming.go] report how many workers run at the same time,
    [mrapps/jobcount.go] how often map tasks ran, and [mrapps/crash.go] exits or sleeps at
    random.  The first three leave files in the directory that all workers share: a [world]
    is that directory with the worker processes, and a step is what other processes can see
    of a task: creating a file, reading the directory, sending a signal, removing a file, or the
    death of a process at any moment. *)
From stdpp Require Import pretty.
From S2P Require Import Prelude MapReduce Numbers.
Import Mr Numbers.

#[local] Open Scope Z_scope.

Module Jobs.

(** ** The world *)

(** The argument of [nparallel]. *)
Inductive phase := MapPhase | ReducePhase.

#[export] Instance phase_eq_dec : EqDecision phase.
Proof. solve_decision. Defined.

Definition phase_name (ph : phase) : string :=
  match ph with MapPhase => "map" | ReducePhase => "reduce" end.

(** Where a worker is: before the creation of its file or in another task; after that; in the loop
    over the names of the directory, with those that are left and the number so far; after the
    loop, with the number it found.  [seen] is ghost state: the workers that were inside the
    phase when the directory was read, and whose files were read. *)
Inductive place :=
| Idle
| Announced (ph : phase)
| Scanning (ph : phase) (names : list string) (ret : Z) (seen : gset Z)
| Looked (ph : phase) (ret : Z) (seen : gset Z).

(** A process; [count] is the global variable of [jobcount.go]. *)
Record proc := MkProc { count : Z; at_ : place }.

(** The shared directory and the live processes.  Ghost state: [born], the process ids given
    out so far, and [invocations], the runs of the [Map] of [jobcount.go], each with its
    process id and the value of [count]. *)
Record world := MkWorld {
  files : gset string;
  procs : gmap Z proc;
  born : gset Z;
  invocations : list (Z * Z)
}.

Definition set_place (pid : Z) (pl : place) (w : world) : world :=
  MkWorld (files w) (alter (λ p, MkProc (count p) pl) pid (procs w)) (born w) (invocations w).

Definition WriteFile (name : string) (w : world) : world :=
  MkWorld ({[name]} ∪ files w) (procs w) (born w) (invocations w).

(** ** [mtiming.go] and [rtiming.go] *)

Definition pattern (ph : phase) : string := "mr-worker-" +:+ phase_name ph +:+ "-".

Definition myfilename (ph : phase) (pid : Z) : string := pattern ph +:+ pretty pid.

Definition announce (ph : phase) (pid : Z) (w : world) : world :=
  set_place pid (Announced ph) (WriteFile (myfilename ph pid) w).

(** The argument of [Readdirnames]. *)
Definition max_names : nat := Z.to_nat 1000000.

(** [Readdirnames]: an error, which makes [nparallel] panic, when there is nothing to read. *)
Definition Readdirnames (names : list string) : option (list string) :=
  match names with [] => None | _ => Some (take max_names names) end.

(** A process is inside a phase from the creation of its file to its removal. *)
Definition inside (ph : phase) (p : proc) : Prop :=
  match at_ p with
  | Idle => False
  | Announced ph' | Scanning ph' _ _ _ | Looked ph' _ _ => ph' = ph
  end.

#[export] Instance inside_dec ph p : Decision (inside ph p).
Proof. unfold inside. destruct (at_ p); apply _. Defined.

Definition insiders (ph : phase) (w : world) : gmap Z proc := filter (λ kv, inside ph kv.2) (procs w).

(** The names are those of the directory, in any order; [None] is a panic. *)
Definition read_dir (ph : phase) (pid : Z) (names : list string) (w : world) : option world :=
  names ← Readdirnames names;
  let seen := filter (λ q, myfilename ph q ∈ names) (dom (insiders ph w)) in
  Some (set_place pid (Scanning ph names 0 seen) w).

Section Kill.
(** Whether a signal can be sent to a process group, or to all processes. *)
Context (group : Z -> bool).

(** [syscall.Kill(xpid, 0) == nil] *)
Definition Kill (w : world) (xpid : Z) : bool :=
  if decide (0 < xpid) then bool_decide (is_Some (procs w !! xpid)) else group xpid.

Definition count_name (w : world) (ph : phase) (ret : Z) (name : string) : Z :=
  match Sscanf_int (pattern ph) name with
  | Some xpid => if Kill w xpid then ret + 1 else ret
  | None => ret
  end.

(** One turn of the loop over the names, or its end. *)
Definition scan_next (ph : phase) (pid : Z) (names : list string) (ret : Z) (seen : gset Z) (w : world) : world :=
  match names with
  | [] => set_place pid (Looked ph ret seen) w
  | name :: names' => set_place pid (Scanning ph names' (count_name w ph ret name) seen) w
  end.

(** [os.Remove], an error of which makes [nparallel] panic. *)
Definition remove (ph : phase) (pid : Z) (w : world) : option world :=
  if decide (myfilename ph pid ∈ files w) then
    Some (set_place pid Idle
      (MkWorld (files w ∖ {[myfilename ph pid]}) (procs w) (born w) (invocations w)))
  else None.

(** [nparallel] without other processes in between. *)
Fixpoint scan_names (ph : phase) (pid : Z) (names : list string) (ret : Z) (seen : gset Z) (w : world) : world :=
  let w' := scan_next ph pid names ret seen w in
  match names with
  | [] => w'
  | name :: names' => scan_names ph pid names' (count_name w ph ret name) seen w'
  end.

Definition nparallel (ph : phase) (pid : Z) (w : world) : option (world * Z) :=
  let w := announce ph pid w in
  w ← read_dir ph pid (elements (files w)) w;
  w ← match at_ <$> procs w !! pid with
      | Some (Scanning _ names ret seen) => Some (scan_names ph pid names ret seen w)
      | _ => None
      end;
  match at_ <$> procs w !! pid with
  | Some (Looked _ ret _) => w' ← remove ph pid w; Some (w', ret)
  | _ => None
  end.
End Kill.

(** [Map] of [mtiming.go]; [ts] is the time as text, and [n] the result of [nparallel]. *)
Definition mtiming_Map (ts : string) (pid n : Z) : list KeyValue :=
  [KV ("times-" +:+ pretty pid) ts; KV ("parallel-" +:+ pretty pid) (pretty n)].

Definition mtiming_Reduce (sort : forall A, (A -> A -> bool) -> list A -> list A)
    (key : string) (values : list string) : string :=
  Join (sort string String.ltb values) " ".

Definition rtiming_Map (filename contents : string) : list KeyValue :=
  (λ k, KV k "1") <$> ["a"; "b"; "c"; "d"; "e"; "f"; "g"; "h"; "i"; "j"].

Definition rtiming_Reduce (n : Z) : string := pretty n.

(** ** [jobcount.go] *)

Definition job_file (pid count : Z) : string :=
  "mr-worker-jobcount-" +:+ pretty pid +:+ "-" +:+ pretty count.

Definition jobcount_Map (pid : Z) (p : proc) (w : world) : world * list KeyValue :=
  let w := WriteFile (job_file pid (count p)) w in
  (MkWorld (files w) (<[pid := MkProc (signed 64 (count p + 1)) (at_ p)]> (procs w)) (born w)
     (invocations w ++ [(pid, count p)]),
   [KV "a" "x"]).

Definition is_job (name : string) : bool :=
  bool_decide (is_Some (cut_prefix "mr-worker-jobcount" name)).

(** [Reduce], with the names of the directory. *)
Definition jobcount_Reduce (names : list string) : string :=
  pretty (foldl (λ n name, if is_job name then n + 1 else n) 0 names).

(** ** [crash.go] *)

(** [maybeCrash] with the random number [rr] below 1000: [None] is [os.Exit(1)]; the other
    branches differ in time only. *)
Definition maybeCrash (rr : Z) : option unit := if decide (rr < 330) then None else Some tt.

Definition crash_Map (rr : Z) (filename contents : string) : option (list KeyValue) :=
  _ ← maybeCrash rr;
  Some [KV "a" filename; KV "b" (Itoa (String.length filename));
        KV "c" (Itoa (String.length contents)); KV "d" "xyzzy"].

Definition crash_Reduce (sort : forall A, (A -> A -> bool) -> list A -> list A) (rr : Z)
    (key : string) (values : list string) : option string :=
  _ ← maybeCrash rr; Some (Join (sort string String.ltb values) " ").

(** ** Steps *)

(** Process ids are positive, and are not given out again while the test runs. *)
Definition spawn (pid : Z) (w : world) : world :=
  MkWorld (files w) (<[pid := MkProc 0 Idle]> (procs w)) ({[pid]} ∪ born w) (invocations w).

Definition die (pid : Z) (w : world) : world :=
  MkWorld (files w) (delete pid (procs w)) (born w) (invocations w).

(** [None]: the process panics.  A failed [WriteFile] also does; this is [Die], before or
    after the file exists.  The order in which a directory is read is arbitrary. *)
Inductive step (group : Z -> bool) (w : world) : option world -> Prop :=
  | Spawn pid : pid ∉ born w -> 0 < pid < 2 ^ 63 -> step group w (Some (spawn pid w))
  | Die pid p : procs w !! pid = Some p -> step group w (Some (die pid w))
  | Announce pid p ph :
      procs w !! pid = Some p -> at_ p = Idle -> step group w (Some (announce ph pid w))
  | ReadDir pid p ph names :
      procs w !! pid = Some p -> at_ p = Announced ph -> names ≡ₚ elements (files w) ->
      step group w (read_dir ph pid names w)
  | ScanNext pid p ph names ret seen :
      procs w !! pid = Some p -> at_ p = Scanning ph names ret seen ->
      step group w (Some (scan_next group ph pid names ret seen w))
  | Remove pid p ph ret seen :
      procs w !! pid = Some p -> at_ p = Looked ph ret seen -> step group w (remove ph pid w)
  | CountJob pid p :
      procs w !! pid = Some p -> at_ p = Idle -> step group w (Some (jobcount_Map pid p w).1).

Definition start (dir : gset string) : world := MkWorld dir ∅ ∅ [].

Definition reachable (group : Z -> bool) (dir : gset string) : world -> Prop :=
  rtc (λ w w', step group w (Some w')) (start dir).

End Jobs.
