(* ===== verification/JobsProof.v ===== *)
(** * What the observing applications report

    The invariant of [Jobs.step], and the theorems on the numbers that [nparallel] and the
    [Reduce] of [jobcount.go] compute. *)
From stdpp Require Import pretty.
From S2P Require Import Prelude MapReduce Numbers Jobs.
Import Mr Numbers Jobs.

#[local] Open Scope Z_scope.

(** ** File names *)

Lemma pretty_pid pid : 0 < pid -> pretty pid = pretty (Z.to_N pid).
Proof. intros Hp. rewrite <- (Z2N.id pid) at 1 by lia. apply pretty_of_N. Qed.

Lemma scan_myfilename ph pid :
  0 < pid < 2 ^ 63 -> Sscanf_int (pattern ph) (myfilename ph pid) = Some pid.
Proof.
  intros Hp. unfold myfilename. rewrite pretty_pid by lia.
  pose proof (Sscanf_pretty (pattern ph) (Z.to_N pid) "") as H.
  rewrite append_empty_r in H. rewrite H by (done || lia). f_equal. lia.
Qed.

Lemma scan_other_phase ph ph' pid :
  ph ≠ ph' -> Sscanf_int (pattern ph) (myfilename ph' pid) = None.
Proof. by destruct ph, ph'. Qed.

Lemma scan_job_file ph pid c : Sscanf_int (pattern ph) (job_file pid c) = None.
Proof. by destruct ph. Qed.

Lemma myfilename_not_job ph pid : is_job (myfilename ph pid) = false.
Proof. by destruct ph. Qed.

Lemma job_file_is_job pid c : is_job (job_file pid c) = true.
Proof. done. Qed.

Lemma myfilename_inj ph ph' pid pid' :
  0 < pid < 2 ^ 63 -> 0 < pid' < 2 ^ 63 -> myfilename ph pid = myfilename ph' pid' ->
  ph = ph' ∧ pid = pid'.
Proof.
  intros Hp Hp' Heq. pose proof (scan_myfilename ph pid Hp) as H. rewrite Heq in H.
  destruct (decide (ph = ph')) as [<-|Hne]; [|by rewrite scan_other_phase in H].
  rewrite scan_myfilename in H by done. by simplify_eq.
Qed.

Lemma scan_job_pid pid c :
  0 < pid < 2 ^ 63 -> Sscanf_int "mr-worker-jobcount-" (job_file pid c) = Some pid.
Proof.
  intros Hp. unfold job_file. rewrite pretty_pid by lia. rewrite Sscanf_pretty by (done || lia).
  f_equal. lia.
Qed.

Lemma job_file_inj pid pid' c c' :
  0 < pid < 2 ^ 63 -> 0 < pid' < 2 ^ 63 -> job_file pid c = job_file pid' c' ->
  pid = pid' ∧ c = c'.
Proof.
  intros Hp Hp' Heq. pose proof (scan_job_pid pid c Hp) as H.
  rewrite Heq, scan_job_pid in H by done. injection H as <-. split; [done|].
  do 3 apply (inj (String.append _)) in Heq. by apply (inj pretty) in Heq.
Qed.

(** ** The invariant *)

(** The number of runs of a process. *)
Definition runs_of (pid : Z) (invs : list (Z * Z)) : Z :=
  Z.of_nat (length (filter (λ i, i.1 = pid) invs)).

(** No other file of the directory looks like a file of these applications. *)
Definition foreign (dir : gset string) : Prop :=
  forall name, name ∈ dir ->
    (forall ph, Sscanf_int (pattern ph) name = None) ∧ is_job name = false.

Record Inv (dir : gset string) (w : world) : Prop := {
  inv_born pid p : procs w !! pid = Some p -> pid ∈ born w;
  inv_pid pid : pid ∈ born w -> 0 < pid < 2 ^ 63;
  inv_inside ph pid p : procs w !! pid = Some p -> myfilename ph pid ∈ files w <-> inside ph p;
  inv_files name : name ∈ files w ->
    name ∈ dir ∨ (∃ ph pid, pid ∈ born w ∧ name = myfilename ph pid) ∨
    ∃ i, i ∈ invocations w ∧ name = job_file i.1 i.2;
  inv_jobs i : i ∈ invocations w -> i.1 ∈ born w ∧ job_file i.1 i.2 ∈ files w;
  inv_seq i : i ∈ invocations w ->
    ∃ k, 0 <= k < runs_of i.1 (invocations w) ∧ i.2 = signed 64 k;
  inv_count pid p : procs w !! pid = Some p -> count p = signed 64 (runs_of pid (invocations w));
  inv_nodup : Z.of_nat (length (invocations w)) < 2 ^ 63 -> NoDup (invocations w)
}.

Lemma runs_of_app pid invs i :
  runs_of pid (invs ++ [i]) = runs_of pid invs + (if decide (i.1 = pid) then 1 else 0).
Proof.
  unfold runs_of. rewrite filter_app, filter_cons, filter_nil, length_app.
  case_decide; simpl; lia.
Qed.

Lemma runs_of_le pid invs : 0 <= runs_of pid invs <= Z.of_nat (length invs).
Proof. unfold runs_of. pose proof (length_filter (λ i, i.1 = pid) invs). lia. Qed.

Lemma runs_of_none pid invs : (forall i, i ∈ invs -> i.1 ≠ pid) -> runs_of pid invs = 0.
Proof.
  intros Hne. unfold runs_of. destruct (filter _ invs) as [|i l] eqn:Hf; [done|].
  assert (Hi : i ∈ filter (λ i, i.1 = pid) invs) by (rewrite Hf; left).
  apply list_elem_of_filter in Hi as [Hi Hin]. by destruct (Hne i Hin).
Qed.

Lemma inv_start dir : Inv dir (start dir).
Proof.
  split; simpl; try done; try set_solver.
  - intros _. constructor.
Qed.

(** A task goes on: its process is at another place, and only its own files change. *)
Lemma inv_update dir w fs pid p pl :
  Inv dir w -> procs w !! pid = Some p ->
  (forall ph, myfilename ph pid ∈ fs <-> inside ph (MkProc (count p) pl)) ->
  (forall name, (forall ph, name ≠ myfilename ph pid) -> name ∈ fs <-> name ∈ files w) ->
  Inv dir (set_place pid pl (MkWorld fs (procs w) (born w) (invocations w))).
Proof.
  intros Hw Hp Hin Hfs. pose proof (inv_pid _ _ Hw pid (inv_born _ _ Hw _ _ Hp)) as Hpid.
  assert (Hlook : forall q p', alter (λ p, MkProc (count p) pl) pid (procs w) !! q = Some p' ->
    q = pid ∧ p' = MkProc (count p) pl ∨ q ≠ pid ∧ procs w !! q = Some p').
  { intros q p'. destruct (decide (q = pid)) as [->|Hne]; [|rewrite lookup_alter_ne; naive_solver].
    rewrite lookup_alter_eq, Hp. intros [= <-]. by left. }
  split; simpl.
  - intros q p' [[-> ->]|[_ Hq]]%Hlook; by eapply inv_born.
  - apply (inv_pid _ _ Hw).
  - intros ph q p' [[-> ->]|[Hne Hq]]%Hlook; [apply Hin|].
    rewrite Hfs; [by apply (inv_inside _ _ Hw)|]. intros ph' [_ ->]%myfilename_inj; try done.
    by eapply inv_pid, inv_born.
  - intros name Hname. destruct (decide (name = myfilename MapPhase pid ∨
      name = myfilename ReducePhase pid)) as [H|H].
    + right; left. destruct H as [->| ->]; eexists _, pid; split; try done;
        by eapply inv_born.
    + apply (inv_files _ _ Hw), Hfs; [|done]. intros [] ->; tauto.
  - intros i Hi. destruct (inv_jobs _ _ Hw i Hi) as [Hb Hf]. split; [done|].
    apply Hfs; [|done]. intros ph Heq. pose proof (job_file_is_job i.1 i.2) as Hj.
    by rewrite Heq, myfilename_not_job in Hj.
  - apply (inv_seq _ _ Hw).
  - intros q p' [[-> ->]|[Hne Hq]]%Hlook; simpl; by apply (inv_count _ _ Hw).
  - apply (inv_nodup _ _ Hw).
Qed.

Lemma inv_place dir w pid p pl :
  Inv dir w -> procs w !! pid = Some p ->
  (forall ph, inside ph p <-> inside ph (MkProc (count p) pl)) -> Inv dir (set_place pid pl w).
Proof.
  intros Hw Hp Hin. destruct w as [fs ps b invs].
  apply (inv_update dir (MkWorld fs ps b invs) fs pid p); [done..| |done].
  intros ph. rewrite <- Hin. by apply (inv_inside _ _ Hw).
Qed.

Lemma inv_spawn dir w pid :
  foreign dir -> Inv dir w -> pid ∉ born w -> 0 < pid < 2 ^ 63 -> Inv dir (spawn pid w).
Proof.
  intros Hdir Hw Hb Hpid. assert (Hfresh : forall ph, myfilename ph pid ∉ files w).
  { intros ph [Hin|[(ph' & pid' & Hb' & Heq)|(i & Hi & Heq)]]%(inv_files _ _ Hw).
    - apply Hdir in Hin as [Hs _]. specialize (Hs ph). by rewrite scan_myfilename in Hs.
    - apply myfilename_inj in Heq as [_ ->]; [done|done|]. by apply (inv_pid _ _ Hw).
    - pose proof (job_file_is_job i.1 i.2) as Hj. by rewrite <- Heq, myfilename_not_job in Hj. }
  split; simpl.
  - intros q p. rewrite lookup_insert_Some. intros [[<- _]|[_ Hq]]; [set_solver|].
    apply (inv_born _ _ Hw) in Hq. set_solver.
  - intros q [->%elem_of_singleton|Hq]%elem_of_union; [done|]. by apply (inv_pid _ _ Hw).
  - intros ph q p. rewrite lookup_insert_Some. intros [[<- <-]|[Hne Hq]].
    + unfold inside. simpl. specialize (Hfresh ph). tauto.
    + by apply (inv_inside _ _ Hw).
  - intros name [H|[(ph & q & Hq & ->)|H]]%(inv_files _ _ Hw); [by left| |by do 2 right].
    right; left. exists ph, q. set_solver.
  - intros i [Hi Hf]%(inv_jobs _ _ Hw). split; [set_solver|done].
  - apply (inv_seq _ _ Hw).
  - intros q p. rewrite lookup_insert_Some. intros [[<- <-]|[Hne Hq]]; [|by apply (inv_count _ _ Hw)].
    rewrite runs_of_none; [done|]. intros i [Hi _]%(inv_jobs _ _ Hw). by intros <-.
  - apply (inv_nodup _ _ Hw).
Qed.

Lemma inv_die dir w pid : Inv dir w -> Inv dir (die pid w).
Proof.
  intros Hw. split; simpl; try apply Hw.
  - intros q p [_ Hq]%lookup_delete_Some. by eapply inv_born.
  - intros ph q p [_ Hq]%lookup_delete_Some. by apply (inv_inside _ _ Hw).
  - intros q p [_ Hq]%lookup_delete_Some. by apply (inv_count _ _ Hw).
Qed.

(** A run of [jobcount.go] writes a file that no run wrote before. *)
Lemma inv_count_job dir w pid p :
  Inv dir w -> procs w !! pid = Some p -> Inv dir (jobcount_Map pid p w).1.
Proof.
  intros Hw Hp. pose proof (inv_born _ _ Hw _ _ Hp) as Hb.
  pose proof (inv_count _ _ Hw _ _ Hp) as Hc.
  pose proof (runs_of_le pid (invocations w)) as Hle. unfold jobcount_Map. split; simpl.
  - intros q p'. rewrite lookup_insert_Some. intros [[<- _]|[_ Hq]]; [done|]. by eapply inv_born.
  - apply (inv_pid _ _ Hw).
  - intros ph q p' Hq. rewrite elem_of_union, elem_of_singleton.
    assert (myfilename ph q ≠ job_file pid (count p)) as Hne.
    { intros Heq. pose proof (job_file_is_job pid (count p)) as Hj.
      by rewrite <- Heq, myfilename_not_job in Hj. }
    rewrite lookup_insert_Some in Hq. destruct Hq as [[<- <-]|[_ Hq]].
    + pose proof (inv_inside _ _ Hw ph _ _ Hp). unfold inside in *. simpl. tauto.
    + pose proof (inv_inside _ _ Hw ph _ _ Hq). tauto.
  - intros name [->%elem_of_singleton|Hin]%elem_of_union.
    + do 2 right. exists (pid, count p). set_solver.
    + destruct (inv_files _ _ Hw _ Hin) as [H|[H|(i & Hi & ->)]]; [by left|by right; left|].
      do 2 right. exists i. set_solver.
  - intros i [Hi| ->%list_elem_of_singleton]%elem_of_app; [|simpl; set_solver].
    apply (inv_jobs _ _ Hw) in Hi. set_solver.
  - intros i. rewrite runs_of_app. intros [Hi| ->%list_elem_of_singleton]%elem_of_app; simpl.
    + destruct (inv_seq _ _ Hw i Hi) as (k & Hk & ->). exists k. case_decide; split; lia || done.
    + exists (runs_of pid (invocations w)). rewrite decide_True by done. split; [lia|done].
  - intros q p'. rewrite runs_of_app, lookup_insert_Some. simpl. intros [[<- <-]|[Hne Hq]]; simpl.
    + rewrite decide_True by done. by rewrite Hc, signed_add.
    + rewrite decide_False, Z.add_0_r by done. by apply (inv_count _ _ Hw).
  - rewrite length_app. simpl. intros Hlen. apply NoDup_app.
    split_and!; [apply (inv_nodup _ _ Hw); lia| |apply NoDup_singleton].
    intros i Hi ->%list_elem_of_singleton. destruct (inv_seq _ _ Hw _ Hi) as (k & Hk & Heq).
    simpl in *. rewrite Hc, !signed_small in Heq by lia. lia.
Qed.

Lemma inv_step group dir w w' :
  foreign dir -> Inv dir w -> step group w (Some w') -> Inv dir w'.
Proof.
  intros Hdir Hw Hstep. inversion Hstep as [pid Hb Hp|pid p Hp|pid p ph Hp Hat|
    pid p ph names Hp Hat Hn Heq|pid p ph names ret seen Hp Hat|pid p ph ret seen Hp Hat Heq|
    pid p Hp Hat]; subst.
  - by apply inv_spawn.
  - by apply inv_die.
  - unfold announce, WriteFile. apply (inv_update dir w _ pid p); try done.
    + intros ph'. rewrite elem_of_union, elem_of_singleton, (inv_inside _ _ Hw _ _ _ Hp).
      unfold inside. rewrite Hat. simpl. split; [intros [Heq|[]]|intros ->; by left].
      pose proof (inv_pid _ _ Hw pid (inv_born _ _ Hw _ _ Hp)).
      by apply myfilename_inj in Heq as [-> _].
    + intros name Hne. specialize (Hne ph). set_solver.
  - unfold read_dir in Heq. destruct (Readdirnames _) as [names'|]; [|done]. injection Heq as <-.
    apply (inv_place dir w pid p); [done..|]. intros ph'. unfold inside. by rewrite Hat.
  - destruct names as [|name names]; (apply (inv_place dir w pid p); [done..|]);
      intros ph'; unfold inside; by rewrite Hat.
  - unfold remove in Heq. case_decide as Hf; [|done]. injection Heq as <-.
    apply (inv_update dir w _ pid p); try done.
    + intros ph'. rewrite elem_of_difference, elem_of_singleton, (inv_inside _ _ Hw _ _ _ Hp).
      unfold inside. rewrite Hat. simpl. split; [|done]. intros [<- Hne]. by apply Hne.
    + intros name Hne. specialize (Hne ph). set_solver.
  - by apply inv_count_job.
Qed.

(** ** The loop over the names

    A worker in the loop has counted at least those of [seen] that are not in the names left and
    still live, and at most all that are not in the names left.  A name left is the file of one
    of them, or of a worker that is dead. *)

Definition passed (ph : phase) (names : list string) (seen : gset Z) : gset Z :=
  filter (λ q, myfilename ph q ∉ names) seen.

Record scan_ok (w : world) (ph : phase) (names : list string) (ret : Z) (seen : gset Z) : Prop := {
  so_nodup : NoDup names;
  so_names name x : name ∈ names -> Sscanf_int (pattern ph) name = Some x ->
    name = myfilename ph x ∧ x ∈ born w ∧ (x ∈ seen ∨ procs w !! x = None);
  so_seen : seen ⊆ born w;
  so_ret : Z.of_nat (size (passed ph names seen ∩ dom (procs w))) <= ret <=
    Z.of_nat (size (passed ph names seen))
}.

Definition scanning (w : world) : Prop :=
  forall pid p, procs w !! pid = Some p ->
    match at_ p with
    | Scanning ph names ret seen => scan_ok w ph names ret seen
    | Looked ph ret seen => scan_ok w ph [] ret seen
    | _ => True
    end.

Lemma size_add (x : Z) (s : gset Z) : x ∉ s -> size ({[x]} ∪ s) = S (size s).
Proof. intros Hx. rewrite size_union by set_solver. by rewrite size_singleton. Qed.

(** Deaths and births do not matter. *)
Lemma scan_mono w w' ph names ret seen :
  born w ⊆ born w' -> (forall x, x ∈ born w -> is_Some (procs w' !! x) -> is_Some (procs w !! x)) ->
  scan_ok w ph names ret seen -> scan_ok w' ph names ret seen.
Proof.
  intros Hb Hp [S1 S2 S3 S4]. split; [done| |set_solver|].
  - intros name x Hn Hs. destruct (S2 name x Hn Hs) as (-> & Hx & Hin). split_and!; [done|set_solver|].
    destruct Hin as [?|Hno]; [by left|right]. apply eq_None_not_Some. intros Hs'.
    apply (Hp x Hx) in Hs' as [? Hs']. congruence.
  - assert (size (passed ph names seen ∩ dom (procs w')) <= size (passed ph names seen ∩ dom (procs w)))%nat;
      [|lia]. apply subseteq_size. intros x [Hx Hd]%elem_of_intersection. apply elem_of_intersection.
    split; [done|]. apply elem_of_dom, Hp; [|by apply elem_of_dom].
    apply S3. unfold passed in Hx. set_solver.
Qed.

(** A turn of the loop. *)
Lemma scan_ok_next group w ph name names ret seen :
  (forall x, x ∈ born w -> 0 < x < 2 ^ 63) -> scan_ok w ph (name :: names) ret seen ->
  scan_ok w ph names (count_name group w ph ret name) seen.
Proof.
  intros Hpid [S1 S2 S3 S4]. apply NoDup_cons in S1 as [Hnn S1].
  split; [done|intros n' x Hn; apply S2; by right|done|].
  assert (Hsame : (forall q, q ∈ seen -> myfilename ph q ≠ name) ->
    passed ph names seen = passed ph (name :: names) seen).
  { intros Hne. apply set_eq. intros q. unfold passed. rewrite !elem_of_filter, not_elem_of_cons.
    split; [|naive_solver]. intros [? Hq]. specialize (Hne q Hq). naive_solver. }
  unfold count_name. destruct (Sscanf_int (pattern ph) name) as [x|] eqn:Hs.
  - destruct (S2 name x) as (-> & Hx & Hin); [left|done|]. pose proof (Hpid x Hx) as Hr.
    unfold Kill. rewrite decide_True by lia. destruct (decide (x ∈ seen)) as [Hxs|Hxs].
    + assert (Hadd : passed ph names seen = {[x]} ∪ passed ph (myfilename ph x :: names) seen).
      { apply set_eq. intros q. unfold passed.
        rewrite elem_of_union, elem_of_singleton, !elem_of_filter, not_elem_of_cons.
        destruct (decide (q = x)) as [->|Hq]; [naive_solver|].
        assert (q ∈ seen -> myfilename ph q ≠ myfilename ph x); [|naive_solver].
        intros Hqs [_ ->]%myfilename_inj; [done|apply Hpid; set_solver|done]. }
      assert (Hnew : x ∉ passed ph (myfilename ph x :: names) seen).
      { unfold passed. rewrite elem_of_filter. set_solver. }
      rewrite Hadd, (size_add x _ Hnew).
      destruct (decide (x ∈ dom (procs w))) as [Hd|Hd].
      * rewrite bool_decide_true by by apply elem_of_dom.
        replace (({[x]} ∪ passed ph (myfilename ph x :: names) seen) ∩ dom (procs w))
          with ({[x]} ∪ (passed ph (myfilename ph x :: names) seen ∩ dom (procs w))) by set_solver.
        rewrite (size_add x) by set_solver. lia.
      * rewrite bool_decide_false by by rewrite <- elem_of_dom.
        replace (({[x]} ∪ passed ph (myfilename ph x :: names) seen) ∩ dom (procs w))
          with (passed ph (myfilename ph x :: names) seen ∩ dom (procs w)) by set_solver. lia.
    + destruct Hin as [?|Hno]; [done|]. rewrite bool_decide_false by (rewrite Hno; by intros []).
      rewrite Hsame; [done|]. intros q Hq [_ ->]%myfilename_inj; [done|apply Hpid; set_solver|done].
  - rewrite Hsame; [done|]. intros q Hq <-. rewrite scan_myfilename in Hs; [done|]. apply Hpid. set_solver.
Qed.

Lemma max_names_eq : Z.of_nat max_names = 1000000.
Proof. unfold max_names. apply Z2Nat.id. lia. Qed.

#[local] Opaque max_names.

(** Reading the directory. *)
Lemma scan_ok_read dir w ph names names' :
  foreign dir -> Inv dir w -> names ≡ₚ elements (files w) -> Readdirnames names = Some names' ->
  scan_ok w ph names' 0 (filter (λ q, myfilename ph q ∈ names') (dom (insiders ph w))).
Proof.
  intros Hdir Hw Hn Hr. assert (Hsub : forall name, name ∈ names' -> name ∈ files w).
  { intros name Hin. apply elem_of_elements. rewrite <- Hn. unfold Readdirnames in Hr.
    destruct names; simplify_eq. by apply elem_of_take in Hin as (i & Hi%list_elem_of_lookup_2 & _). }
  assert (Hin : forall q, q ∈ dom (insiders ph w) <-> ∃ p, procs w !! q = Some p ∧ inside ph p).
  { intros q. rewrite elem_of_dom. unfold insiders. split.
    - intros [p Hp]. apply map_lookup_filter_Some in Hp as [Hp Hi]. by exists p.
    - intros (p & Hp & Hi). exists p. by apply map_lookup_filter_Some. }
  split.
  - assert (NoDup names) by (rewrite Hn; apply NoDup_elements). unfold Readdirnames in Hr.
    destruct names as [|name names]; [done|]. injection Hr as <-. by eapply sublist_NoDup, sublist_take.
  - intros name x Hnm Hs. pose proof (inv_files _ _ Hw _ (Hsub _ Hnm)) as [Hd|[(ph' & q & Hq & ->)|(i & _ & ->)]].
    + apply Hdir in Hd as [Hd _]. by rewrite Hd in Hs.
    + destruct (decide (ph = ph')) as [<-|Hne]; [|by rewrite scan_other_phase in Hs].
      rewrite scan_myfilename in Hs by by apply (inv_pid _ _ Hw). injection Hs as <-.
      split_and!; [done|done|]. destruct (procs w !! q) as [p|] eqn:Hp; [left|by right].
      apply elem_of_filter. split; [done|]. apply Hin. exists p. split; [done|].
      apply (inv_inside _ _ Hw _ _ _ Hp). by apply Hsub.
    + by rewrite scan_job_file in Hs.
  - intros q [_ (p & Hp & _)%Hin]%elem_of_filter. by eapply inv_born.
  - assert (passed ph names' (filter (λ q, myfilename ph q ∈ names') (dom (insiders ph w))) = ∅) as ->.
    { unfold passed. apply set_eq. intros q. rewrite !elem_of_filter. set_solver. }
    replace (∅ ∩ dom (procs w)) with (∅ : gset Z) by set_solver. rewrite size_empty. lia.
Qed.

Lemma lookup_place pid pl w q p' :
  procs (set_place pid pl w) !! q = Some p' ->
  (q = pid ∧ at_ p' = pl) ∨ (q ≠ pid ∧ procs w !! q = Some p').
Proof.
  simpl. destruct (decide (q = pid)) as [->|Hne]; [|rewrite lookup_alter_ne by done; auto].
  rewrite lookup_alter_eq. destruct (procs w !! pid); [intros [= <-]; by left|done].
Qed.

(** A process moves on. *)
Lemma scanning_place pid pl w w0 :
  scanning w -> procs w0 = procs w -> born w0 = born w ->
  match pl with
  | Scanning ph names ret seen => scan_ok w ph names ret seen
  | Looked ph ret seen => scan_ok w ph [] ret seen
  | _ => True
  end -> scanning (set_place pid pl w0).
Proof.
  intros Hs Hp Hb Hpl q p' Hq. apply lookup_place in Hq. rewrite Hp in Hq.
  assert (Hm : forall ph names ret seen, scan_ok w ph names ret seen ->
    scan_ok (set_place pid pl w0) ph names ret seen).
  { intros ph names ret seen. apply scan_mono; simpl; [by rewrite Hb|]. intros x _ [p Hx].
    rewrite Hp in Hx. apply lookup_alter_Some in Hx as [(<- & p1 & Hx & _)|[_ Hx]]; by eexists. }
  destruct Hq as [[_ ->]|[_ Hq]].
  - destruct pl; auto.
  - specialize (Hs q p' Hq). destruct (at_ p'); auto.
Qed.

Lemma scanning_step group dir w w' :
  foreign dir -> Inv dir w -> scanning w -> step group w (Some w') -> scanning w'.
Proof.
  intros Hdir Hw Hs Hstep.
  assert (Hmono : forall w' q p', procs w !! q = Some p' -> born w ⊆ born w' ->
    (forall x, x ∈ born w -> is_Some (procs w' !! x) -> is_Some (procs w !! x)) ->
    match at_ p' with
    | Scanning ph names ret seen => scan_ok w' ph names ret seen
    | Looked ph ret seen => scan_ok w' ph [] ret seen | _ => True end).
  { intros w1 q p' Hq Hb Hp. specialize (Hs q p' Hq). destruct (at_ p'); [done..| |];
      by eapply scan_mono. }
  inversion Hstep as [pid Hb Hp|pid p Hp|pid p ph Hp Hat|
    pid p ph names Hp Hat Hn Heq|pid p ph names ret seen Hp Hat|pid p ph ret seen Hp Hat Heq|
    pid p Hp Hat]; subst.
  - intros q p'. simpl. rewrite lookup_insert_Some. intros [[<- <-]|[Hne Hq]]; [done|].
    apply (Hmono (spawn pid w) q p' Hq); simpl; [set_solver|]. intros x Hx.
    rewrite lookup_insert_ne; [done|]. by intros ->.
  - intros q p' Hq. simpl in Hq. apply lookup_delete_Some in Hq as [_ Hq].
    apply (Hmono (die pid w) q p' Hq); simpl; [done|].
    intros x _ [p1 [_ Hx]%lookup_delete_Some]. by eexists.
  - by apply (scanning_place pid _ w).
  - unfold read_dir in Heq. destruct (Readdirnames names) as [names'|] eqn:Hr; [|done].
    injection Heq as <-. apply (scanning_place pid _ w); [done..|]. by eapply scan_ok_read.
  - pose proof (Hs pid p Hp) as Hok. rewrite Hat in Hok.
    destruct names as [|name names]; apply (scanning_place pid _ w); try done.
    apply scan_ok_next; [apply (inv_pid _ _ Hw)|done].
  - unfold remove in Heq. case_decide; [|done]. injection Heq as <-. by apply (scanning_place pid _ w).
  - intros q p'. unfold jobcount_Map. simpl. rewrite lookup_insert_Some.
    assert (Hsome : forall x, x ∈ born w -> is_Some (<[pid := MkProc (signed 64 (count p + 1)) (at_ p)]> (procs w) !! x) ->
      is_Some (procs w !! x)).
    { intros x _. destruct (decide (pid = x)) as [<-|Hne]; [by eexists|by rewrite lookup_insert_ne]. }
    intros [[<- <-]|[_ Hq]]; simpl; [by rewrite Hat|].
    by apply (Hmono (jobcount_Map pid p w).1 q p' Hq).
Qed.

Lemma inv_reachable group dir w : foreign dir -> reachable group dir w -> Inv dir w ∧ scanning w.
Proof.
  intros Hdir. unfold reachable. generalize (inv_start dir).
  assert (Hs : scanning (start dir)) by (intros q p Hq; simpl in Hq; by rewrite lookup_empty in Hq).
  revert Hs. generalize (start dir). intros w0 Hs0 Hw0 Hr.
  induction Hr as [|w0 w1 w2 Hs _ IH]; [done|]. apply IH; [by eapply scanning_step|by eapply inv_step].
Qed.

(** ** The reports *)

(** Counting in a loop is the length of a filtered list. *)
Lemma foldl_count {A} (f : Z -> A -> Z) (b : A -> bool) l n :
  (forall m x, f m x = if b x then m + 1 else m) ->
  foldl f n l = n + Z.of_nat (length (filter (λ x, b x = true) l)).
Proof.
  intros Hf. revert n. induction l as [|x l IH]; intros n; [simpl; lia|].
  cbn [foldl]. rewrite IH, Hf, filter_cons. destruct (b x); case_decide; simpl; done || lia.
Qed.

Section Report.
Context (group : Z -> bool) (dir : gset string) (w : world).
Context (Hdir : foreign dir) (Hw : Inv dir w).

Lemma job_names :
  Z.of_nat (length (invocations w)) < 2 ^ 63 ->
  filter (λ name, is_job name = true) (elements (files w)) ≡ₚ
  (λ i, job_file i.1 i.2) <$> invocations w.
Proof.
  intros Hlen. apply NoDup_Permutation.
  - apply NoDup_filter, NoDup_elements.
  - apply NoDup_fmap_2_strong; [|by apply (inv_nodup _ _ Hw)].
    intros [q c] [q' c'] Hi Hi' Heq. destruct (inv_jobs _ _ Hw _ Hi) as [Hq _].
    destruct (inv_jobs _ _ Hw _ Hi') as [Hq' _].
    simpl in *. by apply job_file_inj in Heq as [<- <-]; [|by apply (inv_pid _ _ Hw)..].
  - intros name. rewrite list_elem_of_filter, elem_of_elements, list_elem_of_fmap. split.
    + intros [Hj Hf]. destruct (inv_files _ _ Hw _ Hf) as [Hd|[(ph & q & _ & ->)|(i & Hi & ->)]].
      * apply Hdir in Hd as [_ Hn]. by rewrite Hn in Hj.
      * by rewrite myfilename_not_job in Hj.
      * by exists i.
    + intros (i & -> & [_ Hf]%(inv_jobs _ _ Hw)). by split.
Qed.

Lemma own_file ph pid p : procs w !! pid = Some p -> inside ph p -> myfilename ph pid ∈ files w.
Proof. intros Hp Hi. by apply (inv_inside _ _ Hw _ _ _ Hp). Qed.

(** The directory is not empty, and if it is not too large all insiders are seen. *)
Lemma read_dir_ok ph pid p names :
  procs w !! pid = Some p -> at_ p = Announced ph -> names ≡ₚ elements (files w) ->
  is_Some (read_dir ph pid names w) ∧
  (Z.of_nat (length names) <= 1000000 ->
   read_dir ph pid names w = Some (set_place pid (Scanning ph names 0 (dom (insiders ph w))) w)).
Proof.
  intros Hp Hat Hn. assert (Hown : myfilename ph pid ∈ names).
  { rewrite Hn. apply elem_of_elements. eapply own_file; [done|]. unfold inside. by rewrite Hat. }
  unfold read_dir, Readdirnames. destruct names as [|x names]; [by apply elem_of_nil in Hown|].
  split; [by eexists|]. intros Hlen. cbn [mbind option_bind].
  rewrite take_ge by (pose proof max_names_eq; lia). do 3 f_equal. apply set_eq. intros q.
  rewrite elem_of_filter. split; [tauto|]. intros Hq. split; [|done].
  apply elem_of_dom in Hq as [p' Hq]. apply map_lookup_filter_Some in Hq as [Hq Hi].
  rewrite Hn. apply elem_of_elements. by eapply own_file.
Qed.

Lemma remove_ok ph pid p ret seen :
  procs w !! pid = Some p -> at_ p = Looked ph ret seen -> is_Some (remove ph pid w).
Proof.
  intros Hp Hat. unfold remove. rewrite decide_True; [by eexists|].
  apply (inv_inside _ _ Hw _ _ _ Hp). unfold inside. by rewrite Hat.
Qed.
End Report.

(** C20: in a directory without other files of their names, whatever the interleaving of the
    tasks, of the single signals that they send, and of the deaths of workers, no call of
    [nparallel] panics.  A task that reads a directory of at most a million files sees exactly
    the live workers that are inside the same phase at that moment, itself included, and not the
    files of dead workers or of the other phase; the number that it returns is between the
    number of these that still live when it has found it and the number of all of them. *)
Theorem nparallel_exact group dir w :
  foreign dir -> reachable group dir w ->
  (forall o, step group w o -> o ≠ None) ∧
  (forall pid p ph names, procs w !! pid = Some p -> at_ p = Announced ph ->
    names ≡ₚ elements (files w) -> Z.of_nat (length names) <= 1000000 ->
    read_dir ph pid names w = Some (set_place pid (Scanning ph names 0 (dom (insiders ph w))) w) ∧
    insiders ph w !! pid = Some p) ∧
  forall pid p ph ret seen, procs w !! pid = Some p -> at_ p = Looked ph ret seen ->
    Z.of_nat (size (seen ∩ dom (procs w))) <= ret <= Z.of_nat (size seen).
Proof.
  intros Hdir Hr. destruct (inv_reachable group dir w Hdir Hr) as [Hw Hs]. split_and!.
  - intros o Hstep. inversion Hstep as [| | |pid p ph names Hp Hat Hn| |pid p ph ret seen Hp Hat|]; try done.
    + by destruct (read_dir_ok group dir w Hw ph pid p names Hp Hat Hn) as [[w' ->] _].
    + by destruct (remove_ok dir w Hw ph pid p ret seen Hp Hat) as [w' ->].
  - intros pid p ph names Hp Hat Hn Hlen. split; [by apply (read_dir_ok group dir w Hw ph pid p names Hp Hat Hn)|].
    apply map_lookup_filter_Some. split; [done|]. unfold inside. simpl. by rewrite Hat.
  - intros pid p ph ret seen Hp Hat. specialize (Hs pid p Hp). rewrite Hat in Hs.
    destruct Hs as [_ _ _ Hret]. replace (passed ph [] seen) with seen in Hret; [done|].
    apply set_eq. intros q. unfold passed. rewrite elem_of_filter. set_solver.
Qed.

(** The [Reduce] of [jobcount.go] returns the number of times that [Map] was run by all
    workers, those that died included: no two runs write the same file, and no other file
    is counted. *)
Theorem jobcount_exact group dir w names :
  foreign dir -> reachable group dir w -> names ≡ₚ elements (files w) ->
  Z.of_nat (length (invocations w)) < 2 ^ 63 ->
  jobcount_Reduce names = pretty (Z.of_nat (length (invocations w))).
Proof.
  intros Hdir Hr Hn Hlen. destruct (inv_reachable group dir w Hdir Hr) as [Hw _].
  unfold jobcount_Reduce. rewrite (foldl_count _ is_job) by done. do 3 f_equal.
  by rewrite Hn, (job_names dir w Hdir Hw Hlen), length_fmap.
Qed.

(** A task of [crash.go] that does not exit does what the task of [nocrash.go] does. *)
Lemma crash_like_nocrash sort rr :
  (forall filename contents kva, crash_Map rr filename contents = Some kva ->
     kva = nocrash_Map filename contents) ∧
  (forall key values val, crash_Reduce sort rr key values = Some val ->
     val = nocrash_Reduce sort key values) ∧
  (330 <= rr -> (forall f c, is_Some (crash_Map rr f c)) ∧
    forall key values, is_Some (crash_Reduce sort rr key values)).
Proof.
  unfold crash_Map, crash_Reduce, maybeCrash. case_decide; simpl; split_and!; try done; try lia;
    by intros ??? [= <-].
Qed.

(** ** Witnesses *)

Definition demo_dir : gset string := {["pg-grimm.txt"; "mr-out-0"]}.

Lemma demo_dir_foreign : foreign demo_dir.
Proof.
  intros name [->%elem_of_singleton| ->%elem_of_singleton]%elem_of_union; (split; [|done]);
    by intros [].
Qed.

(** Two workers in the map phase, one that died there, one in the reduce phase, and two runs of
    [jobcount.go] by a fifth. *)
Definition demo_world : world :=
  let w := foldr spawn (start demo_dir) [11; 12; 13; 14; 15] in
  let w := die 13 (foldr (announce MapPhase) w [11; 12; 13]) in
  let w := announce ReducePhase 14 w in
  let w := (jobcount_Map 15 (MkProc 0 Idle) w).1 in
  (jobcount_Map 15 (MkProc 1 Idle) w).1.

Lemma demo_reachable : reachable (λ _, true) demo_dir demo_world.
Proof.
  unfold reachable, demo_world. cbn [foldr].
  do 2 (eapply rtc_r; [|by eapply CountJob; vm_compute]).
  eapply rtc_r; [|by eapply Announce; vm_compute].
  eapply rtc_r; [|by eapply Die; vm_compute].
  do 3 (eapply rtc_r; [|by eapply Announce; vm_compute]).
  do 5 (eapply rtc_r; [|apply Spawn; [by apply (bool_decide_eq_true _); vm_compute|lia]]).
  apply rtc_refl.
Qed.

Lemma nparallel_exact_witness :
  read_dir MapPhase 11 (elements (files demo_world)) demo_world =
    Some (set_place 11 (Scanning MapPhase (elements (files demo_world)) 0 {[11; 12]}) demo_world) ∧
  (forall o, step (λ _, true) demo_world o -> o ≠ None).
Proof.
  destruct (nparallel_exact (λ _, true) demo_dir demo_world demo_dir_foreign demo_reachable)
    as (H1 & H2 & _). split; [|exact H1].
  pose proof (proj1 (H2 11 (MkProc 0 (Announced MapPhase)) MapPhase (elements (files demo_world))
    ltac:(by vm_compute) eq_refl (Permutation_refl _) ltac:(by vm_compute))) as H. exact H.
Defined.

Lemma jobcount_exact_witness : jobcount_Reduce (elements (files demo_world)) = "2".
Proof.
  exact (jobcount_exact (λ _, true) demo_dir demo_world _ demo_dir_foreign demo_reachable
    (Permutation_refl _) ltac:(by vm_compute)).
Defined.
