(* ===== verification/Persister.v ===== *)
(** * [raft/persister.go]

    A [Persister] holds two byte slices.  Slices are references to arrays in a memory
    that the persister shares with its clients, so that a client can overwrite an array it
    passed to [Save] or got from [ReadRaftState].  The theorem is that this is never
    visible: the persisters implement plain pairs of byte strings. *)
From S2P Require Import Prelude.
From Stdlib Require Import Strings.Byte.

Module Persister.

(** A slice: [nil], or the address of an array. *)
Abbreviation slice := (option nat).

Record Persister := MkPersister { raftstate : slice; snapshot : slice }.

(** The memory, the persisters made so far, and the arrays that clients can reach. *)
Record world := World {
  mem : gmap nat (list byte);
  fresh : nat;
  persisters : list Persister;
  owned : gset nat
}.

Definition bytes_of (m : gmap nat (list byte)) (s : slice) : list byte :=
  match s with None => [] | Some a => default [] (m !! a) end.

Definition MakePersister : Persister := MkPersister None None.

(** [make] and [copy]: a new array with the same bytes. *)
Definition clone (w : world) (orig : slice) : world * slice :=
  (World (<[fresh w := bytes_of (mem w) orig]> (mem w)) (S (fresh w)) (persisters w) (owned w),
   Some (fresh w)).

Definition with_persisters (w : world) (ps : list Persister) : world :=
  World (mem w) (fresh w) ps (owned w).

(** The new persister shares the arrays of the old one. *)
Definition Copy (w : world) (i : nat) : option world :=
  ps ← persisters w !! i;
  let np := MkPersister (raftstate ps) (snapshot ps) in
  Some (with_persisters w (persisters w ++ [np])).

Definition Save (w : world) (i : nat) (rs sn : slice) : option world :=
  _ ← persisters w !! i;
  let '(w1, rs') := clone w rs in
  let '(w2, sn') := clone w1 sn in
  Some (with_persisters w2 (<[i := MkPersister rs' sn']> (persisters w2))).

(** The result is handed to the client. *)
Definition give (w : world) (s : slice) : world :=
  World (mem w) (fresh w) (persisters w)
    (match s with None => owned w | Some a => {[a]} ∪ owned w end).

Definition ReadRaftState (w : world) (i : nat) : option (world * slice) :=
  ps ← persisters w !! i;
  let '(w', s) := clone w (raftstate ps) in
  Some (give w' s, s).

Definition ReadSnapshot (w : world) (i : nat) : option (world * slice) :=
  ps ← persisters w !! i;
  let '(w', s) := clone w (snapshot ps) in
  Some (give w' s, s).

Definition RaftStateSize (w : world) (i : nat) : option nat :=
  ps ← persisters w !! i; Some (length (bytes_of (mem w) (raftstate ps))).

Definition SnapshotSize (w : world) (i : nat) : option nat :=
  ps ← persisters w !! i; Some (length (bytes_of (mem w) (snapshot ps))).

(** ** Clients *)

Inductive op :=
| OMake
| OCopy (i : nat)
| OSave (i : nat) (rs sn : slice)
| OReadRaftState (i : nat)
| OReadSnapshot (i : nat)
| OAlloc (b : list byte)              (* a client makes an array *)
| OWrite (a : nat) (b : list byte).   (* a client overwrites one that it can reach *)

Definition can_use (w : world) (s : slice) : Prop :=
  match s with None => True | Some a => a ∈ owned w end.

Instance can_use_dec w s : Decision (can_use w s).
Proof. destruct s; simpl; apply _. Defined.

(** One operation and the slice it returns. *)
Definition exec (w : world) (o : op) : option (world * slice) :=
  match o with
  | OMake => Some (with_persisters w (persisters w ++ [MakePersister]), None)
  | OCopy i => w' ← Copy w i; Some (w', None)
  | OSave i rs sn =>
      if decide (can_use w rs ∧ can_use w sn) then w' ← Save w i rs sn; Some (w', None)
      else None
  | OReadRaftState i => ReadRaftState w i
  | OReadSnapshot i => ReadSnapshot w i
  | OAlloc b =>
      Some (World (<[fresh w := b]> (mem w)) (S (fresh w)) (persisters w)
              ({[fresh w]} ∪ owned w), Some (fresh w))
  | OWrite a b =>
      if decide (a ∈ owned w) then
        Some (World (<[a := b]> (mem w)) (fresh w) (persisters w) (owned w), None)
      else None
  end.

(** ** Specification: pairs of byte strings *)

Definition content (w : world) (ps : Persister) : list byte * list byte :=
  (bytes_of (mem w) (raftstate ps), bytes_of (mem w) (snapshot ps)).

Definition abstract (w : world) : list (list byte * list byte) := content w <$> persisters w.

(** What an operation does to the pairs; a [Save] stores the bytes that its arguments
    have at the time of the call. *)
Definition spec (w : world) (o : op) (s : list (list byte * list byte)) :
    list (list byte * list byte) :=
  match o with
  | OMake => s ++ [([], [])]
  | OCopy i => match s !! i with None => s | Some p => s ++ [p] end
  | OSave i rs sn => <[i := (bytes_of (mem w) rs, bytes_of (mem w) sn)]> s
  | _ => s
  end.

(** What it returns, as bytes. *)
Definition spec_result (o : op) (s : list (list byte * list byte)) : list byte :=
  match o with
  | OReadRaftState i => default [] (fst <$> s !! i)
  | OReadSnapshot i => default [] (snd <$> s !! i)
  | OAlloc b => b
  | _ => []
  end.

(** No client can reach an array of a persister, and all are below [fresh]. *)
Definition private (w : world) (s : slice) : Prop :=
  match s with None => True | Some a => a < fresh w ∧ a ∉ owned w end.

Record isolated (w : world) : Prop := {
  iso_private : forall ps, ps ∈ persisters w ->
    private w (raftstate ps) ∧ private w (snapshot ps);
  iso_owned : forall a, a ∈ owned w -> a < fresh w
}.

Lemma bytes_of_insert m a b s : s ≠ Some a -> bytes_of (<[a := b]> m) s = bytes_of m s.
Proof. intros Hs. destruct s as [a'|]; simpl; [|done]. rewrite lookup_insert_ne; congruence. Qed.

(** A write to an array that no persister has does not change the pairs. *)
Lemma content_write w w' a b :
  isolated w -> persisters w' = persisters w -> mem w' = <[a := b]> (mem w) ->
  a ∈ owned w ∨ fresh w ≤ a -> abstract w' = abstract w.
Proof.
  intros [Hp _] Hps Hm Ha. unfold abstract. rewrite Hps. apply list_fmap_ext.
  intros i ps Hi%list_elem_of_lookup_2. destruct (Hp ps Hi) as [H1 H2].
  unfold content. rewrite Hm, !bytes_of_insert; [done| |];
    intros E; rewrite E in *; simpl in *; destruct Ha; try lia; naive_solver.
Qed.

Lemma private_mono w w' s :
  fresh w ≤ fresh w' -> (forall a, a ∈ owned w' -> a ∈ owned w ∨ fresh w ≤ a) ->
  private w s -> private w' s.
Proof.
  intros Hf Ho Hs. destruct s as [a|]; simpl in *; [|done]. destruct Hs as [Hlt Hn].
  split; [lia|]. intros Ha. destruct (Ho a Ha); [done|lia].
Qed.

(** The persisters stay out of reach when fresh arrays are made and given away. *)
Lemma isolated_fresh w w' :
  isolated w -> persisters w' = persisters w -> fresh w ≤ fresh w' ->
  (forall a, a ∈ owned w' -> a ∈ owned w ∨ fresh w ≤ a < fresh w') -> isolated w'.
Proof.
  intros [Hp Ho] Hps Hf Hown. split.
  - rewrite Hps. intros ps Hin. destruct (Hp ps Hin).
    split; (eapply private_mono; [exact Hf| |done]); intros a Ha;
      destruct (Hown a Ha) as [?|[? _]]; auto.
  - intros a Ha. destruct (Hown a Ha) as [Hin|[_ ?]]; [|done]. apply Ho in Hin. lia.
Qed.

Lemma read_refines w s :
  isolated w ->
  let w' := give (clone w s).1 (clone w s).2 in
  isolated w' ∧ abstract w' = abstract w ∧
  bytes_of (mem w') (clone w s).2 = bytes_of (mem w) s.
Proof.
  intros Hiso w'. split_and!.
  - eapply isolated_fresh; [exact Hiso|done|simpl; lia|]. simpl. set_unfold.
    intros a [->|?]; [right; lia|by left].
  - eapply content_write; [exact Hiso|done|done|]. by right.
  - simpl. by rewrite lookup_insert_eq.
Qed.

Lemma save_refines w i rs sn w' :
  isolated w -> can_use w rs -> can_use w sn -> Save w i rs sn = Some w' ->
  isolated w' ∧
  abstract w' = <[i := (bytes_of (mem w) rs, bytes_of (mem w) sn)]> (abstract w).
Proof.
  intros Hiso Hrs Hsn Hs. unfold Save in Hs.
  destruct (persisters w !! i) as [ps0|] eqn:Hi; [|done]. simpl in Hs. simplify_eq.
  assert (Hown : forall s, can_use w s -> s ≠ Some (fresh w)).
  { intros s Hs ->. simpl in Hs. apply (iso_owned _ Hiso) in Hs. lia. }
  destruct Hiso as [Hp Ho].
  assert (Hnf : (fresh w ∉ owned w) ∧ (S (fresh w) ∉ owned w)).
  { split; intros Hin%Ho; lia. }
  split.
  - split; simpl; [|intros a Ha; apply Ho in Ha; lia].
    intros ps [j [[<- [<- _]]|[_ Hj]]%list_lookup_insert_Some]%list_elem_of_lookup.
    + simpl. split; (split; [lia|tauto]).
    + destruct (Hp ps) as [H1 H2]; [by eapply list_elem_of_lookup_2|].
      split; (eapply private_mono; [..|exact H1 || exact H2]); simpl; auto; lia.
  - unfold abstract. simpl. rewrite list_fmap_insert. f_equal.
    + unfold content. simpl. rewrite lookup_insert_ne, !lookup_insert_eq by lia. simpl.
      by rewrite (bytes_of_insert _ _ _ sn) by auto.
    + apply list_fmap_ext. intros j ps Hj%list_elem_of_lookup_2.
      destruct (Hp ps Hj) as [H1 H2]. unfold content. simpl.
      assert (Hne : forall s, private w s -> s ≠ Some (fresh w) ∧ s ≠ Some (S (fresh w))).
      { intros [a|] Hpr; [|done]. simpl in Hpr. split; intros [= ->]; lia. }
      destruct (Hne _ H1), (Hne _ H2). by rewrite !bytes_of_insert.
Qed.

(** Every operation preserves the isolation, acts on the pairs as specified, and returns
    the specified bytes. *)
Lemma exec_refines w o w' r :
  isolated w -> exec w o = Some (w', r) ->
  isolated w' ∧ abstract w' = spec w o (abstract w) ∧
  bytes_of (mem w') r = spec_result o (abstract w).
Proof.
  intros Hiso He. destruct o as [|i|i rs sn|i|i|b|a b]; simpl in He.
  - simplify_eq. destruct Hiso as [Hp Ho]. split_and!; [split|by unfold abstract; simpl; rewrite fmap_app|done].
    + simpl. intros ps [Hps|Hps%list_elem_of_singleton]%elem_of_app; [by apply Hp|by subst].
    + done.
  - unfold Copy in He. destruct (persisters w !! i) as [ps|] eqn:Hi; [|done]. simplify_eq/=.
    destruct Hiso as [Hp Ho]. split_and!; [split|..|done].
    + simpl. intros ps' [Hps|Hps%list_elem_of_singleton]%elem_of_app; [by apply Hp|].
      subst ps'. simpl. apply Hp. by eapply list_elem_of_lookup_2.
    + done.
    + unfold abstract. simpl. by rewrite list_lookup_fmap, Hi, fmap_app.
  - case_decide as Hc; [|done]. destruct (Save w i rs sn) as [w1|] eqn:Hs; [|done].
    simplify_eq/=. destruct Hc. destruct (save_refines w i rs sn w') as [H1 H2]; auto.
  - unfold ReadRaftState in He. destruct (persisters w !! i) as [ps|] eqn:Hi; [|done].
    injection He as <- <-. destruct (read_refines w (raftstate ps) Hiso) as (H1 & H2 & H3).
    split_and!; [exact H1|exact H2|]. etrans; [exact H3|]. simpl. unfold abstract. by rewrite list_lookup_fmap, Hi.
  - unfold ReadSnapshot in He. destruct (persisters w !! i) as [ps|] eqn:Hi; [|done].
    injection He as <- <-. destruct (read_refines w (snapshot ps) Hiso) as (H1 & H2 & H3).
    split_and!; [exact H1|exact H2|]. etrans; [exact H3|]. simpl. unfold abstract. by rewrite list_lookup_fmap, Hi.
  - simplify_eq. split_and!.
    + eapply isolated_fresh; [exact Hiso|done|simpl; lia|]. simpl. set_unfold.
      intros a [->|?]; [right; lia|by left].
    + eapply content_write; [exact Hiso|done|done|]. by right.
    + simpl. by rewrite lookup_insert_eq.
  - case_decide as Ha; [|done]. simplify_eq. split_and!; [|by eapply content_write; eauto|done].
    by eapply isolated_fresh; [exact Hiso|..]; simpl; auto.
Qed.

(** ** Sequences of operations *)

Fixpoint run (w : world) (os : list op) : option world :=
  match os with
  | [] => Some w
  | o :: os' => '(w', _) ← exec w o; run w' os'
  end.

Definition empty_world : world := World ∅ 0 [] ∅.

Lemma empty_isolated : isolated empty_world.
Proof. split; simpl; intros ? Hin; [by apply elem_of_nil in Hin|set_solver]. Qed.

Lemma run_isolated w os w' : isolated w -> run w os = Some w' -> isolated w'.
Proof.
  revert w. induction os as [|o os IH]; intros w Hiso Hr; simpl in Hr; [by simplify_eq|].
  destruct (exec w o) as [[w1 r]|] eqn:He; [|done]. simpl in Hr.
  apply (IH w1); [|done]. by apply (exec_refines w o w1 r).
Qed.

End Persister.
Import Persister.

(** C18: whatever clients do with the slices that they passed to [Save] or got from the
    read functions, the persisters behave as independent pairs of byte strings: every
    operation of every reachable state changes and returns exactly what the specification
    says; in particular a [Copy] is not affected by later saves. *)
Theorem persister_refines_pairs os w o w' r :
  run empty_world os = Some w -> exec w o = Some (w', r) ->
  abstract w' = spec w o (abstract w) ∧ bytes_of (mem w') r = spec_result o (abstract w).
Proof.
  intros Hr He. apply (exec_refines w o w' r); [|done].
  eapply run_isolated; [apply empty_isolated|done].
Qed.

(** Save, overwrite the argument, copy, save again, read the copy. *)
Definition demo_ops : list op :=
  [OMake; OAlloc [x01]; OSave 0 (Some 0) None; OWrite 0 [x02]; OCopy 0;
   OSave 0 (Some 0) (Some 0)].

Definition demo_w : world := default empty_world (run empty_world demo_ops).
Definition demo_read : world * slice :=
  default (empty_world, None) (exec demo_w (OReadRaftState 1)).

Lemma persister_refines_pairs_witness :
  abstract demo_w = [([x02], [x02]); ([x01], [])] ∧
  bytes_of (mem demo_read.1) demo_read.2 = spec_result (OReadRaftState 1) (abstract demo_w).
Proof.
  split; [vm_compute; reflexivity|].
  apply (persister_refines_pairs demo_ops demo_w (OReadRaftState 1) demo_read.1 demo_read.2);
    vm_compute; reflexivity.
Defined.
