(* ===== verification/Labgob.v ===== *)
(** * [labgob/labgob.go]: the checks around [encoding/gob]

    [checkType] walks the type of a value, once per type, and complains about
    lower-case fields; [checkDefault] complains when a value is decoded into a variable
    that is not zero.  Types are numbered, so that they can be recursive; [types] says
    what each of them is.  A pointer is an address in a heap of values, so that values
    can be cyclic.  [upper] stands for [unicode.IsUpper] of the first rune of a name. *)
From S2P Require Import Prelude.

Module Labgob.

(** What [reflect] tells about a type. *)
Inductive kind :=
| Struct (fields : list (string * nat))
| Slice (elem : nat)
| Array (elem : nat)
| Ptr (elem : nat)
| Map (key elem : nat)
| Basic                (* [Bool], the numeric kinds, [String] *)
| Other.               (* interfaces, functions, channels *)

(** The global variables, and the lines printed: a field and its type. *)
Record gstate := GState {
  checked : gset nat;
  errorCount : Z;
  printed : list (string * nat)
}.

Section CheckType.
Context (upper : string -> bool) (types : gmap nat kind).

Definition mark (t : nat) (st : gstate) : gstate :=
  GState ({[t]} ∪ checked st) (errorCount st) (printed st).

Definition complain (f : string) (t : nat) (st : gstate) : gstate :=
  GState (checked st) (errorCount st + 1) (printed st ++ [(f, t)]).

(** The loop over the fields of [t]. *)
Fixpoint check_fields (check : nat -> gstate -> option gstate) (t : nat)
    (fields : list (string * nat)) (st : gstate) : option gstate :=
  match fields with
  | [] => Some st
  | (name, ty) :: fields' =>
      let st := if upper name then st else complain name t st in
      st' ← check ty st;
      check_fields check t fields' st'
  end.

(** [None] when the fuel is used up. *)
Fixpoint checkType (fuel : nat) (t : nat) (st : gstate) : option gstate :=
  match fuel with
  | O => None
  | S fuel =>
      if decide (t ∈ checked st) then Some st
      else
        let st := mark t st in
        match types !! t with
        | Some (Struct fields) => check_fields (checkType fuel) t fields st
        | Some (Slice e) | Some (Array e) | Some (Ptr e) => checkType fuel e st
        | Some (Map k e) => st' ← checkType fuel e st; checkType fuel k st'
        | _ => Some st
        end
  end.

(** [checkValue]: the dynamic type of the value; a [nil] interface panics. *)
Definition checkValue (fuel : nat) (t : option nat) (st : gstate) : option gstate :=
  t ← t; checkType fuel t st.

(** ** Specification of the walk *)

Definition children (t : nat) : list nat :=
  match types !! t with
  | Some (Struct fields) => fields.*2
  | Some (Slice e) | Some (Array e) | Some (Ptr e) => [e]
  | Some (Map k e) => [k; e]
  | _ => []
  end.

Definition bad_fields (t : nat) : list (string * nat) :=
  match types !! t with
  | Some (Struct fields) => (λ f, (f.1, t)) <$> filter (λ f, upper f.1 = false) fields
  | _ => []
  end.

(** The types that one walk adds. *)
Definition added (st st' : gstate) : gset nat := checked st' ∖ checked st.

(** What a walk does: it only adds types, finishes every type that it adds, and prints and
    counts the lower-case fields of those types, each type once. *)
Record walked (st st' : gstate) (done : gset nat) : Prop := {
  wk_mono : checked st ⊆ checked st';
  wk_done : done ⊆ checked st';
  wk_closed : forall u, u ∈ added st st' -> forall c, c ∈ children u -> c ∈ checked st';
  wk_printed : ∃ us new, us ≡ₚ elements (added st st') ∧ new ≡ₚ mjoin (bad_fields <$> us) ∧
    printed st' = printed st ++ new ∧
    errorCount st' = (errorCount st + Z.of_nat (length new))%Z
}.

Lemma walked_refl st D : D ⊆ checked st -> walked st st D.
Proof.
  intros HD. assert (Ha : added st st = ∅) by (unfold added; set_solver).
  split; [done|done|rewrite Ha; set_solver|].
  exists [], []. rewrite Ha, elements_empty, app_nil_r. split_and!; [done..|]. simpl. lia.
Qed.

Lemma mjoin_app' {A} (l l' : list (list A)) : mjoin (l ++ l') = mjoin l ++ mjoin l'.
Proof.
  induction l as [|x l IH]; [done|].
  change (x ++ mjoin (l ++ l') = (x ++ mjoin l) ++ mjoin l').
  by rewrite IH, app_assoc.
Qed.

(** Walks compose. *)
Lemma walked_trans st1 st2 st3 D1 D2 :
  walked st1 st2 D1 -> walked st2 st3 D2 -> walked st1 st3 (D1 ∪ D2).
Proof.
  intros [Hm1 Hd1 Hc1 (us1 & n1 & Hu1 & Hn1 & Hp1 & He1)]
    [Hm2 Hd2 Hc2 (us2 & n2 & Hu2 & Hn2 & Hp2 & He2)].
  assert (Ha : added st1 st3 = added st1 st2 ∪ added st2 st3).
  { unfold added. apply set_eq. intros x. rewrite elem_of_union, !elem_of_difference.
    destruct (decide (x ∈ checked st2)); set_solver. }
  split; [set_solver|set_solver| |].
  - rewrite Ha. intros u [Hu|Hu]%elem_of_union c Hc; [|by eapply Hc2].
    apply Hm2. by eapply Hc1.
  - exists (us1 ++ us2), (n1 ++ n2). split_and!.
    + rewrite Ha, elements_disj_union by (unfold added; set_solver). by rewrite Hu1, Hu2.
    + by rewrite fmap_app, mjoin_app', Hn1, Hn2.
    + by rewrite Hp2, Hp1, app_assoc.
    + rewrite He2, He1, length_app. lia.
Qed.

Lemma walked_weaken st st' D D' : D' ⊆ D -> walked st st' D -> walked st st' D'.
Proof. intros HD [? ? ? ?]. split; [done|set_solver|done|done]. Qed.

(** The loop over the fields adds its own complaints about [t]. *)
Record walked_fields (t : nat) (fields : list (string * nat)) (st st' : gstate) : Prop := {
  wf_mono : checked st ⊆ checked st';
  wf_done : forall f, f ∈ fields -> f.2 ∈ checked st';
  wf_closed : forall u, u ∈ added st st' -> forall c, c ∈ children u -> c ∈ checked st';
  wf_printed : ∃ us new, us ≡ₚ elements (added st st') ∧
    new ≡ₚ ((λ f, (f.1, t)) <$> filter (λ f, upper f.1 = false) fields) ++
           mjoin (bad_fields <$> us) ∧
    printed st' = printed st ++ new ∧
    errorCount st' = (errorCount st + Z.of_nat (length new))%Z
}.

(** The types of a program: every type mentioned is known. *)
Definition closed_types : Prop := forall t c, c ∈ children t -> is_Some (types !! c).

(** The types still to be walked. *)
Definition left_over (st : gstate) : nat := size (dom types ∖ checked st).

Section Walk.
Context (Hclosed : closed_types).
Implicit Types (check : nat -> gstate -> option gstate).

Lemma left_over_mono st st' : checked st ⊆ checked st' -> left_over st' ≤ left_over st.
Proof. intros Hs. unfold left_over. apply subseteq_size. set_solver. Qed.

Definition good_check (fuel : nat) check : Prop :=
  forall t st, is_Some (types !! t) -> left_over st < fuel ->
    ∃ st', check t st = Some st' ∧ walked st st' {[t]}.

Lemma check_fields_walked fuel check t fields st :
  good_check fuel check -> (forall f, f ∈ fields -> is_Some (types !! f.2)) ->
  left_over st < fuel ->
  ∃ st', check_fields check t fields st = Some st' ∧ walked_fields t fields st st'.
Proof.
  intros Hcheck. revert st. induction fields as [|[name ty] fields IH]; intros st Hf Hlt.
  { exists st. split; [done|]. destruct (walked_refl st ∅ ltac:(set_solver)) as [? ? ? Hpr].
    split; [done|intros f Hin; by apply elem_of_nil in Hin|done|done]. }
  cbn [check_fields]. set (st1 := if upper name then st else complain name t st).
  assert (Hc1 : checked st1 = checked st) by (unfold st1; by destruct (upper name)).
  destruct (Hcheck ty st1) as (st2 & Hr & Hw).
  { apply (Hf (name, ty)). left. }
  { unfold left_over in *. by rewrite Hc1. }
  rewrite Hr. simpl. destruct Hw as [Hm Hd Hcl (us1 & n1 & Hu1 & Hn1 & Hp1 & He1)].
  destruct (IH st2) as (st3 & Hr3 & [Hm3 Hd3 Hcl3 (us2 & n2 & Hu2 & Hn2 & Hp2 & He2)]).
  { intros f Hin. apply Hf. by right. }
  { eapply Nat.le_lt_trans; [apply (left_over_mono st st2)|done]. by rewrite <- Hc1. }
  exists st3. split; [done|].
  assert (Ha1 : added st1 st2 = added st st2) by (unfold added; by rewrite Hc1).
  rewrite Ha1 in *. rewrite Hc1 in Hm.
  assert (Ha : added st st3 = added st st2 ∪ added st2 st3).
  { unfold added. apply set_eq. intros x. rewrite elem_of_union, !elem_of_difference.
    destruct (decide (x ∈ checked st2)); set_solver. }
  set (own := if upper name then [] else [(name, t)]).
  assert (Hown : printed st1 = printed st ++ own ∧
    errorCount st1 = (errorCount st + Z.of_nat (length own))%Z).
  { unfold st1, own. destruct (upper name); simpl; [rewrite app_nil_r|]; split; done || lia. }
  destruct Hown as [Hpo Heo]. split.
  - set_solver.
  - intros f [->|Hin]%elem_of_cons; [|by apply Hd3]. apply Hm3, Hd. set_solver.
  - rewrite Ha. intros u [Hu|Hu]%elem_of_union c Hc; [|by eapply Hcl3].
    apply Hm3. by eapply Hcl.
  - exists (us1 ++ us2), (own ++ n1 ++ n2). split_and!.
    + rewrite Ha, elements_disj_union by (unfold added; set_solver). by rewrite Hu1, Hu2.
    + rewrite fmap_app, mjoin_app', Hn1, Hn2, filter_cons. unfold own. simpl.
      destruct (upper name); [rewrite decide_False by done|rewrite decide_True by done];
        simpl; try apply Permutation_cons; try done; solve_Permutation.
    + by rewrite Hp2, Hp1, Hpo, !app_assoc.
    + rewrite He2, He1, Heo, !length_app. lia.
Qed.

(** Finishing [t] after its children. *)
Lemma finish_type t st st' :
  t ∉ checked st -> walked_fields t (match types !! t with Some (Struct fs) => fs | _ => [] end)
    (mark t st) st' ->
  (forall c, c ∈ children t -> c ∈ checked st') -> walked st st' {[t]}.
Proof.
  intros Ht [Hm Hd Hcl (us & new & Hu & Hn & Hp & He)] Hch. simpl in *.
  assert (Ha : added st st' = {[t]} ∪ added (mark t st) st').
  { unfold added. simpl. apply set_eq. intros x.
    rewrite elem_of_union, !elem_of_difference, elem_of_union, elem_of_singleton.
    destruct (decide (x = t)); set_solver. }
  split; [set_solver|set_solver| |].
  - rewrite Ha. intros u [->%elem_of_singleton|Hu']%elem_of_union c Hc; [by apply Hch|].
    by eapply Hcl.
  - exists (t :: us), new. split_and!; [| |done|done].
    + rewrite Ha, elements_disj_union by (unfold added; simpl; set_solver).
      rewrite elements_singleton, Hu. done.
    + rewrite Hn, fmap_cons. unfold bad_fields at 2.
      change (mjoin (?x :: ?l)) with (x ++ mjoin l).
      by destruct (types !! t) as [[]|].
Qed.

Lemma no_fields t st st' :
  walked (mark t st) st' ∅ -> walked_fields t [] (mark t st) st'.
Proof.
  intros [Hm _ Hcl Hpr]. split; [done|intros f Hf; by apply elem_of_nil in Hf|done|done].
Qed.

Lemma checkType_walks fuel : good_check fuel (checkType fuel).
Proof.
  induction fuel as [|fuel IH]; intros t st Ht Hlt; [lia|]. cbn [checkType].
  destruct (decide (t ∈ checked st)) as [Hin|Hn].
  { exists st. split; [done|]. apply walked_refl. set_solver. }
  assert (Hlt' : left_over (mark t st) < fuel).
  { assert (Hs : left_over (mark t st) < left_over st); [|lia].
    unfold left_over. apply subset_size. simpl. apply elem_of_dom in Ht. set_solver. }
  assert (Hchild : forall c, c ∈ children t -> is_Some (types !! c)) by (intros c; apply Hclosed).
  assert (Hone : forall e, children t = [e] ->
    (forall fs, types !! t ≠ Some (Struct fs)) ->
    ∃ st', checkType fuel e (mark t st) = Some st' ∧ walked st st' {[t]}).
  { intros e Hc Hns. destruct (IH e (mark t st)) as (st' & Hr & Hw); [|done|].
    { apply Hchild. rewrite Hc. left. }
    exists st'. split; [done|]. apply finish_type; [done| |].
    - replace (match types !! t with Some (Struct fs) => fs | _ => [] end)
        with (@nil (string * nat)) by (destruct (types !! t) as [[]|]; naive_solver).
      apply no_fields. by eapply walked_weaken; [|exact Hw].
    - rewrite Hc. intros c ->%list_elem_of_singleton. apply (wk_done _ _ _ Hw). set_solver. }
  unfold children in Hone, Hchild. destruct (types !! t) as [k|] eqn:Hk; [|by destruct Ht].
  destruct k as [fields|e|e|e|k e| |].
  - destruct (check_fields_walked fuel (checkType fuel) t fields (mark t st) IH)
      as (st' & Hr & Hw); [|done|].
    { intros f Hf. apply Hchild. by apply list_elem_of_fmap_2. }
    exists st'. split; [done|]. apply finish_type; [done|by rewrite Hk|].
    unfold children. rewrite Hk. intros c (f & -> & Hf)%list_elem_of_fmap. by apply (wf_done _ _ _ _ Hw).
  - by apply Hone.
  - by apply Hone.
  - by apply Hone.
  - destruct (IH e (mark t st)) as (st1 & Hr1 & Hw1); [apply Hchild; set_solver|done|].
    destruct (IH k st1) as (st2 & Hr2 & Hw2); [apply Hchild; set_solver| |].
    { eapply Nat.le_lt_trans; [apply (left_over_mono (mark t st) st1), (wk_mono _ _ _ Hw1)|done]. }
    exists st2. rewrite Hr1. split; [done|].
    pose proof (walked_trans _ _ _ _ _ Hw1 Hw2) as Hw. apply finish_type; [done| |].
    + rewrite Hk. apply no_fields. by eapply walked_weaken; [|exact Hw].
    + unfold children. rewrite Hk. pose proof (wk_done _ _ _ Hw). set_solver.
  - exists (mark t st). split; [done|]. apply finish_type; [done| |].
    + rewrite Hk. apply no_fields, walked_refl. set_solver.
    + unfold children. rewrite Hk. intros c Hc. by apply elem_of_nil in Hc.
  - exists (mark t st). split; [done|]. apply finish_type; [done| |].
    + rewrite Hk. apply no_fields, walked_refl. set_solver.
    + unfold children. rewrite Hk. intros c Hc. by apply elem_of_nil in Hc.
Qed.

End Walk.

(** A type reachable from a type that was walked from scratch is checked. *)
Definition child (t c : nat) : Prop := c ∈ children t.

Lemma walked_reachable st st' t u :
  checked st = ∅ -> walked st st' {[t]} -> rtc child t u -> u ∈ checked st'.
Proof.
  intros He Hw Hr. assert (Ht : t ∈ checked st') by (apply (wk_done _ _ _ Hw); set_solver).
  pose proof (wk_closed _ _ _ Hw) as Hcl. clear Hw. revert Ht.
  induction Hr as [t|t c u Hc _ IH]; [done|]. intros Ht. apply IH.
  apply (Hcl t); [unfold added; set_solver|done].
Qed.

End CheckType.

(** ** [checkDefault] *)

(** What [reflect] tells about a value: a field has its name and says whether it is embedded; a
    pointer holds the address of a value. *)
Inductive value :=
| VStruct (fields : list (string * bool * value))
| VPtr (a : option nat)
| VBasic (tname : string) (zero : bool)   (* is it the zero value of its type? *)
| VOther.

(** [flagStickyRO] and [flagEmbedRO] of a [reflect.Value]: it was reached through a field that is
    not exported. *)
Record flags := Flags { stickyRO : bool; embedRO : bool }.

(** [errorCount], and the variables or fields that were warned about. *)
Record dstate := DState { derrors : Z; warned : list string }.

Section CheckDefault.
Context (upper : string -> bool) (vheap : gmap nat value).

Definition field_name (name fname : string) : string :=
  if decide (name = "") then fname else name +:+ "." +:+ fname.

(** [value.Field(i)]: only the sticky flag is passed on. *)
Definition field_flags (r : flags) (f : string * bool) : flags :=
  if upper f.1 then Flags (stickyRO r) false
  else if f.2 then Flags (stickyRO r) true else Flags true false.

(** [value.Interface()] panics on a value that was reached through a field that is not exported. *)
Definition Interface (r : flags) : option unit :=
  if stickyRO r || embedRO r then None else Some tt.

Definition warn (tname name : string) (st : dstate) : dstate :=
  let what := if decide (name = "") then tname else name in
  DState (derrors st + 1)
    (if decide (derrors st < 1)%Z then warned st ++ [what] else warned st).

Fixpoint default_fields (check : value -> flags -> string -> dstate -> option dstate)
    (fields : list (string * bool * value)) (r : flags) (name : string) (st : dstate) : option dstate :=
  match fields with
  | [] => Some st
  | (f, vv) :: fields' =>
      st' ← check vv (field_flags r f) (field_name name f.1) st;
      default_fields check fields' r name st'
  end.

(** [checkDefault1(value, depth, name)] with [levels] = 4 - [depth]: the recursion ends
    by itself, also on a cyclic value.  A dangling pointer does not occur in Go.  [None] is a
    panic. *)
Fixpoint checkDefault1 (levels : nat) (v : value) (r : flags) (name : string) (st : dstate) :
    option dstate :=
  match levels with
  | O => Some st
  | S levels =>
      match v with
      | VStruct fields => default_fields (checkDefault1 levels) fields r name st
      | VPtr None => Some st
      | VPtr (Some a) =>
          match vheap !! a with
          | Some v' => checkDefault1 levels v' r name st
          | None => Some st
          end
      | VBasic tname zero => _ ← Interface r; Some (if zero then st else warn tname name st)
      | VOther => Some st
      end
  end.

(** A [nil] interface is [None]. *)
Definition checkDefault (v : option value) (st : dstate) : option dstate :=
  match v with None => Some st | Some v => checkDefault1 3 v (Flags false false) "" st end.

(** *** Reference: the basic values down to a depth, with the fields that lead to them *)

Record leaf := Leaf { l_path : list (string * bool); l_type : string; l_zero : bool }.

Fixpoint leaves (levels : nat) (v : value) (path : list (string * bool)) : list leaf :=
  match levels with
  | O => []
  | S levels =>
      match v with
      | VStruct fields => mjoin ((λ f, leaves levels f.2 (path ++ [f.1])) <$> fields)
      | VPtr None => []
      | VPtr (Some a) => from_option (λ v', leaves levels v' path) [] (vheap !! a)
      | VBasic tname zero => [Leaf path tname zero]
      | VOther => []
      end
  end.

(** A value can be read when every lower-case field on the way to it is embedded, and the last
    field is not lower-case. *)
Definition readable (l : leaf) : Prop :=
  Forall (λ f, upper f.1 = true ∨ f.2 = true) (l_path l) ∧
  from_option (λ f, upper f.1 = true) True (last (l_path l)).

(** The names that are reported: of the non-default values. *)
Definition path_name (path : list (string * bool)) : string := foldl field_name "" path.*1.

Definition leaf_name (l : leaf) : string :=
  if decide (path_name (l_path l) = "") then l_type l else path_name (l_path l).

Definition non_default (ls : list leaf) : list string := leaf_name <$> filter (λ l, l_zero l = false) ls.

(** Reporting a list of names one after the other. *)
Definition report (names : list string) (st : dstate) : dstate :=
  DState (derrors st + Z.of_nat (length names))
    (if decide (derrors st < 1)%Z
     then warned st ++ take (Z.to_nat (1 - derrors st)) names else warned st).

Lemma report_nil st : report [] st = st.
Proof.
  unfold report. simpl. rewrite Z.add_0_r, take_nil, app_nil_r.
  destruct st. simpl. by case_decide.
Qed.

Lemma report_app l l' st : report (l ++ l') st = report l' (report l st).
Proof.
  unfold report. simpl. rewrite length_app. f_equal; [lia|].
  destruct (decide (derrors st < 1)%Z) as [H1|H1].
  - destruct (decide (derrors st + Z.of_nat (length l) < 1)%Z) as [H2|H2].
    + rewrite take_app, <- app_assoc. f_equal.
      rewrite (take_ge l) by lia. f_equal. f_equal. lia.
    + by rewrite take_app_le by lia.
  - by rewrite decide_False by lia.
Qed.

Lemma report_one tname name st :
  report [if decide (name = "") then tname else name] st = warn tname name st.
Proof.
  unfold report, warn. simpl. f_equal. case_decide; [|done].
  destruct (Z.to_nat (1 - derrors st)) eqn:E; [lia|]. simpl. by rewrite take_nil.
Qed.


Definition path_flags (path : list (string * bool)) : flags := foldl field_flags (Flags false false) path.

Lemma sticky_path path :
  stickyRO (path_flags path) = false <-> Forall (λ f, upper f.1 = true ∨ f.2 = true) path.
Proof.
  unfold path_flags. induction path as [|[f em] path IH] using rev_ind; [simpl; by split|].
  rewrite foldl_app, Forall_app, Forall_singleton, <- IH. simpl. unfold field_flags. simpl.
  destruct (upper f), em; simpl; naive_solver.
Qed.

Lemma embed_path path :
  stickyRO (path_flags path) = false ->
  embedRO (path_flags path) = false <-> from_option (λ f, upper f.1 = true) True (last path).
Proof.
  unfold path_flags. induction path as [|[f em] path _] using rev_ind; [by intros _|].
  rewrite foldl_app, last_snoc. simpl. unfold field_flags. simpl. destruct (upper f), em; simpl; naive_solver.
Qed.

Lemma Interface_path path tname zero :
  is_Some (Interface (path_flags path)) <-> readable (Leaf path tname zero).
Proof.
  unfold Interface, readable. simpl. rewrite <- sticky_path.
  destruct (stickyRO (path_flags path)) eqn:Hs; simpl; [by split; [intros []|intros []]|].
  rewrite <- embed_path by done.
  destruct (embedRO (path_flags path)); simpl; split; try naive_solver; by intros [].
Qed.

#[export] Instance readable_dec l : Decision (readable l).
Proof. unfold readable. destruct (last (l_path l)); simpl; apply _. Defined.

(** What the walk does, from a list of leaves. *)
Definition check_leaves (ls : list leaf) (st : dstate) : option dstate :=
  if decide (Forall readable ls) then Some (report (non_default ls) st) else None.

Lemma check_leaves_app l l' st :
  check_leaves (l ++ l') st = (st' ← check_leaves l st; check_leaves l' st').
Proof.
  unfold check_leaves, non_default. rewrite filter_app, fmap_app, report_app.
  destruct (decide (Forall readable (l ++ l'))) as [[H1 H2]%Forall_app|H].
  - rewrite decide_True by done. simpl. by rewrite decide_True.
  - rewrite Forall_app in H. destruct (decide (Forall readable l)); [|done]. simpl.
    by rewrite decide_False by tauto.
Qed.

Lemma checkDefault1_leaves levels v path st :
  checkDefault1 levels v (path_flags path) (path_name path) st = check_leaves (leaves levels v path) st.
Proof.
  assert (Hnil : forall st, Some st = check_leaves [] st).
  { intros st0. unfold check_leaves. rewrite decide_True by done. by rewrite report_nil. }
  revert v path st. induction levels as [|levels IH]; intros v path st; simpl; [done|].
  destruct v as [fields|[a|]|tname zero|]; simpl; try apply Hnil.
  - revert st. induction fields as [|[f vv] fields IHf]; intros st; simpl; [done|].
    change (mjoin (?x :: ?l)) with (x ++ mjoin l). rewrite check_leaves_app.
    assert (Hf : path_flags (path ++ [f]) = field_flags (path_flags path) f)
      by (unfold path_flags; by rewrite foldl_app).
    assert (Hn : path_name (path ++ [f]) = field_name (path_name path) f.1)
      by (unfold path_name; by rewrite fmap_app, foldl_app).
    rewrite <- Hf, <- Hn, IH. destruct (check_leaves _ st); simpl; [apply IHf|done].
  - destruct (vheap !! a); simpl; [apply IH|done].
  - pose proof (Interface_path path tname zero) as Hi. unfold check_leaves.
    destruct (Interface (path_flags path)) as [u|]; simpl.
    + rewrite decide_True by (apply Forall_singleton, Hi; by eexists). unfold non_default. f_equal.
      destruct zero; [by rewrite report_nil|]. by rewrite <- report_one.
    + rewrite decide_False; [done|]. rewrite Forall_singleton, <- Hi. by intros [].
Qed.

Lemma checkDefault_leaves v st : checkDefault (Some v) st = check_leaves (leaves 3 v []) st.
Proof. apply (checkDefault1_leaves 3 v []). Qed.

End CheckDefault.

(** One fuel for every type is enough. *)
Definition type_fuel (types : gmap nat kind) : nat := S (size (dom types)).

End Labgob.
Import Labgob.

(** [checkType] terminates on every type, recursive ones included; when no type was
    checked before it visits every type reachable from the argument, and it prints and
    counts the lower-case fields of the types it adds, each type once. *)
Theorem checkType_complete upper types t st :
  closed_types types -> is_Some (types !! t) ->
  ∃ st', checkType upper types (type_fuel types) t st = Some st' ∧
    walked upper types st st' {[t]} ∧
    (checked st = ∅ -> forall u, rtc (child types) t u -> u ∈ checked st').
Proof.
  intros Hc Ht. destruct (checkType_walks upper types Hc (type_fuel types) t st Ht)
    as (st' & Hr & Hw).
  { unfold left_over, type_fuel. apply Nat.lt_succ_r, subseteq_size. set_solver. }
  exists st'. split_and!; [done..|]. intros He u Hu. by eapply walked_reachable.
Qed.

(** [checkDefault] looks three levels deep.  It panics exactly when it meets a basic value that
    cannot be read; otherwise it counts every non-default basic value that it meets, and warns
    only about the first one and only if nothing was reported before; cyclic values are no
    problem. *)
Theorem checkDefault_reports upper vheap v st :
  (checkDefault upper vheap (Some v) st = None <-> ¬ Forall (readable upper) (leaves vheap 3 v [])) ∧
  forall st', checkDefault upper vheap (Some v) st = Some st' ->
    st' = report (non_default (leaves vheap 3 v [])) st ∧
    ((0 <= derrors st)%Z ->
     length (warned st') ≤ length (warned st) + 1 ∧
     (warned st' = warned st <-> (1 <= derrors st)%Z ∨ non_default (leaves vheap 3 v []) = [])).
Proof.
  rewrite checkDefault_leaves. unfold check_leaves.
  destruct (decide (Forall (readable upper) (leaves vheap 3 v []))) as [Hr|Hr]; [|done].
  split; [done|]. intros st' E0. generalize dependent (non_default (leaves vheap 3 v [])).
  intros l E0. assert (st' = report l st) as -> by congruence. clear. split; [done|]. intros H0.
  unfold report. simpl. destruct (decide (derrors st < 1)%Z) as [H1|H1].
  - replace (Z.to_nat (1 - derrors st)) with 1 by lia. rewrite length_app, length_take.
    split; [lia|]. split.
    + intros E%(f_equal length). rewrite length_app, length_take in E.
      right. destruct l; [done|]. simpl in E. lia.
    + intros [?| ->]; [lia|]. by rewrite app_nil_r.
  - split; [lia|]. split; [left; lia|done].
Qed.

(** ** Witnesses: a recursive list type with a lower-case field *)

(** [type Node struct { Val int; next *Node }] *)
Definition demo_types : gmap nat kind :=
  {[0 := Struct [("Val", 1); ("next", 2)]; 1 := Basic; 2 := Ptr 0]}.

Definition demo_upper (s : string) : bool := bool_decide (s ∈ ["Val"; "Err"; "Value"; "Self"]).

Lemma demo_types_closed : closed_types demo_types.
Proof.
  intros t c Hc. unfold children in Hc.
  destruct (demo_types !! t) as [k|] eqn:Ht; [|by apply elem_of_nil in Hc].
  unfold demo_types in Ht.
  repeat (apply lookup_insert_Some in Ht as [[<- <-]|[_ Ht]]);
    [..|apply lookup_singleton_Some in Ht as [<- <-]]; simpl in Hc; set_unfold;
    destruct_or?; subst; try done; by eexists.
Qed.

Lemma checkType_complete_witness :
  ∃ st', checkType demo_upper demo_types (type_fuel demo_types) 0 (GState ∅ 0 []) = Some st' ∧
    walked demo_upper demo_types (GState ∅ 0 []) st' {[0]} ∧
    (∅ = (∅ : gset nat) -> forall u, rtc (child demo_types) 0 u -> u ∈ checked st').
Proof.
  apply (checkType_complete demo_upper demo_types 0 (GState ∅ 0 []));
    [apply demo_types_closed|by eexists].
Defined.

(** A reply variable that was used before, and that points to itself. *)
Definition demo_vheap : gmap nat value :=
  {[5 := VStruct [("Err", false, VBasic "Err" false); ("Value", false, VBasic "string" true);
                  ("Self", false, VPtr (Some 5))]]}.

Lemma checkDefault_reports_witness :
  checkDefault demo_upper demo_vheap (Some (VPtr (Some 5))) (DState 0 []) = Some (DState 1 ["Err"]) ∧
  DState 1 ["Err"] = report (non_default (leaves demo_vheap 3 (VPtr (Some 5)) [])) (DState 0 []).
Proof.
  split; [vm_compute; reflexivity|].
  apply (checkDefault_reports demo_upper demo_vheap (VPtr (Some 5)) (DState 0 [])). vm_compute. reflexivity.
Defined.
