(* ===== verification/LabgobSession.v ===== *)
(** * [labgob/labgob.go]: the exported functions, through a whole session

    The wrappers around [encoding/gob] with the checks of [Labgob] and with the panics of the
    libraries: a [nil] argument, [value.Interface()] on a value that [reflect] does not give
    out, and the registry of [gob.Register], which is modelled here as its documentation says. *)
From S2P Require Import Prelude Labgob.
Import Labgob.

(** ** The registry of [encoding/gob] *)

Module Registry.

(** The names of types, and of the types below all pointers. *)
Record registry := MkRegistry {
  nameToConcreteType : gmap string nat;
  concreteTypeToName : gmap nat string
}.

Definition empty_registry : registry := MkRegistry ∅ ∅.

Section Register.
Context (types : gmap nat kind).

(** The type below all pointers; a chain of pointers that is longer than the list of types has no
    end, which makes [gob] panic. *)
Fixpoint base (fuel t : nat) : option nat :=
  match fuel with
  | O => None
  | S fuel => match types !! t with Some (Ptr e) => base fuel e | _ => Some t end
  end.

Definition base_of (t : nat) : option nat := base (type_fuel types) t.

(** [gob.RegisterName]: [None] is the panic for the empty name, for a recursive pointer type, for a
    name of another type, and for a type with another name. *)
Definition gob_RegisterName (name : string) (t : nat) (reg : registry) : option registry :=
  if decide (name = "") then None
  else
    b ← base_of t;
    if decide (default t (nameToConcreteType reg !! name) = t ∧
               default name (concreteTypeToName reg !! b) = name)
    then Some (MkRegistry (<[name := t]> (nameToConcreteType reg))
                          (<[b := name]> (concreteTypeToName reg)))
    else None.

Fixpoint gob_RegisterNames (l : list (string * nat)) (reg : registry) : option registry :=
  match l with
  | [] => Some reg
  | (name, t) :: l' => reg' ← gob_RegisterName name t reg; gob_RegisterNames l' reg'
  end.

(** *** Which registrations are possible together *)

Definition registrable (x : string * nat) : Prop := x.1 ≠ "" ∧ is_Some (base_of x.2).

Definition agree (x y : string * nat) : Prop :=
  (x.1 = y.1 -> x.2 = y.2) ∧ (base_of x.2 = base_of y.2 -> x.1 = y.1).

Definition compatible (l : list (string * nat)) : Prop :=
  Forall registrable l ∧ forall x y, x ∈ l -> y ∈ l -> agree x y.

Lemma compatible_app l l' : compatible (l ++ l') -> compatible l.
Proof. intros [[H1 _]%Forall_app H2]. split; [done|]. intros x y Hx Hy. apply H2; apply elem_of_app; by left. Qed.

(** The registry after the registrations [l]. *)
Record registered (l : list (string * nat)) (reg : registry) : Prop := {
  rg_names n t : nameToConcreteType reg !! n = Some t <-> (n, t) ∈ l;
  rg_types b n : concreteTypeToName reg !! b = Some n <-> ∃ t, (n, t) ∈ l ∧ base_of t = Some b
}.

Lemma registered_empty : registered [] empty_registry.
Proof. split; simpl; intros; rewrite lookup_empty; set_solver. Qed.

Lemma compatible_snoc l n t :
  compatible l ->
  compatible (l ++ [(n, t)]) <-> registrable (n, t) ∧ forall y, y ∈ l -> agree (n, t) y.
Proof.
  intros [H1 H2]. unfold compatible. rewrite Forall_app, Forall_singleton. split.
  - intros [[_ Hr] Ha]. split; [done|]. intros y Hy. apply Ha; set_solver.
  - intros [Hr Ha]. split; [done|].
    assert (Hsym : forall x y, agree x y -> agree y x) by (unfold agree; naive_solver).
    intros x y [Hx| ->%list_elem_of_singleton]%elem_of_app [Hy| ->%list_elem_of_singleton]%elem_of_app;
      [by apply H2|by apply Hsym, Ha|by apply Ha|by split].
Qed.

(** One registration succeeds exactly when it fits the earlier ones. *)
Lemma RegisterName_spec l reg n t :
  compatible l -> registered l reg ->
  match gob_RegisterName n t reg with
  | Some reg' => compatible (l ++ [(n, t)]) ∧ registered (l ++ [(n, t)]) reg'
  | None => ¬ compatible (l ++ [(n, t)])
  end.
Proof.
  intros Hc [Hn Ht]. pose proof (compatible_snoc l n t Hc) as Hsnoc.
  unfold gob_RegisterName. unfold registrable in Hsnoc. simpl in Hsnoc.
  destruct (decide (n = "")) as [->|Hne]; [rewrite Hsnoc; naive_solver|].
  destruct (base_of t) as [b|] eqn:Hb; simpl; [|rewrite Hsnoc; intros [[_ [? ?]] _]; done].
  assert (Ha : (forall y, y ∈ l -> agree (n, t) y) <->
    default t (nameToConcreteType reg !! n) = t ∧ default n (concreteTypeToName reg !! b) = n).
  { unfold agree. simpl. split.
    - intros Hy. split.
      + destruct (nameToConcreteType reg !! n) as [t'|] eqn:E; [|done]. apply Hn, Hy in E as [E _].
        symmetry. by apply E.
      + destruct (concreteTypeToName reg !! b) as [n'|] eqn:E; [|done].
        apply Ht in E as (t' & E & Hb'). apply Hy in E as [_ E]. symmetry. apply E. simpl. congruence.
    - intros [H1 H2] [n' t'] Hy. simpl. split.
      + intros <-. apply Hn in Hy. rewrite Hy in H1. done.
      + rewrite Hb. intros Hb'. assert (E : concreteTypeToName reg !! b = Some n') by (apply Ht; by exists t').
        rewrite E in H2. done. }
  destruct (decide _) as [Hd|Hd]; [|tauto].
  split; [apply Hsnoc; split; [by split; [|eexists]|by apply Ha]|].
  destruct Hd as [H1 H2]. split; simpl.
  - intros n' t'. rewrite elem_of_app, list_elem_of_singleton, <- Hn.
    destruct (decide (n = n')) as [<-|Hnn]; [|rewrite lookup_insert_ne by done; naive_solver].
    rewrite lookup_insert_eq. destruct (nameToConcreteType reg !! n); naive_solver.
  - intros b' n'. setoid_rewrite elem_of_app. setoid_rewrite list_elem_of_singleton.
    destruct (decide (b = b')) as [<-|Hbb].
    + rewrite lookup_insert_eq. split.
      * intros [= <-]. exists t. split; [by right|done].
      * intros (t' & [Hin|[= -> ->]] & Hb'); [|done].
        assert (E : concreteTypeToName reg !! b = Some n') by (apply Ht; by exists t').
        rewrite E in H2. by f_equal.
    + rewrite lookup_insert_ne, Ht by done. split; [naive_solver|].
      intros (t' & [Hin|[= -> ->]] & Hb'); [by exists t'|congruence].
Qed.

Lemma RegisterNames_registered l l' reg reg' :
  compatible l -> registered l reg -> gob_RegisterNames l' reg = Some reg' ->
  compatible (l ++ l') ∧ registered (l ++ l') reg'.
Proof.
  revert l reg. induction l' as [|[n t] l' IH]; intros l reg Hc Hr Hg; simpl in Hg.
  { simplify_eq. by rewrite app_nil_r. }
  pose proof (RegisterName_spec l reg n t Hc Hr) as Hs.
  destruct (gob_RegisterName n t reg) as [reg1|]; [|done]. destruct Hs as [Hc' Hr'].
  rewrite cons_middle, app_assoc. by apply (IH _ reg1).
Qed.
End Register.
End Registry.
Import Registry.

(** ** The wrappers *)

#[local] Arguments checkType : simpl never.
#[local] Arguments leaves : simpl never.
#[local] Arguments checkDefault : simpl never.

Module Session.
Section Wrappers.
Context (upper : string -> bool) (types : gmap nat kind) (vheap : gmap nat value).

(** The name that [gob.Register] gives to a type; [gob] itself, where [None] is a panic. *)
Context (type_name : nat -> string).
Context {Bytes Result : Type} (gob_encode gob_encodeValue : value -> option Bytes).
Context (gob_decode : value -> option Result).

(** A value with its dynamic type; a [nil] interface is [None]. *)
Record dynamic := Dynamic { dtype : nat; dvalue : value }.

(** The global variables of [labgob], the warnings about values that were printed, and the
    registry. *)
Record globals := Globals { g_state : gstate; g_warned : list string; g_registry : registry }.

Definition Encode (e : option dynamic) (g : globals) : option (globals * Bytes) :=
  st ← checkValue upper types (type_fuel types) (dtype <$> e) (g_state g);
  e ← e;
  bs ← gob_encode (dvalue e);
  Some (Globals st (g_warned g) (g_registry g), bs).

(** [r] are the flags of the [reflect.Value], and [e] is what [value.Interface()] returns. *)
Definition EncodeValue (r : flags) (e : option dynamic) (g : globals) : option (globals * Bytes) :=
  _ ← Interface r;
  st ← checkValue upper types (type_fuel types) (dtype <$> e) (g_state g);
  e ← e;
  bs ← gob_encodeValue (dvalue e);
  Some (Globals st (g_warned g) (g_registry g), bs).

Definition Decode (e : option dynamic) (g : globals) : option (globals * Result) :=
  st ← checkValue upper types (type_fuel types) (dtype <$> e) (g_state g);
  ds ← checkDefault upper vheap (dvalue <$> e) (DState (errorCount st) (g_warned g));
  e ← e;
  res ← gob_decode (dvalue e);
  Some (Globals (GState (checked st) (derrors ds) (printed st)) (warned ds) (g_registry g), res).

Definition RegisterName (name : string) (e : option dynamic) (g : globals) : option globals :=
  st ← checkValue upper types (type_fuel types) (dtype <$> e) (g_state g);
  e ← e;
  reg ← gob_RegisterName types name (dtype e) (g_registry g);
  Some (Globals st (g_warned g) reg).

Definition Register (e : option dynamic) (g : globals) : option globals :=
  st ← checkValue upper types (type_fuel types) (dtype <$> e) (g_state g);
  e ← e;
  reg ← gob_RegisterName types (type_name (dtype e)) (dtype e) (g_registry g);
  Some (Globals st (g_warned g) reg).

(** *** A program's use of the package *)
Inductive use :=
| UEncode (e : option dynamic)
| UEncodeValue (r : flags) (e : option dynamic)
| UDecode (e : option dynamic)
| URegister (e : option dynamic)
| URegisterName (name : string) (e : option dynamic).

Definition subject (u : use) : option dynamic :=
  match u with
  | UEncode e | UEncodeValue _ e | UDecode e | URegister e | URegisterName _ e => e
  end.

Definition do_use (u : use) (g : globals) : option globals :=
  match u with
  | UEncode e => fst <$> Encode e g
  | UEncodeValue r e => fst <$> EncodeValue r e g
  | UDecode e => fst <$> Decode e g
  | URegister e => Register e g
  | URegisterName name e => RegisterName name e g
  end.

Fixpoint do_uses (us : list use) (g : globals) : option globals :=
  match us with
  | [] => Some g
  | u :: us' => g' ← do_use u g; do_uses us' g'
  end.

(** ** Specification of a session *)

(** The pairs that a use registers. *)
Definition registration (u : use) : list (string * nat) :=
  match u with
  | URegister (Some e) => [(type_name (dtype e), dtype e)]
  | URegisterName name (Some e) => [(name, dtype e)]
  | _ => []
  end.

(** What a use needs by itself. *)
Definition safe_use (u : use) : Prop :=
  ∃ e, subject u = Some e ∧
    match u with
    | UEncode _ => is_Some (gob_encode (dvalue e))
    | UEncodeValue r _ => r = Flags false false ∧ is_Some (gob_encodeValue (dvalue e))
    | UDecode _ => Forall (readable upper) (leaves vheap 3 (dvalue e) []) ∧ is_Some (gob_decode (dvalue e))
    | _ => True
    end.

(** What the uses of a program need after the registrations [basics] of [gob] itself. *)
Definition allowed (basics : list (string * nat)) (us : list use) : Prop :=
  Forall safe_use us ∧ compatible types (basics ++ (us ≫= registration)).

(** The values that [checkDefault] counts in one use. *)
Definition leftovers (u : use) : nat :=
  match u with UDecode (Some e) => length (non_default (leaves vheap 3 (dvalue e) [])) | _ => 0 end.

(** After the uses [us]: what was counted is what was printed and the values left over. *)
Record session_ok (basics : list (string * nat)) (us : list use) (g : globals) : Prop := {
  ss_closed : forall t c, t ∈ checked (g_state g) -> c ∈ children types t -> c ∈ checked (g_state g);
  ss_used : forall u e, u ∈ us -> subject u = Some e -> dtype e ∈ checked (g_state g);
  ss_printed : printed (g_state g) ≡ₚ mjoin (bad_fields upper types <$> elements (checked (g_state g)));
  ss_count : errorCount (g_state g) =
    Z.of_nat (length (printed (g_state g)) + sum_list_with leftovers us);
  ss_warned : length (g_warned g) ≤ 1 ∧ (g_warned g ≠ [] -> 0 < sum_list_with leftovers us);
  ss_allowed : allowed basics us;
  ss_registry : registered types (basics ++ (us ≫= registration)) (g_registry g)
}.

Lemma bind_snoc {A B} (f : A -> list B) l x : (l ++ [x]) ≫= f = (l ≫= f) ++ f x.
Proof. rewrite bind_app. f_equal. apply app_nil_r. Qed.

Lemma allowed_prefix basics us us' : allowed basics (us ++ us') -> allowed basics us.
Proof.
  intros [[H1 _]%Forall_app H2]. split; [done|]. rewrite bind_app, app_assoc in H2.
  by eapply compatible_app.
Qed.

(** The walk over the type of a use. *)
Lemma walked_session basics us u e g st' :
  session_ok basics us g -> subject u = Some e -> walked upper types (g_state g) st' {[dtype e]} ->
  (forall t c, t ∈ checked st' -> c ∈ children types t -> c ∈ checked st') ∧
  (forall v e, v ∈ us ++ [u] -> subject v = Some e -> dtype e ∈ checked st') ∧
  printed st' ≡ₚ mjoin (bad_fields upper types <$> elements (checked st')) ∧
  errorCount st' = Z.of_nat (length (printed st') + sum_list_with leftovers us).
Proof.
  intros [S1 S2 S3 S4 _ _ _] Hu [W1 W2 W3 (vs & new & Hv & Hn & Hp & He)].
  assert (Ha : checked st' = checked (g_state g) ∪ added (g_state g) st').
  { unfold added. apply set_eq. intros x. rewrite elem_of_union, elem_of_difference.
    destruct (decide (x ∈ checked (g_state g))); set_solver. }
  split_and!.
  - intros t c Ht Hc. rewrite Ha in Ht. apply elem_of_union in Ht as [Ht|Ht]; [|by eapply W3].
    apply W1. by eapply S1.
  - intros v e' [Hv'| ->%list_elem_of_singleton]%elem_of_app He'; [apply W1; by eapply S2|].
    rewrite Hu in He'. set_solver.
  - rewrite Hp, S3, Hn, Hv. rewrite Ha at 1. rewrite elements_disj_union by (unfold added; set_solver).
    by rewrite fmap_app, mjoin_app'.
  - rewrite He, S4, Hp, length_app. lia.
Qed.

(** A use that does not decode and leaves the registry in order. *)
Lemma plain_session basics us u e g st' reg :
  session_ok basics us g -> subject u = Some e -> walked upper types (g_state g) st' {[dtype e]} ->
  leftovers u = 0 -> safe_use u ->
  compatible types ((basics ++ (us ≫= registration)) ++ registration u) ->
  registered types ((basics ++ (us ≫= registration)) ++ registration u) reg ->
  session_ok basics (us ++ [u]) (Globals st' (g_warned g) reg).
Proof.
  intros Hs Hu Hw Hl Hsafe Hc Hr. destruct (walked_session basics us u e g st' Hs Hu Hw) as (H1 & H2 & H3 & H4).
  destruct Hs as [_ _ _ _ [S5 S6] [S7 _] _]. rewrite <- app_assoc in Hc, Hr.
  split; simpl; try done; rewrite ?sum_list_with_app; simpl.
  - rewrite H4. lia.
  - split; [done|]. intros H. apply S6 in H. lia.
  - split; [by apply Forall_app; split; [|apply Forall_singleton]|by rewrite bind_snoc].
  - by rewrite bind_snoc.
Qed.

(** Decoding a value that can be read. *)
Lemma decode_session basics us e g st' :
  session_ok basics us g -> walked upper types (g_state g) st' {[dtype e]} ->
  safe_use (UDecode (Some e)) ->
  let ds := report (non_default (leaves vheap 3 (dvalue e) [])) (DState (errorCount st') (g_warned g)) in
  session_ok basics (us ++ [UDecode (Some e)])
    (Globals (GState (checked st') (derrors ds) (printed st')) (warned ds) (g_registry g)).
Proof.
  intros Hs Hw Hsafe. set (u := UDecode (Some e)) in *.
  destruct (walked_session basics us u e g st' Hs eq_refl Hw) as (H1 & H2 & H3 & H4).
  destruct Hs as [_ _ _ _ [S5 S6] [S7 S8] S9].
  assert (Hlu : sum_list_with leftovers (us ++ [u]) =
    sum_list_with leftovers us + length (non_default (leaves vheap 3 (dvalue e) []))).
  { rewrite sum_list_with_app. unfold u. cbn [sum_list_with leftovers]. lia. }
  assert (Hru : (us ++ [u]) ≫= registration = us ≫= registration) by (rewrite bind_snoc; apply app_nil_r).
  assert (Hsa : Forall safe_use (us ++ [u])) by (by apply Forall_app; split; [|apply Forall_singleton]).
  clearbody u. revert Hlu. generalize (non_default (leaves vheap 3 (dvalue e) [])). intros l Hlu.
  split; unfold allowed; rewrite ?Hlu, ?Hru; simpl; try done.
  - rewrite H4. lia.
  - destruct (decide (errorCount st' < 1)%Z); [|split; [done|]; intros H; apply S6 in H; lia].
    destruct (g_warned g) as [|w ws]; [|specialize (S6 ltac:(done)); lia].
    replace (Z.to_nat (1 - errorCount st')) with 1 by lia. simpl. rewrite length_take.
    split; [lia|]. destruct l; simpl; [done|lia].
Qed.

(** A use succeeds exactly when it is allowed after the earlier ones. *)
Lemma use_session basics us u g :
  closed_types types -> (forall e, subject u = Some e -> is_Some (types !! dtype e)) ->
  session_ok basics us g ->
  match do_use u g with
  | Some g' => session_ok basics (us ++ [u]) g'
  | None => ¬ allowed basics (us ++ [u])
  end.
Proof.
  intros Hcl Ht Hs.
  assert (Hnot : ¬ safe_use u -> ¬ allowed basics (us ++ [u])).
  { intros Hn [[_ H]%Forall_app _]. by inversion H. }
  assert (Hcr : compatible types (basics ++ (us ≫= registration)) ∧
    registered types (basics ++ (us ≫= registration)) (g_registry g)) by by destruct Hs as [_ _ _ _ _ [_ ?] ?].
  destruct Hcr as [Hc Hr].
  destruct (subject u) as [e|] eqn:Hsub.
  2: { destruct u as [[]|r []|[]|[]|? []]; try done; simpl; unfold Encode, EncodeValue, Decode, Register, RegisterName, checkValue;
         simpl; try (apply Hnot; by intros (? & ? & _)).
       destruct (Interface r); simpl; apply Hnot; by intros (? & ? & _). }
  destruct (checkType_walks upper types Hcl (type_fuel types) (dtype e) (g_state g)) as (st' & Hst & Hw).
  { by apply Ht. }
  { unfold left_over, type_fuel. apply Nat.lt_succ_r, subseteq_size. set_solver. }
  assert (Hplain : registration u = [] -> leftovers u = 0 -> safe_use u ->
    session_ok basics (us ++ [u]) (Globals st' (g_warned g) (g_registry g))).
  { intros Hreg Hl Hsafe. eapply (plain_session basics us u e g); rewrite ?Hreg, ?app_nil_r; done. }
  assert (Hregister : forall name, registration u = [(name, dtype e)] -> leftovers u = 0 -> safe_use u ->
    match (reg ← gob_RegisterName types name (dtype e) (g_registry g);
           Some (Globals st' (g_warned g) reg)) with
    | Some g' => session_ok basics (us ++ [u]) g' | None => ¬ allowed basics (us ++ [u]) end).
  { intros name Hreg Hl Hsafe. pose proof (RegisterName_spec types _ _ name (dtype e) Hc Hr) as Hspec.
    destruct (gob_RegisterName _ _ _ _) as [reg|]; simpl.
    - destruct Hspec. eapply (plain_session basics us u e g); rewrite ?Hreg; done.
    - intros [_ Ha]. rewrite bind_snoc, Hreg, app_assoc in Ha. done. }
  destruct u as [?|r ?|?|?|name ?]; simpl in Hsub; subst; simpl;
    unfold Encode, EncodeValue, Decode, Register, RegisterName, checkValue; simpl; rewrite ?Hst; simpl.
  - destruct (gob_encode (dvalue e)) as [bs|] eqn:Hg; simpl.
    + apply Hplain; try done. exists e. by rewrite Hg.
    + apply Hnot. intros (? & [= <-] & H). rewrite Hg in H. by destruct H.
  - destruct r as [[] []]; simpl; rewrite ?Hst; simpl; try (apply Hnot; by intros (? & _ & ? & _)).
    destruct (gob_encodeValue (dvalue e)) as [bs|] eqn:Hg; simpl.
    + apply Hplain; try done. exists e. by rewrite Hg.
    + apply Hnot. intros (? & [= <-] & _ & H). rewrite Hg in H. by destruct H.
  - rewrite checkDefault_leaves. unfold check_leaves.
    destruct (decide _) as [Hread|Hread]; cbn [mbind option_bind].
    + destruct (gob_decode (dvalue e)) as [res|] eqn:Hg; simpl.
      * apply decode_session; try done. exists e. by rewrite Hg.
      * apply Hnot. intros (? & [= <-] & _ & H). rewrite Hg in H. by destruct H.
    + apply Hnot. by intros (? & [= <-] & H & _).
  - apply Hregister; try done. by exists e.
  - apply Hregister; try done. by exists e.
Qed.

Lemma uses_session basics us0 us g :
  closed_types types -> (forall u e, u ∈ us -> subject u = Some e -> is_Some (types !! dtype e)) ->
  session_ok basics us0 g ->
  match do_uses us g with
  | Some g' => session_ok basics (us0 ++ us) g'
  | None => ¬ allowed basics (us0 ++ us)
  end.
Proof.
  intros Hcl. revert us0 g. induction us as [|u us IH]; intros us0 g Hus Hs; simpl; [by rewrite app_nil_r|].
  pose proof (use_session basics us0 u g Hcl (λ e, Hus u e ltac:(left)) Hs) as Hu.
  rewrite cons_middle, app_assoc. destruct (do_use u g) as [g'|]; simpl.
  - apply IH; [|done]. intros v e Hv. apply Hus. by right.
  - intros Ha. by apply Hu, (allowed_prefix basics (us0 ++ [u]) us).
Qed.

End Wrappers.
End Session.
Import Session.

(** C40: a program that registers, encodes and decodes values of known types is stopped by a panic
    exactly when a value is [nil], a [reflect.Value] was reached through a field that is not
    exported, a value that is decoded into holds within three levels a basic value that was, a
    registration does not fit the others or those of [gob] itself, or [gob] panics. Otherwise
    the checks are exact over the whole session: every type that was used and every type
    reachable from it is checked; the lower-case fields of the checked types are printed, each
    once; the error count is their number and that of the non-default values that were decoded
    into; and the warning about such values is printed at most once. *)
Theorem labgob_session {Bytes Result : Type} upper types vheap type_name
    (gob_encode gob_encodeValue : value -> option Bytes) (gob_decode : value -> option Result)
    basics reg0 us :
  closed_types types -> (forall u e, u ∈ us -> subject u = Some e -> is_Some (types !! dtype e)) ->
  gob_RegisterNames types basics empty_registry = Some reg0 ->
  let run := do_uses upper types vheap type_name gob_encode gob_encodeValue gob_decode us
    (Globals (GState ∅ 0 []) [] reg0) in
  (is_Some run <-> allowed upper types vheap type_name gob_encode gob_encodeValue gob_decode basics us) ∧
  forall st ws reg, run = Some (Globals st ws reg) ->
    (forall u e t, u ∈ us -> subject u = Some e -> rtc (child types) (dtype e) t -> t ∈ checked st) ∧
    printed st ≡ₚ mjoin (bad_fields upper types <$> elements (checked st)) ∧
    errorCount st = Z.of_nat (length (printed st) + sum_list_with (leftovers vheap) us) ∧
    length ws ≤ 1.
Proof.
  intros Hcl Hus Hb run.
  destruct (RegisterNames_registered types [] basics empty_registry reg0) as [Hc Hr];
    [by split; [|set_solver]|apply registered_empty|done|].
  assert (Hrun := uses_session upper types vheap type_name gob_encode gob_encodeValue gob_decode
    basics [] us (Globals (GState ∅ 0 []) [] reg0) Hcl Hus). cbv zeta in *. fold run in Hrun. simpl in Hrun.
  assert (Hstart : session_ok upper types vheap type_name gob_encode gob_encodeValue gob_decode
    basics [] (Globals (GState ∅ 0 []) [] reg0)).
  { split; simpl; rewrite ?elements_empty, ?app_nil_r; try done; try set_solver.
    split; [done|]. simpl. by rewrite app_nil_r. }
  specialize (Hrun Hstart). destruct run as [g|].
  - split; [split; [intros _; apply Hrun|by eexists]|]. intros st ws reg [= ->].
    destruct Hrun as [S1 S2 S3 S4 [S5 _] _ _]. split_and!; [|done..].
    intros u e t Hu He Ht. specialize (S2 u e Hu He). simpl in *.
    induction Ht as [t|t c t' Hch _ IH]; [done|]. apply IH. by eapply S1.
  - split; [|done]. split; [by intros []|done].
Qed.

(** ** Witnesses: the list type of [Labgob] and a used reply variable

    The lower-case field of the list type is reported when it is registered, so that there is no
    warning about the variable. *)
Definition demo_basics : list (string * nat) := [("int", 1)].

Definition demo_uses : list use :=
  [URegister (Some (Dynamic 0 VOther)); UDecode (Some (Dynamic 2 (VPtr (Some 5))));
   UEncode (Some (Dynamic 0 VOther))].

Lemma labgob_session_witness :
  ∃ g, do_uses demo_upper demo_types demo_vheap (λ _, "Node") (λ _, Some tt) (λ _, Some tt) (λ _, Some tt)
      demo_uses (Globals (GState ∅ 0 []) [] (MkRegistry {["int" := 1]} {[1 := "int"]})) = Some g ∧
    errorCount (g_state g) = 2%Z ∧ g_warned g = [] ∧
    allowed demo_upper demo_types demo_vheap (λ _, "Node") (λ _, Some tt) (λ _, Some tt) (λ _, Some tt)
      demo_basics demo_uses.
Proof.
  destruct (labgob_session demo_upper demo_types demo_vheap (λ _, "Node") (λ _, Some tt) (λ _, Some tt)
    (λ _, Some tt) demo_basics (MkRegistry {["int" := 1]} {[1 := "int"]}) demo_uses) as [Hiff _].
  - apply demo_types_closed.
  - intros u e Hu He. unfold demo_uses in Hu.
    repeat (apply elem_of_cons in Hu as [->|Hu]; [injection He as <-; by eexists|]). by apply elem_of_nil in Hu.
  - vm_compute. reflexivity.
  - eexists. split; [vm_compute; reflexivity|]. split; [reflexivity|]. split; [reflexivity|].
    apply Hiff. vm_compute. by eexists.
Defined.

(** A variable with a lower-case field that is used before it is decoded into. *)
Example hidden_field_panics :
  do_uses demo_upper demo_types {[5 := VStruct [("next", false, VBasic "int" true)]]} (λ _, "Node")
    (λ _, Some tt) (λ _, Some tt) (λ _, Some tt) [UDecode (Some (Dynamic 2 (VPtr (Some 5))))]
    (Globals (GState ∅ 0 []) [] empty_registry) = None.
Proof. vm_compute. reflexivity. Qed.
