(* ===== verification/RaftChecker.v ===== *)
(** * The checks of [raft/config.go] on what Raft servers apply

    The test harness keeps a copy of what each server has applied ([logs]) and compares:
    [checkLogs], the two appliers, [nCommitted], [wait], [one], and the checks on
    leaders and terms.  The servers are oracles: what [GetState] and [Start] answer is an
    argument.  Commands are of a comparable type with a [nil]; [log.Fatalf] and
    [t.Fatalf] are values of [outcome]. *)
From S2P Require Import Prelude.

Module RaftChecker.

(** The result of a check that can end the test. *)
Inductive outcome (A : Type) := Pass (a : A) | FatalErr | PanicErr.
Arguments Pass {A}.
Arguments FatalErr {A}.
Arguments PanicErr {A}.

Section Checker.
Context {V : Type} `{!EqDecision V} (vnil : V).
Context {Bytes : Type} (encode_snap : Z * list V -> Bytes) (decode_snap : Bytes -> option (Z * list V)).

Record ApplyMsg := MkApplyMsg {
  CommandValid : bool;
  Command : V;
  CommandIndex : Z;
  SnapshotValid : bool;
  Snapshot : option Bytes;     (* [nil] is [None] *)
  SnapshotTerm : Z;
  SnapshotIndex : Z
}.

Record config := Config {
  logs : list (gmap Z V);
  lastApplied : list Z;
  maxIndex : Z
}.

Definition initial (n : nat) : config := Config (replicate n ∅) (replicate n 0%Z) 0.

(** The loop of [checkLogs]: the last server with another value. *)
Fixpoint mismatch (ls : list (gmap Z V)) (j : nat) (index : Z) (v : V) (err : option (nat * V)) :
    option (nat * V) :=
  match ls with
  | [] => err
  | l :: ls' =>
      mismatch ls' (S j) index v
        (match l !! index with
         | Some old => if decide (old ≠ v) then Some (j, old) else err
         | None => err
         end)
  end.

(** [checkLogs]: the error, [prevok], and the new state; [None] is an index out of
    range. *)
Definition checkLogs (cfg : config) (i : nat) (m : ApplyMsg) :
    option (option (nat * V) * bool * config) :=
  let v := Command m in
  let err_msg := mismatch (logs cfg) 0 (CommandIndex m) v None in
  li ← logs cfg !! i;
  let prevok := bool_decide (is_Some (li !! (CommandIndex m - 1)%Z)) in
  Some (err_msg, prevok,
    Config (<[i := <[CommandIndex m := v]> li]> (logs cfg)) (lastApplied cfg)
      (if decide (maxIndex cfg < CommandIndex m)%Z then CommandIndex m else maxIndex cfg)).

(** One message in [applier]. *)
Definition applier (cfg : config) (i : nat) (m : ApplyMsg) : outcome config :=
  if CommandValid m then
    match checkLogs cfg i m with
    | None => PanicErr
    | Some (err_msg, prevok, cfg') =>
        if bool_decide (1 < CommandIndex m)%Z && negb prevok then FatalErr
        else match err_msg with Some _ => FatalErr | None => Pass cfg' end
    end
  else Pass cfg.

(** [ingestSnap]; the first two errors are [log.Fatalf], the third is returned. *)
Definition set_log (cfg : config) (i : nat) (l : gmap Z V) (last : Z) : config :=
  Config (<[i := l]> (logs cfg)) (<[i := last]> (lastApplied cfg)) (maxIndex cfg).

Definition log_of_list (xlog : list V) : gmap Z V :=
  list_to_map (imap (λ j v, (Z.of_nat j, v)) xlog).

Definition ingestSnap (cfg : config) (i : nat) (snapshot : option Bytes) (index : Z) :
    outcome config :=
  match snapshot with
  | None => FatalErr
  | Some b =>
      match decode_snap b with
      | None => FatalErr
      | Some (lastIncludedIndex, xlog) =>
          if bool_decide (index ≠ -1)%Z && bool_decide (index ≠ lastIncludedIndex) then FatalErr
          else Pass (set_log cfg i (log_of_list xlog) lastIncludedIndex)
      end
  end.

Definition SnapShotInterval : Z := 10.

(** [for j := 0; j <= index; j++ { xlog = append(xlog, cfg.logs[i][j]) }] *)
Definition snap_log (l : gmap Z V) (index : Z) : list V :=
  (λ j, default vnil (l !! j)) <$> seqZ 0 (index + 1).

(** One message in [applierSnap], and the snapshot handed to [rf.Snapshot]. *)
Definition applierSnap (cfg : config) (i : nat) (m : ApplyMsg) :
    outcome (config * option (Z * Bytes)) :=
  if SnapshotValid m then
    match ingestSnap cfg i (Snapshot m) (SnapshotIndex m) with
    | Pass cfg' => Pass (cfg', None)
    | FatalErr => FatalErr
    | PanicErr => PanicErr
    end
  else if CommandValid m then
    match lastApplied cfg !! i with
    | None => PanicErr
    | Some last =>
        if decide (CommandIndex m ≠ last + 1)%Z then FatalErr
        else
          match checkLogs cfg i m with
          | None => PanicErr
          | Some (err_msg, prevok, cfg1) =>
              let cfg' := Config (logs cfg1) (<[i := CommandIndex m]> (lastApplied cfg1))
                            (maxIndex cfg1) in
              let snap :=
                if decide (Z.rem (CommandIndex m + 1) SnapShotInterval = 0)%Z then
                  Some (CommandIndex m,
                    encode_snap (CommandIndex m,
                      snap_log (default ∅ (logs cfg' !! i)) (CommandIndex m)))
                else None in
              if bool_decide (1 < CommandIndex m)%Z && negb prevok then FatalErr
              else match err_msg with Some _ => FatalErr | None => Pass (cfg', snap) end
          end
    end
  else Pass (cfg, None).

(** [nCommitted]: the count and the command so far are the accumulator. *)
Fixpoint nCommitted_loop (ls : list (gmap Z V)) (index : Z) (count : nat) (cmd : V) :
    outcome (nat * V) :=
  match ls with
  | [] => Pass (count, cmd)
  | l :: ls' =>
      match l !! index with
      | Some cmd1 =>
          if decide (0 < count ∧ cmd ≠ cmd1) then FatalErr
          else nCommitted_loop ls' index (S count) cmd1
      | None => nCommitted_loop ls' index count cmd
      end
  end.

Definition nCommitted (cfg : config) (index : Z) : outcome (nat * V) :=
  nCommitted_loop (logs cfg) index 0 vnil.

(** ** Leaders and terms

    [connected] and what [GetState] answers, server by server. *)
Definition collect_leaders (connected : list bool) (states : list (Z * bool)) :
    gmap Z (list nat) :=
  foldl (λ leaders x,
      match x with
      | (i, (true, (term, true))) => <[term := default [] (leaders !! term) ++ [i]]> leaders
      | _ => leaders
      end) ∅ (imap (λ i x, (i, x)) (zip connected states)).

(** The loop over the map, and the choice of the leader of the last term. *)
Definition last_term (leaders : gmap Z (list nat)) : Z :=
  foldr (λ x acc, if decide (acc < x.1)%Z then x.1 else acc) (-1)%Z (map_to_list leaders).

(** One iteration: [Pass None] goes on to the next. *)
Definition leader_round (connected : list bool) (states : list (Z * bool)) :
    outcome (option nat) :=
  let leaders := collect_leaders connected states in
  if decide (map_Exists (λ _ l, 1 < length l) leaders) then FatalErr
  else if decide (leaders = ∅) then Pass None
  else match leaders !! last_term leaders with
       | Some (i :: _) => Pass (Some i)
       | _ => PanicErr
       end.

(** [checkOneLeader]: [rounds] is what the servers answer in the ten iterations. *)
Fixpoint checkOneLeader (connected : list bool) (rounds : list (list (Z * bool))) :
    outcome nat :=
  match rounds with
  | [] => FatalErr
  | states :: rounds' =>
      match leader_round connected states with
      | Pass (Some i) => Pass i
      | Pass None => checkOneLeader connected rounds'
      | FatalErr => FatalErr
      | PanicErr => PanicErr
      end
  end.

Fixpoint checkTerms_loop (xs : list (bool * (Z * bool))) (term : Z) : outcome Z :=
  match xs with
  | [] => Pass term
  | (true, (xterm, _)) :: xs' =>
      if decide (term = -1)%Z then checkTerms_loop xs' xterm
      else if decide (term ≠ xterm) then FatalErr
      else checkTerms_loop xs' term
  | (false, _) :: xs' => checkTerms_loop xs' term
  end.

Definition checkTerms (connected : list bool) (states : list (Z * bool)) : outcome Z :=
  checkTerms_loop (zip connected states) (-1).

Fixpoint checkNoLeader_loop (xs : list (bool * (Z * bool))) : outcome unit :=
  match xs with
  | [] => Pass tt
  | (true, (_, true)) :: _ => FatalErr
  | _ :: xs' => checkNoLeader_loop xs'
  end.

Definition checkNoLeader (connected : list bool) (states : list (Z * bool)) : outcome unit :=
  checkNoLeader_loop (zip connected states).

(** ** Agreement on a command *)

(** [wait]: [polls] is the state of the harness and the terms of the servers at each of
    the thirty iterations, [final] the state after them. *)
Inductive waited := Decided (cmd : V) | MovedOn.

Fixpoint wait (polls : list (config * list Z)) (final : config) (index : Z) (n : nat)
    (startTerm : Z) : outcome waited :=
  let finish cfg :=
    match nCommitted cfg index with
    | Pass (nd, cmd) => if decide (nd < n) then FatalErr else Pass (Decided cmd)
    | FatalErr => FatalErr
    | PanicErr => PanicErr
    end in
  match polls with
  | [] => finish final
  | (cfg, terms) :: polls' =>
      match nCommitted cfg index with
      | Pass (nd, _) =>
          if decide (n ≤ nd) then finish cfg
          else if bool_decide (-1 < startTerm)%Z && bool_decide (Exists (λ t, startTerm < t)%Z terms)
          then Pass MovedOn
          else wait polls' final index n startTerm
      | FatalErr => FatalErr
      | PanicErr => PanicErr
      end
  end.

(** The inner loop of [one] over the servers: [start s] is what server [s] answers, or
    [None] if it is not connected; returns [starts] and [index]. *)
Fixpoint try_servers (k n starts : nat) (start : nat -> option (Z * bool)) : nat * Z :=
  match k with
  | O => (starts, (-1)%Z)
  | S k =>
      let starts := (starts + 1) mod n in
      match start starts with
      | Some (index1, true) => (starts, index1)
      | _ => try_servers k n starts start
      end
  end.

(** Two seconds of polling. *)
Fixpoint poll (polls : list config) (index : Z) (expected : nat) (cmd : V) : outcome bool :=
  match polls with
  | [] => Pass false
  | cfg :: polls' =>
      match nCommitted cfg index with
      | Pass (nd, cmd1) =>
          if decide (0 < nd ∧ expected ≤ nd ∧ cmd1 = cmd) then Pass true
          else poll polls' index expected cmd
      | FatalErr => FatalErr
      | PanicErr => PanicErr
      end
  end.

(** [one]: a round is what the servers answer to [Start] and the states polled after it;
    the list ends when ten seconds are over or the test is finished. *)
Fixpoint one (n : nat) (rounds : list ((nat -> option (Z * bool)) * list config))
    (finished : bool) (cmd : V) (expected : nat) (retry : bool) (starts : nat) : outcome Z :=
  match rounds with
  | [] => if finished then Pass (-1)%Z else FatalErr
  | (start, polls) :: rounds' =>
      let '(starts', index) := try_servers n n starts start in
      if decide (index = -1)%Z then one n rounds' finished cmd expected retry starts'
      else
        match poll polls index expected cmd with
        | Pass true => Pass index
        | Pass false =>
            if retry then one n rounds' finished cmd expected retry starts' else FatalErr
        | FatalErr => FatalErr
        | PanicErr => PanicErr
        end
  end.

(** ** Correctness of the appliers *)

(** No two servers have applied different commands at an index. *)
Definition agree (ls : list (gmap Z V)) : Prop :=
  forall j k lj lk index v w, ls !! j = Some lj -> ls !! k = Some lk ->
    lj !! index = Some v -> lk !! index = Some w -> v = w.

(** Every server has applied without gaps. *)
Definition gap_free (ls : list (gmap Z V)) : Prop :=
  forall j lj index, ls !! j = Some lj -> is_Some (lj !! index) -> (1 < index)%Z ->
    is_Some (lj !! (index - 1)%Z).

Lemma mismatch_none ls j index v err :
  mismatch ls j index v err = None <->
  err = None ∧ forall l w, l ∈ ls -> l !! index = Some w -> w = v.
Proof.
  revert j err. induction ls as [|l ls IH]; intros j err; simpl.
  { split; [|by intros [? _]]. intros ->. split; [done|]. intros l w Hl. by apply elem_of_nil in Hl. }
  rewrite IH. destruct (l !! index) as [old|] eqn:Hl.
  - case_decide as Hv.
    + split; [by intros [? _]|]. intros [_ Hall]. destruct Hv. apply (Hall l old); [left|done].
    + subst old. split; intros [-> Hall]; (split; [done|]).
      * intros l' w [->|Hin]%elem_of_cons Hw; [congruence|by eapply Hall].
      * intros l' w Hin. apply Hall. by right.
  - split; intros [-> Hall]; (split; [done|]).
    + intros l' w [->|Hin]%elem_of_cons Hw; [congruence|by eapply Hall].
    + intros l' w Hin. apply Hall. by right.
Qed.

(** [applier] goes on exactly when no server has another command at the index and the
    server has applied the previous one. *)
Lemma applier_accepts cfg i m li :
  logs cfg !! i = Some li -> CommandValid m = true ->
  (∃ cfg', applier cfg i m = Pass cfg') <->
  ((forall l w, l ∈ logs cfg -> l !! CommandIndex m = Some w -> w = Command m) ∧
   ((1 < CommandIndex m)%Z -> is_Some (li !! (CommandIndex m - 1)%Z))).
Proof.
  intros Hi Hv. unfold applier, checkLogs. rewrite Hv, Hi. simpl.
  pose proof (mismatch_none (logs cfg) 0 (CommandIndex m) (Command m) None) as Hmis.
  destruct (bool_decide (1 < CommandIndex m)%Z) eqn:H1; simpl.
  - apply bool_decide_eq_true in H1.
    case_bool_decide as Hp; simpl.
    + destruct (mismatch _ _ _ _ _) as [e|].
      * split; [by intros [? ?]|]. intros [Hall _].
        assert (Some e = None) by (by apply Hmis). done.
      * destruct Hmis as [[_ Hall] _]; [done|]. split; [done|]. intros _. by eexists.
    + split; [by intros [? ?]|]. intros [_ Hprev]. by destruct Hp; apply Hprev.
  - apply bool_decide_eq_false in H1. destruct (mismatch _ _ _ _ _) as [e|].
    + split; [by intros [? ?]|]. intros [Hall _].
      assert (Some e = None) by (by apply Hmis). done.
    + destruct Hmis as [[_ Hall] _]; [done|]. split; [done|]. intros _. by eexists.
Qed.

Lemma applier_pass_inv cfg i m cfg' :
  applier cfg i m = Pass cfg' -> CommandValid m = true ->
  ∃ li, logs cfg !! i = Some li ∧
    logs cfg' = <[i := <[CommandIndex m := Command m]> li]> (logs cfg).
Proof.
  unfold applier, checkLogs. intros Ha Hv. rewrite Hv in Ha.
  destruct (logs cfg !! i) as [li|] eqn:Hi; [|done]. simpl in Ha.
  exists li. split; [done|]. destruct (_ && _); [done|].
  destruct (mismatch _ _ _ _ _); [done|]. by simplify_eq.
Qed.

Lemma applier_inv cfg i m cfg' :
  agree (logs cfg) -> gap_free (logs cfg) -> applier cfg i m = Pass cfg' ->
  agree (logs cfg') ∧ gap_free (logs cfg').
Proof.
  intros Hag Hgf Ha. destruct (CommandValid m) eqn:Hv.
  2: { unfold applier in Ha. rewrite Hv in Ha. by simplify_eq. }
  destruct (applier_pass_inv _ _ _ _ Ha Hv) as (li & Hi & Hlogs).
  destruct (proj1 (applier_accepts cfg i m li Hi Hv)) as [Hall Hprev]; [by eexists|].
  rewrite Hlogs. clear Hlogs.
  assert (Hnew : forall j lj index v,
    <[i := <[CommandIndex m := Command m]> li]> (logs cfg) !! j = Some lj ->
    lj !! index = Some v ->
    (index = CommandIndex m ∧ v = Command m) ∨
    (∃ l, l ∈ logs cfg ∧ l !! index = Some v ∧ logs cfg !! j = Some l)).
  { intros j lj index v [[-> [<- _]]|[_ Hj]]%list_lookup_insert_Some Hx.
    - apply lookup_insert_Some in Hx as [[<- <-]|[_ Hx]]; [by left|]. right. exists li.
      split_and!; [by eapply list_elem_of_lookup_2|done..].
    - right. exists lj. split_and!; [by eapply list_elem_of_lookup_2|done..]. }
  split.
  - intros j k lj lk index v w Hj Hk Hv1 Hv2.
    destruct (Hnew _ _ _ _ Hj Hv1) as [[-> ->]|(l & Hl & Hlv & Hlj)];
      destruct (Hnew _ _ _ _ Hk Hv2) as [[Hidx ->]|(l' & Hl' & Hlw & Hlk)]; [done| | |].
    + symmetry. by eapply Hall.
    + subst index. by eapply Hall.
    + by apply (Hag j k l l' index).
  - intros j lj index [[-> [<- _]]|[_ Hj]]%list_lookup_insert_Some Hx Hlt;
      [|by apply (Hgf j lj index)].
    apply lookup_insert_is_Some. destruct (decide (CommandIndex m = index - 1)%Z); [by left|].
    right. split; [done|]. apply lookup_insert_is_Some in Hx as [<-|[_ Hx]]; [by apply Hprev|].
    by apply (Hgf j li index).
Qed.

(** Messages from the appliers of all the servers, in the order in which they take the
    lock. *)
Fixpoint apply_all (cfg : config) (ms : list (nat * ApplyMsg)) : outcome config :=
  match ms with
  | [] => Pass cfg
  | (i, m) :: ms' =>
      match applier cfg i m with
      | Pass cfg' => apply_all cfg' ms'
      | FatalErr => FatalErr
      | PanicErr => PanicErr
      end
  end.

Lemma initial_inv n : agree (logs (initial n)) ∧ gap_free (logs (initial n)).
Proof.
  split.
  - intros j k lj lk index v w Hj _ Hv. simpl in Hj.
    apply lookup_replicate in Hj as [-> _]. by rewrite lookup_empty in Hv.
  - intros j lj index Hj Hv. simpl in Hj. apply lookup_replicate in Hj as [-> _].
    rewrite lookup_empty in Hv. by destruct Hv.
Qed.

Lemma apply_all_inv cfg ms cfg' :
  agree (logs cfg) -> gap_free (logs cfg) -> apply_all cfg ms = Pass cfg' ->
  agree (logs cfg') ∧ gap_free (logs cfg').
Proof.
  revert cfg. induction ms as [|[i m] ms IH]; intros cfg Hag Hgf Ha; simpl in Ha.
  { by simplify_eq. }
  destruct (applier cfg i m) as [cfg1| |] eqn:Hap; [|done..].
  destruct (applier_inv _ _ _ _ Hag Hgf Hap). by eapply IH.
Qed.

(** ** [nCommitted] *)

Definition committed_by (ls : list (gmap Z V)) (index : Z) : nat :=
  length (filter (λ l, is_Some (l !! index)) ls).

Lemma nCommitted_loop_spec ls index count cmd :
  (forall l w, l ∈ ls -> l !! index = Some w -> 0 < count -> w = cmd) ->
  (forall l l' v w, l ∈ ls -> l' ∈ ls -> l !! index = Some v -> l' !! index = Some w -> v = w) ->
  ∃ cmd', nCommitted_loop ls index count cmd = Pass (count + committed_by ls index, cmd') ∧
    (forall l w, l ∈ ls -> l !! index = Some w -> cmd' = w) ∧
    (committed_by ls index = 0 -> cmd' = cmd).
Proof.
  revert count cmd. induction ls as [|l ls IH]; intros count cmd Hc Hag; simpl.
  { exists cmd. unfold committed_by. rewrite filter_nil. simpl. rewrite Nat.add_0_r.
    split_and!; [done| |done]. intros l w Hl. by apply elem_of_nil in Hl. }
  unfold committed_by. rewrite filter_cons.
  destruct (l !! index) as [cmd1|] eqn:Hl.
  - rewrite decide_False.
    2: { intros [Hpos Hne]. apply Hne. symmetry. by eapply Hc; [left|..]. }
    destruct (IH (S count) cmd1) as (cmd' & Hr & Hall & Hz).
    { intros l' w Hin Hw _. eapply (Hag l' l); [by right|left|done|done]. }
    { intros l1 l2 v w H1 H2. apply Hag; by right. }
    exists cmd'. rewrite Hr. rewrite decide_True by eauto. simpl. split_and!.
    + f_equal. f_equal. unfold committed_by. lia.
    + intros l' w [->|Hin]%elem_of_cons Hw; [|by eapply Hall].
      rewrite Hl in Hw. simplify_eq.
      destruct (decide (committed_by ls index = 0)) as [E|E]; [by apply Hz|].
      assert (Hex : ∃ l', l' ∈ filter (λ l, is_Some (l !! index)) ls).
      { unfold committed_by in E. destruct (filter _ ls) as [|x xs]; [done|]. exists x. left. }
      destruct Hex as (l' & [[w' Hw'] Hin']%list_elem_of_filter).
      rewrite (Hall l' w' Hin' Hw'). eapply (Hag l' l); [by right|left|done|done].
    + done.
  - rewrite decide_False by (by intros [? ?]).
    destruct (IH count cmd) as (cmd' & Hr & Hall & Hz).
    { intros l' w Hin. apply Hc. by right. }
    { intros l1 l2 v w H1 H2. apply Hag; by right. }
    exists cmd'. split_and!; [done| |done].
    intros l' w [->|Hin]%elem_of_cons Hw; [congruence|by eapply Hall].
Qed.

Lemma nCommitted_spec cfg index :
  agree (logs cfg) ->
  ∃ cmd, nCommitted cfg index = Pass (committed_by (logs cfg) index, cmd) ∧
    (forall l w, l ∈ logs cfg -> l !! index = Some w -> cmd = w) ∧
    (committed_by (logs cfg) index = 0 -> cmd = vnil).
Proof.
  intros Hag. apply (nCommitted_loop_spec (logs cfg) index 0 vnil); [lia|].
  intros l l' v w [j Hj]%list_elem_of_lookup [k Hk]%list_elem_of_lookup Hv Hw.
  by apply (Hag j k l l' index).
Qed.

(** A positive answer of [nCommitted] is about that many servers, also when they do not
    all agree. *)
Lemma nCommitted_loop_sound ls index count cmd nd cmd' :
  nCommitted_loop ls index count cmd = Pass (nd, cmd') ->
  nd = count + committed_by ls index ∧
  (count < nd -> forall l w, l ∈ ls -> l !! index = Some w -> w = cmd') ∧
  (0 < count -> cmd' = cmd).
Proof.
  revert count cmd. induction ls as [|l ls IH]; intros count cmd Hr; simpl in Hr.
  { simplify_eq. unfold committed_by. rewrite filter_nil. simpl. split_and!; [lia|lia|done]. }
  unfold committed_by. rewrite filter_cons.
  destruct (l !! index) as [cmd1|] eqn:Hl.
  - case_decide as Hd; [done|]. apply IH in Hr as (Hnd & Hall & Hc).
    rewrite decide_True by eauto. simpl. unfold committed_by in Hnd.
    assert (Hc1 : cmd' = cmd1) by (apply Hc; lia). split_and!; [lia| |].
    + intros _ l' w [->|Hin]%elem_of_cons Hw; [congruence|].
      destruct (decide (S count < nd)) as [Hlt|Hge]; [by eapply Hall|].
      assert (Hz : filter (λ l, is_Some (l !! index)) ls = []) by (apply nil_length_inv; lia).
      assert (Hin' : l' ∈ filter (λ l, is_Some (l !! index)) ls)
        by (apply list_elem_of_filter; eauto).
      rewrite Hz in Hin'. by apply elem_of_nil in Hin'.
    + intros Hpos. rewrite Hc1. destruct (decide (cmd = cmd1)); [done|]. by destruct Hd.
  - apply IH in Hr as (Hnd & Hall & Hc). rewrite decide_False by (by intros [? ?]).
    split_and!; [done| |done]. intros Hlt l' w [->|Hin]%elem_of_cons Hw; [congruence|].
    by eapply Hall.
Qed.

End Checker.

(** ** Leaders *)
Section Leaders.

(** Server [i] is connected and claims to lead term [t]. *)
Definition leads (connected : list bool) (states : list (Z * bool)) (i : nat) (t : Z) : Prop :=
  zip connected states !! i = Some (true, (t, true)).

Definition leader_step (leaders : gmap Z (list nat)) (x : nat * (bool * (Z * bool))) :
    gmap Z (list nat) :=
  match x with
  | (i, (true, (term, true))) => <[term := default [] (leaders !! term) ++ [i]]> leaders
  | _ => leaders
  end.

Lemma leaders_fold xs (m : gmap Z (list nat)) t :
  default [] (foldl leader_step m xs !! t) =
    default [] (m !! t) ++ (fst <$> filter (λ x, x.2 = (true, (t, true))) xs) ∧
  (is_Some (foldl leader_step m xs !! t) <->
   is_Some (m !! t) ∨ filter (λ x, x.2 = (true, (t, true))) xs ≠ []).
Proof.
  revert m. induction xs as [|[i [c [t' b]]] xs IH]; intros m.
  { rewrite filter_nil, app_nil_r. simpl. split; [done|]. naive_solver. }
  cbn [foldl]. rewrite filter_cons. destruct (IH (leader_step m (i, (c, (t', b))))) as [Hd Hs].
  rewrite Hd, Hs. clear Hd Hs.
  destruct (decide ((i, (c, (t', b))).2 = (true, (t, true)))) as [Hx|Hx]; simpl in *.
  - simplify_eq. rewrite lookup_insert_eq. simpl. rewrite <- app_assoc.
    split; [done|]. split; [by right|]. intros _. left. by eexists.
  - destruct c, b; try (split; [done|done]). rewrite lookup_insert_ne by congruence. done.
Qed.

Lemma collect_leaders_spec connected states t :
  match collect_leaders connected states !! t with
  | Some l => l ≠ [] ∧ NoDup l ∧ forall i, i ∈ l <-> leads connected states i t
  | None => forall i, ¬ leads connected states i t
  end.
Proof.
  unfold collect_leaders, leads. set (xs := imap (λ i x, (i, x)) (zip connected states)).
  change (foldl _ ∅ xs) with (foldl leader_step ∅ xs).
  destruct (leaders_fold xs ∅ t) as [Hd Hs]. rewrite lookup_empty in Hd, Hs. simpl in Hd.
  set (l := fst <$> filter (λ x, x.2 = (true, (t, true))) xs) in *.
  assert (Hin : forall i, i ∈ l <-> zip connected states !! i = Some (true, (t, true))).
  { intros i. unfold l. rewrite list_elem_of_fmap. split.
    - intros ([j x] & -> & [Hx Hj]%list_elem_of_filter). simpl in *. subst x.
      apply list_elem_of_lookup in Hj as [k Hk]. unfold xs in Hk. rewrite list_lookup_imap in Hk.
      destruct (zip connected states !! k) eqn:E; simplify_eq/=. done.
    - intros Hi. exists (i, (true, (t, true))). split; [done|]. apply list_elem_of_filter.
      split; [done|]. apply list_elem_of_lookup. exists i. unfold xs.
      by rewrite list_lookup_imap, Hi. }
  destruct (foldl leader_step ∅ xs !! t) as [l'|] eqn:E; simpl in Hd.
  - subst l'. split_and!; [|..|done].
    + destruct Hs as [[H1|H1] _]; [by eexists|by destruct H1|].
      unfold l. intros E'%fmap_nil_inv. done.
    + unfold l. assert (Hnd : NoDup (xs.*1)).
      { unfold xs. rewrite fmap_imap. simpl.
        assert (Hseq : imap (λ (n : nat) (_ : bool * (Z * bool)), n) (zip connected states)
          = seq 0 (length (zip connected states))).
        { apply list_eq. intros k. rewrite list_lookup_imap.
          destruct (zip connected states !! k) as [y|] eqn:Hy.
          - apply lookup_lt_Some in Hy. simpl. symmetry. by apply lookup_seq_lt.
          - apply lookup_ge_None in Hy. simpl. symmetry. by apply lookup_seq_ge. }
        change (NoDup (imap (λ (n : nat) (_ : bool * (Z * bool)), n) (zip connected states))).
        rewrite Hseq. apply NoDup_seq. }
      apply NoDup_fmap_2_strong; [|by eapply NoDup_filter, NoDup_fmap_1].
      intros [i x] [j y] [Hx _]%list_elem_of_filter [Hy _]%list_elem_of_filter Hij.
      simpl in *. congruence.
  - intros i Hi. apply Hin in Hi. rewrite <- Hd in Hi. by apply elem_of_nil in Hi.
Qed.

Lemma last_term_max (leaders : gmap Z (list nat)) :
  (forall t, is_Some (leaders !! t) -> (0 <= t)%Z) -> leaders ≠ ∅ ->
  is_Some (leaders !! last_term leaders) ∧
  forall t, is_Some (leaders !! t) -> (t <= last_term leaders)%Z.
Proof.
  intros Hpos Hne. unfold last_term.
  assert (Hl : forall l : list (Z * list nat), (forall x, x ∈ l -> (0 <= x.1)%Z) ->
    let m := foldr (λ x acc, if decide (acc < x.1)%Z then x.1 else acc) (-1)%Z l in
    (forall x, x ∈ l -> (x.1 <= m)%Z) ∧ (l = [] ∧ m = (-1)%Z ∨ ∃ x, x ∈ l ∧ x.1 = m)).
  { induction l as [|x l IH]; intros Hp m.
    - split; [intros x Hx; by apply elem_of_nil in Hx|by left].
    - destruct IH as [Hmax Hex]; [intros y Hy; apply Hp; by right|].
      assert (Hx0 := Hp x ltac:(left)). subst m. simpl. case_decide as Hd.
      + split.
        * intros y [->|Hy]%elem_of_cons; [lia|]. specialize (Hmax y Hy). lia.
        * right. exists x. split; [left|done].
      + split.
        * intros y [->|Hy]%elem_of_cons; [lia|auto].
        * right. destruct Hex as [[_ Hm]|(y & Hy & Hym)]; [lia|].
          exists y. split; [by right|done]. }
  destruct (Hl (map_to_list leaders)) as [Hmax Hex].
  { intros [t l] Hx%elem_of_map_to_list. apply Hpos. by eexists. }
  split.
  - destruct Hex as [[E _]|([t l] & Hx%elem_of_map_to_list & <-)]; [|by eexists].
    by apply map_to_list_empty_iff in E.
  - intros t [l Ht]. apply (Hmax (t, l)). by apply elem_of_map_to_list.
Qed.

Definition terms_ok (states : list (Z * bool)) : Prop := Forall (λ x, 0 <= x.1)%Z states.

Lemma leads_term connected states i t :
  terms_ok states -> leads connected states i t -> (0 <= t)%Z.
Proof.
  intros Ht Hl. unfold leads in Hl. apply lookup_zip_with_Some in Hl as (c & x & Heq & _ & Hx).
  simplify_eq. unfold terms_ok in Ht. rewrite Forall_lookup in Ht. by apply (Ht i (t, true)).
Qed.

(** Nobody claims to lead; two servers claim to lead in one term. *)
Definition silent (connected : list bool) (states : list (Z * bool)) : Prop :=
  forall i t, ¬ leads connected states i t.
Definition clash (connected : list bool) (states : list (Z * bool)) : Prop :=
  ∃ i j t, i ≠ j ∧ leads connected states i t ∧ leads connected states j t.

(** One iteration of [checkOneLeader]. *)
Lemma leader_round_spec connected states :
  terms_ok states ->
  match leader_round connected states with
  | Pass (Some i) => ¬ clash connected states ∧ ∃ t, leads connected states i t ∧
      forall j t', leads connected states j t' -> (t' <= t)%Z
  | Pass None => silent connected states
  | FatalErr => clash connected states
  | PanicErr => False
  end.
Proof.
  intros Ht. unfold leader_round. set (ls := collect_leaders connected states).
  assert (Hspec := collect_leaders_spec connected states). fold ls in Hspec.
  assert (Hdom : forall t, is_Some (ls !! t) -> ∃ i, leads connected states i t).
  { intros t [l Hl]. specialize (Hspec t). rewrite Hl in Hspec.
    destruct Hspec as (Hne & _ & Hin). destruct l as [|i l]; [done|]. exists i. apply Hin. left. }
  destruct (decide (map_Exists (λ _ l, 1 < length l) ls)) as [(t & l & Hl & Hlen)|Hno].
  { specialize (Hspec t). rewrite Hl in Hspec. destruct Hspec as (_ & Hnd & Hin).
    destruct l as [|i [|j l]]; simpl in Hlen; [lia..|]. exists i, j, t.
    apply NoDup_cons in Hnd as [Hij _]. split_and!; [set_solver|apply Hin..]; set_solver. }
  destruct (decide (ls = ∅)) as [He|Hne].
  { intros i t Hl. specialize (Hspec t). rewrite He, lookup_empty in Hspec. by eapply Hspec. }
  destruct (last_term_max ls) as [[l Hl] Hmax].
  { intros t Hs. destruct (Hdom t Hs) as [i Hi]. by eapply leads_term. }
  { done. }
  assert (Hsl := Hspec (last_term ls)). rewrite Hl in Hsl |- *.
  destruct Hsl as (Hnl & _ & Hin). destruct l as [|i l]; [done|].
  split.
  - intros (j & k & t & Hjk & Hj & Hk). specialize (Hspec t). destruct (ls !! t) as [l'|] eqn:El;
      [|by destruct (Hspec j)]. destruct Hspec as (_ & _ & Hin').
    apply Hin' in Hj, Hk. destruct Hno. exists t, l'. split; [done|].
    destruct l' as [|x [|y l']]; simpl; [by apply elem_of_nil in Hj| |lia].
    apply list_elem_of_singleton in Hj, Hk. congruence.
  - exists (last_term ls). split; [apply Hin; left|]. intros j t' Hj. apply Hmax.
    specialize (Hspec t'). destruct (ls !! t'); [by eexists|]. by destruct (Hspec j).
Qed.

Lemma checkTerms_loop_spec xs term :
  (-1 <= term)%Z -> Forall (λ x : bool * (Z * bool), 0 <= x.2.1)%Z xs ->
  match checkTerms_loop xs term with
  | Pass t => (term = t ∨ term = -1)%Z ∧
      (forall x, x ∈ xs -> x.1 = true -> x.2.1 = t) ∧
      (t = term ∨ ∃ x, x ∈ xs ∧ x.1 = true ∧ x.2.1 = t)
  | FatalErr => (∃ x, x ∈ xs ∧ x.1 = true ∧ term ≠ (-1)%Z ∧ x.2.1 ≠ term) ∨
      ∃ x y, x ∈ xs ∧ y ∈ xs ∧ x.1 = true ∧ y.1 = true ∧ x.2.1 ≠ y.2.1
  | PanicErr => False
  end.
Proof.
  intros Hterm Hxs. revert term Hterm.
  induction Hxs as [|[[] [xterm b]] xs Hx _ IH]; intros term Hterm; simpl.
  - split_and!; [by left| |by left]. intros x Hx. by apply elem_of_nil in Hx.
  - simpl in Hx. case_decide as Hm.
    + specialize (IH xterm ltac:(lia)). destruct (checkTerms_loop xs xterm) as [t| |]; [|..|done].
      * destruct IH as ([->|?] & Hall & _); [|lia]. split_and!; [by right| |].
        -- intros x [->|Hin]%elem_of_cons; auto.
        -- right. exists (true, (t, b)). split_and!; [left|done..].
      * right. destruct IH as [(x & Hin & Hx1 & _ & Hne)|(x & y & Hxin & Hyin & ?)].
        -- exists x, (true, (xterm, b)). split_and!; [by right|left|done..].
        -- exists x, y. split_and!; [by right|by right|tauto..].
    + case_decide as Hd.
      * left. exists (true, (xterm, b)). split_and!; [left|done..|]. simpl. congruence.
      * assert (xterm = term) as -> by (by destruct (decide (term = xterm))).
        specialize (IH term Hterm). destruct (checkTerms_loop xs term) as [t| |]; [|..|done].
        -- destruct IH as ([->|?] & Hall & _); [|done]. split_and!; [by left| |by left].
           intros x [->|Hin]%elem_of_cons; auto.
        -- destruct IH as [(x & Hin & ?)|(x & y & Hxin & Hyin & ?)].
           ++ left. exists x. split; [by right|done].
           ++ right. exists x, y. split_and!; [by right|by right|tauto..].
  - specialize (IH term Hterm). destruct (checkTerms_loop xs term) as [t| |]; [|..|done].
    + destruct IH as (H1 & Hall & H2). split_and!; [done| |].
      * intros x [->|Hin]%elem_of_cons; [done|auto].
      * destruct H2 as [?|(x & Hin & ?)]; [by left|]. right. exists x. split; [by right|done].
    + destruct IH as [(x & Hin & ?)|(x & y & Hxin & Hyin & ?)].
      * left. exists x. split; [by right|done].
      * right. exists x, y. split_and!; [by right|by right|tauto..].
Qed.

Lemma checkNoLeader_loop_spec xs :
  checkNoLeader_loop xs = Pass tt <-> forall t, (true, (t, true)) ∉ xs.
Proof.
  induction xs as [|[[] [t []]] xs IH]; simpl.
  - split; [|done]. intros _ t. apply not_elem_of_nil.
  - split; [done|]. intros Hn. destruct (Hn t). left.
  - rewrite IH. split; intros Hn t'; specialize (Hn t'); set_solver.
  - rewrite IH. split; intros Hn t'; specialize (Hn t'); set_solver.
  - rewrite IH. split; intros Hn t'; specialize (Hn t'); set_solver.
Qed.

End Leaders.
End RaftChecker.
Import RaftChecker.

(** C34: with non-negative terms, the first round in which a connected server claims to lead
    decides.  If two of them claim the same term, whichever it is, the test ends; otherwise
    [checkOneLeader] returns the one with the last term.  The test also ends when no round has a
    leader, and nothing panics. *)
Theorem checkOneLeader_correct connected rounds :
  Forall terms_ok rounds ->
  checkOneLeader connected rounds ≠ PanicErr ∧
  (forall i, checkOneLeader connected rounds = Pass i <->
    ∃ before states after t, rounds = before ++ states :: after ∧ Forall (silent connected) before ∧
      ¬ clash connected states ∧ leads connected states i t ∧
      forall j t', leads connected states j t' -> (t' <= t)%Z) ∧
  (checkOneLeader connected rounds = FatalErr <->
    Forall (silent connected) rounds ∨
    ∃ before states after, rounds = before ++ states :: after ∧ Forall (silent connected) before ∧
      clash connected states).
Proof.
  induction 1 as [|states rounds Ht _ (IH1 & IH2 & IH3)]; cbn [checkOneLeader].
  { split_and!; [done| |by split; [left|]].
    intros i. split; [done|]. intros (before & st & after & t & E & _). by destruct before. }
  pose proof (leader_round_spec connected states Ht) as Hr.
  assert (Hsplit : forall before st after, states :: rounds = before ++ st :: after ->
    Forall (silent connected) before -> ¬ silent connected states -> before = [] ∧ st = states).
  { intros [|x before] st after E Hb Hn; injection E as <- _; [done|].
    by apply Forall_cons in Hb as [? _]. }
  destruct (leader_round connected states) as [[i|]| |]; [| | |done].
  - destruct Hr as [Hc (t & Hl & Hmax)].
    assert (Hns : ¬ silent connected states) by (intros Hs; by apply (Hs i t)). split_and!; [done| |].
    + intros k. split.
      * intros [= <-]. by exists [], states, rounds, t.
      * intros (before & st & after & t' & E & Hb & Hc' & Hk & Hmax').
        destruct (Hsplit _ _ _ E Hb Hns) as [-> ->]. assert (t' = t) as ->.
        { pose proof (Hmax _ _ Hk). pose proof (Hmax' _ _ Hl). lia. }
        f_equal. destruct (decide (i = k)) as [?|Hne]; [done|]. destruct Hc. by exists i, k, t.
    + split; [done|]. intros [Hs|(before & st & after & E & Hb & Hc')].
      * by apply Forall_cons in Hs as [? _].
      * by destruct (Hsplit _ _ _ E Hb Hns) as [-> ->].
  - assert (Hskip : forall P : list (Z * bool) -> Prop, (forall st, P st -> ¬ silent connected st) ->
      (∃ before st after, states :: rounds = before ++ st :: after ∧ Forall (silent connected) before ∧ P st) <->
      ∃ before st after, rounds = before ++ st :: after ∧ Forall (silent connected) before ∧ P st).
    { intros P HP. split.
      - intros ([|x before] & st & after & E & Hb & Hst); injection E as <- E'.
        + by destruct (HP _ Hst).
        + apply Forall_cons in Hb as [_ Hb]. by exists before, st, after.
      - intros (before & st & after & E & Hb & Hst). exists (states :: before), st, after.
        split_and!; [by rewrite E|by constructor|done]. }
    split_and!; [done| |].
    + intros i. rewrite IH2.
      specialize (Hskip (λ st, ¬ clash connected st ∧ ∃ t, leads connected st i t ∧
        forall j t', leads connected st j t' -> (t' <= t)%Z)).
      split.
      * intros (before & st & after & t & E & Hb & Hc & Hl & Hm).
        destruct (proj2 (Hskip ltac:(intros ? (_ & ? & Hx & _) Hs; by eapply Hs)))
          as (b' & st' & a' & E' & Hb' & Hc' & t' & Hl' & Hm'); [naive_solver|].
        by exists b', st', a', t'.
      * intros (before & st & after & t & E & Hb & Hc & Hl & Hm).
        destruct (proj1 (Hskip ltac:(intros ? (_ & ? & Hx & _) Hs; by eapply Hs)))
          as (b' & st' & a' & E' & Hb' & Hc' & t' & Hl' & Hm'); [naive_solver|].
        by exists b', st', a', t'.
    + rewrite IH3, Forall_cons.
      rewrite (Hskip (clash connected)) by (intros st (i & j & t & _ & Hi & _) Hs; by eapply Hs).
      tauto.
  - assert (Hns : ¬ silent connected states).
    { destruct Hr as (i & j & t & _ & Hi & _). intros Hs. by eapply Hs. }
    split_and!; [done| |].
    + intros i. split; [done|]. intros (before & st & after & t & E & Hb & Hc & _).
      by destruct (Hsplit _ _ _ E Hb Hns) as [-> ->].
    + split; [intros _; right|done]. by exists [], states, rounds.
Qed.

(** With non-negative terms, [checkTerms] passes exactly when the connected servers have
    one term (which it returns, or -1 when none is connected), and [checkNoLeader] exactly
    when none of them claims to lead. *)
Theorem checkTerms_checkNoLeader connected states :
  terms_ok states ->
  match checkTerms connected states with
  | Pass t => (forall x, x ∈ zip connected states -> x.1 = true -> x.2.1 = t) ∧
      (t = (-1)%Z ∨ ∃ x, x ∈ zip connected states ∧ x.1 = true)
  | FatalErr => ∃ x y, x ∈ zip connected states ∧ y ∈ zip connected states ∧
      x.1 = true ∧ y.1 = true ∧ x.2.1 ≠ y.2.1
  | PanicErr => False
  end ∧
  (checkNoLeader connected states = Pass tt <-> forall i t, ¬ leads connected states i t).
Proof.
  intros Ht. split.
  - assert (Hz : Forall (λ x : bool * (Z * bool), 0 <= x.2.1)%Z (zip connected states)).
    { apply Forall_forall. intros x [i Hi]%list_elem_of_lookup.
      apply lookup_zip_with_Some in Hi as (c & y & -> & _ & Hy). simpl.
      unfold terms_ok in Ht. rewrite Forall_lookup in Ht. by eapply Ht. }
    pose proof (checkTerms_loop_spec (zip connected states) (-1)%Z ltac:(lia) Hz) as Hs.
    unfold checkTerms. destruct (checkTerms_loop _ _) as [t| |]; [|..|done].
    + destruct Hs as (_ & Hall & [->|(x & Hx & Hc & _)]); eauto.
    + by destruct Hs as [(x & _ & _ & ? & _)|Hs].
  - unfold checkNoLeader. rewrite checkNoLeader_loop_spec. unfold leads. split.
    + intros Hn i t Hi. by apply (Hn t), (list_elem_of_lookup_2 _ i).
    + intros Hn t [i Hi]%list_elem_of_lookup. by apply (Hn i t).
Qed.

Section Theorems.
Context {V : Type} `{!EqDecision V} (vnil : V).
Context {Bytes : Type} (encode_snap : Z * list V -> Bytes) (decode_snap : Bytes -> option (Z * list V)).
Abbreviation ApplyMsg := (@ApplyMsg V Bytes).

(** As long as no applier has ended the test, whatever the order in which the servers
    apply: no two servers have applied different commands at an index, no server has
    skipped an index, and [nCommitted] returns how many servers have applied an index
    and the command that they all applied. *)
Theorem applier_agreement n (ms : list (nat * ApplyMsg)) cfg :
  apply_all (initial n) ms = Pass cfg ->
  agree (logs cfg) ∧ gap_free (logs cfg) ∧
  forall index, ∃ cmd,
    nCommitted vnil cfg index = Pass (committed_by (logs cfg) index, cmd) ∧
    forall l w, l ∈ logs cfg -> l !! index = Some w -> cmd = w.
Proof.
  intros Ha. destruct (initial_inv (V := V) n) as [H1 H2].
  destruct (apply_all_inv _ _ _ H1 H2 Ha) as [Hag Hgf]. split_and!; [done..|].
  intros index. destruct (nCommitted_spec vnil cfg index Hag) as (cmd & ? & ? & _). eauto.
Qed.

(** C11: [applier] ends the test on a command exactly when some server has applied another
    command at its index, or the index is not the first one and its server has not applied the
    one before it. *)
Theorem applier_exact (cfg : config) i (m : ApplyMsg) li :
  logs cfg !! i = Some li -> CommandValid m = true ->
  (∃ cfg', applier cfg i m = Pass cfg') <->
  ((forall l w, l ∈ logs cfg -> l !! CommandIndex m = Some w -> w = Command m) ∧
   ((1 < CommandIndex m)%Z -> is_Some (li !! (CommandIndex m - 1)%Z))).
Proof. apply applier_accepts. Qed.

Lemma log_of_list_lookup (xlog : list V) (j : Z) :
  log_of_list xlog !! j = if decide (0 <= j)%Z then xlog !! Z.to_nat j else None.
Proof.
  unfold log_of_list.
  assert (Hg : forall (xs : list V) (k : nat) (j : Z),
    (list_to_map (imap (λ i v, (Z.of_nat (k + i), v)) xs) : gmap Z V) !! j =
    if decide (Z.of_nat k <= j)%Z then xs !! (Z.to_nat j - k) else None).
  { induction xs as [|x xs IH]; intros k j'; simpl.
    - rewrite lookup_empty. by case_decide; rewrite ?lookup_nil.
    - rewrite Nat.add_0_r. destruct (decide (j' = Z.of_nat k)) as [->|Hne].
      + rewrite lookup_insert_eq, decide_True by lia. by rewrite Nat2Z.id, Nat.sub_diag.
      + rewrite lookup_insert_ne by done.
        rewrite (imap_ext _ (λ i v, (Z.of_nat (S k + i), v))).
        2: { intros i y _. simpl. f_equal. lia. }
        rewrite IH. case_decide as H1; case_decide as H2; try lia; [|done].
        destruct (Z.to_nat j' - k) as [|d] eqn:E; [lia|]. simpl. f_equal. lia. }
  etrans; [exact (Hg xlog 0 j)|]. case_decide as H1; case_decide as H2; try lia; [|done].
  by rewrite Nat.sub_0_r.
Qed.

(** C35: a snapshot that [applierSnap] makes, installed by [ingestSnap] on any server,
    gives that server exactly the entries up to the snapshot's index, with the commands of
    the server that made it, and sets [lastApplied] to the index. *)
Theorem snapshot_roundtrip cfg i (m : ApplyMsg) cfg' n b cfg2 k :
  (forall x, decode_snap (encode_snap x) = Some x) ->
  SnapshotValid m = false -> (0 <= CommandIndex m)%Z ->
  applierSnap vnil encode_snap decode_snap cfg i m = Pass (cfg', Some (n, b)) ->
  k < length (logs cfg2) -> k < length (lastApplied cfg2) ->
  ∃ li l cfg3, n = CommandIndex m ∧ logs cfg' !! i = Some li ∧
    ingestSnap decode_snap cfg2 k (Some b) n = Pass cfg3 ∧
    lastApplied cfg3 !! k = Some n ∧ logs cfg3 !! k = Some l ∧
    forall j, l !! j = if decide (0 <= j <= n)%Z then Some (default vnil (li !! j)) else None.
Proof.
  intros Hrt Hsv Hpos Ha Hk1 Hk2. unfold applierSnap in Ha. rewrite Hsv in Ha.
  destruct (CommandValid m); [|done]. destruct (lastApplied cfg !! i) as [last|]; [|done].
  case_decide; [done|]. unfold checkLogs in Ha.
  destruct (logs cfg !! i) as [li0|] eqn:Hi; [|done]. simpl in Ha.
  destruct (_ && _); [done|]. destruct (mismatch _ _ _ _ _); [done|].
  injection Ha as Hcfg Hsnap. subst cfg'. case_decide as Hr; [|done]. injection Hsnap as <- <-.
  apply lookup_lt_Some in Hi as Hlt. rewrite list_lookup_insert_eq by done. simpl.
  set (li := <[CommandIndex m := Command m]> li0).
  eexists li, _, _. split_and!; [done|by rewrite list_lookup_insert_eq| | | |].
  - simpl. rewrite Hrt. rewrite (bool_decide_false (CommandIndex m ≠ CommandIndex m)) by (by intros Hn).
    by rewrite andb_false_r.
  - simpl. by rewrite list_lookup_insert_eq.
  - simpl. by rewrite list_lookup_insert_eq.
  - intros j. rewrite log_of_list_lookup. unfold snap_log. rewrite list_lookup_fmap.
    case_decide as H1; case_decide as H2; try lia; [| |done].
    + rewrite lookup_seqZ_lt by lia. simpl. do 3 f_equal. lia.
    + rewrite lookup_seqZ_ge by lia. done.
Qed.

End Theorems.

Section Agreement.
Context {V : Type} `{!EqDecision V} (vnil : V).

Lemma try_servers_spec k n starts start starts' index :
  try_servers k n starts start = (starts', index) -> index ≠ (-1)%Z ->
  start starts' = Some (index, true).
Proof.
  revert starts. induction k as [|k IH]; intros starts Ht Hne; simpl in Ht; [by simplify_eq|].
  destruct (start ((starts + 1) mod n)) as [[index1 []]|] eqn:Hs; [|by eapply IH..].
  by simplify_eq.
Qed.

Lemma poll_spec polls index expected cmd :
  poll vnil polls index expected cmd = Pass true ->
  ∃ cfg, cfg ∈ polls ∧ expected ≤ committed_by (logs cfg) index ∧
    0 < committed_by (logs cfg) index ∧
    forall l w, l ∈ logs cfg -> l !! index = Some w -> w = cmd.
Proof.
  induction polls as [|cfg polls IH]; simpl; [done|].
  destruct (nCommitted vnil cfg index) as [[nd cmd1]| |] eqn:Hn; [|done..].
  unfold nCommitted in Hn. apply nCommitted_loop_sound in Hn as (Hnd & Hall & _).
  case_decide as Hd.
  - intros _. destruct Hd as (Hp & He & ->). exists cfg. simpl in Hnd. subst nd.
    split_and!; [left|done..|]. intros l w. by apply Hall.
  - intros Hp. destruct (IH Hp) as (c & Hin & ?). exists c. split; [by right|done].
Qed.

(** C36: when [one] returns an index, a server that claimed to be the leader accepted the
    command at that index, and at some poll at least the expected number of servers had
    applied the command there, and no server another one. *)
Theorem one_sound n rounds finished cmd expected retry starts index :
  one vnil n rounds finished cmd expected retry starts = Pass index -> index ≠ (-1)%Z ->
  ∃ start polls s cfg, (start, polls) ∈ rounds ∧ start s = Some (index, true) ∧ cfg ∈ polls ∧
    expected ≤ committed_by (logs cfg) index ∧ 0 < committed_by (logs cfg) index ∧
    forall l w, l ∈ logs cfg -> l !! index = Some w -> w = cmd.
Proof.
  revert starts. induction rounds as [|[start polls] rounds IH]; intros starts Ho Hne; simpl in Ho.
  { destruct finished; by simplify_eq. }
  assert (Hrec : forall starts', one vnil n rounds finished cmd expected retry starts' = Pass index ->
    ∃ start' polls' s cfg, (start', polls') ∈ (start, polls) :: rounds ∧
      start' s = Some (index, true) ∧ cfg ∈ polls' ∧
      expected ≤ committed_by (logs cfg) index ∧ 0 < committed_by (logs cfg) index ∧
      forall l w, l ∈ logs cfg -> l !! index = Some w -> w = cmd).
  { intros st' Hr. destruct (IH st' Hr Hne) as (s' & p' & s & cfg & Hin & ?).
    exists s', p', s, cfg. split; [by right|done]. }
  destruct (try_servers n n starts start) as [starts' idx] eqn:Hts.
  case_decide as Hi; [by eapply Hrec|].
  destruct (poll vnil polls idx expected cmd) as [[]| |] eqn:Hp; [| |done..].
  - simplify_eq. apply poll_spec in Hp as (cfg & ? & ? & ? & ?).
    apply try_servers_spec in Hts; [|done].
    exists start, polls, starts', cfg. split_and!; [left|done..].
  - destruct retry; [by eapply Hrec|done].
Qed.

End Agreement.

(** ** Witnesses *)
Module RaftDemo.

Abbreviation msg := (@ApplyMsg Z unit).
Definition cmd_msg (index v : Z) : msg := MkApplyMsg true v index false None 0 0.

(** Three servers apply the commands 7 and 8 in different orders of arrival. *)
Definition demo_msgs : list (nat * msg) :=
  [(0, cmd_msg 1 7); (1, cmd_msg 1 7); (0, cmd_msg 2 8); (2, cmd_msg 1 7); (2, cmd_msg 2 8)].

Definition demo_cfg : @config Z :=
  match apply_all (initial 3) demo_msgs with Pass cfg => cfg | _ => initial 3 end.

Definition demo_states : list (Z * bool) := [(3, true); (4, true); (4, false)]%Z.

End RaftDemo.
Import RaftDemo.

Lemma applier_agreement_witness :
  agree (logs demo_cfg) ∧ gap_free (logs demo_cfg) ∧
  forall index, ∃ cmd,
    nCommitted 0%Z demo_cfg index = Pass (committed_by (logs demo_cfg) index, cmd) ∧
    forall l w, l ∈ logs demo_cfg -> l !! index = Some w -> cmd = w.
Proof. apply (applier_agreement 0%Z 3 demo_msgs demo_cfg). vm_compute. reflexivity. Defined.

(** Server 1 may apply 8 at index 2. *)
Lemma applier_exact_witness : ∃ cfg', applier demo_cfg 1 (cmd_msg 2 8) = Pass cfg'.
Proof.
  apply (applier_exact demo_cfg 1 (cmd_msg 2 8) {[1%Z := 7%Z]}).
  - vm_compute. reflexivity.
  - reflexivity.
  - split.
    + intros l w [j Hj]%list_elem_of_lookup Hw.
      destruct j as [|[|[|j]]]; vm_compute in Hj; simplify_eq; vm_compute in Hw; by simplify_eq.
    + intros _. vm_compute. by eexists.
Defined.

(** Server 0 applies index 9, which makes a snapshot; server 1 installs it. *)
Definition demo_log : gmap Z Z :=
  list_to_map ((λ j, (j, j * j)%Z) <$> seqZ 1 8).
Definition demo_full : @config Z := Config [demo_log; ∅] [8; 0]%Z 8.

Lemma snapshot_roundtrip_witness :
  ∃ cfg' b li l cfg3,
    applierSnap 0%Z (λ x, x) Some demo_full 0 (MkApplyMsg true 81%Z 9 false None 0 0) =
      Pass (cfg', Some (9%Z, b)) ∧
    (9 = 9)%Z ∧ logs cfg' !! 0 = Some li ∧
    ingestSnap Some demo_full 1 (Some b) 9 = Pass cfg3 ∧
    lastApplied cfg3 !! 1 = Some 9%Z ∧ logs cfg3 !! 1 = Some l ∧
    forall j, l !! j = if decide (0 <= j <= 9)%Z then Some (default 0%Z (li !! j)) else None.
Proof.
  destruct (applierSnap 0%Z (λ x, x) Some demo_full 0 (MkApplyMsg true 81%Z 9 false None 0 0))
    as [[cfg' [[n b]|]]| |] eqn:Ha; [|by vm_compute in Ha..].
  destruct (snapshot_roundtrip 0%Z (λ x, x) Some demo_full 0
    (MkApplyMsg true 81%Z 9 false None 0 0) cfg' n b demo_full 1)
    as (li & l & cfg3 & Hn & Hli & Hi & Hla & Hl & Hj); [done|done|simpl; lia|done|simpl; lia..|].
  simpl in Hn. subst n. by exists cfg', b, li, l, cfg3.
Defined.

Lemma checkOneLeader_correct_witness :
  ∃ before states after t,
    [[(3, false); (3, false); (3, false)]; demo_states]%Z = before ++ states :: after ∧
    Forall (silent [true; true; true]) before ∧ ¬ clash [true; true; true] states ∧
    leads [true; true; true] states 1 t ∧
    forall j t', leads [true; true; true] states j t' -> (t' <= t)%Z.
Proof.
  refine (proj1 (proj1 (proj2 (checkOneLeader_correct [true; true; true]
    [[(3, false); (3, false); (3, false)]; demo_states]%Z _)) 1) _).
  - repeat constructor; simpl; lia.
  - vm_compute. reflexivity.
Defined.

Lemma checkTerms_checkNoLeader_witness :
  ∃ x y, x ∈ zip [true; true; false] demo_states ∧ y ∈ zip [true; true; false] demo_states ∧
    x.1 = true ∧ y.1 = true ∧ x.2.1 ≠ y.2.1.
Proof.
  exact (proj1 (checkTerms_checkNoLeader [true; true; false] demo_states
    ltac:(repeat constructor; simpl; lia))).
Defined.

(** Server 1 is the leader; the second poll sees the command on two servers. *)
Lemma one_sound_witness :
  ∃ start polls s cfg,
    (start, polls) ∈ [((λ s, if decide (s = 1) then Some (2%Z, true) else Some (0%Z, false)),
                       [initial 3; demo_cfg])] ∧
    start s = Some (2%Z, true) ∧ cfg ∈ polls ∧
    2 ≤ committed_by (logs cfg) 2 ∧ 0 < committed_by (logs cfg) 2 ∧
    forall l w, l ∈ logs cfg -> l !! 2%Z = Some w -> w = 8%Z.
Proof.
  apply (one_sound 0%Z 3 _ false 8%Z 2 true 0 2%Z); [vm_compute; reflexivity|lia].
Defined.
