(* ===== verification/Mesh.v ===== *)
(** * The ends between the servers of a test

    Every harness ([raft/config.go], [kvraft/config.go]) gives server [i] a fresh end for
    each server [j], named [endnames[i][j]], and enables or disables these ends to
    connect and disconnect servers.  What is common to them: the names, which belong to
    one pair of servers each, and what a loop of [Enable] does. *)
From S2P Require Import Prelude Labrpc.
Import Labrpc.

(** Ends have strings as names, servers numbers. *)
Abbreviation name := (string + nat)%type.
Abbreviation network := (@Network name _ _).

(** [cfg.endnames]: [nil] until the server is started. *)
Abbreviation endtable := (list (option (list string))).

(** [cfg.endnames[i][j]]; [None] is a panic. *)
Definition ep (t : endtable) (i j : nat) : option string :=
  es ← mjoin (t !! i); es !! j.

(** Is [cfg.endnames[i] != nil]?  [None] when [i] is out of range. *)
Definition started (t : endtable) (i : nat) : option bool :=
  o ← t !! i; Some (bool_decide (is_Some o)).

(** A loop that enables or disables the ends [es]. *)
Definition enable_all (es : list string) (b : bool) (rn : network) : network :=
  foldl (λ rn e, Enable (inl e) b rn) rn es.

(** Names belong to one pair. *)
Definition unique_ends (t : endtable) : Prop :=
  forall i j i' j' e, ep t i j = Some e -> ep t i' j' = Some e -> i = i' ∧ j = j'.

Lemma enable_all_enabled es b rn e :
  is_enabled (enable_all es b rn) (inl e) = if decide (e ∈ es) then b else is_enabled rn (inl e).
Proof.
  unfold enable_all. revert rn. induction es as [|e' es IH]; intros rn; cbn [foldl].
  { by rewrite decide_False by (apply not_elem_of_nil). }
  rewrite IH. unfold is_enabled, Enable. cbn [set_tables enabled].
  destruct (decide (e ∈ es)) as [Hin|Hn].
  - by rewrite decide_True by (by right).
  - destruct (decide (e' = e)) as [->|Hne].
    + rewrite lookup_insert_eq, decide_True by left. done.
    + rewrite lookup_insert_ne by congruence. rewrite decide_False; [done|].
      intros [?|?]%elem_of_cons; [congruence|done].
Qed.

(** The rest of the network does not change. *)
Lemma enable_all_rest es b rn :
  connections (enable_all es b rn) = connections rn ∧
  servers (enable_all es b rn) = servers rn ∧ ends (enable_all es b rn) = ends rn.
Proof.
  unfold enable_all. revert rn. induction es as [|e es IH]; intros rn; simpl; [done|].
  by destruct (IH (Enable (inl e) b rn)) as (-> & -> & ->).
Qed.

Lemma enable_all_done es b rn : done (enable_all es b rn) = done rn.
Proof. unfold enable_all. revert rn. induction es as [|e es IH]; intros rn; simpl; [done|]. by rewrite IH. Qed.

Lemma mapM_total {A B} (f : A -> option B) (l : list A) :
  (forall x, x ∈ l -> is_Some (f x)) -> is_Some (mapM f l).
Proof. intros Hl. apply mapM_is_Some, Forall_forall. done. Qed.

Lemma mapM_elem {A B} (f : A -> option B) (l : list A) (k : list B) y :
  mapM f l = Some k -> y ∈ k <-> ∃ x, x ∈ l ∧ f x = Some y.
Proof.
  intros Hm%mapM_Some. induction Hm as [|x z l k Hx _ IH].
  { split; [intros Hy; by apply elem_of_nil in Hy|]. intros (x & Hx & _). by apply elem_of_nil in Hx. }
  rewrite elem_of_cons, IH. split.
  - intros [->|(x' & ? & ?)]; [exists x; split; [left|done]|exists x'; split; [by right|done]].
  - intros (x' & [->|Hin]%elem_of_cons & Hf); [left; congruence|right; eauto].
Qed.

(** ** Making a fresh set of ends

    [MakeEnd] and [Connect] for each server [j]; [None] is [log.Fatalf] on a name that is
    taken. *)
Fixpoint make_ends (names : list string) (j : nat) (rn : network) : option network :=
  match names with
  | [] => Some rn
  | e :: names' =>
      rn' ← MakeEnd (inl e) rn;
      make_ends names' (S j) (Connect (inl e) (inr j) rn')
  end.

(** Fresh names: distinct and not in use, as random strings are expected to be. *)
Definition fresh_names (names : list string) (rn : network) : Prop :=
  NoDup names ∧ forall e, e ∈ names -> inl e ∉ ends rn.

(** Random strings for the ends of [N] servers. *)
Definition names_ok (N : nat) (namess : list (list string)) : Prop :=
  length namess = N ∧ Forall (λ names, length names = N) namess ∧ NoDup (concat namess).

Lemma make_ends_spec names j rn :
  fresh_names names rn ->
  ∃ rn', make_ends names j rn = Some rn' ∧
    ends rn' = list_to_set (inl <$> names) ∪ ends rn ∧ servers rn' = servers rn ∧
    (forall e, e ∉ names -> is_enabled rn' (inl e) = is_enabled rn (inl e) ∧
       connections rn' !! inl e = connections rn !! inl e) ∧
    (forall k e, names !! k = Some e ->
       is_enabled rn' (inl e) = false ∧ connections rn' !! inl e = Some (Some (inr (j + k)))).
Proof.
  revert j rn. induction names as [|e names IH]; intros j rn [Hnd Hf].
  { exists rn. split_and!; [done|simpl; set_solver|done|done|]. intros k e Hk.
    by rewrite lookup_nil in Hk. }
  apply NoDup_cons in Hnd as [He Hnd]. cbn [make_ends]. unfold MakeEnd.
  rewrite decide_False by (apply Hf; left). simpl.
  set (rn1 := Connect (inl e) (inr j) _).
  destruct (IH (S j) rn1) as (rn' & Hr & Hends & Hsrv & Hold & Hnew).
  { split; [done|]. intros e' He'. unfold rn1. simpl.
    assert (inl e' ∉ ends rn) by (apply Hf; by right).
    assert (e' ≠ e) by (by intros ->). set_solver. }
  exists rn'. split_and!; [done| |done| |].
  - rewrite Hends. unfold rn1. simpl. set_solver.
  - intros e' He'. destruct (Hold e') as [H1 H2]; [set_solver|].
    assert (Hne : (inl e' : name) ≠ inl e) by set_solver. rewrite H1, H2. unfold rn1, is_enabled. simpl.
    by rewrite !lookup_insert_ne by done.
  - intros [|k] e' Hk; simpl in Hk.
    + simplify_eq. destruct (Hold e' He) as [H1 H2]. rewrite H1, H2.
      unfold rn1, is_enabled. simpl. rewrite !lookup_insert_eq, Nat.add_0_r. done.
    + replace (j + S k) with (S j + k) by lia. by apply Hnew.
Qed.

Lemma ep_insert_eq (t : endtable) i names j :
  i < length t -> ep (<[i := Some names]> t) i j = names !! j.
Proof. intros Hi. unfold ep. by rewrite list_lookup_insert_eq. Qed.

Lemma ep_insert_ne (t : endtable) i i' o j : i ≠ i' -> ep (<[i := o]> t) i' j = ep t i' j.
Proof. intros Hi. unfold ep. by rewrite list_lookup_insert_ne. Qed.

(** A fresh row keeps the names unique. *)
Lemma unique_ends_insert t i names :
  unique_ends t -> NoDup names -> i < length t ->
  (forall i' j e, i' ≠ i -> ep t i' j = Some e -> e ∉ names) ->
  unique_ends (<[i := Some names]> t).
Proof.
  intros Hu Hnd Hi Hfresh a b a' b' e Ha Hb.
  destruct (decide (i = a)) as [<-|Hna], (decide (i = a')) as [<-|Hnb].
  - rewrite ep_insert_eq in Ha, Hb by done. split; [done|]. by eapply NoDup_lookup.
  - rewrite ep_insert_eq in Ha by done. rewrite ep_insert_ne in Hb by done.
    destruct (Hfresh a' b' e ltac:(done) Hb). by eapply list_elem_of_lookup_2.
  - rewrite ep_insert_ne in Ha by done. rewrite ep_insert_eq in Hb by done.
    destruct (Hfresh a b e ltac:(done) Ha). by eapply list_elem_of_lookup_2.
  - rewrite ep_insert_ne in Ha, Hb by done. by eapply Hu.
Qed.

(** ** Sizes of logs *)

(** [LogSize] and [SnapshotSize]: the largest of the sizes. *)
Definition max_size (sizes : list nat) : nat :=
  foldl (λ m k, if decide (m < k) then k else m) 0 sizes.

Lemma max_size_spec sizes : forall k, k ∈ sizes -> k ≤ max_size sizes.
Proof.
  assert (Hg : forall l m, m ≤ foldl (λ m k, if decide (m < k) then k else m) m l ∧
    forall k, k ∈ l -> k ≤ foldl (λ m k, if decide (m < k) then k else m) m l).
  { induction l as [|x l IH]; intros m; simpl.
    - split; [done|]. intros k Hk. by apply elem_of_nil in Hk.
    - destruct (IH (if decide (m < x) then x else m)) as [H1 H2].
      split; [case_decide; lia|]. intros k [->|Hk]%elem_of_cons; [case_decide; lia|auto]. }
  intros k Hk. by apply Hg.
Qed.

Lemma max_size_zeros k : max_size (replicate k 0) = 0.
Proof. induction k as [|k IH]; [done|]. exact IH. Qed.

Lemma mapM_all_some {A B} (f : A -> option B) (l : list A) y :
  (forall x, x ∈ l -> f x = Some y) -> mapM f l = Some (replicate (length l) y).
Proof.
  intros Hf. apply mapM_Some. induction l as [|x l IH]; simpl; constructor.
  - apply Hf. left.
  - apply IH. intros x' Hx'. apply Hf. by right.
Qed.
