(* ===== verification/RaftConfig.v ===== *)
(** * Connecting, crashing and starting the servers of [raft/config.go]

    [connect], [disconnect], [crash1] and [start1] on the network of [Labrpc], with the
    instances of Raft that were made and the persisters they write to.  By the theorem of
    [Persister], a persister is a pair of byte strings; [pheap] maps the address of a
    [Persister] object to its content. *)
From S2P Require Import Prelude Labrpc Mesh RaftChecker.
From Stdlib Require Import Strings.Byte.
Import Labrpc.

Module RaftConfig.
Section Config.
Context {V : Type} `{!EqDecision V} (decode_snap : list byte -> option (Z * list V)).

(** What the harness knows of an instance of [Raft] ([Make], [Kill]). *)
Record raft := MkRaft { me : nat; peers : list string; persister : nat; dead : bool }.

Record config := Config {
  net : network;
  n : nat;
  connected : list bool;
  endnames : endtable;
  rafts : list (option nat);
  saved : list (option nat);
  chk : @RaftChecker.config V;      (* [logs], [lastApplied], [maxIndex] *)
  instances : list raft;            (* every instance made so far *)
  pheap : gmap nat (list byte * list byte);
  pnext : nat;
  nservers : nat                    (* the next [*Server] *)
}.

Definition set_net (cfg : config) (rn : network) : config :=
  Config rn (n cfg) (connected cfg) (endnames cfg) (rafts cfg) (saved cfg) (chk cfg)
    (instances cfg) (pheap cfg) (pnext cfg) (nservers cfg).

Definition set_connected (cfg : config) (c : list bool) : config :=
  Config (net cfg) (n cfg) c (endnames cfg) (rafts cfg) (saved cfg) (chk cfg)
    (instances cfg) (pheap cfg) (pnext cfg) (nservers cfg).

Definition servers_where (cfg : config) (f : nat -> bool) : list nat :=
  filter (λ j, f j = true) (seq 0 (n cfg)).

Definition is_connected (cfg : config) (j : nat) : bool :=
  default false (connected cfg !! j).

(** [connect]; [None] is a panic on an index out of range. *)
Definition connect (cfg : config) (i : nat) : option config :=
  _ ← connected cfg !! i;
  let cfg := set_connected cfg (<[i := true]> (connected cfg)) in
  let js := servers_where cfg (is_connected cfg) in
  out ← mapM (λ j, ep (endnames cfg) i j) js;
  inc ← mapM (λ j, ep (endnames cfg) j i) js;
  Some (set_net cfg (enable_all inc true (enable_all out true (net cfg)))).

Definition is_started (cfg : config) (j : nat) : bool :=
  default false (started (endnames cfg) j).

Definition disconnect (cfg : config) (i : nat) : option config :=
  _ ← connected cfg !! i;
  let cfg := set_connected cfg (<[i := false]> (connected cfg)) in
  out ← (if is_started cfg i then mapM (λ j, ep (endnames cfg) i j) (seq 0 (n cfg))
         else Some []);
  inc ← mapM (λ j, ep (endnames cfg) j i) (servers_where cfg (is_started cfg));
  Some (set_net cfg (enable_all inc false (enable_all out false (net cfg)))).

(** [Copy] of a persister, and a new one with the content [c]. *)
Definition new_persister (cfg : config) (i : nat) (c : list byte * list byte) : config :=
  Config (net cfg) (n cfg) (connected cfg) (endnames cfg) (rafts cfg)
    (<[i := Some (pnext cfg)]> (saved cfg)) (chk cfg) (instances cfg)
    (<[pnext cfg := c]> (pheap cfg)) (S (pnext cfg)) (nservers cfg).

Definition saved_content (cfg : config) (i : nat) : option (list byte * list byte) :=
  p ← mjoin (saved cfg !! i); pheap cfg !! p.

Definition copy_saved (cfg : config) (i : nat) : config :=
  match saved_content cfg i with None => cfg | Some c => new_persister cfg i c end.

Definition set_rafts (cfg : config) (rs : list (option nat)) (insts : list raft) : config :=
  Config (net cfg) (n cfg) (connected cfg) (endnames cfg) rs (saved cfg) (chk cfg)
    insts (pheap cfg) (pnext cfg) (nservers cfg).

(** [rf.Kill()] *)
Definition kill (rf : raft) : raft := MkRaft (me rf) (peers rf) (persister rf) true.

Definition kill_instance (cfg : config) (i : nat) : config :=
  match mjoin (rafts cfg !! i) with
  | None => cfg
  | Some k => set_rafts cfg (<[i := None]> (rafts cfg)) (alter kill k (instances cfg))
  end.

Definition crash1 (cfg : config) (i : nat) : option config :=
  cfg ← disconnect cfg i;
  let cfg := set_net cfg (DeleteServer (inr i) (net cfg)) in
  let cfg := copy_saved cfg i in
  let cfg := kill_instance cfg i in
  (* a [Persister{}] into which the bytes that were read are saved *)
  Some (copy_saved cfg i).

Definition set_endnames (cfg : config) (i : nat) (names : list string) (rn : network) : config :=
  Config rn (n cfg) (connected cfg) (<[i := Some names]> (endnames cfg)) (rafts cfg)
    (saved cfg) (chk cfg) (instances cfg) (pheap cfg) (pnext cfg) (nservers cfg).

Definition set_chk (cfg : config) (c : @RaftChecker.config V) : config :=
  Config (net cfg) (n cfg) (connected cfg) (endnames cfg) (rafts cfg) (saved cfg) c
    (instances cfg) (pheap cfg) (pnext cfg) (nservers cfg).

(** [Make] and [AddServer]. *)
Definition add_instance (cfg : config) (i : nat) (rf : raft) : config :=
  Config (AddServer (inr i) (nservers cfg) (net cfg)) (n cfg) (connected cfg) (endnames cfg)
    (<[i := Some (length (instances cfg))]> (rafts cfg)) (saved cfg) (chk cfg)
    (instances cfg ++ [rf]) (pheap cfg) (pnext cfg) (S (nservers cfg)).

(** The copy of the persister, and its snapshot given to [ingestSnap]; [None] is
    [log.Fatalf] or [t.Fatal]. *)
Definition restore (cfg : config) (i : nat) : option config :=
  let reset := set_chk cfg
    (RaftChecker.Config (RaftChecker.logs (chk cfg)) (<[i := 0%Z]> (RaftChecker.lastApplied (chk cfg)))
       (RaftChecker.maxIndex (chk cfg))) in
  match saved_content reset i with
  | None => Some (new_persister reset i ([], []))
  | Some c =>
      let cfg := new_persister reset i c in
      match c.2 with
      | [] => Some cfg
      | snapshot =>
          match RaftChecker.ingestSnap decode_snap (chk cfg) i (Some snapshot) (-1) with
          | RaftChecker.Pass chk' => Some (set_chk cfg chk')
          | _ => None
          end
      end
  end.

(** [names] are the random strings. *)
Definition start1 (cfg : config) (i : nat) (names : list string) : option config :=
  cfg ← crash1 cfg i;
  rn ← make_ends names 0 (net cfg);
  cfg ← restore (set_endnames cfg i names rn) i;
  p ← mjoin (saved cfg !! i);
  Some (add_instance cfg i (MkRaft i names p false)).

(** ** Invariant: the ends between two servers are enabled when both are connected *)

Record mesh_ok (cfg : config) : Prop := {
  m_connected : length (connected cfg) = n cfg;
  m_endnames : length (endnames cfg) = n cfg;
  m_rows : forall i es, endnames cfg !! i = Some (Some es) -> length es = n cfg;
  m_unique : unique_ends (endnames cfg);
  m_started : forall i, connected cfg !! i = Some true -> is_Some (mjoin (endnames cfg !! i));
  m_ends : forall i j e, ep (endnames cfg) i j = Some e ->
    inl e ∈ ends (net cfg) ∧ connections (net cfg) !! inl e = Some (Some (inr j)) ∧
    (is_enabled (net cfg) (inl e) = true <->
     connected cfg !! i = Some true ∧ connected cfg !! j = Some true)
}.

Lemma ep_row cfg i es j : mesh_ok cfg -> endnames cfg !! i = Some (Some es) -> j < n cfg ->
  is_Some (ep (endnames cfg) i j).
Proof.
  intros Hm Hi Hj. unfold ep. rewrite Hi. simpl. apply lookup_lt_is_Some_2.
  by rewrite (m_rows _ Hm i).
Qed.

Lemma ep_index cfg i j e : mesh_ok cfg -> ep (endnames cfg) i j = Some e -> i < n cfg ∧ j < n cfg.
Proof.
  intros Hm He. unfold ep in He.
  destruct (endnames cfg !! i) as [[es|]|] eqn:Hi; simpl in He; [|done..].
  apply lookup_lt_Some in He. rewrite (m_rows _ Hm i) in He by done.
  apply lookup_lt_Some in Hi. by rewrite (m_endnames _ Hm) in Hi.
Qed.

Lemma servers_where_elem cfg f j : j ∈ servers_where cfg f <-> j < n cfg ∧ f j = true.
Proof. unfold servers_where. rewrite list_elem_of_filter, elem_of_seq. naive_solver lia. Qed.

(** The servers that [connect] finds connected: those of the updated array. *)
Lemma connected_servers cfg i j :
  mesh_ok cfg ->
  let cfg1 := set_connected cfg (<[i := true]> (connected cfg)) in
  j ∈ servers_where cfg1 (is_connected cfg1) <-> <[i := true]> (connected cfg) !! j = Some true.
Proof.
  intros Hm cfg1. rewrite servers_where_elem. unfold is_connected. simpl. split.
  - intros [_ Hj]. destruct (<[i:=true]> (connected cfg) !! j) as [[]|]; done.
  - intros Hj. rewrite Hj. split; [|done]. apply lookup_lt_Some in Hj.
    by rewrite length_insert, (m_connected _ Hm) in Hj.
Qed.

(** The result of [connect] in closed form. *)
Lemma connect_mesh cfg i cfg' :
  mesh_ok cfg -> connect cfg i = Some cfg' ->
  mesh_ok cfg' ∧ connected cfg' = <[i := true]> (connected cfg).
Proof.
  intros Hm Hc. unfold connect in Hc.
  destruct (connected cfg !! i) as [b|] eqn:Hb; [|done]. simpl in Hc.
  set (cfg1 := set_connected cfg (<[i := true]> (connected cfg))) in *.
  set (js := servers_where cfg1 (is_connected cfg1)) in *.
  destruct (mapM (λ j, ep (endnames cfg) i j) js) as [out|] eqn:Ho; [|done]. simpl in Hc.
  destruct (mapM (λ j, ep (endnames cfg) j i) js) as [inc|] eqn:Hi; [|done]. simpl in Hc.
  injection Hc as <-. split; [|done]. apply lookup_lt_Some in Hb as Hlt.
  pose proof (fun j => connected_servers cfg i j Hm) as Hjs. fold cfg1 js in Hjs.
  destruct (enable_all_rest inc true (enable_all out true (net cfg))) as (Hcn & _ & Hen).
  destruct (enable_all_rest out true (net cfg)) as (Hcn' & _ & Hen').
  split; simpl.
  - rewrite length_insert. apply (m_connected _ Hm).
  - apply (m_endnames _ Hm).
  - apply (m_rows _ Hm).
  - apply (m_unique _ Hm).
  - intros j [[-> _]|[_ Hj]]%list_lookup_insert_Some; [|by apply (m_started _ Hm)].
    assert (Hin : j ∈ js) by (apply Hjs; by apply list_lookup_insert_eq).
    apply mapM_Some in Ho. destruct (list_elem_of_lookup_1 _ _ Hin) as [x Hx].
    destruct (Forall2_lookup_l _ _ _ _ _ Ho Hx) as (e & _ & He). unfold ep in He.
    by destruct (mjoin (endnames cfg !! j)).
  - intros a b' e He. destruct (m_ends _ Hm a b' e He) as (H1 & H2 & H3).
    rewrite Hen, Hen', Hcn, Hcn'. split_and!; [done..|].
    rewrite !enable_all_enabled.
    pose proof (mapM_elem _ _ _ e Hi) as Hie. pose proof (mapM_elem _ _ _ e Ho) as Hoe.
    destruct (decide (e ∈ inc)) as [(x & Hx & Hex)%Hie|Hn1].
    { destruct (m_unique _ Hm _ _ _ _ _ He Hex) as [-> ->]. split; [|done]. intros _.
      split; [by apply Hjs|]. by apply list_lookup_insert_eq. }
    destruct (decide (e ∈ out)) as [(x & Hx & Hex)%Hoe|Hn2].
    { destruct (m_unique _ Hm _ _ _ _ _ He Hex) as [-> ->]. split; [|done]. intros _.
      split; [by apply list_lookup_insert_eq|by apply Hjs]. }
    rewrite H3. split.
    + assert (Hkeep : forall x, connected cfg !! x = Some true ->
        <[i := true]> (connected cfg) !! x = Some true).
      { intros x Hx. destruct (decide (i = x)) as [<-|Hix];
          [by apply list_lookup_insert_eq|by rewrite list_lookup_insert_ne]. }
      intros [Ha Hb']. auto.
    + intros [Ha Hb']. destruct (decide (i = a)) as [->|Hia].
      { destruct Hn2. apply Hoe. exists b'. split; [by apply Hjs|done]. }
      destruct (decide (i = b')) as [->|Hib].
      { destruct Hn1. apply Hie. exists a. split; [by apply Hjs|done]. }
      by rewrite !list_lookup_insert_ne in Ha, Hb' by done.
Qed.

Lemma is_started_spec cfg j : is_started cfg j = true <-> is_Some (mjoin (endnames cfg !! j)).
Proof.
  unfold is_started, started. destruct (endnames cfg !! j) as [[es|]|]; simpl.
  - split; [by eexists|done].
  - split; [done|by intros []].
  - split; [done|by intros []].
Qed.

Lemma disconnect_mesh cfg i cfg' :
  mesh_ok cfg -> disconnect cfg i = Some cfg' ->
  mesh_ok cfg' ∧ connected cfg' = <[i := false]> (connected cfg) ∧
  endnames cfg' = endnames cfg ∧ ends (net cfg') = ends (net cfg).
Proof.
  intros Hm Hc. unfold disconnect in Hc.
  destruct (connected cfg !! i) as [b|] eqn:Hb; [|done]. simpl in Hc.
  set (cfg1 := set_connected cfg (<[i := false]> (connected cfg))) in *.
  destruct (if is_started cfg1 i then _ else _) as [out|] eqn:Ho; [|done]. simpl in Hc.
  destruct (mapM _ (servers_where _ _)) as [inc|] eqn:Hi; [|done]. simpl in Hc.
  injection Hc as <-. apply lookup_lt_Some in Hb as Hlt.
  destruct (enable_all_rest inc false (enable_all out false (net cfg))) as (Hcn & _ & Hen).
  destruct (enable_all_rest out false (net cfg)) as (Hcn' & _ & Hen').
  split_and!; [|done|done|simpl; by rewrite Hen, Hen'].
  assert (Hfrom : forall j e, ep (endnames cfg) i j = Some e -> e ∈ out).
  { intros j e He. assert (Hst : is_started cfg1 i = true).
    { apply is_started_spec. simpl. unfold ep in He. by destruct (mjoin (endnames cfg !! i)). }
    rewrite Hst in Ho. apply (mapM_elem _ _ _ e Ho). exists j. split; [|done].
    apply elem_of_seq. destruct (ep_index _ _ _ _ Hm He). simpl. lia. }
  assert (Hto : forall j e, ep (endnames cfg) j i = Some e -> e ∈ inc).
  { intros j e He. apply (mapM_elem _ _ _ e Hi). exists j. split; [|done].
    apply servers_where_elem. destruct (ep_index _ _ _ _ Hm He). split; [done|].
    apply is_started_spec. simpl. unfold ep in He. by destruct (mjoin (endnames cfg !! j)). }
  assert (Hout : forall e, e ∈ out -> ∃ j, ep (endnames cfg) i j = Some e).
  { intros e He. destruct (is_started cfg1 i); [|by simplify_eq; apply elem_of_nil in He].
    apply (mapM_elem _ _ _ e Ho) in He as (j & _ & ?). eauto. }
  assert (Hinc : forall e, e ∈ inc -> ∃ j, ep (endnames cfg) j i = Some e).
  { intros e He. apply (mapM_elem _ _ _ e Hi) in He as (j & _ & ?). eauto. }
  split; simpl.
  - rewrite length_insert. apply (m_connected _ Hm).
  - apply (m_endnames _ Hm).
  - apply (m_rows _ Hm).
  - apply (m_unique _ Hm).
  - intros j [[_ [? _]]|[_ Hj]]%list_lookup_insert_Some; [done|by apply (m_started _ Hm)].
  - intros a b' e He. destruct (m_ends _ Hm a b' e He) as (H1 & H2 & H3).
    rewrite Hen, Hen', Hcn, Hcn'. split_and!; [done..|]. rewrite !enable_all_enabled.
    destruct (decide (i = a)) as [->|Hia].
    { rewrite list_lookup_insert_eq by done. specialize (Hfrom b' e He).
      destruct (decide (e ∈ inc)); [by split; [|intros []]|].
      rewrite decide_True by done. by split; [|intros []]. }
    destruct (decide (i = b')) as [->|Hib].
    { rewrite (list_lookup_insert_eq (connected cfg) b') by done.
      rewrite decide_True by (by eapply Hto). by split; [|intros []]. }
    rewrite decide_False.
    2: { intros [j Hj]%Hinc. by destruct (m_unique _ Hm _ _ _ _ _ He Hj). }
    rewrite decide_False.
    2: { intros [j Hj]%Hout. destruct (m_unique _ Hm _ _ _ _ _ He Hj). congruence. }
    by rewrite !list_lookup_insert_ne.
Qed.

(** ** No panics *)

Lemma ep_started cfg i j :
  mesh_ok cfg -> is_Some (mjoin (endnames cfg !! i)) -> j < n cfg ->
  is_Some (ep (endnames cfg) i j).
Proof.
  intros Hm [es Hes] Hj. destruct (endnames cfg !! i) as [[es'|]|] eqn:Hi; simplify_eq/=.
  by eapply ep_row.
Qed.

Lemma connect_total cfg i :
  mesh_ok cfg -> i < n cfg -> is_started cfg i = true -> is_Some (connect cfg i).
Proof.
  intros Hm Hi Hst. unfold connect.
  destruct (lookup_lt_is_Some_2 (connected cfg) i) as [b Hb]; [by rewrite (m_connected _ Hm)|].
  rewrite Hb. simpl. set (cfg1 := set_connected cfg _). apply is_started_spec in Hst.
  assert (Hjs : forall j, j ∈ servers_where cfg1 (is_connected cfg1) ->
    j < n cfg ∧ is_Some (mjoin (endnames cfg !! j))).
  { intros j [Hj Hc]%servers_where_elem. split; [done|]. unfold is_connected in Hc. simpl in Hc.
    destruct (decide (i = j)) as [<-|Hne]; [done|]. rewrite list_lookup_insert_ne in Hc by done.
    apply (m_started _ Hm). by destruct (connected cfg !! j) as [[]|]. }
  destruct (mapM_total (λ j, ep (endnames cfg) i j) (servers_where cfg1 (is_connected cfg1)))
    as [out ->].
  { intros j [Hj _]%Hjs. by apply ep_started. }
  simpl. destruct (mapM_total (λ j, ep (endnames cfg) j i)
    (servers_where cfg1 (is_connected cfg1))) as [inc ->]; [|by eexists].
  intros j [_ Hj]%Hjs. by apply ep_started.
Qed.

Lemma disconnect_total cfg i : mesh_ok cfg -> i < n cfg -> is_Some (disconnect cfg i).
Proof.
  intros Hm Hi. unfold disconnect.
  destruct (lookup_lt_is_Some_2 (connected cfg) i) as [b Hb]; [by rewrite (m_connected _ Hm)|].
  rewrite Hb. simpl. set (cfg1 := set_connected cfg _).
  assert (Hout : ∃ out, (if is_started cfg1 i
    then mapM (λ j, ep (endnames cfg) i j) (seq 0 (n cfg)) else Some []) = Some out).
  { destruct (is_started cfg1 i) eqn:Hst; [|by eexists]. apply is_started_spec in Hst.
    apply mapM_total. intros j [_ Hj]%elem_of_seq. by apply ep_started. }
  destruct Hout as [out ->]. simpl. destruct (mapM_total (λ j, ep (endnames cfg) j i)
    (servers_where cfg1 (is_started cfg1))) as [inc ->]; [|by eexists].
  intros j [_ Hj]%servers_where_elem. apply is_started_spec in Hj. by apply ep_started.
Qed.

(** *** [crash1] and [start1] *)

Lemma mesh_ok_same cfg cfg' :
  n cfg' = n cfg -> connected cfg' = connected cfg -> endnames cfg' = endnames cfg ->
  ends (net cfg') = ends (net cfg) -> enabled (net cfg') = enabled (net cfg) ->
  connections (net cfg') = connections (net cfg) -> mesh_ok cfg -> mesh_ok cfg'.
Proof.
  intros Hn Hc He Hend Hen Hcon [H1 H2 H3 H4 H5 H6].
  split; rewrite ?Hn, ?Hc, ?He; try done. unfold is_enabled. by rewrite Hend, Hen, Hcon.
Qed.

(** The parts of the state that only the persisters depend on. *)
Record store_ok (cfg : config) : Prop := {
  s_heap : forall a, is_Some (pheap cfg !! a) -> a < pnext cfg;
  s_saved : forall i p, saved cfg !! i = Some (Some p) -> is_Some (pheap cfg !! p);
  s_inst : forall k rf, instances cfg !! k = Some rf -> persister rf < pnext cfg;
  s_len : length (saved cfg) = n cfg ∧ length (rafts cfg) = n cfg
}.

Lemma new_persister_store cfg i c :
  store_ok cfg -> store_ok (new_persister cfg i c).
Proof.
  intros [H1 H2 H3 [H4 H5]]. split; simpl.
  - intros a [<-|[_ Ha]]%lookup_insert_is_Some; [lia|]. apply H1 in Ha. lia.
  - intros j p [[_ [[= <-] _]]|[_ Hj]]%list_lookup_insert_Some.
    + rewrite lookup_insert_eq. by eexists.
    + apply H2 in Hj. apply lookup_insert_is_Some. destruct (decide (pnext cfg = p)); auto.
  - intros k rf Hk. apply H3 in Hk. lia.
  - by rewrite length_insert.
Qed.

Lemma new_persister_content cfg i c :
  i < length (saved cfg) -> saved_content (new_persister cfg i c) i = Some c.
Proof.
  intros Hi. unfold saved_content. simpl. rewrite list_lookup_insert_eq by done. simpl.
  by rewrite lookup_insert_eq.
Qed.

Lemma saved_content_none cfg i :
  store_ok cfg -> saved_content cfg i = None -> mjoin (saved cfg !! i) = None.
Proof.
  intros Hs Hn. unfold saved_content in Hn.
  destruct (saved cfg !! i) as [[p|]|] eqn:Hi; simpl in *; [|done..].
  destruct (s_saved _ Hs i p Hi) as [c Hc]. by rewrite Hc in Hn.
Qed.

Lemma copy_saved_store cfg i : store_ok cfg -> store_ok (copy_saved cfg i).
Proof.
  intros Hs. unfold copy_saved. destruct (saved_content cfg i); [|done].
  by apply new_persister_store.
Qed.

Lemma copy_saved_content cfg i :
  store_ok cfg -> i < n cfg -> saved_content (copy_saved cfg i) i = saved_content cfg i.
Proof.
  intros Hs Hi. unfold copy_saved. destruct (saved_content cfg i) as [c|] eqn:Hc; [|done].
  apply new_persister_content. by destruct (s_len _ Hs) as [-> _].
Qed.

(** What [copy_saved] leaves alone. *)
Lemma copy_saved_rest cfg i :
  let cfg' := copy_saved cfg i in
  net cfg' = net cfg ∧ n cfg' = n cfg ∧ connected cfg' = connected cfg ∧
  endnames cfg' = endnames cfg ∧ rafts cfg' = rafts cfg ∧ instances cfg' = instances cfg ∧
  pnext cfg ≤ pnext cfg'.
Proof. unfold copy_saved. destruct (saved_content cfg i); simpl; split_and!; done || lia. Qed.

Lemma kill_instance_rest cfg i :
  let cfg' := kill_instance cfg i in
  net cfg' = net cfg ∧ n cfg' = n cfg ∧ connected cfg' = connected cfg ∧
  endnames cfg' = endnames cfg ∧ saved cfg' = saved cfg ∧ pheap cfg' = pheap cfg ∧
  pnext cfg' = pnext cfg ∧ length (instances cfg') = length (instances cfg) ∧
  (forall k rf, instances cfg' !! k = Some rf ->
     ∃ rf0, instances cfg !! k = Some rf0 ∧ persister rf = persister rf0).
Proof.
  unfold kill_instance. destruct (mjoin (rafts cfg !! i)) as [k0|]; simpl;
    split_and!; try done; [by rewrite length_alter| |by eauto].
  intros k rf Hk. destruct (decide (k0 = k)) as [->|Hne].
  - rewrite list_lookup_alter_eq in Hk. apply fmap_Some in Hk as (rf0 & Hk & ->). by exists rf0.
  - rewrite list_lookup_alter_ne in Hk by done. by exists rf.
Qed.

Lemma kill_instance_store cfg i : store_ok cfg -> store_ok (kill_instance cfg i).
Proof.
  intros Hs. pose proof (kill_instance_rest cfg i) as (_ & Hn & _ & _ & Hsv & Hph & Hpn & _ & Hin).
  destruct Hs as [H1 H2 H3 [H4 H5]]. split.
  - by rewrite Hph, Hpn.
  - by rewrite Hsv, Hph.
  - intros k rf Hk. destruct (Hin k rf Hk) as (rf0 & Hk0 & ->). rewrite Hpn. by eapply H3.
  - rewrite Hsv, Hn. split; [done|]. unfold kill_instance.
    destruct (mjoin (rafts cfg !! i)); simpl; [by rewrite length_insert|done].
Qed.

(** What a crash does. *)
Record crashed_ok (cfg cfg' : config) (i : nat) : Prop := {
  c_mesh : mesh_ok cfg';
  c_store : store_ok cfg';
  c_n : n cfg' = n cfg;
  c_conn : connected cfg' = <[i := false]> (connected cfg);
  c_endn : endnames cfg' = endnames cfg;
  c_ends : ends (net cfg') = ends (net cfg);
  c_content : saved_content cfg' i = saved_content cfg i;
  c_pnext : pnext cfg ≤ pnext cfg';
  c_inst : forall k rf, instances cfg' !! k = Some rf ->
    ∃ rf0, instances cfg !! k = Some rf0 ∧ persister rf = persister rf0;
  c_server : server_at (net cfg') (inr i) = None
}.

Lemma disconnect_rest cfg i cfg' :
  disconnect cfg i = Some cfg' -> n cfg' = n cfg ∧ saved cfg' = saved cfg ∧
  pheap cfg' = pheap cfg ∧ pnext cfg' = pnext cfg ∧ instances cfg' = instances cfg ∧
  rafts cfg' = rafts cfg.
Proof.
  unfold disconnect. destruct (connected cfg !! i); [simpl|done].
  destruct (if is_started _ i then _ else _); [simpl|done].
  destruct (mapM _ _); [simpl|done]. by intros [= <-].
Qed.

Lemma crash1_spec cfg i cfg' :
  mesh_ok cfg -> store_ok cfg -> i < n cfg -> crash1 cfg i = Some cfg' -> crashed_ok cfg cfg' i.
Proof.
  intros Hm Hs Hi Hc. unfold crash1 in Hc.
  destruct (disconnect cfg i) as [cfg1|] eqn:Hd; [|done]. simpl in Hc. injection Hc as <-.
  destruct (disconnect_mesh _ _ _ Hm Hd) as (Hm1 & Hcon1 & Hen1 & Hends1).
  destruct (disconnect_rest _ _ _ Hd) as (Hn1 & Hsv1 & Hph1 & Hpn1 & Hin1 & Hra1).
  set (cfg2 := set_net cfg1 (DeleteServer (inr i) (net cfg1))).
  assert (Hs2 : store_ok cfg2).
  { destruct Hs as [S1 S2 S3 S4]. split; simpl; by rewrite ?Hph1, ?Hpn1, ?Hsv1, ?Hin1, ?Hra1, ?Hn1. }
  pose proof (copy_saved_rest cfg2 i) as (R1 & R2 & R3 & R4 & R5 & R6 & R7).
  set (cfg3 := copy_saved cfg2 i) in *.
  assert (Hs3 : store_ok cfg3) by (by apply copy_saved_store).
  pose proof (kill_instance_rest cfg3 i) as (K1 & K2 & K3 & K4 & K5 & K6 & K7 & K8 & K9).
  set (cfg4 := kill_instance cfg3 i) in *.
  assert (Hs4 : store_ok cfg4) by (by apply kill_instance_store).
  pose proof (copy_saved_rest cfg4 i) as (Q1 & Q2 & Q3 & Q4 & Q5 & Q6 & Q7).
  assert (Hi4 : i < n cfg4) by (rewrite K2, R2; simpl; by rewrite Hn1).
  assert (Hi2 : i < n cfg2) by (simpl; by rewrite Hn1).
  split.
  - eapply (mesh_ok_same cfg1); [..|done]; rewrite ?Q1, ?Q2, ?Q3, ?Q4, ?K1, ?K2, ?K3, ?K4, ?R1, ?R2, ?R3, ?R4; done.
  - by apply copy_saved_store.
  - rewrite Q2, K2, R2. simpl. done.
  - rewrite Q3, K3, R3. simpl. done.
  - rewrite Q4, K4, R4. simpl. done.
  - rewrite Q1, K1, R1. simpl. done.
  - rewrite copy_saved_content by done.
    assert (E : saved_content cfg4 i = saved_content cfg3 i).
    { unfold saved_content. by rewrite K5, K6. }
    rewrite E. unfold cfg3. rewrite copy_saved_content by done.
    unfold saved_content. simpl. by rewrite Hsv1, Hph1.
  - rewrite K7 in Q7. simpl in R7. lia.
  - intros k rf Hk. rewrite Q6 in Hk. destruct (K9 k rf Hk) as (rf0 & Hk0 & Hp).
    rewrite R6 in Hk0. simpl in Hk0. rewrite Hin1 in Hk0. by exists rf0.
  - rewrite Q1, K1, R1. unfold server_at. simpl. by rewrite lookup_insert_eq.
Qed.

Lemma restore_spec cfg i cfg' :
  store_ok cfg -> i < n cfg -> restore cfg i = Some cfg' ->
  net cfg' = net cfg ∧ n cfg' = n cfg ∧ connected cfg' = connected cfg ∧
  endnames cfg' = endnames cfg ∧ instances cfg' = instances cfg ∧ store_ok cfg' ∧
  saved cfg' !! i = Some (Some (pnext cfg)) ∧
  saved_content cfg' i = Some (default ([], []) (saved_content cfg i)).
Proof.
  intros Hs Hi Hr. unfold restore in Hr.
  set (reset := set_chk cfg _) in *.
  assert (Hsr : store_ok reset) by (destruct Hs; by split).
  assert (Hil : i < length (saved reset)) by (destruct (s_len _ Hsr) as [-> _]; done).
  assert (Hgoal : forall c chk', cfg' = set_chk (new_persister reset i c) chk' ->
    saved_content reset i = Some c ∨ (saved_content reset i = None ∧ c = ([], [])) ->
    net cfg' = net cfg ∧ n cfg' = n cfg ∧ connected cfg' = connected cfg ∧
    endnames cfg' = endnames cfg ∧ instances cfg' = instances cfg ∧ store_ok cfg' ∧
    saved cfg' !! i = Some (Some (pnext cfg)) ∧
    saved_content cfg' i = Some (default ([], []) (saved_content cfg i))).
  { intros c chk' -> Hc. split_and!; try done.
    - destruct (new_persister_store reset i c Hsr). by split.
    - simpl. by rewrite list_lookup_insert_eq.
    - change (saved_content (new_persister reset i c) i =
        Some (default ([], []) (saved_content reset i))).
      rewrite new_persister_content by done. by destruct Hc as [-> |[-> ->]]. }
  destruct (saved_content reset i) as [[rs sn]|] eqn:Hc.
  - simpl in Hr. destruct sn as [|b sn].
    + eapply (Hgoal (rs, []) (chk (new_persister reset i (rs, [])))); [|by left].
      injection Hr as <-. done.
    + destruct (decode_snap (b :: sn)) as [[last xlog]|]; [|done].
      eapply (Hgoal (rs, b :: sn)); [|by left]. injection Hr as <-. reflexivity.
  - eapply (Hgoal ([], []) (chk (new_persister reset i ([], [])))); [|by right].
    injection Hr as <-. done.
Qed.

Lemma set_endnames_mesh cfg i names rn :
  mesh_ok cfg -> i < n cfg -> length names = n cfg -> fresh_names names (net cfg) ->
  is_connected cfg i = false -> make_ends names 0 (net cfg) = Some rn ->
  mesh_ok (set_endnames cfg i names rn).
Proof.
  intros Hm Hi Hlen Hf Hcon Hr.
  destruct (make_ends_spec names 0 (net cfg) Hf) as (rn' & Hr' & Hends & _ & Hold & Hnew).
  assert (rn' = rn) as -> by congruence.
  assert (Hil : i < length (endnames cfg)) by (by rewrite (m_endnames _ Hm)).
  assert (Hother : forall i' j e, i' ≠ i -> ep (endnames cfg) i' j = Some e -> e ∉ names).
  { intros i' j e _ He Hin. destruct Hf as [_ Hf]. apply (Hf e Hin).
    by apply (m_ends _ Hm i' j e). }
  split; simpl.
  - apply (m_connected _ Hm).
  - rewrite length_insert. apply (m_endnames _ Hm).
  - intros j es [[_ [[= <-] _]]|[_ Hj]]%list_lookup_insert_Some; [done|].
    by apply (m_rows _ Hm j).
  - apply unique_ends_insert; [apply (m_unique _ Hm)|apply Hf|done|done].
  - intros j Hj. destruct (decide (i = j)) as [<-|Hne].
    + rewrite list_lookup_insert_eq by done. by eexists.
    + rewrite list_lookup_insert_ne by done. by apply (m_started _ Hm).
  - intros a b e He. destruct (decide (i = a)) as [<-|Hne].
    + rewrite ep_insert_eq in He by done. destruct (Hnew b e He) as [H1 H2]. split_and!.
      * rewrite Hends. apply elem_of_union_l, elem_of_list_to_set.
        apply list_elem_of_fmap_2. by eapply list_elem_of_lookup_2.
      * done.
      * rewrite H1. split; [done|]. intros [Hc _]. unfold is_connected in Hcon.
        by rewrite Hc in Hcon.
    + rewrite ep_insert_ne in He by done. destruct (m_ends _ Hm a b e He) as (H1 & H2 & H3).
      destruct (Hold e) as [H4 H5]; [by eapply Hother|].
      rewrite Hends, H5, H4. split_and!; [set_solver|done|done].
Qed.

(** The snapshot of a server, if it has one, can be decoded. *)
Definition snapshot_ok (cfg : config) (i : nat) : Prop :=
  match saved_content cfg i with
  | Some (_, (_ :: _) as snapshot) => is_Some (decode_snap snapshot)
  | _ => True
  end.

Lemma start1_total cfg i names :
  mesh_ok cfg -> store_ok cfg -> i < n cfg -> fresh_names names (net cfg) ->
  snapshot_ok cfg i -> is_Some (start1 cfg i names).
Proof.
  intros Hm Hs Hi Hf Hsn. unfold start1.
  destruct (crash1 cfg i) as [cfg1|] eqn:Hc.
  2: { unfold crash1 in Hc. destruct (disconnect_total cfg i Hm Hi) as [cfg1 Hd].
       by rewrite Hd in Hc. }
  simpl. destruct (crash1_spec _ _ _ Hm Hs Hi Hc) as [M1 S1 N1 C1 E1 D1 T1 P1 I1 V1].
  destruct (make_ends_spec names 0 (net cfg1)) as (rn & -> & _).
  { destruct Hf as [Hnd Hf]. split; [done|]. by rewrite D1. }
  simpl. set (cfg2 := set_endnames cfg1 i names rn).
  assert (Hs2 : store_ok cfg2) by (destruct S1; by split).
  assert (Hi2 : i < n cfg2) by (simpl; by rewrite N1).
  assert (Hr : ∃ cfg3, restore cfg2 i = Some cfg3).
  { unfold restore. change (saved_content _ i) with (saved_content cfg1 i). rewrite T1.
    unfold snapshot_ok in Hsn. destruct (saved_content cfg i) as [[rs [|b sn]]|]; [by eexists| |by eexists].
    simpl. destruct Hsn as [[last xlog] ->]. by eexists. }
  destruct Hr as [cfg3 Hr]. rewrite Hr. simpl.
  destruct (restore_spec _ _ _ Hs2 Hi2 Hr) as (_ & _ & _ & _ & _ & _ & -> & _). by eexists.
Qed.

(** A restart: the invariants, a persister of its own with the content of the old one, and
    a server that no earlier call was sent to. *)
Lemma start1_spec cfg i names cfg' :
  mesh_ok cfg -> store_ok cfg -> i < n cfg -> length names = n cfg ->
  fresh_names names (net cfg) -> start1 cfg i names = Some cfg' ->
  mesh_ok cfg' ∧ store_ok cfg' ∧ is_connected cfg' i = false ∧
  saved_content cfg' i = Some (default ([], []) (saved_content cfg i)) ∧
  ∃ p k, saved cfg' !! i = Some (Some p) ∧ rafts cfg' !! i = Some (Some k) ∧
    instances cfg' !! k = Some (MkRaft i names p false) ∧
    forall k' rf, k' ≠ k -> instances cfg' !! k' = Some rf -> persister rf ≠ p.
Proof.
  intros Hm Hs Hi Hlen Hf Hst. unfold start1 in Hst.
  destruct (crash1 cfg i) as [cfg1|] eqn:Hc; [|done]. simpl in Hst.
  destruct (crash1_spec _ _ _ Hm Hs Hi Hc) as [M1 S1 N1 C1 E1 D1 T1 P1 I1 V1].
  destruct (make_ends names 0 (net cfg1)) as [rn|] eqn:Hr; [|done]. simpl in Hst.
  assert (Hcon1 : is_connected cfg1 i = false).
  { unfold is_connected. rewrite C1, list_lookup_insert_eq; [done|].
    by rewrite (m_connected _ Hm). }
  assert (Hm2 : mesh_ok (set_endnames cfg1 i names rn)).
  { apply set_endnames_mesh; try done; [by rewrite N1|by rewrite N1|].
    destruct Hf as [Hnd Hf]. split; [done|]. by rewrite D1. }
  assert (Hs2 : store_ok (set_endnames cfg1 i names rn)) by (destruct S1; by split).
  destruct (restore (set_endnames cfg1 i names rn) i) as [cfg3|] eqn:Hre; [|done]. simpl in Hst.
  destruct (restore_spec _ _ _ Hs2 ltac:(simpl; by rewrite N1) Hre)
    as (R1 & R2 & R3 & R4 & R5 & S3 & R6 & R7).
  rewrite R6 in Hst. simpl in Hst. injection Hst as <-.
  assert (Hm3 : mesh_ok cfg3).
  { eapply mesh_ok_same; [..|exact Hm2]; rewrite ?R1; done. }
  split_and!.
  - by eapply mesh_ok_same; [..|exact Hm3].
  - destruct S3 as [A1 A2 A3 [A4 A5]]. split; simpl; try done.
    + intros k rf [Hk|[_ Hk]]%lookup_app_Some; [by eapply A3|].
      destruct (k - length (instances cfg3)); [|done]. simplify_eq/=.
      apply (s_heap _ (Build_store_ok _ A1 A2 A3 (conj A4 A5))). by eapply A2.
    + by rewrite length_insert.
  - unfold is_connected in *. simpl. by rewrite R3.
  - change (saved_content cfg3 i = Some (default ([], []) (saved_content cfg i))).
    rewrite R7. change (saved_content (set_endnames cfg1 i names rn) i) with (saved_content cfg1 i).
    by rewrite T1.
  - exists (pnext cfg1), (length (instances cfg3)). split_and!.
    + done.
    + simpl. rewrite list_lookup_insert_eq; [done|].
      destruct (s_len _ S3) as [_ ->]. by rewrite R2; simpl; rewrite N1.
    + simpl. by rewrite lookup_app_r, Nat.sub_diag by lia.
    + simpl. intros k' rf Hne [Hk|[Hge Hk]]%lookup_app_Some.
      * rewrite R5 in Hk. apply (s_inst _ S1) in Hk. lia.
      * destruct (k' - length (instances cfg3)) eqn:E; [lia|done].
Qed.

End Config.
End RaftConfig.
Import RaftConfig.

Section Theorems.
Context {V : Type} `{!EqDecision V} (decode_snap : list byte -> option (Z * list V)).
Abbreviation config := (@config V).
Implicit Types cfg : config.

(** [make_config] before the servers are started. *)
Definition initial_config (n : nat) : config :=
  Config MakeNetwork n (replicate n false) (replicate n None) (replicate n None)
    (replicate n None) (RaftChecker.initial n) [] ∅ 0 0.

(** [Save] by instance [k], which may be one that was killed. *)
Definition late_save cfg (k : nat) (c : list byte * list byte) : option config :=
  rf ← instances cfg !! k;
  Some (Config (net cfg) (n cfg) (connected cfg) (endnames cfg) (rafts cfg) (saved cfg)
    (chk cfg) (instances cfg) (<[persister rf := c]> (pheap cfg)) (pnext cfg) (nservers cfg)).

(** What a test does with the servers. *)
Inductive cstep : config -> config -> Prop :=
| S_connect cfg i cfg' : connect cfg i = Some cfg' -> cstep cfg cfg'
| S_disconnect cfg i cfg' : disconnect cfg i = Some cfg' -> cstep cfg cfg'
| S_crash cfg i cfg' : i < n cfg -> crash1 cfg i = Some cfg' -> cstep cfg cfg'
| S_start cfg i names cfg' :
    i < n cfg -> length names = n cfg -> fresh_names names (net cfg) ->
    start1 decode_snap cfg i names = Some cfg' -> cstep cfg cfg'
| S_save cfg k c cfg' : late_save cfg k c = Some cfg' -> cstep cfg cfg'.

Lemma initial_ok n : mesh_ok (initial_config n) ∧ store_ok (initial_config n).
Proof.
  split; split; simpl; rewrite ?length_replicate; try done.
  - intros i es Hi. by apply lookup_replicate in Hi as [? _].
  - intros i j i' j' e He. unfold ep in He.
    destruct (replicate n None !! i) as [o|] eqn:Hi; [|done].
    by apply lookup_replicate in Hi as [-> _].
  - intros i Hi. by apply lookup_replicate in Hi as [? _].
  - intros i j e He. unfold ep in He.
    destruct (replicate n None !! i) as [o|] eqn:Hi; [|done].
    by apply lookup_replicate in Hi as [-> _].
  - intros a Ha. rewrite lookup_empty in Ha. by destruct Ha.
  - intros i p Hi. by apply lookup_replicate in Hi as [? _].
Qed.

Lemma connect_store cfg i cfg' : connect cfg i = Some cfg' -> store_ok cfg -> store_ok cfg'.
Proof.
  unfold connect. destruct (connected cfg !! i); [simpl|done].
  destruct (mapM (λ j, ep (endnames cfg) i j) _); [simpl|done].
  destruct (mapM (λ j, ep (endnames cfg) j i) _); [simpl|done].
  intros [= <-] []. by split.
Qed.

Lemma cstep_ok cfg cfg' : cstep cfg cfg' -> mesh_ok cfg -> store_ok cfg ->
  mesh_ok cfg' ∧ store_ok cfg'.
Proof.
  intros Hs Hm Hst. destruct Hs as [cfg i cfg' H|cfg i cfg' H|cfg i cfg' Hi H
    |cfg i names cfg' Hi Hl Hf H|cfg k c cfg' H].
  - split; [by eapply connect_mesh|by eapply connect_store].
  - split; [by eapply disconnect_mesh|].
    destruct (disconnect_rest _ _ _ H) as (Hn & Hsv & Hph & Hpn & Hin & Hra).
    destruct Hst as [S1 S2 S3 S4]. split; by rewrite ?Hph, ?Hpn, ?Hsv, ?Hin, ?Hra, ?Hn.
  - destruct (crash1_spec _ _ _ Hm Hst Hi H). done.
  - destruct (start1_spec _ _ _ _ _ Hm Hst Hi Hl Hf H) as (? & ? & _). done.
  - unfold late_save in H. destruct (instances cfg !! k) as [rf|] eqn:Hk; [|done].
    simplify_eq/=. split; [by eapply mesh_ok_same; [..|exact Hm]|].
    destruct Hst as [S1 S2 S3 S4]. split; simpl; try done.
    + intros a [<-|[_ Ha]]%lookup_insert_is_Some; [by eapply S3|by apply S1].
    + intros j p Hj. apply S2 in Hj. apply lookup_insert_is_Some.
      destruct (decide (persister rf = p)); auto.
Qed.

Lemma csteps_ok n cfg : rtc cstep (initial_config n) cfg -> mesh_ok cfg ∧ store_ok cfg.
Proof.
  intros Hs. destruct (initial_ok n) as [Hm Hst].
  induction Hs as [|cfg cfg1 cfg2 H1 _ IH]; [done|].
  destruct (cstep_ok _ _ H1 Hm Hst). by apply IH.
Qed.

(** C33: whatever sequence of connecting, disconnecting, crashing and starting servers a test
    performs, the end from server [i] to server [j] leads to [j], and it is enabled exactly
    when both servers are connected; disconnecting or crashing a server and connecting one
    that was started do not panic. *)
Theorem connectivity_invariant n cfg :
  rtc cstep (initial_config n) cfg ->
  (forall i j e, ep (endnames cfg) i j = Some e ->
    connections (net cfg) !! inl e = Some (Some (inr j)) ∧
    (is_enabled (net cfg) (inl e) = true <->
     connected cfg !! i = Some true ∧ connected cfg !! j = Some true)) ∧
  (forall i, i < RaftConfig.n cfg -> is_Some (disconnect cfg i) ∧ is_Some (crash1 cfg i) ∧
    (is_started cfg i = true -> is_Some (connect cfg i))).
Proof.
  intros Hs. destruct (csteps_ok n cfg Hs) as [Hm _]. split.
  - intros i j e He. by destruct (m_ends _ Hm i j e He) as (_ & ? & ?).
  - intros i Hi. destruct (disconnect_total cfg i Hm Hi) as [cfg' Hd].
    split_and!; [by eexists| |by apply connect_total]. unfold crash1. rewrite Hd. by eexists.
Qed.

(** A server whose snapshot, if it has one, can be decoded can be restarted at any time
    with fresh names for its ends.  It gets the state that was last persisted, in a
    persister of its own: whatever any other instance, such as the one that was killed,
    saves afterwards does not change it. *)
Theorem restart_isolates n cfg i names :
  rtc cstep (initial_config n) cfg -> i < RaftConfig.n cfg -> length names = RaftConfig.n cfg ->
  fresh_names names (net cfg) -> snapshot_ok decode_snap cfg i ->
  ∃ cfg', start1 decode_snap cfg i names = Some cfg' ∧
    saved_content cfg' i = Some (default ([], []) (saved_content cfg i)) ∧
    ∃ k, rafts cfg' !! i = Some (Some k) ∧
      forall k' c cfg2, k' ≠ k -> late_save cfg' k' c = Some cfg2 ->
        saved_content cfg2 i = saved_content cfg' i.
Proof.
  intros Hs Hi Hl Hf Hsn. destruct (csteps_ok n cfg Hs) as [Hm Hso].
  destruct (start1_total decode_snap cfg i names Hm Hso Hi Hf Hsn) as [cfg' Hst].
  destruct (start1_spec _ _ _ _ _ Hm Hso Hi Hl Hf Hst)
    as (_ & _ & _ & Hc & p & k & Hp & Hk & _ & Hother).
  exists cfg'. split_and!; [done..|]. exists k. split; [done|]. intros k' c cfg2 Hne Hls.
  unfold late_save in Hls.
  destruct (instances cfg' !! k') as [rf|] eqn:Hrf; [|done]. simplify_eq/=.
  unfold saved_content. simpl. rewrite Hp. simpl. rewrite lookup_insert_ne; [done|].
  by eapply Hother.
Qed.

End Theorems.

(** ** Witnesses: two servers *)
Module RaftConfigDemo.

Definition no_snap : list byte -> option (Z * list Z) := λ _, None.
Definition c0 : @config Z := initial_config 2.
Definition c1 : @config Z := default c0 (start1 no_snap c0 0 ["a0"; "a1"]).
Definition c2 : @config Z := default c0 (start1 no_snap c1 1 ["b0"; "b1"]).
Definition c3 : @config Z := default c0 (connect c2 0).
Definition c4 : @config Z := default c0 (connect c3 1).
(** Instance 0 saves, then server 0 is restarted. *)
Definition c5 : @config Z := default c0 (late_save c4 0 ([x01], [])).
Definition c6 : @config Z := default c0 (start1 no_snap c5 0 ["c0"; "c1"]).

Lemma c5_reachable : rtc (cstep no_snap) (initial_config 2) c5.
Proof.
  eapply (rtc_l _ c0 c1).
  { apply (S_start no_snap c0 0 ["a0"; "a1"]); [simpl; lia|done| |vm_compute; reflexivity].
    split; [apply (bool_decide_unpack _); vm_compute; exact I|]. intros e _. simpl. set_solver. }
  eapply (rtc_l _ c1 c2).
  { apply (S_start no_snap c1 1 ["b0"; "b1"]);
      [vm_compute; lia|vm_compute; reflexivity| |vm_compute; reflexivity].
    split; [apply (bool_decide_unpack _); vm_compute; exact I|].
    intros e [->|[->|[]%elem_of_nil]%elem_of_cons]%elem_of_cons;
      apply (bool_decide_unpack _); vm_compute; exact I. }
  eapply (rtc_l _ c2 c3); [eapply (S_connect no_snap c2 0); vm_compute; reflexivity|].
  eapply (rtc_l _ c3 c4); [eapply (S_connect no_snap c3 1); vm_compute; reflexivity|].
  apply rtc_once. eapply (S_save no_snap c4 0 ([x01], [])). vm_compute. reflexivity.
Qed.

End RaftConfigDemo.
Import RaftConfigDemo.

Lemma connectivity_invariant_witness :
  connections (net c5) !! inl "a1" = Some (Some (inr 1)) ∧
  (is_enabled (net c5) (inl "a1") = true <->
   connected c5 !! 0 = Some true ∧ connected c5 !! 1 = Some true).
Proof.
  apply (proj1 (connectivity_invariant no_snap 2 c5 c5_reachable)).
  vm_compute. reflexivity.
Defined.

Lemma restart_isolates_witness :
  ∃ cfg', start1 no_snap c5 0 ["c0"; "c1"] = Some cfg' ∧
    saved_content cfg' 0 = Some (default ([], []) (saved_content c5 0)) ∧
    ∃ k, rafts cfg' !! 0 = Some (Some k) ∧
      forall k' c cfg2, k' ≠ k -> late_save cfg' k' c = Some cfg2 ->
        saved_content cfg2 0 = saved_content cfg' 0.
Proof.
  apply (restart_isolates no_snap 2 c5 0 ["c0"; "c1"]).
  - exact c5_reachable.
  - vm_compute. lia.
  - vm_compute. reflexivity.
  - split; [apply (bool_decide_unpack _); vm_compute; exact I|].
    intros e [->|[->|[]%elem_of_nil]%elem_of_cons]%elem_of_cons;
      apply (bool_decide_unpack _); vm_compute; exact I.
  - vm_compute. exact I.
Defined.

(** The restarted server has what instance 0 saved. *)
Example c6_restored : saved_content c6 0 = Some ([x01], []).
Proof. vm_compute. reflexivity. Qed.
