(* ===== verification/RaftTest.v ===== *)
(** * Making and ending a test of [raft/config.go]

    [make_config], [cleanup] and the small operations on a configuration, and the invariant
    that ties the instances of Raft to the tables of the harness. *)
From S2P Require Import Prelude Labrpc Mesh RaftChecker RaftConfig.
From Stdlib Require Import Strings.Byte.
Import Labrpc RaftConfig.

Module RaftTest.
Section Test.
Context {V : Type} `{!EqDecision V} (decode_snap : list byte -> option (Z * list V)).
Abbreviation config := (@config V).
Implicit Types cfg : config.

Definition setunreliable (unrel : bool) cfg : config :=
  set_net cfg (Reliable (negb unrel) (net cfg)).

Definition setlongreordering (longrel : bool) cfg : config :=
  set_net cfg (LongReordering longrel (net cfg)).

(** The requests that server [i] has received; [heap] has the servers of the network. *)
Definition rpcCount {App Arg Rep} (heap : gmap nat (@Server App Arg Rep)) (i : nat) cfg : option Z :=
  GetCount (net cfg) heap (inr i).

(** The loop of [make_config] over the servers, from server [i]. *)
Fixpoint start_all (i : nat) (namess : list (list string)) cfg : option config :=
  match namess with
  | [] => Some cfg
  | names :: namess' => cfg' ← start1 decode_snap cfg i names; start_all (S i) namess' cfg'
  end.

Fixpoint connect_all (js : list nat) cfg : option config :=
  match js with
  | [] => Some cfg
  | i :: js' => cfg' ← connect cfg i; connect_all js' cfg'
  end.

Definition make_config (n : nat) (unreliable : bool) (namess : list (list string)) :
    option config :=
  let cfg := setunreliable unreliable (initial_config n) in
  let cfg := set_net cfg (LongDelays true (net cfg)) in
  cfg ← start_all 0 namess cfg;
  connect_all (seq 0 n) cfg.

(** The largest log; a [nil] persister panics. *)
Definition LogSize cfg : option nat :=
  sizes ← mapM (λ i, c ← saved_content cfg i; Some (length c.1)) (seq 0 (n cfg));
  Some (max_size sizes).

(** A configuration with [finished], which the goroutines of a test read. *)
Record test := Test { cfg_of : config; finished : Z }.

Definition checkFinished (t : test) : bool := negb (bool_decide (finished t = 0%Z)).

(** The loop of [cleanup] over [rafts]. *)
Definition kill_rafts (ks : list (option nat)) cfg : config :=
  foldl (λ cfg o, match o with
    | Some k => set_rafts cfg (rafts cfg) (alter kill k (instances cfg))
    | None => cfg
    end) cfg ks.

(** [None] is the panic of closing a channel twice. *)
Definition cleanup (t : test) : option test :=
  let cfg := kill_rafts (rafts (cfg_of t)) (cfg_of t) in
  rn ← Cleanup (net cfg);
  Some (Test (set_net cfg rn) 1).

(** ** What the operations do to the tables *)

(** The settings of the network, which no operation on servers changes. *)
Definition settings (rn : network) : bool * bool * bool * bool :=
  (reliable rn, longDelays rn, longReordering rn, Labrpc.done rn).

Lemma enable_all_settings es b rn : settings (enable_all es b rn) = settings rn.
Proof.
  unfold enable_all. revert rn. induction es as [|e es IH]; intros rn; simpl; [done|]. by rewrite IH.
Qed.

Lemma make_ends_settings names j rn rn' : make_ends names j rn = Some rn' -> settings rn' = settings rn.
Proof.
  revert j rn. induction names as [|e names IH]; intros j rn; simpl; [by intros [= <-]|].
  unfold MakeEnd. case_decide; [done|]. simpl. intros Hr. by apply IH in Hr.
Qed.

(** [connect] and [disconnect] only set a bit and enable or disable ends. *)
Record rewired cfg cfg' : Prop := {
  w_rn : ∃ c rn, cfg' = set_net (set_connected cfg c) rn;
  w_servers : servers (net cfg') = servers (net cfg);
  w_ends : ends (net cfg') = ends (net cfg);
  w_settings : settings (net cfg') = settings (net cfg)
}.

Lemma raft_connect_rewired cfg i cfg' : connect cfg i = Some cfg' -> rewired cfg cfg'.
Proof.
  unfold connect. destruct (connected cfg !! i); [simpl|done].
  destruct (mapM (λ j, ep (endnames cfg) i j) _) as [out|]; [simpl|done].
  destruct (mapM (λ j, ep (endnames cfg) j i) _) as [inc|]; [simpl|done]. intros [= <-].
  destruct (enable_all_rest inc true (enable_all out true (net cfg))) as (_ & H1 & H2).
  destruct (enable_all_rest out true (net cfg)) as (_ & H3 & H4).
  split; simpl; [by eexists _, _|by rewrite H1, H3|by rewrite H2, H4|by rewrite !enable_all_settings].
Qed.

Lemma raft_disconnect_rewired cfg i cfg' : disconnect cfg i = Some cfg' -> rewired cfg cfg'.
Proof.
  unfold disconnect. destruct (connected cfg !! i); [simpl|done].
  destruct (if is_started _ i then _ else _) as [out|]; [simpl|done].
  destruct (mapM _ _) as [inc|]; [simpl|done]. intros [= <-].
  destruct (enable_all_rest inc false (enable_all out false (net cfg))) as (_ & H1 & H2).
  destruct (enable_all_rest out false (net cfg)) as (_ & H3 & H4).
  split; simpl; [by eexists _, _|by rewrite H1, H3|by rewrite H2, H4|by rewrite !enable_all_settings].
Qed.

Lemma copy_saved_other cfg i j : i ≠ j -> saved (copy_saved cfg i) !! j = saved cfg !! j.
Proof.
  intros Hij. unfold copy_saved. destruct (saved_content cfg i); [|done]. simpl.
  by rewrite list_lookup_insert_ne.
Qed.

(** The tables after a crash. *)
Record crashed cfg cfg' (i : nat) : Prop := {
  cr_rafts : rafts cfg' = match mjoin (rafts cfg !! i) with
    | Some _ => <[i := None]> (rafts cfg) | None => rafts cfg end;
  cr_inst : instances cfg' = match mjoin (rafts cfg !! i) with
    | Some k => alter kill k (instances cfg) | None => instances cfg end;
  cr_servers : forall j, server_at (net cfg') (inr j) =
    if decide (j = i) then None else server_at (net cfg) (inr j);
  cr_saved : forall j, j ≠ i -> saved cfg' !! j = saved cfg !! j;
  cr_chk : chk cfg' = chk cfg;
  cr_settings : settings (net cfg') = settings (net cfg)
}.

Lemma copy_saved_chk cfg i : chk (copy_saved cfg i) = chk cfg.
Proof. unfold copy_saved. by destruct (saved_content cfg i). Qed.

Lemma crash1_tables cfg i cfg' : crash1 cfg i = Some cfg' -> crashed cfg cfg' i.
Proof.
  unfold crash1. destruct (disconnect cfg i) as [cfg1|] eqn:Hd; [|done]. simpl. intros [= <-].
  destruct (raft_disconnect_rewired _ _ _ Hd) as [(c & rn & ->) Hsv He Hset].
  set (cfg2 := set_net _ _).
  destruct (copy_saved_rest cfg2 i) as (R1 & _ & _ & _ & R5 & R6 & _).
  set (cfg3 := copy_saved cfg2 i) in *.
  destruct (copy_saved_rest (kill_instance cfg3 i) i) as (Q1 & _ & _ & _ & Q5 & Q6 & _).
  destruct (kill_instance_rest cfg3 i) as (K1 & _ & _ & _ & K5 & _).
  assert (Hsaved : forall j, j ≠ i -> saved (copy_saved (kill_instance cfg3 i) i) !! j = saved cfg !! j).
  { intros j Hj. rewrite copy_saved_other by done. rewrite K5. unfold cfg3. by rewrite copy_saved_other. }
  split; try done.
  - rewrite Q5. unfold kill_instance. rewrite R5. simpl. by destruct (mjoin (rafts cfg !! i)).
  - rewrite Q6. unfold kill_instance. rewrite R5, R6. simpl. by destruct (mjoin (rafts cfg !! i)).
  - intros j. rewrite Q1, K1, R1. unfold server_at. simpl. case_decide as Hj.
    + subst. by rewrite lookup_insert_eq.
    + rewrite lookup_insert_ne by congruence. simpl in Hsv. by rewrite Hsv.
  - rewrite copy_saved_chk. unfold kill_instance. rewrite R5. simpl.
    destruct (mjoin (rafts cfg !! i)); simpl; unfold cfg3; by rewrite copy_saved_chk.
  - rewrite Q1, K1, R1. exact Hset.
Qed.

(** What a start makes of the logs, given the content of the persister. *)
Definition restored_chk (c : @RaftChecker.config V) (i : nat)
    (content : option (list byte * list byte)) : option RaftChecker.config :=
  let c0 := RaftChecker.Config (RaftChecker.logs c) (<[i := 0%Z]> (RaftChecker.lastApplied c))
              (RaftChecker.maxIndex c) in
  match content with
  | Some (_, (_ :: _) as snapshot) =>
      match RaftChecker.ingestSnap decode_snap c0 i (Some snapshot) (-1) with
      | RaftChecker.Pass c' => Some c'
      | _ => None
      end
  | _ => Some c0
  end.

Lemma restore_tables cfg i cfg' :
  restore decode_snap cfg i = Some cfg' ->
  rafts cfg' = rafts cfg ∧ (forall j, j ≠ i -> saved cfg' !! j = saved cfg !! j) ∧
  restored_chk (chk cfg) i (saved_content cfg i) = Some (chk cfg').
Proof.
  unfold restore. set (reset := set_chk cfg _). change (saved_content reset i) with (saved_content cfg i).
  assert (Hs : forall c j, j ≠ i -> saved (new_persister reset i c) !! j = saved cfg !! j).
  { intros c j Hj. simpl. by rewrite list_lookup_insert_ne. }
  destruct (saved_content cfg i) as [[rs [|b sn]]|]; simpl.
  - intros [= <-]. split_and!; [done|apply Hs|done].
  - destruct (decode_snap (b :: sn)) as [[last xlog]|]; [|done]. intros [= <-].
    split_and!; [done|apply (Hs (rs, b :: sn))|done].
  - intros [= <-]. split_and!; [done|apply Hs|done].
Qed.

(** The tables after a start. *)
Record started_tables cfg cfg' (i : nat) (names : list string) : Prop := {
  st_n : n cfg' = n cfg;
  st_connected : connected cfg' = <[i := false]> (connected cfg);
  st_endnames : endnames cfg' = <[i := Some names]> (endnames cfg);
  st_ends : ends (net cfg') = list_to_set (inl <$> names) ∪ ends (net cfg);
  st_settings : settings (net cfg') = settings (net cfg);
  st_rafts : ∃ k, rafts cfg' = <[i := Some k]> (rafts cfg) ∧ k = length (instances cfg) ∧
    ∃ p, saved cfg' !! i = Some (Some p) ∧ instances cfg' =
      (match mjoin (rafts cfg !! i) with
       | Some k0 => alter kill k0 (instances cfg) | None => instances cfg end) ++
      [MkRaft i names p false];
  st_servers : forall j, is_Some (server_at (net cfg') (inr j)) <->
    j = i ∨ is_Some (server_at (net cfg) (inr j));
  st_saved : forall j, j ≠ i -> saved cfg' !! j = saved cfg !! j;
  st_chk : restored_chk (chk cfg) i (saved_content cfg i) = Some (chk cfg')
}.

Lemma start1_tables cfg i names cfg' :
  mesh_ok cfg -> store_ok cfg -> i < n cfg -> fresh_names names (net cfg) ->
  start1 decode_snap cfg i names = Some cfg' -> started_tables cfg cfg' i names.
Proof.
  intros Hm Hs Hi Hf Hst. unfold start1 in Hst.
  destruct (crash1 cfg i) as [cfg1|] eqn:Hc; [|done]. simpl in Hst.
  destruct (crash1_spec _ _ _ Hm Hs Hi Hc) as [M1 S1 N1 C1 E1 D1 T1 P1 I1 V1].
  destruct (crash1_tables _ _ _ Hc) as [A1 A2 A3 A4 A5 A6].
  destruct (make_ends_spec names 0 (net cfg1)) as (rn & Hr & B1 & B2 & _).
  { destruct Hf as [Hnd Hf]. split; [done|]. by rewrite D1. }
  rewrite Hr in Hst. simpl in Hst. apply make_ends_settings in Hr.
  set (cfg2 := set_endnames cfg1 i names rn) in *.
  assert (Hs2 : store_ok cfg2) by (destruct S1; by split).
  destruct (restore decode_snap cfg2 i) as [cfg3|] eqn:Hre; [|done]. simpl in Hst.
  destruct (restore_tables _ _ _ Hre) as (F1 & F2 & F3).
  destruct (restore_spec decode_snap _ _ _ Hs2 ltac:(simpl; by rewrite N1) Hre)
    as (R1 & R2 & R3 & R4 & R5 & S3 & R6 & R7).
  rewrite R6 in Hst. simpl in Hst. injection Hst as <-.
  split; simpl.
  - by rewrite R2.
  - by rewrite R3.
  - rewrite R4. simpl. by rewrite E1.
  - rewrite R1. simpl. by rewrite B1, D1.
  - rewrite R1. transitivity (settings rn); [done|]. by rewrite Hr, A6.
  - rewrite F1, R5. simpl. rewrite A1, A2. exists (length (instances cfg)). split; [|split].
    + destruct (mjoin (rafts cfg !! i)); [by rewrite list_insert_insert_eq, length_alter|done].
    + done.
    + by eexists.
  - intros j. rewrite R1. unfold server_at in *. simpl. rewrite B2. destruct (decide (j = i)) as [->|Hj].
    + rewrite lookup_insert_eq. split; [by left|by eexists].
    + rewrite lookup_insert_ne by congruence. rewrite A3, decide_False by done. naive_solver.
  - intros j Hj. rewrite F2 by done. simpl. by apply A4.
  - rewrite <- F3. simpl. rewrite A5, <- T1. done.
Qed.

(** ** Invariant: one live instance per slot *)

Record live_ok cfg : Prop := {
  v_live : forall k rf, instances cfg !! k = Some rf -> dead rf = false ->
    rafts cfg !! me rf = Some (Some k);
  v_slot : forall i k, rafts cfg !! i = Some (Some k) -> ∃ rf, instances cfg !! k = Some rf ∧
    me rf = i ∧ dead rf = false ∧ saved cfg !! i = Some (Some (persister rf));
  v_server : forall i, is_Some (server_at (net cfg) (inr i)) <-> is_Some (mjoin (rafts cfg !! i))
}.

Lemma mjoin_slot (l : list (option nat)) i : is_Some (mjoin (l !! i)) <-> ∃ k, l !! i = Some (Some k).
Proof.
  unfold is_Some. destruct (l !! i) as [[k|]|]; simpl; naive_solver.
Qed.

Lemma rewired_live cfg cfg' : rewired cfg cfg' -> live_ok cfg -> live_ok cfg'.
Proof.
  intros [(c & rn & ->) Hsv _ _] [L1 L2 L3]. split; simpl; [done|done|].
  intros i. rewrite <- L3. unfold server_at in *. simpl in Hsv |- *. by rewrite Hsv.
Qed.

(** Killing the instance of slot [i] and emptying the slot. *)
Lemma killed_slot cfg i insts rs :
  live_ok cfg ->
  rs = match mjoin (rafts cfg !! i) with Some _ => <[i := None]> (rafts cfg) | None => rafts cfg end ->
  insts = match mjoin (rafts cfg !! i) with
    | Some k => alter kill k (instances cfg) | None => instances cfg end ->
  mjoin (rs !! i) = None ∧ (forall j, j ≠ i -> rs !! j = rafts cfg !! j) ∧
  (forall k rf, insts !! k = Some rf -> dead rf = false -> instances cfg !! k = Some rf ∧ me rf ≠ i) ∧
  (forall j k rf, j ≠ i -> rafts cfg !! j = Some (Some k) -> instances cfg !! k = Some rf ->
     insts !! k = Some rf).
Proof.
  intros [L1 L2 L3] -> ->. destruct (rafts cfg !! i) as [[k0|]|] eqn:Hi; simpl.
  - assert (Hlt : i < length (rafts cfg)) by by eapply lookup_lt_Some.
    destruct (L2 i k0 Hi) as (rf0 & Hk0 & Hme0 & _). split_and!.
    + by rewrite list_lookup_insert_eq.
    + intros j Hj. by rewrite list_lookup_insert_ne.
    + intros k rf Hk Hd. destruct (decide (k0 = k)) as [<-|Hne].
      * rewrite list_lookup_alter_eq, Hk0 in Hk. simplify_eq/=.
      * rewrite list_lookup_alter_ne in Hk by done. split; [done|]. intros Hme.
        specialize (L1 k rf Hk Hd). rewrite Hme in L1. congruence.
    + intros j k rf Hj Hk Hrf. rewrite list_lookup_alter_ne; [done|]. intros ->.
      destruct (L2 j k Hk) as (rf' & Hrf' & Hme & _). congruence.
  - split_and!; [by rewrite Hi|done| |done]. intros k rf Hk Hd. split; [done|]. intros Hme.
    specialize (L1 k rf Hk Hd). congruence.
  - split_and!; [by rewrite Hi|done| |done]. intros k rf Hk Hd. split; [done|]. intros Hme.
    specialize (L1 k rf Hk Hd). congruence.
Qed.

Lemma crash1_live cfg i cfg' : crash1 cfg i = Some cfg' -> live_ok cfg -> live_ok cfg'.
Proof.
  intros Hc Hl. destruct (crash1_tables _ _ _ Hc) as [A1 A2 A3 A4 A5 A6].
  destruct (killed_slot cfg i _ _ Hl A1 A2) as (B1 & B2 & B3 & B4). destruct Hl as [L1 L2 L3].
  split.
  - intros k rf Hk Hd. destruct (B3 k rf Hk Hd) as [Hk' Hme]. rewrite B2 by done. by apply L1.
  - intros j k Hj. destruct (decide (j = i)) as [->|Hji]; [by rewrite Hj in B1|].
    rewrite B2 in Hj by done. destruct (L2 j k Hj) as (rf & Hk & Hme & Hd & Hsv).
    exists rf. rewrite A4 by done. split; [by apply (B4 j)|done].
  - intros j. rewrite A3. case_decide as Hji.
    + subst. rewrite B1. split; by intros [].
    + rewrite B2 by done. apply L3.
Qed.

Lemma start1_live cfg i names cfg' :
  i < length (rafts cfg) -> started_tables cfg cfg' i names -> live_ok cfg -> live_ok cfg'.
Proof.
  intros Hi [T1 T2 T3 T4 T5 (k0 & Hra & Hk0 & p & Hp & Hin) T7 T8 T9] Hl.
  destruct (killed_slot cfg i _ _ Hl eq_refl eq_refl) as (B1 & B2 & B3 & B4).
  assert (Hlen : length (match mjoin (rafts cfg !! i) with
    | Some k0 => alter kill k0 (instances cfg) | None => instances cfg end) = k0).
  { destruct (mjoin (rafts cfg !! i)); by rewrite ?length_alter. }
  destruct Hl as [L1 L2 L3]. split.
  - intros k rf Hk Hd. rewrite Hra. rewrite Hin in Hk. apply lookup_app_Some in Hk as [Hk|[Hge Hk]].
    + destruct (B3 k rf Hk Hd) as [Hk' Hme]. rewrite list_lookup_insert_ne by done. by apply L1.
    + rewrite Hlen in Hge, Hk. destruct (k - k0) eqn:E; [|done]. injection Hk as <-. simpl.
      rewrite list_lookup_insert_eq by done. do 2 f_equal. lia.
  - intros j k Hj. rewrite Hra in Hj. destruct (decide (j = i)) as [->|Hji].
    + rewrite list_lookup_insert_eq in Hj by done. injection Hj as <-.
      exists (MkRaft i names p false). split; [|done].
      rewrite Hin, lookup_app_r by lia. by rewrite Hlen, Nat.sub_diag.
    + rewrite list_lookup_insert_ne in Hj by done.
      destruct (L2 j k Hj) as (rf & Hk & Hme & Hd & Hsv). exists rf. rewrite T8 by done.
      split; [|done]. rewrite Hin. apply lookup_app_l_Some. by apply (B4 j).
  - intros j. rewrite T7, Hra, L3. destruct (decide (j = i)) as [->|Hji].
    + rewrite list_lookup_insert_eq by done. split; [by eexists|by left].
    + rewrite list_lookup_insert_ne by done. naive_solver.
Qed.

Record all_ok cfg : Prop := {
  ok_mesh : mesh_ok cfg;
  ok_store : store_ok cfg;
  ok_live : live_ok cfg
}.

(** Every step of a test keeps the invariant and the settings of the network. *)
Lemma cstep_all cfg cfg' :
  cstep decode_snap cfg cfg' -> all_ok cfg ->
  all_ok cfg' ∧ settings (net cfg') = settings (net cfg) ∧ n cfg' = n cfg.
Proof.
  intros Hs [Hm Hst Hl]. destruct (cstep_ok _ _ _ Hs Hm Hst) as [Hm' Hst'].
  assert (Hgoal : live_ok cfg' ∧ settings (net cfg') = settings (net cfg) ∧ n cfg' = n cfg);
    [|destruct Hgoal as (? & ? & ?); by split_and!].
  destruct Hs as [cfg i cfg' H|cfg i cfg' H|cfg i cfg' Hi H|cfg i names cfg' Hi _ Hf H|cfg k c cfg' H].
  - apply raft_connect_rewired in H as Hw. split; [by eapply rewired_live|].
    by destruct Hw as [(c & rn & ->) _ _ ?].
  - apply raft_disconnect_rewired in H as Hw. split; [by eapply rewired_live|].
    by destruct Hw as [(c & rn & ->) _ _ ?].
  - split_and!; [by eapply crash1_live|by eapply cr_settings, crash1_tables|].
    by eapply c_n, (crash1_spec cfg i).
  - pose proof (start1_tables _ _ _ _ Hm Hst Hi Hf H) as Ht. split_and!; [|apply Ht..].
    eapply start1_live; [|done|done]. by rewrite (proj2 (s_len _ Hst)).
  - unfold late_save in H. destruct (instances cfg !! k) as [rf|]; [|done]. simplify_eq/=.
    by destruct Hl.
Qed.

Lemma csteps_all cfg cfg' :
  rtc (cstep decode_snap) cfg cfg' -> all_ok cfg ->
  all_ok cfg' ∧ settings (net cfg') = settings (net cfg) ∧ n cfg' = n cfg.
Proof.
  induction 1 as [cfg|cfg cfg1 cfg2 H1 _ IH]; [done|]. intros Hok.
  destruct (cstep_all _ _ H1 Hok) as (Hok1 & <- & <-). by apply IH.
Qed.

(** ** [make_config] *)

(** A property of all that was ever persisted. *)
Definition heap_all (P : list byte * list byte -> Prop) cfg : Prop :=
  map_Forall (λ _, P) (pheap cfg).

(** Nothing has been persisted. *)
Abbreviation heap_empty := (heap_all (λ c, c = ([], []))).

Lemma saved_content_all P cfg i c : heap_all P cfg -> saved_content cfg i = Some c -> P c.
Proof.
  intros Hh Hc. unfold saved_content in Hc. destruct (mjoin (saved cfg !! i)) as [p|]; [|done].
  by apply (Hh p).
Qed.

Lemma new_persister_all P cfg i c : P c -> heap_all P cfg -> heap_all P (new_persister cfg i c).
Proof. intros Hc Hh. by apply map_Forall_insert_2. Qed.

Lemma copy_saved_all P cfg i : heap_all P cfg -> heap_all P (copy_saved cfg i).
Proof.
  intros Hh. unfold copy_saved. destruct (saved_content cfg i) as [c|] eqn:Hc; [|done].
  apply new_persister_all; [by eapply saved_content_all|done].
Qed.

Lemma crash1_all P cfg i cfg' : crash1 cfg i = Some cfg' -> heap_all P cfg -> heap_all P cfg'.
Proof.
  intros Hc Hh. unfold crash1 in Hc. destruct (disconnect cfg i) as [cfg1|] eqn:Hd; [|done].
  simpl in Hc. injection Hc as <-. destruct (disconnect_rest _ _ _ Hd) as (_ & _ & Hph & _).
  apply copy_saved_all. set (cfg3 := copy_saved _ i).
  assert (H3 : heap_all P cfg3) by (apply copy_saved_all; unfold heap_all; simpl; by rewrite Hph).
  unfold kill_instance. by destruct (mjoin (rafts cfg3 !! i)).
Qed.

(** A start copies, or makes an empty persister. *)
Lemma start1_all P cfg i names cfg' :
  P ([], []) -> start1 decode_snap cfg i names = Some cfg' -> heap_all P cfg -> heap_all P cfg'.
Proof.
  intros H0 Hst Hh. unfold start1 in Hst. destruct (crash1 cfg i) as [cfg1|] eqn:Hc; [|done].
  simpl in Hst. pose proof (crash1_all P _ _ _ Hc Hh) as H1.
  destruct (make_ends names 0 (net cfg1)) as [rn|]; [|done]. simpl in Hst.
  destruct (restore _ _ _) as [cfg3|] eqn:Hr; [|done]. simpl in Hst.
  destruct (mjoin _) in Hst; [|done]. injection Hst as <-. change (heap_all P cfg3).
  unfold restore in Hr. set (reset := set_chk _ _) in Hr.
  destruct (saved_content reset i) as [[rs sn]|] eqn:Hs.
  - assert (H3 : heap_all P (new_persister reset i (rs, sn))).
    { apply new_persister_all; [by apply (saved_content_all P reset i)|done]. }
    simpl in Hr. destruct sn as [|b sn]; [by injection Hr as <-|].
    destruct (decode_snap (b :: sn)) as [[last xlog]|]; [|done]. by injection Hr as <-.
  - injection Hr as <-. by apply new_persister_all.
Qed.

(** After the first [i] servers have been started; their ends have the names [used]. *)
Record starting (N i : nat) (used : list string) (set : bool * bool * bool * bool) cfg : Prop := {
  b_ok : all_ok cfg;
  b_n : n cfg = N;
  b_settings : settings (net cfg) = set;
  b_used : forall e, inl e ∈ ends (net cfg) -> e ∈ used;
  b_connected : connected cfg = replicate N false;
  b_heap : heap_empty cfg;
  b_before : forall j, j < i -> is_Some (mjoin (endnames cfg !! j)) ∧ is_Some (mjoin (rafts cfg !! j));
  b_after : forall j, i ≤ j -> mjoin (saved cfg !! j) = None;
  b_chk : chk cfg = RaftChecker.initial N
}.

Lemma raft_start_one N i used set names cfg :
  starting N i used set cfg -> i < N -> length names = N -> NoDup names ->
  (forall e, e ∈ names -> e ∉ used) ->
  ∃ cfg', start1 decode_snap cfg i names = Some cfg' ∧ starting N (S i) (used ++ names) set cfg'.
Proof.
  intros [[Hm Hst Hl] Hn Hset Hu Hcn Hh Hb Ha Hck] Hi Hlen Hnd Hnew.
  assert (Hf : fresh_names names (net cfg)) by (split; [done|]; intros e He Hin; by apply (Hnew e), Hu).
  assert (Hnone : saved_content cfg i = None) by (unfold saved_content; by rewrite (Ha i)).
  rewrite <- Hn in Hi.
  destruct (start1_total decode_snap cfg i names Hm Hst Hi Hf) as [cfg' Hs].
  { unfold snapshot_ok. by rewrite Hnone. }
  exists cfg'. split; [done|].
  pose proof (start1_tables _ _ _ _ Hm Hst Hi Hf Hs) as Ht.
  destruct (start1_spec _ _ _ _ _ Hm Hst Hi (eq_trans Hlen (eq_sym Hn)) Hf Hs) as (Hm' & Hst' & _).
  assert (Hir : i < length (rafts cfg)) by (by rewrite (proj2 (s_len _ Hst))).
  assert (Hie : i < length (endnames cfg)) by (by rewrite (m_endnames _ Hm)).
  pose proof (start1_live _ _ _ _ Hir Ht Hl) as Hl'.
  destruct Ht as [T1 T2 T3 T4 T5 (k & Hra & _) T7 T8 T9]. split; try congruence; try done.
  - intros e. rewrite T4, elem_of_union, elem_of_app. intros [He|He]; [right|left; by apply Hu].
    apply elem_of_list_to_set, list_elem_of_fmap in He as (e' & [= ->] & ?). done.
  - rewrite T2, Hcn. apply list_insert_id. apply lookup_replicate_2. by rewrite <- Hn.
  - by eapply start1_all.
  - intros j Hj. rewrite T3, Hra. destruct (decide (j = i)) as [->|Hji].
    + rewrite !list_lookup_insert_eq by done. split; by eexists.
    + rewrite !list_lookup_insert_ne by done. apply Hb. lia.
  - intros j Hj. rewrite T8 by lia. apply Ha. lia.
  - rewrite Hnone, Hck in T9. injection T9 as <-. unfold RaftChecker.initial. simpl. f_equal.
    apply list_insert_id, lookup_replicate_2. by rewrite <- Hn.
Qed.

Lemma start_rest N set namess : forall i used cfg,
  starting N i used set cfg -> i + length namess = N ->
  Forall (λ names, length names = N) namess -> NoDup (used ++ concat namess) ->
  ∃ cfg' used', start_all i namess cfg = Some cfg' ∧ starting N N used' set cfg'.
Proof.
  induction namess as [|names namess IH]; intros i used cfg Hs Hlen Hl Hnd; simpl.
  { exists cfg, used. split; [done|]. simpl in Hlen. by replace N with i at 2 by lia. }
  simpl in Hlen, Hnd. apply Forall_cons in Hl as [Hl1 Hl2]. rewrite app_assoc in Hnd.
  pose proof Hnd as ([Hua (Hdis & Hnn)]%NoDup_app & _)%NoDup_app.
  destruct (raft_start_one N i used set names cfg Hs) as (cfg' & -> & Hs'); [lia|done|done| |].
  { intros e He Hu. by apply (Hdis e). }
  simpl. apply (IH (S i) (used ++ names)); [done|lia|done|done].
Qed.

Lemma initial_starting N unreliable :
  starting N 0 [] (negb unreliable, true, false, false)
    (set_net (setunreliable unreliable (initial_config N))
      (LongDelays true (net (setunreliable unreliable (initial_config N))))).
Proof.
  destruct (initial_ok (V := V) N) as [Hm Hst].
  split; simpl; try done.
  - split; [by eapply mesh_ok_same; [..|exact Hm]|by destruct Hst|].
    split; simpl; [done| |].
    + intros i k Hi. by apply lookup_replicate in Hi as [? _].
    + intros i. unfold server_at. simpl. rewrite lookup_empty. simpl.
      assert (Hn : mjoin (replicate N (@None nat) !! i) = None); [|by rewrite Hn].
      destruct (replicate N None !! i) as [o|] eqn:Hi; [|done]. by apply lookup_replicate in Hi as [-> _].
  - intros j Hj. lia.
  - intros j _. destruct (replicate N None !! j) as [o|] eqn:Hi; [|done].
    by apply lookup_replicate in Hi as [-> _].
Qed.

Lemma connect_rest js : forall cfg,
  all_ok cfg -> (forall i, i ∈ js -> i < n cfg ∧ is_started cfg i = true) ->
  ∃ cfg', connect_all js cfg = Some cfg' ∧ all_ok cfg' ∧
    (∃ c rn, cfg' = set_net (set_connected cfg c) rn ∧ settings rn = settings (net cfg)) ∧
    (forall j, j ∈ js ∨ connected cfg !! j = Some true -> connected cfg' !! j = Some true).
Proof.
  induction js as [|i js IH]; intros cfg [Hm Hst Hl] Hjs; simpl.
  { exists cfg. split_and!; [done|by split| |].
    - exists (connected cfg), (net cfg). by destruct cfg.
    - intros j [Hj|Hj]; [by apply elem_of_nil in Hj|done]. }
  destruct (Hjs i ltac:(left)) as [Hi Hs].
  destruct (connect_total _ _ Hm Hi Hs) as [cfg1 Hc]. rewrite Hc. simpl.
  destruct (connect_mesh _ _ _ Hm Hc) as [Hm1 Hcn].
  pose proof (raft_connect_rewired _ _ _ Hc) as Hw. pose proof (rewired_live _ _ Hw Hl) as Hl1.
  pose proof (connect_store _ _ _ Hc Hst) as Hst1. destruct Hw as [(c & rn & ->) _ _ Hset].
  destruct (IH (set_net (set_connected cfg c) rn)) as (cfg' & -> & Hok & (c' & rn' & -> & Hset') & Hall);
    [by split| |].
  { intros j Hj. apply (Hjs j). by right. }
  eexists. split_and!; [done|done| |].
  - exists c', rn'. split; [done|]. rewrite Hset'. exact Hset.
  - intros j Hj. apply Hall. rewrite Hcn.
    assert (Hlt : i < length (connected cfg)) by (by rewrite (m_connected _ Hm)).
    destruct (decide (j = i)) as [->|Hji]; [right; by rewrite list_lookup_insert_eq|].
    rewrite list_lookup_insert_ne by done. destruct Hj as [Hj|Hj]; [|by right].
    left. by apply elem_of_cons in Hj as [?|?].
Qed.

Lemma raft_make_config_ok N unreliable namess :
  names_ok N namess ->
  ∃ cfg, make_config N unreliable namess = Some cfg ∧ all_ok cfg ∧ n cfg = N ∧
    settings (net cfg) = (negb unreliable, true, false, false) ∧
    (forall i, i < N -> connected cfg !! i = Some true ∧ is_Some (mjoin (endnames cfg !! i)) ∧
       is_Some (mjoin (rafts cfg !! i)) ∧ saved_content cfg i = Some ([], [])) ∧
    chk cfg = RaftChecker.initial N.
Proof.
  intros (Hlen & Hl & Hnd). unfold make_config.
  destruct (start_rest N _ namess 0 [] _ (initial_starting N unreliable)) as (cfg & used & Hs & B);
    [done|done|done|].
  cbv zeta. rewrite Hs. simpl.
  destruct B as [Hok Hn Hset _ _ Hh Hb _ Hck].
  destruct (connect_rest (seq 0 N) cfg Hok) as (cfg' & Hc & Hok' & (c & rn & -> & Hset') & Hall).
  { intros i Hi%elem_of_seq. split; [lia|]. apply is_started_spec, Hb. lia. }
  eexists. split; [exact Hc|]. split_and!; [done|done|by transitivity (settings rn); [done|]; rewrite Hset'| |done].
  intros i Hi. destruct (Hb i Hi) as [H1 H2]. split_and!; [|done|done|].
  - apply Hall. left. apply elem_of_seq. lia.
  - apply mjoin_slot in H2 as [k Hk]. destruct (v_slot _ (ok_live _ Hok) i k Hk) as (rf & _ & _ & _ & Hsv).
    destruct (s_saved _ (ok_store _ Hok) _ _ Hsv) as [c' Hc'].
    unfold saved_content. simpl. rewrite Hsv. simpl. rewrite Hc'. f_equal. by apply (Hh (persister rf)).
Qed.

(** Nothing is persisted by [make_config] except for empty persisters. *)
Lemma make_config_all (P : list byte * list byte -> Prop) N unreliable namess cfg :
  P ([], []) -> make_config N unreliable namess = Some cfg -> heap_all P cfg.
Proof.
  intros H0 Hm. unfold make_config in Hm. cbv zeta in Hm.
  set (cfg0 := set_net _ _) in Hm. assert (Hh : heap_all P cfg0) by apply map_Forall_empty.
  clearbody cfg0. destruct (start_all 0 namess cfg0) as [cfg1|] eqn:Hs; [|done]. simpl in Hm.
  assert (H1 : heap_all P cfg1).
  { clear Hm. revert cfg0 Hh Hs. generalize 0 at 1. induction namess as [|names namess IH]; simpl;
      intros i cfg0 Hh Hs; [by injection Hs as <-|].
    destruct (start1 decode_snap cfg0 i names) as [cfg2|] eqn:H2; [|done]. simpl in Hs.
    apply (IH (S i) cfg2); [by eapply start1_all|done]. }
  clear Hs. revert cfg1 H1 Hm. generalize (seq 0 N). induction l as [|j l IH]; simpl;
    intros cfg1 H1 Hm; [by injection Hm as <-|].
  destruct (connect cfg1 j) as [cfg2|] eqn:H2; [|done]. simpl in Hm. apply (IH cfg2); [|done].
  by destruct (raft_connect_rewired _ _ _ H2) as [(c & rn & ->) _ _ _].
Qed.

(** ** [cleanup] *)

(** The loop kills what the slots refer to, and nothing else changes. *)
Lemma kill_rafts_spec ks cfg :
  let cfg' := kill_rafts ks cfg in
  net cfg' = net cfg ∧ rafts cfg' = rafts cfg ∧
  forall k rf, instances cfg' !! k = Some rf -> dead rf = false ->
    instances cfg !! k = Some rf ∧ Some k ∉ ks.
Proof.
  unfold kill_rafts. revert cfg. induction ks as [|[k0|] ks IH]; intros cfg; simpl.
  - split_and!; [done|done|]. intros k rf Hk _. split; [done|]. apply not_elem_of_nil.
  - destruct (IH (set_rafts cfg (rafts cfg) (alter kill k0 (instances cfg)))) as (-> & -> & H).
    split_and!; [done|done|]. intros k rf Hk Hd. destruct (H k rf Hk Hd) as [H1 H2]. simpl in H1.
    destruct (decide (k0 = k)) as [<-|Hne].
    + rewrite list_lookup_alter_eq in H1. apply fmap_Some in H1 as (rf0 & _ & ->). done.
    + rewrite list_lookup_alter_ne in H1 by done. split; [done|]. rewrite elem_of_cons. naive_solver.
  - destruct (IH cfg) as (-> & -> & H). split_and!; [done|done|]. intros k rf Hk Hd.
    destruct (H k rf Hk Hd) as [H1 H2]. split; [done|]. rewrite elem_of_cons. naive_solver.
Qed.

End Test.
End RaftTest.
Import RaftTest.

Section Theorems.
Context {V : Type} `{!EqDecision V} (decode_snap : list byte -> option (Z * list V)).
Implicit Types cfg : @config V.

(** [make_config] with fresh random names for the ends succeeds: every server is
    connected, and a request over the end from any server to any other is delivered to it,
    over a network with the chosen reliability, long delays and no reordering; nothing has
    been persisted or applied. *)
Theorem raft_make_config N unreliable namess :
  names_ok N namess ->
  ∃ cfg, make_config decode_snap N unreliable namess = Some cfg ∧
    (forall i j, i < N -> j < N -> ∃ e s, ep (endnames cfg) i j = Some e ∧
       server_at (net cfg) (inr j) = Some s ∧
       locate (net cfg) (inl e) = Located (Target (inr j) s (negb unreliable) false)) ∧
    longDelays (net cfg) = true ∧
    (forall i, i < N -> connected cfg !! i = Some true ∧ saved_content cfg i = Some ([], [])) ∧
    LogSize cfg = Some 0 ∧ chk cfg = RaftChecker.initial N.
Proof.
  intros Hok. destruct (raft_make_config_ok decode_snap N unreliable namess Hok)
    as (cfg & Hm & [Ho1 Ho2 Ho3] & Hn & [= Hrel Hld Hlr _] & Hall & Hck).
  exists cfg. split_and!; [done| |done| | |done].
  - intros i j Hi Hj. destruct (Hall i Hi) as (Hci & Hei & _). destruct (Hall j Hj) as (Hcj & _ & Hrj & _).
    destruct (ep_started cfg i j Ho1 Hei) as [e He]; [by rewrite Hn|].
    apply (v_server _ Ho3) in Hrj as [s Hs].
    destruct (m_ends _ Ho1 i j e He) as (_ & Hc & Hen). exists e, s. split_and!; [done..|].
    unfold locate, readEndnameInfo. simpl. rewrite (proj2 Hen) by done. rewrite Hc. simpl.
    by rewrite Hs, Hrel, Hlr.
  - intros i Hi. by destruct (Hall i Hi) as (? & _ & _ & ?).
  - unfold LogSize. erewrite mapM_all_some with (y := 0).
    { simpl. f_equal. apply max_size_zeros. }
    intros i Hi%elem_of_seq. by destruct (Hall i ltac:(lia)) as (_ & _ & _ & ->).
Qed.

(** C28: whatever a test does with its servers, a server is registered with the network exactly
    while it runs, at most one instance per server is alive, and that instance writes to the
    persister from which the server would be restarted; so [cleanup] at any time kills every
    instance that was ever made and shuts the network down.  A second [cleanup] panics. *)
Theorem raft_instances N unreliable namess cfg0 cfg :
  names_ok N namess -> make_config decode_snap N unreliable namess = Some cfg0 ->
  rtc (cstep decode_snap) cfg0 cfg ->
  (forall i, is_Some (server_at (net cfg) (inr i)) <-> is_Some (mjoin (rafts cfg !! i))) ∧
  (forall k rf, instances cfg !! k = Some rf -> dead rf = false -> rafts cfg !! me rf = Some (Some k)) ∧
  (forall i k c cfg', rafts cfg !! i = Some (Some k) -> late_save cfg k c = Some cfg' ->
     saved_content cfg' i = Some c) ∧
  ∃ t, cleanup (Test cfg 0) = Some t ∧ checkFinished t = true ∧
    Forall (λ rf, dead rf = true) (instances (cfg_of t)) ∧ Labrpc.done (net (cfg_of t)) = true ∧
    cleanup t = None.
Proof.
  intros Hok Hm Hr. destruct (raft_make_config_ok decode_snap N unreliable namess Hok)
    as (cfg1 & Hm' & Hok0 & _ & Hset & _). assert (cfg1 = cfg0) as -> by congruence.
  destruct (csteps_all decode_snap _ _ Hr Hok0) as ([_ _ [L1 L2 L3]] & Hset' & _).
  split_and!; [done|done| |].
  - intros i k c cfg' Hi Hs. destruct (L2 i k Hi) as (rf & Hk & _ & _ & Hsv).
    unfold late_save in Hs. rewrite Hk in Hs. simplify_eq/=. unfold saved_content. simpl.
    rewrite Hsv. simpl. by rewrite lookup_insert_eq.
  - assert (Hd : Labrpc.done (net cfg) = false).
    { rewrite Hset in Hset'. unfold settings in Hset'. congruence. }
    destruct (kill_rafts_spec (rafts cfg) cfg) as (K1 & K2 & K3).
    unfold cleanup. simpl. unfold Cleanup at 1. rewrite K1, Hd. simpl.
    eexists. split_and!; [done|done| |done|].
    + apply Forall_lookup. intros k rf Hk. simpl in Hk. destruct (dead rf) eqn:Hdd; [done|].
      destruct (K3 k rf Hk Hdd) as [H1 H2]. destruct H2. apply (L1 k rf H1) in Hdd. eauto with go.
    + simpl. match goal with |- context [kill_rafts ?ks ?c] =>
        destruct (kill_rafts_spec ks c) as (-> & _ & _) end. done.
Qed.

End Theorems.

(** ** Witnesses: two servers, one of which is restarted *)
Module RaftTestDemo.

Definition no_snap : list byte -> option (Z * list Z) := λ _, None.
Definition names : list (list string) := [["a0"; "a1"]; ["b0"; "b1"]].
Definition t0 : @config Z := default (initial_config 2) (make_config no_snap 2 true names).
Definition t1 : @config Z := default t0 (start1 no_snap t0 0 ["c0"; "c1"]).

Lemma names_demo_ok : names_ok 2 names.
Proof.
  split; [done|]. split; [repeat constructor|]. apply (bool_decide_unpack _). by vm_compute.
Qed.

Lemma t0_made : make_config no_snap 2 true names = Some t0.
Proof. vm_compute. reflexivity. Qed.

Lemma t1_reached : rtc (cstep no_snap) t0 t1.
Proof.
  apply rtc_once, (S_start no_snap t0 0 ["c0"; "c1"]);
    [vm_compute; lia|vm_compute; reflexivity| |vm_compute; reflexivity].
  split; [apply (bool_decide_unpack _); vm_compute; exact I|].
  intros e [->|[->|[]%elem_of_nil]%elem_of_cons]%elem_of_cons;
    apply (bool_decide_unpack _); vm_compute; exact I.
Qed.

End RaftTestDemo.
Import RaftTestDemo.

Lemma raft_make_config_witness :
  ∃ cfg, make_config no_snap 2 true names = Some cfg ∧ LogSize cfg = Some 0.
Proof.
  destruct (raft_make_config no_snap 2 true names names_demo_ok) as (cfg & Hm & _ & _ & _ & Hl & _).
  exists cfg. split; [exact Hm|exact Hl].
Defined.

(** The first instance of server 0 was killed by the restart, the others by [cleanup]. *)
Lemma raft_instances_witness :
  dead <$> instances t1 = [true; false; false] ∧ is_Some (cleanup (Test t1 0)).
Proof.
  split; [vm_compute; reflexivity|].
  destruct (raft_instances no_snap 2 true names t0 t1 names_demo_ok t0_made t1_reached)
    as (_ & _ & _ & t & Ht & _).
  exists t. exact Ht.
Defined.
