(* ===== verification/RaftApply.v ===== *)
(** * A whole test of [raft/config.go]: a correct Raft passes the checks

    The appliers of [RaftChecker] together with the servers of [RaftConfig]: the instances
    that a test starts, crashes and restarts deliver commands to the applier of their server,
    which makes snapshots that instances persist, send to each other, and start from.  A
    [session] adds to the configuration what the instances do: they deliver one common
    sequence of commands, each in order from where its persisted snapshot ends.  Only live
    instances deliver, and handing over a message and checking it is one step.  The theorem
    is that then no check ever ends the test, in any interleaving of these deliveries with
    crashes and restarts; [applier] and [applierSnap] are both covered.  An example at the end
    shows that a message of a killed instance that comes late does end the test. *)
From S2P Require Import Prelude Labrpc Mesh RaftChecker RaftConfig RaftTest.
From Stdlib Require Import Strings.Byte.
Import Labrpc RaftChecker RaftConfig RaftTest.

#[local] Open Scope Z_scope.

Module RaftApply.
Section Apply.
Context {V : Type} `{!EqDecision V} (vnil : V).
Context (encode_snap : Z * list V -> list byte) (decode_snap : list byte -> option (Z * list V)).
(** Whether the servers are started with [applierSnap]. *)
Context (snap : bool).

Abbreviation ApplyMsg := (@RaftChecker.ApplyMsg V (list byte)).
Implicit Types (c : @RaftChecker.config V) (G : list V).

(** [committed]: the commands from index 1 on; [delivered]: the index up to which an instance
    has delivered; [made]: the snapshots that were handed to [rf.Snapshot]. *)
Record session := MkSession {
  harness : @config V;
  committed : list V;
  delivered : gmap nat Z;
  made : list (Z * list byte)
}.

Definition at_index (s : session) (k : nat) : Z := default 0 (delivered s !! k).

Definition command_msg (index : Z) (v : V) : ApplyMsg := MkApplyMsg true v index false None 0 0.
Definition snapshot_msg (index : Z) (b : list byte) : ApplyMsg :=
  MkApplyMsg false vnil 0 true (Some b) 0 index.

(** One message in the applier with which the servers were started. *)
Definition apply_one c (i : nat) (m : ApplyMsg) :
    RaftChecker.outcome (@RaftChecker.config V * option (Z * list byte)) :=
  if snap then applierSnap vnil encode_snap decode_snap c i m
  else match applier c i m with
       | RaftChecker.Pass c' => RaftChecker.Pass (c', None)
       | RaftChecker.FatalErr => RaftChecker.FatalErr
       | RaftChecker.PanicErr => RaftChecker.PanicErr
       end.

(** Instance [k] of server [i] delivers [m], after which it is at [d]; [None] ends the test. *)
Definition receive (s : session) (i k : nat) (m : ApplyMsg) (d : Z) : option session :=
  match apply_one (chk (harness s)) i m with
  | RaftChecker.Pass (c, o) =>
      Some (MkSession (set_chk (harness s) c) (committed s) (<[k := d]> (delivered s))
              (option_list o ++ made s))
  | _ => None
  end.

(** The index of the snapshot from which an instance starts. *)
Definition snapshot_index (content : option (list byte * list byte)) : Z :=
  match content with
  | Some (_, (_ :: _) as b) => from_option fst 0 (decode_snap b)
  | _ => 0
  end.

Definition with_harness (s : session) (cfg : @config V) : session :=
  MkSession cfg (committed s) (delivered s) (made s).

Definition restart (s : session) (i : nat) (names : list string) : option session :=
  cfg ← start1 decode_snap (harness s) i names;
  Some (MkSession cfg (committed s)
    (<[length (instances (harness s)) := snapshot_index (saved_content (harness s) i)]>
       (delivered s)) (made s)).

(** The steps of a test; [None]: a check or a panic of the harness ends it.  Only the live
    instance of a server delivers; an instance persists snapshots that some applier made, and
    an instance that was killed may still do so. *)
Inductive sstep (s : session) : option session -> Prop :=
  | Commits v :
      sstep s (Some (MkSession (harness s) (committed s ++ [v]) (delivered s) (made s)))
  | Delivers i k v :
      rafts (harness s) !! i = Some (Some k) ->
      committed s !! Z.to_nat (at_index s k) = Some v ->
      sstep s (receive s i k (command_msg (at_index s k + 1) v) (at_index s k + 1))
  | Installs i k index b :
      rafts (harness s) !! i = Some (Some k) -> (index, b) ∈ made s ->
      sstep s (receive s i k (snapshot_msg index b) index)
  | Persists k content cfg :
      late_save (harness s) k content = Some cfg ->
      content.2 = [] ∨ (∃ index, (index, content.2) ∈ made s) ->
      sstep s (Some (with_harness s cfg))
  | Connects i :
      (i < n (harness s))%nat -> sstep s (with_harness s <$> connect (harness s) i)
  | Disconnects i :
      (i < n (harness s))%nat -> sstep s (with_harness s <$> disconnect (harness s) i)
  | Crashes i :
      (i < n (harness s))%nat -> sstep s (with_harness s <$> crash1 (harness s) i)
  | Restarts i names :
      (i < n (harness s))%nat -> length names = n (harness s) ->
      fresh_names names (net (harness s)) -> sstep s (restart s i names).

(** ** The logs of the appliers *)

(** The entry at [index] is the committed command; index 0 of a snapshot is [nil]. *)
Definition entry_ok G (index : Z) (v : V) : Prop :=
  index = 0 ∧ v = vnil ∨ 1 <= index ∧ G !! Z.to_nat (index - 1) = Some v.

Definition entries_ok G (l : gmap Z V) : Prop := forall j v, l !! j = Some v -> entry_ok G j v.

(** A log has the entries up to [d]. *)
Definition full_to (l : gmap Z V) (d : Z) : Prop := forall j, 1 <= j <= d -> is_Some (l !! j).

Record good_snapshot G (index : Z) (b : list byte) : Prop := {
  gs_bytes : b ≠ [];
  gs_index : 0 <= index <= Z.of_nat (length G);
  gs_log : ∃ xlog, decode_snap b = Some (index, xlog) ∧
    entries_ok G (log_of_list xlog) ∧ full_to (log_of_list xlog) index
}.

(** The checks of [N] servers; [pos] is the index at which the live instance of a server is. *)
Record chk_ok G (N : nat) (pos : nat -> option Z) c : Prop := {
  k_logs : length (logs c) = N;
  k_last : length (lastApplied c) = N;
  k_entries : forall i li, logs c !! i = Some li -> entries_ok G li;
  k_pos : forall i d, pos i = Some d -> 0 <= d <= Z.of_nat (length G);
  k_full : forall i d li, pos i = Some d -> logs c !! i = Some li -> full_to li d;
  k_applied : snap = true -> forall i d, pos i = Some d -> lastApplied c !! i = Some d
}.

Lemma entry_ok_unique G j v w : entry_ok G j v -> entry_ok G j w -> v = w.
Proof. unfold entry_ok. intros [[? ->]|[? Hv]] [[? ->]|[? Hw]]; congruence || lia. Qed.

Lemma entry_ok_snoc G j v w : entry_ok G j v -> entry_ok (G ++ [w]) j v.
Proof. intros [H|[Hj Hv]]; [by left|]. right. split; [done|]. by apply lookup_app_l_Some. Qed.

Lemma chk_ok_weaken G N pos pos' c :
  (forall i d, pos' i = Some d -> pos i = Some d) -> chk_ok G N pos c -> chk_ok G N pos' c.
Proof. intros Hp [H1 H2 H3 H4 H5 H6]. split; eauto. Qed.

Lemma chk_ok_agree G N pos c : chk_ok G N pos c -> agree (logs c).
Proof.
  intros Hc j k lj lk index v w Hj Hk Hv Hw. apply (entry_ok_unique G index).
  - by apply (k_entries _ _ _ _ Hc j lj Hj).
  - by apply (k_entries _ _ _ _ Hc k lk Hk).
Qed.

(** The log of server [i] is replaced and its instance is at [d]. *)
Lemma chk_ok_update G N pos c i l d last index :
  chk_ok G N pos c -> entries_ok G l -> full_to l d -> 0 <= d <= Z.of_nat (length G) ->
  last = <[i := d]> (lastApplied c) ∨ snap = false ∧ last = lastApplied c -> (i < N)%nat ->
  chk_ok G N (λ j, if decide (j = i) then Some d else pos j)
    (RaftChecker.Config (<[i := l]> (logs c)) last index).
Proof.
  intros [H1 H2 H3 H4 H5 H6] Hl Hf Hd Hlast Hi. split; simpl.
  - by rewrite length_insert.
  - destruct Hlast as [->|[_ ->]]; [by rewrite length_insert|done].
  - intros j lj [[-> [<- _]]|[_ Hj]]%list_lookup_insert_Some; [done|by eapply H3].
  - intros j dj. case_decide; [by intros [= <-]|apply H4].
  - intros j dj lj Hp [[-> [<- _]]|[Hne Hj]]%list_lookup_insert_Some.
    + rewrite decide_True in Hp by done. by injection Hp as <-.
    + rewrite decide_False in Hp by done. by apply (H5 j).
  - intros Hs j dj. destruct Hlast as [->|[Hs' _]]; [|by rewrite Hs in Hs'].
    case_decide as Hj; [subst j|rewrite list_lookup_insert_ne by done; by apply H6].
    intros [= <-]. apply list_lookup_insert_eq. lia.
Qed.

(** ** One message *)

Lemma entries_insert G l j v :
  entries_ok G l -> 1 <= j -> G !! Z.to_nat (j - 1) = Some v -> entries_ok G (<[j := v]> l).
Proof.
  intros Hl Hj Hv j' v' [[<- <-]|[_ H]]%lookup_insert_Some; [by right|by apply Hl].
Qed.

Lemma full_insert l d v : full_to l d -> full_to (<[d + 1 := v]> l) (d + 1).
Proof.
  intros Hf j Hj. apply lookup_insert_is_Some. destruct (decide (d + 1 = j)); [by left|].
  right. split; [done|]. apply Hf. lia.
Qed.

(** The next command passes the two tests of [checkLogs]. *)
Lemma checkLogs_next G N pos c i d v :
  chk_ok G N pos c -> (i < N)%nat -> pos i = Some d -> G !! Z.to_nat d = Some v ->
  ∃ li mx, logs c !! i = Some li ∧
    checkLogs c i (command_msg (d + 1) v) =
      Some (None, bool_decide (is_Some (li !! d)),
        RaftChecker.Config (<[i := <[d + 1 := v]> li]> (logs c)) (lastApplied c) mx) ∧
    (bool_decide (1 < d + 1) && negb (bool_decide (is_Some (li !! d)))) = false.
Proof.
  intros Hc Hi Hp Hv. destruct (lookup_lt_is_Some_2 (logs c) i) as [li Hli].
  { by rewrite (k_logs _ _ _ _ Hc). }
  pose proof (k_pos _ _ _ _ Hc i d Hp) as Hd.
  assert (Hm : mismatch (logs c) 0 (d + 1) v None = None).
  { apply mismatch_none. split; [done|]. intros l w [j Hj]%list_elem_of_lookup Hw.
    apply (entry_ok_unique G (d + 1)); [by apply (k_entries _ _ _ _ Hc j l)|].
    right. split; [lia|]. by replace (d + 1 - 1) with d by lia. }
  exists li. eexists. split; [done|]. split.
  - unfold checkLogs. simpl. rewrite Hli, Hm. simpl. by replace (d + 1 - 1) with d by lia.
  - destruct (bool_decide (1 < d + 1)) eqn:H1; [|done]. apply bool_decide_eq_true in H1.
    rewrite bool_decide_true; [done|]. apply (k_full _ _ _ _ Hc i d li Hp Hli). lia.
Qed.

(** [applierSnap] makes a snapshot of the entries up to the command. *)
Lemma snap_log_good G l d :
  (forall x, decode_snap (encode_snap x) = Some x) -> (forall x, encode_snap x ≠ []) ->
  entries_ok G l -> full_to l d -> 0 <= d <= Z.of_nat (length G) ->
  good_snapshot G d (encode_snap (d, snap_log vnil l d)).
Proof.
  intros Hrt Hne Hl Hf Hd. split; [done|done|]. exists (snap_log vnil l d). split; [done|].
  assert (Hlook : forall j, log_of_list (snap_log vnil l d) !! j =
    if decide (0 <= j <= d) then Some (default vnil (l !! j)) else None).
  { intros j. rewrite log_of_list_lookup. unfold snap_log. case_decide as H0.
    - rewrite list_lookup_fmap. case_decide as H1.
      + rewrite lookup_seqZ_lt by lia. simpl. do 3 f_equal. lia.
      + by rewrite lookup_seqZ_ge by lia.
    - by rewrite decide_False by lia. }
  split.
  - intros j v Hj. rewrite Hlook in Hj. case_decide as H0; [|done]. injection Hj as <-.
    destruct (l !! j) as [w|] eqn:Hw; [by apply Hl|]. destruct (decide (j = 0)) as [->|]; [by left|].
    destruct (Hf j ltac:(lia)) as [x Hx]. congruence.
  - intros j Hj. rewrite Hlook, decide_True by lia. by eexists.
Qed.

Section Codec.
Context (Hrt : forall x, decode_snap (encode_snap x) = Some x) (Hne : forall x, encode_snap x ≠ []).

Lemma apply_command G N pos c i d v :
  chk_ok G N pos c -> (i < N)%nat -> pos i = Some d -> G !! Z.to_nat d = Some v ->
  ∃ c' o, apply_one c i (command_msg (d + 1) v) = RaftChecker.Pass (c', o) ∧
    chk_ok G N (λ j, if decide (j = i) then Some (d + 1) else pos j) c' ∧
    (forall index b, o = Some (index, b) -> snap = true ∧ good_snapshot G index b).
Proof.
  intros Hc Hi Hp Hv. pose proof (k_pos _ _ _ _ Hc i d Hp) as Hd.
  destruct (checkLogs_next G N pos c i d v Hc Hi Hp Hv) as (li & mx & Hli & Hck & Hprev).
  assert (Hlen : d + 1 <= Z.of_nat (length G)).
  { apply lookup_lt_Some in Hv. lia. }
  assert (Hent : entries_ok G (<[d + 1 := v]> li)).
  { apply entries_insert; [by apply (k_entries _ _ _ _ Hc i)|lia|].
    by replace (d + 1 - 1) with d by lia. }
  assert (Hfull : full_to (<[d + 1 := v]> li) (d + 1)).
  { apply full_insert. by apply (k_full _ _ _ _ Hc i). }
  unfold apply_one. destruct snap eqn:Hsnap.
  - unfold applierSnap. cbn [SnapshotValid CommandValid command_msg CommandIndex].
    rewrite (k_applied _ _ _ _ Hc Hsnap i d Hp), decide_False by (intros H; by apply H).
    rewrite Hck. cbn [logs lastApplied maxIndex]. rewrite Hprev.
    eexists _, _. split; [done|]. split.
    + apply chk_ok_update; [done..|lia|by left|done].
    + intros index b. destruct (decide (Z.rem (d + 1 + 1) SnapShotInterval = 0)); [|done]. intros [= <- <-]. split; [done|].
      rewrite list_lookup_insert_eq by (by rewrite (k_logs _ _ _ _ Hc)). cbn [default].
      apply snap_log_good; [done..|lia].
  - unfold applier. cbn [CommandValid command_msg CommandIndex]. rewrite Hck, Hprev.
    eexists _, _. split; [done|]. split; [|done].
    apply chk_ok_update; [done..|lia|by right|done].
Qed.

Lemma apply_snapshot G N pos c i index b :
  snap = true -> chk_ok G N pos c -> (i < N)%nat -> good_snapshot G index b ->
  ∃ c', apply_one c i (snapshot_msg index b) = RaftChecker.Pass (c', None) ∧
    chk_ok G N (λ j, if decide (j = i) then Some index else pos j) c'.
Proof.
  intros Hsnap Hc Hi [Hb Hx (xlog & Hdec & Hent & Hfull)]. unfold apply_one. rewrite Hsnap.
  unfold applierSnap, ingestSnap. cbn [SnapshotValid snapshot_msg Snapshot SnapshotIndex].
  rewrite Hdec, (bool_decide_false (index ≠ index)), andb_false_r by (intros H; by apply H).
  eexists. split; [done|]. apply chk_ok_update; [done..|by left|done].
Qed.

(** A server that starts from a good snapshot, or from none. *)
Lemma restored_ok G N pos c i content :
  chk_ok G N pos c -> (i < N)%nat ->
  (forall rs b, content = Some (rs, b) -> b = [] ∨ ∃ index, good_snapshot G index b) ->
  ∃ c', restored_chk decode_snap c i content = Some c' ∧
    chk_ok G N (λ j, if decide (j = i) then Some (snapshot_index content) else pos j) c'.
Proof.
  intros Hc Hi Hgood. destruct (lookup_lt_is_Some_2 (logs c) i) as [li Hli].
  { by rewrite (k_logs _ _ _ _ Hc). }
  assert (Hreset : chk_ok G N (λ j, if decide (j = i) then Some 0 else pos j)
    (RaftChecker.Config (logs c) (<[i := 0]> (lastApplied c)) (maxIndex c))).
  { rewrite <- (list_insert_id (logs c) i li Hli).
    apply chk_ok_update; [done|by apply (k_entries _ _ _ _ Hc i)|intros j; lia|lia|by left|done]. }
  destruct content as [[rs [|x b]]|]; [by eexists| |by eexists].
  destruct (Hgood rs (x :: b) eq_refl) as [|[index [_ Hx (xlog & Hdec & Hent & Hfull)]]]; [done|].
  unfold restored_chk, ingestSnap, snapshot_index. rewrite Hdec. cbn [from_option fst].
  eexists. split; [done|]. unfold set_log. cbn [logs lastApplied maxIndex].
  rewrite list_insert_insert_eq. apply chk_ok_update; [done..|by left|done].
Qed.

(** ** The invariant of a test *)

(** Where the live instance of a server is. *)
Definition position (s : session) (i : nat) : option Z :=
  k ← mjoin (rafts (harness s) !! i); Some (at_index s k).

Definition persistable (s : session) (content : list byte * list byte) : Prop :=
  content.2 = [] ∨ ∃ index, (index, content.2) ∈ made s.

Record session_ok (N : nat) (s : session) : Prop := {
  so_all : all_ok (harness s);
  so_n : n (harness s) = N;
  so_chk : chk_ok (committed s) N (position s) (chk (harness s));
  so_started : forall i, (i < N)%nat -> is_Some (mjoin (endnames (harness s) !! i));
  so_made : forall index b, (index, b) ∈ made s -> snap = true ∧ good_snapshot (committed s) index b;
  so_heap : heap_all (persistable s) (harness s)
}.

Lemma set_chk_all (cfg : @config V) c : all_ok cfg -> all_ok (set_chk cfg c).
Proof. intros [[] [] []]. split; by split. Qed.

Lemma good_snapshot_snoc G v index b : good_snapshot G index b -> good_snapshot (G ++ [v]) index b.
Proof.
  intros [H1 H2 (xlog & H3 & H4 & H5)]. split; [done|rewrite length_app; simpl; lia|].
  exists xlog. split_and!; [done| |done]. intros j w Hw. by apply entry_ok_snoc, H4.
Qed.

Lemma commit_ok N s v :
  session_ok N s -> session_ok N (MkSession (harness s) (committed s ++ [v]) (delivered s) (made s)).
Proof.
  intros [H1 H2 [C1 C2 C3 C4 C5 C6] H4 H5 H6]. split; simpl; try done.
  - split; [done|done| | |done|done].
    + intros i li Hi j w Hw. apply entry_ok_snoc. by apply (C3 i li Hi).
    + intros i d Hd. specialize (C4 i d Hd). rewrite length_app. simpl. lia.
  - intros index b Hb. destruct (H5 index b Hb). split; [done|by apply good_snapshot_snoc].
Qed.

(** Two servers do not share an instance. *)
Lemma position_update s i k d cfg :
  live_ok (harness s) -> rafts (harness s) !! i = Some (Some k) -> rafts cfg = rafts (harness s) ->
  forall o j e,
    position (MkSession cfg (committed s) (<[k := d]> (delivered s)) o) j = Some e ->
    (if decide (j = i) then Some d else position s j) = Some e.
Proof.
  intros Hl Hk Hr o j e. unfold position, at_index. simpl. rewrite Hr.
  destruct (rafts (harness s) !! j) as [[k'|]|] eqn:Hj; [|done..]. simpl. case_decide as Hji.
  - subst j. assert (k' = k) as -> by congruence. by rewrite lookup_insert_eq.
  - rewrite lookup_insert_ne; [done|]. intros <-.
    destruct (v_slot _ Hl i k Hk) as (rf & Hrf & Hme & _).
    destruct (v_slot _ Hl j k Hj) as (rf' & Hrf' & Hme' & _). congruence.
Qed.

Lemma live_lt N s i k : session_ok N s -> rafts (harness s) !! i = Some (Some k) -> (i < N)%nat.
Proof.
  intros Hs Hk. rewrite <- (so_n _ _ Hs). apply lookup_lt_Some in Hk.
  destruct (s_len _ (ok_store _ (so_all _ _ Hs))) as [_ Hl]. lia.
Qed.

Lemma persistable_more s cfg dl o content :
  persistable s content -> persistable (MkSession cfg (committed s) dl (o ++ made s)) content.
Proof. intros [H|[index H]]; [by left|]. right. exists index. apply elem_of_app. by right. Qed.

Lemma receive_ok N s i k m d :
  session_ok N s -> rafts (harness s) !! i = Some (Some k) ->
  (∃ c o, apply_one (chk (harness s)) i m = RaftChecker.Pass (c, o) ∧
     chk_ok (committed s) N (λ j, if decide (j = i) then Some d else position s j) c ∧
     forall index b, o = Some (index, b) -> snap = true ∧ good_snapshot (committed s) index b) ->
  ∃ s', receive s i k m d = Some s' ∧ session_ok N s'.
Proof.
  intros Hs Hk (c & o & Ha & Hc & Ho). unfold receive. rewrite Ha. eexists. split; [done|].
  destruct Hs as [H1 H2 H3 H4 H5 H6]. split; simpl; try done.
  - by apply set_chk_all.
  - eapply chk_ok_weaken; [|exact Hc]. apply position_update; [apply H1|done|done].
  - intros index b [Hb|Hb]%elem_of_app; [|by apply H5].
    destruct o as [[index' b']|]; [|by apply elem_of_nil in Hb].
    apply list_elem_of_singleton in Hb as [= -> ->]. by apply Ho.
  - intros p content Hp. by apply persistable_more, (H6 p).
Qed.

(** Steps of the harness that leave the appliers and the instances' places alone. *)
Lemma harness_ok N s cfg :
  session_ok N s -> all_ok cfg -> n cfg = n (harness s) -> chk cfg = chk (harness s) ->
  endnames cfg = endnames (harness s) -> heap_all (persistable s) cfg ->
  (forall i k, rafts cfg !! i = Some (Some k) -> rafts (harness s) !! i = Some (Some k)) ->
  session_ok N (with_harness s cfg).
Proof.
  intros [H1 H2 H3 H4 H5 H6] Hok Hn Hc He Hh Hr. split; simpl; rewrite ?Hn, ?Hc, ?He; try done.
  eapply chk_ok_weaken; [|exact H3]. intros i d. unfold position, at_index. simpl.
  destruct (rafts cfg !! i) as [[k|]|] eqn:Hi; [|done..]. by rewrite (Hr i k Hi).
Qed.

(** ** Every step keeps the invariant, and none ends the test *)

Lemma same_tables_ok N s cfg :
  session_ok N s -> cstep decode_snap (harness s) cfg -> rewired (harness s) cfg ->
  session_ok N (with_harness s cfg).
Proof.
  intros Hs Hstep [(bits & rn & Hcfg) _ _ _].
  destruct (cstep_all decode_snap _ _ Hstep (so_all _ _ Hs)) as (Hok & _ & Hn).
  subst cfg. apply harness_ok; try done. apply (so_heap _ _ Hs).
Qed.

Lemma crash_session_ok N s i :
  session_ok N s -> (i < n (harness s))%nat ->
  ∃ cfg, crash1 (harness s) i = Some cfg ∧ session_ok N (with_harness s cfg).
Proof.
  intros Hs Hi. destruct (so_all _ _ Hs) as [Hm Hst Hl].
  destruct (disconnect_total _ i Hm Hi) as [cfg1 Hd].
  destruct (crash1 (harness s) i) as [cfg|] eqn:Hc; [|by unfold crash1 in Hc; rewrite Hd in Hc].
  exists cfg. split; [done|].
  destruct (crash1_spec _ _ _ Hm Hst Hi Hc) as [M S N1 _ E1 _ _ _ _ _].
  destruct (crash1_tables _ _ _ Hc) as [A1 _ _ _ A5 _].
  apply harness_ok; try done.
  - split; [done|done|by eapply crash1_live].
  - by eapply crash1_all, (so_heap _ _ Hs).
  - intros j k. rewrite A1. destruct (mjoin (rafts (harness s) !! i)); [|done].
    intros [[_ [H _]]|[_ H]]%list_lookup_insert_Some; done.
Qed.

(** The content of a persister is empty or ends with a good snapshot. *)
Lemma saved_good N s i rs b :
  session_ok N s -> saved_content (harness s) i = Some (rs, b) ->
  b = [] ∨ ∃ index, good_snapshot (committed s) index b.
Proof.
  intros Hs Hc. destruct (saved_content_all _ _ _ _ (so_heap _ _ Hs) Hc) as [H|[index H]].
  - by left.
  - right. exists index. by apply (so_made _ _ Hs).
Qed.

Lemma restart_position s i cfg names d :
  live_ok (harness s) -> (i < length (rafts (harness s)))%nat ->
  started_tables decode_snap (harness s) cfg i names -> forall j e,
  position (MkSession cfg (committed s) (<[length (instances (harness s)) := d]> (delivered s))
    (made s)) j = Some e ->
  (if decide (j = i) then Some d else position s j) = Some e.
Proof.
  intros Hl Hi Ht j e. destruct (st_rafts _ _ _ _ _ Ht) as (k & Hr & -> & _).
  unfold position, at_index. simpl. rewrite Hr. case_decide as Hj.
  - subst j. rewrite list_lookup_insert_eq by done. simpl. by rewrite lookup_insert_eq.
  - rewrite list_lookup_insert_ne by done.
    destruct (rafts (harness s) !! j) as [[k'|]|] eqn:Hk; [|done..]. simpl.
    rewrite lookup_insert_ne; [done|]. intros <-.
    destruct (v_slot _ Hl j _ Hk) as (rf & Hrf & _). apply lookup_lt_Some in Hrf. lia.
Qed.

Lemma restart_ok N s i names :
  session_ok N s -> (i < n (harness s))%nat -> length names = n (harness s) ->
  fresh_names names (net (harness s)) -> ∃ s', restart s i names = Some s' ∧ session_ok N s'.
Proof.
  intros Hs Hi Hlen Hf. destruct (so_all _ _ Hs) as [Hm Hst Hl].
  destruct (start1_total decode_snap _ i names Hm Hst Hi Hf) as [cfg Hc].
  { unfold snapshot_ok. destruct (saved_content (harness s) i) as [[rs [|x b]]|] eqn:Hsv; [done| |done].
    destruct (saved_good N s i rs (x :: b) Hs Hsv) as [|[index [_ _ (xlog & -> & _)]]]; [done|by eexists]. }
  unfold restart. rewrite Hc. simpl. eexists. split; [done|].
  pose proof (start1_tables decode_snap _ _ _ _ Hm Hst Hi Hf Hc) as Ht.
  destruct (cstep_all decode_snap _ _ (S_start _ _ _ _ _ Hi Hlen Hf Hc) (so_all _ _ Hs))
    as (Hok & _ & Hn).
  pose proof (so_n _ _ Hs) as HN.
  assert (Hr : (i < length (rafts (harness s)))%nat) by (destruct (s_len _ Hst); lia).
  destruct (restored_ok (committed s) N (position s) (chk (harness s)) i
    (saved_content (harness s) i) (so_chk _ _ Hs)) as (c' & Hrc & Hck); [lia| |].
  { intros rs b Hb. by eapply saved_good. }
  rewrite (st_chk _ _ _ _ _ Ht) in Hrc. injection Hrc as <-.
  split; simpl; [done|congruence| | |apply (so_made _ _ Hs)|].
  - eapply chk_ok_weaken; [|exact Hck]. by eapply restart_position.
  - intros j Hj. rewrite (st_endnames _ _ _ _ _ Ht). destruct (decide (j = i)) as [->|Hji].
    + rewrite list_lookup_insert_eq by (rewrite (m_endnames _ Hm); lia). by eexists.
    + rewrite list_lookup_insert_ne by done. by apply (so_started _ _ Hs).
  - eapply start1_all; [by left|exact Hc|]. apply (so_heap _ _ Hs).
Qed.

Lemma session_step N s o : session_ok N s -> sstep s o -> ∃ s', o = Some s' ∧ session_ok N s'.
Proof.
  intros Hs Hstep. pose proof (so_n _ _ Hs) as HN. destruct (so_all _ _ Hs) as [Hm Hst Hl].
  destruct Hstep as [v|i k v Hk Hv|i k index b Hk Hb|k content cfg Hsave Hc|i Hi|i Hi|i Hi|i names Hi Hlen Hf].
  - eexists. split; [done|]. by apply commit_ok.
  - apply receive_ok; [done|done|]. apply apply_command; [apply Hs|by eapply live_lt| |done].
    unfold position. by rewrite Hk.
  - destruct (so_made _ _ Hs index b Hb) as [Hsnap Hgood]. apply receive_ok; [done|done|].
    destruct (apply_snapshot (committed s) N (position s) (chk (harness s)) i index b)
      as (c' & Ha & Hck); [done|apply Hs|by eapply live_lt|done|].
    exists c', None. by split_and!.
  - eexists. split; [done|].
    destruct (cstep_all decode_snap _ _ (S_save _ _ _ _ _ Hsave) (so_all _ _ Hs)) as (Hok & _ & Hn).
    unfold late_save in Hsave. destruct (instances (harness s) !! k); [|done]. injection Hsave as <-.
    apply harness_ok; try done. apply map_Forall_insert_2; [done|]. apply (so_heap _ _ Hs).
  - destruct (connect_total _ i Hm Hi) as [cfg Hc].
    { apply is_started_spec, (so_started _ _ Hs). by rewrite <- HN. }
    rewrite Hc. eexists. split; [done|].
    apply same_tables_ok; [done|by eapply S_connect|by eapply raft_connect_rewired].
  - destruct (disconnect_total _ i Hm Hi) as [cfg Hc]. rewrite Hc. eexists. split; [done|].
    apply same_tables_ok; [done|by eapply S_disconnect|by eapply raft_disconnect_rewired].
  - destruct (crash_session_ok N s i Hs Hi) as (cfg & -> & Hok). by eexists.
  - by apply restart_ok.
Qed.

Definition steps : session -> session -> Prop := rtc (λ s s', sstep s (Some s')).

Lemma session_steps N s s' : session_ok N s -> steps s s' -> session_ok N s'.
Proof.
  intros Hs Hr. induction Hr as [s|s s1 s2 H1 _ IH]; [done|]. apply IH.
  destruct (session_step N s _ Hs H1) as (s' & [= <-] & Hok). done.
Qed.
End Codec.

(** A test after [make_config], with nothing delivered. *)
Definition begin_session (cfg : @config V) : session := MkSession cfg [] ∅ [].
End Apply.
End RaftApply.
Import RaftApply.

Section Theorems.
Context {V : Type} `{!EqDecision V} (vnil : V).
Context (encode_snap : Z * list V -> list byte) (decode_snap : list byte -> option (Z * list V)).
Context (snap : bool).

Lemma begin_session_ok N unreliable namess cfg :
  names_ok N namess -> make_config decode_snap N unreliable namess = Some cfg ->
  session_ok vnil decode_snap snap N (begin_session cfg).
Proof.
  intros Hok Hm. destruct (raft_make_config_ok decode_snap N unreliable namess Hok)
    as (cfg' & Hm' & Hall & Hn & _ & Hserv & Hck). assert (cfg' = cfg) as -> by congruence.
  split; simpl; [done|done| |intros i Hi; by apply Hserv|by intros ?? ?%elem_of_nil|].
  - rewrite Hck. assert (Hpos : forall i d, position (begin_session cfg) i = Some d -> d = 0).
    { intros i d. unfold position, at_index. simpl. destruct (mjoin _); [|done].
      simpl. rewrite lookup_empty. by intros [= <-]. }
    split; simpl; rewrite ?length_replicate; try done.
    + intros i li [-> _]%lookup_replicate j v. by rewrite lookup_empty.
    + intros i d ->%Hpos. lia.
    + intros i d li ->%Hpos _ j Hj. lia.
    + intros _ i d Hp. rewrite (Hpos i d Hp). apply lookup_replicate_2.
      unfold position in Hp. simpl in Hp. destruct (rafts cfg !! i) eqn:Hr; simpl in Hp; [|done].
      rewrite <- Hn. apply lookup_lt_Some in Hr. destruct (s_len _ (ok_store _ Hall)). lia.
  - eapply (make_config_all decode_snap); [|exact Hm]. by left.
Qed.

(** C17: no false alarms, under a condition on crashes: only the live instance of a server
    delivers, and that an instance hands over a message and the applier checks it is one step,
    so that no message of a killed instance is still on its way (one that is can end the test,
    see [late_delivery_ends_test]).  When the instances deliver one common sequence of
    commands, each in order from the end of its persisted snapshot, then in every interleaving
    of such deliveries with snapshots, crashes, restarts and changes of the network, no check
    of the appliers and no step of the harness ends the test; every live server's log holds
    the commands it was delivered, and [nCommitted] finds no disagreement and returns the
    committed command. *)
Theorem correct_raft_passes N unreliable namess cfg0 s :
  (forall x, decode_snap (encode_snap x) = Some x) -> (forall x, encode_snap x ≠ []) ->
  names_ok N namess -> make_config decode_snap N unreliable namess = Some cfg0 ->
  steps vnil encode_snap decode_snap snap (begin_session cfg0) s ->
  (forall o, sstep vnil encode_snap decode_snap snap s o -> o ≠ None) ∧
  (forall i k j, rafts (harness s) !! i = Some (Some k) -> 1 <= j <= at_index s k ->
     ∃ li, logs (chk (harness s)) !! i = Some li ∧ is_Some (li !! j) ∧
       li !! j = committed s !! Z.to_nat (j - 1)) ∧
  forall index, 1 <= index -> ∃ cmd,
    nCommitted vnil (chk (harness s)) index =
      RaftChecker.Pass (committed_by (logs (chk (harness s))) index, cmd) ∧
    forall l w, l ∈ logs (chk (harness s)) -> l !! index = Some w ->
      cmd = w ∧ committed s !! Z.to_nat (index - 1) = Some w.
Proof.
  intros Hrt Hne Hok Hm Hsteps.
  pose proof (session_steps vnil encode_snap decode_snap snap Hrt Hne N _ _
    (begin_session_ok N unreliable namess cfg0 Hok Hm) Hsteps) as Hs.
  pose proof (so_chk _ _ _ _ _ Hs) as Hc. split_and!.
  - intros o Ho. by destruct (session_step vnil encode_snap decode_snap snap Hrt Hne N s o Hs Ho)
      as (s' & -> & _).
  - intros i k j Hk Hj. assert (Hp : position s i = Some (at_index s k)).
    { unfold position. by rewrite Hk. }
    assert (Hi : (i < N)%nat) by by eapply live_lt.
    rewrite <- (k_logs _ _ _ _ _ _ Hc) in Hi. apply lookup_lt_is_Some_2 in Hi as [li Hli].
    destruct (k_full _ _ _ _ _ _ Hc i _ li Hp Hli j Hj) as [v Hv]. exists li.
    rewrite Hv. split_and!; [done|by eexists|].
    destruct (k_entries _ _ _ _ _ _ Hc i li Hli j v Hv) as [[? _]|[_ ->]]; [lia|done].
  - intros index Hx. destruct (nCommitted_spec vnil (chk (harness s)) index) as (cmd & Hcmd & Hall & _).
    { by eapply chk_ok_agree. }
    exists cmd. split; [done|]. intros l w Hl Hw. split; [by eapply Hall|].
    apply list_elem_of_lookup in Hl as [i Hi].
    destruct (k_entries _ _ _ _ _ _ Hc i l Hi index w Hw) as [[? _]|[_ ?]]; [lia|done].
Qed.
End Theorems.

(** ** Witness: two servers; the first applies a command and is restarted *)
Module RaftApplyDemo.

(** A concrete encoding: the bits of a number, a byte each. *)
Fixpoint bits_of (p : positive) : list byte :=
  match p with
  | xH => [x01]
  | xO p => x00 :: bits_of p
  | xI p => x02 :: bits_of p
  end.

Fixpoint of_bits (bs : list byte) : option positive :=
  match bs with
  | x01 :: _ => Some xH
  | x00 :: bs => xO <$> of_bits bs
  | x02 :: bs => xI <$> of_bits bs
  | _ => None
  end.

Definition enc (x : Z * list Z) : list byte := bits_of (encode x).
Definition dec (bs : list byte) : option (Z * list Z) := of_bits bs ≫= decode.

Lemma dec_enc x : dec (enc x) = Some x.
Proof.
  unfold dec, enc. assert (H : of_bits (bits_of (encode x)) = Some (encode x)).
  { generalize (encode x). induction p as [p IH|p IH|]; simpl; by rewrite ?IH. }
  rewrite H. apply decode_encode.
Qed.

Lemma enc_not_empty x : enc x ≠ [].
Proof. unfold enc. by destruct (encode x). Qed.

Definition c0 : @config Z := default (initial_config 2) (make_config dec 2 true RaftTestDemo.names).

Lemma c0_made : make_config dec 2 true RaftTestDemo.names = Some c0.
Proof. vm_compute. reflexivity. Qed.

(** The command 7 is committed, server 0 applies it and is started again. *)
Definition s1 : session := MkSession c0 [7] ∅ [].
Definition s2 : session := default s1 (receive 0 enc dec true s1 0 0 (command_msg 1 7) 1).
Definition s3 : session := default s2 (restart dec s2 0 ["c0"; "c1"]).

Lemma s3_reached : steps 0 enc dec true (begin_session c0) s3.
Proof.
  apply (rtc_l _ _ s1); [by apply (Commits 0 enc dec true (begin_session c0) 7)|].
  apply (rtc_l _ _ s2).
  { replace (Some s2) with (receive 0 enc dec true s1 0 0 (command_msg 1 7) 1)
      by (vm_compute; reflexivity).
    by apply (Delivers 0 enc dec true s1 0 0 7); vm_compute. }
  apply rtc_once. replace (Some s3) with (restart dec s2 0 ["c0"; "c1"])
    by (vm_compute; reflexivity).
  apply Restarts; [vm_compute; lia|vm_compute; reflexivity|].
  split; [apply (bool_decide_unpack _); vm_compute; exact I|].
  intros e [->|[->|[]%elem_of_nil]%elem_of_cons]%elem_of_cons;
    apply (bool_decide_unpack _); vm_compute; exact I.
Qed.
End RaftApplyDemo.
Import RaftApplyDemo.

Lemma correct_raft_passes_witness :
  (forall o, sstep 0 enc dec true s3 o -> o ≠ None) ∧
  ∃ cmd, nCommitted 0 (chk (harness s3)) 1 = RaftChecker.Pass (1%nat, cmd).
Proof.
  destruct (correct_raft_passes 0 enc dec true 2 true RaftTestDemo.names c0 s3 dec_enc
    enc_not_empty RaftTestDemo.names_demo_ok c0_made s3_reached) as (H1 & _ & H2).
  split; [exact H1|]. destruct (H2 1 ltac:(lia)) as (cmd & H & _). exists cmd.
  etransitivity; [exact H|]. by vm_compute.
Defined.

(** Only the live instance may deliver: the applier of an instance that was killed shares
    [logs] and [lastApplied] with that of the new one.  The second command, which the first
    instance of server 0 was about to deliver when the server was restarted, is right, but
    comes when the applier expects index 1, and ends the test. *)
Example late_delivery_ends_test :
  dead <$> instances (harness s3) !! 0%nat = Some true ∧ at_index s3 0 = 1 ∧
  apply_one 0 enc dec true (chk (harness s3)) 0 (command_msg 2 8) = RaftChecker.FatalErr.
Proof. by vm_compute. Qed.
