(* ===== verification/KvConfig.v ===== *)
(** * [kvraft/config.go]: partitions of the key/value servers

    Connecting servers to lists of servers, the two partitions of a test, choosing them so
    that the leader is in the minority, the ends of a clerk, and the shuffle of its
    servers.  Same network and tables of ends as in [RaftConfig]. *)
From S2P Require Import Prelude Labrpc Mesh.
Import Labrpc.

Module KvConfig.

Record config := Config {
  net : network;
  n : nat;
  endnames : endtable;
  clerks : gmap nat (list string);     (* by clerk *)
  nextClientId : Z
}.

Definition set_net (cfg : config) (rn : network) : config :=
  Config rn (n cfg) (endnames cfg) (clerks cfg) (nextClientId cfg).

(** [connectUnlocked]; [None] is a panic on an index out of range or a [nil] row. *)
Definition connectUnlocked (cfg : config) (i : nat) (to : list nat) : option config :=
  out ← mapM (λ j, ep (endnames cfg) i j) to;
  inc ← mapM (λ j, ep (endnames cfg) j i) to;
  Some (set_net cfg (enable_all inc true (enable_all out true (net cfg)))).

(** The first loop of [disconnectUnlocked]: the row is tested in each iteration. *)
Definition outgoing (cfg : config) (i : nat) (from : list nat) : option (list string) :=
  match from with
  | [] => Some []
  | _ :: _ =>
      st ← started (endnames cfg) i;
      if (st : bool) then mapM (λ j, ep (endnames cfg) i j) from else Some []
  end.

(** The second loop of [disconnectUnlocked] tests row [j], the position in [from], but
    uses row [from[j]]. *)
Fixpoint incoming (cfg : config) (i : nat) (from : list nat) (j : nat) : option (list string) :=
  match from with
  | [] => Some []
  | f :: from' =>
      st ← started (endnames cfg) j;
      if (st : bool) then
        e ← ep (endnames cfg) f i;
        es ← incoming cfg i from' (S j);
        Some (e :: es)
      else incoming cfg i from' (S j)
  end.

Definition disconnectUnlocked (cfg : config) (i : nat) (from : list nat) : option config :=
  out ← outgoing cfg i from;
  inc ← incoming cfg i from 0;
  Some (set_net cfg (enable_all inc false (enable_all out false (net cfg)))).

Definition All (cfg : config) : list nat := seq 0 (n cfg).

(** A loop over servers. *)
Fixpoint for_each (f : config -> nat -> option config) (ks : list nat) (cfg : config) :
    option config :=
  match ks with
  | [] => Some cfg
  | i :: ks' => cfg' ← f cfg i; for_each f ks' cfg'
  end.

Definition ConnectAll (cfg : config) : option config :=
  for_each (λ cfg i, connectUnlocked cfg i (All cfg)) (seq 0 (n cfg)) cfg.

(** The body of the loops of [partition]. *)
Definition isolate (p others : list nat) (cfg : config) (i : nat) : option config :=
  cfg' ← disconnectUnlocked cfg i others; connectUnlocked cfg' i p.

Definition partition (cfg : config) (p1 p2 : list nat) : option config :=
  cfg' ← for_each (isolate p1 p2) p1 cfg; for_each (isolate p2 p1) p2 cfg'.

(** [Leader]: [states] is what [GetState] says of each server from number [i] on, [None] for
    a server that is not running: a [nil] pointer that is dereferenced.  Returns the first
    leader. *)
Fixpoint Leader (states : list (option bool)) (i : nat) : option (bool * nat) :=
  match states with
  | [] => Some (false, 0)
  | None :: _ => None
  | Some true :: _ => Some (true, i)
  | Some false :: states' => Leader states' (S i)
  end.

(** [Leader] of [shardctrler/config.go] tests for [nil]. *)
Fixpoint ctrler_Leader (states : list (option bool)) (i : nat) : option (bool * nat) :=
  match states with
  | [] => Some (false, 0)
  | Some true :: _ => Some (true, i)
  | _ :: states' => ctrler_Leader states' (S i)
  end.

(** The loop of [make_partition]; [None] is a panic on an index out of range. *)
Fixpoint fill (ks : list nat) (l : nat) (p1 p2 : list nat) (j : nat) :
    option (list nat * list nat) :=
  match ks with
  | [] => Some (p1, p2)
  | i :: ks' =>
      if decide (i ≠ l) then
        if decide (j < length p1) then fill ks' l (<[j := i]> p1) p2 (S j)
        else p2' ← p2.[Z.of_nat (j - length p1) := i]; fill ks' l p1 p2' (S j)
      else fill ks' l p1 p2 j
  end.

(** [make_partition] when the leader is [l]. *)
Definition split_servers (n l : nat) : option (list nat * list nat) :=
  '(p1, p2) ← fill (seq 0 n) l (replicate (n / 2 + 1) 0) (replicate (n / 2) 0) 0;
  p2' ← p2.[Z.of_nat (length p2) - 1 := l];
  Some (p1, p2').

Definition make_partition (n : nat) (states : list (option bool)) :
    option (list nat * list nat) :=
  '(_, l) ← Leader states 0; split_servers n l.

Definition ctrler_make_partition (n : nat) (states : list (option bool)) :
    option (list nat * list nat) :=
  '(_, l) ← ctrler_Leader states 0; split_servers n l.

(** [random_handles]: [js] are the values of [rand.Intn(i + 1)]. *)
Fixpoint shuffle {A} (sa : list A) (i : nat) (js : list nat) : list A :=
  match js with
  | [] => sa
  | j :: js' =>
      let sa' := match sa !! i, sa !! j with
                 | Some x, Some y => <[j := x]> (<[i := y]> sa)
                 | _, _ => sa
                 end in
      shuffle sa' (S i) js'
  end.

Definition random_handles {A} (kvh : list A) (js : list nat) : list A := shuffle kvh 0 js.

(** *** Clerks *)

Definition ConnectClientUnlocked (cfg : config) (ck : nat) (to : list nat) : option config :=
  let es := default [] (clerks cfg !! ck) in
  out ← mapM (λ j, es !! j) to;
  Some (set_net cfg (enable_all out true (net cfg))).

Definition DisconnectClientUnlocked (cfg : config) (ck : nat) (from : list nat) :
    option config :=
  let es := default [] (clerks cfg !! ck) in
  out ← mapM (λ j, es !! j) from;
  Some (set_net cfg (enable_all out false (net cfg))).

(** [names] are the random strings, [ck] the new clerk. *)
Definition makeClient (cfg : config) (ck : nat) (names : list string) (to : list nat) :
    option config :=
  rn ← make_ends names 0 (net cfg);
  ConnectClientUnlocked
    (Config rn (n cfg) (endnames cfg) (<[ck := names]> (clerks cfg)) (nextClientId cfg + 1)) ck to.

Definition deleteClient (cfg : config) (ck : nat) : config :=
  Config (net cfg) (n cfg) (endnames cfg) (delete ck (clerks cfg)) (nextClientId cfg).

(** ** Partitions *)

(** Every server has been started. *)
Record all_started (cfg : config) : Prop := {
  a_rows : forall i, i < n cfg -> ∃ es, endnames cfg !! i = Some (Some es) ∧ length es = n cfg;
  a_unique : unique_ends (endnames cfg);
  a_len : length (endnames cfg) = n cfg
}.

Definition link (cfg : config) (i j : nat) : bool :=
  match ep (endnames cfg) i j with
  | Some e => is_enabled (net cfg) (inl e)
  | None => false
  end.

Lemma all_started_ep cfg i j : all_started cfg -> i < n cfg -> j < n cfg ->
  is_Some (ep (endnames cfg) i j).
Proof.
  intros Ha Hi Hj. destruct (a_rows _ Ha i Hi) as (es & Hes & Hl). unfold ep. rewrite Hes.
  simpl. apply lookup_lt_is_Some_2. by rewrite Hl.
Qed.

Lemma incoming_total cfg i from j :
  all_started cfg -> i < n cfg -> Forall (λ f, f < n cfg) from -> j + length from ≤ n cfg ->
  ∃ es, incoming cfg i from j = Some es ∧
    forall e, e ∈ es <-> ∃ f, f ∈ from ∧ ep (endnames cfg) f i = Some e.
Proof.
  intros Ha Hi Hf. revert j. induction Hf as [|f from Hf _ IH]; intros j Hj; simpl.
  { exists []. split; [done|]. intros e. split; [intros He; by apply elem_of_nil in He|].
    intros (f & Hin & _). by apply elem_of_nil in Hin. }
  simpl in Hj. destruct (a_rows _ Ha j) as (es & Hes & _); [lia|].
  unfold started. rewrite Hes. simpl.
  destruct (all_started_ep cfg f i Ha Hf Hi) as [e He]. rewrite He. simpl.
  destruct (IH (S j)) as (es' & Hr & Hel); [lia|]. rewrite Hr. simpl. exists (e :: es').
  split; [done|]. intros e'. rewrite elem_of_cons, Hel. split.
  - intros [->|(f' & ? & ?)]; [exists f; split; [left|done]|exists f'; split; [by right|done]].
  - intros (f' & [->|Hin]%elem_of_cons & Hx); [left; congruence|right; eauto].
Qed.

(** What the two operations do to the links. *)
Lemma disconnect_links cfg i from :
  all_started cfg -> i < n cfg -> Forall (λ f, f < n cfg) from -> length from ≤ n cfg ->
  ∃ cfg', disconnectUnlocked cfg i from = Some cfg' ∧ all_started cfg' ∧ n cfg' = n cfg ∧
    forall a b, a < n cfg -> b < n cfg ->
      link cfg' a b =
        if decide ((a = i ∧ b ∈ from) ∨ (b = i ∧ a ∈ from)) then false else link cfg a b.
Proof.
  intros Ha Hi Hf Hl. unfold disconnectUnlocked.
  destruct (a_rows _ Ha i Hi) as (es & Hes & Hlen).
  assert (Hst : outgoing cfg i from = mapM (λ j, ep (endnames cfg) i j) from).
  { unfold outgoing, started. rewrite Hes. by destruct from. }
  rewrite Hst. clear Hst. destruct (mapM_total (λ j, ep (endnames cfg) i j) from) as [out Ho].
  { intros j Hj. rewrite Forall_forall in Hf. by apply all_started_ep; auto. }
  rewrite Ho. simpl. destruct (incoming_total cfg i from 0 Ha Hi Hf) as (inc & Hr & Hinc); [lia|].
  rewrite Hr. simpl. eexists. split; [done|]. split; [destruct Ha; by split|]. split; [done|].
  intros a b Hab Hbb. unfold link. simpl.
  destruct (all_started_ep cfg a b Ha Hab Hbb) as [e He]. rewrite He, !enable_all_enabled.
  pose proof (mapM_elem _ _ _ e Ho) as Hout. pose proof (a_unique _ Ha) as Hu.
  destruct (decide (e ∈ inc)) as [Hin|Hn1].
  { apply Hinc in Hin as (f & Hin & Hx). destruct (Hu _ _ _ _ _ He Hx) as [-> ->].
    rewrite decide_True by auto. done. }
  destruct (decide (e ∈ out)) as [Hin|Hn2].
  { apply Hout in Hin as (f & Hin & Hx). destruct (Hu _ _ _ _ _ He Hx) as [-> ->].
    rewrite decide_True by auto. done. }
  rewrite decide_False; [done|]. intros [[-> Hin]|[-> Hin]].
  - apply Hn2, Hout. eauto.
  - apply Hn1, Hinc. eauto.
Qed.

Lemma connect_links cfg i to :
  all_started cfg -> i < n cfg -> Forall (λ f, f < n cfg) to ->
  ∃ cfg', connectUnlocked cfg i to = Some cfg' ∧ all_started cfg' ∧ n cfg' = n cfg ∧
    forall a b, a < n cfg -> b < n cfg ->
      link cfg' a b =
        if decide ((a = i ∧ b ∈ to) ∨ (b = i ∧ a ∈ to)) then true else link cfg a b.
Proof.
  intros Ha Hi Hf. unfold connectUnlocked. rewrite Forall_forall in Hf.
  destruct (mapM_total (λ j, ep (endnames cfg) i j) to) as [out Ho].
  { intros j Hj. by apply all_started_ep; auto. }
  destruct (mapM_total (λ j, ep (endnames cfg) j i) to) as [inc Hc].
  { intros j Hj. by apply all_started_ep; auto. }
  rewrite Ho. simpl. rewrite Hc. simpl.
  eexists. split; [done|]. split; [destruct Ha; by split|]. split; [done|].
  intros a b Hab Hbb. unfold link. simpl.
  destruct (all_started_ep cfg a b Ha Hab Hbb) as [e He]. rewrite He, !enable_all_enabled.
  pose proof (mapM_elem _ _ _ e Ho) as Hout. pose proof (mapM_elem _ _ _ e Hc) as Hinc.
  pose proof (a_unique _ Ha) as Hu.
  destruct (decide (e ∈ inc)) as [Hin|Hn1].
  { apply Hinc in Hin as (f & Hin & Hx). destruct (Hu _ _ _ _ _ He Hx) as [-> ->].
    rewrite decide_True by auto. done. }
  destruct (decide (e ∈ out)) as [Hin|Hn2].
  { apply Hout in Hin as (f & Hin & Hx). destruct (Hu _ _ _ _ _ He Hx) as [-> ->].
    rewrite decide_True by auto. done. }
  rewrite decide_False; [done|]. intros [[-> Hin]|[-> Hin]].
  - apply Hn2, Hout. eauto.
  - apply Hn1, Hinc. eauto.
Qed.

(** One side of a partition: the links of its servers. *)
Lemma isolate_links p others ks cfg :
  all_started cfg -> Forall (λ f, f < n cfg) p -> Forall (λ f, f < n cfg) others ->
  length others ≤ n cfg -> (forall x, x ∈ ks -> x ∈ p) -> (forall x, x ∈ p -> x ∉ others) ->
  ∃ cfg', for_each (isolate p others) ks cfg = Some cfg' ∧ all_started cfg' ∧ n cfg' = n cfg ∧
    forall a b, a < n cfg -> b < n cfg ->
      link cfg' a b =
        if decide ((a ∈ ks ∧ b ∈ p) ∨ (b ∈ ks ∧ a ∈ p)) then true
        else if decide ((a ∈ ks ∧ b ∈ others) ∨ (b ∈ ks ∧ a ∈ others)) then false
        else link cfg a b.
Proof.
  intros Ha Hp Ho Hl Hsub Hdis. revert cfg Ha Hp Ho Hl.
  induction ks as [|i ks IH]; intros cfg Ha Hp Ho Hl; cbn [for_each].
  { by exists cfg. }
  assert (Hip : i ∈ p) by (apply Hsub; left).
  assert (Hi : i < n cfg) by (rewrite Forall_forall in Hp; by apply Hp).
  destruct (disconnect_links cfg i others Ha Hi Ho Hl) as (cfg1 & Hr1 & Ha1 & Hn1 & Hlink1).
  destruct (connect_links cfg1 i p Ha1) as (cfg2 & Hr2 & Ha2 & Hn2 & Hlink2); [by rewrite Hn1..|].
  assert (Hiso : isolate p others cfg i = Some cfg2) by (unfold isolate; by rewrite Hr1).
  rewrite Hiso. simpl. rewrite Hn1 in Hn2, Hlink2.
  destruct (IH ltac:(intros x Hx; apply Hsub; by right) cfg2 Ha2)
    as (cfg3 & Hr3 & Ha3 & Hn3 & Hlink3); [by rewrite Hn2..|].
  exists cfg3. rewrite Hn2 in Hn3, Hlink3. split_and!; [done..|]. intros a b Hab Hbb.
  rewrite Hlink3, Hlink2, Hlink1 by done. clear Hlink1 Hlink2 Hlink3.
  assert (Hx := fun x Hin => Hdis x Hin).
  repeat case_decide; try done; exfalso; set_solver.
Qed.

Lemma partition_links cfg p1 p2 :
  all_started cfg -> p1 ++ p2 ≡ₚ seq 0 (n cfg) ->
  ∃ cfg', partition cfg p1 p2 = Some cfg' ∧
    forall a b, a < n cfg -> b < n cfg ->
      link cfg' a b = bool_decide ((a ∈ p1 ∧ b ∈ p1) ∨ (a ∈ p2 ∧ b ∈ p2)).
Proof.
  intros Ha Hperm.
  assert (Hin : forall x, x ∈ p1 ++ p2 <-> x < n cfg).
  { intros x. rewrite Hperm, elem_of_seq. lia. }
  assert (Hnd : NoDup (p1 ++ p2)) by (rewrite Hperm; apply NoDup_seq).
  apply NoDup_app in Hnd as (_ & Hdis & _).
  assert (Hlen : length p1 + length p2 = n cfg).
  { rewrite <- length_app, (Permutation_length Hperm). apply length_seq. }
  assert (Hp1 : Forall (λ f, f < n cfg) p1).
  { apply Forall_forall. intros x Hx. apply Hin. set_solver. }
  assert (Hp2 : Forall (λ f, f < n cfg) p2).
  { apply Forall_forall. intros x Hx. apply Hin. set_solver. }
  destruct (isolate_links p1 p2 p1 cfg Ha Hp1 Hp2) as (cfg1 & Hr1 & Ha1 & Hn1 & Hl1);
    [lia|done|done|].
  destruct (isolate_links p2 p1 p2 cfg1 Ha1) as (cfg2 & Hr2 & Ha2 & Hn2 & Hl2);
    [by rewrite Hn1..|rewrite Hn1; lia|done|set_solver|].
  exists cfg2. unfold partition. rewrite Hr1. simpl. split; [done|]. intros a b Hab Hbb.
  rewrite Hn1 in Hl2. rewrite Hl2, Hl1 by done. apply Hin in Hab, Hbb.
  rewrite elem_of_app in Hab, Hbb. clear Hl1 Hl2 Hr1 Hr2.
  repeat case_decide; case_bool_decide; try done; exfalso; set_solver.
Qed.

(** ** Choosing the partition *)

(** The servers other than [l] fill [p1], then [p2]. *)
Lemma fill_spec ks l p1 p2 j q1 q2 :
  fill ks l p1 p2 j = Some (q1, q2) ->
  length q1 = length p1 ∧ length q2 = length p2 ∧
  forall k, (q1 ++ q2) !! k =
    if decide (k < j) then (p1 ++ p2) !! k
    else match filter (λ i, i ≠ l) ks !! (k - j) with
         | Some i => Some i
         | None => (p1 ++ p2) !! k
         end.
Proof.
  revert p1 p2 j. induction ks as [|i ks IH]; intros p1 p2 j Hf; simpl in Hf.
  { simplify_eq. split_and!; [done..|]. intros k. rewrite filter_nil, lookup_nil. by case_decide. }
  rewrite filter_cons. destruct (decide (i ≠ l)) as [Hne|Heq].
  2: { by apply IH. }
  assert (Hstep : forall p1' p2', fill ks l p1' p2' (S j) = Some (q1, q2) ->
    length p1' = length p1 -> length p2' = length p2 ->
    (p1' ++ p2') = <[j := i]> (p1 ++ p2) -> j < length (p1 ++ p2) ->
    length q1 = length p1 ∧ length q2 = length p2 ∧
    forall k, (q1 ++ q2) !! k =
      if decide (k < j) then (p1 ++ p2) !! k
      else match (i :: filter (λ i, i ≠ l) ks) !! (k - j) with
           | Some i => Some i
           | None => (p1 ++ p2) !! k
           end).
  { intros p1' p2' Hf' Hl1 Hl2 Happ Hj. apply IH in Hf' as (H1 & H2 & H3).
    split_and!; [congruence..|]. intros k. rewrite H3, Happ.
    destruct (decide (k < j)) as [Hkj|Hkj].
    - rewrite decide_True by lia. by rewrite list_lookup_insert_ne by lia.
    - destruct (decide (k = j)) as [->|Hkne].
      + rewrite decide_True by lia. rewrite Nat.sub_diag. simpl. by apply list_lookup_insert_eq.
      + rewrite decide_False by lia. replace (k - j) with (S (k - S j)) by lia. simpl.
        by rewrite list_lookup_insert_ne by lia. }
  destruct (decide (j < length p1)) as [Hj|Hj].
  - apply (Hstep _ _ Hf); [by rewrite length_insert|done| |rewrite length_app; lia].
    by rewrite insert_app_l.
  - destruct (slice_set p2 _ i) as [p2'|] eqn:Hs; [|done]. simpl in Hf.
    unfold slice_set in Hs. case_decide as Hlt; [|done]. rewrite Nat2Z.id in Hs. simplify_eq.
    apply (Hstep _ _ Hf); [done|by rewrite length_insert| |rewrite length_app; lia].
    by rewrite insert_app_r_alt by lia.
Qed.

Lemma fill_total ks l p1 p2 j :
  j + length (filter (λ i, i ≠ l) ks) ≤ length p1 + length p2 -> is_Some (fill ks l p1 p2 j).
Proof.
  revert p1 p2 j. induction ks as [|i ks IH]; intros p1 p2 j Hl; simpl; [by eexists|].
  rewrite filter_cons in Hl. destruct (decide (i ≠ l)) as [Hne|Heq]; [|by apply IH].
  simpl in Hl. destruct (decide (j < length p1)) as [Hj|Hj].
  - apply IH. rewrite length_insert. lia.
  - autorewrite with go. simpl. apply IH. rewrite length_insert. lia.
Qed.

Lemma without_leader n l :
  l < n -> l :: filter (λ i, i ≠ l) (seq 0 n) ≡ₚ seq 0 n.
Proof.
  intros Hl. apply NoDup_Permutation; [|apply NoDup_seq|].
  - constructor; [|apply NoDup_filter, NoDup_seq]. by intros [? _]%list_elem_of_filter.
  - intros x. rewrite elem_of_cons, list_elem_of_filter, !elem_of_seq.
    destruct (decide (x = l)); naive_solver lia.
Qed.

(** [Leader] of [kvraft] panics when a server that is not running comes before every leader. *)
Lemma Leader_panics states k :
  Leader states k = None <->
  ∃ i, states !! i = Some None ∧ forall j, j < i -> states !! j = Some (Some false).
Proof.
  revert k. induction states as [|[[]|] states IH]; intros k; simpl.
  - split; [done|]. intros (i & Hi & _). by rewrite lookup_nil in Hi.
  - split; [done|]. intros ([|i] & Hi & Hb); [done|]. by specialize (Hb 0 ltac:(lia)).
  - rewrite IH. split.
    + intros (i & Hi & Hb). exists (S i). split; [done|]. intros [|j] Hj; [done|]. apply Hb. lia.
    + intros ([|i] & Hi & Hb); [done|]. exists i. split; [done|]. intros j Hj. apply (Hb (S j)). lia.
  - split; [|done]. intros _. exists 0. split; [done|]. intros j Hj. lia.
Qed.

Lemma Leader_lt states k b l :
  Leader states k = Some (b, l) -> l = 0 ∨ l < k + length states.
Proof.
  revert k. induction states as [|[[]|] states IH]; intros k Hl; simpl in *; simplify_eq.
  - by left.
  - right. lia.
  - apply IH in Hl as [?|?]; [by left|right; lia].
Qed.

(** The first server that says it leads, or 0 when there is none. *)
Definition first_leader (states : list (option bool)) (l : nat) : Prop :=
  (states !! l = Some (Some true) ∧ forall i, i < l -> states !! i ≠ Some (Some true)) ∨
  (l = 0 ∧ forall i, states !! i ≠ Some (Some true)).

Lemma ctrler_Leader_spec states k :
  ∃ b l, ctrler_Leader states k = Some (b, l) ∧
    ((states !! (l - k) = Some (Some true) ∧ k ≤ l ∧ forall i, i < l - k -> states !! i ≠ Some (Some true)) ∨
     (l = 0 ∧ forall i, states !! i ≠ Some (Some true))).
Proof.
  revert k. induction states as [|o states IH]; intros k; simpl.
  { exists false, 0. split; [done|]. right. split; [done|]. intros i. by rewrite lookup_nil. }
  destruct (decide (o = Some true)) as [->|Hne].
  { exists true, k. split; [done|]. left. rewrite Nat.sub_diag. split_and!; [done..|]. lia. }
  destruct (IH (S k)) as (b & l & Hl & Hspec). exists b, l.
  split; [destruct o as [[]|]; done|]. destruct Hspec as [(Hs & Hk & Hmin)|[-> Hno]].
  - left. replace (l - k) with (S (l - S k)) by lia. split_and!; [done|lia|].
    intros [|i] Hi; simpl; [congruence|]. apply Hmin. lia.
  - right. split; [done|]. intros [|i]; simpl; [congruence|apply Hno].
Qed.

Lemma ctrler_Leader_first states :
  ∃ b l, ctrler_Leader states 0 = Some (b, l) ∧ first_leader states l.
Proof.
  destruct (ctrler_Leader_spec states 0) as (b & l & Hl & Hspec). exists b, l. split; [done|].
  unfold first_leader. rewrite Nat.sub_0_r in Hspec. naive_solver.
Qed.

(** With all the servers running the two functions agree. *)
Lemma Leader_running states k :
  Forall is_Some states -> Leader states k = ctrler_Leader states k.
Proof.
  intros Hs. revert k. induction Hs as [|o states [b ->] _ IH]; intros k; [done|].
  simpl. destruct b; [done|apply IH].
Qed.

Lemma first_leader_lt states l n :
  first_leader states l -> length states = n -> 0 < n -> l < n.
Proof. intros [[Hl%lookup_lt_Some _]|[-> _]] <-; lia. Qed.

Lemma split_servers_odd m l :
  0 < m -> l < 2 * m + 1 ->
  ∃ p1 p2, split_servers (2 * m + 1) l = Some (p1, p2) ∧
    length p1 = m + 1 ∧ length p2 = m ∧ p1 ++ p2 ≡ₚ seq 0 (2 * m + 1) ∧ last p2 = Some l.
Proof.
  intros Hm Hl. unfold split_servers.
  set (n := 2 * m + 1) in *. assert (Hn2 : n / 2 = m).
  { unfold n. replace (2 * m + 1) with (1 + m * 2) by lia.
    rewrite Nat.div_add by lia. done. }
  rewrite Hn2. pose proof (without_leader n l ltac:(lia)) as Hperm.
  set (fl := filter (λ i, i ≠ l) (seq 0 n)) in *.
  assert (Hfl : length fl = 2 * m).
  { apply Permutation_length in Hperm. simpl in Hperm. rewrite length_seq in Hperm. lia. }
  destruct (fill_total (seq 0 n) l (replicate (m + 1) 0) (replicate m 0) 0) as [[q1 q2] Hf].
  { rewrite !length_replicate. fold fl. lia. }
  rewrite Hf. simpl. apply fill_spec in Hf as (Hq1 & Hq2 & Hk). fold fl in Hk.
  rewrite length_replicate in Hq1, Hq2.
  replace (Z.of_nat (length q2) - 1)%Z with (Z.of_nat (m - 1)) by lia.
  rewrite slice_set_nat by lia. simpl. exists q1, (<[m - 1 := l]> q2).
  assert (Happ : q1 ++ <[m - 1 := l]> q2 = fl ++ [l]).
  { replace (m - 1) with (2 * m - length q1) by lia. rewrite <- insert_app_r_alt by lia.
    apply list_eq. intros k. destruct (decide (k = 2 * m)) as [->|Hne].
    - rewrite list_lookup_insert_eq by (rewrite length_app; lia).
      by rewrite lookup_app_r, Hfl, Nat.sub_diag by lia.
    - rewrite list_lookup_insert_ne by done. rewrite Hk, decide_False by lia.
      rewrite Nat.sub_0_r. destruct (fl !! k) as [x|] eqn:Hx.
      + symmetry. by apply lookup_app_l_Some.
      + apply lookup_ge_None in Hx.
        rewrite !lookup_ge_None_2 by (rewrite length_app, ?length_replicate; simpl; lia). done. }
  split_and!; [done|done|by rewrite length_insert| |].
  - rewrite Happ. rewrite <- Hperm. symmetry. apply Permutation_cons_append.
  - rewrite last_lookup, length_insert, Hq2.
    replace (Nat.pred m) with (m - 1) by lia. by rewrite list_lookup_insert_eq by lia.
Qed.

(** With at least two servers no index is out of range, whoever leads. *)
Lemma split_servers_range n l :
  2 ≤ n -> l < n ->
  ∃ p1 p2, split_servers n l = Some (p1, p2) ∧ length p1 ≤ n ∧ length p2 ≤ n ∧
    Forall (λ k, k < n) p1 ∧ Forall (λ k, k < n) p2.
Proof.
  intros Hn Hl. unfold split_servers. pose proof (without_leader n l Hl) as Hperm.
  set (fl := filter (λ i, i ≠ l) (seq 0 n)) in *.
  assert (Hfl : S (length fl) = n).
  { apply Permutation_length in Hperm. by rewrite length_seq in Hperm. }
  pose proof (Nat.div_mod_eq n 2). pose proof (Nat.mod_upper_bound n 2 ltac:(lia)).
  set (h := n / 2) in *. clearbody h.
  destruct (fill_total (seq 0 n) l (replicate (h + 1) 0) (replicate h 0) 0) as [[q1 q2] Hf].
  { rewrite !length_replicate. fold fl. lia. }
  rewrite Hf. simpl. apply fill_spec in Hf as (Hq1 & Hq2 & Hk). fold fl in Hk.
  rewrite length_replicate in Hq1, Hq2.
  replace (Z.of_nat (length q2) - 1)%Z with (Z.of_nat (h - 1)) by lia.
  rewrite slice_set_nat by lia. simpl. eexists _, _. split; [done|]. rewrite length_insert.
  assert (Hall : Forall (λ k, k < n) (q1 ++ q2)).
  { apply Forall_lookup. intros k x Hx. rewrite Hk, decide_False in Hx by lia.
    destruct (fl !! (k - 0)) as [y|] eqn:Hy.
    - simplify_eq. apply list_elem_of_lookup_2 in Hy. unfold fl in Hy.
      apply list_elem_of_filter in Hy as [_ Hy%elem_of_seq]. lia.
    - apply lookup_app_Some in Hx as [[-> _]%lookup_replicate|[_ [-> _]%lookup_replicate]]; lia. }
  apply Forall_app in Hall as [H1 H2]. split_and!; [lia|lia|done|by apply Forall_insert].
Qed.

(** ** The shuffle *)

Lemma swap_perm {A} (sa : list A) i j x y :
  sa !! i = Some x -> sa !! j = Some y -> <[j := x]> (<[i := y]> sa) ≡ₚ sa.
Proof.
  intros Hi Hj. apply lookup_lt_Some in Hi as Hli. apply lookup_lt_Some in Hj as Hlj.
  destruct (decide (i = j)) as [->|Hne].
  { simplify_eq. rewrite list_insert_insert_eq, list_insert_id by done. done. }
  apply Permutation_inj. split; [by rewrite !length_insert|].
  exists (λ k, if decide (k = i) then j else if decide (k = j) then i else k). split.
  - intros a b. repeat case_decide; congruence.
  - intros k. repeat case_decide; subst.
    + rewrite list_lookup_insert_ne by done. by rewrite list_lookup_insert_eq by done.
    + rewrite list_lookup_insert_eq by (by rewrite length_insert). done.
    + rewrite !list_lookup_insert_ne by done. done.
Qed.

Lemma shuffle_perm {A} (sa : list A) i js : shuffle sa i js ≡ₚ sa.
Proof.
  revert sa i. induction js as [|j js IH]; intros sa i; simpl; [done|]. rewrite IH.
  destruct (sa !! i) as [x|] eqn:Hi; [|done]. destruct (sa !! j) as [y|] eqn:Hj; [|done].
  by apply swap_perm.
Qed.

End KvConfig.
Import KvConfig.

(** C13: after [partition(p1, p2)] of all the servers, the ends between two servers are
    enabled exactly when both are on the same side. *)
Theorem partition_correct cfg p1 p2 :
  all_started cfg -> p1 ++ p2 ≡ₚ seq 0 (n cfg) ->
  ∃ cfg', partition cfg p1 p2 = Some cfg' ∧
    forall a b, a < n cfg -> b < n cfg ->
      link cfg' a b = bool_decide ((a ∈ p1 ∧ b ∈ p1) ∨ (a ∈ p2 ∧ b ∈ p2)).
Proof. apply partition_links. Qed.

(** For an odd number of servers, at least three, [make_partition] splits them into a
    majority and a minority with the first leader (server 0 when there is none) in the
    minority; in [kvraft] when all the servers are running, in [shardctrler] always. *)
Theorem make_partition_correct m states :
  0 < m -> length states = 2 * m + 1 ->
  ∃ p1 p2 l, ctrler_make_partition (2 * m + 1) states = Some (p1, p2) ∧
    (Forall is_Some states -> make_partition (2 * m + 1) states = Some (p1, p2)) ∧
    length p1 = m + 1 ∧ length p2 = m ∧ p1 ++ p2 ≡ₚ seq 0 (2 * m + 1) ∧
    last p2 = Some l ∧ first_leader states l.
Proof.
  intros Hm Hlen. destruct (ctrler_Leader_first states) as (b & l & Hl & Hf).
  destruct (split_servers_odd m l Hm) as (p1 & p2 & Hp & Hr).
  { by eapply first_leader_lt; [|done|lia]. }
  exists p1, p2, l. unfold ctrler_make_partition, make_partition. rewrite Hl.
  split_and!; [done| |tauto..|done]. intros Hall. by rewrite Leader_running, Hl.
Qed.

(** For an even number of servers the result is not a partition (with four servers and
    leader 2, server 0 is on both sides), and with one server [make_partition] panics.  With
    a server that was shut down before the leader the [make_partition] of [kvraft] panics,
    that of [shardctrler] does not.  [disconnectUnlocked] panics on a server that was not
    started although it tests for [nil], because the test looks at another row. *)
Theorem make_partition_even_overlaps :
  make_partition 4 (Some <$> [false; false; true; false]) = Some ([0; 1; 3], [0; 2]) ∧
  make_partition 1 [Some true] = None ∧
  make_partition 3 [None; Some true; Some false] = None ∧
  ctrler_make_partition 3 [None; Some true; Some false] = Some ([0; 2], [1]) ∧
  disconnectUnlocked (Config MakeNetwork 2 [Some ["a"; "b"]; None] ∅ 0) 0 [1] = None.
Proof. split_and!; vm_compute; reflexivity. Qed.

(** ** Witnesses *)

Definition demo_mesh : config :=
  Config MakeNetwork 3 [Some ["00"; "01"; "02"]; Some ["10"; "11"; "12"]; Some ["20"; "21"; "22"]]
    ∅ 1003.

Lemma demo_mesh_started : all_started demo_mesh.
Proof.
  split; [|intros i j i' j' e He He'|done].
  - intros [|[|[|i]]] Hi; simpl in Hi; [by eexists..|lia].
  - destruct i as [|[|[|i]]], j as [|[|[|j]]], i' as [|[|[|i']]], j' as [|[|[|j']]];
      cbn in He, He'; simplify_eq; done.
Qed.

Lemma partition_correct_witness :
  ∃ cfg', partition demo_mesh [0; 2] [1] = Some cfg' ∧
    forall a b, a < 3 -> b < 3 ->
      link cfg' a b = bool_decide ((a ∈ [0; 2] ∧ b ∈ [0; 2]) ∨ (a ∈ [1] ∧ b ∈ [1])).
Proof.
  apply (partition_correct demo_mesh [0; 2] [1]); [apply demo_mesh_started|].
  simpl. apply perm_skip, perm_swap.
Defined.

Lemma make_partition_correct_witness :
  ∃ p1 p2 l, ctrler_make_partition 5 [Some false; Some true; None; Some false; Some false]
      = Some (p1, p2) ∧
    length p1 = 3 ∧ length p2 = 2 ∧ p1 ++ p2 ≡ₚ seq 0 5 ∧ last p2 = Some l.
Proof.
  destruct (make_partition_correct 2 [Some false; Some true; None; Some false; Some false])
    as (p1 & p2 & l & Hp & _ & H1 & H2 & H3 & H4 & _); [lia|reflexivity|].
  exists p1, p2, l. split_and!; assumption.
Defined.
