(* ===== verification/Store.v ===== *)
(** * Persisters and server instances of a test

    What the [ShutdownServer] and [StartServer] of [kvraft/config.go],
    [shardctrler/config.go] and [shardkv/config.go] do to the slices [saved] and
    [kvservers]: the persister of a server is replaced by a copy, its instance is killed or
    a new one is made.  The slots are indexed by a type [K] (a number, or the numbers of a
    group and of a server in it); a [nil] pointer is a missing key.  An instance that was
    killed goes on running, and may save to the persister it was given. *)
From S2P Require Import Prelude.
From Stdlib Require Import Strings.Byte.

Module Store.
Section Store.
Context {K : Type} `{Countable K}.

(** The Raft state and the snapshot of a [Persister]. *)
Abbreviation content := (list byte * list byte)%type.

(** What the harness knows of a server instance: its slot, the names of the ends it was
    given, its persister, and whether [Kill] was called. *)
Record instance := MkInstance { owner : K; peers : list string; persister : nat; dead : bool }.

Record store := MkStore {
  saved : gmap K nat;
  running : gmap K nat;            (* the position in [instances] *)
  instances : list instance;       (* all that were ever made *)
  pheap : gmap nat content;
  pnext : nat
}.

Definition empty_store : store := MkStore ∅ ∅ [] ∅ 0.

Definition content_of (st : store) (k : K) : option content :=
  p ← saved st !! k; pheap st !! p.

(** [saved[k]] becomes a new persister with the content [c]. *)
Definition set_persister (k : K) (c : content) (st : store) : store :=
  MkStore (<[k := pnext st]> (saved st)) (running st) (instances st)
    (<[pnext st := c]> (pheap st)) (S (pnext st)).

(** [if saved[k] != nil { saved[k] = saved[k].Copy() }] *)
Definition copy_saved (k : K) (st : store) : store :=
  match content_of st k with
  | Some c => set_persister k c st
  | None => st
  end.

(** The same, and [else { saved[k] = raft.MakePersister() }]. *)
Definition copy_or_make (k : K) (st : store) : store :=
  set_persister k (default ([], []) (content_of st k)) st.

Definition Kill (i : instance) : instance := MkInstance (owner i) (peers i) (persister i) true.

(** [if kv != nil { kv.Kill(); kvservers[k] = nil }] *)
Definition kill_server (k : K) (st : store) : store :=
  match running st !! k with
  | None => st
  | Some x => MkStore (saved st) (delete k (running st)) (alter Kill x (instances st))
      (pheap st) (pnext st)
  end.

(** [kvservers[k] = StartKVServer(ends, ..., saved[k])]; a [nil] persister panics. *)
Definition launch (k : K) (names : list string) (st : store) : option store :=
  p ← saved st !! k;
  Some (MkStore (saved st) (<[k := length (instances st)]> (running st))
    (instances st ++ [MkInstance k names p false]) (pheap st) (pnext st)).

Definition shutdown (k : K) (st : store) : store := kill_server k (copy_saved k st).

Definition start (k : K) (names : list string) (st : store) : option store :=
  launch k names (copy_or_make k st).

(** Instance [x], dead or alive, saves. *)
Definition save (x : nat) (c : content) (st : store) : store :=
  match instances st !! x with
  | None => st
  | Some i => MkStore (saved st) (running st) (instances st) (<[persister i := c]> (pheap st))
      (pnext st)
  end.

(** ** Invariant: the persister of a slot belongs to the instance that runs in it *)
Record store_ok (st : store) : Prop := {
  so_heap : forall a, is_Some (pheap st !! a) -> a < pnext st;
  so_saved : forall k p, saved st !! k = Some p -> is_Some (pheap st !! p);
  so_inj : forall k k' p, saved st !! k = Some p -> saved st !! k' = Some p -> k = k';
  so_inst : forall x i, instances st !! x = Some i -> persister i < pnext st;
  so_owner : forall k x i, instances st !! x = Some i -> saved st !! k = Some (persister i) ->
    running st !! k = Some x;
  so_running : forall k x, running st !! k = Some x ->
    ∃ i, instances st !! x = Some i ∧ owner i = k ∧ dead i = false
}.

Lemma empty_store_ok : store_ok empty_store.
Proof. split; intros *; simpl; rewrite ?lookup_empty, ?lookup_nil; done. Qed.

Lemma saved_lt st k p : store_ok st -> saved st !! k = Some p -> p < pnext st.
Proof. intros Hs Hp. by eapply (so_heap _ Hs), (so_saved _ Hs). Qed.

Lemma content_saved st k :
  store_ok st -> content_of st k = None -> saved st !! k = None.
Proof.
  intros Hs Hc. unfold content_of in Hc. destruct (saved st !! k) as [p|] eqn:Hp; [|done].
  destruct (so_saved _ Hs k p Hp) as [c Hc']. simpl in Hc. congruence.
Qed.

Lemma set_persister_ok k c st : store_ok st -> store_ok (set_persister k c st).
Proof.
  intros Hs. split; simpl.
  - intros a [<-|[_ Ha]]%lookup_insert_is_Some; [lia|]. apply (so_heap _ Hs) in Ha. lia.
  - intros k' p [[_ <-]|[_ Hp]]%lookup_insert_Some.
    + rewrite lookup_insert_eq. by eexists.
    + apply lookup_insert_is_Some'. right. by eapply (so_saved _ Hs).
  - intros k1 k2 p [[<- <-]|[N1 P1]]%lookup_insert_Some [[<- E]|[N2 P2]]%lookup_insert_Some; try done.
    + apply (saved_lt _ _ _ Hs) in P2. lia.
    + subst p. apply (saved_lt _ _ _ Hs) in P1. lia.
    + by eapply (so_inj _ Hs).
  - intros x i Hi. apply (so_inst _ Hs) in Hi. lia.
  - intros k' x i Hi [[_ E]|[_ P]]%lookup_insert_Some; [|by eapply (so_owner _ Hs)].
    apply (so_inst _ Hs) in Hi. lia.
  - apply (so_running _ Hs).
Qed.

Lemma set_persister_content k c st k' :
  store_ok st ->
  content_of (set_persister k c st) k' = if decide (k = k') then Some c else content_of st k'.
Proof.
  intros Hs. unfold content_of. simpl. case_decide as Hk.
  - subst k'. rewrite lookup_insert_eq. simpl. by rewrite lookup_insert_eq.
  - rewrite lookup_insert_ne by done. destruct (saved st !! k') as [p|] eqn:Hp; [|done]. simpl.
    rewrite lookup_insert_ne; [done|]. apply (saved_lt _ _ _ Hs) in Hp. lia.
Qed.

Lemma copy_saved_ok k st : store_ok st -> store_ok (copy_saved k st).
Proof.
  intros Hs. unfold copy_saved. destruct (content_of st k); [by apply set_persister_ok|done].
Qed.

Lemma copied_content k st k' :
  store_ok st -> content_of (copy_saved k st) k' = content_of st k'.
Proof.
  intros Hs. unfold copy_saved. destruct (content_of st k) as [c|] eqn:Hc; [|done].
  rewrite set_persister_content by done. case_decide; congruence.
Qed.

Lemma kill_server_lookup k st x i :
  instances (kill_server k st) !! x = Some i ->
  ∃ i0, instances st !! x = Some i0 ∧ persister i = persister i0 ∧ owner i = owner i0 ∧
    (running st !! k ≠ Some x -> i = i0).
Proof.
  unfold kill_server. destruct (running st !! k) as [y|] eqn:Hy; simpl; [|by eauto 6].
  destruct (decide (y = x)) as [->|Hne].
  - rewrite list_lookup_alter_eq. intros (i0 & Hi & ->)%fmap_Some. exists i0. by split_and!.
  - rewrite list_lookup_alter_ne by done. intros Hi. exists i. split_and!; congruence.
Qed.

Lemma kill_server_rest k st :
  saved (kill_server k st) = saved st ∧ pheap (kill_server k st) = pheap st ∧
  pnext (kill_server k st) = pnext st ∧ running (kill_server k st) = delete k (running st).
Proof.
  unfold kill_server. destruct (running st !! k) eqn:Hk; simpl; [done|].
  by rewrite delete_id.
Qed.

Lemma kill_server_content k st k' : content_of (kill_server k st) k' = content_of st k'.
Proof.
  destruct (kill_server_rest k st) as (Hsv & Hph & _). unfold content_of. by rewrite Hsv, Hph.
Qed.

(** After a shutdown the slot has a persister that no instance has. *)
Lemma shutdown_ok k st : store_ok st -> store_ok (shutdown k st).
Proof.
  intros Hs0. pose proof (copy_saved_ok k st Hs0) as Hs. unfold shutdown.
  destruct (kill_server_rest k (copy_saved k st)) as (Hsv & Hph & Hpn & Hrun).
  split.
  - rewrite Hph, Hpn. apply (so_heap _ Hs).
  - rewrite Hsv, Hph. apply (so_saved _ Hs).
  - rewrite Hsv. apply (so_inj _ Hs).
  - intros x i (i0 & Hi & -> & _)%kill_server_lookup. rewrite Hpn. by eapply (so_inst _ Hs).
  - intros k' x i (i0 & Hi & -> & _)%kill_server_lookup Hp. rewrite Hsv in Hp.
    rewrite Hrun. destruct (decide (k = k')) as [<-|Hne].
    + exfalso. unfold copy_saved in Hi, Hp. destruct (content_of st k) eqn:Hc.
      * simpl in Hp. rewrite lookup_insert_eq in Hp. apply (so_inst _ Hs0) in Hi.
        simplify_eq. lia.
      * by rewrite (content_saved _ _ Hs0 Hc) in Hp.
    + rewrite lookup_delete_ne by done. by eapply (so_owner _ Hs).
  - intros k' x. rewrite Hrun. intros [Hne Hx]%lookup_delete_Some.
    destruct (so_running _ Hs k' x Hx) as (i & Hi & Ho & Hd).
    exists i. split; [|done]. unfold kill_server.
    destruct (running (copy_saved k st) !! k) as [y|] eqn:Hy; [|done]. simpl.
    rewrite list_lookup_alter_ne; [done|]. intros ->.
    destruct (so_running _ Hs k x Hy) as (i' & Hi' & Ho' & _). congruence.
Qed.

Lemma shutdown_content k st k' :
  store_ok st -> content_of (shutdown k st) k' = content_of st k'.
Proof. intros Hs. unfold shutdown. by rewrite kill_server_content, copied_content. Qed.

Lemma shutdown_running k st : running (shutdown k st) = delete k (running st).
Proof.
  unfold shutdown. destruct (kill_server_rest k (copy_saved k st)) as (_ & _ & _ & ->).
  unfold copy_saved. by destruct (content_of st k).
Qed.

(** A start gives the new instance a persister of its own. *)
Lemma start_ok k names st :
  store_ok st -> ∃ st' p, start k names st = Some st' ∧ store_ok st' ∧
    saved st' !! k = Some p ∧
    instances st' !! length (instances st) = Some (MkInstance k names p false) ∧
    running st' = <[k := length (instances st)]> (running st) ∧
    length (instances st') = S (length (instances st)) ∧
    forall k', content_of st' k' =
      if decide (k = k') then Some (default ([], []) (content_of st k)) else content_of st k'.
Proof.
  intros Hs0. set (c := default ([], []) (content_of st k)).
  pose proof (set_persister_ok k c st Hs0) as Hs. unfold start, copy_or_make, launch.
  simpl. rewrite lookup_insert_eq. simpl. eexists _, _. split; [done|].
  split_and!; simpl.
  - split; simpl.
    + apply (so_heap _ Hs).
    + apply (so_saved _ Hs).
    + apply (so_inj _ Hs).
    + intros x i [Hi|[_ Hi]]%lookup_app_Some; [by apply (so_inst _ Hs) in Hi|].
      destruct (x - length (instances st)); [|done]. simplify_eq/=. lia.
    + intros k' x i [Hi|[Hge Hi]]%lookup_app_Some Hp.
      * destruct (decide (k = k')) as [<-|Hne].
        -- rewrite lookup_insert_eq in Hp. apply (so_inst _ Hs0) in Hi. simplify_eq. lia.
        -- rewrite lookup_insert_ne by done. by eapply (so_owner _ Hs).
      * destruct (x - length (instances st)) eqn:E; [|done]. simplify_eq/=.
        assert (k' = k) as ->.
        { eapply (so_inj _ Hs); [done|]. apply lookup_insert_eq. }
        rewrite lookup_insert_eq. f_equal. lia.
    + intros k' x [[<- <-]|[_ Hx]]%lookup_insert_Some.
      * eexists. by rewrite lookup_app_r, Nat.sub_diag by lia.
      * destruct (so_running _ Hs k' x Hx) as (i & Hi & Ho). exists i. split; [|done].
        by apply lookup_app_l_Some.
  - by rewrite lookup_insert_eq.
  - by rewrite lookup_app_r, Nat.sub_diag by lia.
  - done.
  - rewrite length_app. simpl. lia.
  - intros k'. rewrite <- (set_persister_content k c st k' Hs0). done.
Qed.

Lemma save_ok x c st : store_ok st -> store_ok (save x c st).
Proof.
  intros Hs. unfold save. destruct (instances st !! x) as [i|] eqn:Hi; [|done].
  split; simpl; try apply Hs.
  - intros a [<-|[_ Ha]]%lookup_insert_is_Some; [by eapply (so_inst _ Hs)|by apply (so_heap _ Hs)].
  - intros k p Hp. apply lookup_insert_is_Some'. right. by eapply (so_saved _ Hs).
Qed.

Lemma save_content x c st k : is_Some (content_of st k) -> is_Some (content_of (save x c st) k).
Proof.
  unfold save. destruct (instances st !! x) as [i|]; [|done]. unfold content_of. simpl.
  destruct (saved st !! k) as [p|]; [|done]. simpl. intros Hp. apply lookup_insert_is_Some'. by right.
Qed.

(** What an instance saves reaches only the slot in which it runs. *)
Lemma save_isolated x c st k :
  store_ok st -> running st !! k ≠ Some x -> content_of (save x c st) k = content_of st k.
Proof.
  intros Hs Hr. unfold save. destruct (instances st !! x) as [i|] eqn:Hi; [|done].
  unfold content_of. simpl. destruct (saved st !! k) as [p|] eqn:Hp; [|done]. simpl.
  rewrite lookup_insert_ne; [done|]. intros <-. apply Hr. by eapply (so_owner _ Hs).
Qed.

End Store.
End Store.
