(* ===== verification/KvServers.v ===== *)
(** * The servers and clerks of [kvraft/config.go] and [shardctrler/config.go]

    Starting and shutting down servers, on top of the connections ([KvConfig]) and the
    persisters ([Store]), and the configuration of a whole test.  The file of [shardctrler]
    repeats that of [kvraft] but for [Leader] and the size of a snapshot. *)
From S2P Require Import Prelude Labrpc Mesh KvConfig Store.
From Stdlib Require Import Strings.Byte.
Import Labrpc KvConfig.

(** ** Slots: the places that hold the name of an end *)
Module Slots.

(** The end from server [i] to server [j], or from clerk [ck] to server [j]. *)
Inductive slot := ServerEnd (i j : nat) | ClerkEnd (ck j : nat).

#[export] Instance slot_eq_dec : EqDecision slot.
Proof. solve_decision. Defined.

Definition target (s : slot) : nat := match s with ServerEnd _ j | ClerkEnd _ j => j end.

Definition end_at (cfg : config) (s : slot) : option string :=
  match s with
  | ServerEnd i j => ep (endnames cfg) i j
  | ClerkEnd ck j => es ← clerks cfg !! ck; es !! j
  end.

(** The end in a slot exists and is enabled. *)
Definition is_open (cfg : config) (s : slot) : bool :=
  match end_at cfg s with Some e => is_enabled (net cfg) (inl e) | None => false end.

(** Every row has a name per server, a name is in one slot, and its end leads to the
    server of the slot. *)
Record slots_ok (cfg : config) : Prop := {
  sl_len : length (endnames cfg) = n cfg;
  sl_rows : forall i es, endnames cfg !! i = Some (Some es) -> length es = n cfg;
  sl_clerks : forall ck es, clerks cfg !! ck = Some es -> length es = n cfg;
  sl_unique : forall s s' e, end_at cfg s = Some e -> end_at cfg s' = Some e -> s = s';
  sl_ends : forall s e, end_at cfg s = Some e ->
    inl e ∈ ends (net cfg) ∧ connections (net cfg) !! inl e = Some (Some (inr (target s)))
}.

Definition rows_started (cfg : config) : Prop :=
  forall i, i < n cfg -> ∃ es, endnames cfg !! i = Some (Some es).

Lemma slots_all_started cfg : slots_ok cfg -> rows_started cfg -> all_started cfg.
Proof.
  intros Hs Hr. split.
  - intros i Hi. destruct (Hr i Hi) as [es Hes]. exists es. split; [done|].
    by apply (sl_rows _ Hs i).
  - intros i j i' j' e He He'.
    assert (Heq : ServerEnd i j = ServerEnd i' j') by (by apply (sl_unique _ Hs _ _ e)).
    by simplify_eq.
  - apply (sl_len _ Hs).
Qed.

(** Enabling and disabling ends keeps the slots. *)
Lemma slots_net cfg rn :
  ends rn = ends (net cfg) -> connections rn = connections (net cfg) ->
  slots_ok cfg -> slots_ok (KvConfig.set_net cfg rn).
Proof.
  intros He Hc [H1 H2 H3 H4 H5]. split; [done..|]. intros s e Hs. simpl. rewrite He, Hc.
  by apply H5.
Qed.

Lemma enable_slots cfg ss es b :
  slots_ok cfg -> mapM (end_at cfg) ss = Some es ->
  let cfg' := KvConfig.set_net cfg (enable_all es b (net cfg)) in
  slots_ok cfg' ∧ forall s, is_Some (end_at cfg s) ->
    is_open cfg' s = if decide (s ∈ ss) then b else is_open cfg s.
Proof.
  intros Hs Hm cfg'. destruct (enable_all_rest es b (net cfg)) as (Hc & _ & He). split.
  - by apply slots_net.
  - intros s [e Hse]. unfold is_open.
    change (end_at cfg' s) with (end_at cfg s). rewrite Hse. simpl.
    rewrite enable_all_enabled. pose proof (mapM_elem _ _ _ e Hm) as Hin.
    apply decide_ext. rewrite Hin. split; [|by eauto].
    intros (s' & Hs' & He'). by rewrite (sl_unique _ Hs s s' e).
Qed.

Lemma mapM_app {A B} (f : A -> option B) (l1 l2 : list A) k1 k2 :
  mapM f l1 = Some k1 -> mapM f l2 = Some k2 -> mapM f (l1 ++ l2) = Some (k1 ++ k2).
Proof. rewrite !mapM_Some. apply Forall2_app. Qed.

Lemma mapM_fmap_l {A B C} (g : A -> B) (f : B -> option C) (l : list A) :
  mapM f (g <$> l) = mapM (λ x, f (g x)) l.
Proof. induction l as [|x l IH]; simpl; [done|]. by rewrite <- IH. Qed.

Lemma enable_all_app es es' b rn :
  enable_all es' b (enable_all es b rn) = enable_all (es ++ es') b rn.
Proof. unfold enable_all. by rewrite foldl_app. Qed.

(** The slots of the ends between server [i] and the servers [ks]. *)
Definition links (i : nat) (ks : list nat) : list slot :=
  (ServerEnd i <$> ks) ++ ((λ j, ServerEnd j i) <$> ks).

Lemma elem_of_links i ks s :
  s ∈ links i ks <-> ∃ j, j ∈ ks ∧ (s = ServerEnd i j ∨ s = ServerEnd j i).
Proof. unfold links. rewrite elem_of_app, !list_elem_of_fmap. naive_solver. Qed.

Lemma links_names cfg i ks out inc :
  mapM (λ j, ep (endnames cfg) i j) ks = Some out ->
  mapM (λ j, ep (endnames cfg) j i) ks = Some inc ->
  mapM (end_at cfg) (links i ks) = Some (out ++ inc).
Proof. intros Ho Hi. apply mapM_app; by rewrite mapM_fmap_l. Qed.

(** What [connectUnlocked] does to every slot. *)
Lemma connectUnlocked_slots cfg i ks cfg' :
  slots_ok cfg -> connectUnlocked cfg i ks = Some cfg' ->
  slots_ok cfg' ∧ (∃ rn, cfg' = KvConfig.set_net cfg rn) ∧
  servers (net cfg') = servers (net cfg) ∧
  forall s, is_Some (end_at cfg s) ->
    is_open cfg' s = if decide (s ∈ links i ks) then true else is_open cfg s.
Proof.
  intros Hs Hc. unfold connectUnlocked in Hc.
  destruct (mapM (λ j, ep (endnames cfg) i j) ks) as [out|] eqn:Ho; [|done]. simpl in Hc.
  destruct (mapM (λ j, ep (endnames cfg) j i) ks) as [inc|] eqn:Hi; [|done]. simpl in Hc.
  injection Hc as <-. rewrite enable_all_app.
  destruct (enable_slots cfg _ _ true Hs (links_names _ _ _ _ _ Ho Hi)) as [H1 H2].
  split_and!; [done|by eexists|apply enable_all_rest|done].
Qed.

(** The same of [disconnectUnlocked], in a configuration where the test of the wrong row
    makes no difference. *)
Lemma disconnectUnlocked_slots cfg i ks :
  slots_ok cfg -> rows_started cfg -> i < n cfg -> Forall (λ f, f < n cfg) ks ->
  length ks ≤ n cfg ->
  ∃ cfg', disconnectUnlocked cfg i ks = Some cfg' ∧
  slots_ok cfg' ∧ (∃ rn, cfg' = KvConfig.set_net cfg rn) ∧
  servers (net cfg') = servers (net cfg) ∧
  forall s, is_Some (end_at cfg s) ->
    is_open cfg' s = if decide (s ∈ links i ks) then false else is_open cfg s.
Proof.
  intros Hs Hr Hi Hks Hlen. pose proof (slots_all_started _ Hs Hr) as Ha.
  assert (Hout : outgoing cfg i ks = mapM (λ j, ep (endnames cfg) i j) ks).
  { destruct (Hr i Hi) as [es Hes]. unfold outgoing, started. rewrite Hes. by destruct ks. }
  destruct (mapM_total (λ j, ep (endnames cfg) i j) ks) as [out Ho].
  { intros j Hj. rewrite Forall_forall in Hks. by apply all_started_ep; auto. }
  assert (Hinc : incoming cfg i ks 0 = mapM (λ j, ep (endnames cfg) j i) ks).
  { assert (Hg : forall k, k + length ks ≤ n cfg ->
      incoming cfg i ks k = mapM (λ j, ep (endnames cfg) j i) ks); [|by apply (Hg 0)].
    clear Hout Ho Hlen. induction Hks as [|f ks Hf _ IH]; intros k Hk; [done|].
    simpl in Hk. cbn [incoming]. destruct (Hr k) as [es Hes]; [lia|].
    unfold started. rewrite Hes. simpl. rewrite IH by lia. done. }
  destruct (mapM_total (λ j, ep (endnames cfg) j i) ks) as [inc Hi'].
  { intros j Hj. rewrite Forall_forall in Hks. by apply all_started_ep; auto. }
  unfold disconnectUnlocked. rewrite Hout, Ho, Hinc, Hi'. simpl. rewrite enable_all_app.
  destruct (enable_slots cfg _ _ false Hs (links_names _ _ _ _ _ Ho Hi')) as [H1 H2].
  eexists. split_and!; [done..|by eexists|apply enable_all_rest|done].
Qed.

End Slots.
Import Slots.

(** ** Servers *)
Module KvServers.

Record cluster := MkCluster {
  mesh : KvConfig.config;
  store : @Store.store nat _ _;     (* [saved] and [kvservers] *)
  nservers : nat;                   (* the next [*labrpc.Server]: one per instance *)
  maxraftstate : Z
}.

Definition with_mesh (cl : cluster) (cfg : KvConfig.config) : cluster :=
  MkCluster cfg (store cl) (nservers cl) (maxraftstate cl).

Definition with_store (cl : cluster) (st : Store.store) : cluster :=
  MkCluster (mesh cl) st (nservers cl) (maxraftstate cl).

(** The parts of [ShutdownServer] and [StartServer], which other goroutines can observe
    one by one. *)
Inductive part :=
| Detach (i : nat)                            (* [cfg.disconnectUnlocked(i, cfg.All())] *)
| Delete (i : nat)                            (* [cfg.net.DeleteServer(i)] *)
| CopySaved (i : nat)
| KillServer (i : nat)
| FreshEnds (i : nat) (names : list string)
| CopyOrMake (i : nat)
| Launch (i : nat) (names : list string)      (* [StartKVServer] *)
| Add (i : nat).                              (* [cfg.net.AddServer(i, srv)] *)

Definition index {A} (cl : cluster) (i : nat) (a : A) : option A :=
  if decide (i < n (mesh cl)) then Some a else None.

Definition do_part (p : part) (cl : cluster) : option cluster :=
  let cfg := mesh cl in
  match p with
  | Detach i => cfg' ← disconnectUnlocked cfg i (All cfg); Some (with_mesh cl cfg')
  | Delete i => Some (with_mesh cl (KvConfig.set_net cfg (DeleteServer (inr i) (net cfg))))
  | CopySaved i => index cl i (with_store cl (Store.copy_saved i (store cl)))
  | KillServer i => index cl i (with_store cl (Store.kill_server i (store cl)))
  | FreshEnds i names =>
      rn ← make_ends names 0 (net cfg);
      index cl i (with_mesh cl
        (KvConfig.Config rn (n cfg) (<[i := Some names]> (endnames cfg)) (clerks cfg)
          (nextClientId cfg)))
  | CopyOrMake i => index cl i (with_store cl (Store.copy_or_make i (store cl)))
  | Launch i names =>
      st ← Store.launch i names (store cl);
      index cl i (MkCluster cfg st (S (nservers cl)) (maxraftstate cl))
  | Add i =>
      Some (with_mesh cl (KvConfig.set_net cfg
        (AddServer (inr i) (nservers cl - 1) (net cfg))))
  end.

Fixpoint do_parts (ps : list part) (cl : cluster) : option cluster :=
  match ps with
  | [] => Some cl
  | p :: ps' => cl' ← do_part p cl; do_parts ps' cl'
  end.

(** [ShutdownServer] *)
Definition ShutdownServer_parts (i : nat) : list part :=
  [Detach i; Delete i; CopySaved i; KillServer i].

Definition ShutdownServer (cl : cluster) (i : nat) : option cluster :=
  do_parts (ShutdownServer_parts i) cl.

(** [StartServer]; [names] are the random strings. *)
Definition StartServer_parts (i : nat) (names : list string) : list part :=
  [FreshEnds i names; CopyOrMake i; Launch i names; Add i].

Definition StartServer (cl : cluster) (i : nat) (names : list string) : option cluster :=
  do_parts (StartServer_parts i names) cl.

(** The loop of [make_config] over the servers. *)
Fixpoint start_all (cl : cluster) (i : nat) (namess : list (list string)) : option cluster :=
  match namess with
  | [] => Some cl
  | names :: namess' => cl' ← StartServer cl i names; start_all cl' (S i) namess'
  end.

(** [make_config] before the servers are started. *)
Definition empty_cluster (n : nat) (maxraftstate : Z) : cluster :=
  MkCluster (KvConfig.Config MakeNetwork n (replicate n None) ∅ (Z.of_nat n + 1000))
    Store.empty_store 0 maxraftstate.

Definition make_config (n : nat) (unreliable : bool) (maxraftstate : Z)
    (namess : list (list string)) : option cluster :=
  cl ← start_all (empty_cluster n maxraftstate) 0 namess;
  cfg ← ConnectAll (mesh cl);
  Some (with_mesh cl (KvConfig.set_net cfg (Reliable (negb unreliable) (net cfg)))).

(** [cleanup]: kills the servers that are running and closes the network. *)
Definition cleanup (cl : cluster) : option cluster :=
  rn ← Cleanup (net (mesh cl));
  let st := store cl in
  Some (MkCluster (KvConfig.set_net (mesh cl) rn)
    (Store.MkStore (Store.saved st) (Store.running st)
      (imap (λ x i, if decide (Store.running st !! Store.owner i = Some x)
                    then Store.Kill i else i) (Store.instances st))
      (Store.pheap st) (Store.pnext st))
    (nservers cl) (maxraftstate cl)).

(** [LogSize] and [SnapshotSize]; a [nil] persister panics. *)
Definition LogSize (cl : cluster) : option nat :=
  sizes ← mapM (λ i, c ← Store.content_of (store cl) i; Some (length c.1)) (seq 0 (n (mesh cl)));
  Some (max_size sizes).

Definition SnapshotSize (cl : cluster) : option nat :=
  sizes ← mapM (λ i, c ← Store.content_of (store cl) i; Some (length c.2)) (seq 0 (n (mesh cl)));
  Some (max_size sizes).

(** What [GetState] says of each server: whether its instance leads, [None] when the slot of
    the server is [nil]; then [Leader] and [make_partition] on it. *)
Definition states (cl : cluster) (lead : nat -> bool) : list (option bool) :=
  (λ i, lead <$> Store.running (store cl) !! i) <$> seq 0 (n (mesh cl)).

Definition Leader (cl : cluster) (lead : nat -> bool) : option (bool * nat) :=
  KvConfig.Leader (states cl lead) 0.

Definition make_partition (cl : cluster) (lead : nat -> bool) : option (list nat * list nat) :=
  KvConfig.make_partition (n (mesh cl)) (states cl lead).

(** ** Invariant

    The tables of ends and of persisters are well-formed, every server has been started, and
    the server that the network knows under a number is the one of the instance that runs. *)
Record cluster_ok (cl : cluster) : Prop := {
  cl_slots : slots_ok (mesh cl);
  cl_rows : rows_started (mesh cl);
  cl_store : Store.store_ok (store cl);
  cl_count : nservers cl = length (Store.instances (store cl));
  cl_servers : forall i, server_at (net (mesh cl)) (inr i) = Store.running (store cl) !! i
}.

(** A row of slots gets fresh ends, of a server that starts or of a new clerk. *)
Lemma new_row_slots cfg cfg' (row : nat -> slot) names rn :
  slots_ok cfg -> fresh_names names (net cfg) -> make_ends names 0 (net cfg) = Some rn ->
  (forall j, target (row j) = j) -> (forall s, s = row (target s) ∨ forall j, s ≠ row j) ->
  ends (net cfg') = ends rn -> connections (net cfg') = connections rn ->
  enabled (net cfg') = enabled rn ->
  (forall j, end_at cfg' (row j) = names !! j) ->
  (forall s, (forall j, s ≠ row j) -> end_at cfg' s = end_at cfg s) ->
  length (endnames cfg') = n cfg' ->
  (forall i es, endnames cfg' !! i = Some (Some es) -> length es = n cfg') ->
  (forall ck es, clerks cfg' !! ck = Some es -> length es = n cfg') ->
  slots_ok cfg' ∧ (forall j, is_open cfg' (row j) = false) ∧
  (forall s, (forall j, s ≠ row j) -> is_open cfg' s = is_open cfg s).
Proof.
  intros Hs Hf Hr Htg Hcase Hce Hcc Hcn Hown Hoth Hl1 Hl2 Hl3.
  destruct (make_ends_spec names 0 (net cfg) Hf) as (rn' & Hr' & Hends & _ & Hold & Hnew).
  assert (rn' = rn) as -> by congruence. clear Hr'.
  assert (Hnot : forall s e, end_at cfg s = Some e -> e ∉ names).
  { intros s e He Hin. destruct Hf as [_ Hf]. by apply (Hf e Hin), (sl_ends _ Hs s e). }
  split_and!.
  - split; [done..| |].
    + intros s1 s2 e H1 H2. destruct (Hcase s1) as [E1|N1], (Hcase s2) as [E2|N2].
      * rewrite E1, Hown in H1. rewrite E2, Hown in H2. rewrite E1, E2. f_equal.
        by eapply NoDup_lookup; [apply Hf|..].
      * rewrite E1, Hown in H1. rewrite Hoth in H2 by done. destruct (Hnot _ _ H2). eauto with go.
      * rewrite E2, Hown in H2. rewrite Hoth in H1 by done. destruct (Hnot _ _ H1). eauto with go.
      * rewrite Hoth in H1, H2 by done. by apply (sl_unique _ Hs _ _ e).
    + intros s e H1. rewrite Hce, Hcc, Hends. destruct (Hcase s) as [E1|N1].
      * rewrite E1, Hown in H1. destruct (Hnew _ e H1) as [_ ->]. split; [|done].
        apply elem_of_union_l, elem_of_list_to_set, list_elem_of_fmap_2. eauto with go.
      * rewrite Hoth in H1 by done. destruct (sl_ends _ Hs s e H1) as [Hin Hc].
        split; [set_solver|]. destruct (Hold e) as [_ ->]; [by eapply Hnot|done].
  - intros j. unfold is_open. rewrite Hown. destruct (names !! j) as [e|] eqn:He; [|done].
    unfold is_enabled. rewrite Hcn. by destruct (Hnew j e He).
  - intros s Hne. unfold is_open. rewrite Hoth by done.
    destruct (end_at cfg s) as [e|] eqn:He; [|done]. unfold is_enabled. rewrite Hcn.
    by destruct (Hold e) as [H1 _]; [eapply Hnot|].
Qed.

Lemma start_slots cfg i names rn s k :
  slots_ok cfg -> i < n cfg -> length names = n cfg -> fresh_names names (net cfg) ->
  make_ends names 0 (net cfg) = Some rn ->
  let cfg' := KvConfig.Config (AddServer (inr i) s rn) (n cfg) (<[i := Some names]> (endnames cfg))
                (clerks cfg) k in
  slots_ok cfg' ∧ (forall j, is_open cfg' (ServerEnd i j) = false) ∧
  (forall sl, (forall j, sl ≠ ServerEnd i j) ->
     end_at cfg' sl = end_at cfg sl ∧ is_open cfg' sl = is_open cfg sl).
Proof.
  intros Hs Hi Hlen Hf Hr cfg'.
  assert (Hil : i < length (endnames cfg)) by (by rewrite (sl_len _ Hs)).
  assert (Hoth : forall sl, (forall j, sl ≠ ServerEnd i j) -> end_at cfg' sl = end_at cfg sl).
  { intros [i' j|ck j] Hne; [|done]. simpl. apply ep_insert_ne. intros <-. by apply (Hne j). }
  destruct (new_row_slots cfg cfg' (ServerEnd i) names rn) as (H1 & H2 & H3); try done.
  - intros [i' j|ck j]; [|by right]. simpl.
    destruct (decide (i' = i)) as [->|]; [by left|right; congruence].
  - intros j. by apply ep_insert_eq.
  - simpl. rewrite length_insert. apply Hs.
  - simpl. intros i' es [(_ & [= <-] & _)|[_ Hes]]%list_lookup_insert_Some; [done|].
    by apply (sl_rows _ Hs i').
  - apply (sl_clerks _ Hs).
  - split_and!; [done..|]. intros sl Hne. by rewrite Hoth, H3.
Qed.

(** The ends of a new clerk. *)
Lemma client_slots cfg ck names rn k :
  slots_ok cfg -> length names = n cfg -> fresh_names names (net cfg) ->
  make_ends names 0 (net cfg) = Some rn ->
  let cfg' := KvConfig.Config rn (n cfg) (endnames cfg) (<[ck := names]> (clerks cfg)) k in
  slots_ok cfg' ∧ (forall j, is_open cfg' (ClerkEnd ck j) = false) ∧
  (forall sl, (forall j, sl ≠ ClerkEnd ck j) ->
     end_at cfg' sl = end_at cfg sl ∧ is_open cfg' sl = is_open cfg sl).
Proof.
  intros Hs Hlen Hf Hr cfg'.
  assert (Hoth : forall sl, (forall j, sl ≠ ClerkEnd ck j) -> end_at cfg' sl = end_at cfg sl).
  { intros [i j|ck' j] Hne; [done|]. simpl. rewrite lookup_insert_ne; [done|].
    intros <-. by apply (Hne j). }
  destruct (new_row_slots cfg cfg' (ClerkEnd ck) names rn) as (H1 & H2 & H3); try done.
  - intros [i j|ck' j]; [by right|]. simpl.
    destruct (decide (ck' = ck)) as [->|]; [by left|right; congruence].
  - intros j. simpl. by rewrite lookup_insert_eq.
  - apply (sl_len _ Hs).
  - apply (sl_rows _ Hs).
  - simpl. intros ck' es [[_ <-]|[_ Hes]]%lookup_insert_Some; [done|].
    by apply (sl_clerks _ Hs ck').
  - split_and!; [done..|]. intros sl Hne. by rewrite Hoth, H3.
Qed.

End KvServers.

(** ** The operations of a test *)
Module Operations.
Import KvServers.

Inductive operation :=
| Connect (i : nat) (to : list nat)
| Disconnect (i : nat) (from : list nat)
| ConnectAll
| Partition (p1 p2 : list nat)
| MakeClient (ck : nat) (names : list string) (to : list nat)
| DeleteClient (ck : nat)
| ConnectClient (ck : nat) (to : list nat)
| DisconnectClient (ck : nat) (from : list nat)
| Shutdown (i : nat)
| Start (i : nat) (names : list string)
| Saves (x : nat) (c : list byte * list byte).       (* what server instance [x] does *)

Definition on_mesh (f : KvConfig.config -> option KvConfig.config) (cl : cluster) :
    option cluster :=
  cfg ← f (mesh cl); Some (with_mesh cl cfg).

Definition do_operation (o : operation) (cl : cluster) : option cluster :=
  match o with
  | Connect i to => on_mesh (λ cfg, connectUnlocked cfg i to) cl
  | Disconnect i from => on_mesh (λ cfg, disconnectUnlocked cfg i from) cl
  | ConnectAll => on_mesh KvConfig.ConnectAll cl
  | Partition p1 p2 => on_mesh (λ cfg, partition cfg p1 p2) cl
  | MakeClient ck names to => on_mesh (λ cfg, makeClient cfg ck names to) cl
  | DeleteClient ck => Some (with_mesh cl (deleteClient (mesh cl) ck))
  | ConnectClient ck to => on_mesh (λ cfg, ConnectClientUnlocked cfg ck to) cl
  | DisconnectClient ck from => on_mesh (λ cfg, DisconnectClientUnlocked cfg ck from) cl
  | Shutdown i => ShutdownServer cl i
  | Start i names => StartServer cl i names
  | Saves x c => Some (with_store cl (Store.save x c (store cl)))
  end.

(** Arguments in range; new clerks and random names are fresh. *)
Definition in_range (cl : cluster) (ks : list nat) : Prop :=
  Forall (λ k, k < n (mesh cl)) ks ∧ length ks ≤ n (mesh cl).

Definition fresh_row (cl : cluster) (names : list string) : Prop :=
  length names = n (mesh cl) ∧ fresh_names names (net (mesh cl)).

Definition operation_ok (cl : cluster) (o : operation) : Prop :=
  match o with
  | Connect i ks | Disconnect i ks => i < n (mesh cl) ∧ in_range cl ks
  | ConnectAll | DeleteClient _ | Saves _ _ => True
  | Partition p1 p2 => in_range cl p1 ∧ in_range cl p2
  | MakeClient ck names to => fresh_row cl names ∧ clerks (mesh cl) !! ck = None ∧ in_range cl to
  | ConnectClient ck ks | DisconnectClient ck ks =>
      is_Some (clerks (mesh cl) !! ck) ∧ in_range cl ks
  | Shutdown i => i < n (mesh cl)
  | Start i names => i < n (mesh cl) ∧ fresh_row cl names
  end.

(** A test performs operations with such arguments. *)
Definition test_step (cl cl' : cluster) : Prop :=
  ∃ o, operation_ok cl o ∧ do_operation o cl = Some cl'.

End Operations.
