(* ===== verification/KvServersProof.v ===== *)
(** * Correctness of [ShutdownServer], [StartServer] and [make_config]

    Every operation of [kvraft/config.go] on a well-formed cluster, and the clusters that a
    test can reach. *)
From S2P Require Import Prelude Labrpc Mesh KvConfig Store KvServers.
From Stdlib Require Import Strings.Byte.
Import Labrpc KvConfig Slots KvServers.

Implicit Types (cl : cluster).

Lemma server_at_delete rn i j :
  server_at (DeleteServer (inr i) rn : network) (inr j) =
    if decide (i = j) then None else server_at rn (inr j).
Proof.
  unfold server_at. simpl. case_decide as E.
  - subst. by rewrite lookup_insert_eq.
  - by rewrite lookup_insert_ne by congruence.
Qed.

Lemma server_at_add rn i s j :
  server_at (AddServer (inr i) s rn : network) (inr j) =
    if decide (i = j) then Some s else server_at rn (inr j).
Proof.
  unfold server_at. simpl. case_decide as E.
  - subst. by rewrite lookup_insert_eq.
  - by rewrite lookup_insert_ne by congruence.
Qed.

Lemma server_at_same (rn rn' : network) sn : servers rn' = servers rn -> server_at rn' sn = server_at rn sn.
Proof. unfold server_at. by intros ->. Qed.

(** Servers added or deleted do not matter to the slots. *)
Lemma is_open_servers cfg rn s :
  enabled rn = enabled (net cfg) -> is_open (KvConfig.set_net cfg rn) s = is_open cfg s.
Proof.
  intros He. unfold is_open. change (end_at (KvConfig.set_net cfg rn) s) with (end_at cfg s).
  destruct (end_at cfg s); [|done]. unfold is_enabled. simpl. by rewrite He.
Qed.

Lemma index_lt {A} cl i (a : A) : i < n (mesh cl) -> index cl i a = Some a.
Proof. intros Hi. unfold index. by rewrite decide_True. Qed.

Lemma All_lt cfg : Forall (λ f, f < n cfg) (All cfg).
Proof. apply Forall_forall. intros x. unfold All. rewrite elem_of_seq. lia. Qed.

Lemma rows_started_net cfg rn : rows_started cfg -> rows_started (KvConfig.set_net cfg rn).
Proof. done. Qed.

(** ** Shutting a server down *)
Lemma ShutdownServer_spec cl i :
  cluster_ok cl -> i < n (mesh cl) ->
  ∃ cl' rn, ShutdownServer cl i = Some cl' ∧ cluster_ok cl' ∧
    mesh cl' = KvConfig.set_net (mesh cl) rn ∧
    store cl' = Store.shutdown i (store cl) ∧
    (forall s, is_Some (end_at (mesh cl) s) ->
       is_open (mesh cl') s =
         if decide (s ∈ links i (All (mesh cl))) then false else is_open (mesh cl) s).
Proof.
  intros [Hs Hr Hst Hcnt Hsrv] Hi. unfold ShutdownServer. cbn [do_parts ShutdownServer_parts do_part].
  destruct (disconnectUnlocked_slots (mesh cl) i (All (mesh cl)) Hs Hr Hi)
    as (cfg1 & Hd & Hs1 & [rn1 ->] & Hsv & Hopen); [apply All_lt|by unfold All; rewrite length_seq|].
  rewrite Hd. simpl. rewrite !index_lt by done. simpl. rewrite index_lt by done.
  eexists _, (DeleteServer (inr i) rn1). split_and!; [done| |done|done|].
  - split; simpl.
    + by apply (slots_net (KvConfig.set_net (mesh cl) rn1)).
    + done.
    + by apply Store.shutdown_ok.
    + rewrite Hcnt. unfold Store.kill_server, Store.copy_saved.
      destruct (Store.content_of (store cl) i); simpl; destruct (_ !! i); simpl; by rewrite ?length_alter.
    + intros j. change (Store.kill_server i (Store.copy_saved i (store cl)))
        with (Store.shutdown i (store cl)).
      rewrite Store.shutdown_running, server_at_delete. case_decide as E.
      * subst. by rewrite lookup_delete_eq.
      * rewrite lookup_delete_ne by done. rewrite <- Hsrv. by apply server_at_same.
  - intros s Hsm. simpl. rewrite <- Hopen by done.
    by apply (is_open_servers (KvConfig.set_net (mesh cl) rn1)).
Qed.

(** ** Starting it again *)
Lemma StartServer_spec cl i names :
  slots_ok (mesh cl) -> Store.store_ok (store cl) ->
  nservers cl = length (Store.instances (store cl)) ->
  i < n (mesh cl) -> length names = n (mesh cl) -> fresh_names names (net (mesh cl)) ->
  ∃ cl' st', StartServer cl i names = Some cl' ∧
    Store.start i names (store cl) = Some st' ∧ store cl' = st' ∧
    slots_ok (mesh cl') ∧ Store.store_ok st' ∧ nservers cl' = length (Store.instances st') ∧
    n (mesh cl') = n (mesh cl) ∧ maxraftstate cl' = maxraftstate cl ∧
    clerks (mesh cl') = clerks (mesh cl) ∧
    endnames (mesh cl') = <[i := Some names]> (endnames (mesh cl)) ∧
    ends (net (mesh cl')) = list_to_set (inl <$> names) ∪ ends (net (mesh cl)) ∧
    (forall j, server_at (net (mesh cl')) (inr j) =
       if decide (i = j) then Some (nservers cl) else server_at (net (mesh cl)) (inr j)) ∧
    (forall j, j < n (mesh cl) -> is_open (mesh cl') (ServerEnd i j) = false) ∧
    (forall s, (forall j, s ≠ ServerEnd i j) ->
       end_at (mesh cl') s = end_at (mesh cl) s ∧ is_open (mesh cl') s = is_open (mesh cl) s).
Proof.
  intros Hs Hst Hcnt Hi Hlen Hf.
  destruct (make_ends_spec names 0 (net (mesh cl)) Hf) as (rn & Hr & Hends & Hsrv & _ & _).
  destruct (Store.start_ok i names (store cl) Hst) as (st' & p & Hst' & Hok & _ & _ & _ & Hl & _).
  destruct (start_slots (mesh cl) i names rn (nservers cl) (nextClientId (mesh cl)) Hs Hi Hlen Hf Hr)
    as (Hs' & Hnew & Hold).
  unfold StartServer. cbn [do_parts StartServer_parts do_part]. rewrite Hr. simpl.
  rewrite !index_lt by done. simpl. rewrite index_lt by done. simpl.
  unfold Store.start in Hst'. rewrite Hst'. simpl. rewrite index_lt by done. simpl.
  rewrite Nat.sub_0_r. eexists _, st'. split_and!; simpl; try done.
  - by rewrite Hl, Hcnt.
  - intros j. etrans; [apply server_at_add|]. case_decide; [done|]. by apply server_at_same.
Qed.

Lemma StartServer_ok cl i names :
  cluster_ok cl -> i < n (mesh cl) -> length names = n (mesh cl) ->
  fresh_names names (net (mesh cl)) ->
  ∃ cl', StartServer cl i names = Some cl' ∧ cluster_ok cl' ∧ n (mesh cl') = n (mesh cl).
Proof.
  intros [Hs Hr Hst Hcnt Hsrv] Hi Hlen Hf.
  destruct (StartServer_spec cl i names Hs Hst Hcnt Hi Hlen Hf)
    as (cl' & st' & Hcl & Hsto & <- & Hs' & Hst' & Hcnt' & Hn & _ & _ & He & _ & Hsv & _).
  exists cl'. split_and!; [done| |done]. split; [done| |done|done|].
  - intros j Hj. rewrite He. rewrite Hn in Hj. destruct (decide (i = j)) as [<-|Hne].
    + exists names. apply list_lookup_insert_eq. rewrite (sl_len _ Hs). done.
    + rewrite list_lookup_insert_ne by done. by apply Hr.
  - intros j. rewrite Hsv.
    destruct (Store.start_ok i names (store cl) Hst) as (st1 & p & Hst1 & _ & _ & _ & Hrun & _ & _).
    assert (st1 = store cl') as -> by congruence. rewrite Hrun. case_decide as E.
    + subst. by rewrite lookup_insert_eq, Hcnt.
    + rewrite lookup_insert_ne by done. apply Hsrv.
Qed.

(** ** Operations on the network alone *)

Definition server_slot (s : slot) : Prop := match s with ServerEnd _ _ => True | _ => False end.

Definition clerk_slot (ck : nat) (s : slot) : Prop :=
  match s with ClerkEnd ck' _ => ck' = ck | _ => False end.

(** [cfg'] is [cfg] with other ends enabled, in the slots [P] only. *)
Definition rewired (P : slot -> Prop) (cfg cfg' : config) : Prop :=
  slots_ok cfg' ∧ (∃ rn, cfg' = KvConfig.set_net cfg rn ∧ servers rn = servers (net cfg)) ∧
  forall s, ¬ P s -> is_open cfg' s = is_open cfg s.

(** From what an operation says of the slots that have an end. *)
Lemma rewired_intro (P : slot -> Prop) cfg cfg' (ss : list slot) b :
  slots_ok cfg' -> (∃ rn, cfg' = KvConfig.set_net cfg rn) -> servers (net cfg') = servers (net cfg) ->
  (forall s, is_Some (end_at cfg s) -> is_open cfg' s = if decide (s ∈ ss) then b else is_open cfg s) ->
  (forall s, s ∈ ss -> P s) -> rewired P cfg cfg'.
Proof.
  intros Hs [rn ->] Hsv Ho HP. split_and!; [done|by exists rn|]. intros s Hn.
  destruct (end_at cfg s) as [e|] eqn:He.
  - rewrite Ho by (by eexists). rewrite decide_False; [done|]. intros Hin. by apply Hn, HP.
  - unfold is_open. change (end_at (KvConfig.set_net cfg rn) s) with (end_at cfg s). by rewrite He.
Qed.

Lemma links_server i ks s : s ∈ links i ks -> server_slot s.
Proof. by intros (j & _ & [->| ->])%elem_of_links. Qed.

Lemma rewired_refl P cfg : slots_ok cfg -> rewired P cfg cfg.
Proof. intros Hs. split_and!; [done| |done]. exists (net cfg). by destruct cfg. Qed.

Lemma rewired_trans P cfg1 cfg2 cfg3 :
  rewired P cfg1 cfg2 -> rewired P cfg2 cfg3 -> rewired P cfg1 cfg3.
Proof.
  intros [_ [(rn2 & -> & E2) O2]] [H3 [(rn3 & -> & E3) O3]]. split_and!; [done| |].
  - exists rn3. split; [done|]. rewrite E3. exact E2.
  - intros s Hn. by rewrite O3, O2.
Qed.

Lemma rewired_n P cfg cfg' : rewired P cfg cfg' -> n cfg' = n cfg.
Proof. by intros [_ [(rn & -> & _) _]]. Qed.

Lemma rewired_rows P cfg cfg' : rewired P cfg cfg' -> rows_started cfg -> rows_started cfg'.
Proof. by intros [_ [(rn & -> & _) _]]. Qed.

Lemma rewired_ok P cl cfg' : cluster_ok cl -> rewired P (mesh cl) cfg' -> cluster_ok (with_mesh cl cfg').
Proof.
  intros [Hs Hr Hst Hcnt Hsrv] Hw. split; [apply Hw|by eapply rewired_rows|done|done|].
  intros i. destruct Hw as [_ [(rn & -> & E) _]]. rewrite <- Hsrv. by apply server_at_same.
Qed.

Lemma connect_rewired cfg i ks :
  slots_ok cfg -> rows_started cfg -> i < n cfg -> Forall (λ k, k < n cfg) ks ->
  ∃ cfg', connectUnlocked cfg i ks = Some cfg' ∧ rewired server_slot cfg cfg'.
Proof.
  intros Hs Hr Hi Hks. pose proof (slots_all_started _ Hs Hr) as Ha.
  destruct (connect_links cfg i ks Ha Hi Hks) as (cfg' & Hc & _). exists cfg'. split; [done|].
  destruct (connectUnlocked_slots cfg i ks cfg' Hs Hc) as (Hs' & Hrn & Hsrv & Ho).
  apply (rewired_intro _ _ _ _ _ Hs' Hrn Hsrv Ho), links_server.
Qed.

Lemma disconnect_rewired cfg i ks :
  slots_ok cfg -> rows_started cfg -> i < n cfg -> Forall (λ k, k < n cfg) ks ->
  length ks ≤ n cfg ->
  ∃ cfg', disconnectUnlocked cfg i ks = Some cfg' ∧ rewired server_slot cfg cfg'.
Proof.
  intros Hs Hr Hi Hks Hl.
  destruct (disconnectUnlocked_slots cfg i ks Hs Hr Hi Hks Hl) as (cfg' & Hc & Hs' & Hrn & Hsrv & Ho).
  eexists. split; [done|]. apply (rewired_intro _ _ _ _ _ Hs' Hrn Hsrv Ho), links_server.
Qed.

Lemma for_each_rewired P f ks cfg :
  (forall cfg1 k, k ∈ ks -> rewired P cfg cfg1 -> ∃ cfg2, f cfg1 k = Some cfg2 ∧ rewired P cfg1 cfg2) ->
  slots_ok cfg -> ∃ cfg', for_each f ks cfg = Some cfg' ∧ rewired P cfg cfg'.
Proof.
  intros Hf Hs. assert (Hg : forall cfg1, rewired P cfg cfg1 ->
    ∃ cfg', for_each f ks cfg1 = Some cfg' ∧ rewired P cfg cfg'); [|by apply Hg, rewired_refl].
  induction ks as [|k ks IH]; intros cfg1 H1; cbn [for_each]; [by exists cfg1|].
  destruct (Hf cfg1 k ltac:(left) H1) as (cfg2 & -> & H2). simpl.
  apply IH; [|by eapply rewired_trans]. intros cfg3 k' Hk'. apply Hf. by right.
Qed.

Lemma ConnectAll_rewired cfg :
  slots_ok cfg -> rows_started cfg -> ∃ cfg', ConnectAll cfg = Some cfg' ∧ rewired server_slot cfg cfg'.
Proof.
  intros Hs Hr. apply for_each_rewired; [|done]. intros cfg1 k Hk%elem_of_seq Hw.
  apply connect_rewired; [apply Hw|by eapply rewired_rows|rewrite (rewired_n _ _ _ Hw); lia|].
  apply All_lt.
Qed.

Lemma isolate_rewired p others cfg k :
  slots_ok cfg -> rows_started cfg -> Forall (λ k, k < n cfg) p -> k ∈ p ->
  Forall (λ k, k < n cfg) others -> length others ≤ n cfg ->
  ∃ cfg', isolate p others cfg k = Some cfg' ∧ rewired server_slot cfg cfg'.
Proof.
  intros Hs Hr Hp Hk Ho Hl. assert (k < n cfg) by (rewrite Forall_forall in Hp; by apply Hp).
  unfold isolate. destruct (disconnect_rewired cfg k others) as (cfg1 & -> & H1); [done..|]. simpl.
  destruct (connect_rewired cfg1 k p) as (cfg2 & -> & H2).
  - apply H1.
  - by eapply rewired_rows.
  - by rewrite (rewired_n _ _ _ H1).
  - by rewrite (rewired_n _ _ _ H1).
  - exists cfg2. split; [done|]. by eapply rewired_trans.
Qed.

Lemma partition_rewired cfg p1 p2 :
  slots_ok cfg -> rows_started cfg ->
  Forall (λ k, k < n cfg) p1 -> length p1 ≤ n cfg -> Forall (λ k, k < n cfg) p2 -> length p2 ≤ n cfg ->
  ∃ cfg', partition cfg p1 p2 = Some cfg' ∧ rewired server_slot cfg cfg'.
Proof.
  intros Hs Hr H1 L1 H2 L2. unfold partition.
  destruct (for_each_rewired server_slot (isolate p1 p2) p1 cfg) as (cfg1 & -> & W1); [|done|].
  { intros cfg1 k Hk W. pose proof (rewired_n _ _ _ W) as En.
    apply isolate_rewired; rewrite ?En; try done; [apply W|by eapply rewired_rows]. }
  simpl. pose proof (rewired_n _ _ _ W1) as En1.
  destruct (for_each_rewired server_slot (isolate p2 p1) p2 cfg1) as (cfg2 & -> & W2); [|apply W1|].
  { intros cfg2 k Hk W. pose proof (rewired_n _ _ _ W) as En. rewrite En1 in En.
    apply isolate_rewired; rewrite ?En; try done; [apply W|].
    eapply rewired_rows; [done|]. by eapply rewired_rows. }
  exists cfg2. split; [done|]. by eapply rewired_trans.
Qed.

(** The two operations on the ends of a clerk. *)
Definition clerk_ends (ck : nat) (ks : list nat) : list slot := ClerkEnd ck <$> ks.

Lemma clerk_ends_slot ck ks s : s ∈ clerk_ends ck ks -> clerk_slot ck s.
Proof. by intros (j & -> & _)%list_elem_of_fmap. Qed.

Lemma elem_of_clerk_ends ck ks ck' j : ClerkEnd ck' j ∈ clerk_ends ck ks <-> ck = ck' ∧ j ∈ ks.
Proof.
  unfold clerk_ends. rewrite list_elem_of_fmap. split.
  - by intros (y & [= -> ->] & Hy).
  - intros [-> Hj]. by exists j.
Qed.

Lemma clerk_ends_names cfg ck ks :
  slots_ok cfg -> is_Some (clerks cfg !! ck) -> Forall (λ k, k < n cfg) ks ->
  ∃ out, mapM (λ j, default [] (clerks cfg !! ck) !! j) ks = Some out ∧
    mapM (end_at cfg) (clerk_ends ck ks) = Some out.
Proof.
  intros Hs [es Hes] Hks.
  destruct (mapM_total (λ j, es !! j) ks) as [out Ho].
  { intros j Hj. rewrite Forall_forall in Hks. apply lookup_lt_is_Some_2.
    rewrite (sl_clerks _ Hs ck es Hes). by apply Hks. }
  exists out. unfold clerk_ends. rewrite mapM_fmap_l. simpl. rewrite Hes. done.
Qed.

Lemma ConnectClient_slots cfg ck ks :
  slots_ok cfg -> is_Some (clerks cfg !! ck) -> Forall (λ k, k < n cfg) ks ->
  ∃ cfg', ConnectClientUnlocked cfg ck ks = Some cfg' ∧ rewired (clerk_slot ck) cfg cfg' ∧
    forall s, is_Some (end_at cfg s) ->
      is_open cfg' s = if decide (s ∈ clerk_ends ck ks) then true else is_open cfg s.
Proof.
  intros Hs Hck Hks. destruct (clerk_ends_names cfg ck ks Hs Hck Hks) as (out & Ho & Hm).
  unfold ConnectClientUnlocked. rewrite Ho. simpl.
  destruct (enable_slots cfg _ _ true Hs Hm) as [H1 H2]. eexists. split_and!; [done| |done].
  destruct (enable_all_rest out true (net cfg)) as (_ & Hsv & _).
  apply (rewired_intro _ _ _ _ _ H1 ltac:(by eexists) Hsv H2), clerk_ends_slot.
Qed.

Lemma DisconnectClient_slots cfg ck ks :
  slots_ok cfg -> is_Some (clerks cfg !! ck) -> Forall (λ k, k < n cfg) ks ->
  ∃ cfg', DisconnectClientUnlocked cfg ck ks = Some cfg' ∧ rewired (clerk_slot ck) cfg cfg' ∧
    forall s, is_Some (end_at cfg s) ->
      is_open cfg' s = if decide (s ∈ clerk_ends ck ks) then false else is_open cfg s.
Proof.
  intros Hs Hck Hks. destruct (clerk_ends_names cfg ck ks Hs Hck Hks) as (out & Ho & Hm).
  unfold DisconnectClientUnlocked. rewrite Ho. simpl.
  destruct (enable_slots cfg _ _ false Hs Hm) as [H1 H2]. eexists. split_and!; [done| |done].
  destruct (enable_all_rest out false (net cfg)) as (_ & Hsv & _).
  apply (rewired_intro _ _ _ _ _ H1 ltac:(by eexists) Hsv H2), clerk_ends_slot.
Qed.

Lemma deleteClient_slots cfg ck : slots_ok cfg -> slots_ok (deleteClient cfg ck).
Proof.
  assert (Hle : forall s e, end_at (deleteClient cfg ck) s = Some e -> end_at cfg s = Some e).
  { intros [i j|ck' j] e; simpl; [done|]. destruct (decide (ck = ck')) as [<-|Hne].
    - by rewrite lookup_delete_eq.
    - by rewrite lookup_delete_ne. }
  intros [H1 H2 H3 H4 H5]. split; [done|done| | |].
  - simpl. intros ck' es [_ Hes]%lookup_delete_Some. by apply (H3 ck').
  - eauto.
  - eauto.
Qed.

Lemma makeClient_slots cfg ck names ks :
  slots_ok cfg -> length names = n cfg -> fresh_names names (net cfg) ->
  Forall (λ k, k < n cfg) ks ->
  ∃ cfg', makeClient cfg ck names ks = Some cfg' ∧ slots_ok cfg' ∧ n cfg' = n cfg ∧
    endnames cfg' = endnames cfg ∧ servers (net cfg') = servers (net cfg) ∧
    (forall j, j < n cfg -> is_open cfg' (ClerkEnd ck j) = bool_decide (j ∈ ks)) ∧
    (forall s, (forall j, s ≠ ClerkEnd ck j) -> is_Some (end_at cfg s) ->
       end_at cfg' s = end_at cfg s ∧ is_open cfg' s = is_open cfg s).
Proof.
  intros Hs Hlen Hf Hks.
  destruct (make_ends_spec names 0 (net cfg) Hf) as (rn & Hr & _ & Hsrv & _).
  destruct (client_slots cfg ck names rn (nextClientId cfg + 1) Hs Hlen Hf Hr) as (Hs1 & Hn1 & Ho1).
  unfold makeClient. rewrite Hr. cbn [mbind option_bind]. set (cfg1 := KvConfig.Config _ _ _ _ _) in *.
  assert (Hck1 : clerks cfg1 !! ck = Some names) by (by simpl; rewrite lookup_insert_eq).
  destruct (ConnectClient_slots cfg1 ck ks Hs1) as (cfg' & Hc & Hw & Hopen); [by eexists|done|].
  exists cfg'. destruct Hw as [Hs' [(rn' & -> & Hsv) _]]. split_and!; [done..|by simpl; rewrite Hsv| |].
  - intros j Hj. rewrite Hopen, Hn1.
    + apply eq_true_iff_eq. rewrite bool_decide_eq_true. unfold clerk_ends.
      case_decide as E; rewrite list_elem_of_fmap in E; naive_solver.
    + simpl. rewrite lookup_insert_eq. apply lookup_lt_is_Some_2. simpl. lia.
  - intros s Hne Hsm. destruct (Ho1 s Hne) as [He1 Hop1].
    split; [done|]. rewrite Hopen by (by rewrite He1). rewrite decide_False; [done|].
    unfold clerk_ends. intros (j & -> & _)%list_elem_of_fmap. by apply (Hne j).
Qed.

(** ** Every operation *)
Import Operations.

Lemma on_mesh_ok P f cl :
  cluster_ok cl -> (∃ cfg', f (mesh cl) = Some cfg' ∧ rewired P (mesh cl) cfg') ->
  ∃ cl', on_mesh f cl = Some cl' ∧ cluster_ok cl' ∧ n (mesh cl') = n (mesh cl).
Proof.
  intros Hc (cfg' & Hf & Hw). unfold on_mesh. rewrite Hf. simpl.
  eexists. split_and!; [done|by eapply rewired_ok|by eapply rewired_n].
Qed.

Lemma clerk_change_ok cl cfg' :
  cluster_ok cl -> slots_ok cfg' -> endnames cfg' = endnames (mesh cl) ->
  n cfg' = n (mesh cl) -> servers (net cfg') = servers (net (mesh cl)) ->
  cluster_ok (with_mesh cl cfg').
Proof.
  intros [Hs Hr Hst Hcnt Hsrv] Hs' He Hn Hsv. split; [done| |done|done|].
  - intros i Hi. simpl in *. rewrite He. apply Hr. by rewrite <- Hn.
  - intros i. simpl. rewrite <- Hsrv. by apply server_at_same.
Qed.

Lemma operation_preserves cl o :
  cluster_ok cl -> operation_ok cl o ->
  ∃ cl', do_operation o cl = Some cl' ∧ cluster_ok cl' ∧ n (mesh cl') = n (mesh cl).
Proof.
  intros Hc Ho. pose proof (cl_slots _ Hc) as Hs. pose proof (cl_rows _ Hc) as Hr.
  destruct o as [i ks|i ks| |p1 p2|ck names ks|ck|ck ks|ck ks|i|i names|x c]; simpl in Ho;
    cbn [do_operation].
  - destruct Ho as (Hi & Hks & Hl). by eapply on_mesh_ok, connect_rewired.
  - destruct Ho as (Hi & Hks & Hl). by eapply on_mesh_ok, disconnect_rewired.
  - by eapply on_mesh_ok, ConnectAll_rewired.
  - destruct Ho as ((H1 & L1) & H2 & L2). by eapply on_mesh_ok, partition_rewired.
  - destruct Ho as ((Hl & Hf) & Hck & Hks & _).
    destruct (makeClient_slots (mesh cl) ck names ks Hs Hl Hf Hks)
      as (cfg' & Hm & Hs' & Hn & He & Hsv & _).
    unfold on_mesh. rewrite Hm. simpl. eexists. split_and!; [done|by apply clerk_change_ok|done].
  - eexists. split_and!; [done| |done]. apply clerk_change_ok; try done. by apply deleteClient_slots.
  - destruct Ho as (Hck & Hks & _). apply (on_mesh_ok (clerk_slot ck)); [done|].
    destruct (ConnectClient_slots (mesh cl) ck ks Hs Hck Hks) as (cfg' & ? & ? & _). by exists cfg'.
  - destruct Ho as (Hck & Hks & _). apply (on_mesh_ok (clerk_slot ck)); [done|].
    destruct (DisconnectClient_slots (mesh cl) ck ks Hs Hck Hks) as (cfg' & ? & ? & _).
    by exists cfg'.
  - destruct (ShutdownServer_spec cl i Hc Ho) as (cl' & rn & Hsd & Hc' & Hm & _).
    exists cl'. split_and!; [done..|]. by rewrite Hm.
  - destruct Ho as (Hi & Hl & Hf). by apply StartServer_ok.
  - eexists. split_and!; [done| |done]. destruct Hc as [H1 H2 H3 H4 H5].
    assert (Hsame : Store.running (Store.save x c (store cl)) = Store.running (store cl) ∧
      Store.instances (Store.save x c (store cl)) = Store.instances (store cl)).
    { unfold Store.save. by destruct (Store.instances (store cl) !! x). }
    destruct Hsame as [E1 E2]. split; simpl; [done|done|by apply Store.save_ok|by rewrite E2|].
    intros i. by rewrite E1.
Qed.

(** ** [make_config] *)

(** After the first [k] servers were started. *)
Record starting (cl : cluster) (N k : nat) (used : list string) : Prop := {
  st_slots : slots_ok (mesh cl);
  st_store : Store.store_ok (store cl);
  st_count : nservers cl = length (Store.instances (store cl));
  st_n : n (mesh cl) = N;
  st_rows : forall i, i < k -> ∃ es, endnames (mesh cl) !! i = Some (Some es);
  st_servers : forall i, server_at (net (mesh cl)) (inr i) = Store.running (store cl) !! i;
  st_run : forall i, i < k -> is_Some (Store.running (store cl) !! i);
  st_content : forall i, Store.content_of (store cl) i = if decide (i < k) then Some ([], []) else None;
  st_clerks : clerks (mesh cl) = ∅;
  st_ends : ends (net (mesh cl)) = list_to_set (inl <$> used)
}.

Lemma empty_starting N m : starting (empty_cluster N m) N 0 [].
Proof.
  split; simpl; try done; try lia.
  - split; simpl.
    + apply length_replicate.
    + intros i es [? _]%lookup_replicate_1. done.
    + intros ck es. by rewrite lookup_empty.
    + intros [i j|ck j] s' e; simpl; [|by rewrite lookup_empty].
      unfold ep. by destruct (replicate N None !! i) as [o|] eqn:E; [apply lookup_replicate_1 in E as [-> _]|].
    + intros [i j|ck j] e; simpl; [|by rewrite lookup_empty].
      unfold ep. by destruct (replicate N None !! i) as [o|] eqn:E; [apply lookup_replicate_1 in E as [-> _]|].
  - apply Store.empty_store_ok.
Qed.

Lemma start_starting cl N k used names :
  starting cl N k used -> k < N -> length names = N -> NoDup (used ++ names) ->
  ∃ cl', StartServer cl k names = Some cl' ∧ starting cl' N (S k) (used ++ names).
Proof.
  intros [Hs Hst Hcnt Hn Hr Hsrv Hrun Hct Hck He] Hk Hl (_ & Hdis & Hnd)%NoDup_app.
  assert (Hf : fresh_names names (net (mesh cl))).
  { split; [done|]. intros e Hin. rewrite He, elem_of_list_to_set, list_elem_of_fmap.
    intros (e' & [= <-] & He'). by apply (Hdis e). }
  rewrite <- Hn in Hk, Hl.
  destruct (StartServer_spec cl k names Hs Hst Hcnt Hk Hl Hf)
    as (cl' & st' & Hcl & Hsto & <- & Hs' & Hst' & Hcnt' & Hn' & _ & Hck' & He' & Hen & Hsv & _).
  destruct (Store.start_ok k names (store cl) Hst) as (st1 & p & Hst1 & _ & _ & _ & Hru & _ & Hc).
  assert (st1 = store cl') as -> by congruence.
  exists cl'. split; [done|]. split; try done; try congruence.
  - intros i Hi. rewrite He'. destruct (decide (k = i)) as [<-|Hne].
    + exists names. apply list_lookup_insert_eq. by rewrite (sl_len _ Hs).
    + rewrite list_lookup_insert_ne by done. apply Hr. lia.
  - intros i. rewrite Hsv, Hru, Hcnt. case_decide as E.
    + subst. by rewrite lookup_insert_eq.
    + rewrite lookup_insert_ne by done. apply Hsrv.
  - intros i Hi. rewrite Hru. apply lookup_insert_is_Some'.
    destruct (decide (k = i)); [by left|right]. apply Hrun. lia.
  - intros i. rewrite Hc, !Hct. repeat case_decide; try lia; done.
  - rewrite Hen, He, fmap_app, list_to_set_app_L. set_solver.
Qed.

Lemma start_all_starting namess cl N k used :
  starting cl N k used -> k + length namess = N -> Forall (λ names, length names = N) namess ->
  NoDup (used ++ concat namess) ->
  ∃ cl' used', start_all cl k namess = Some cl' ∧ starting cl' N N used'.
Proof.
  revert cl k used. induction namess as [|names namess IH]; intros cl k used Hst Hk Hl Hnd;
    cbn [start_all].
  - simpl in Hk. replace k with N in Hst by lia. by eauto.
  - apply Forall_cons in Hl as [Hl Hls]. simpl in Hk, Hnd. rewrite app_assoc in Hnd.
    destruct (start_starting cl N k used names Hst ltac:(lia) Hl) as (cl' & Hs & Hst').
    { by apply NoDup_app in Hnd as [? _]. }
    rewrite Hs. simpl. apply (IH cl' (S k) (used ++ names)); [done|lia|done|done].
Qed.

(** All the links. *)
Lemma ConnectAll_links cfg :
  all_started cfg -> ∃ cfg', KvConfig.ConnectAll cfg = Some cfg' ∧
    forall a b, a < n cfg -> b < n cfg -> link cfg' a b = true.
Proof.
  intros Ha. unfold KvConfig.ConnectAll.
  assert (Hg : forall ks cfg1, all_started cfg1 -> n cfg1 = n cfg -> Forall (λ k, k < n cfg) ks ->
    ∃ cfg', for_each (λ cfg i, connectUnlocked cfg i (All cfg)) ks cfg1 = Some cfg' ∧
      forall a b, a < n cfg -> b < n cfg ->
        link cfg' a b = if decide (a ∈ ks ∨ b ∈ ks) then true else link cfg1 a b).
  { induction ks as [|k ks IH]; intros cfg1 Ha1 Hn1 Hks; cbn [for_each].
    - exists cfg1. split; [done|]. intros a b _ _. rewrite decide_False; [done|].
      by intros [?%elem_of_nil|?%elem_of_nil].
    - apply Forall_cons in Hks as [Hk Hks].
      destruct (connect_links cfg1 k (All cfg1)) as (cfg2 & -> & Ha2 & Hn2 & Hl2);
        [done|by rewrite Hn1|apply All_lt|]. simpl.
      destruct (IH cfg2) as (cfg' & -> & Hl'); [done|congruence|done|]. exists cfg'.
      split; [done|]. intros a b Hab Hbb. rewrite Hl', Hl2 by (by rewrite ?Hn1).
      unfold All. rewrite Hn1. repeat case_decide; try done; exfalso;
        rewrite ?elem_of_seq, ?elem_of_cons in *; naive_solver lia. }
  destruct (Hg (seq 0 (n cfg)) cfg Ha eq_refl) as (cfg' & Hc & Hl).
  { apply Forall_forall. intros k Hk%elem_of_seq. lia. }
  exists cfg'. split; [done|]. intros a b Hab Hbb. rewrite Hl by done.
  rewrite decide_True; [done|]. rewrite !elem_of_seq. lia.
Qed.

Lemma slots_same_tables cfg rn :
  slots_ok cfg -> ends rn = ends (net cfg) -> connections rn = connections (net cfg) ->
  slots_ok (KvConfig.set_net cfg rn).
Proof. intros. by apply slots_net. Qed.

Lemma make_config_ok N unreliable m namess :
  names_ok N namess ->
  ∃ cl, make_config N unreliable m namess = Some cl ∧ cluster_ok cl ∧ n (mesh cl) = N ∧
    (forall i j, i < N -> j < N -> is_open (mesh cl) (ServerEnd i j) = true) ∧
    (forall i, i < N -> is_Some (server_at (net (mesh cl)) (inr i)) ∧
       Store.content_of (store cl) i = Some ([], [])) ∧
    clerks (mesh cl) = ∅ ∧ reliable (net (mesh cl)) = negb unreliable.
Proof.
  intros (Hn & Hl & Hnd).
  destruct (start_all_starting namess (empty_cluster N m) N 0 [] (empty_starting N m))
    as (cl1 & used & Hs1 & St); [done|done|done|].
  pose proof (st_n _ _ _ _ St) as En.
  assert (Hr : rows_started (mesh cl1)).
  { intros i Hi. rewrite En in Hi. by apply (st_rows _ _ _ _ St). }
  destruct (ConnectAll_rewired (mesh cl1) (st_slots _ _ _ _ St) Hr) as (cfg2 & Hc2 & Hs2 & (rn2 & -> & Hsv2) & _).
  destruct (ConnectAll_links (mesh cl1) (slots_all_started _ (st_slots _ _ _ _ St) Hr))
    as (cfg' & Hc' & Hlinks).
  assert (cfg' = KvConfig.set_net (mesh cl1) rn2) as -> by congruence. rewrite En in Hlinks.
  unfold make_config. rewrite Hs1. simpl. rewrite Hc2. simpl. eexists. split; [done|].
  split_and!; simpl; try done; [| |apply St].
  - split; simpl.
    + by apply (slots_same_tables (KvConfig.set_net (mesh cl1) rn2)).
    + done.
    + apply St.
    + apply St.
    + intros i. rewrite <- (st_servers _ _ _ _ St). by apply server_at_same.
  - intros i Hi. rewrite (st_content _ _ _ _ St), decide_True by done. split; [|done].
    replace (server_at _ _) with (Store.running (store cl1) !! i); [by apply (st_run _ _ _ _ St)|].
    rewrite <- (st_servers _ _ _ _ St). symmetry. by apply server_at_same.
Qed.

(** [make_config] with fresh random names succeeds; it leaves a network with the chosen
    reliability in which every server runs with an empty persister, every end between two
    servers is enabled and leads to its server, and no clerk exists; the largest log and the
    largest snapshot have size 0. *)
Theorem make_config_correct N unreliable m namess :
  names_ok N namess ->
  ∃ cl, make_config N unreliable m namess = Some cl ∧
    reliable (net (mesh cl)) = negb unreliable ∧ clerks (mesh cl) = ∅ ∧
    (forall i j, i < N -> j < N -> ∃ e s, end_at (mesh cl) (ServerEnd i j) = Some e ∧
       server_at (net (mesh cl)) (inr j) = Some s ∧
       locate (net (mesh cl)) (inl e) =
         Located (Target (inr j) s (negb unreliable) (longReordering (net (mesh cl))))) ∧
    (forall i, i < N -> Store.content_of (store cl) i = Some ([], [])) ∧
    LogSize cl = Some 0 ∧ SnapshotSize cl = Some 0.
Proof.
  intros Hok. destruct (make_config_ok N unreliable m namess Hok)
    as (cl & Hm & Hcl & Hn & Hopen & Hsrv & Hck & Hrel).
  exists cl. split_and!; [done|done|done| |by intros i [_ ?]%Hsrv| |].
  - intros i j Hi Hj. destruct (Hsrv j Hj) as [[s Hs] _]. specialize (Hopen i j Hi Hj).
    unfold is_open in Hopen. destruct (end_at (mesh cl) (ServerEnd i j)) as [e|] eqn:He; [|done].
    exists e, s. split_and!; [done..|]. destruct (sl_ends _ (cl_slots _ Hcl) _ _ He) as [_ Hc].
    unfold locate, readEndnameInfo. simpl. rewrite Hopen, Hc. simpl. by rewrite Hs, Hrel.
  - unfold LogSize. erewrite mapM_all_some with (y := 0).
    { simpl. f_equal. apply max_size_zeros. }
    intros i Hi%elem_of_seq. by destruct (Hsrv i ltac:(lia)) as [_ ->].
  - unfold SnapshotSize. erewrite mapM_all_some with (y := 0).
    { simpl. f_equal. apply max_size_zeros. }
    intros i Hi%elem_of_seq. by destruct (Hsrv i ltac:(lia)) as [_ ->].
Qed.

(** ** What stays while a test goes on *)

(** The network is open and the servers that have a persister keep one. *)
Definition goes_on (cl cl' : cluster) : Prop :=
  done (net (mesh cl')) = done (net (mesh cl)) ∧
  forall i, is_Some (Store.content_of (store cl) i) -> is_Some (Store.content_of (store cl') i).

Definition stays_open (cfg cfg' : config) : Prop := done (net cfg') = done (net cfg).

Lemma connect_open cfg i ks cfg' : connectUnlocked cfg i ks = Some cfg' -> stays_open cfg cfg'.
Proof.
  unfold connectUnlocked, stays_open. intros (out & _ & (inc & _ & [= <-])%bind_Some)%bind_Some.
  simpl. by rewrite !enable_all_done.
Qed.

Lemma disconnect_open cfg i ks cfg' : disconnectUnlocked cfg i ks = Some cfg' -> stays_open cfg cfg'.
Proof.
  unfold disconnectUnlocked, stays_open. intros (out & _ & (inc & _ & [= <-])%bind_Some)%bind_Some.
  simpl. by rewrite !enable_all_done.
Qed.

Lemma for_each_open f ks cfg cfg' :
  (forall cfg1 k cfg2, f cfg1 k = Some cfg2 -> stays_open cfg1 cfg2) ->
  for_each f ks cfg = Some cfg' -> stays_open cfg cfg'.
Proof.
  intros Hf. revert cfg. induction ks as [|k ks IH]; intros cfg; cbn [for_each]; [by intros [= ->]|].
  intros (cfg1 & H1%Hf & H2%IH)%bind_Some. unfold stays_open in *. congruence.
Qed.

Lemma isolate_open p others cfg1 k cfg2 : isolate p others cfg1 k = Some cfg2 -> stays_open cfg1 cfg2.
Proof.
  intros (cfg & H1%disconnect_open & H2%connect_open)%bind_Some. unfold stays_open in *. congruence.
Qed.

Lemma partition_open cfg p1 p2 cfg' : partition cfg p1 p2 = Some cfg' -> stays_open cfg cfg'.
Proof.
  intros (cfg1 & H1 & H2)%bind_Some. apply for_each_open in H1, H2; eauto using isolate_open.
  unfold stays_open in *. congruence.
Qed.

Lemma make_ends_open names j rn rn' : make_ends names j rn = Some rn' -> done rn' = done rn.
Proof.
  revert j rn. induction names as [|e names IH]; intros j rn; cbn [make_ends]; [by intros [= ->]|].
  unfold MakeEnd. case_decide; [done|]. intros Hr%IH. exact Hr.
Qed.

Lemma ConnectClient_open cfg ck ks cfg' : ConnectClientUnlocked cfg ck ks = Some cfg' -> stays_open cfg cfg'.
Proof. intros (out & _ & [= <-])%bind_Some. unfold stays_open. simpl. by rewrite enable_all_done. Qed.

Lemma DisconnectClient_open cfg ck ks cfg' :
  DisconnectClientUnlocked cfg ck ks = Some cfg' -> stays_open cfg cfg'.
Proof. intros (out & _ & [= <-])%bind_Some. unfold stays_open. simpl. by rewrite enable_all_done. Qed.

Lemma makeClient_open cfg ck names ks cfg' : makeClient cfg ck names ks = Some cfg' -> stays_open cfg cfg'.
Proof.
  intros (rn & Hr%make_ends_open & Hc%ConnectClient_open)%bind_Some. unfold stays_open in *. by rewrite Hc.
Qed.

Lemma StartServer_goes_on cl i names cl' :
  Store.store_ok (store cl) -> StartServer cl i names = Some cl' ->
  goes_on cl cl' ∧ is_Some (Store.content_of (store cl') i).
Proof.
  intros Hs. destruct (Store.start_ok i names (store cl) Hs) as (st' & p & Hst & _ & _ & _ & _ & _ & Hc).
  unfold StartServer. cbn [do_parts StartServer_parts do_part].
  intros (cl1 & (rn & Hr%make_ends_open & Hi)%bind_Some & H1)%bind_Some.
  unfold index in Hi. case_decide; [|done]. simplify_eq. simpl in H1.
  rewrite index_lt in H1 by done. simpl in H1. unfold Store.start in Hst. rewrite Hst in H1.
  simpl in H1. rewrite index_lt in H1 by done. simplify_eq/=.
  unfold goes_on. simpl. split_and!; [done| |rewrite Hc, decide_True by done; by eexists].
  intros j Hj. rewrite Hc. case_decide; [by eexists|done].
Qed.

Lemma ShutdownServer_goes_on cl i cl' :
  Store.store_ok (store cl) -> ShutdownServer cl i = Some cl' -> goes_on cl cl'.
Proof.
  intros Hs. unfold ShutdownServer. cbn [do_parts ShutdownServer_parts do_part].
  intros (cl1 & (cfg & Hd%disconnect_open & [= <-])%bind_Some & H1)%bind_Some. simpl in H1.
  unfold index in H1. case_decide; [|done]. simpl in H1. rewrite decide_True in H1 by done.
  simplify_eq/=. split; [exact Hd|]. intros j Hj. simpl.
  change (is_Some (Store.content_of (Store.shutdown i (store cl)) j)). by rewrite Store.shutdown_content.
Qed.

Lemma operation_goes_on cl o cl' :
  cluster_ok cl -> Operations.do_operation o cl = Some cl' -> goes_on cl cl'.
Proof.
  intros Hc. assert (Hm : forall f cl', (forall cfg', f (mesh cl) = Some cfg' -> stays_open (mesh cl) cfg') ->
    Operations.on_mesh f cl = Some cl' -> goes_on cl cl').
  { intros f cl2 Hf (cfg' & H1%Hf & [= <-])%bind_Some. by split. }
  destruct o as [i ks|i ks| |p1 p2|ck names ks|ck|ck ks|ck ks|i|i names|x c]; cbn [Operations.do_operation].
  - apply Hm. intros cfg'. apply connect_open.
  - apply Hm. intros cfg'. apply disconnect_open.
  - apply Hm. intros cfg'. apply for_each_open. intros ???. apply connect_open.
  - apply Hm. intros cfg'. apply partition_open.
  - apply Hm. intros cfg'. apply makeClient_open.
  - by intros [= <-].
  - apply Hm. intros cfg'. apply ConnectClient_open.
  - apply Hm. intros cfg'. apply DisconnectClient_open.
  - apply ShutdownServer_goes_on, Hc.
  - intros Hs. by eapply StartServer_goes_on, Hs; apply Hc.
  - intros [= <-]. split; [done|]. intros i Hi. simpl. by apply Store.save_content.
Qed.

Lemma StartServer_open cl i names cl' :
  StartServer cl i names = Some cl' -> stays_open (mesh cl) (mesh cl').
Proof.
  unfold StartServer. cbn [do_parts StartServer_parts do_part].
  intros (cl1 & (rn & Hr%make_ends_open & Hi)%bind_Some & (cl2 & H2 & (cl3 & H3 & H4)%bind_Some)%bind_Some)%bind_Some.
  unfold index in *. simpl in H4. apply bind_Some in H3 as (st & _ & H3).
  repeat case_decide; simplify_eq. done.
Qed.

Lemma make_config_open N unreliable m namess cl :
  make_config N unreliable m namess = Some cl -> done (net (mesh cl)) = false.
Proof.
  assert (Hall : forall cl0 k cl1, start_all cl0 k namess = Some cl1 -> stays_open (mesh cl0) (mesh cl1)).
  { induction namess as [|names namess' IH]; intros cl0 k cl1; cbn [start_all]; [by intros [= ->]|].
    intros (cl2 & H1%StartServer_open & H2%IH)%bind_Some. unfold stays_open in *. congruence. }
  intros (cl1 & H1%Hall & (cfg & H2 & [= <-])%bind_Some)%bind_Some.
  apply for_each_open in H2; [|intros ???; apply connect_open]. unfold stays_open in *. simpl in *.
  congruence.
Qed.

(** What holds throughout a test with [N] servers. *)
Record in_test (N : nat) (cl : cluster) : Prop := {
  it_ok : cluster_ok cl;
  it_n : n (mesh cl) = N;
  it_open : done (net (mesh cl)) = false;
  it_saved : forall i, i < N -> is_Some (Store.content_of (store cl) i)
}.

Lemma make_config_in_test N unreliable m namess :
  names_ok N namess -> ∃ cl, make_config N unreliable m namess = Some cl ∧ in_test N cl.
Proof.
  intros Hok. destruct (make_config_ok N unreliable m namess Hok) as (cl & Hm & Hc & Hn & _ & Hs & _).
  exists cl. split; [done|]. split; [done..|by eapply make_config_open|].
  intros i Hi. destruct (Hs i Hi) as [_ ->]. by eexists.
Qed.

Lemma operation_in_test N cl o :
  in_test N cl -> operation_ok cl o -> ∃ cl', do_operation o cl = Some cl' ∧ in_test N cl'.
Proof.
  intros [Hc Hn Hd Hs] Ho. destruct (operation_preserves cl o Hc Ho) as (cl' & Hd' & Hc' & Hn').
  destruct (operation_goes_on cl o cl' Hc Hd') as [Ho' Hk].
  exists cl'. split; [done|]. split; [done|congruence..|auto].
Qed.

Lemma sizes_total N cl :
  in_test N cl -> is_Some (LogSize cl) ∧ is_Some (SnapshotSize cl).
Proof.
  intros [_ Hn _ Hs]. unfold LogSize, SnapshotSize. rewrite Hn.
  assert (Hg : forall f : list byte * list byte -> nat,
    is_Some (mapM (λ i, c ← Store.content_of (store cl) i; Some (f c)) (seq 0 N))).
  { intros f. apply mapM_total. intros i Hi%elem_of_seq. destruct (Hs i) as [c ->]; [lia|by eexists]. }
  split; [destruct (Hg (λ c, length c.1)) as [l ->]|destruct (Hg (λ c, length c.2)) as [l ->]];
    by eexists.
Qed.

Lemma states_lookup cl lead i :
  states cl lead !! i =
    if decide (i < n (mesh cl)) then Some (lead <$> Store.running (store cl) !! i) else None.
Proof.
  unfold states. rewrite list_lookup_fmap. case_decide as Hi.
  - by rewrite lookup_seq_lt by lia.
  - by rewrite lookup_seq_ge by lia.
Qed.

Lemma Leader_None cl lead :
  Leader cl lead = None <->
  ∃ i, i < n (mesh cl) ∧ Store.running (store cl) !! i = None ∧
    forall j, j < i -> ∃ x, Store.running (store cl) !! j = Some x ∧ lead x = false.
Proof.
  unfold Leader. rewrite Leader_panics. split.
  - intros (i & Hi & Hb). exists i. rewrite states_lookup in Hi. case_decide as Hn; [|done].
    split; [done|]. split; [by destruct (_ !! i)|]. intros j Hj. specialize (Hb j Hj).
    rewrite states_lookup, decide_True in Hb by lia. destruct (_ !! j) as [x|]; simplify_eq/=. eauto.
  - intros (i & Hn & Hi & Hb). exists i. rewrite states_lookup, decide_True, Hi by done.
    split; [done|]. intros j Hj. destruct (Hb j Hj) as (x & Hx & Hl).
    rewrite states_lookup, decide_True, Hx by lia. simpl. by rewrite Hl.
Qed.

Lemma make_partition_total cl lead :
  2 ≤ n (mesh cl) -> is_Some (Leader cl lead) ->
  ∃ p1 p2, make_partition cl lead = Some (p1, p2) ∧ operation_ok cl (Partition p1 p2).
Proof.
  intros Hn [[b l] Hl]. unfold make_partition, KvConfig.make_partition. unfold Leader in Hl.
  rewrite Hl. simpl. assert (Hlt : l < n (mesh cl)).
  { apply Leader_lt in Hl as [->|Hl]; [lia|]. unfold states in Hl.
    by rewrite length_fmap, length_seq in Hl. }
  destruct (split_servers_range _ l Hn Hlt) as (p1 & p2 & -> & L1 & L2 & F1 & F2).
  by exists p1, p2.
Qed.

(** C12: from a fresh configuration, after any sequence of operations on connections, clerks
    and servers with arguments in range, the tables of ends, servers and persisters are
    well-formed, and every further such operation, [LogSize], [SnapshotSize] and the (first)
    [cleanup] succeed.  [Leader] panics exactly when a server that is shut down comes before
    every server that says it leads; when it does not and there are at least two servers,
    [make_partition] succeeds too, and [partition] can be called with what it returns. *)
Theorem tests_never_panic N unreliable m namess :
  names_ok N namess ->
  ∃ cl0, make_config N unreliable m namess = Some cl0 ∧
    forall cl, rtc test_step cl0 cl ->
      cluster_ok cl ∧
      (forall o, operation_ok cl o -> is_Some (do_operation o cl)) ∧
      is_Some (LogSize cl) ∧ is_Some (SnapshotSize cl) ∧ is_Some (cleanup cl) ∧
      forall lead,
        (Leader cl lead = None <->
           ∃ i, i < N ∧ Store.running (store cl) !! i = None ∧
             forall j, j < i -> ∃ x, Store.running (store cl) !! j = Some x ∧ lead x = false) ∧
        (2 ≤ N -> is_Some (Leader cl lead) ->
           ∃ p1 p2, make_partition cl lead = Some (p1, p2) ∧ operation_ok cl (Partition p1 p2)).
Proof.
  intros Hok. destruct (make_config_in_test N unreliable m namess Hok) as (cl0 & Hm & Hcl).
  exists cl0. split; [done|]. intros cl Hr. clear Hm. assert (Hcl' : in_test N cl).
  { induction Hr as [cl|cl cl1 cl2 (o & Ho & Hd) _ IH]; [done|]. apply IH.
    destruct (operation_in_test N cl o Hcl Ho) as (cl' & Hd' & Hc'). congruence. }
  destruct (sizes_total N cl Hcl') as [HL HS]. pose proof (it_n _ _ Hcl') as Hn.
  split_and!; [apply Hcl'| |done|done| |].
  - intros o Ho. destruct (operation_in_test N cl o Hcl' Ho) as (cl' & -> & _). by eexists.
  - unfold cleanup, Cleanup. rewrite (it_open _ _ Hcl'). simpl. by eexists.
  - intros lead. rewrite <- Hn. split; [apply Leader_None|apply make_partition_total].
Qed.

(** ** Restarting a server *)

(** Several saves, by whatever instances. *)
Definition saves (ws : list (nat * (list byte * list byte))) (cl : cluster) : cluster :=
  with_store cl (foldl (λ st w, Store.save w.1 w.2 st) (store cl) ws).

Lemma saves_store ws (st : @Store.store nat _ _) :
  Store.store_ok st ->
  let st' := foldl (λ st w, Store.save w.1 w.2 st) st ws in
  Store.store_ok st' ∧ Store.running st' = Store.running st ∧
  Store.instances st' = Store.instances st ∧
  forall k, (forall w, w ∈ ws -> Store.running st !! k ≠ Some w.1) ->
    Store.content_of st' k = Store.content_of st k.
Proof.
  revert st. induction ws as [|[x c] ws IH]; intros st Hs; simpl; [done|].
  destruct (IH (Store.save x c st) (Store.save_ok x c st Hs)) as (H1 & H2 & H3 & H4).
  assert (Er : Store.running (Store.save x c st) = Store.running st).
  { unfold Store.save. by destruct (Store.instances st !! x). }
  assert (Ei : Store.instances (Store.save x c st) = Store.instances st).
  { unfold Store.save. by destruct (Store.instances st !! x). }
  split_and!; [done|congruence|congruence|]. intros k Hk. rewrite H4.
  - apply Store.save_isolated; [done|]. by apply (Hk (x, c)); left.
  - rewrite Er. intros w Hw. apply Hk. by right.
Qed.

Lemma saves_ok ws cl : cluster_ok cl -> cluster_ok (saves ws cl).
Proof.
  intros [H1 H2 H3 H4 H5]. destruct (saves_store ws (store cl) H3) as (S1 & S2 & S3 & _).
  split; simpl; [done..|by rewrite S3|]. intros i. by rewrite S2.
Qed.

Lemma closed_locate cfg s e :
  end_at cfg s = Some e -> is_open cfg s = false -> locate (net cfg) (inl e) = Replying failed_reply.
Proof.
  intros He Ho. unfold is_open in Ho. rewrite He in Ho. unfold locate, readEndnameInfo. simpl.
  by rewrite Ho.
Qed.

Lemma gone_locate cfg s e :
  slots_ok cfg -> end_at cfg s = Some e -> server_at (net cfg) (inr (target s)) = None ->
  locate (net cfg) (inl e) = Replying failed_reply.
Proof.
  intros Hs He Hg. destruct (sl_ends _ Hs s e He) as [_ Hc]. unfold locate, readEndnameInfo. simpl.
  rewrite Hc. simpl. rewrite Hg. by destruct (is_enabled _ _).
Qed.

Lemma open_locate cfg s e x :
  slots_ok cfg -> end_at cfg s = Some e -> is_open cfg s = true ->
  server_at (net cfg) (inr (target s)) = Some x ->
  locate (net cfg) (inl e) =
    Located (Target (inr (target s)) x (reliable (net cfg)) (longReordering (net cfg))).
Proof.
  intros Hs He Ho Hg. destruct (sl_ends _ Hs s e He) as [_ Hc]. unfold is_open in Ho.
  rewrite He in Ho. unfold locate, readEndnameInfo. simpl. rewrite Ho, Hc. simpl. by rewrite Hg.
Qed.

Lemma is_open_Some cfg s : is_open cfg s = true -> is_Some (end_at cfg s).
Proof. unfold is_open. by destruct (end_at cfg s). Qed.

(** Shutting a server down cuts it off: no request over an end to it is dispatched any more
    and none of its own is, while the ends between other servers and of clerks stay as they
    are; what its persister holds is kept, and no save of any instance, the old one included,
    changes it. *)
Theorem shutdown_isolates cl i :
  cluster_ok cl -> i < n (mesh cl) ->
  ∃ cl', ShutdownServer cl i = Some cl' ∧ cluster_ok cl' ∧
    (forall s e, end_at (mesh cl') s = Some e ->
       target s = i ∨ (∃ j, s = ServerEnd i j ∧ j < n (mesh cl)) ->
       locate (net (mesh cl')) (inl e) = Replying failed_reply) ∧
    (forall s, is_Some (end_at (mesh cl) s) -> s ∉ links i (All (mesh cl)) ->
       end_at (mesh cl') s = end_at (mesh cl) s ∧ is_open (mesh cl') s = is_open (mesh cl) s) ∧
    (forall j, j ≠ i -> server_at (net (mesh cl')) (inr j) = server_at (net (mesh cl)) (inr j)) ∧
    (forall j, Store.content_of (store cl') j = Store.content_of (store cl) j) ∧
    (forall ws, Store.content_of (store (saves ws cl')) i = Store.content_of (store cl) i).
Proof.
  intros Hc Hi. destruct (ShutdownServer_spec cl i Hc Hi) as (cl' & rn & Hsd & Hc' & Hm & Hst & Hopen).
  pose proof (Store.shutdown_running i (store cl)) as Hrun. rewrite <- Hst in Hrun.
  assert (Hct : forall j, Store.content_of (store cl') j = Store.content_of (store cl) j).
  { intros j. rewrite Hst. apply Store.shutdown_content, (cl_store _ Hc). }
  assert (Hend : forall s, end_at (mesh cl') s = end_at (mesh cl) s) by (intros; by rewrite Hm).
  exists cl'. split_and!; [done|done| | | |done|].
  - intros s e He [Ht|(j & -> & Hj)].
    + apply (gone_locate _ s); [apply Hc'|done|]. rewrite (cl_servers _ Hc'), Hrun, Ht.
      by rewrite lookup_delete_eq.
    + apply (closed_locate _ (ServerEnd i j)); [done|]. rewrite Hopen by (rewrite <- Hend; by eexists).
      rewrite decide_True; [done|]. apply elem_of_links. exists j. split; [|by left].
      unfold All. apply elem_of_seq. lia.
  - intros s Hs Hn. split; [by rewrite Hend|]. rewrite Hopen by done. by rewrite decide_False.
  - intros j Hj. rewrite (cl_servers _ Hc'), (cl_servers _ Hc), Hrun. by rewrite lookup_delete_ne.
  - intros ws. rewrite <- Hct. apply saves_store; [apply Hc'|]. intros w _. rewrite Hrun.
    by rewrite lookup_delete_eq.
Qed.

(** Starting a server (again) runs a new instance on what the slot's persister held, or on
    an empty persister the first time; no other instance can change it from then on.  The
    ends of the server are new and disabled, and every enabled end that leads to its number,
    such as those of clerks, reaches the new instance; the other servers, ends and persisters
    do not change. *)
Theorem start_resumes cl i names :
  cluster_ok cl -> i < n (mesh cl) -> fresh_row cl names ->
  ∃ cl', StartServer cl i names = Some cl' ∧ cluster_ok cl' ∧
    Store.content_of (store cl') i = Some (default ([], []) (Store.content_of (store cl) i)) ∧
    (forall ws, (forall w, w ∈ ws -> w.1 ≠ nservers cl) ->
       Store.content_of (store (saves ws cl')) i = Store.content_of (store cl') i) ∧
    (forall j e, end_at (mesh cl') (ServerEnd i j) = Some e ->
       locate (net (mesh cl')) (inl e) = Replying failed_reply) ∧
    (forall s, (forall j, s ≠ ServerEnd i j) ->
       end_at (mesh cl') s = end_at (mesh cl) s ∧ is_open (mesh cl') s = is_open (mesh cl) s) ∧
    (forall s e, target s = i -> (forall j, s ≠ ServerEnd i j) -> is_open (mesh cl) s = true ->
       end_at (mesh cl) s = Some e ->
       ∃ rel reo, locate (net (mesh cl')) (inl e) = Located (Target (inr i) (nservers cl) rel reo)) ∧
    (forall j, j ≠ i -> server_at (net (mesh cl')) (inr j) = server_at (net (mesh cl)) (inr j) ∧
       Store.content_of (store cl') j = Store.content_of (store cl) j).
Proof.
  intros Hc Hi [Hl Hf]. destruct (StartServer_ok cl i names Hc Hi Hl Hf) as (cl1 & Hcl1 & Hc1 & _).
  destruct (StartServer_spec cl i names (cl_slots _ Hc) (cl_store _ Hc) (cl_count _ Hc) Hi Hl Hf)
    as (cl' & st' & Hcl & Hst & <- & Hs' & Hst' & _ & Hn & _ & _ & He & _ & Hsv & Hnew & Hold).
  assert (cl1 = cl') as -> by congruence.
  destruct (Store.start_ok i names (store cl) (cl_store _ Hc)) as (st1 & p & Hst1 & _ & _ & _ & Hrun & _ & Hct).
  assert (st1 = store cl') as -> by congruence.
  exists cl'. split_and!; [done|done| | | | | |].
  - rewrite Hct. by rewrite decide_True.
  - intros ws Hws. apply saves_store; [done|]. intros w Hw. rewrite Hrun, lookup_insert_eq.
    rewrite <- (cl_count _ Hc). intros [= E]. by apply (Hws w Hw).
  - intros j e Hj. apply (closed_locate _ (ServerEnd i j)); [done|]. apply Hnew.
    simpl in Hj. rewrite He, ep_insert_eq in Hj by (by rewrite (sl_len _ (cl_slots _ Hc))).
    apply lookup_lt_Some in Hj. lia.
  - apply Hold.
  - intros s e Ht Hne Ho Hse. destruct (Hold s Hne) as [E1 E2].
    eexists _, _. rewrite <- Ht. apply open_locate; [done|congruence|congruence|].
    rewrite Hsv, Ht. by rewrite decide_True.
  - intros j Hj. split.
    + rewrite Hsv. by rewrite decide_False.
    + rewrite Hct. by rewrite decide_False.
Qed.


(** ** The ends of clerks *)

(** Is the end of clerk [ck] to server [j] enabled after the operation [o]?  [old] tells if it
    was before. *)
Definition clerk_end_after (o : operation) (ck j : nat) (old : bool) : bool :=
  match o with
  | MakeClient ck' _ ks => if decide (ck' = ck) then bool_decide (j ∈ ks) else old
  | ConnectClient ck' ks => if decide (ck' = ck ∧ j ∈ ks) then true else old
  | DisconnectClient ck' ks => if decide (ck' = ck ∧ j ∈ ks) then false else old
  | DeleteClient ck' => if decide (ck' = ck) then false else old
  | _ => old
  end.

Definition on_clerks (o : operation) : bool :=
  match o with
  | MakeClient _ _ _ | ConnectClient _ _ | DisconnectClient _ _ | DeleteClient _ => true
  | _ => false
  end.

Lemma on_mesh_rewired P f cl cl' :
  on_mesh f cl = Some cl' -> (∃ cfg', f (mesh cl) = Some cfg' ∧ rewired P (mesh cl) cfg') ->
  rewired P (mesh cl) (mesh cl').
Proof. unfold on_mesh. intros Ho (cfg' & Hf & Hw). rewrite Hf in Ho. by simplify_eq/=. Qed.

Lemma server_operation_clerks cl o cl' ck j :
  cluster_ok cl -> operation_ok cl o -> do_operation o cl = Some cl' -> on_clerks o = false ->
  is_open (mesh cl') (ClerkEnd ck j) = is_open (mesh cl) (ClerkEnd ck j).
Proof.
  intros Hc Ho Hd Hon. pose proof (cl_slots _ Hc) as Hs. pose proof (cl_rows _ Hc) as Hr.
  assert (Hw : rewired server_slot (mesh cl) (mesh cl') ->
    is_open (mesh cl') (ClerkEnd ck j) = is_open (mesh cl) (ClerkEnd ck j)).
  { intros (_ & _ & Hw). apply Hw. by intros []. }
  destruct o as [i ks|i ks| |p1 p2| | | | |i|i names|x c]; try done; simpl in Ho; cbn [do_operation] in Hd.
  - destruct Ho as (Hi & Hks & Hl). apply Hw, (on_mesh_rewired _ _ _ _ Hd). by apply connect_rewired.
  - destruct Ho as (Hi & Hks & Hl). apply Hw, (on_mesh_rewired _ _ _ _ Hd). by apply disconnect_rewired.
  - apply Hw, (on_mesh_rewired _ _ _ _ Hd). by apply ConnectAll_rewired.
  - destruct Ho as ((H1 & L1) & H2 & L2). apply Hw, (on_mesh_rewired _ _ _ _ Hd). by apply partition_rewired.
  - destruct (ShutdownServer_spec cl i Hc Ho) as (cl1 & rn & Hsd & _ & Hm & _ & Hopen).
    assert (cl1 = cl') as -> by congruence.
    destruct (end_at (mesh cl) (ClerkEnd ck j)) as [e|] eqn:He.
    + rewrite Hopen by (by rewrite He). rewrite decide_False; [done|]. by intros ?%links_server.
    + unfold is_open. rewrite He. rewrite Hm. simpl in *. by rewrite He.
  - destruct Ho as (Hi & Hl & Hf).
    destruct (StartServer_spec cl i names Hs (cl_store _ Hc) (cl_count _ Hc) Hi Hl Hf)
      as (cl1 & st' & Hcl & _ & _ & _ & _ & _ & _ & _ & _ & _ & _ & _ & _ & Hold).
    assert (cl1 = cl') as -> by congruence. by apply Hold.
  - by simplify_eq/=.
Qed.

(** The ends of clerks are changed by the operations on that clerk alone: a new clerk reaches
    exactly the servers it was given, connecting or disconnecting it changes the ends named,
    and connecting, disconnecting, partitioning, shutting down and starting servers leaves them
    as they are; conversely no operation on clerks changes an end between servers. *)
Theorem clerk_ends_independent cl o cl' :
  cluster_ok cl -> operation_ok cl o -> do_operation o cl = Some cl' ->
  (forall ck j, j < n (mesh cl) ->
     is_Some (end_at (mesh cl) (ClerkEnd ck j)) ∨ (∃ names ks, o = MakeClient ck names ks) ->
     is_open (mesh cl') (ClerkEnd ck j) =
       clerk_end_after o ck j (is_open (mesh cl) (ClerkEnd ck j))) ∧
  (on_clerks o = true -> forall i j,
     is_open (mesh cl') (ServerEnd i j) = is_open (mesh cl) (ServerEnd i j)).
Proof.
  intros Hc Ho Hd. destruct (on_clerks o) eqn:Hon.
  2: { split; [|done]. intros ck j _ _. rewrite (server_operation_clerks cl o cl') by done. by destruct o. }
  pose proof (cl_slots _ Hc) as Hs.
  destruct o as [| | | |ck names ks|ck|ck ks|ck ks| | |]; try done; simpl in Ho; cbn [do_operation] in Hd.
  - destruct Ho as ((Hl & Hf) & Hck & Hks & _).
    destruct (makeClient_slots (mesh cl) ck names ks Hs Hl Hf Hks)
      as (cfg' & Hm & _ & _ & He & _ & Hnew & Hold).
    unfold on_mesh in Hd. rewrite Hm in Hd. simplify_eq/=. split.
    + intros ck' j Hj Hsm. case_decide as E; [subst; by apply Hnew|].
      destruct Hsm as [Hsm|(? & ? & [= <- _ _])]; [|done]. apply Hold; [congruence|done].
    + intros _ i j. destruct (end_at (mesh cl) (ServerEnd i j)) as [e|] eqn:Ee.
      * apply Hold; [done|by rewrite Ee].
      * unfold is_open. rewrite Ee. simpl in *. by rewrite He, Ee.
  - simplify_eq/=. split; [|done]. intros ck' j _ _. unfold is_open. simpl. case_decide as E.
    + subst. by rewrite lookup_delete_eq.
    + by rewrite lookup_delete_ne.
  - destruct Ho as (Hck & Hks & _).
    destruct (ConnectClient_slots (mesh cl) ck ks Hs Hck Hks) as (cfg' & Hm & Hw & Hopen).
    unfold on_mesh in Hd. rewrite Hm in Hd. simplify_eq/=. split.
    + intros ck' j _ [Hsm|(? & ? & ?)]; [|done]. rewrite Hopen by done.
      apply decide_ext, elem_of_clerk_ends.
    + intros _ i j. apply Hw. by intros [].
  - destruct Ho as (Hck & Hks & _).
    destruct (DisconnectClient_slots (mesh cl) ck ks Hs Hck Hks) as (cfg' & Hm & Hw & Hopen).
    unfold on_mesh in Hd. rewrite Hm in Hd. simplify_eq/=. split.
    + intros ck' j _ [Hsm|(? & ? & ?)]; [|done]. rewrite Hopen by done.
      apply decide_ext, elem_of_clerk_ends.
    + intros _ i j. apply Hw. by intros [].
Qed.

(** ** A test with three servers *)
Module ClusterDemo.

Definition names : list (list string) :=
  [["aa"; "ab"; "ac"]; ["ba"; "bb"; "bc"]; ["ca"; "cb"; "cc"]].
Definition cl0 : cluster := default (empty_cluster 3 1000) (make_config 3 true 1000 names).
Definition client : operation := MakeClient 7 ["ka"; "kb"; "kc"] [1].
Definition cl1 : cluster := default cl0 (do_operation client cl0).

Lemma demo_names_ok : names_ok 3 names.
Proof.
  split; [done|]. split; [repeat constructor|]. apply (bool_decide_unpack _). by vm_compute.
Qed.

Lemma cl0_ok : cluster_ok cl0 ∧ n (mesh cl0) = 3.
Proof.
  destruct (make_config_ok 3 true 1000 names demo_names_ok) as (cl & Hm & Hc & Hn & _).
  unfold cl0. rewrite Hm. exact (conj Hc Hn).
Qed.

Lemma demo_fresh l :
  bool_decide (NoDup l) = true -> forallb (λ e, negb (bool_decide (inl e ∈ ends (net (mesh cl0))))) l = true ->
  length l = 3 -> fresh_row cl0 l.
Proof.
  intros Hnd%bool_decide_eq_true Hf Hl. split; [by rewrite (proj2 cl0_ok)|]. split; [done|].
  intros e He. rewrite forallb_forall in Hf. specialize (Hf e ltac:(by apply list_elem_of_In)).
  by apply negb_true_iff, bool_decide_eq_false in Hf.
Qed.

Lemma client_ok : operation_ok cl0 client.
Proof.
  split; [by apply demo_fresh; vm_compute|]. split; [by vm_compute|].
  unfold in_range. rewrite (proj2 cl0_ok). split; [repeat constructor|simpl; lia].
Qed.

End ClusterDemo.
Import ClusterDemo.

Lemma make_config_correct_witness :
  ∃ cl, make_config 3 true 1000 names = Some cl ∧ LogSize cl = Some 0.
Proof.
  destruct (make_config_correct 3 true 1000 names demo_names_ok) as (cl & Hm & _ & _ & _ & _ & Hl & _).
  exists cl. split; [exact Hm|exact Hl].
Defined.

Lemma tests_never_panic_witness :
  ∃ cl, make_config 3 true 1000 names = Some cl ∧ is_Some (do_operation client cl).
Proof.
  destruct (tests_never_panic 3 true 1000 names demo_names_ok) as (cl & Hm & Hall).
  exists cl. split; [exact Hm|]. destruct (Hall cl ltac:(apply rtc_refl)) as (_ & Ho & _).
  apply Ho. assert (cl = cl0) as -> by (unfold cl0; rewrite Hm; reflexivity). exact client_ok.
Defined.

Lemma shutdown_isolates_witness :
  ∃ cl', ShutdownServer cl0 1 = Some cl' ∧ forall j, Store.content_of (store cl') j = Store.content_of (store cl0) j.
Proof.
  destruct (shutdown_isolates cl0 1 (proj1 cl0_ok)) as (cl' & Hs & _ & _ & _ & _ & Hc & _).
  - rewrite (proj2 cl0_ok). lia.
  - exists cl'. split; [exact Hs|exact Hc].
Defined.

Lemma start_resumes_witness :
  ∃ cl', StartServer cl0 1 ["na"; "nb"; "nc"] = Some cl' ∧
    Store.content_of (store cl') 1 = Some (default ([], []) (Store.content_of (store cl0) 1)).
Proof.
  destruct (start_resumes cl0 1 ["na"; "nb"; "nc"] (proj1 cl0_ok)) as (cl' & Hs & _ & Hc & _).
  - rewrite (proj2 cl0_ok). lia.
  - apply demo_fresh; vm_compute; reflexivity.
  - exists cl'. split; [exact Hs|exact Hc].
Defined.

Lemma clerk_ends_independent_witness :
  is_open (mesh cl1) (ClerkEnd 7 1) = true ∧ is_open (mesh cl1) (ClerkEnd 7 2) = false.
Proof.
  destruct (clerk_ends_independent cl0 client cl1 (proj1 cl0_ok) client_ok) as [H _].
  - vm_compute. reflexivity.
  - split; (etrans; [apply H|reflexivity]); try (rewrite (proj2 cl0_ok); lia);
      right; do 2 eexists; reflexivity.
Defined.
