(* ===== verification/ShardctrlerConfig.v ===== *)
(** * [shardctrler/config.go]: the test harness of the shard controller

    The file repeats [kvraft/config.go] with other types: the same connections, clerks,
    shutdowns and starts.  Its [Leader], however, skips servers that are not running, so that
    a partition can be made while servers are down. *)
From S2P Require Import Prelude Labrpc Mesh KvConfig Store KvServers KvServersProof.
Import Labrpc KvConfig Slots KvServers Operations.

Module Ctrler.

(** The servers are started without a [maxraftstate]. *)
Definition config := KvServers.cluster.

Definition random_handles {A} (kvh : list A) (js : list nat) : list A := KvConfig.random_handles kvh js.

Definition connect (i : nat) (to : list nat) : config -> option config :=
  on_mesh (λ cfg, connectUnlocked cfg i to).
Definition disconnect (i : nat) (from : list nat) : config -> option config :=
  on_mesh (λ cfg, disconnectUnlocked cfg i from).
Definition All (cfg : config) : list nat := seq 0 (n (mesh cfg)).
Definition ConnectAll : config -> option config := on_mesh KvConfig.ConnectAll.
Definition partition (p1 p2 : list nat) : config -> option config :=
  on_mesh (λ cfg, KvConfig.partition cfg p1 p2).

Definition makeClient (ck : nat) (names : list string) (to : list nat) : config -> option config :=
  on_mesh (λ cfg, KvConfig.makeClient cfg ck names to).
Definition deleteClient (ck : nat) (cfg : config) : config :=
  with_mesh cfg (KvConfig.deleteClient (mesh cfg) ck).
Definition ConnectClient (ck : nat) (to : list nat) : config -> option config :=
  on_mesh (λ cfg, ConnectClientUnlocked cfg ck to).
Definition DisconnectClient (ck : nat) (from : list nat) : config -> option config :=
  on_mesh (λ cfg, DisconnectClientUnlocked cfg ck from).

Definition ShutdownServer : config -> nat -> option config := KvServers.ShutdownServer.
Definition StartServer : config -> nat -> list string -> option config := KvServers.StartServer.
Definition cleanup : config -> option config := KvServers.cleanup.
Definition LogSize : config -> option nat := KvServers.LogSize.

Definition make_config (n : nat) (unreliable : bool) (namess : list (list string)) : option config :=
  cl ← start_all (empty_cluster n 0) 0 namess;
  cl' ← ConnectAll cl;
  Some (with_mesh cl' (KvConfig.set_net (mesh cl') (Reliable (negb unreliable) (KvConfig.net (mesh cl'))))).

(** What [GetState] says of the servers that run; [lead] is the answer of an instance. *)
Definition states : config -> (nat -> bool) -> list (option bool) := KvServers.states.

Definition Leader (cfg : config) (lead : nat -> bool) : option (bool * nat) :=
  ctrler_Leader (states cfg lead) 0.

Definition make_partition (cfg : config) (lead : nat -> bool) : option (list nat * list nat) :=
  ctrler_make_partition (n (mesh cfg)) (states cfg lead).

(** The two configurations are made in the same way. *)
Lemma make_config_same N unreliable namess :
  make_config N unreliable namess = KvServers.make_config N unreliable 0 namess.
Proof.
  unfold make_config, KvServers.make_config, ConnectAll, on_mesh.
  destruct (start_all _ _ _) as [cl|]; [|done]. simpl. by destruct (KvConfig.ConnectAll _).
Qed.

End Ctrler.

Lemma connected_locate cl i j e :
  cluster_ok cl -> end_at (mesh cl) (ServerEnd i j) = Some e ->
  locate (KvConfig.net (mesh cl)) (inl e) =
    match Store.running (store cl) !! j with
    | Some x =>
        if is_open (mesh cl) (ServerEnd i j) then
          Located (Target (inr j) x (reliable (KvConfig.net (mesh cl)))
            (longReordering (KvConfig.net (mesh cl))))
        else Replying failed_reply
    | None => Replying failed_reply
    end.
Proof.
  intros Hc He. pose proof (cl_servers _ Hc j) as Hs.
  destruct (Store.running (store cl) !! j) as [x|].
  - destruct (is_open (mesh cl) (ServerEnd i j)) eqn:Ho.
    + by apply (open_locate _ (ServerEnd i j)); [apply Hc|..].
    + by apply (closed_locate _ (ServerEnd i j)).
  - by apply (gone_locate _ (ServerEnd i j)); [apply Hc|..].
Qed.

Lemma reachable_ok N unreliable m namess cl0 cl :
  names_ok N namess -> make_config N unreliable m namess = Some cl0 -> rtc test_step cl0 cl ->
  cluster_ok cl ∧ n (mesh cl) = N.
Proof.
  intros Hok Hm Hr. destruct (make_config_ok N unreliable m namess Hok) as (cl1 & Hm' & Hc & Hn & _).
  assert (cl1 = cl0) as -> by congruence. clear Hm Hm'.
  induction Hr as [cl|cl cl1 cl2 (o & Ho & Hd) _ IH]; [done|].
  destruct (operation_preserves cl o Hc Ho) as (cl' & Hd' & Hc' & Hn').
  assert (cl' = cl1) as -> by congruence. apply IH; [congruence|done].
Qed.

(** In any configuration that a test can reach with an odd number of servers, at least three,
    whichever of them are down, [make_partition] and [partition] succeed and put the first
    server that says it leads in the minority: from then on a server reaches exactly the
    running servers of its own side. *)
Theorem leader_in_minority m unreliable namess cl0 cl lead :
  0 < m -> names_ok (2 * m + 1) namess ->
  Ctrler.make_config (2 * m + 1) unreliable namess = Some cl0 -> rtc test_step cl0 cl ->
  ∃ p1 p2 cl', Ctrler.make_partition cl lead = Some (p1, p2) ∧
    Ctrler.partition p1 p2 cl = Some cl' ∧ cluster_ok cl' ∧
    length p1 = m + 1 ∧ length p2 = m ∧ p1 ++ p2 ≡ₚ seq 0 (2 * m + 1) ∧
    (forall k, Ctrler.states cl lead !! k = Some (Some true) ->
       (forall k', k' < k -> Ctrler.states cl lead !! k' ≠ Some (Some true)) -> k ∈ p2) ∧
    forall i j e, i < 2 * m + 1 -> j < 2 * m + 1 -> end_at (mesh cl') (ServerEnd i j) = Some e ->
      locate (KvConfig.net (mesh cl')) (inl e) =
        match Store.running (store cl) !! j with
        | Some x =>
            if bool_decide ((i ∈ p1 ∧ j ∈ p1) ∨ (i ∈ p2 ∧ j ∈ p2)) then
              Located (Target (inr j) x (reliable (KvConfig.net (mesh cl')))
                (longReordering (KvConfig.net (mesh cl'))))
            else Replying failed_reply
        | None => Replying failed_reply
        end.
Proof.
  intros Hm Hok Hmk Hr. rewrite Ctrler.make_config_same in Hmk.
  destruct (reachable_ok _ _ _ _ _ _ Hok Hmk Hr) as [Hc Hn].
  destruct (ctrler_Leader_first (Ctrler.states cl lead)) as (b & l & Hl & Hfirst).
  assert (Hlt : l < 2 * m + 1).
  { apply (first_leader_lt _ _ _ Hfirst); [|lia]. unfold Ctrler.states, KvServers.states. by rewrite length_fmap, length_seq. }
  destruct (split_servers_odd m l Hm Hlt) as (p1 & p2 & Hp & H1 & H2 & Hperm & Hlast).
  pose proof (slots_all_started _ (cl_slots _ Hc) (cl_rows _ Hc)) as Hall.
  assert (Hperm' : p1 ++ p2 ≡ₚ seq 0 (n (mesh cl))) by (by rewrite Hn).
  destruct (partition_links (mesh cl) p1 p2 Hall Hperm') as (cfg' & Hpt & Hlinks).
  assert (Hin : forall x, x ∈ p1 ++ p2 -> x < n (mesh cl)).
  { intros x Hx. rewrite Hperm', elem_of_seq in Hx. lia. }
  destruct (partition_rewired (mesh cl) p1 p2 (cl_slots _ Hc) (cl_rows _ Hc)) as (cfg1 & Hpt1 & Hw).
  1,3: apply Forall_forall; intros x Hx; apply Hin, elem_of_app; auto.
  1,2: lia.
  assert (cfg1 = cfg') as -> by congruence.
  pose proof (rewired_ok _ _ _ Hc Hw) as Hc'.
  exists p1, p2, (with_mesh cl cfg'). split_and!; try done.
  - unfold Ctrler.make_partition, ctrler_make_partition. rewrite Hl, Hn. done.
  - unfold Ctrler.partition, on_mesh. by rewrite Hpt.
  - intros k Hk Hmin. assert (k = l) as ->.
    { destruct Hfirst as [[Hlt' Hno]|[_ Hno]]; [|by destruct (Hno k)].
      destruct (Nat.lt_trichotomy k l) as [?|[?|?]]; [|done|].
      - by destruct (Hno k).
      - by destruct (Hmin l). }
    apply list_elem_of_lookup. rewrite last_lookup in Hlast. eauto.
  - intros i j e Hi Hj He. rewrite (connected_locate _ i j e Hc' He). cbn [store with_mesh].
    destruct (Store.running (store cl) !! j); [|done].
    rewrite <- (Hlinks i j) by (by rewrite Hn). done.
Qed.

(** Server 0 is down, server 1 leads. *)
Definition sc0 : cluster := default (empty_cluster 3 0) (Ctrler.make_config 3 false ClusterDemo.names).
Definition sc1 : cluster := default sc0 (Ctrler.ShutdownServer sc0 0).

Lemma leader_in_minority_witness :
  ∃ p1 p2, Ctrler.make_partition sc1 (Nat.eqb 1) = Some (p1, p2) ∧ length p1 = 2 ∧ 1 ∈ p2.
Proof.
  destruct (leader_in_minority 1 false ClusterDemo.names sc0 sc1 (Nat.eqb 1))
    as (p1 & p2 & cl' & Hp & _ & _ & H1 & _ & _ & Hk & _).
  - lia.
  - exact ClusterDemo.demo_names_ok.
  - vm_compute. reflexivity.
  - apply rtc_once. exists (Shutdown 0). split; [vm_compute; lia|vm_compute; reflexivity].
  - exists p1, p2. split; [exact Hp|]. split; [exact H1|]. apply Hk.
    + vm_compute. reflexivity.
    + intros [|k'] Hk'; [vm_compute; discriminate|lia].
Defined.
