(* ===== verification/KvsrvConfig.v ===== *)
(** * [kvsrv/config.go]: the test harness of the key/value server without replication

    One server, and clerks with one end each.  Here a deleted clerk's end is deleted from the
    network, so that the network has no other ends than those of the clerks. *)
From S2P Require Import Prelude Labrpc Mesh.
Import Labrpc.

Module Kvsrv.

Definition SERVERID : nat := 0.

Record config := Config {
  net : network;
  clerks : gmap nat string;
  nextClientId : Z
}.

Definition set_net (cfg : config) (rn : network) : config :=
  Config rn (clerks cfg) (nextClientId cfg).

(** The name of the end of [ck]; a missing key reads as the empty string. *)
Definition clerk_end (cfg : config) (ck : nat) : string := default "" (clerks cfg !! ck).

Definition ConnectClientUnlocked (cfg : config) (ck : nat) : config :=
  set_net cfg (Enable (inl (clerk_end cfg ck)) true (net cfg)).

Definition ConnectClient (cfg : config) (ck : nat) : config := ConnectClientUnlocked cfg ck.

(** [endname] is the random string, [ck] the new clerk; [None] is [log.Fatalf]. *)
Definition makeClient (cfg : config) (ck : nat) (endname : string) : option config :=
  rn ← MakeEnd (inl endname) (net cfg);
  Some (ConnectClientUnlocked
    (Config (Connect (inl endname) (inr SERVERID) rn) (<[ck := endname]> (clerks cfg))
      (nextClientId cfg + 1)) ck).

Definition deleteClient (cfg : config) (ck : nat) : option config :=
  rn ← DeleteEnd (inl (clerk_end cfg ck)) (net cfg);
  Some (Config rn (delete ck (clerks cfg)) (nextClientId cfg)).

(** [srv] is the new server object. *)
Definition StartServer (cfg : config) (srv : nat) : config :=
  set_net cfg (AddServer (inr 0) srv (net cfg)).

Definition make_config (unreliable : bool) (srv : nat) : config :=
  let cfg := StartServer (Config MakeNetwork ∅ (Z.of_nat SERVERID + 1)) srv in
  set_net cfg (Reliable (negb unreliable) (net cfg)).

Definition cleanup (cfg : config) : option config :=
  rn ← Cleanup (net cfg); Some (set_net cfg rn).

(** ** The operations of a test *)
Inductive operation := MakeClient (ck : nat) (endname : string) | DeleteClient (ck : nat) | Connect1 (ck : nat).

Definition do_operation (o : operation) (cfg : config) : option config :=
  match o with
  | MakeClient ck e => makeClient cfg ck e
  | DeleteClient ck => deleteClient cfg ck
  | Connect1 ck => Some (ConnectClient cfg ck)
  end.

(** New clerks and their random names are fresh; the other operations are on clerks that
    exist. *)
Definition operation_ok (cfg : config) (o : operation) : Prop :=
  match o with
  | MakeClient ck e => clerks cfg !! ck = None ∧ inl e ∉ ends (net cfg)
  | DeleteClient ck | Connect1 ck => is_Some (clerks cfg !! ck)
  end.

Definition test_step (cfg cfg' : config) : Prop :=
  ∃ o, operation_ok cfg o ∧ do_operation o cfg = Some cfg'.

(** ** Invariant *)
Record config_ok (unreliable : bool) (srv : nat) (cfg : config) : Prop := {
  k_unique : forall ck ck' e, clerks cfg !! ck = Some e -> clerks cfg !! ck' = Some e -> ck = ck';
  k_ends : forall e, inl e ∈ ends (net cfg) <-> ∃ ck, clerks cfg !! ck = Some e;
  k_clerks : forall ck e, clerks cfg !! ck = Some e ->
    is_enabled (net cfg) (inl e) = true ∧ connections (net cfg) !! inl e = Some (Some (inr SERVERID));
  k_gone : forall e, inl e ∉ ends (net cfg) -> is_enabled (net cfg) (inl e) = false;
  k_server : server_at (net cfg) (inr SERVERID) = Some srv;
  k_reliable : reliable (net cfg) = negb unreliable
}.

Lemma kvsrv_make_config_ok unreliable srv : config_ok unreliable srv (make_config unreliable srv).
Proof.
  split; simpl; try done.
  - intros e. split; [done|]. intros [ck Hck]. by rewrite lookup_empty in Hck.
Qed.

Lemma enable_known cfg ck e unreliable srv :
  config_ok unreliable srv cfg -> clerks cfg !! ck = Some e ->
  config_ok unreliable srv (ConnectClientUnlocked cfg ck).
Proof.
  intros [H1 H2 H3 H4 H5 H6] Hck. unfold ConnectClientUnlocked, clerk_end. rewrite Hck. simpl.
  split; simpl; try done.
  - intros ck' e' Hck'. split; [|by apply (H3 ck')]. unfold is_enabled. simpl.
    destruct (decide (e = e')) as [<-|Hne]; [by rewrite lookup_insert_eq|].
    rewrite lookup_insert_ne by congruence. by apply (H3 ck').
  - intros e' He'. unfold is_enabled. simpl. rewrite lookup_insert_ne; [by apply H4|].
    intros [= ->]. apply He', H2. eauto.
Qed.

Lemma kvsrv_makeClient_ok unreliable srv cfg ck e :
  config_ok unreliable srv cfg -> clerks cfg !! ck = None -> inl e ∉ ends (net cfg) ->
  ∃ cfg', makeClient cfg ck e = Some cfg' ∧ config_ok unreliable srv cfg' ∧
    clerks cfg' = <[ck := e]> (clerks cfg).
Proof.
  intros [H1 H2 H3 H4 H5 H6] Hck He. unfold makeClient, MakeEnd. rewrite decide_False by done. simpl.
  eexists. split; [done|].
  assert (Hne : forall ck' e', clerks cfg !! ck' = Some e' -> e' ≠ e).
  { intros ck' e' Hck' ->. apply He, H2. eauto. }
  unfold ConnectClientUnlocked, clerk_end. cbn [clerks]. rewrite lookup_insert_eq. cbn [default].
  split; [|done]. split; simpl.
  - intros c1 c2 e' [[<- <-]|[_ E1]]%lookup_insert_Some [[<- E2]|[_ E2]]%lookup_insert_Some; try done.
    + by apply Hne in E2.
    + subst. by apply Hne in E1.
    + by apply (H1 c1 c2 e').
  - intros e'. rewrite elem_of_union, elem_of_singleton. split.
    + intros [[= ->]|[ck' Hck']%H2]; [exists ck; by rewrite lookup_insert_eq|].
      exists ck'. rewrite lookup_insert_ne; [done|]. intros ->. congruence.
    + intros [ck' [[_ <-]|[_ Hck']]%lookup_insert_Some]; [by left|]. right. apply H2. eauto.
  - intros ck' e'. unfold is_enabled. simpl. intros [[_ <-]|[_ Hck']]%lookup_insert_Some.
    + by rewrite !lookup_insert_eq.
    + assert (e' ≠ e) by by eapply Hne. rewrite !lookup_insert_ne by congruence. by apply (H3 ck').
  - intros e'. rewrite elem_of_union, elem_of_singleton. intros Hn. unfold is_enabled. simpl.
    rewrite !lookup_insert_ne by (intros [= ->]; by auto). apply H4. auto.
  - done.
  - done.
Qed.

Lemma kvsrv_deleteClient_ok unreliable srv cfg ck e :
  config_ok unreliable srv cfg -> clerks cfg !! ck = Some e ->
  ∃ cfg', deleteClient cfg ck = Some cfg' ∧ config_ok unreliable srv cfg' ∧
    clerks cfg' = delete ck (clerks cfg).
Proof.
  intros [H1 H2 H3 H4 H5 H6] Hck. unfold deleteClient, DeleteEnd, clerk_end. rewrite Hck.
  cbn [default]. assert (Hin : inl e ∈ ends (net cfg)) by (apply H2; eauto).
  rewrite decide_True by done. simpl. eexists. split; [done|]. split; [|done].
  split; simpl; try done.
  - intros c1 c2 e' [_ E1]%lookup_delete_Some [_ E2]%lookup_delete_Some. by apply (H1 c1 c2 e').
  - intros e'. rewrite elem_of_difference, elem_of_singleton, H2. split.
    + intros [[ck' Hck'] Hne]. exists ck'. rewrite lookup_delete_ne; [done|]. intros <-. congruence.
    + intros [ck' [Hne Hck']%lookup_delete_Some]. split; [by exists ck'|].
      intros [= ->]. apply Hne. by apply (H1 ck ck' e).
  - intros ck' e' [Hne Hck']%lookup_delete_Some. unfold is_enabled. simpl.
    assert (e' ≠ e) by (intros ->; apply Hne; by apply (H1 ck ck' e)).
    rewrite !lookup_delete_ne by congruence. by apply (H3 ck').
  - intros e' He'. unfold is_enabled. simpl. destruct (decide (e = e')) as [<-|Hne].
    + by rewrite lookup_delete_eq.
    + rewrite lookup_delete_ne by congruence. apply H4. set_solver.
Qed.

Lemma kvsrv_operation_preserves unreliable srv cfg o :
  config_ok unreliable srv cfg -> operation_ok cfg o ->
  ∃ cfg', do_operation o cfg = Some cfg' ∧ config_ok unreliable srv cfg'.
Proof.
  intros Hc. destruct o as [ck e|ck|ck]; simpl.
  - intros [Hck He]. destruct (kvsrv_makeClient_ok unreliable srv cfg ck e Hc Hck He) as (? & ? & ? & _). eauto.
  - intros [e Hck]. destruct (kvsrv_deleteClient_ok unreliable srv cfg ck e Hc Hck) as (? & ? & ? & _). eauto.
  - intros [e Hck]. eexists. split; [done|]. by apply (enable_known cfg ck e).
Qed.

Lemma kvsrv_reachable_ok unreliable srv cfg :
  rtc test_step (make_config unreliable srv) cfg -> config_ok unreliable srv cfg.
Proof.
  intros Hr. pose proof (kvsrv_make_config_ok unreliable srv) as Hc.
  induction Hr as [cfg|cfg cfg1 cfg2 (o & Ho & Hd) _ IH]; [done|]. apply IH.
  destruct (kvsrv_operation_preserves unreliable srv cfg o Hc Ho) as (cfg' & Hd' & Hc'). congruence.
Qed.

End Kvsrv.
Import Kvsrv.

(** In every configuration a test can reach, the ends of the network are those of the clerks
    that exist, all different; a request of such a clerk is given to the server, and one
    over any other end, such as that of a deleted clerk, fails.  No operation on clerks that
    exist ends the process. *)
Theorem kvsrv_clerks unreliable srv cfg :
  rtc test_step (make_config unreliable srv) cfg ->
  (forall ck e, clerks cfg !! ck = Some e ->
     locate (net cfg) (inl e) =
       Located (Target (inr SERVERID) srv (negb unreliable) (longReordering (net cfg)))) ∧
  (forall e, (forall ck, clerks cfg !! ck ≠ Some e) ->
     (inl e ∉ ends (net cfg)) ∧ locate (net cfg) (inl e) = Replying failed_reply) ∧
  (forall ck ck' e, clerks cfg !! ck = Some e -> clerks cfg !! ck' = Some e -> ck = ck') ∧
  (forall o, operation_ok cfg o -> is_Some (do_operation o cfg)) ∧
  (forall ck e, clerks cfg !! ck = Some e -> ∃ cfg', deleteClient cfg ck = Some cfg' ∧
     locate (net cfg') (inl e) = Replying failed_reply).
Proof.
  intros Hr. pose proof (kvsrv_reachable_ok _ _ _ Hr) as Hc.
  assert (Hgone : forall cfg, config_ok unreliable srv cfg -> forall e,
    (forall ck, clerks cfg !! ck ≠ Some e) ->
    (inl e ∉ ends (net cfg)) ∧ locate (net cfg) (inl e) = Replying failed_reply).
  { intros cfg1 Hc1 e He. assert (Hn : inl e ∉ ends (net cfg1)).
    { rewrite (k_ends _ _ _ Hc1). intros [ck Hck]. by apply (He ck). }
    split; [done|]. unfold locate, readEndnameInfo. simpl. by rewrite (k_gone _ _ _ Hc1 e Hn). }
  split_and!.
  - intros ck e Hck. destruct (k_clerks _ _ _ Hc ck e Hck) as [He Hcn].
    unfold locate, readEndnameInfo. simpl. rewrite He, Hcn. simpl.
    by rewrite (k_server _ _ _ Hc), (k_reliable _ _ _ Hc).
  - by apply Hgone.
  - apply (k_unique _ _ _ Hc).
  - intros o Ho. destruct (kvsrv_operation_preserves unreliable srv cfg o Hc Ho) as (? & -> & _). by eexists.
  - intros ck e Hck. destruct (kvsrv_deleteClient_ok unreliable srv cfg ck e Hc Hck) as (cfg' & Hd & Hc' & Hcl).
    exists cfg'. split; [done|]. apply (Hgone cfg' Hc' e). intros ck'. rewrite Hcl.
    intros [Hne Hck']%lookup_delete_Some. apply Hne. by apply (k_unique _ _ _ Hc ck ck' e).
Qed.

Lemma kvsrv_clerks_witness :
  ∃ cfg, do_operation (MakeClient 4 "k") (make_config true 0) = Some cfg ∧
    locate (net cfg) (inl "k") = Located (Target (inr SERVERID) 0 false false).
Proof.
  eexists. split; [reflexivity|].
  apply (proj1 (kvsrv_clerks true 0 _ ltac:(apply rtc_once; exists (MakeClient 4 "k"); split;
    [split; [reflexivity|apply (bool_decide_unpack _); vm_compute; exact I]|reflexivity])) 4 "k").
  vm_compute. reflexivity.
Defined.
