(* ===== verification/ShardkvConfig.v ===== *)
(** * [shardkv/config.go]: the test harness of the sharded key/value service

    Three replicated groups of servers and a shard controller with three servers, on one
    network whose ends and servers have strings as names.  Ends are enabled as soon as they
    are made; a random string is [fresh k] for the next [k]. *)
From S2P Require Import Prelude Labrpc Store.
From Stdlib Require Import Strings.Byte.
From stdpp Require Import pretty.
Import Labrpc.

Module Shardkv.

Abbreviation network := (@Network string _ _).

Record group := MkGroup {
  gid : Z;
  endnames : list (option (list string));    (* by server; [nil] until it is started *)
  mendnames : list (option (list string))
}.

Record config := Config {
  net : network;
  nrand : nat;                               (* random strings used so far *)
  objects : nat;                             (* server objects made so far *)
  ctl : list string;                         (* [cfg.ctl.names] *)
  ngroups : nat;
  n : nat;
  groups : list group;
  store : @Store.store (nat * nat) _ _;      (* [saved] and [servers] of all groups *)
  clerks : gmap nat (list string);
  nextClientId : Z;
  maxraftstate : Z
}.

Definition set_net (cfg : config) (rn : network) : config :=
  Config rn (nrand cfg) (objects cfg) (ctl cfg) (ngroups cfg) (n cfg) (groups cfg) (store cfg)
    (clerks cfg) (nextClientId cfg) (maxraftstate cfg).

Definition use_rand (k : nat) (cfg : config) : config :=
  Config (net cfg) (nrand cfg + k) (objects cfg) (ctl cfg) (ngroups cfg) (n cfg) (groups cfg)
    (store cfg) (clerks cfg) (nextClientId cfg) (maxraftstate cfg).

Definition set_groups (gs : list group) (cfg : config) : config :=
  Config (net cfg) (nrand cfg) (objects cfg) (ctl cfg) (ngroups cfg) (n cfg) gs (store cfg)
    (clerks cfg) (nextClientId cfg) (maxraftstate cfg).

Definition set_store (st : @Store.store (nat * nat) _ _) (cfg : config) : config :=
  Config (net cfg) (nrand cfg) (objects cfg) (ctl cfg) (ngroups cfg) (n cfg) (groups cfg) st
    (clerks cfg) (nextClientId cfg) (maxraftstate cfg).

Definition set_clerks (cks : gmap nat (list string)) (id : Z) (cfg : config) : config :=
  Config (net cfg) (nrand cfg) (objects cfg) (ctl cfg) (ngroups cfg) (n cfg) (groups cfg)
    (store cfg) cks id (maxraftstate cfg).

Definition ctl_n (cfg : config) : nat := length (ctl cfg).

(** [MakeServer] and [AddServer] *)
Definition add_server (sn : string) (cfg : config) : config :=
  Config (AddServer sn (objects cfg) (net cfg)) (nrand cfg) (S (objects cfg)) (ctl cfg)
    (ngroups cfg) (n cfg) (groups cfg) (store cfg) (clerks cfg) (nextClientId cfg)
    (maxraftstate cfg).

(** [strconv.Itoa] *)
Definition Itoa (i : Z) : string := pretty i.

Definition servername (gid : Z) (i : nat) : string :=
  "server-" +:+ Itoa gid +:+ "-" +:+ Itoa (Z.of_nat i).

(** [MakeEnd], [Connect] and [Enable]; [None] is [log.Fatalf]. *)
Definition open_end (e srv : string) (rn : network) : option network :=
  rn' ← MakeEnd e rn; Some (Enable e true (Connect e srv rn')).

Fixpoint open_ends (es srvs : list string) (rn : network) : option network :=
  match es, srvs with
  | e :: es', srv :: srvs' => rn' ← open_end e srv rn; open_ends es' srvs' rn'
  | _, _ => Some rn
  end.

Definition disable_all (es : list string) (rn : network) : network :=
  foldl (λ rn e, Enable e false rn) rn es.

Section Random.
Context (fresh : nat -> string).

(** The next [k] random strings. *)
Definition randstrings (cfg : config) (k : nat) : list string := fresh <$> seq (nrand cfg) k.

(** Fresh ends to the servers [srvs], all enabled. *)
Definition fresh_ends (srvs : list string) (cfg : config) : option (list string * config) :=
  let es := randstrings cfg (length srvs) in
  rn ← open_ends es srvs (net cfg);
  Some (es, use_rand (length srvs) (set_net cfg rn)).

(** *** Servers of the groups *)

Definition StartServer (gi i : nat) (cfg : config) : option config :=
  gg ← groups cfg !! gi;
  if decide (i < length (endnames gg) ∧ i < length (mendnames gg) ∧ i < n cfg) then
    '(es, cfg) ← fresh_ends (servername (gid gg) <$> seq 0 (n cfg)) cfg;
    '(ms, cfg) ← fresh_ends (ctl cfg) cfg;
    let gg' := MkGroup (gid gg) (<[i := Some es]> (endnames gg)) (<[i := Some ms]> (mendnames gg)) in
    st ← Store.start (gi, i) es (store cfg);
    Some (add_server (servername (gid gg) i)
      (set_store st (set_groups (<[gi := gg']> (groups cfg)) cfg)))
  else None.

(** The [make_end] that [StartServer] and [MakeClerk] are given: a server or a clerk can make
    an end to any server. *)
Definition make_end (sn : string) (cfg : config) : option (string * config) :=
  '(es, cfg') ← fresh_ends [sn] cfg;
  e ← es !! 0;
  Some (e, cfg').

Definition ShutdownServer (gi i : nat) (cfg : config) : option config :=
  gg ← groups cfg !! gi;
  es ← mapM (λ j, row ← mjoin (endnames gg !! i); row !! j) (seq 0 (n cfg));
  mrow ← mendnames gg !! i;
  let rn := disable_all (default [] mrow) (disable_all es (net cfg)) in
  if decide (i < n cfg) then
    Some (set_store (Store.shutdown (gi, i) (store cfg))
      (set_net cfg (DeleteServer (servername (gid gg) i) rn)))
  else None.

(** A loop over the servers of a group, or over the groups. *)
Fixpoint for_each (f : nat -> config -> option config) (ks : list nat) (cfg : config) :
    option config :=
  match ks with
  | [] => Some cfg
  | k :: ks' => cfg' ← f k cfg; for_each f ks' cfg'
  end.

Definition ShutdownGroup (gi : nat) (cfg : config) : option config :=
  for_each (ShutdownServer gi) (seq 0 (n cfg)) cfg.

Definition StartGroup (gi : nat) (cfg : config) : option config :=
  for_each (StartServer gi) (seq 0 (n cfg)) cfg.

(** *** The shard controller *)

Definition StartCtrlerServer (i : nat) (cfg : config) : option config :=
  '(_, cfg) ← fresh_ends (ctl cfg) cfg;
  sn ← ctl cfg !! i;
  Some (add_server sn cfg).

Definition ctrlerclerk (cfg : config) : option (list string * config) := fresh_ends (ctl cfg) cfg.

Definition set_ctl (names : list string) (cfg : config) : config :=
  Config (net cfg) (nrand cfg) (objects cfg) names (ngroups cfg) (n cfg) (groups cfg) (store cfg)
    (clerks cfg) (nextClientId cfg) (maxraftstate cfg).

Definition StartCtrlerService (cfg : config) : option config :=
  let names := (λ s, "ctlr-" +:+ s) <$> randstrings cfg 3 in
  cfg ← for_each StartCtrlerServer (seq 0 3) (use_rand 3 (set_ctl names cfg));
  '(_, cfg) ← ctrlerclerk cfg;
  Some cfg.

(** The argument of [ctl.ck.Join]. *)
Definition joinm (gis : list nat) (cfg : config) : option (gmap Z (list string)) :=
  gs ← mapM (λ gi, groups cfg !! gi) gis;
  Some (foldl (λ m gg, <[gid gg := servername (gid gg) <$> seq 0 (n cfg)]> m) ∅ gs).

(** The argument of [ctl.ck.Leave]. *)
Definition leavem (gis : list nat) (cfg : config) : option (list Z) :=
  mapM (λ gi, gg ← groups cfg !! gi; Some (gid gg)) gis.

(** *** Clerks *)

(** [endnames] has [cfg.n] elements and is indexed up to [ctl.n]. *)
Definition makeClient (ck : nat) (cfg : config) : option config :=
  if decide (ctl_n cfg ≤ n cfg) then
    '(es, cfg) ← fresh_ends (ctl cfg) cfg;
    let row := es ++ replicate (n cfg - length es) "" in
    Some (set_clerks (<[ck := row]> (clerks cfg)) (nextClientId cfg + 1) cfg)
  else None.

Definition deleteClient (ck : nat) (cfg : config) : config :=
  set_clerks (delete ck (clerks cfg)) (nextClientId cfg) cfg.

(** *** The whole configuration *)

(** One iteration of the loop of [make_config] over the groups; [mendnames] is made with
    [ctl.n] elements. *)
Definition add_group (gi : nat) (cfg : config) : option config :=
  let gg := MkGroup (100 + Z.of_nat gi) (replicate (n cfg) None) (replicate (ctl_n cfg) None) in
  StartGroup gi (set_groups (groups cfg ++ [gg]) cfg).

Definition empty_config (maxraftstate : Z) : config :=
  Config MakeNetwork 0 0 [] 0 0 [] Store.empty_store ∅ 0 maxraftstate.

Definition set_size (k : nat) (cfg : config) : config :=
  Config (net cfg) (nrand cfg) (objects cfg) (ctl cfg) 3 k (groups cfg) (store cfg)
    (clerks cfg) (nextClientId cfg) (maxraftstate cfg).

Definition make_config (k : nat) (unreliable : bool) (maxraftstate : Z) : option config :=
  cfg ← StartCtrlerService (empty_config maxraftstate);
  cfg ← for_each add_group (seq 0 3) (set_size k cfg);
  Some (set_net (set_clerks ∅ (Z.of_nat (n cfg) + 1000) cfg)
    (Reliable (negb unreliable) (net cfg))).

End Random.

Definition cleanup (cfg : config) : option config :=
  cfg ← for_each ShutdownGroup (seq 0 (ngroups cfg)) cfg;
  rn ← Cleanup (net cfg);
  Some (set_net cfg rn).

(** [checklogs]: [Some false] is [t.Fatalf], [None] a [nil] persister. *)
Definition log_ok (cfg : config) (gi i : nat) : option bool :=
  c ← Store.content_of (store cfg) (gi, i);
  let raft := Z.of_nat (length c.1) in
  let snap := Z.of_nat (length c.2) in
  if decide (0 ≤ maxraftstate cfg ∧ signed 64 (8 * maxraftstate cfg) < raft)%Z then Some false
  else if decide (maxraftstate cfg < 0 ∧ 0 < snap)%Z then Some false
  else Some true.

Fixpoint checks (ks : list (nat * nat)) (cfg : config) : option bool :=
  match ks with
  | [] => Some true
  | (gi, i) :: ks' => b ← log_ok cfg gi i; if (b : bool) then checks ks' cfg else Some false
  end.

Definition checklogs (cfg : config) : option bool :=
  checks (gi ← seq 0 (ngroups cfg); (λ i, (gi, i)) <$> seq 0 (n cfg)) cfg.

End Shardkv.

(** ** The operations of a test, of its servers and of its clerks *)
Module ShardkvOps.
Import Shardkv.

Inductive operation :=
| Start (gi i : nat)
| Shutdown (gi i : nat)
| StartAll (gi : nat)                        (* [StartGroup] *)
| ShutdownAll (gi : nat)                     (* [ShutdownGroup] *)
| MakeClient (ck : nat)
| DeleteClient (ck : nat)
| MakeEnd (sn : string)                      (* a server or a clerk calls [make_end] *)
| Saves (x : nat) (c : list byte * list byte).

Definition do_operation (fresh : nat -> string) (o : operation) (cfg : config) : option config :=
  match o with
  | Start gi i => StartServer fresh gi i cfg
  | Shutdown gi i => ShutdownServer gi i cfg
  | StartAll gi => StartGroup fresh gi cfg
  | ShutdownAll gi => ShutdownGroup gi cfg
  | MakeClient ck => makeClient fresh ck cfg
  | DeleteClient ck => Some (deleteClient ck cfg)
  | MakeEnd sn => '(_, cfg') ← make_end fresh sn cfg; Some cfg'
  | Saves x c => Some (set_store (Store.save x c (store cfg)) cfg)
  end.

(** Arguments in range, and a new clerk is new. *)
Definition operation_ok (cfg : config) (o : operation) : Prop :=
  match o with
  | Start gi i | Shutdown gi i => gi < ngroups cfg ∧ i < n cfg
  | StartAll gi | ShutdownAll gi => gi < ngroups cfg
  | MakeClient ck => clerks cfg !! ck = None
  | DeleteClient _ | MakeEnd _ | Saves _ _ => True
  end.

Definition test_step (fresh : nat -> string) (cfg cfg' : config) : Prop :=
  ∃ o, operation_ok cfg o ∧ do_operation fresh o cfg = Some cfg'.

End ShardkvOps.
