(* ===== verification/ShardkvProof.v ===== *)
(** * Correctness of the harness of [shardkv]

    The invariant of the tables of ends and servers, and what starting and shutting down
    servers does. *)
From S2P Require Import Prelude Labrpc LabrpcProof Store ShardkvConfig.
From Stdlib Require Import Strings.Byte Strings.Ascii.
From stdpp Require Import pretty.
Import Labrpc Shardkv.

(** ** Names of servers *)

Fixpoint no_dash (s : string) : Prop :=
  match s with EmptyString => True | String c s' => c ≠ "-"%char ∧ no_dash s' end.

Lemma no_dash_app a b : no_dash a -> no_dash b -> no_dash (a +:+ b).
Proof. induction a as [|c a IH]; simpl; [done|]. intros [Hc Ha] Hb. split; [done|]. by apply IH. Qed.

(** The last dash separates. *)
Lemma split_last_dash a b a' b' :
  no_dash b -> no_dash b' -> a +:+ "-" +:+ b = a' +:+ "-" +:+ b' -> a = a' ∧ b = b'.
Proof.
  assert (Hno : forall x y z, no_dash z -> z ≠ x +:+ "-" +:+ y).
  { induction x as [|c x IH]; intros y z Hz ->; simpl in Hz; [by destruct Hz|].
    destruct Hz as [_ Hz]. by apply (IH y (x +:+ "-" +:+ y)). }
  revert a'. induction a as [|c a IH]; intros [|c' a'] Hb Hb' He; simpl in He.
  - by simplify_eq/=.
  - injection He as <- He. by apply Hno in He.
  - injection He as -> He. symmetry in He. by apply Hno in He.
  - injection He as -> He. destruct (IH a' Hb Hb' He) as [-> ->]. done.
Qed.

Lemma pretty_N_char_no_dash y : pretty_N_char y ≠ "-"%char.
Proof. destruct y as [|[[[[]|[]|]|[[]|[]|]|]|[[[]|[]|]|[[]|[]|]|]|]]; done. Qed.

Lemma pretty_N_go_no_dash x s : no_dash s -> no_dash (pretty_N_go x s).
Proof.
  revert s. induction (N.lt_wf_0 x) as [x _ IH]; intros s Hs.
  destruct (decide (x = 0%N)) as [->|Hx]; [by rewrite pretty_N_go_0|].
  rewrite pretty_N_go_step by lia. apply IH; [apply N.div_lt; lia|].
  split; [apply pretty_N_char_no_dash|done].
Qed.

Lemma Itoa_no_dash i : no_dash (Itoa (Z.of_nat i)).
Proof.
  destruct i as [|i]; [by vm_compute|].
  change (no_dash (pretty_N_go (N.pos (Pos.of_succ_nat i)) "")). by apply pretty_N_go_no_dash.
Qed.

Lemma append_inj_l a b c : a +:+ b = a +:+ c -> b = c.
Proof. induction a as [|x a IH]; [done|]. simpl. intros [= He]. by apply IH. Qed.

Lemma servername_inj g i g' i' : servername g i = servername g' i' -> g = g' ∧ i = i'.
Proof.
  unfold servername. rewrite !(append_assoc "server-").
  intros [Hg Hi]%split_last_dash; [|apply Itoa_no_dash..].
  apply append_inj_l in Hg. unfold Itoa in *.
  apply (inj pretty) in Hg, Hi. split; [done|lia].
Qed.

(** A controller is not a server of a group. *)
Lemma ctlr_servername s g i : "ctlr-" +:+ s ≠ servername g i.
Proof. done. Qed.

(** ** Ends *)

Lemma disable_all_enabled es rn e :
  is_enabled (disable_all es rn) e = if decide (e ∈ es) then false else is_enabled rn e.
Proof.
  unfold disable_all. revert rn. induction es as [|e' es IH]; intros rn; cbn [foldl].
  { by rewrite decide_False by (apply not_elem_of_nil). }
  rewrite IH. unfold is_enabled, Enable. cbn [set_tables enabled].
  destruct (decide (e ∈ es)) as [Hin|Hn].
  - by rewrite decide_True by (by right).
  - destruct (decide (e' = e)) as [->|Hne].
    + rewrite lookup_insert_eq, decide_True by left. done.
    + rewrite lookup_insert_ne by done. rewrite decide_False; [done|].
      intros [?|?]%elem_of_cons; [congruence|done].
Qed.

Lemma disable_all_rest es rn :
  connections (disable_all es rn) = connections rn ∧ servers (disable_all es rn) = servers rn ∧
  ends (disable_all es rn) = ends rn.
Proof.
  unfold disable_all. revert rn. induction es as [|e es IH]; intros rn; simpl; [done|].
  by destruct (IH (Enable e false rn)) as (-> & -> & ->).
Qed.

(** What making ends does. *)
Record opened (es srvs : list string) (rn rn' : network) : Prop := {
  op_ends : ends rn' = list_to_set es ∪ ends rn;
  op_servers : servers rn' = servers rn;
  op_reliable : reliable rn' = reliable rn;
  op_old : forall e, e ∉ es -> is_enabled rn' e = is_enabled rn e ∧
    connections rn' !! e = connections rn !! e;
  op_new : forall k e, es !! k = Some e -> is_enabled rn' e = true ∧
    ∃ srv, srvs !! k = Some srv ∧ connections rn' !! e = Some (Some srv)
}.

Lemma open_ends_opened es srvs rn :
  length es = length srvs -> NoDup es -> (forall e, e ∈ es -> e ∉ ends rn) ->
  ∃ rn', open_ends es srvs rn = Some rn' ∧ opened es srvs rn rn'.
Proof.
  revert srvs rn. induction es as [|e es IH]; intros [|srv srvs] rn Hl Hnd Hf; try done.
  { exists rn. split; [done|]. split; try done. simpl. set_solver. }
  apply NoDup_cons in Hnd as [He Hnd]. cbn [open_ends]. unfold open_end, MakeEnd.
  rewrite decide_False by (apply Hf; left). simpl.
  set (rn1 := Enable e true (Connect e srv _)).
  destruct (IH srvs rn1) as (rn' & Hr & [H1 H2 H3 H4 H5]); [by injection Hl|done| |].
  { intros e' He'. unfold rn1. simpl. assert (e' ∉ ends rn) by (apply Hf; by right).
    assert (e' ≠ e) by (by intros ->). set_solver. }
  exists rn'. split; [done|]. split.
  - rewrite H1. unfold rn1. simpl. set_solver.
  - by rewrite H2.
  - by rewrite H3.
  - intros e' He'. destruct (H4 e') as [E1 E2]; [set_solver|].
    assert (e' ≠ e) by set_solver. rewrite E1, E2. unfold rn1, is_enabled. simpl.
    by rewrite !lookup_insert_ne by done.
  - intros [|k] e' Hk; simpl in Hk; [|by apply H5].
    simplify_eq. destruct (H4 e' He) as [E1 E2]. rewrite E1, E2.
    unfold rn1, is_enabled. simpl. rewrite !lookup_insert_eq. split; [done|]. by exists srv.
Qed.

Lemma for_each_app (f : nat -> config -> option config) ks ks' cfg :
  for_each f (ks ++ ks') cfg = for_each f ks cfg ≫= for_each f ks'.
Proof.
  revert cfg. induction ks as [|k ks IH]; intros cfg; simpl; [done|].
  destruct (f k cfg); simpl; [apply IH|done].
Qed.

Section Proof.
Context (fresh : nat -> string) `{!Inj (=) (=) fresh}.
Abbreviation StartServer := (StartServer fresh).
Abbreviation fresh_ends := (fresh_ends fresh).
Implicit Types (cfg : config).

(** All the ends of the network have names that were drawn. *)
Definition drawn cfg : Prop := forall e, e ∈ ends (net cfg) -> ∃ k, k < nrand cfg ∧ e = fresh k.

Lemma randstrings_fresh cfg k e : drawn cfg -> e ∈ randstrings fresh cfg k -> e ∉ ends (net cfg).
Proof.
  intros Hd (j & -> & Hj)%list_elem_of_fmap (j' & Hj' & Heq)%Hd.
  apply elem_of_seq in Hj. apply (inj fresh) in Heq. lia.
Qed.

Lemma fresh_ends_spec srvs cfg :
  drawn cfg ->
  ∃ es rn, fresh_ends srvs cfg = Some (es, use_rand (length srvs) (set_net cfg rn)) ∧
    length es = length srvs ∧ NoDup es ∧ (forall e, e ∈ es -> e ∉ ends (net cfg)) ∧
    opened es srvs (net cfg) rn ∧ drawn (use_rand (length srvs) (set_net cfg rn)).
Proof.
  intros Hd. unfold Shardkv.fresh_ends. set (es := randstrings fresh cfg (length srvs)).
  assert (Hl : length es = length srvs) by (unfold es, randstrings; by rewrite length_fmap, length_seq).
  assert (Hnd : NoDup es) by (apply NoDup_fmap_2; [done|apply NoDup_seq]).
  assert (Hf : forall e, e ∈ es -> e ∉ ends (net cfg)) by (intros e; by apply randstrings_fresh).
  destruct (open_ends_opened es srvs (net cfg) Hl Hnd Hf) as (rn & Hr & Ho).
  exists es, rn. rewrite Hr. split_and!; [done..|]. intros e He. simpl in He |- *.
  rewrite (op_ends _ _ _ _ Ho) in He. apply elem_of_union in He as [He|He].
  - apply elem_of_list_to_set, list_elem_of_fmap in He as (j & -> & Hj).
    apply elem_of_seq in Hj. exists j. split; [lia|done].
  - destruct (Hd e He) as (j & Hj & ->). exists j. split; [lia|done].
Qed.

(** ** Slots *)

(** The end of server [i] of group [gi] to server [j] of the group, or to controller [j]; and
    of clerk [ck] to controller [j]. *)
Inductive slot := Peer (gi i j : nat) | Ctl (gi i j : nat) | ClerkCtl (ck j : nat).

Definition row (t : list (option (list string))) (i : nat) : option (list string) := mjoin (t !! i).

Definition end_at cfg (s : slot) : option string :=
  match s with
  | Peer gi i j => gg ← groups cfg !! gi; es ← row (endnames gg) i; es !! j
  | Ctl gi i j => gg ← groups cfg !! gi; es ← row (mendnames gg) i; es !! j
  | ClerkCtl ck j => if decide (j < ctl_n cfg) then es ← clerks cfg !! ck; es !! j else None
  end.

(** The name of the server that a slot leads to. *)
Definition leads_to cfg (s : slot) : option string :=
  match s with
  | Peer gi i j => gg ← groups cfg !! gi; Some (servername (gid gg) j)
  | Ctl _ _ j | ClerkCtl _ j => ctl cfg !! j
  end.

(** Whose ends are enabled: those of a clerk, or of a server that runs. *)
Definition active cfg (s : slot) : Prop :=
  match s with
  | Peer gi i _ | Ctl gi i _ => is_Some (Store.running (store cfg) !! (gi, i))
  | ClerkCtl _ _ => True
  end.

Record shard_ok cfg : Prop := {
  sh_groups : forall gi gg, groups cfg !! gi = Some gg -> gid gg = (100 + Z.of_nat gi)%Z ∧
    length (endnames gg) = n cfg ∧ length (mendnames gg) = ctl_n cfg;
  sh_rows : forall gi gg i es, groups cfg !! gi = Some gg ->
    (row (endnames gg) i = Some es -> length es = n cfg) ∧
    (row (mendnames gg) i = Some es -> length es = ctl_n cfg);
  sh_ctl : forall sn, sn ∈ ctl cfg -> (∃ x, sn = "ctlr-" +:+ x) ∧ is_Some (server_at (net cfg) sn);
  sh_unique : forall s s' e, end_at cfg s = Some e -> end_at cfg s' = Some e -> s = s';
  sh_ends : forall s e, end_at cfg s = Some e -> e ∈ ends (net cfg) ∧
    connections (net cfg) !! e = Some (leads_to cfg s) ∧
    (is_enabled (net cfg) e = true <-> active cfg s);
  sh_drawn : drawn cfg;
  sh_store : Store.store_ok (store cfg);
  sh_servers : forall gi i gg, groups cfg !! gi = Some gg -> i < n cfg ->
    (is_Some (server_at (net cfg) (servername (gid gg) i)) <->
     is_Some (Store.running (store cfg) !! (gi, i)));
  sh_running : forall gi i, is_Some (Store.running (store cfg) !! (gi, i)) ->
    gi < length (groups cfg) ∧ i < n cfg
}.

(** ** Starting a server *)

(** A new row of ends in the table of a group. *)
Definition with_rows (gg : group) (i : nat) (es ms : list string) : group :=
  MkGroup (gid gg) (<[i := Some es]> (endnames gg)) (<[i := Some ms]> (mendnames gg)).

Lemma row_insert_eq (t : list (option (list string))) i es :
  i < length t -> row (<[i := Some es]> t) i = Some es.
Proof. intros Hi. unfold row. by rewrite list_lookup_insert_eq. Qed.

Lemma row_insert_ne (t : list (option (list string))) i i' o : i ≠ i' -> row (<[i := o]> t) i' = row t i'.
Proof. intros Hi. unfold row. by rewrite list_lookup_insert_ne. Qed.

(** What starting server [i] of group [gi] changes. *)
Record started_server cfg (gi : nat) (gg : group) (i : nat) (es ms : list string) cfg' : Prop := {
  ss_n : n cfg' = n cfg;
  ss_ctl : ctl cfg' = ctl cfg;
  ss_ngroups : ngroups cfg' = ngroups cfg;
  ss_clerks : clerks cfg' = clerks cfg;
  ss_max : maxraftstate cfg' = maxraftstate cfg;
  ss_reliable : reliable (net cfg') = reliable (net cfg);
  ss_groups : groups cfg' = <[gi := with_rows gg i es ms]> (groups cfg);
  ss_store : Store.start (gi, i) es (store cfg) = Some (store cfg');
  ss_server : forall sn, server_at (net cfg') sn =
    if decide (servername (gid gg) i = sn) then Some (objects cfg) else server_at (net cfg) sn;
  ss_len : length es = n cfg ∧ length ms = ctl_n cfg;
  ss_nodup : NoDup (es ++ ms);
  ss_fresh : forall e, e ∈ es ++ ms -> e ∉ ends (net cfg);
  ss_ends : forall e, e ∈ ends (net cfg') <-> e ∈ es ++ ms ∨ e ∈ ends (net cfg);
  ss_drawn : drawn cfg';
  ss_old : forall e, e ∈ ends (net cfg) -> is_enabled (net cfg') e = is_enabled (net cfg) e ∧
    connections (net cfg') !! e = connections (net cfg) !! e;
  ss_peers : forall j e, es !! j = Some e -> is_enabled (net cfg') e = true ∧
    connections (net cfg') !! e = Some (Some (servername (gid gg) j));
  ss_ctls : forall j e, ms !! j = Some e -> is_enabled (net cfg') e = true ∧
    connections (net cfg') !! e = Some (ctl cfg !! j)
}.

Lemma StartServer_effect cfg gi gg i :
  shard_ok cfg -> groups cfg !! gi = Some gg -> i < n cfg -> i < ctl_n cfg ->
  ∃ cfg' es ms, StartServer gi i cfg = Some cfg' ∧ started_server cfg gi gg i es ms cfg'.
Proof.
  intros Hs Hg Hi Hc. destruct (sh_groups _ Hs gi gg Hg) as (Hgid & Hl1 & Hl2).
  unfold Shardkv.StartServer. rewrite Hg. simpl. rewrite decide_True by lia.
  set (srvs := servername (gid gg) <$> seq 0 (n cfg)).
  destruct (fresh_ends_spec srvs cfg (sh_drawn _ Hs)) as (es & rn1 & Hf1 & Le & Ne & Fe & O1 & D1).
  rewrite Hf1. simpl. set (cfg1 := use_rand _ _) in *.
  destruct (fresh_ends_spec (ctl cfg) cfg1 D1) as (ms & rn2 & Hf2 & Lm & Nm & Fm & O2 & D2).
  change (ctl cfg1) with (ctl cfg). rewrite Hf2. simpl.
  destruct (Store.start_ok (gi, i) es (store cfg) (sh_store _ Hs)) as (st & p & Hst & _).
  rewrite Hst. simpl. eexists _, es, ms. split; [done|].
  assert (Hsrvs : length srvs = n cfg) by (unfold srvs; by rewrite length_fmap, length_seq).
  assert (Hdis : forall e, e ∈ es -> e ∉ ms).
  { intros e He Hm. apply (Fm e Hm). simpl. rewrite (op_ends _ _ _ _ O1). set_solver. }
  split; simpl; try done.
  - rewrite (op_reliable _ _ _ _ O2). apply O1.
  - intros sn. unfold server_at. simpl. case_decide as E.
    + subst. by rewrite lookup_insert_eq.
    + rewrite lookup_insert_ne by done. rewrite (op_servers _ _ _ _ O2). simpl. by rewrite (op_servers _ _ _ _ O1).
  - split; [congruence|exact Lm].
  - apply NoDup_app. split_and!; [done| |done]. intros e He. by apply Hdis.
  - intros e [He|He]%elem_of_app; [by apply Fe|]. apply Fm in He. simpl in He.
    rewrite (op_ends _ _ _ _ O1) in He. set_solver.
  - intros e. rewrite (op_ends _ _ _ _ O2). simpl. rewrite (op_ends _ _ _ _ O1). set_solver.
  - intros e He. assert (N2 : e ∉ ms).
    { intros Hm. apply (Fm e Hm). simpl. rewrite (op_ends _ _ _ _ O1). set_solver. }
    assert (N1 : e ∉ es) by (intros Hin; by apply (Fe e)).
    destruct (op_old _ _ _ _ O2 e N2) as [A1 A2], (op_old _ _ _ _ O1 e N1) as [B1 B2].
    unfold is_enabled in *. simpl in *. split; congruence.
  - intros j e Hj. destruct (op_old _ _ _ _ O2 e) as [A1 A2]; [eauto with go|].
    destruct (op_new _ _ _ _ O1 j e Hj) as (B1 & srv & Hsrv & B2).
    unfold is_enabled in *. simpl in *. split; [congruence|]. rewrite A2, B2.
    unfold srvs in Hsrv. apply list_lookup_fmap_Some in Hsrv as (k & -> & Hk).
    apply lookup_seq in Hk as [-> _]. done.
  - intros j e Hj. destruct (op_new _ _ _ _ O2 j e Hj) as (B1 & srv & Hsrv & B2).
    unfold is_enabled in *. simpl in *. split; [done|]. by rewrite B2, Hsrv.
Qed.

(** The slots after a start: those of the server are new, the others as before. *)
Lemma started_slots cfg gi gg i es ms cfg' s e :
  shard_ok cfg -> groups cfg !! gi = Some gg -> i < n cfg -> i < ctl_n cfg ->
  started_server cfg gi gg i es ms cfg' -> end_at cfg' s = Some e ->
  (∃ j, s = Peer gi i j ∧ es !! j = Some e) ∨ (∃ j, s = Ctl gi i j ∧ ms !! j = Some e) ∨
  (end_at cfg s = Some e ∧ leads_to cfg' s = leads_to cfg s ∧
     forall j, s ≠ Peer gi i j ∧ s ≠ Ctl gi i j).
Proof.
  intros Hs Hg Hi Hc Hst He. destruct (sh_groups _ Hs gi gg Hg) as (_ & Hl1 & Hl2).
  assert (Hgl : gi < length (groups cfg)) by (by eapply lookup_lt_Some).
  destruct s as [gi' i' j|gi' i' j|ck j]; simpl in *.
  - rewrite (ss_groups _ _ _ _ _ _ _ Hst) in *. destruct (decide (gi = gi')) as [<-|Hne].
    + rewrite list_lookup_insert_eq in He |- * by done. simpl in *.
      destruct (decide (i = i')) as [<-|Hni].
      * rewrite row_insert_eq in He by lia. left. eauto.
      * rewrite row_insert_ne in He by done. right; right. rewrite Hg. simpl.
        split_and!; [done..|]. intros j'. split; congruence.
    + rewrite list_lookup_insert_ne in He |- * by done. right; right.
      split_and!; [done..|]. intros j'. split; congruence.
  - rewrite (ss_groups _ _ _ _ _ _ _ Hst), (ss_ctl _ _ _ _ _ _ _ Hst) in *.
    destruct (decide (gi = gi')) as [<-|Hne].
    + rewrite list_lookup_insert_eq in He by done. simpl in *.
      destruct (decide (i = i')) as [<-|Hni].
      * rewrite row_insert_eq in He by lia. right; left. eauto.
      * rewrite row_insert_ne in He by done. right; right. rewrite Hg. simpl.
        split_and!; [done..|]. intros j'. split; congruence.
    + rewrite list_lookup_insert_ne in He by done. right; right.
      split_and!; [done..|]. intros j'. split; congruence.
  - right; right. unfold ctl_n in *.
    rewrite (ss_ctl _ _ _ _ _ _ _ Hst), (ss_clerks _ _ _ _ _ _ _ Hst) in *. by split_and!.
Qed.

Lemma started_running cfg gi gg i es ms cfg' :
  shard_ok cfg -> started_server cfg gi gg i es ms cfg' ->
  Store.store_ok (store cfg') ∧
  Store.running (store cfg') = <[(gi, i) := length (Store.instances (store cfg))]> (Store.running (store cfg)) ∧
  (forall k, Store.content_of (store cfg') k =
     if decide ((gi, i) = k) then Some (default ([], []) (Store.content_of (store cfg) (gi, i)))
     else Store.content_of (store cfg) k).
Proof.
  intros Hs Hst. destruct (Store.start_ok (gi, i) es (store cfg) (sh_store _ Hs))
    as (st & p & Hst1 & Hok & _ & _ & Hrun & _ & Hct).
  rewrite (ss_store _ _ _ _ _ _ _ Hst) in Hst1. by simplify_eq.
Qed.

Lemma started_lookup cfg gi gg i es ms cfg' gi' gg' :
  groups cfg !! gi = Some gg -> started_server cfg gi gg i es ms cfg' ->
  groups cfg' !! gi' = Some gg' ->
  (gi' = gi ∧ gg' = with_rows gg i es ms) ∨ (gi' ≠ gi ∧ groups cfg !! gi' = Some gg').
Proof.
  intros Hg Hst. rewrite (ss_groups _ _ _ _ _ _ _ Hst).
  intros [(-> & -> & _)|[Hne ?]]%list_lookup_insert_Some; [by left|right; by split].
Qed.

(** No two slots hold the same end after a start. *)
Lemma started_unique cfg gi gg i es ms cfg' s s' e :
  shard_ok cfg -> groups cfg !! gi = Some gg -> i < n cfg -> i < ctl_n cfg ->
  started_server cfg gi gg i es ms cfg' ->
  end_at cfg' s = Some e -> end_at cfg' s' = Some e -> s = s'.
Proof.
  intros Hs Hg Hi Hc Hst.
  pose proof (fun s e => started_slots cfg gi gg i es ms cfg' s e Hs Hg Hi Hc Hst) as Hsl.
  assert (Hnew : forall e, e ∈ es ++ ms -> forall s, end_at cfg s ≠ Some e).
  { intros x Hin t He. apply (ss_fresh _ _ _ _ _ _ _ Hst x Hin). by apply (sh_ends _ Hs t x). }
  intros H1 H2. pose proof (ss_nodup _ _ _ _ _ _ _ Hst) as (N1 & N12 & N2)%NoDup_app.
  apply Hsl in H1 as [(j & -> & J)|[(j & -> & J)|(J & _ & _)]];
    apply Hsl in H2 as [(j' & -> & J')|[(j' & -> & J')|(J' & _ & _)]].
  - f_equal. by apply (NoDup_lookup es j j' e).
  - destruct (N12 e); eauto with go.
  - destruct (Hnew e) with (s := s'); [apply elem_of_app; left; eauto with go|done].
  - destruct (N12 e); eauto with go.
  - f_equal. by apply (NoDup_lookup ms j j' e).
  - destruct (Hnew e) with (s := s'); [apply elem_of_app; right; eauto with go|done].
  - destruct (Hnew e) with (s := s); [apply elem_of_app; left; eauto with go|done].
  - destruct (Hnew e) with (s := s); [apply elem_of_app; right; eauto with go|done].
  - by apply (sh_unique _ Hs s s' e).
Qed.

(** Every end of the started deployment leads to its server and is enabled exactly
    when its owner runs. *)
Lemma started_ends cfg gi gg i es ms cfg' s e :
  shard_ok cfg -> groups cfg !! gi = Some gg -> i < n cfg -> i < ctl_n cfg ->
  started_server cfg gi gg i es ms cfg' -> end_at cfg' s = Some e ->
  e ∈ ends (net cfg') ∧ connections (net cfg') !! e = Some (leads_to cfg' s) ∧
  (is_enabled (net cfg') e = true <-> active cfg' s).
Proof.
  intros Hs Hg Hi Hc Hst He. destruct (started_running _ _ _ _ _ _ _ Hs Hst) as (_ & Hrun & _).
  pose proof (ss_ctl _ _ _ _ _ _ _ Hst) as Ec.
  rewrite (ss_ends _ _ _ _ _ _ _ Hst).
  assert (Hgl : gi < length (groups cfg)) by (by eapply lookup_lt_Some).
  apply (started_slots cfg gi gg i es ms cfg' s e Hs Hg Hi Hc Hst) in He
    as [(j & -> & J)|[(j & -> & J)|(J & L & Hne)]].
  - destruct (ss_peers _ _ _ _ _ _ _ Hst j e J) as [E1 E2]. rewrite E1, E2. simpl.
    rewrite (ss_groups _ _ _ _ _ _ _ Hst), list_lookup_insert_eq by done. simpl.
    rewrite Hrun, lookup_insert_eq. split_and!; [left; apply elem_of_app; left; eauto with go|done|].
    by split; [eexists|].
  - destruct (ss_ctls _ _ _ _ _ _ _ Hst j e J) as [E1 E2]. rewrite E1, E2. simpl.
    rewrite Ec, Hrun, lookup_insert_eq.
    split_and!; [left; apply elem_of_app; right; eauto with go|done|]. by split; [eexists|].
  - destruct (sh_ends _ Hs s e J) as (Hin & Hcn & Hen).
    destruct (ss_old _ _ _ _ _ _ _ Hst e Hin) as [E1 E2]. rewrite E1, E2, L.
    split_and!; [by right|done|]. rewrite Hen. destruct s as [gi' i' j|gi' i' j|ck j]; simpl; [..|done].
    + rewrite Hrun, lookup_insert_ne; [done|]. intros [= <- <-]. by destruct (Hne j).
    + rewrite Hrun, lookup_insert_ne; [done|]. intros [= <- <-]. by destruct (Hne j).
Qed.

(** The network has the server of a group exactly when the instance runs. *)
Lemma started_servers cfg gi gg i es ms cfg' gi' i' gg' :
  shard_ok cfg -> groups cfg !! gi = Some gg -> i < n cfg ->
  started_server cfg gi gg i es ms cfg' -> groups cfg' !! gi' = Some gg' -> i' < n cfg ->
  (is_Some (server_at (net cfg') (servername (gid gg') i')) <->
   is_Some (Store.running (store cfg') !! (gi', i'))).
Proof.
  intros Hs Hg Hi Hst Hg' Hi'. destruct (sh_groups _ Hs gi gg Hg) as (Hgid & _ & _).
  destruct (started_running _ _ _ _ _ _ _ Hs Hst) as (_ & Hrun & _).
  rewrite (ss_server _ _ _ _ _ _ _ Hst), Hrun.
  assert (Hgid' : gid gg' = (100 + Z.of_nat gi')%Z ∧ (gi' ≠ gi -> groups cfg !! gi' = Some gg')).
  { apply (started_lookup cfg gi gg i es ms cfg' gi' gg' Hg Hst) in Hg' as [[-> ->]|[_ Hg']];
      [by split|]. split; [by apply (sh_groups _ Hs)|done]. }
  destruct Hgid' as [Hgid' Hold].
  destruct (decide ((gi, i) = (gi', i'))) as [[= <- <-]|Hne].
  - rewrite lookup_insert_eq, decide_True by congruence. by split; eexists.
  - rewrite lookup_insert_ne by done. rewrite decide_False.
    2: { intros [E1 E2]%servername_inj. apply Hne. f_equal; [lia|done]. }
    destruct (decide (gi' = gi)) as [->|Hn2]; [|apply (sh_servers _ Hs gi' i' gg'); auto; lia].
    rewrite Hgid', <- Hgid. apply (sh_servers _ Hs gi i' gg); [done|lia].
Qed.

Lemma started_shard_ok cfg gi gg i es ms cfg' :
  shard_ok cfg -> groups cfg !! gi = Some gg -> i < n cfg -> i < ctl_n cfg ->
  started_server cfg gi gg i es ms cfg' -> shard_ok cfg'.
Proof.
  intros Hs Hg Hi Hc Hst. destruct (sh_groups _ Hs gi gg Hg) as (Hgid & Hl1 & Hl2).
  destruct (started_running _ _ _ _ _ _ _ Hs Hst) as (Hok & Hrun & _).
  pose proof (ss_n _ _ _ _ _ _ _ Hst) as En. pose proof (ss_ctl _ _ _ _ _ _ _ Hst) as Ec.
  pose proof (fun gi' gg' => started_lookup cfg gi gg i es ms cfg' gi' gg' Hg Hst) as Hlk.
  destruct (ss_len _ _ _ _ _ _ _ Hst) as [Le Lm].
  split; unfold ctl_n; rewrite ?En, ?Ec; fold (ctl_n cfg).
  - intros gi' gg' [[-> ->]|[_ Hg']]%Hlk; [|by apply (sh_groups _ Hs)].
    simpl. by rewrite !length_insert.
  - intros gi' gg' i' es' [[-> ->]|[_ Hg']]%Hlk; [|by apply (sh_rows _ Hs gi' gg')]. simpl.
    destruct (sh_rows _ Hs gi gg i' es' Hg) as [R1 R2].
    destruct (decide (i = i')) as [<-|Hne].
    + rewrite !row_insert_eq by lia. split; intros; by simplify_eq.
    + by rewrite !row_insert_ne.
  - intros sn Hsn. destruct (sh_ctl _ Hs sn Hsn) as [H1 H2]. split; [done|].
    rewrite (ss_server _ _ _ _ _ _ _ Hst). case_decide; [by eexists|done].
  - intros s s' e. by apply (started_unique cfg gi gg i es ms).
  - intros s e. by apply (started_ends cfg gi gg i es ms).
  - apply (ss_drawn _ _ _ _ _ _ _ Hst).
  - done.
  - intros gi' i' gg'. by apply (started_servers cfg gi gg i es ms).
  - intros gi' i'. rewrite Hrun, (ss_groups _ _ _ _ _ _ _ Hst), length_insert.
    intros [[= <- <-]|[_ Hr]]%lookup_insert_is_Some; [|by apply (sh_running _ Hs)].
    split; [by eapply lookup_lt_Some|done].
Qed.

(** ** Shutting a server down *)

Lemma mapM_lookup_all (es : list string) : mapM (λ j, es !! j) (seq 0 (length es)) = Some es.
Proof.
  apply mapM_Some, Forall2_same_length_lookup_2; [by rewrite length_seq|].
  intros k j e Hj He. apply lookup_seq in Hj as [-> _]. done.
Qed.

(** The rows of a server that was started. *)
Definition rows_of cfg (gi i : nat) (gg : group) (es ms : list string) : Prop :=
  groups cfg !! gi = Some gg ∧ row (endnames gg) i = Some es ∧ row (mendnames gg) i = Some ms.

(** What shutting server [i] of group [gi] down does; [rn] is the network after it. *)
Record stopped_server cfg (gi : nat) (gg : group) (i : nat) (es ms : list string) (rn : network) cfg' :
    Prop := {
  sd_config : cfg' = set_store (Store.shutdown (gi, i) (store cfg)) (set_net cfg rn);
  sd_enabled : forall e, is_enabled rn e = if decide (e ∈ es ++ ms) then false else is_enabled (net cfg) e;
  sd_connections : connections rn = connections (net cfg);
  sd_ends : ends rn = ends (net cfg);
  sd_server : forall sn, server_at rn sn =
    if decide (servername (gid gg) i = sn) then None else server_at (net cfg) sn
}.

Lemma ShutdownServer_effect cfg gi gg i es ms :
  shard_ok cfg -> rows_of cfg gi i gg es ms -> i < n cfg ->
  ∃ cfg' rn, ShutdownServer gi i cfg = Some cfg' ∧ stopped_server cfg gi gg i es ms rn cfg'.
Proof.
  intros Hs (Hg & He & Hm) Hi. unfold ShutdownServer. rewrite Hg. simpl.
  destruct (sh_rows _ Hs gi gg i es Hg) as [Hl _]. specialize (Hl He).
  assert (Hmap : mapM (λ j, row0 ← mjoin (endnames gg !! i); row0 !! j) (seq 0 (n cfg)) = Some es).
  { rewrite <- Hl, <- (mapM_lookup_all es). apply mapM_ext. intros j. unfold row in He. by rewrite He. }
  rewrite Hmap. simpl. unfold row in Hm.
  destruct (mendnames gg !! i) as [[ms'|]|]; [|done..]. simpl in Hm. injection Hm as ->. simpl.
  rewrite decide_True by done. eexists _, _. split; [done|].
  destruct (disable_all_rest ms (disable_all es (net cfg))) as (C1 & S1 & E1).
  destruct (disable_all_rest es (net cfg)) as (C2 & S2 & E2).
  split; [done| | | |].
  - intros e. trans (is_enabled (disable_all ms (disable_all es (net cfg))) e); [done|].
    rewrite !disable_all_enabled. repeat case_decide; rewrite ?elem_of_app in *; naive_solver.
  - simpl. congruence.
  - simpl. congruence.
  - intros sn. unfold server_at. simpl. case_decide as E.
    + subst. by rewrite lookup_insert_eq.
    + rewrite lookup_insert_ne by done. by rewrite S1, S2.
Qed.

(** The rows of a server hold its slots. *)
Lemma rows_slots cfg gi gg i es ms e :
  shard_ok cfg -> rows_of cfg gi i gg es ms ->
  e ∈ es ++ ms <-> ∃ j, end_at cfg (Peer gi i j) = Some e ∨ end_at cfg (Ctl gi i j) = Some e.
Proof.
  intros Hs (Hg & He & Hm). simpl. rewrite Hg. simpl. rewrite He, Hm. simpl.
  rewrite elem_of_app, !list_elem_of_lookup. naive_solver.
Qed.

Lemma stopped_shard_ok cfg gi gg i es ms rn cfg' :
  shard_ok cfg -> rows_of cfg gi i gg es ms -> i < n cfg ->
  stopped_server cfg gi gg i es ms rn cfg' -> shard_ok cfg'.
Proof.
  intros Hs Hrows Hi [-> Hen Hcn Hends Hsv].
  pose proof (fun e => rows_slots cfg gi gg i es ms e Hs Hrows) as Hsl.
  destruct Hrows as (Hg & _). destruct (sh_groups _ Hs gi gg Hg) as [Hgid _].
  pose proof (Store.shutdown_running (gi, i) (store cfg)) as Hrun.
  split; simpl; try apply Hs.
  - intros sn Hsn. destruct (sh_ctl _ Hs sn Hsn) as [[x ->] H2]. split; [by eexists|].
    by rewrite Hsv, decide_False.
  - intros s e He. change (end_at cfg s = Some e) in He.
    destruct (sh_ends _ Hs s e He) as (Hin & Hc & Ha). rewrite Hends, Hcn, Hen. split_and!; [done|done|].
    unfold active. simpl. rewrite Hrun. case_decide as Hd.
    + apply Hsl in Hd as (j & [Hj|Hj]); rewrite (sh_unique _ Hs _ _ _ He Hj);
        rewrite lookup_delete_eq; by split; [|intros []].
    + rewrite Ha. destruct s as [gi' i' j|gi' i' j|ck j]; simpl; [..|done].
      * rewrite lookup_delete_ne; [done|]. intros [= <- <-]. apply Hd, Hsl. exists j. by left.
      * rewrite lookup_delete_ne; [done|]. intros [= <- <-]. apply Hd, Hsl. exists j. by right.
  - intros e He. simpl in He. rewrite Hends in He. by apply (sh_drawn _ Hs).
  - apply Store.shutdown_ok, (sh_store _ Hs).
  - intros gi' i' gg' Hg' Hi'. rewrite Hsv, Hrun.
    destruct (decide ((gi, i) = (gi', i'))) as [[= <- <-]|Hne].
    + rewrite lookup_delete_eq, decide_True by congruence. by split; intros [].
    + rewrite lookup_delete_ne by done. rewrite decide_False; [by apply (sh_servers _ Hs)|].
      destruct (sh_groups _ Hs gi' gg' Hg') as [Hgid' _].
      intros [E1 E2]%servername_inj. apply Hne. f_equal; [lia|done].
  - intros gi' i'. rewrite Hrun. intros [x [_ Hx]%lookup_delete_Some]. apply (sh_running _ Hs). by eexists.
Qed.

(** ** The shard controller *)

(** What the operations on the controller leave alone. *)
Record same_tables cfg cfg' : Prop := {
  st_ctl : ctl cfg' = ctl cfg;
  st_n : n cfg' = n cfg;
  st_ngroups : ngroups cfg' = ngroups cfg;
  st_groups : groups cfg' = groups cfg;
  st_store : store cfg' = store cfg;
  st_clerks : clerks cfg' = clerks cfg;
  st_max : maxraftstate cfg' = maxraftstate cfg;
  st_reliable : reliable (net cfg') = reliable (net cfg)
}.

Lemma fresh_ends_same srvs cfg :
  drawn cfg ->
  ∃ es cfg', fresh_ends srvs cfg = Some (es, cfg') ∧ same_tables cfg cfg' ∧ drawn cfg' ∧
    objects cfg' = objects cfg ∧ servers (net cfg') = servers (net cfg) ∧
    length es = length srvs ∧ NoDup es ∧ (forall e, e ∈ es -> e ∉ ends (net cfg)) ∧
    opened es srvs (net cfg) (net cfg').
Proof.
  intros Hd. destruct (fresh_ends_spec srvs cfg Hd) as (es & rn & Hf & Hl & Hnd & Hfr & Ho & Hd').
  exists es, (use_rand (length srvs) (set_net cfg rn)). split_and!; try done; [|apply Ho].
  split; try done. apply Ho.
Qed.

Lemma StartCtrlerServer_effect cfg i :
  drawn cfg -> i < ctl_n cfg ->
  ∃ cfg' sn, StartCtrlerServer fresh i cfg = Some cfg' ∧ same_tables cfg cfg' ∧ drawn cfg' ∧
    ctl cfg !! i = Some sn ∧
    forall sn', is_Some (server_at (net cfg') sn') <-> sn' = sn ∨ is_Some (server_at (net cfg) sn').
Proof.
  intros Hd Hi. unfold StartCtrlerServer.
  destruct (fresh_ends_same (ctl cfg) cfg Hd) as (es & cfg1 & -> & [H1 H2 H3 H4 H5 H6 H7 H8] & Hd1 & _ & Hsv & _).
  simpl. rewrite H1. destruct (lookup_lt_is_Some_2 (ctl cfg) i Hi) as [sn Hsn]. rewrite Hsn. simpl.
  eexists _, sn. split; [done|]. split_and!; [by split|done|done|].
  intros sn'. unfold server_at. simpl. rewrite Hsv. destruct (decide (sn = sn')) as [->|Hne].
  - rewrite lookup_insert_eq. simpl. split; [by left|]. intros _. by eexists.
  - rewrite lookup_insert_ne by done. naive_solver.
Qed.

(** The configuration after the controller was started. *)
Lemma StartCtrlerService_effect m :
  ∃ cfg, StartCtrlerService fresh (empty_config m) = Some cfg ∧ drawn cfg ∧
    ctl cfg = (λ k, "ctlr-" +:+ fresh k) <$> seq 0 3 ∧
    (forall sn, sn ∈ ctl cfg -> is_Some (server_at (net cfg) sn)) ∧
    (forall g i, server_at (net cfg) (servername g i) = None) ∧
    groups cfg = [] ∧ clerks cfg = ∅ ∧ store cfg = Store.empty_store ∧ maxraftstate cfg = m ∧
    reliable (net cfg) = true.
Proof.
  unfold StartCtrlerService.
  set (cfg0 := use_rand 3 (set_ctl ((λ s, "ctlr-" +:+ s) <$> randstrings fresh (empty_config m) 3) (empty_config m))).
  assert (Hd0 : drawn cfg0) by (intros e He; simpl in He; set_solver).
  cbn [for_each seq].
  destruct (StartCtrlerServer_effect cfg0 0 Hd0) as (cfg1 & s0 & -> & T1 & Hd1 & L0 & S1); [unfold ctl_n; simpl; lia|].
  cbn [mbind option_bind].
  destruct (StartCtrlerServer_effect cfg1 1 Hd1) as (cfg2 & s1 & -> & T2 & Hd2 & L1 & S2).
  { unfold ctl_n. rewrite (st_ctl _ _ T1). simpl. lia. }
  cbn [mbind option_bind].
  destruct (StartCtrlerServer_effect cfg2 2 Hd2) as (cfg3 & s2 & -> & T3 & Hd3 & L2 & S3).
  { unfold ctl_n. rewrite (st_ctl _ _ T2), (st_ctl _ _ T1). simpl. lia. }
  cbn [mbind option_bind]. unfold ctrlerclerk.
  destruct (fresh_ends_same (ctl cfg3) cfg3 Hd3) as (es & cfg4 & -> & T4 & Hd4 & _ & Sv4 & _).
  simpl. exists cfg4.
  assert (Ec : forall c, c = ctl cfg4 -> c = ctl cfg0).
  { intros c ->. by rewrite (st_ctl _ _ T4), (st_ctl _ _ T3), (st_ctl _ _ T2), (st_ctl _ _ T1). }
  rewrite (st_ctl _ _ T1) in L1. rewrite (st_ctl _ _ T2), (st_ctl _ _ T1) in L2. simpl in L0, L1, L2.
  injection L0 as <-. injection L1 as <-. injection L2 as <-.
  assert (Hsv : forall sn, is_Some (server_at (net cfg4) sn) <-> sn ∈ ctl cfg0).
  { intros sn. unfold server_at at 1. rewrite Sv4. fold (server_at (net cfg3) sn).
    rewrite S3, S2, S1. simpl. rewrite !elem_of_cons, elem_of_nil.
    assert (¬ is_Some (server_at (MakeNetwork : network) sn)).
    { unfold server_at. simpl. rewrite lookup_empty. by intros []. }
    naive_solver. }
  split_and!; try done.
  - by rewrite (Ec _ eq_refl).
  - intros sn Hsn. apply Hsv. by rewrite <- (Ec _ eq_refl).
  - intros g i. destruct (server_at (net cfg4) (servername g i)) eqn:E; [|done].
    assert (Hin : servername g i ∈ ctl cfg0) by (apply Hsv; by rewrite E). exfalso.
    simpl in Hin. rewrite !elem_of_cons, elem_of_nil in Hin.
    destruct Hin as [Hin|[Hin|[Hin|[]]]]; symmetry in Hin; by apply ctlr_servername in Hin.
  - by rewrite (st_groups _ _ T4), (st_groups _ _ T3), (st_groups _ _ T2), (st_groups _ _ T1).
  - by rewrite (st_clerks _ _ T4), (st_clerks _ _ T3), (st_clerks _ _ T2), (st_clerks _ _ T1).
  - by rewrite (st_store _ _ T4), (st_store _ _ T3), (st_store _ _ T2), (st_store _ _ T1).
  - by rewrite (st_max _ _ T4), (st_max _ _ T3), (st_max _ _ T2), (st_max _ _ T1).
  - by rewrite (st_reliable _ _ T4), (st_reliable _ _ T3), (st_reliable _ _ T2), (st_reliable _ _ T1).
Qed.

(** ** Groups *)

Definition has_rows cfg (gi i : nat) : Prop := ∃ gg es ms, rows_of cfg gi i gg es ms.

Abbreviation runs cfg gi i := (is_Some (Store.running (store cfg) !! (gi, i))).

(** What starting and shutting down leaves alone. *)
Record kept cfg cfg' : Prop := {
  kp_n : n cfg' = n cfg;
  kp_ctl : ctl cfg' = ctl cfg;
  kp_ngroups : ngroups cfg' = ngroups cfg;
  kp_clerks : clerks cfg' = clerks cfg;
  kp_max : maxraftstate cfg' = maxraftstate cfg;
  kp_reliable : reliable (net cfg') = reliable (net cfg);
  kp_len : length (groups cfg') = length (groups cfg);
  kp_rows : forall gi i, has_rows cfg gi i -> has_rows cfg' gi i
}.

Lemma kept_refl cfg : kept cfg cfg.
Proof. by split. Qed.

Lemma kept_trans cfg1 cfg2 cfg3 : kept cfg1 cfg2 -> kept cfg2 cfg3 -> kept cfg1 cfg3.
Proof. intros [] []. split; try congruence. auto. Qed.

Lemma start_one cfg gi i :
  shard_ok cfg -> gi < length (groups cfg) -> i < n cfg -> i < ctl_n cfg ->
  ∃ cfg', StartServer gi i cfg = Some cfg' ∧ shard_ok cfg' ∧ kept cfg cfg' ∧ has_rows cfg' gi i ∧
    (forall gi' i', runs cfg' gi' i' <-> (gi' = gi ∧ i' = i) ∨ runs cfg gi' i') ∧
    (forall k, Store.content_of (store cfg') k =
       if decide ((gi, i) = k) then Some (default ([], []) (Store.content_of (store cfg) k))
       else Store.content_of (store cfg) k) ∧
    (forall sn, (forall j, sn ≠ servername (100 + Z.of_nat gi) j) ->
       server_at (net cfg') sn = server_at (net cfg) sn).
Proof.
  intros Hs [gg Hg]%lookup_lt_is_Some_2 Hi Hc.
  destruct (StartServer_effect cfg gi gg i Hs Hg Hi Hc) as (cfg' & es & ms & Hst & He).
  pose proof (started_shard_ok _ _ _ _ _ _ _ Hs Hg Hi Hc He) as Hs'.
  destruct (started_running _ _ _ _ _ _ _ Hs He) as (_ & Hrun & Hct).
  destruct (sh_groups _ Hs gi gg Hg) as (Hgid & L1 & L2).
  assert (Hgl : gi < length (groups cfg)) by (by eapply lookup_lt_Some).
  assert (Hown : has_rows cfg' gi i).
  { exists (with_rows gg i es ms), es, ms. split_and!.
    - rewrite (ss_groups _ _ _ _ _ _ _ He). by apply list_lookup_insert_eq.
    - apply row_insert_eq. lia.
    - apply row_insert_eq. lia. }
  exists cfg'. split_and!; [done|done| |done| | |].
  - destruct He. split; try done.
    + rewrite ss_groups0. apply length_insert.
    + intros gi' i' (gg' & es' & ms' & Hg' & R1 & R2).
      destruct (decide ((gi', i') = (gi, i))) as [[= -> ->]|Hne]; [done|].
      destruct (decide (gi' = gi)) as [->|Hn].
      * assert (gg' = gg) as -> by congruence.
        exists (with_rows gg i es ms), es', ms'. unfold rows_of. rewrite ss_groups0.
        split_and!; [by apply list_lookup_insert_eq|..]; simpl; rewrite row_insert_ne; try done; congruence.
      * exists gg', es', ms'. unfold rows_of. rewrite ss_groups0. split_and!; [by rewrite list_lookup_insert_ne|done..].
  - intros gi' i'. rewrite Hrun, lookup_insert_is_Some'.
    split; [intros [[= <- <-]|?]; auto|intros [[-> ->]|?]; auto].
  - intros k. rewrite Hct. by case_decide; subst.
  - intros sn Hsn. rewrite (ss_server _ _ _ _ _ _ _ He), decide_False; [done|].
    rewrite Hgid. intros E. by apply (Hsn i).
Qed.

Lemma shutdown_one cfg gi i :
  shard_ok cfg -> has_rows cfg gi i -> i < n cfg ->
  ∃ cfg', ShutdownServer gi i cfg = Some cfg' ∧ shard_ok cfg' ∧ kept cfg cfg' ∧
    groups cfg' = groups cfg ∧
    (forall gi' i', runs cfg' gi' i' <-> (gi', i') ≠ (gi, i) ∧ runs cfg gi' i') ∧
    (forall k, Store.content_of (store cfg') k = Store.content_of (store cfg) k) ∧
    connections (net cfg') = connections (net cfg) ∧
    (forall e, is_enabled (net cfg') e = true <-> is_enabled (net cfg) e = true ∧
       forall j, end_at cfg (Peer gi i j) ≠ Some e ∧ end_at cfg (Ctl gi i j) ≠ Some e).
Proof.
  intros Hs (gg & es & ms & Hrows) Hi.
  destruct (ShutdownServer_effect cfg gi gg i es ms Hs Hrows Hi) as (cfg' & rn & Hsd & He).
  pose proof (stopped_shard_ok _ _ _ _ _ _ _ _ Hs Hrows Hi He) as Hs'.
  pose proof (fun e => rows_slots cfg gi gg i es ms e Hs Hrows) as Hsl.
  destruct He as [-> Hen Hcn Hends Hsv].
  assert (Hrel : reliable rn = reliable (net cfg)).
  { unfold ShutdownServer in Hsd. destruct (groups cfg !! gi); [|done]. simpl in Hsd.
    destruct (mapM _ _) as [l|]; [|done]. simpl in Hsd.
    destruct (mendnames _ !! i) as [o|]; [|done]. simpl in Hsd. rewrite decide_True in Hsd by done.
    assert (Hd : forall es rn0, reliable (disable_all es rn0) = reliable rn0).
    { induction es0 as [|e es0 IH]; intros rn0; [done|]. simpl. unfold disable_all in *. simpl. by rewrite IH. }
    assert (Hr : reliable rn = reliable (disable_all (default [] o) (disable_all l (net cfg)))).
    { injection Hsd as <-. done. }
    by rewrite Hr, !Hd. }
  eexists. split_and!; [done|done|by split|done| | |done|].
  - intros gi' i'. simpl. rewrite Store.shutdown_running, lookup_delete_is_Some.
    split; intros [Hne Hr]; split; congruence || done.
  - intros k. apply Store.shutdown_content, (sh_store _ Hs).
  - intros e. simpl. rewrite Hen. case_decide as Hd.
    + apply Hsl in Hd as (j & [Hj|Hj]); split; [done| |done|]; intros [_ Hn]; by destruct (Hn j).
    + split; [|by intros [? _]]. intros Ht. split; [done|]. intros j.
      split; intros Hj; apply Hd, Hsl; eauto.
Qed.

(** The first [k] servers of a group. *)
Lemma start_prefix cfg gi k :
  shard_ok cfg -> gi < length (groups cfg) -> k ≤ n cfg -> k ≤ ctl_n cfg ->
  ∃ cfg', for_each (StartServer gi) (seq 0 k) cfg = Some cfg' ∧ shard_ok cfg' ∧ kept cfg cfg' ∧
    (forall i, i < k -> has_rows cfg' gi i) ∧
    (forall gi' i', runs cfg' gi' i' <-> (gi' = gi ∧ i' < k) ∨ runs cfg gi' i') ∧
    (forall gi' i', Store.content_of (store cfg') (gi', i') =
       if decide (gi' = gi ∧ i' < k) then Some (default ([], []) (Store.content_of (store cfg) (gi', i')))
       else Store.content_of (store cfg) (gi', i')) ∧
    (forall sn, (forall j, sn ≠ servername (100 + Z.of_nat gi) j) ->
       server_at (net cfg') sn = server_at (net cfg) sn).
Proof.
  intros Hs Hg Hn. revert Hn. induction k as [|k IH]; intros Hk Hkc.
  { exists cfg. split_and!; [done|done|apply kept_refl|lia| | |done].
    - intros gi' i'. naive_solver lia.
    - intros gi' i'. rewrite decide_False; [done|]. lia. }
  destruct IH as (cfg1 & Hf & Hs1 & K1 & R1 & U1 & C1 & V1); [lia..|].
  destruct (start_one cfg1 gi k Hs1) as (cfg2 & Hst & Hs2 & K2 & R2 & U2 & C2 & V2).
  { by rewrite (kp_len _ _ K1). }
  { rewrite (kp_n _ _ K1). lia. }
  { unfold ctl_n. rewrite (kp_ctl _ _ K1). fold (ctl_n cfg). lia. }
  exists cfg2. split_and!.
  - rewrite seq_S. simpl. rewrite for_each_app, Hf. simpl. by rewrite Hst.
  - done.
  - by eapply kept_trans.
  - intros i Hi. destruct (decide (i = k)) as [->|Hne]; [done|]. apply (kp_rows _ _ K2), R1. lia.
  - intros gi' i'. rewrite U2, U1. naive_solver lia.
  - intros gi' i'. rewrite C2. destruct (decide ((gi, k) = (gi', i'))) as [[= <- <-]|Hne].
    + by rewrite C1, decide_False, decide_True by lia.
    + rewrite C1. apply decide_ext. split; intros [-> Hi]; (split; [done|]); [lia|].
      assert (i' ≠ k) by congruence. lia.
  - intros sn Hsn. by rewrite V2, V1.
Qed.

Lemma start_group cfg gi :
  shard_ok cfg -> gi < length (groups cfg) -> n cfg ≤ ctl_n cfg ->
  ∃ cfg', StartGroup fresh gi cfg = Some cfg' ∧ shard_ok cfg' ∧ kept cfg cfg' ∧
    (forall i, i < n cfg -> has_rows cfg' gi i) ∧
    (forall gi' i', runs cfg' gi' i' <-> (gi' = gi ∧ i' < n cfg) ∨ runs cfg gi' i') ∧
    (forall gi' i', Store.content_of (store cfg') (gi', i') =
       if decide (gi' = gi ∧ i' < n cfg) then Some (default ([], []) (Store.content_of (store cfg) (gi', i')))
       else Store.content_of (store cfg) (gi', i')) ∧
    (forall sn, (forall j, sn ≠ servername (100 + Z.of_nat gi) j) ->
       server_at (net cfg') sn = server_at (net cfg) sn).
Proof. intros Hs Hg Hn. by apply start_prefix. Qed.

Lemma stop_group cfg gi :
  shard_ok cfg -> (forall i, i < n cfg -> has_rows cfg gi i) ->
  ∃ cfg', ShutdownGroup gi cfg = Some cfg' ∧ shard_ok cfg' ∧ kept cfg cfg' ∧
    (forall gi' i', runs cfg' gi' i' <-> ¬ (gi' = gi ∧ i' < n cfg) ∧ runs cfg gi' i') ∧
    (forall k, Store.content_of (store cfg') k = Store.content_of (store cfg) k).
Proof.
  intros Hs Hr. unfold ShutdownGroup.
  assert (Hgen : forall k, k ≤ n cfg -> ∃ cfg', for_each (ShutdownServer gi) (seq 0 k) cfg = Some cfg' ∧
    shard_ok cfg' ∧ kept cfg cfg' ∧
    (forall gi' i', runs cfg' gi' i' <-> ¬ (gi' = gi ∧ i' < k) ∧ runs cfg gi' i') ∧
    (forall k, Store.content_of (store cfg') k = Store.content_of (store cfg) k)); [|by apply Hgen].
  induction k as [|k IH]; intros Hk.
  { exists cfg. split_and!; [done|done|apply kept_refl| |done]. intros gi' i'. naive_solver lia. }
  destruct IH as (cfg1 & Hf & Hs1 & K1 & U1 & C1); [lia|].
  destruct (shutdown_one cfg1 gi k Hs1) as (cfg2 & Hst & Hs2 & K2 & _ & U2 & C2 & _).
  { apply (kp_rows _ _ K1), Hr. lia. }
  { rewrite (kp_n _ _ K1). lia. }
  exists cfg2. split_and!.
  - rewrite seq_S, for_each_app, Hf. simpl. by rewrite Hst.
  - done.
  - by eapply kept_trans.
  - intros gi' i'. rewrite U2, U1. split.
    + intros (H1 & H2 & H3). split; [|done]. intros [-> Hi]. apply H2. split; [done|].
      assert (i' ≠ k) by congruence. lia.
    + intros [H1 H2]. split_and!; [|intros [-> Hi]; apply H1; split; [done|lia]|done].
      intros [= -> ->]. apply H1. split; [done|lia].
  - intros k'. by rewrite C2, C1.
Qed.

(** ** [make_config] *)

(** After the first [g] groups were started. *)
Record building (k : nat) (m : Z) cfg (g : nat) : Prop := {
  b_ok : shard_ok cfg;
  b_len : length (groups cfg) = g;
  b_n : n cfg = k;
  b_ctl : ctl_n cfg = 3;
  b_ngroups : ngroups cfg = 3;
  b_max : maxraftstate cfg = m;
  b_reliable : reliable (net cfg) = true;
  b_unused : forall gi i, g ≤ gi -> server_at (net cfg) (servername (100 + Z.of_nat gi) i) = None;
  b_rows : forall gi i, gi < g -> i < k -> has_rows cfg gi i ∧ runs cfg gi i;
  b_content : forall gi i, Store.content_of (store cfg) (gi, i) =
    if decide (gi < g ∧ i < k) then Some ([], []) else None
}.

Lemma building_start k m :
  ∃ cfg, StartCtrlerService fresh (empty_config m) = Some cfg ∧ building k m (set_size k cfg) 0.
Proof.
  destruct (StartCtrlerService_effect m) as (cfg & Hc & Hd & Ec & Hctl & Hno & Eg & Ecl & Est & Em & Er).
  exists cfg. split; [done|].
  assert (Hslots : forall s, end_at (set_size k cfg) s = None).
  { intros [gi i j|gi i j|ck j]; simpl; rewrite ?Eg, ?Ecl; [done|done|].
    rewrite lookup_empty. by case_decide. }
  split; cbn -[decide Store.content_of]; try done; try lia.
  - split; simpl; rewrite ?Eg; try done.
    + intros sn Hsn. split; [|by apply Hctl]. rewrite Ec in Hsn.
      apply list_elem_of_fmap in Hsn as (j & -> & _). by eexists.
    + intros s s' e. by rewrite Hslots.
    + intros s e. by rewrite Hslots.
    + rewrite Est. apply Store.empty_store_ok.
    + rewrite Est. intros gi i. simpl. rewrite lookup_empty. by intros [].
  - by rewrite Eg.
  - unfold ctl_n. simpl. by rewrite Ec.
  - intros gi i. rewrite Est. by rewrite decide_False by lia.
Qed.

(** An empty group. *)
Lemma extend_group cfg gg :
  shard_ok cfg -> gid gg = (100 + Z.of_nat (length (groups cfg)))%Z ->
  endnames gg = replicate (n cfg) None -> mendnames gg = replicate (ctl_n cfg) None ->
  (forall i, server_at (net cfg) (servername (gid gg) i) = None) ->
  shard_ok (set_groups (groups cfg ++ [gg]) cfg).
Proof.
  intros Hs Hgid He Hm Hno.
  assert (Hlk : forall gi gg', (groups cfg ++ [gg]) !! gi = Some gg' ->
    groups cfg !! gi = Some gg' ∨ (gi = length (groups cfg) ∧ gg' = gg)).
  { intros gi gg' [Hg|[Hge Hg]]%lookup_app_Some; [by left|right].
    destruct (gi - length (groups cfg)) eqn:E; [|done]. simplify_eq/=. split; [lia|done]. }
  assert (Hrow : forall k i, row (replicate k None) i = None).
  { intros k i. unfold row. by destruct (replicate k None !! i) as [o|] eqn:E; [apply lookup_replicate_1 in E as [-> _]|]. }
  assert (Hslots : forall s e, end_at (set_groups (groups cfg ++ [gg]) cfg) s = Some e ->
    end_at cfg s = Some e ∧ leads_to (set_groups (groups cfg ++ [gg]) cfg) s = leads_to cfg s).
  { intros [gi i j|gi i j|ck j] e; simpl; [| |done].
    - destruct ((groups cfg ++ [gg]) !! gi) as [gg'|] eqn:Hg; [|done]. simpl.
      apply Hlk in Hg as [->|[_ ->]]; [done|]. by rewrite He, Hrow.
    - destruct ((groups cfg ++ [gg]) !! gi) as [gg'|] eqn:Hg; [|done]. simpl.
      apply Hlk in Hg as [->|[_ ->]]; [done|]. by rewrite Hm, Hrow. }
  split; simpl; try apply Hs.
  - intros gi gg' [Hg|[-> ->]]%Hlk; [by apply (sh_groups _ Hs)|].
    rewrite He, Hm, !length_replicate. done.
  - intros gi gg' i es [Hg|[-> ->]]%Hlk; [by apply (sh_rows _ Hs gi gg')|].
    by rewrite He, Hm, !Hrow.
  - intros s s' e [H1 _]%Hslots [H2 _]%Hslots. by apply (sh_unique _ Hs s s' e).
  - intros s e [H1 H2]%Hslots. destruct (sh_ends _ Hs s e H1) as (A1 & A2 & A3).
    split_and!; [done|congruence|]. rewrite A3. by destruct s.
  - intros gi i gg' [Hg|[-> ->]]%Hlk Hi; [by apply (sh_servers _ Hs)|].
    rewrite Hno. split; [by intros []|]. intros [Hlt _]%(sh_running _ Hs). lia.
  - intros gi i [H1 H2]%(sh_running _ Hs). rewrite length_app. split; [lia|done].
Qed.

Lemma add_group_building k m cfg g :
  building k m cfg g -> k ≤ 3 ->
  ∃ cfg', add_group fresh g cfg = Some cfg' ∧ building k m cfg' (S g).
Proof.
  intros [Hs Hl Hn Hc Hng Hm Hrel Hun Hrw Hct] Hk. unfold add_group.
  set (gg := MkGroup _ _ _). set (cfg1 := set_groups _ _).
  assert (Hs1 : shard_ok cfg1).
  { apply extend_group; try done; [by rewrite Hl|]. intros i. by apply Hun. }
  destruct (start_group cfg1 g Hs1) as (cfg' & Hst & Hs' & K & R & U & C & V).
  { simpl. rewrite length_app. simpl. lia. }
  { simpl. unfold ctl_n in *. simpl. lia. }
  exists cfg'. split; [done|]. destruct K as [K1 K2 K3 K4 K5 K6 K7 K8]. simpl in *.
  split; try congruence.
  - rewrite K7, length_app. simpl. lia.
  - unfold ctl_n in *. congruence.
  - intros gi i Hgi. rewrite V; [apply Hun; lia|]. intros j [E _]%servername_inj. lia.
  - intros gi i Hgi Hi. rewrite U. destruct (decide (gi = g)) as [->|Hne].
    + split; [apply R; lia|]. left. lia.
    + destruct (Hrw gi i) as [H1 H2]; [lia|done|]. split; [|by right]. apply K8.
      destruct H1 as (gg' & es & ms & Hg' & R1 & R2). exists gg', es, ms. split_and!; [|done..].
      simpl. by apply lookup_app_l_Some.
  - intros gi i. rewrite C, !Hct, Hn. repeat case_decide; try done; lia.
Qed.

Lemma make_config_building k unreliable m :
  k ≤ 3 -> ∃ cfg, make_config fresh k unreliable m = Some
    (set_net (set_clerks ∅ (Z.of_nat (n cfg) + 1000) cfg) (Reliable (negb unreliable) (net cfg))) ∧
    building k m cfg 3.
Proof.
  intros Hk. unfold make_config. destruct (building_start k m) as (cfg0 & -> & B0).
  cbn [mbind option_bind for_each seq].
  destruct (add_group_building k m _ 0 B0 Hk) as (cfg1 & -> & B1). cbn [mbind option_bind].
  destruct (add_group_building k m cfg1 1 B1 Hk) as (cfg2 & -> & B2). cbn [mbind option_bind].
  destruct (add_group_building k m cfg2 2 B2 Hk) as (cfg3 & -> & B3). cbn [mbind option_bind].
  by exists cfg3.
Qed.

End Proof.
