(* ===== verification/ShardkvTheorems.v ===== *)
(** * What a test of [shardkv] can rely on

    The configuration that [make_config] makes, its operations, and what they do to the ends
    and persisters of the servers; joining groups. *)
From S2P Require Import Prelude Labrpc Store ShardkvConfig ShardkvProof.
From Stdlib Require Import Strings.Byte.
From stdpp Require Import pretty.
Import Labrpc Shardkv ShardkvOps.

Section Proof.
Context (fresh : nat -> string) `{!Inj (=) (=) fresh}.
Implicit Types (cfg : config).
Abbreviation shard_ok := (shard_ok fresh).
Abbreviation test_step := (test_step fresh).
Abbreviation runs cfg gi i := (is_Some (Store.running (store cfg) !! (gi, i))).

(** Three groups of three servers, all of which have been started. *)
Record test_ok cfg : Prop := {
  t_ok : shard_ok cfg;
  t_n : n cfg = 3;
  t_ctl : ctl_n cfg = 3;
  t_ngroups : ngroups cfg = 3 ∧ length (groups cfg) = 3;
  t_rows : forall gi i, gi < 3 -> i < 3 -> has_rows cfg gi i
}.

Lemma kept_test_ok cfg cfg' : test_ok cfg -> shard_ok cfg' -> kept cfg cfg' -> test_ok cfg'.
Proof.
  intros [H1 H2 H3 [H4 H5] H6] Hs [K1 K2 K3 K4 K5 K6 K7 K8].
  split; try congruence; [unfold ctl_n in *; congruence|by split; congruence|].
  intros gi i Hg Hi. by apply K8, H6.
Qed.

(** New ends that are in no slot of a server. *)
Lemma fresh_ends_ok srvs cfg :
  shard_ok cfg ->
  ∃ es cfg', fresh_ends fresh srvs cfg = Some (es, cfg') ∧ shard_ok cfg' ∧ kept cfg cfg' ∧
    groups cfg' = groups cfg ∧ store cfg' = store cfg ∧ length es = length srvs ∧
    servers (net cfg') = servers (net cfg) ∧ NoDup es ∧ (forall e, e ∈ es -> e ∉ ends (net cfg)) ∧
    opened es srvs (net cfg) (net cfg').
Proof.
  intros Hs. destruct (fresh_ends_same fresh srvs cfg (sh_drawn _ _ Hs))
    as (es & cfg' & Hf & [T1 T2 T3 T4 T5 T6 T7 T8] & Hd & _ & Hsv & Hl & Hnd & Hfr & Ho).
  exists es, cfg'.
  assert (Hend : forall s, end_at cfg' s = end_at cfg s).
  { intros [gi i j|gi i j|ck j]; simpl; unfold ctl_n; by rewrite ?T4, ?T6, ?T1. }
  assert (Hlead : forall s, leads_to cfg' s = leads_to cfg s).
  { intros [gi i j|gi i j|ck j]; simpl; by rewrite ?T4, ?T1. }
  assert (Hat : forall sn, server_at (net cfg') sn = server_at (net cfg) sn).
  { intros sn. unfold server_at. by rewrite Hsv. }
  split_and!; try done.
  - split; unfold ctl_n; rewrite ?T1, ?T2, ?T4, ?T5; fold (ctl_n cfg); try apply Hs; try done.
    + intros sn Hsn. rewrite Hat. by apply (sh_ctl _ _ Hs).
    + intros s s' e. rewrite !Hend. apply (sh_unique _ _ Hs).
    + intros s e. rewrite Hend, Hlead. intros He. destruct (sh_ends _ _ Hs s e He) as (A1 & A2 & A3).
      destruct (op_old _ _ _ _ Ho e) as [B1 B2]; [intros Hin; by apply (Hfr e)|].
      rewrite B1, B2, (op_ends _ _ _ _ Ho). split_and!; [set_solver|done|].
      rewrite A3. destruct s; simpl; by rewrite ?T5.
    + intros gi i gg Hg Hi. rewrite Hat. by apply (sh_servers _ _ Hs).
  - split; try congruence. intros gi i (gg & es' & ms & Hg & R1 & R2).
    exists gg, es', ms. split_and!; [congruence|done..].
Qed.

Lemma makeClient_ok ck cfg :
  shard_ok cfg -> ctl_n cfg ≤ n cfg -> clerks cfg !! ck = None ->
  ∃ cfg', makeClient fresh ck cfg = Some cfg' ∧ shard_ok cfg' ∧ n cfg' = n cfg ∧ ctl cfg' = ctl cfg ∧
    ngroups cfg' = ngroups cfg ∧ groups cfg' = groups cfg ∧ store cfg' = store cfg ∧
    (forall j, j < ctl_n cfg -> is_Some (end_at cfg' (ClerkCtl ck j))).
Proof.
  intros Hs Hn Hck. unfold makeClient. rewrite decide_True by done.
  destruct (fresh_ends_ok (ctl cfg) cfg Hs)
    as (es & cfg1 & -> & Hs1 & [K1 K2 K3 K4 K5 K6 K7 K8] & Hg & Hst & Hl & Hsv & Hnd & Hfr & Ho).
  simpl. set (rw := es ++ _). eexists. split; [done|].
  assert (Hrow : forall j e, j < ctl_n cfg -> rw !! j = Some e -> es !! j = Some e).
  { intros j e Hj. unfold rw. unfold ctl_n in Hj. by rewrite lookup_app_l by lia. }
  set (cfg' := set_clerks _ _ _).
  assert (Hslots : forall s e, end_at cfg' s = Some e ->
    (∃ j, s = ClerkCtl ck j ∧ es !! j = Some e) ∨ end_at cfg1 s = Some e).
  { intros [gi i j|gi i j|ck' j] e He; [by right..|]. simpl in He.
    unfold ctl_n in He. simpl in He. rewrite K2 in He. fold (ctl_n cfg) in He.
    case_decide as Hj; [|done]. destruct (decide (ck' = ck)) as [->|Hne].
    - left. rewrite lookup_insert_eq in He. exists j. split; [done|]. by apply Hrow.
    - right. rewrite lookup_insert_ne in He by done. simpl. unfold ctl_n. rewrite K2.
      fold (ctl_n cfg). by rewrite decide_True. }
  assert (Hnew : forall j e s, es !! j = Some e -> end_at cfg1 s ≠ Some e).
  { intros j e s Hj Hse. apply (Hfr e); [eauto with go|].
    assert (Hc : end_at cfg s = Some e).
    { destruct s; simpl in *; unfold ctl_n in *; by rewrite ?Hg, ?K4, ?K2 in *. }
    by apply (sh_ends _ _ Hs s e). }
  split_and!; try done.
  - split; try apply Hs1.
    + intros s s' e [(j & -> & J)|J]%Hslots [(j' & -> & J')|J']%Hslots.
      * f_equal. by apply (NoDup_lookup es j j' e).
      * by apply Hnew with (s := s') in J.
      * by apply Hnew with (s := s) in J'.
      * by apply (sh_unique _ _ Hs1 s s' e).
    + intros s e [(j & -> & J)|J]%Hslots; [|by apply (sh_ends _ _ Hs1 s e)].
      destruct (op_new _ _ _ _ Ho j e J) as (A1 & srv & A2 & A3). simpl. rewrite A1, A3, K2, A2.
      split_and!; [|done|done]. rewrite (op_ends _ _ _ _ Ho). apply elem_of_union_l, elem_of_list_to_set.
      eauto with go.
  - intros j Hj. simpl. unfold ctl_n. simpl. rewrite K2. fold (ctl_n cfg).
    rewrite decide_True by done. rewrite lookup_insert_eq. simpl.
    apply lookup_lt_is_Some_2. unfold rw. rewrite length_app. unfold ctl_n in Hj. lia.
Qed.

Lemma deleteClient_ok ck cfg : shard_ok cfg -> shard_ok (deleteClient ck cfg).
Proof.
  intros Hs. assert (Hle : forall s e, end_at (deleteClient ck cfg) s = Some e -> end_at cfg s = Some e).
  { intros [gi i j|gi i j|ck' j] e He; [done|done|]. simpl in He |- *. unfold ctl_n in *. simpl in He.
    case_decide; [|done]. destruct (decide (ck = ck')) as [<-|Hne].
    - by rewrite lookup_delete_eq in He.
    - by rewrite lookup_delete_ne in He. }
  split; try apply Hs.
  - intros s s' e H1%Hle H2%Hle. by apply (sh_unique _ _ Hs s s' e).
  - intros s e H1%Hle. by apply (sh_ends _ _ Hs s e).
Qed.

Lemma save_shard_ok x c cfg : shard_ok cfg -> shard_ok (set_store (Store.save x c (store cfg)) cfg).
Proof.
  intros Hs. assert (Hr : Store.running (Store.save x c (store cfg)) = Store.running (store cfg)).
  { unfold Store.save. by destruct (Store.instances (store cfg) !! x). }
  split; simpl; rewrite ?Hr; try apply Hs.
  - intros s e He. destruct (sh_ends _ _ Hs s e He) as (A1 & A2 & A3). split_and!; [done..|].
    rewrite A3. destruct s; simpl; by rewrite ?Hr.
  - apply Store.save_ok, Hs.
Qed.

(** Every operation with arguments in range succeeds and keeps the invariant. *)
Lemma shardkv_operation_preserves cfg o :
  test_ok cfg -> operation_ok cfg o ->
  ∃ cfg', do_operation fresh o cfg = Some cfg' ∧ test_ok cfg'.
Proof.
  intros Ht Ho. destruct Ht as [Hs Hn Hc [Hg Hl] Hr].
  assert (Ht : test_ok cfg) by by split.
  destruct o as [gi i|gi i|gi|gi|ck|ck|sn|x c]; simpl in Ho; cbn [do_operation].
  - destruct (start_one fresh cfg gi i Hs) as (cfg' & H1 & H2 & H3 & _); [lia..|].
    exists cfg'. split; [done|]. by eapply kept_test_ok.
  - destruct (shutdown_one fresh cfg gi i Hs) as (cfg' & H1 & H2 & H3 & _); [apply Hr; lia|lia|].
    exists cfg'. split; [done|]. by eapply kept_test_ok.
  - destruct (start_group fresh cfg gi Hs) as (cfg' & H1 & H2 & H3 & _); [lia..|].
    exists cfg'. split; [done|]. by eapply kept_test_ok.
  - destruct (stop_group fresh cfg gi Hs) as (cfg' & H1 & H2 & H3 & _); [intros; apply Hr; lia|].
    exists cfg'. split; [done|]. by eapply kept_test_ok.
  - destruct (makeClient_ok ck cfg Hs) as (cfg' & H1 & H2 & H3 & H4 & H5 & H6 & _); [lia|done|].
    exists cfg'. split; [done|]. split; unfold ctl_n in *; try congruence.
    + split; congruence.
    + intros gi i Hgi Hi. destruct (Hr gi i Hgi Hi) as (gg & es & ms & A1 & A2 & A3).
      exists gg, es, ms. split_and!; [congruence|done..].
  - eexists. split; [done|]. split; try done. by apply deleteClient_ok.
  - unfold make_end. destruct (fresh_ends_ok [sn] cfg Hs)
      as (es & cfg' & -> & H2 & H3 & _ & _ & Hlen & _). simpl.
    destruct es as [|e es]; [done|]. simpl. exists cfg'. split; [done|]. by eapply kept_test_ok.
  - eexists. split; [done|]. split; try done. by apply save_shard_ok.
Qed.


(** ** What a request over an end comes to *)

Lemma open_slot cfg s e sn x :
  shard_ok cfg -> end_at cfg s = Some e -> leads_to cfg s = Some sn -> active cfg s ->
  server_at (net cfg) sn = Some x ->
  locate (net cfg) e = Located (Target sn x (reliable (net cfg)) (longReordering (net cfg))).
Proof.
  intros Hs He Hl Ha Hx. destruct (sh_ends _ _ Hs s e He) as (_ & Hc & Hen).
  apply Hen in Ha. unfold locate, readEndnameInfo. simpl. rewrite Ha, Hc, Hl. simpl. by rewrite Hx.
Qed.

Lemma closed_slot cfg s e :
  shard_ok cfg -> end_at cfg s = Some e -> ¬ active cfg s -> locate (net cfg) e = Replying failed_reply.
Proof.
  intros Hs He Ha. destruct (sh_ends _ _ Hs s e He) as (_ & _ & Hen).
  unfold locate, readEndnameInfo. simpl. destruct (is_enabled (net cfg) e); [|done].
  destruct Ha. by apply Hen.
Qed.

Lemma gone_server cfg e sn :
  connections (net cfg) !! e = Some (Some sn) -> server_at (net cfg) sn = None ->
  locate (net cfg) e = Replying failed_reply.
Proof.
  intros Hc Hn. unfold locate, readEndnameInfo. simpl. rewrite Hc. simpl. rewrite Hn.
  by destruct (is_enabled _ _).
Qed.

Lemma group_at cfg gi : test_ok cfg -> gi < 3 -> ∃ gg, groups cfg !! gi = Some gg ∧ gid gg = (100 + Z.of_nat gi)%Z.
Proof.
  intros Ht Hg. destruct (lookup_lt_is_Some_2 (groups cfg) gi) as [gg Hgg].
  { by rewrite (proj2 (t_ngroups _ Ht)). }
  exists gg. split; [done|]. by apply (sh_groups _ _ (t_ok _ Ht) gi gg).
Qed.

Lemma server_registered cfg gi i :
  test_ok cfg -> gi < 3 -> i < 3 ->
  is_Some (server_at (net cfg) (servername (100 + Z.of_nat gi) i)) <-> runs cfg gi i.
Proof.
  intros Ht Hg Hi. destruct (group_at cfg gi Ht Hg) as (gg & Hgg & <-).
  apply (sh_servers _ _ (t_ok _ Ht)); [done|]. by rewrite (t_n _ Ht).
Qed.

Lemma shardkv_make_config_ok unreliable m :
  ∃ cfg, make_config fresh 3 unreliable m = Some cfg ∧ test_ok cfg ∧
    maxraftstate cfg = m ∧ reliable (net cfg) = negb unreliable ∧ clerks cfg = ∅ ∧
    (forall gi i, gi < 3 -> i < 3 -> runs cfg gi i) ∧
    (forall gi i, gi < 3 -> i < 3 -> Store.content_of (store cfg) (gi, i) = Some ([], [])).
Proof.
  destruct (make_config_building fresh 3 unreliable m ltac:(lia)) as (cfg & Hm & [B1 B2 B3 B4 B5 B6 B7 B8 B9 B10]).
  eexists. split; [exact Hm|]. split_and!; simpl; try done.
  - split; simpl; try done.
    + assert (Hd : shard_ok (set_clerks ∅ (Z.of_nat (n cfg) + 1000) cfg)).
      { assert (Hle : forall s e, end_at (set_clerks ∅ (Z.of_nat (n cfg) + 1000) cfg) s = Some e ->
          end_at cfg s = Some e).
        { intros [gi i j|gi i j|ck j] e; simpl; [done|done|]. rewrite lookup_empty. by case_decide. }
        split; try apply B1.
        - intros s s' e H1%Hle H2%Hle. by apply (sh_unique _ _ B1 s s' e).
        - intros s e H1%Hle. by apply (sh_ends _ _ B1 s e). }
      split; apply Hd.
    + intros gi i Hg Hi. destruct (B9 gi i Hg Hi) as [(gg & es & ms & H1 & H2 & H3) _]. by exists gg, es, ms.
  - intros gi i Hg Hi. by apply B9.
  - intros gi i Hg Hi. by rewrite B10, decide_True.
Qed.

Lemma shardkv_reachable_ok cfg0 cfg : test_ok cfg0 -> rtc test_step cfg0 cfg -> test_ok cfg.
Proof.
  intros H0 Hr. induction Hr as [cfg|cfg cfg1 cfg2 (o & Ho & Hd) _ IH]; [done|]. apply IH.
  destruct (shardkv_operation_preserves cfg o H0 Ho) as (cfg' & Hd' & H'). congruence.
Qed.

Lemma checks_all ks cfg : (forall k, k ∈ ks -> log_ok cfg k.1 k.2 = Some true) -> checks ks cfg = Some true.
Proof.
  induction ks as [|[gi i] ks IH]; intros Hk; simpl; [done|].
  pose proof (Hk (gi, i) ltac:(left)) as H1. simpl in H1. rewrite H1. simpl. apply IH. intros k Hin. apply Hk. by right.
Qed.

(** More than three servers per group: the table of ends to the controller is too short. *)
Lemma make_config_too_many k unreliable m : 3 < k -> make_config fresh k unreliable m = None.
Proof.
  intros Hk. unfold make_config. destruct (building_start fresh k m) as (cfg & -> & [B1 B2 B3 B4 B5 B6 B7 B8 B9 B10]).
  cbn [mbind option_bind for_each seq]. unfold add_group. set (gg := MkGroup _ _ _). set (cfg1 := set_groups _ _).
  assert (Hs1 : shard_ok cfg1).
  { apply extend_group; try done; [by rewrite B2|]. intros i. apply (B8 0 i). lia. }
  destruct (start_prefix fresh cfg1 0 3 Hs1) as (cfg2 & Hf & Hs2 & K & _).
  { simpl. rewrite length_app. simpl. lia. }
  { simpl in *. lia. }
  { unfold ctl_n in *. simpl in *. lia. }
  assert (Hn1 : n cfg1 = k) by done.
  unfold StartGroup. rewrite Hn1. replace k with (3 + S (k - 4)) by lia.
  rewrite seq_app, for_each_app, Hf. cbn [seq for_each mbind option_bind Nat.add].
  assert (Hnone : StartServer fresh 0 3 cfg2 = None); [|by rewrite Hnone].
  unfold StartServer. destruct (groups cfg2 !! 0) as [gg2|] eqn:Hg2; [|done]. simpl.
  rewrite decide_False; [done|]. intros (_ & Hlt & _).
  destruct (sh_groups _ _ Hs2 0 gg2 Hg2) as (_ & _ & Hl). unfold ctl_n in *.
  rewrite Hl, (kp_ctl _ _ K) in Hlt. simpl in Hlt. simpl in B4. lia.
Qed.

Lemma make_config_too_few k unreliable m ck :
  k < 3 -> ∃ cfg, make_config fresh k unreliable m = Some cfg ∧ makeClient fresh ck cfg = None.
Proof.
  intros Hk. destruct (make_config_building fresh k unreliable m ltac:(lia)) as (cfg & Hm & B).
  eexists. split; [exact Hm|]. unfold makeClient. rewrite decide_False; [done|].
  pose proof (b_ctl _ _ _ _ _ B) as H1. pose proof (b_n _ _ _ _ _ B) as H2.
  unfold ctl_n in *. simpl. lia.
Qed.


(** The map that [joinm] builds. *)
Lemma joined_lookup cfg (l : list group) : forall (acc : gmap Z (list string)) gd,
  foldl (λ m gg, <[gid gg := servername (gid gg) <$> seq 0 (n cfg)]> m) acc l !! gd =
    if decide (gd ∈ gid <$> l) then Some (servername gd <$> seq 0 (n cfg)) else acc !! gd.
Proof.
  induction l as [|gg l IH]; intros acc gd; cbn [foldl].
    - rewrite decide_False; [done|]. apply not_elem_of_nil.
    - rewrite IH, fmap_cons. destruct (decide (gd ∈ gid <$> l)) as [Hin|Hn].
      + rewrite (decide_True (P := gd ∈ gid gg :: _)); [done|by right].
      + destruct (decide (gid gg = gd)) as [->|Hne].
        * rewrite lookup_insert_eq, decide_True by left. done.
        * rewrite lookup_insert_ne by done. rewrite decide_False; [done|].
          intros [?|?]%elem_of_cons; [congruence|done].
Qed.

Lemma groups_at cfg gis :
  test_ok cfg -> Forall (λ gi, gi < 3) gis ->
  ∃ gs, mapM (λ gi, groups cfg !! gi) gis = Some gs ∧ gid <$> gs = (λ gi, (100 + Z.of_nat gi)%Z) <$> gis.
Proof.
  intros Ht Hgis. induction Hgis as [|gi gis Hg _ (gs & IH1 & IH2)]; [by exists []|].
  destruct (group_at cfg gi Ht Hg) as (gg & Hgg & Hgid). exists (gg :: gs). simpl.
  rewrite Hgg. simpl. rewrite IH1. simpl. split; [done|]. rewrite Hgid. f_equal. exact IH2.
Qed.

(** ** Theorems *)

(** [make_config] with three servers per group succeeds: every server reaches the servers of
    its own group and the three controllers, every persister is empty and passes [checklogs]
    (for limits that are not absurdly large); after any sequence of operations of the test, its
    servers and its clerks, every further operation with arguments in range succeeds.  With
    more than three servers per group [make_config] panics, and with fewer [makeClient]. *)
Theorem shardkv_make_config m unreliable :
  (∃ cfg, make_config fresh 3 unreliable m = Some cfg ∧
    (forall gi i j, gi < 3 -> i < 3 -> j < 3 -> ∃ e x, end_at cfg (Peer gi i j) = Some e ∧
       locate (net cfg) e = Located (Target (servername (100 + Z.of_nat gi) j) x (negb unreliable)
         (longReordering (net cfg)))) ∧
    (forall gi i j, gi < 3 -> i < 3 -> j < 3 -> ∃ e sn x, end_at cfg (Ctl gi i j) = Some e ∧
       ctl cfg !! j = Some sn ∧
       locate (net cfg) e = Located (Target sn x (negb unreliable) (longReordering (net cfg)))) ∧
    (forall gi i, gi < 3 -> i < 3 -> Store.content_of (store cfg) (gi, i) = Some ([], [])) ∧
    ((m < 2 ^ 60)%Z -> checklogs cfg = Some true) ∧
    forall cfg' o, rtc test_step cfg cfg' -> operation_ok cfg' o ->
      is_Some (do_operation fresh o cfg')) ∧
  (forall k, 3 < k -> make_config fresh k unreliable m = None) ∧
  (forall k ck, k < 3 -> ∃ cfg, make_config fresh k unreliable m = Some cfg ∧
     makeClient fresh ck cfg = None).
Proof.
  split_and!; [|intros; by apply make_config_too_many|intros; by apply make_config_too_few].
  destruct (shardkv_make_config_ok unreliable m) as (cfg & Hm & Ht & Hmax & Hrel & _ & Hrun & Hct).
  pose proof (t_ok _ Ht) as Hs. exists cfg. split; [done|]. split_and!; [| |done| |].
  - intros gi i j Hg Hi Hj. destruct (t_rows _ Ht gi i Hg Hi) as (gg & es & ms & Hgg & He & _).
    destruct (sh_rows _ _ Hs gi gg i es Hgg) as [Hl _]. specialize (Hl He). rewrite (t_n _ Ht) in Hl.
    destruct (lookup_lt_is_Some_2 es j ltac:(lia)) as [e Hej].
    destruct (proj2 (server_registered cfg gi j Ht Hg Hj) (Hrun gi j Hg Hj)) as [x Hx].
    assert (Hend : end_at cfg (Peer gi i j) = Some e) by (simpl; rewrite Hgg; simpl; by rewrite He).
    exists e, x. split; [done|]. rewrite <- Hrel. apply (open_slot cfg (Peer gi i j)); try done.
    + simpl. rewrite Hgg. simpl. by destruct (sh_groups _ _ Hs gi gg Hgg) as [-> _].
    + by apply Hrun.
  - intros gi i j Hg Hi Hj. destruct (t_rows _ Ht gi i Hg Hi) as (gg & es & ms & Hgg & _ & He).
    destruct (sh_rows _ _ Hs gi gg i ms Hgg) as [_ Hl]. specialize (Hl He). rewrite (t_ctl _ Ht) in Hl.
    destruct (lookup_lt_is_Some_2 ms j ltac:(lia)) as [e Hej].
    destruct (lookup_lt_is_Some_2 (ctl cfg) j) as [sn Hsn].
    { pose proof (t_ctl _ Ht) as Hc. unfold ctl_n in Hc. lia. }
    destruct (sh_ctl _ _ Hs sn) as [_ [x Hx]]; [eauto with go|].
    exists e, sn, x. split; [simpl; rewrite Hgg; simpl; by rewrite He|]. split; [done|].
    rewrite <- Hrel. apply (open_slot cfg (Ctl gi i j)); try done.
    + simpl. rewrite Hgg. simpl. by rewrite He.
    + by apply Hrun.
  - intros Hmm. unfold checklogs. apply checks_all. intros [gi i] Hin.
    apply list_elem_of_bind in Hin as (gi' & Hin & Hgi).
    apply list_elem_of_fmap in Hin as (i' & [= -> ->] & Hi).
    destruct (t_ngroups _ Ht) as [Hng _]. rewrite Hng in Hgi. rewrite (t_n _ Ht) in Hi.
    apply elem_of_seq in Hgi, Hi. unfold log_ok. simpl. rewrite Hct by lia. simpl. rewrite Hmax.
    rewrite !decide_False; [done|lia|]. intros [H1 H2]. rewrite signed_small in H2; lia.
  - intros cfg' o Hr Ho. destruct (shardkv_operation_preserves cfg' o) as (cfg2 & -> & _);
      [by apply (shardkv_reachable_ok cfg)|done|by eexists].
Qed.

(** C29: shutting a server down in a configuration that a test can reach closes the ends that
    [StartServer] made for it and cuts every end that leads to it, keeps what its persister
    holds, whatever any instance saves later, and leaves every other end as it is: those of
    other servers and of clerks, but also those that the server itself made with
    [make_end], over which it can still send. *)
Theorem shardkv_shutdown cfg0 cfg gi i unreliable m :
  make_config fresh 3 unreliable m = Some cfg0 -> rtc test_step cfg0 cfg -> gi < 3 -> i < 3 ->
  ∃ cfg', ShutdownServer gi i cfg = Some cfg' ∧
    (forall j e, end_at cfg (Peer gi i j) = Some e ∨ end_at cfg (Ctl gi i j) = Some e ->
       locate (net cfg') e = Replying failed_reply) ∧
    (forall e, connections (net cfg) !! e = Some (Some (servername (100 + Z.of_nat gi) i)) ->
       locate (net cfg') e = Replying failed_reply) ∧
    (forall e sn, connections (net cfg) !! e = Some (Some sn) -> sn ≠ servername (100 + Z.of_nat gi) i ->
       (forall j, end_at cfg (Peer gi i j) ≠ Some e ∧ end_at cfg (Ctl gi i j) ≠ Some e) ->
       is_enabled (net cfg') e = is_enabled (net cfg) e ∧
       connections (net cfg') !! e = connections (net cfg) !! e) ∧
    (forall k, Store.content_of (store cfg') k = Store.content_of (store cfg) k) ∧
    (forall x c, Store.content_of (Store.save x c (store cfg')) (gi, i) =
       Store.content_of (store cfg) (gi, i)).
Proof.
  intros Hm Hr Hg Hi. destruct (shardkv_make_config_ok unreliable m) as (cfg1 & Hm' & Ht0 & _).
  assert (cfg1 = cfg0) as -> by congruence. pose proof (shardkv_reachable_ok cfg0 cfg Ht0 Hr) as Ht.
  pose proof (t_ok _ Ht) as Hs.
  destruct (shutdown_one fresh cfg gi i Hs) as (cfg' & Hsd & Hs' & Hk & Hgr & Hrun & Hct & Hcn & Hen).
  { by apply (t_rows _ Ht). }
  { by rewrite (t_n _ Ht). }
  pose proof (kept_test_ok _ _ Ht Hs' Hk) as Ht'.
  assert (Hdead : ¬ runs cfg' gi i) by (rewrite Hrun; intros [H1 _]; by apply H1).
  exists cfg'. split_and!; [done| | | |done|].
  - intros j e He. unfold locate, readEndnameInfo. simpl.
    destruct (is_enabled (net cfg') e) eqn:E; [|done]. apply Hen in E as [_ E].
    destruct (E j) as [E1 E2]. by destruct He.
  - intros e He. apply (gone_server cfg' e (servername (100 + Z.of_nat gi) i)); [by rewrite Hcn|].
    destruct (server_at (net cfg') _) eqn:E; [|done]. destruct Hdead.
    apply (server_registered cfg' gi i Ht' Hg Hi). rewrite E. by eexists.
  - intros e sn _ _ Hno. split; [|by rewrite Hcn]. apply eq_true_iff_eq. rewrite Hen. naive_solver.
  - intros x c. rewrite Store.save_isolated; [apply Hct|apply Hs'|]. intros E. apply Hdead. by rewrite E.
Qed.

(** Shutting a whole group down and starting it again, with anything that servers save in
    between, brings back every persister of the group as it was, and its servers run and are
    registered. *)
Theorem shardkv_group_restart cfg0 cfg gi unreliable m :
  make_config fresh 3 unreliable m = Some cfg0 -> rtc test_step cfg0 cfg -> gi < 3 ->
  ∃ cfg', ShutdownGroup gi cfg = Some cfg' ∧
    (forall i e, i < 3 -> connections (net cfg') !! e = Some (Some (servername (100 + Z.of_nat gi) i)) ->
       locate (net cfg') e = Replying failed_reply) ∧
    forall x c, ∃ cfg2, StartGroup fresh gi (set_store (Store.save x c (store cfg')) cfg') = Some cfg2 ∧
      forall i, i < 3 -> runs cfg2 gi i ∧
        is_Some (server_at (net cfg2) (servername (100 + Z.of_nat gi) i)) ∧
        Store.content_of (store cfg2) (gi, i) =
          Some (default ([], []) (Store.content_of (store cfg) (gi, i))).
Proof.
  intros Hm Hr Hg. destruct (shardkv_make_config_ok unreliable m) as (cfg1 & Hm' & Ht0 & _).
  assert (cfg1 = cfg0) as -> by congruence. pose proof (shardkv_reachable_ok cfg0 cfg Ht0 Hr) as Ht.
  destruct (stop_group fresh cfg gi (t_ok _ Ht)) as (cfg' & Hst & Hs' & Hk & Hrun & Hct).
  { intros i Hi. rewrite (t_n _ Ht) in Hi. by apply (t_rows _ Ht). }
  pose proof (kept_test_ok _ _ Ht Hs' Hk) as Ht'. exists cfg'. split; [done|].
  assert (Hdead : forall i, i < 3 -> ¬ runs cfg' gi i).
  { intros i Hi. rewrite Hrun, (t_n _ Ht). intros [H1 _]. apply H1. done. }
  split.
  - intros i e Hi He. apply (gone_server cfg' e (servername (100 + Z.of_nat gi) i)); [done|].
    destruct (server_at (net cfg') _) eqn:E; [|done]. destruct (Hdead i Hi).
    apply (server_registered cfg' gi i Ht' Hg Hi). rewrite E. by eexists.
  - intros x c. set (cfg1 := set_store _ cfg').
    assert (Hs1 : shard_ok cfg1) by by apply save_shard_ok.
    assert (Ht1 : test_ok cfg1) by (destruct Ht'; by split).
    destruct (start_group fresh cfg1 gi Hs1) as (cfg2 & Hs2 & Hok2 & Hk2 & _ & Hrun2 & Hct2 & _).
    { rewrite (proj2 (t_ngroups _ Ht1)). done. }
    { rewrite (t_n _ Ht1), (t_ctl _ Ht1). done. }
    pose proof (kept_test_ok _ _ Ht1 Hok2 Hk2) as Ht2. rewrite (t_n _ Ht1) in Hrun2, Hct2.
    exists cfg2. split; [done|]. intros i Hi.
    assert (Hru : runs cfg2 gi i) by (apply Hrun2; by left). split_and!; [done|by apply server_registered|].
    rewrite Hct2, decide_True by done. unfold cfg1. simpl.
    rewrite Store.save_isolated; [by rewrite Hct|apply Hs'|]. intros E. apply (Hdead i Hi). by rewrite E.
Qed.

(** What [join] tells the controller leads back to the servers: the list of a joining group
    has the names of its three servers, and an end that a clerk or a server makes with
    [make_end] for such a name reaches that server if it runs, and no other. *)
Theorem shardkv_join_routes cfg0 cfg gis unreliable m :
  make_config fresh 3 unreliable m = Some cfg0 -> rtc test_step cfg0 cfg ->
  Forall (λ gi, gi < 3) gis ->
  ∃ groups, joinm gis cfg = Some groups ∧ leavem gis cfg = Some ((λ gi, (100 + Z.of_nat gi)%Z) <$> gis) ∧
    (forall gid, is_Some (groups !! gid) <-> ∃ gi, gi ∈ gis ∧ gid = (100 + Z.of_nat gi)%Z) ∧
    forall gi, gi ∈ gis -> ∃ names, groups !! (100 + Z.of_nat gi)%Z = Some names ∧ length names = 3 ∧
      forall i sn, names !! i = Some sn -> ∃ e cfg', make_end fresh sn cfg = Some (e, cfg') ∧
        locate (net cfg') e =
          match server_at (net cfg) (servername (100 + Z.of_nat gi) i) with
          | Some x => Located (Target (servername (100 + Z.of_nat gi) i) x (reliable (net cfg))
                        (longReordering (net cfg')))
          | None => Replying failed_reply
          end.
Proof.
  intros Hm Hr Hgis. destruct (shardkv_make_config_ok unreliable m) as (cfg1 & Hm' & Ht0 & _).
  assert (cfg1 = cfg0) as -> by congruence. pose proof (shardkv_reachable_ok cfg0 cfg Ht0 Hr) as Ht.
  destruct (groups_at cfg gis Ht Hgis) as (gs & Hgs & Hgid). unfold joinm. rewrite Hgs. simpl.
  eexists. split; [done|].
  assert (Hmem : forall gi, gi ∈ gis ->
    (100 + Z.of_nat gi)%Z ∈ (λ gi, (100 + Z.of_nat gi)%Z) <$> gis).
  { intros gi Hgi. apply list_elem_of_fmap. by exists gi. }
  split_and!.
  - unfold leavem. rewrite <- Hgid. clear -Hgs. revert gs Hgs.
    induction gis as [|gi gis IH]; intros gs Hgs; [by injection Hgs as <-|]. simpl in Hgs |- *.
    destruct (groups cfg !! gi) as [gg|]; [|done]. simpl in Hgs |- *.
    destruct (mapM (λ gi, groups cfg !! gi) gis) as [gs'|]; [|done]. injection Hgs as <-. by rewrite (IH gs').
  - intros gd. rewrite joined_lookup, Hgid, lookup_empty. case_decide as Hin.
    + split; [|by eexists]. intros _. apply list_elem_of_fmap in Hin as (gi & -> & Hin). eauto.
    + split; [by intros []|]. intros (gi & Hgi & ->). destruct Hin. by apply Hmem.
  - intros gi Hgi. rewrite joined_lookup, Hgid, decide_True by (by apply Hmem).
    eexists. split; [done|]. rewrite (t_n _ Ht). split; [by rewrite length_fmap, length_seq|].
    intros i sn Hsn. apply list_lookup_fmap_Some in Hsn as (i' & -> & Hi').
    apply lookup_seq in Hi' as [-> _]. simpl. unfold make_end.
    destruct (fresh_ends_ok [servername (100 + Z.of_nat gi) i] cfg (t_ok _ Ht))
      as (es & cfg' & -> & _ & Hk & _ & _ & Hl & Hsv & _ & _ & Ho). simpl.
    destruct es as [|e es]; [done|]. simpl. exists e, cfg'. split; [done|].
    destruct (op_new _ _ _ _ Ho 0 e eq_refl) as (He & srv & Hsrv & Hc). simpl in Hsrv. simplify_eq.
    unfold locate, readEndnameInfo. simpl. rewrite He, Hc. simpl.
    assert (Hat : server_at (net cfg') (servername (100 + Z.of_nat gi) i) =
      server_at (net cfg) (servername (100 + Z.of_nat gi) i)) by (unfold server_at; by rewrite Hsv).
    rewrite Hat, (kp_reliable _ _ Hk). by destruct (server_at _ _).
Qed.

End Proof.

(** ** Examples *)
Module ShardDemo.

Definition names (k : nat) : string := "r" +:+ pretty k.

#[global] Instance names_inj : Inj (=) (=) names.
Proof. intros i j He. apply (inj pretty). by injection He. Qed.

Definition cfg0 : config := default (empty_config 1000) (make_config names 3 true 1000).

Lemma cfg0_made : make_config names 3 true 1000 = Some cfg0.
Proof.
  destruct (shardkv_make_config_ok names true 1000) as (cfg & Hm & _). unfold cfg0. rewrite Hm. reflexivity.
Qed.

(** Group 1 without its server 2. *)
Definition cfg1 : config := default cfg0 (ShutdownServer 1 2 cfg0).

Lemma cfg1_reached : rtc (test_step names) cfg0 cfg1.
Proof.
  destruct (shardkv_make_config_ok names true 1000) as (cfg & Hm & Ht & _).
  assert (cfg = cfg0) as -> by (unfold cfg0; rewrite Hm; reflexivity).
  assert (Ho : operation_ok cfg0 (Shutdown 1 2)).
  { simpl. rewrite (proj1 (t_ngroups _ _ Ht)), (t_n _ _ Ht). lia. }
  destruct (shardkv_operation_preserves names cfg0 _ Ht Ho) as (cfg' & Hd & _).
  apply rtc_once. exists (Shutdown 1 2). split; [exact Ho|]. unfold cfg1. simpl in Hd |- *.
  rewrite Hd. reflexivity.
Qed.

End ShardDemo.
Import ShardDemo.

Lemma shardkv_make_config_witness :
  (∃ cfg, make_config names 3 true 1000 = Some cfg ∧ checklogs cfg = Some true) ∧
  make_config names 4 true 1000 = None.
Proof.
  destruct (shardkv_make_config names 1000 true) as ((cfg & Hm & _ & _ & _ & Hc & _) & Hmany & _).
  split; [exists cfg; split; [exact Hm|apply Hc; lia]|apply Hmany; lia].
Defined.

Lemma shardkv_shutdown_witness :
  ∃ cfg', ShutdownServer 0 1 cfg1 = Some cfg' ∧ Store.content_of (store cfg') (1, 2) = Some ([], []).
Proof.
  destruct (shardkv_shutdown names cfg0 cfg1 0 1 true 1000 cfg0_made cfg1_reached)
    as (cfg' & Hs & _ & _ & _ & Hc & _); [lia|lia|].
  exists cfg'. split; [exact Hs|]. etrans; [apply Hc|]. vm_compute. reflexivity.
Defined.

Lemma shardkv_group_restart_witness :
  ∃ cfg', ShutdownGroup 1 cfg1 = Some cfg' ∧
    ∃ cfg2, StartGroup names 1 (set_store (Store.save 3 ([Byte.x01], []) (store cfg')) cfg') = Some cfg2 ∧
      Store.content_of (store cfg2) (1, 2) = Some ([], []).
Proof.
  destruct (shardkv_group_restart names cfg0 cfg1 1 true 1000 cfg0_made cfg1_reached)
    as (cfg' & Hs & _ & Hst); [lia|].
  exists cfg'. split; [exact Hs|]. destruct (Hst 3 ([Byte.x01], [])) as (cfg2 & Hg & Hall).
  exists cfg2. split; [exact Hg|]. destruct (Hall 2) as (_ & _ & Hc); [lia|].
  etrans; [exact Hc|]. vm_compute. reflexivity.
Defined.

Lemma shardkv_join_routes_witness :
  ∃ groups, joinm [0; 2] cfg1 = Some groups ∧ leavem [0; 2] cfg1 = Some [100%Z; 102%Z] ∧
    is_Some (groups !! 102%Z).
Proof.
  destruct (shardkv_join_routes names cfg0 cfg1 [0; 2] true 1000 cfg0_made cfg1_reached)
    as (groups & Hj & Hl & Hk & _); [repeat constructor|].
  exists groups. split; [exact Hj|]. split; [exact Hl|]. apply Hk. exists 2.
  split; [right; left|reflexivity].
Defined.
