(* ===== verification/Durable.v ===== *)
(** * Remote calls while servers are shut down and started again

    The transition system of [Labrpc] in which the handlers of the servers act on the
    persisters of [Store], interleaved with the parts of [ShutdownServer] and [StartServer].
    The comment in [ShutdownServer] of [kvraft/config.go] says why their order matters: a
    server must not give a positive reply and persist the effect in a persister that has been
    superseded.  The theorem is that this does not happen. *)
From S2P Require Import Prelude Labrpc LabrpcProof Mesh KvConfig Store KvServers.
From Stdlib Require Import Strings.Byte.
Import Labrpc KvServers.

Abbreviation content := (list byte * list byte)%type.
Abbreviation kvstore := (@Store.store nat _ _).

(** What instance [x] has persisted. *)
Definition held (x : nat) (st : kvstore) : option content :=
  i ← Store.instances st !! x; Store.pheap st !! Store.persister i.

Module Durable.
Section Durable.
Context {Arg Rep ArgType : Type}.
Context (decode : ArgType -> list byte -> Arg) (encode : Rep -> list byte).

(** The services of a server and their methods: what a method does to the content of the
    persister, and its reply. *)
Context (code : list (string * list (string * (content -> Arg -> content * Rep)))).

Abbreviation world := (@world Mesh.name _ _ kvstore Arg Rep ArgType).
Abbreviation act := (@act Mesh.name _ _ kvstore Arg Rep ArgType decode encode).
Abbreviation server := (@Server kvstore Arg Rep).
Abbreviation call := (@call Mesh.name ArgType).

(** A method of instance [x]. *)
Definition persisting (x : nat) (f : content -> Arg -> content * Rep) (st : kvstore) (a : Arg) :
    kvstore * Rep :=
  let '(c, r) := f (default ([], []) (held x st)) a in (Store.save x c st, r).

(** [MakeService] for each service, [MakeServer], [AddService]. *)
Definition make_server (x : nat) : server :=
  foldl AddService MakeServer
    ((λ svc, MakeService svc.1 ((λ m, Method m.1 "" 3 true 0 (persisting x m.2)) <$> svc.2)) <$> code).

(** [log] records what the persister of the instance held when the handler of a call had
    finished, for the specification only; [todo] is what remains of the operation in which
    the goroutine of the test is. *)
Record state := State {
  cl : cluster;
  listens : bool;
  objects : gmap nat server;
  requests : list call;
  crash : bool;
  ran : list (nat * nat * replyMsg);
  todo : list part;
  log : list (nat * nat * content)
}.

Definition world_of (s : state) : world :=
  World (KvConfig.net (mesh (cl s))) (listens s) (objects s) (store (cl s)) (requests s) (crash s)
    (ran s).

Definition put (w : world) (s : state) : state :=
  State (with_store (with_mesh (cl s) (KvConfig.set_net (mesh (cl s)) (net w))) (app w))
    (listening w) (heap w) (calls w) (crashed w) (executed w) (todo s) (log s).

Definition set_todo (ps : list part) (s : state) : state :=
  State (cl s) (listens s) (objects s) (requests s) (crash s) (ran s) ps (log s).

Definition add_log (e : nat * nat * content) (s : state) : state :=
  State (cl s) (listens s) (objects s) (requests s) (crash s) (ran s) (todo s) (log s ++ [e]).

(** The server object that is made for a new instance. *)
Definition new_objects (p : part) (s : state) : gmap nat server :=
  match p with
  | Launch _ _ => <[nservers (cl s) := make_server (nservers (cl s))]> (objects s)
  | _ => objects s
  end.

(** "If restart servers, first call ShutdownServer" *)
Definition begins (s : state) (ps : list part) : Prop :=
  (∃ i, ps = ShutdownServer_parts i) ∨
  (∃ i names, ps = StartServer_parts i names ∧
     server_at (KvConfig.net (mesh (cl s))) (inr i) = None).

Section Steps.
Context (R : relation content).    (* what a server can do to its persister *)

Inductive dact (s : state) : state -> Prop :=
(* the network and its callers, and what the test does to the ends *)
| D_network w : act (world_of s) w -> app w = store (cl s) -> executed w = ran s ->
    servers (net w) = servers (KvConfig.net (mesh (cl s))) ->
    (forall x, services <$> heap w !! x = services <$> objects s !! x) ->
    dact s (put w s)
(* a handler *)
| D_handler w i x r : act (world_of s) w -> executed w = ran s ++ [(i, x, r)] ->
    dact s (add_log (i, x, default ([], []) (held x (app w))) (put w s))
(* an instance saves of its own accord, dead or alive *)
| D_saves x c c' : held x (store (cl s)) = Some c -> R c c' ->
    dact s (put (World (net (world_of s)) (listens s) (objects s)
      (Store.save x c' (store (cl s))) (requests s) (crash s) (ran s)) s)
(* the goroutine of the test *)
| D_begin ps : todo s = [] -> begins s ps -> dact s (set_todo ps s)
| D_part p ps cl' : todo s = p :: ps -> do_part p (cl s) = Some cl' ->
    dact s (State cl' (listens s) (new_objects p s) (requests s) (crash s) (ran s) ps (log s)).

Definition dstep (s s' : state) : Prop := crash s = false ∧ dact s s'.

End Steps.

(** A test begins with no server. *)
Definition dinit (N : nat) (maxraftstate : Z) : state :=
  State (empty_cluster N maxraftstate) true ∅ [] false [] [] [].

End Durable.
End Durable.
