(* ===== verification/DurableProof.v ===== *)
(** * What was acknowledged survives shutdowns

    The invariant of [Durable], and the theorem about positive replies. *)
From S2P Require Import Prelude Labrpc LabrpcProof Mesh KvConfig Store KvServers Durable.
From Stdlib Require Import Strings.Byte.
Import Labrpc KvServers Durable.

Section Growth.
Context (R : relation content) `{!PreOrder R}.
Implicit Types (st : kvstore).

(** Whatever a slot or an instance has, it goes on having. *)
Record grows st st' : Prop := {
  g_held : forall x h, held x st = Some h -> ∃ h', held x st' = Some h' ∧ R h h';
  g_content : forall k h, Store.content_of st k = Some h ->
    ∃ h', Store.content_of st' k = Some h' ∧ R h h';
  g_owner : forall x i, Store.instances st !! x = Some i ->
    ∃ i', Store.instances st' !! x = Some i' ∧ Store.owner i' = Store.owner i ∧
      Store.persister i' = Store.persister i
}.

(** Every pointer to a persister is valid. *)
Record alloc_ok st : Prop := {
  al_heap : forall a, is_Some (Store.pheap st !! a) -> a < Store.pnext st;
  al_saved : forall k p, Store.saved st !! k = Some p -> is_Some (Store.pheap st !! p);
  al_inst : forall x i, Store.instances st !! x = Some i ->
    is_Some (Store.pheap st !! Store.persister i)
}.

(** Instance [x] runs on the persister of slot [k]. *)
Definition serves st (k x : nat) : Prop :=
  ∃ i, Store.instances st !! x = Some i ∧ Store.owner i = k ∧
    Store.saved st !! k = Some (Store.persister i).

Lemma grows_refl st : grows st st.
Proof. split; eauto. intros x h Hx. by exists h. intros k h Hk. by exists h. Qed.

Lemma serves_content st k x h :
  serves st k x -> held x st = Some h -> Store.content_of st k = Some h.
Proof.
  intros (i & Hi & _ & Hs) Hh. unfold held in Hh. rewrite Hi in Hh. unfold Store.content_of.
  by rewrite Hs.
Qed.

Lemma held_Some st x : alloc_ok st -> x < length (Store.instances st) -> is_Some (held x st).
Proof.
  intros Ha [i Hi]%lookup_lt_is_Some_2. unfold held. rewrite Hi. by apply (al_inst _ Ha x).
Qed.

(** *** A save *)
Lemma save_effect x c c' st :
  held x st = Some c -> R c c' ->
  grows st (Store.save x c' st) ∧ held x (Store.save x c' st) = Some c' ∧
  Store.instances (Store.save x c' st) = Store.instances st ∧
  Store.saved (Store.save x c' st) = Store.saved st ∧
  (alloc_ok st -> alloc_ok (Store.save x c' st)).
Proof.
  unfold held. intros Hc Hr. unfold Store.save.
  destruct (Store.instances st !! x) as [i|] eqn:Hi; [|done]. simpl in *. rewrite Hi.
  assert (Hg : forall p h, Store.pheap st !! p = Some h ->
    ∃ h', <[Store.persister i := c']> (Store.pheap st) !! p = Some h' ∧ R h h').
  { intros p h Hp. destruct (decide (Store.persister i = p)) as [<-|Hne].
    - exists c'. rewrite lookup_insert_eq. split; [done|]. by simplify_eq.
    - exists h. by rewrite lookup_insert_ne. }
  split_and!; simpl; [split|by rewrite lookup_insert_eq|done|done|]; simpl.
  - intros y h. unfold held. simpl. destruct (Store.instances st !! y); [|done]. apply Hg.
  - intros k h. unfold Store.content_of. simpl. destruct (Store.saved st !! k); [|done]. apply Hg.
  - intros y j Hj. eauto.
  - intros [H1 H2 H3]. assert (Hs : forall p, is_Some (Store.pheap st !! p) ->
      is_Some (<[Store.persister i := c']> (Store.pheap st) !! p)).
    { intros p [h Hp]. destruct (Hg p h Hp) as (h' & -> & _). by eexists. }
    split; simpl; [|eauto|eauto].
    intros a [<-|[_ Ha]]%lookup_insert_is_Some; [|by apply H1]. apply H1. by apply (H3 x).
Qed.

(** *** A new persister *)
Lemma set_persister_effect k c st :
  alloc_ok st -> (forall h, Store.content_of st k = Some h -> h = c) ->
  let st' := Store.set_persister k c st in
  alloc_ok st' ∧ grows st st' ∧ forall k' x, k' ≠ k -> serves st k' x -> serves st' k' x.
Proof.
  intros Ha Hk st'.
  assert (Hp : forall p h, Store.pheap st !! p = Some h -> Store.pheap st' !! p = Some h).
  { intros p h Hp. simpl. rewrite lookup_insert_ne; [done|].
    assert (p < Store.pnext st) by (apply (al_heap _ Ha); by rewrite Hp). lia. }
  split_and!; [split; simpl|split|].
  - intros a [<-|[_ Hs]]%lookup_insert_is_Some; [lia|]. apply (al_heap _ Ha) in Hs. lia.
  - intros k' p [[_ <-]|[_ Hs]]%lookup_insert_Some; [by rewrite lookup_insert_eq|].
    destruct (al_saved _ Ha k' p Hs) as [h Hh]. exists h. by apply Hp.
  - intros x i Hi. destruct (al_inst _ Ha x i Hi) as [h Hh]. exists h. by apply Hp.
  - intros x h. unfold held. simpl. destruct (Store.instances st !! x) as [i|]; [|done]. simpl.
    intros Hh. exists h. split; [by apply Hp|done].
  - intros k' h Hh. exists h. split; [|done]. destruct (decide (k = k')) as [<-|Hne].
    + unfold Store.content_of. simpl. rewrite lookup_insert_eq. simpl. rewrite lookup_insert_eq.
      f_equal. symmetry. by apply Hk.
    + unfold Store.content_of in *. simpl. rewrite lookup_insert_ne by done.
      destruct (Store.saved st !! k') as [p|]; [|done]. by apply Hp.
  - intros x i Hi. by exists i.
  - intros k' x Hne (i & Hi & Ho & Hs). exists i. split_and!; [done..|]. simpl.
    by rewrite lookup_insert_ne.
Qed.

Lemma copy_saved_effect k st :
  alloc_ok st ->
  let st' := Store.copy_saved k st in
  alloc_ok st' ∧ grows st st' ∧ forall k' x, k' ≠ k -> serves st k' x -> serves st' k' x.
Proof.
  intros Ha. unfold Store.copy_saved. destruct (Store.content_of st k) as [c|] eqn:Hc.
  - apply set_persister_effect; [done|]. congruence.
  - split_and!; [done|apply grows_refl|done].
Qed.

Lemma copy_or_make_effect k st :
  alloc_ok st ->
  let st' := Store.copy_or_make k st in
  alloc_ok st' ∧ grows st st' ∧ forall k' x, k' ≠ k -> serves st k' x -> serves st' k' x.
Proof. intros Ha. apply set_persister_effect; [done|]. intros h ->. done. Qed.

(** *** Killing and launching *)
Lemma kill_effect k st :
  let st' := Store.kill_server k st in
  (alloc_ok st -> alloc_ok st') ∧ grows st st' ∧ forall k' x, serves st k' x -> serves st' k' x.
Proof.
  intros st'. destruct (Store.kill_server_rest k st) as (Hsv & Hph & Hpn & _).
  fold st' in Hsv, Hph, Hpn.
  assert (Hi : forall x i, Store.instances st !! x = Some i ->
    ∃ i', Store.instances st' !! x = Some i' ∧ Store.owner i' = Store.owner i ∧
      Store.persister i' = Store.persister i).
  { intros x i Hx. unfold st', Store.kill_server. destruct (Store.running st !! k) as [y|]; [|by eauto].
    simpl. destruct (decide (y = x)) as [->|Hne].
    - exists (Store.Kill i). by rewrite list_lookup_alter_eq, Hx.
    - exists i. by rewrite list_lookup_alter_ne. }
  split_and!; [|split|].
  - intros [H1 H2 H3]. split.
    + rewrite Hph, Hpn. done.
    + rewrite Hsv, Hph. done.
    + intros x i (i0 & Hx & -> & _)%Store.kill_server_lookup. rewrite Hph. by apply (H3 x).
  - intros x h. unfold held. destruct (Store.instances st !! x) as [i|] eqn:Hx; [|done].
    destruct (Hi x i Hx) as (i' & -> & _ & Hp). simpl. rewrite Hp, Hph. intros Hh. by exists h.
  - intros k' h. unfold Store.content_of. rewrite Hsv, Hph. intros Hh. by exists h.
  - done.
  - intros k' x (i & Hx & Ho & Hs). destruct (Hi x i Hx) as (i' & Hx' & Ho' & Hp').
    exists i'. rewrite Hsv, Hp'. split_and!; congruence.
Qed.

Lemma launch_effect k names st st' :
  alloc_ok st -> Store.launch k names st = Some st' ->
  alloc_ok st' ∧ grows st st' ∧ (forall k' x, serves st k' x -> serves st' k' x) ∧
  serves st' k (length (Store.instances st)) ∧
  length (Store.instances st') = S (length (Store.instances st)).
Proof.
  intros [H1 H2 H3]. unfold Store.launch. destruct (Store.saved st !! k) as [p|] eqn:Hp; [|done].
  simpl. intros [= <-].
  assert (Hi : forall x i, Store.instances st !! x = Some i ->
    (Store.instances st ++ [Store.MkInstance k names p false]) !! x = Some i).
  { intros x i Hx. by apply lookup_app_l_Some. }
  split_and!; [split; simpl; try done|split; simpl| | |].
  - intros x i [Hx|[_ Hx]]%lookup_app_Some; [by apply (H3 x)|].
    destruct (x - length (Store.instances st)); [|done]. simplify_eq/=. by apply (H2 k).
  - intros x h. unfold held. simpl. destruct (Store.instances st !! x) as [i|] eqn:Hx; [|done].
    rewrite (Hi x i Hx). intros Hh. by exists h.
  - intros k' h. unfold Store.content_of. simpl. intros Hh. by exists h.
  - intros x i Hx. exists i. auto.
  - intros k' x (i & Hx & Ho & Hs). exists i. auto.
  - exists (Store.MkInstance k names p false). simpl.
    by rewrite lookup_app_r, Nat.sub_diag by lia.
  - simpl. rewrite length_app. simpl. lia.
Qed.

End Growth.

Section Proof.
Context {Arg Rep ArgType : Type}.
Context (decode : ArgType -> list byte -> Arg) (encode : Rep -> list byte).
Context (code : list (string * list (string * (content -> Arg -> content * Rep)))).
Context (R : relation content) `{!PreOrder R}.

(** Methods only add to what their server has persisted. *)
Context (code_grows : forall svc m c a, svc ∈ code -> m ∈ svc.2 -> R c (m.2 c a).1).

Abbreviation state := (@state Arg Rep ArgType).
Abbreviation dstep := (dstep decode encode code R).
Abbreviation server := (@Server kvstore Arg Rep).
Abbreviation act := (@act Mesh.name _ _ kvstore Arg Rep ArgType decode encode).
Abbreviation world := (@world Mesh.name _ _ kvstore Arg Rep ArgType).
Implicit Types (s : state).

Lemma AddService_lookup (rs : server) svcs nm svc :
  services (foldl AddService rs svcs) !! nm = Some svc ->
  services rs !! nm = Some svc ∨ svc ∈ svcs.
Proof.
  revert rs. induction svcs as [|sv svcs IH]; intros rs; simpl; [by left|].
  intros [Hs|Hs]%IH; [|by right; right]. simpl in Hs.
  apply lookup_insert_Some in Hs as [[_ <-]|[_ Hs]]; [right; left|by left].
Qed.

Lemma MakeService_lookup nm (ms : list (@method kvstore Arg Rep)) m f :
  methods (MakeService nm ms) !! m = Some f -> ∃ me, me ∈ ms ∧ Func me = f.
Proof.
  unfold MakeService. simpl.
  assert (Hg : forall acc : gmap string _, foldl (λ acc m, if suitable m then <[mname m := Func m]> acc else acc) acc ms !! m = Some f ->
    acc !! m = Some f ∨ ∃ me, me ∈ ms ∧ Func me = f).
  { induction ms as [|me ms IH]; intros acc; simpl; [by left|].
    intros [Ha|(me' & Hin & <-)]%IH; [|right; exists me'; split; [by right|done]].
    destruct (suitable me); [|by left].
    apply lookup_insert_Some in Ha as [[_ <-]|[_ Ha]]; [right; exists me; split; [left|done]|by left]. }
  intros [Ha|Ha]%Hg; [|done]. by rewrite lookup_empty in Ha.
Qed.

(** What a dispatch to the server of instance [x] does. *)
Lemma dispatch_effect (rs rs' : server) x (rq : @reqMsg Mesh.name ArgType) st st' r :
  services rs = services (make_server code x) ->
  server_dispatch decode encode rs rq st = (rs', Replied (st', r)) ->
  services rs' = services rs ∧
  ∃ c', st' = Store.save x c' st ∧ R (default ([], []) (held x st)) c'.
Proof.
  intros Hs. unfold server_dispatch. destruct (split_method (svcMeth rq)) as [[sv me]|]; [|done].
  simpl. rewrite Hs. destruct (services (make_server code x) !! sv) as [service|] eqn:Hsv; [|done].
  unfold service_dispatch. destruct (methods service !! me) as [f|] eqn:Hm; [|done].
  destruct (f st _) as [st1 rep] eqn:Hf. intros [= <- <- <-]. simpl. split; [done|].
  unfold make_server in Hsv. apply AddService_lookup in Hsv as [Hsv|Hsv].
  { simpl in Hsv. by rewrite lookup_empty in Hsv. }
  apply list_elem_of_fmap in Hsv as (svc & -> & Hin).
  apply MakeService_lookup in Hm as (me' & Hme & <-).
  apply list_elem_of_fmap in Hme as (m & -> & Hm). simpl in Hf. unfold persisting in Hf.
  set (a := decode _ _) in Hf. pose proof (code_grows svc m (default ([], []) (held x st)) a Hin Hm) as Hg.
  destruct (m.2 _ a) as [c' rep']. simpl in Hg. simplify_eq. by exists c'.
Qed.

(** ** Invariant *)
Abbreviation net_of s := (KvConfig.net (mesh (cl s))).
Abbreviation st_of s := (store (cl s)).

Definition gone s (i : nat) : Prop := server_at (net_of s) (inr i) = None.

(** Where the goroutine of the test can be. *)
Inductive phase s : list part -> Prop :=
| ph_idle : phase s []
| ph_shutdown i : phase s (ShutdownServer_parts i)
| ph_delete i : phase s [Delete i; CopySaved i; KillServer i]
| ph_copy i : gone s i -> phase s [CopySaved i; KillServer i]
| ph_kill i : phase s [KillServer i]
| ph_start i names : gone s i -> phase s (StartServer_parts i names)
| ph_make i names : gone s i -> phase s [CopyOrMake i; Launch i names; Add i]
| ph_launch i names : gone s i -> phase s [Launch i names; Add i]
| ph_add i x : nservers (cl s) = S x -> serves (st_of s) i x -> is_Some (objects s !! x) ->
    phase s [Add i].

(** The reply with which a call will return, once it is decided. *)
Definition decided (p : @proc Mesh.name) : option replyMsg :=
  match p with
  | Cleared _ r | Delayed r | Replying r | Returned r => if ok r then Some r else None
  | _ => None
  end.

Definition durable (st : kvstore) (x : nat) (c : content) : Prop :=
  ∃ i h, Store.instances st !! x = Some i ∧ Store.content_of st (Store.owner i) = Some h ∧ R c h.

Record dinv s : Prop := {
  d_winv : winv (world_of s);
  d_objects : forall x rs, objects s !! x = Some rs ->
    services rs = services (make_server code x) ∧ x < nservers (cl s);
  d_count : nservers (cl s) = length (Store.instances (st_of s));
  d_alloc : alloc_ok (st_of s);
  d_reg : forall sn x, server_at (net_of s) sn = Some x -> ∃ k, sn = inr k ∧ serves (st_of s) k x;
  d_ran : forall i x r, (i, x, r) ∈ ran s -> ∃ c, (i, x, c) ∈ log s;
  d_log : forall i x c, (i, x, c) ∈ log s ->
    (∃ r, (i, x, r) ∈ ran s) ∧ ∃ h, held x (st_of s) = Some h ∧ R c h;
  d_decided : forall i c r, requests s !! i = Some c -> decided (pc c) = Some r ->
    forall x h, (i, x, h) ∈ log s -> durable (st_of s) x h;
  d_phase : phase s (todo s)
}.

Lemma durable_grows st st' x c : grows R st st' -> durable st x c -> durable st' x c.
Proof.
  intros Hg (i & h & Hi & Hh & Hr). destruct (g_owner _ _ _ Hg x i Hi) as (i' & Hi' & Ho & _).
  rewrite <- Ho in Hh. destruct (g_content _ _ _ Hg _ h Hh) as (h' & Hh' & Hr').
  exists i', h'. split_and!; [done..|by etrans].
Qed.

Lemma log_grows st st' x c :
  grows R st st' -> (∃ h, held x st = Some h ∧ R c h) -> ∃ h, held x st' = Some h ∧ R c h.
Proof.
  intros Hg (h & Hh & Hr). destruct (g_held _ _ _ Hg x h Hh) as (h' & Hh' & Hr').
  exists h'. split; [done|by etrans].
Qed.

(** A step of the goroutine of the test. *)
Lemma harness_dinv s cl' objs ps :
  let s' := State cl' (listens s) objs (requests s) (crash s) (ran s) ps (log s) in
  dinv s -> winv (world_of s') ->
  (forall x rs, objs !! x = Some rs ->
     services rs = services (make_server code x) ∧ x < nservers cl') ->
  nservers cl' = length (Store.instances (store cl')) ->
  alloc_ok (store cl') -> grows R (st_of s) (store cl') ->
  (forall sn x, server_at (KvConfig.net (mesh cl')) sn = Some x ->
     ∃ k, sn = inr k ∧ serves (store cl') k x) ->
  phase s' ps -> dinv s'.
Proof.
  intros s' [Hw Ho Hc Ha Hr He Hl Hd Hp] Hw' Ho' Hc' Ha' Hg Hr' Hp'. split; simpl; try done.
  - intros i x c Hi. destruct (Hl i x c Hi) as [H1 H2]. split; [done|]. by eapply log_grows.
  - intros i c r Hi Hdc x h Hx. eapply durable_grows; [done|]. by eapply Hd.
Qed.

Lemma winv_harness w rn st :
  winv w -> (forall sn x, server_at rn sn = Some x -> is_Some (heap w !! x)) ->
  Labrpc.done rn = Labrpc.done (net w) ->
  winv (World rn (listening w) (heap w) st (calls w) (crashed w) (executed w) : world).
Proof.
  intros [H1 H2 H3 H4 H5 H6] Hs Hd. split; simpl; try done. rewrite Hd. done.
Qed.

Lemma mesh_disconnect_rest cfg i ks cfg' :
  KvConfig.disconnectUnlocked cfg i ks = Some cfg' ->
  servers (KvConfig.net cfg') = servers (KvConfig.net cfg) ∧
  Labrpc.done (KvConfig.net cfg') = Labrpc.done (KvConfig.net cfg).
Proof.
  unfold KvConfig.disconnectUnlocked. destruct (KvConfig.outgoing cfg i ks) as [out|]; [|done]. simpl.
  destruct (KvConfig.incoming cfg i ks 0) as [inc|]; [|done]. simpl. intros [= <-]. simpl.
  destruct (enable_all_rest inc false (enable_all out false (KvConfig.net cfg))) as (_ & -> & _).
  destruct (enable_all_rest out false (KvConfig.net cfg)) as (_ & -> & _).
  by rewrite !enable_all_done.
Qed.

Lemma make_ends_rest names j rn rn' :
  make_ends names j rn = Some rn' ->
  servers rn' = servers rn ∧ Labrpc.done rn' = Labrpc.done rn.
Proof.
  revert j rn. induction names as [|e names IH]; intros j rn; cbn [make_ends]; [by intros [= <-]|].
  unfold MakeEnd. case_decide; [done|]. simpl. intros [-> ->]%IH. done.
Qed.

(** Parts that change the network alone, or the persisters alone. *)
Lemma mesh_part s cfg ps :
  dinv s -> Labrpc.done (KvConfig.net cfg) = Labrpc.done (net_of s) ->
  (forall sn x, server_at (KvConfig.net cfg) sn = Some x ->
     server_at (net_of s) sn = Some x ∨
     ∃ k, sn = inr k ∧ serves (st_of s) k x ∧ is_Some (objects s !! x)) ->
  let s' := State (with_mesh (cl s) cfg) (listens s) (objects s) (requests s) (crash s) (ran s) ps
              (log s) in
  phase s' ps -> dinv s'.
Proof.
  intros Hs Hd Hsv s' Hp. apply harness_dinv; simpl; try done; try apply Hs.
  - apply (winv_harness (world_of s)); [apply Hs| |done]. simpl.
    intros sn x [Hx|(k & _ & _ & Hx)]%Hsv; [|done]. by apply (w_servers _ (d_winv _ Hs) sn).
  - apply grows_refl. apply _.
  - intros sn x [Hx|(k & -> & Hx & _)]%Hsv; [by apply (d_reg _ Hs)|by exists k].
Qed.

Lemma store_part s st ps :
  dinv s -> alloc_ok st -> grows R (st_of s) st ->
  length (Store.instances st) = length (Store.instances (st_of s)) ->
  (forall k x, server_at (net_of s) (inr k) = Some x -> serves (st_of s) k x -> serves st k x) ->
  let s' := State (with_store (cl s) st) (listens s) (objects s) (requests s) (crash s) (ran s) ps
              (log s) in
  phase s' ps -> dinv s'.
Proof.
  intros Hs Ha Hg Hl Hsv s' Hp. apply harness_dinv; simpl; try done; try apply Hs.
  - apply (winv_harness (world_of s)); [apply Hs| |done]. apply (w_servers _ (d_winv _ Hs)).
  - rewrite Hl. apply Hs.
  - intros sn x Hx. destruct (d_reg _ Hs sn x Hx) as (k & -> & Hk). exists k. split; [done|]. by apply Hsv.
Qed.

(** The new server object. *)
Lemma launch_part s i names st :
  dinv s -> Store.launch i names (st_of s) = Some st -> gone s i ->
  let s' := State (MkCluster (mesh (cl s)) st (S (nservers (cl s))) (maxraftstate (cl s))) (listens s)
              (<[nservers (cl s) := make_server code (nservers (cl s))]> (objects s))
              (requests s) (crash s) (ran s) [Add i] (log s) in
  dinv s'.
Proof.
  intros Hs Hl Hg s'.
  destruct (launch_effect R i names _ _ (d_alloc _ Hs) Hl) as (Ha & Hgr & Hsv & Hnew & Hlen).
  assert (Hno : objects s !! nservers (cl s) = None).
  { destruct (objects s !! nservers (cl s)) as [rs|] eqn:E; [|done].
    apply (d_objects _ Hs) in E as [_ E]. lia. }
  apply harness_dinv; simpl; try done.
  - pose proof (winv_harness (world_of s) (net_of s) st (d_winv _ Hs) (w_servers _ (d_winv _ Hs)) eq_refl) as Hw.
    assert (Hcnt : count (make_server code (nservers (cl s))) = 0%Z) by apply new_server_count.
    apply (set_heap_inv _ (nservers (cl s)) (make_server code (nservers (cl s))) (crash s)) in Hw;
      [exact Hw| |done].
    intros _. by rewrite Hcnt, no_dispatches.
  - intros x rs [[<- <-]|[_ Hx]]%lookup_insert_Some; [split; [done|lia]|].
    destruct (d_objects _ Hs x rs Hx). split; [done|lia].
  - rewrite Hlen. f_equal. apply Hs.
  - intros sn x Hx. destruct (d_reg _ Hs sn x Hx) as (k & -> & Hk). exists k. auto.
  - apply (ph_add _ i (nservers (cl s))); simpl; [done| |by rewrite lookup_insert_eq].
    by rewrite (d_count _ Hs).
Qed.

Lemma index_Some {A} c i (a b : A) : index c i a = Some b -> a = b.
Proof. unfold index. case_decide; [|done]. congruence. Qed.

Lemma kill_length k (st : kvstore) :
  length (Store.instances (Store.kill_server k st)) = length (Store.instances st).
Proof. unfold Store.kill_server. destruct (_ !! k); simpl; by rewrite ?length_alter. Qed.

Lemma copy_length k (st : kvstore) :
  length (Store.instances (Store.copy_saved k st)) = length (Store.instances st).
Proof. unfold Store.copy_saved. by destruct (Store.content_of st k). Qed.

Lemma part_dinv s p ps cl' :
  dinv s -> todo s = p :: ps -> do_part p (cl s) = Some cl' ->
  dinv (State cl' (listens s) (new_objects code p s) (requests s) (crash s) (ran s) ps (log s)).
Proof.
  intros Hs Ht Hd. pose proof (d_phase _ Hs) as Hp. rewrite Ht in Hp.
  assert (Hgone : forall i k x, gone s i -> server_at (net_of s) (inr k) = Some x -> k ≠ i).
  { intros i k x Hg Hk ->. unfold gone in Hg. congruence. }
  inversion Hp; subst; cbn [do_part new_objects] in *.
  - destruct (KvConfig.disconnectUnlocked _ _ _) as [cfg'|] eqn:E; [|done]. simplify_eq/=.
    apply mesh_disconnect_rest in E as [E1 E2]. apply mesh_part; [done..| |apply ph_delete].
    intros sn x. unfold server_at. rewrite E1. by left.
  - simplify_eq/=. apply mesh_part; [done..| |apply ph_copy].
    + intros sn x. left. unfold server_at in *. simpl in *.
      destruct (decide (sn = inr i)) as [->|Hne]; [by rewrite lookup_insert_eq in *|].
      by rewrite lookup_insert_ne in *.
    + unfold gone, server_at. simpl. by rewrite lookup_insert_eq.
  - apply index_Some in Hd as <-.
    destruct (copy_saved_effect R i _ (d_alloc _ Hs)) as (Ha & Hg & Hsv).
    apply store_part; [done..|apply copy_length| |apply ph_kill]. intros k x Hk. by eapply Hsv, Hgone.
  - apply index_Some in Hd as <-. destruct (kill_effect R i (st_of s)) as (Ha & Hg & Hsv).
    apply store_part; [done|by apply Ha, Hs|done|apply kill_length| |apply ph_idle]. eauto.
  - destruct (make_ends names 0 _) as [rn|] eqn:E; [|done]. simpl in Hd. apply index_Some in Hd as <-.
    apply make_ends_rest in E as [E1 E2]. apply mesh_part; [done..| |apply ph_make].
    + intros sn x. unfold server_at. simpl. rewrite E1. by left.
    + unfold gone, server_at in *. simpl. by rewrite E1.
  - apply index_Some in Hd as <-.
    destruct (copy_or_make_effect R i _ (d_alloc _ Hs)) as (Ha & Hg & Hsv).
    apply store_part; [done..| |by apply ph_launch]. intros k x Hk. by eapply Hsv, Hgone.
  - destruct (Store.launch i names _) as [st|] eqn:E; [|done]. simpl in Hd. apply index_Some in Hd as <-.
    by eapply launch_part.
  - simplify_eq/=. apply mesh_part; [done..| |apply ph_idle].
    intros sn y Hy. unfold server_at in Hy. simpl in Hy.
    destruct (decide (sn = inr i)) as [->|Hne].
    + rewrite lookup_insert_eq in Hy. simplify_eq/=. right. exists i.
      replace (nservers (cl s) - 1) with x by lia. done.
    + rewrite lookup_insert_ne in Hy by done. by left.
Qed.

(** ** Steps of the network *)

(** A call that is there after a step was there before, or has just been made. *)
Lemma act_back (w w' : world) i c :
  act w w' -> calls w' !! i = Some c -> pc c = Sending ∨ ∃ c0, calls w !! i = Some c0.
Proof.
  assert (Hins : forall (cs : list (@call Mesh.name ArgType)) j c1, <[j := c1]> cs !! i = Some c -> ∃ c0, cs !! i = Some c0).
  { intros cs j c1 Hi. apply lookup_lt_is_Some_2. apply lookup_lt_Some in Hi. by rewrite length_insert in Hi. }
  intros Ha. destruct Ha; simpl; intros Hi; eauto.
  apply lookup_app_Some in Hi as [Hi|[_ Hi]]; [eauto|left].
  destruct (i - _); [|done]. by simplify_eq/=.
Qed.

(** Only a handler adds to what was executed. *)
Lemma act_run (w w' : world) i x r :
  act w w' -> executed w' = executed w ++ [(i, x, r)] ->
  ∃ c rs rs' st', calls w !! i = Some c ∧ hc c = Started x ∧ heap w !! x = Some rs ∧
    server_dispatch decode encode rs (req c) (app w) = (rs', Replied (st', r)) ∧
    w' = World (net w) (listening w) (<[x := rs']> (heap w)) st'
      (<[i := MkCall (req c) (pc c) (Ran r)]> (calls w)) (crashed w) (executed w ++ [(i, x, r)]).
Proof.
  intros Ha He.
  assert (Hno : executed w ≠ executed w ++ [(i, x, r)]).
  { intros Heq. apply (f_equal length) in Heq. rewrite length_app in Heq. simpl in Heq. lia. }
  destruct Ha; simpl in *; try (by destruct Hno).
  apply app_inj_tail in He as [_ [= -> -> ->]]. eauto 10.
Qed.

Lemma put_world w s : world_of (put w s) = w.
Proof. by destruct w. Qed.

(** The instance that executed a call. *)
Lemma log_executed s i x c y r :
  dinv s -> (i, x, c) ∈ log s -> (i, y, r) ∈ ran s -> x = y.
Proof.
  intros Hs [[r' Hr'] _]%(d_log _ Hs) Hr. pose proof (w_once _ (d_winv _ Hs)) as Hnd. simpl in Hnd.
  assert (E : (i, x, r') = (i, y, r)); [|by simplify_eq].
  apply (key_inj (fst ∘ fst) (ran s)); [|done..]. by rewrite list_fmap_compose.
Qed.

(** At the last check the server is still registered, so its persister is the one that is
    kept. *)
Lemma checked_durable s i t e r x h :
  dinv s -> (i, t_server t, r) ∈ ran s -> last_check (net_of s) e t r = Cleared t r ->
  (i, x, h) ∈ log s -> durable (st_of s) x h.
Proof.
  intros Hs Hr Hc Hx. rewrite (log_executed s i x h (t_server t) r Hs Hx Hr) in Hx |- *.
  unfold last_check, isServerDead in Hc. destruct (is_enabled _ e); [|done].
  case_bool_decide as Hsv; [|done]. simpl in Hc.
  destruct (d_reg _ Hs _ _ Hsv) as (k & _ & Hk).
  destruct (d_log _ Hs _ _ _ Hx) as (_ & c & Hc' & Hrc).
  pose proof (serves_content _ _ _ _ Hk Hc') as Hct. destruct Hk as (j & Hj & Ho & _).
  exists j, c. by rewrite Ho.
Qed.

Lemma network_dinv s w :
  dinv s -> crash s = false -> act (world_of s) w -> app w = st_of s -> executed w = ran s ->
  servers (net w) = servers (net_of s) ->
  (forall x, services <$> heap w !! x = services <$> objects s !! x) -> dinv (put w s).
Proof.
  intros Hs Hcr Ha Happ Hex Hsv Hheap.
  assert (Hat : forall sn, server_at (net w) sn = server_at (net_of s) sn).
  { intros sn. unfold server_at. by rewrite Hsv. }
  split; cbn [put cl with_store with_mesh mesh store nservers KvConfig.set_net KvConfig.net objects
    ran todo log requests]; rewrite ?Happ, ?Hex; try apply Hs.
  - rewrite put_world. by apply (act_inv decode encode _ _ (d_winv _ Hs)).
  - intros x rs Hx. pose proof (Hheap x) as Hh. rewrite Hx in Hh. simpl in Hh.
    destruct (objects s !! x) as [rs0|] eqn:H0; [|done]. simpl in Hh.
    destruct (d_objects _ Hs x rs0 H0) as [H1 H2]. split; [congruence|done].
  - intros sn x. rewrite Hat. apply Hs.
  - intros i c r Hi Hd x h Hx.
    destruct (act_back _ _ i c Ha Hi) as [Hp|[c0 Hi0]]; [by rewrite Hp in Hd|].
    destruct (act_moves decode encode _ _ i c0 Ha Hi0) as (c1 & Hi1 & _ & Hm).
    assert (c1 = c) as -> by congruence. clear Hi1.
    destruct (w_calls _ (d_winv _ Hs) i c0 Hi0) as [_ Hpi].
    assert (Hold : decided (pc c0) = Some r -> durable (st_of s) x h).
    { intros Hd0. by apply (d_decided _ Hs i c0 r). }
    destruct Hm as [E|Hm]; [apply Hold; congruence|].
    destruct (pc c0) as [| |t|t|t r0| |t r0|r0|r0|r0] eqn:Hp0; simpl in *.
    + destruct Hm as [E|[E _]]; by rewrite E in Hd.
    + rewrite Hm in Hd. unfold locate in Hd. repeat case_match; done.
    + destruct Hm as [E|[E _]]; by rewrite E in Hd.
    + destruct Hm as [(r' & E & _)|[E _]]; by rewrite E in Hd.
    + apply (checked_durable s i t (endname (req c0)) r0); [done|by destruct Hpi| |done].
      rewrite Hm in Hd. unfold last_check in *. by destruct (isServerDead _ _ _ _).
    + by rewrite Hm in Hd.
    + destruct Hm as [[E _]|[E|E]]; rewrite E in Hd; [done|by apply Hold..].
    + rewrite Hm in Hd. by apply Hold.
    + rewrite Hm in Hd. by apply Hold.
    + done.
  - assert (Hg : forall ps, phase s ps -> phase (put w s) ps).
    { assert (Hgn : forall i, gone s i -> gone (put w s) i).
      { intros i Hg. unfold gone in *. simpl. by rewrite Hat. }
      intros ps [ |i|i|i Hg|i|i names Hg|i names Hg|i names Hg|i x Hn Hx [rs Ho]];
        try (constructor; by auto).
      apply (ph_add _ i x); simpl; [done|by rewrite Happ|].
      pose proof (Hheap x) as Hh. rewrite Ho in Hh. by destruct (heap w !! x). }
    apply Hg, Hs.
Qed.

(** A call whose handler has not run is not decided. *)
Lemma started_undecided (w : world) i c x :
  winv w -> calls w !! i = Some c -> hc c = Started x -> decided (pc c) = None.
Proof.
  intros Hw Hi Hh. destruct (w_calls _ Hw i c Hi) as [Hhi Hpi]. rewrite Hh in *.
  destruct Hhi as [Hni _].
  assert (Hno : forall y r, (i, y, r) ∉ executed w).
  { intros y r Hin. apply Hni. apply list_elem_of_fmap. exists (i, y). split; [done|].
    apply list_elem_of_fmap. by exists (i, y, r). }
  destruct (pc c) as [| |t|t|t r| |t r|r|r|r]; simpl in *; try done.
  - by destruct Hpi.
  - destruct Hpi as [y Hy]. by apply Hno in Hy.
  - destruct (ok r); [|done]. destruct (Hpi eq_refl) as [y Hy]. by apply Hno in Hy.
  - destruct (ok r); [|done]. destruct (Hpi eq_refl) as [y Hy]. by apply Hno in Hy.
Qed.

Lemma handler_dinv s w i x r :
  dinv s -> crash s = false -> act (world_of s) w -> executed w = ran s ++ [(i, x, r)] ->
  dinv (add_log (i, x, default ([], []) (held x (app w))) (put w s)).
Proof.
  intros Hs Hcr Ha Hex. pose proof (act_inv decode encode _ _ (d_winv _ Hs) Hcr Ha) as Hw'.
  destruct (act_run (world_of s) w i x r Ha Hex) as (c & rs & rs' & st' & Hi & Hh & Hrs & Hd & ->).
  simpl in Hi, Hrs, Hd. destruct (d_objects _ Hs x rs Hrs) as [Hsv Hx].
  destruct (dispatch_effect rs rs' x (req c) _ _ r Hsv Hd) as (Hsv' & c' & -> & Hr).
  destruct (held_Some _ x (d_alloc _ Hs)) as [h0 Hh0]; [by rewrite <- (d_count _ Hs)|].
  rewrite Hh0 in Hr. simpl in Hr.
  destruct (save_effect R x h0 c' _ Hh0 Hr) as (Hg & Hh1 & Ein & Esv & Hal).
  cbn [app]. rewrite Hh1. simpl.
  split; cbn -[Store.save]; rewrite ?Ein; try apply Hs.
  - exact Hw'.
  - intros y rs1 [[<- <-]|[_ Hy]]%lookup_insert_Some; [split; [congruence|done]|].
    by apply (d_objects _ Hs).
  - by apply Hal, Hs.
  - intros sn y Hy. destruct (d_reg _ Hs sn y Hy) as (k & -> & j & Hj & Ho & Hsd). exists k.
    split; [done|]. exists j. by rewrite Ein, Esv.
  - intros j y r' [Hj|Hj%list_elem_of_singleton]%elem_of_app.
    + destruct (d_ran _ Hs j y r' Hj) as [h Hl]. exists h. apply elem_of_app. by left.
    + simplify_eq. exists c'. apply elem_of_app. right. by left.
  - intros j y h [Hj|Hj%list_elem_of_singleton]%elem_of_app.
    + destruct (d_log _ Hs j y h Hj) as [[r' Hr'] Hl]. split; [|by eapply log_grows].
      exists r'. apply elem_of_app. by left.
    + simplify_eq. split; [exists r; apply elem_of_app; right; by left|]. by exists c'.
  - assert (Hund : decided (pc c) = None) by (by apply (started_undecided (world_of s) i c x); [apply Hs|..]).
    assert (Hlt : i < length (requests s)) by (by eapply lookup_lt_Some).
    intros j c1 r1 Hj Hdc y h.
    assert (Hne : j ≠ i).
    { intros ->. rewrite list_lookup_insert_eq in Hj by done. by simplify_eq/=. }
    rewrite list_lookup_insert_ne in Hj by done.
    intros [Hl|Hl%list_elem_of_singleton]%elem_of_app; [|by simplify_eq].
    eapply durable_grows; [done|]. by eapply (d_decided _ Hs).
  - destruct (d_phase _ Hs) as [ |k|k|k Hk|k|k names Hk|k names Hk|k names Hk|k z Hn (j & Hj & Ho & Hsd) [rs0 Hrs0]];
      try (constructor; by auto).
    apply (ph_add _ k z); cbn -[Store.save]; [done| |].
    + exists j. by rewrite Ein, Esv.
    + apply lookup_insert_is_Some'. right. by exists rs0.
Qed.

Lemma saves_dinv s x c c' :
  dinv s -> held x (st_of s) = Some c -> R c c' ->
  dinv (put (World (net (world_of s)) (listens s) (objects s)
          (Store.save x c' (st_of s)) (requests s) (crash s) (ran s)) s).
Proof.
  intros Hs Hc Hr. destruct (save_effect R x c c' _ Hc Hr) as (Hg & _ & Ein & Esv & Hal).
  assert (Hsrv : forall k y, serves (st_of s) k y -> serves (Store.save x c' (st_of s)) k y).
  { intros k y (j & Hj & Ho & Hsd). exists j. by rewrite Ein, Esv. }
  replace (put _ s) with (State (with_store (cl s) (Store.save x c' (st_of s))) (listens s) (objects s)
    (requests s) (crash s) (ran s) (todo s) (log s)).
  2: { by destruct s as [[[]]]. }
  apply store_part; [done|by apply Hal, Hs|done|by rewrite Ein|eauto|].
  destruct (d_phase _ Hs) as [ |k|k|k Hk|k|k names Hk|k names Hk|k names Hk|k z Hn Hk Ho];
    try (constructor; by auto).
  apply (ph_add _ k z); auto.
Qed.

Lemma begin_dinv s ps : dinv s -> begins s ps -> dinv (set_todo ps s).
Proof.
  intros Hs Hb. destruct Hs as [Hw Ho Hc Ha Hr He Hl Hd Hp]. split; try done. simpl.
  destruct Hb as [[i ->]|(i & names & -> & Hg)]; [apply ph_shutdown|by apply ph_start].
Qed.

Lemma dinit_dinv N m : dinv (dinit N m).
Proof.
  split; simpl; try done; try (intros *; by rewrite ?lookup_empty, ?elem_of_nil).
  - exact (@winit_inv Mesh.name _ _ kvstore Arg Rep ArgType Store.empty_store).
  - split; simpl; intros *; rewrite ?lookup_empty, ?lookup_nil; [by intros []|done|done].
  - constructor.
Qed.

Lemma dstep_dinv s s' : dinv s -> dstep s s' -> dinv s'.
Proof.
  intros Hs [Hcr [w Ha Happ Hex Hsv Hheap|w i x r Ha Hex|x c c' Hc Hr|ps Ht Hb|p ps cl' Ht Hd]].
  - by eapply network_dinv.
  - by eapply handler_dinv.
  - by eapply saves_dinv.
  - by eapply begin_dinv.
  - by eapply part_dinv.
Qed.

Lemma dsteps_dinv N m s : rtc dstep (dinit N m) s -> dinv s.
Proof.
  intros Hr. pose proof (dinit_dinv N m) as Hi. induction Hr as [s|s s1 s2 Hs _ IH]; [done|].
  apply IH. by eapply dstep_dinv.
Qed.

End Proof.
