(* ===== verification/DurableTheorems.v ===== *)
(** * Durable replies

    The theorem about positive replies, and a server that is shut down and started after it
    has answered a call. *)
From S2P Require Import Prelude Labrpc LabrpcProof Mesh KvConfig Store KvServers Durable DurableProof.
From Stdlib Require Import Strings.Byte.
Import Labrpc KvServers Durable.

Section Theorems.
Context {Arg Rep ArgType : Type}.
Context (decode : ArgType -> list byte -> Arg) (encode : Rep -> list byte).
Context (code : list (string * list (string * (content -> Arg -> content * Rep)))).
Context (R : relation content) `{!PreOrder R}.
Context (code_grows : forall svc m c a, svc ∈ code -> m ∈ svc.2 -> R c (m.2 c a).1).
Abbreviation state := (@state Arg Rep ArgType).
Abbreviation dstep := (dstep decode encode code R).
Abbreviation net_of s := (KvConfig.net (mesh (cl s))).
Implicit Types (s : state).

(** C4: a positive reply is durable: whatever calls, saves, restarts and shutdowns (each in its
    parts, interleaved with the network and the handlers) happened, if a call returned
    successfully then what its server had persisted when the handler replied is part of what
    the persister of that server holds now, from which the next instance will start. *)
Theorem acknowledged_survives N m s i c r :
  rtc dstep (dinit N m) s -> requests s !! i = Some c -> pc c = Returned r -> ok r = true ->
  ∃ x inst p h, (i, x, r) ∈ ran s ∧ (i, x, p) ∈ log s ∧
    Store.instances (store (cl s)) !! x = Some inst ∧
    Store.content_of (store (cl s)) (Store.owner inst) = Some h ∧ R p h.
Proof.
  intros Hr Hi Hp Hok. pose proof (dsteps_dinv decode encode code R code_grows N m s Hr) as Hs.
  destruct (w_calls _ (d_winv code R _ Hs) i c Hi) as [_ Hpi]. rewrite Hp in Hpi.
  destruct (Hpi Hok) as [x Hx]. destruct (d_ran code R _ Hs i x r Hx) as [p Hl].
  destruct (d_decided code R _ Hs i c r Hi) with (x := x) (h := p) as (inst & h & Hin & Hh & Hrph).
  - rewrite Hp. simpl. by rewrite Hok.
  - done.
  - by exists x, inst, p, h.
Qed.

(** ** Running an operation of the test to its end *)
Lemma parts_run s ps cl' :
  crash s = false -> (forall i names, Launch i names ∉ ps) -> do_parts ps (cl s) = Some cl' ->
  rtc dstep (set_todo ps s)
    (State cl' (listens s) (objects s) (requests s) (crash s) (ran s) [] (log s)).
Proof.
  revert s. induction ps as [|p ps IH]; intros s Hcr Hno Hd; simpl in Hd.
  { simplify_eq. apply rtc_refl. }
  destruct (do_part p (cl s)) as [cl1|] eqn:Hp; [|done]. simpl in Hd.
  eapply rtc_l; [split; [done|by eapply D_part]|]. simpl.
  assert (Ho : new_objects code p (set_todo (p :: ps) s) = objects s).
  { destruct p as [ | | | | | |i names| ]; try done. destruct (Hno i names). left. }
  rewrite Ho.
  apply (IH (State cl1 (listens s) (objects s) (requests s) (crash s) (ran s) (todo s) (log s)));
    [done| |done]. intros i names Hin. apply (Hno i names). by right.
Qed.

Lemma shutdown_run s i cl' :
  crash s = false -> todo s = [] -> ShutdownServer (cl s) i = Some cl' ->
  rtc dstep s (State cl' (listens s) (objects s) (requests s) (crash s) (ran s) [] (log s)).
Proof.
  intros Hcr Ht Hs. eapply rtc_l; [split; [done|apply D_begin; [done|left; by exists i]]|].
  apply parts_run; [done| |done]. intros j names Hin. unfold ShutdownServer_parts in Hin.
  rewrite !elem_of_cons, elem_of_nil in Hin. naive_solver.
Qed.

Lemma start_run s i names cl' :
  crash s = false -> todo s = [] -> server_at (net_of s) (inr i) = None ->
  StartServer (cl s) i names = Some cl' ->
  rtc dstep s (State cl' (listens s)
    (<[nservers (cl s) := make_server code (nservers (cl s))]> (objects s))
    (requests s) (crash s) (ran s) [] (log s)).
Proof.
  intros Hcr Ht Hg. unfold StartServer, StartServer_parts. cbn [do_parts].
  destruct (do_part (FreshEnds i names) (cl s)) as [cl1|] eqn:H1; [|done]. cbn [mbind option_bind].
  destruct (do_part (CopyOrMake i) cl1) as [cl2|] eqn:H2; [|done]. cbn [mbind option_bind].
  destruct (do_part (Launch i names) cl2) as [cl3|] eqn:H3; [|done]. cbn [mbind option_bind].
  intros H4.
  assert (E1 : nservers cl2 = nservers (cl s)).
  { apply index_Some in H2 as <-. simpl in H1 |- *.
    destruct (make_ends names 0 _); [|done]. simpl in H1. by apply index_Some in H1 as <-. }
  eapply rtc_l; [split; [done|apply (D_begin _ _ _ _ s (StartServer_parts i names)); [done|right; eauto]]|].
  eapply rtc_l; [split; [done|by eapply D_part]|].
  eapply rtc_l; [split; [done|by eapply D_part]|].
  eapply rtc_l; [split; [done|by eapply D_part]|]. cbn [new_objects set_todo cl objects]. rewrite E1.
  eapply rtc_l; [split; [done|by eapply D_part]|]. apply rtc_refl.
Qed.

End Theorems.

(** ** A server that appends to its persisted state *)
Module DurableDemo.

Definition dec (_ : unit) (b : list byte) : list byte := b.
Definition enc (b : list byte) : list byte := b.

(** Appends the argument to the Raft state and replies with all of it. *)
Definition append (c : content) (a : list byte) : content * list byte := ((c.1 ++ a, c.2), c.1 ++ a).
Definition code := [("KVServer", [("Append", append)])].

(** The Raft state of one is a prefix of the other's. *)
Definition longer (c c' : content) : Prop := c.1 `prefix_of` c'.1 ∧ c.2 = c'.2.

#[export] Instance longer_preorder : PreOrder longer.
Proof.
  split; [by split|]. intros c1 c2 c3 [H1 E1] [H2 E2]. split; [by etrans|congruence].
Qed.

Lemma code_longer svc m c a : svc ∈ code -> m ∈ svc.2 -> longer c (m.2 c a).1.
Proof.
  intros ->%list_elem_of_singleton ->%list_elem_of_singleton. split; [by eexists|done].
Qed.

Abbreviation state := (@state (list byte) (list byte) unit).
Abbreviation dstep := (dstep dec enc code longer).

Definition s0 : state := dinit 1 1000.
Definition cl1 : cluster := default (cl s0) (StartServer (cl s0) 0 ["a0"]).
Definition srv : Server := make_server code 0.
Definition request : @reqMsg Mesh.name unit := ReqMsg (inl "k0") "KVServer.Append" tt [x01].

(** The state between the start and the shutdown; [rn] is the network. *)
Definition at_call (rn : network) (st : kvstore) (objs : gmap nat Server) (cs : list call) ex lg :
    state :=
  State (with_store (with_mesh cl1 (KvConfig.set_net (mesh cl1) rn)) st) true objs cs false ex [] lg.

Definition rn1 : network := KvConfig.net (mesh cl1).
Definition rn2 : network := default rn1 (MakeEnd (inl "k0") rn1).
Definition rn3 : network := Enable (inl "k0") true (Connect (inl "k0") (inr 0) rn2).
Definition rn4 : network := count_request request rn3.
Definition st1 : kvstore := store cl1.
Definition st2 : kvstore := Store.save 0 ([x01], []) st1.
Definition target0 : @target Mesh.name := Target (inr 0) 0 true false.
Definition rep : replyMsg := ReplyMsg true [x01].
Definition one (p : @proc Mesh.name) (h : handling) : list (@call Mesh.name unit) := [MkCall request p h].
Definition objs1 : gmap nat Server := {[0 := srv]}.
Definition objs2 : gmap nat Server := {[0 := MkServer (services srv) 1]}.

Definition s_ready : state := at_call rn3 st1 objs1 (one Sending NotStarted) [] [].
Definition s_done : state :=
  at_call (add_bytes 1 rn4) st2 objs2 (one (Returned rep) Taken) [(0, 0, rep)] [(0, 0, ([x01], []))].

Lemma net_step rn rn' (objs : gmap nat (@Server kvstore (list byte) (list byte))) cs cs' st ex lg :
  act dec enc (World rn true objs st cs false ex) (World rn' true objs st cs' false ex) ->
  servers rn' = servers rn ->
  dstep (at_call rn st objs cs ex lg) (at_call rn' st objs cs' ex lg).
Proof.
  intros Ha Hs. split; [done|].
  by apply (D_network dec enc code longer (at_call rn st objs cs ex lg) (World rn' true objs st cs' false ex)).
Qed.

Ltac then_net tac := eapply rtc_l; [eapply net_step; [tac|reflexivity]|].

Lemma start_ready : rtc dstep s0 s_ready.
Proof.
  assert (Hs : StartServer (cl s0) 0 ["a0"] = Some cl1) by (vm_compute; reflexivity).
  etrans; [apply (start_run dec enc code longer s0 0 ["a0"] cl1); [reflexivity..|exact Hs]|].
  change (rtc dstep (at_call rn1 st1 objs1 [] [] []) s_ready).
  then_net ltac:(apply (A_admin dec enc (World rn1 true objs1 st1 [] false []) (DoMakeEnd (inl "k0")) rn2); [done|vm_compute; reflexivity]).
  then_net ltac:(apply (A_admin dec enc (World rn2 true objs1 st1 [] false []) (DoConnect (inl "k0") (inr 0))); done).
  then_net ltac:(apply (A_admin dec enc (World _ true objs1 st1 [] false []) (DoEnable (inl "k0") true)); done).
  apply rtc_once. apply net_step; [apply (C_call dec enc (World rn3 true objs1 st1 [] false []) request)|done].
Qed.

Lemma handler_step rn (objs : gmap nat (@Server kvstore (list byte) (list byte))) objs' cs cs' st st' ex i x r lg :
  act dec enc (World rn true objs st cs false ex)
    (World rn true objs' st' cs' false (ex ++ [(i, x, r)])) ->
  dstep (at_call rn st objs cs ex lg)
    (at_call rn st' objs' cs' (ex ++ [(i, x, r)]) (lg ++ [(i, x, default ([], []) (held x st'))])).
Proof.
  intros Ha. split; [done|].
  by apply (D_handler dec enc code longer (at_call rn st objs cs ex lg)
    (World rn true objs' st' cs' false (ex ++ [(i, x, r)])) i x r).
Qed.

(** The call runs to its end. *)
Lemma ready_done : rtc dstep s_ready s_done.
Proof.
  unfold s_ready.
  then_net ltac:(by apply (L_accept dec enc (World rn3 true objs1 st1 (one Sending NotStarted) false []) 0
    (MkCall request Sending NotStarted))).
  change (<[0:=_]> _) with (one Accepted NotStarted).
  then_net ltac:(by apply (P_locate dec enc (World rn4 true objs1 st1 (one Accepted NotStarted) false []) 0
    (MkCall request Accepted NotStarted))).
  assert (Hl : locate rn4 (inl "k0") = Located target0) by (vm_compute; reflexivity).
  change (<[0:=_]> _) with (one (locate rn4 (inl "k0")) NotStarted). rewrite Hl.
  then_net ltac:(by apply (P_execute dec enc (World rn4 true objs1 st1 (one (Located target0) NotStarted) false []) 0
    (MkCall request (Located target0) NotStarted) target0)).
  change (<[0:=_]> _) with (one (Waiting target0) (Started 0)).
  eapply rtc_l.
  { eapply (handler_step rn4 objs1 objs2 (one (Waiting target0) (Started 0)) (one (Waiting target0) (Ran rep)) st1 st2).
    apply (H_run dec enc (World rn4 true objs1 st1 (one (Waiting target0) (Started 0)) false []) 0
      (MkCall request (Waiting target0) (Started 0)) 0 srv (MkServer (services srv) 1)); done. }
  assert (Hh : held 0 st2 = Some ([x01], [])) by (vm_compute; reflexivity). rewrite Hh. simpl default.
  then_net ltac:(by apply (P_receive dec enc (World rn4 true objs2 st2 (one (Waiting target0) (Ran rep)) false [(0, 0, rep)]) 0
    (MkCall request (Waiting target0) (Ran rep)) target0 rep)).
  change (<[0:=_]> _) with (one (Got target0 rep) Taken).
  then_net ltac:(by apply (P_check dec enc (World rn4 true objs2 st2 (one (Got target0 rep) Taken) false [(0, 0, rep)]) 0
    (MkCall request (Got target0 rep) Taken) target0 rep)).
  assert (Hc : last_check rn4 (inl "k0") target0 rep = Cleared target0 rep) by (vm_compute; reflexivity).
  change (<[0:=_]> _) with (one (last_check rn4 (inl "k0") target0 rep) Taken). rewrite Hc.
  then_net ltac:(by apply (P_reply dec enc (World rn4 true objs2 st2 (one (Cleared target0 rep) Taken) false [(0, 0, rep)]) 0
    (MkCall request (Cleared target0 rep) Taken) target0 rep)).
  apply rtc_once. apply net_step; [|done].
  by apply (C_deliver dec enc (World _ true objs2 st2 (one (Replying rep) Taken) false [(0, 0, rep)]) 0
    (MkCall request (Replying rep) Taken) rep).
Qed.

(** Then the server is shut down and started again. *)
Definition cl2 : cluster := default (cl s_done) (ShutdownServer (cl s_done) 0).
Definition cl3 : cluster := default cl2 (StartServer cl2 0 ["a1"]).
Definition s_down : state := State cl2 true objs2 (requests s_done) false (ran s_done) [] (log s_done).
Definition s_up : state :=
  State cl3 true (<[nservers cl2 := make_server code (nservers cl2)]> objs2) (requests s_done) false
    (ran s_done) [] (log s_done).

Lemma done_up : rtc dstep s_done s_up.
Proof.
  assert (H2 : ShutdownServer (cl s_done) 0 = Some cl2) by (vm_compute; reflexivity).
  assert (H3 : StartServer cl2 0 ["a1"] = Some cl3) by (vm_compute; reflexivity).
  etrans; [apply (shutdown_run dec enc code longer s_done 0 cl2); [reflexivity..|exact H2]|].
  apply (start_run dec enc code longer s_down 0 ["a1"] cl3); [reflexivity..|vm_compute; reflexivity|exact H3].
Qed.

End DurableDemo.
Import DurableDemo.

Lemma acknowledged_survives_witness :
  ∃ h, Store.content_of (store cl3) 0 = Some h ∧ [x01] `prefix_of` h.1.
Proof.
  destruct (acknowledged_survives dec enc code longer code_longer 1 1000 s_up 0
    (MkCall request (Returned rep) Taken) rep) as (x & inst & p & h & _ & Hl & Hi & Hh & Hr & _).
  - etrans; [exact start_ready|]. etrans; [exact ready_done|exact done_up].
  - reflexivity.
  - reflexivity.
  - reflexivity.
  - exists h. apply list_elem_of_singleton in Hl. injection Hl as -> ->.
    assert (Ho : Store.owner inst = 0) by (vm_compute in Hi; injection Hi as <-; reflexivity).
    rewrite Ho in Hh. split; [exact Hh|exact Hr].
Defined.
