(* ===== verification/Clerks.v ===== *)
(** * The clerks of [shardctrler/client.go] and [shardkv/client.go]

    Clerks retry for ever until a server gives an acceptable answer.  What a remote call
    does and answers is an interface ([Rpc]): the state of the rest of the system is
    threaded through the calls, and [None] is a call that failed.  Loops are bounded by a
    number of passes over the servers. *)
From S2P Require Import Prelude.
From Stdlib Require Import Strings.Ascii.

(** What a clerk uses of [labrpc]: [srv.Call(svcMeth, args, &reply)]. *)
Class Rpc (W Srv Args Rep : Type) :=
  call : W -> Srv -> string -> Args -> W * option Rep.

Module Clerks.

(** ** Trying every server until one accepts *)
Section Retry.
Context {W Srv Args Rep Res : Type} `{Rpc W Srv Args Rep}.
Context (meth : string) (args : Args) (accept : Rep -> option Res) (servers : list Srv).

(** The calls made, with their answers. *)
Abbreviation trace := (list (Srv * option Rep)).

(** [for _, srv := range ck.servers] *)
Fixpoint pass (srvs : list Srv) (w : W) (tr : trace) : W * trace * option Res :=
  match srvs with
  | [] => (w, tr, None)
  | s :: srvs' =>
      let '(w', r) := call w s meth args in
      let tr' := tr ++ [(s, r)] in
      match r ≫= accept with
      | Some res => (w', tr', Some res)
      | None => pass srvs' w' tr'
      end
  end.

(** The outer loop: [None] after [fuel] passes. *)
Fixpoint retry (fuel : nat) (w : W) (tr : trace) : option (W * trace * Res) :=
  match fuel with
  | O => None
  | S fuel =>
      match pass servers w tr with
      | (w', tr', Some res) => Some (w', tr', res)
      | (w', tr', None) => retry fuel w' tr'
      end
  end.

Definition rejected (x : Srv * option Rep) : Prop := x.2 ≫= accept = None.

Lemma pass_spec srvs w tr w' tr' o :
  pass srvs w tr = (w', tr', o) ->
  ∃ new, tr' = tr ++ new ∧ new.*1 `prefix_of` srvs ∧
    match o with
    | None => new.*1 = srvs ∧ Forall rejected new
    | Some res => ∃ new0 s r, new = new0 ++ [(s, Some r)] ∧ accept r = Some res ∧
        Forall rejected new0
    end.
Proof.
  revert w tr. induction srvs as [|s srvs IH]; intros w tr Hp; simpl in Hp.
  { simplify_eq. exists []. rewrite app_nil_r. done. }
  destruct (call w s meth args) as [w1 r]. destruct (r ≫= accept) as [res|] eqn:Hr.
  - simplify_eq. exists [(s, r)]. split_and!; [done|by exists srvs|].
    destruct r as [r|]; [|done]. exists [], s, r. done.
  - apply IH in Hp as (new & -> & Hk & Ho). exists ((s, r) :: new).
    split_and!; [by rewrite <- app_assoc|by apply prefix_cons|].
    destruct o as [res|].
    + destruct Ho as (new0 & s' & r' & -> & Ha & Hall).
      exists ((s, r) :: new0), s', r'. split_and!; [done..|by constructor].
    + destruct Ho as [Hs Hall]. split; [by rewrite fmap_cons, Hs|by constructor].
Qed.

(** The servers are tried in turn, every answer before the last is rejected, and the last
    one gives the result. *)
Lemma retry_spec fuel w tr w' tr' res :
  retry fuel w tr = Some (w', tr', res) ->
  ∃ new0 s r, tr' = tr ++ new0 ++ [(s, Some r)] ∧ accept r = Some res ∧ Forall rejected new0 ∧
    ∃ k rest, new0.*1 ++ [s] = mjoin (replicate k servers) ++ rest ∧ rest `prefix_of` servers.
Proof.
  revert w tr. induction fuel as [|fuel IH]; intros w tr Hr; simpl in Hr; [done|].
  destruct (pass servers w tr) as [[w1 tr1] o] eqn:Hp. apply pass_spec in Hp.
  destruct Hp as (new & -> & Hpre & Ho). destruct o as [res1|].
  - simplify_eq. destruct Ho as (new0 & s & r & -> & Ha & Hall).
    exists new0, s, r. split_and!; [done..|]. exists 0, ((new0 ++ [(s, Some r)]).*1).
    split; [by rewrite fmap_app|done].
  - destruct Ho as [Hs Hall]. apply IH in Hr as (new0 & s & r & -> & Ha & Hall0 & k & rest & Hk & Hre).
    exists (new ++ new0), s, r. split_and!.
    + by rewrite <- !app_assoc.
    + done.
    + by apply Forall_app.
    + exists (S k), rest. split; [|done]. simpl. rewrite fmap_app, Hs, <- !app_assoc.
      by rewrite Hk.
Qed.

(** From a state on, some server always gives an acceptable answer. *)
Definition called (w w' : W) : Prop := ∃ s, s ∈ servers ∧ w' = (call w s meth args).1.

Definition answers (w : W) (s : Srv) : Prop :=
  s ∈ servers ∧ forall w', rtc called w w' -> is_Some ((call w' s meth args).2 ≫= accept).

Lemma pass_answers s srvs w tr :
  answers w s -> s ∈ srvs -> (forall s', s' ∈ srvs -> s' ∈ servers) ->
  ∃ w' tr' res, pass srvs w tr = (w', tr', Some res).
Proof.
  intros Ha Hin. revert w tr Ha. induction srvs as [|s' srvs IH]; intros w tr Ha Hsub.
  { by apply elem_of_nil in Hin. }
  simpl. destruct (call w s' meth args) as [w1 r] eqn:Hc.
  destruct (r ≫= accept) as [res|] eqn:Hr; [by eexists _, _, _|].
  apply elem_of_cons in Hin as [->|Hin].
  - destruct Ha as [_ Ha]. destruct (Ha w) as [res Hres]; [apply rtc_refl|].
    rewrite Hc in Hres. simpl in Hres. congruence.
  - apply IH; [done| |intros x Hx; apply Hsub; by right].
    destruct Ha as [Hs Ha]. split; [done|]. intros w' Hw'. apply Ha.
    eapply rtc_l; [|exact Hw']. exists s'. split; [apply Hsub; left|by rewrite Hc].
Qed.

(** The state after [k] passes that were all rejected. *)
Definition after (k : nat) (w : W) : W :=
  Nat.iter k (λ w, foldl (λ w s, (call w s meth args).1) w servers) w.

Lemma pass_none_state srvs w tr w' tr' :
  pass srvs w tr = (w', tr', None) -> w' = foldl (λ w s, (call w s meth args).1) w srvs.
Proof.
  revert w tr. induction srvs as [|s srvs IH]; intros w tr Hp; simpl in *; [by simplify_eq|].
  destruct (call w s meth args) as [w1 r]. destruct (r ≫= accept); [done|]. by eapply IH.
Qed.

Lemma retry_total k w tr s :
  answers (after k w) s -> ∃ w' tr' res, retry (S k) w tr = Some (w', tr', res).
Proof.
  revert w tr. induction k as [|k IH]; intros w tr Ha.
  - destruct (pass_answers s servers w tr Ha) as (w' & tr' & res & Hp); [apply Ha|done|].
    simpl. rewrite Hp. by eexists _, _, _.
  - cbn [retry]. destruct (pass servers w tr) as [[w1 tr1] [res|]] eqn:Hp; [by eexists _, _, _|].
    apply IH. apply pass_none_state in Hp as ->. unfold after in *.
    by rewrite Nat.iter_succ_r in Ha.
Qed.

(** What the loop promises: its result is the accepted answer of a server; the servers are
    tried in turn and every call before it failed or was rejected; and if after [k] passes
    some server keeps giving acceptable answers, the loop ends in the next pass. *)
Definition contract (w : W) (loop : nat -> option (W * trace * Res)) : Prop :=
  (forall fuel w' tr res, loop fuel = Some (w', tr, res) ->
    ∃ new s r, tr = new ++ [(s, Some r)] ∧ accept r = Some res ∧ Forall rejected new ∧
      ∃ k rest, tr.*1 = mjoin (replicate k servers) ++ rest ∧ rest `prefix_of` servers) ∧
  (forall k s, answers (after k w) s -> is_Some (loop (S k))).

Lemma retry_contract w : contract w (λ fuel, retry fuel w []).
Proof.
  split.
  - intros fuel w' tr res Hq.
    apply retry_spec in Hq as (new & s & r & -> & Ha & Hall & k & rest & Hk & Hr).
    exists new, s, r. split_and!; [done..|]. exists k, rest. split; [|done].
    by rewrite app_nil_l, fmap_app.
  - intros k s Ha. destruct (retry_total k w [] s Ha) as (w' & tr & res & Hr).
    rewrite Hr. by eexists.
Qed.

End Retry.

(** ** [shardctrler/client.go] *)

Definition NShards : nat := 10.

Record ShardConfig := MkShardConfig {
  Num : Z;
  Shards : list Z;                  (* [NShards] of them *)
  Groups : gmap Z (list string)
}.

Record QueryReply := MkQueryReply { WrongLeader : bool; QErr : string; QConfig : ShardConfig }.
(** The replies to [Join], [Leave] and [Move]. *)
Record CtrlReply := MkCtrlReply { CWrongLeader : bool; CErr : string }.

Inductive CtrlArgs :=
| QueryArgs (num : Z)
| JoinArgs (servers : gmap Z (list string))
| LeaveArgs (gids : list Z)
| MoveArgs (shard gid : Z).

Section ShardCtrler.
Context {W Srv : Type} `{!Rpc W Srv CtrlArgs QueryReply} `{!Rpc W Srv CtrlArgs CtrlReply}.
Context (servers : list Srv).

Definition accept_query (r : QueryReply) : option ShardConfig :=
  if WrongLeader r then None else Some (QConfig r).

Definition accept_ctrl (r : CtrlReply) : option unit :=
  if CWrongLeader r then None else Some tt.

Definition Query (fuel : nat) (num : Z) (w : W) :=
  retry "ShardCtrler.Query" (QueryArgs num) accept_query servers fuel w [].
Definition Join (fuel : nat) (groups : gmap Z (list string)) (w : W) :=
  retry "ShardCtrler.Join" (JoinArgs groups) accept_ctrl servers fuel w [].
Definition Leave (fuel : nat) (gids : list Z) (w : W) :=
  retry "ShardCtrler.Leave" (LeaveArgs gids) accept_ctrl servers fuel w [].
Definition Move (fuel : nat) (shard gid : Z) (w : W) :=
  retry "ShardCtrler.Move" (MoveArgs shard gid) accept_ctrl servers fuel w [].
End ShardCtrler.

(** ** [shardkv/client.go] *)

Definition key2shard (key : string) : nat :=
  match key with
  | EmptyString => 0
  | String c _ => N.to_nat (N_of_ascii c) mod NShards
  end.

Inductive Err := OK | ErrNoKey | ErrWrongGroup | ErrWrongLeader | OtherErr (e : string).

#[global] Instance Err_eq_dec : EqDecision Err.
Proof. solve_decision. Defined.

Record GetReply := MkGetReply { GErr : Err; GValue : string }.
Record PutAppendReply := MkPutAppendReply { PErr : Err }.

Inductive KvArgs :=
| GetArgs (key : string)
| PutAppendArgs (key value op : string).

(** The servers of the key's group in a configuration. *)
Definition group_of (key : string) (c : ShardConfig) : list string :=
  match Shards c !! key2shard key with
  | Some gid => default [] (Groups c !! gid)
  | None => []
  end.

(** The loop that [Get] and [PutAppend] have in common.  A server is called by its name:
    [ck.make_end(servers[si]).Call(meth, &args, &reply)]. *)
Section ShardKV.
Context {W Rep : Type} `{!Rpc W string KvArgs Rep}.
(** [ck.sm.Query(-1)], [None] when it does not return. *)
Context (query : W -> option (W * ShardConfig)).
Context (meth : string) (args : KvArgs) (key : string).
Context (err : Rep -> Err) (accepts : Err -> bool).

Abbreviation ktrace := (list (string * option Rep)).

(** The loop over the servers of the group; [ErrWrongGroup] leaves it. *)
Fixpoint try_group (srvs : list string) (w : W) (tr : ktrace) : W * ktrace * option Rep :=
  match srvs with
  | [] => (w, tr, None)
  | s :: srvs' =>
      let '(w', r) := call w s meth args in
      let tr' := tr ++ [(s, r)] in
      match r with
      | Some reply =>
          if accepts (err reply) then (w', tr', Some reply)
          else if decide (err reply = ErrWrongGroup) then (w', tr', None)
          else try_group srvs' w' tr'
      | None => try_group srvs' w' tr'
      end
  end.

(** The outer loop with the clerk's configuration; the result carries the configuration in
    use and the calls of the last round. *)
Fixpoint request (fuel : nat) (config : ShardConfig) (w : W) :
    option (W * ShardConfig * ktrace * Rep) :=
  match fuel with
  | O => None
  | S fuel =>
      match try_group (group_of key config) w [] with
      | (w', tr, Some reply) => Some (w', config, tr, reply)
      | (w', _, None) =>
          match query w' with
          | Some (w'', config') => request fuel config' w''
          | None => None
          end
      end
  end.

(** An answer that makes the clerk go on to the next server. *)
Definition passed_over (x : string * option Rep) : Prop :=
  forall r, x.2 = Some r -> accepts (err r) = false ∧ err r ≠ ErrWrongGroup.

Lemma try_group_spec srvs w tr w' tr' reply :
  try_group srvs w tr = (w', tr', Some reply) ->
  ∃ new s, tr' = tr ++ new ++ [(s, Some reply)] ∧
    (new ++ [(s, Some reply)]).*1 `prefix_of` srvs ∧
    accepts (err reply) = true ∧ Forall passed_over new.
Proof.
  revert w tr. induction srvs as [|s srvs IH]; intros w tr Hp; simpl in Hp; [done|].
  destruct (call w s meth args) as [w1 r] eqn:Hc.
  assert (Hrec : passed_over (s, r) ->
    try_group srvs w1 (tr ++ [(s, r)]) = (w', tr', Some reply) ->
    ∃ new s0, tr' = tr ++ new ++ [(s0, Some reply)] ∧
      (new ++ [(s0, Some reply)]).*1 `prefix_of` s :: srvs ∧
      accepts (err reply) = true ∧ Forall passed_over new).
  { intros Hr Hp'. apply IH in Hp' as (new & s0 & -> & Hk & Ha & Hall).
    exists ((s, r) :: new), s0. split_and!; [by rewrite <- !app_assoc| |done|by constructor].
    by apply prefix_cons. }
  destruct r as [r|]; [|by apply Hrec].
  destruct (accepts (err r)) eqn:Ha.
  - simplify_eq. exists [], s. split_and!; [done|by exists srvs|done|constructor].
  - case_decide as Hw; [done|]. apply Hrec; [|done]. intros r' [= <-]. done.
Qed.

(** The reply was accepted from a server of the key's group; the servers before it in the
    group failed to answer, or said neither yes nor [ErrWrongGroup]. *)
Lemma request_spec fuel config w w' config' tr reply :
  request fuel config w = Some (w', config', tr, reply) ->
  ∃ new s, tr = new ++ [(s, Some reply)] ∧ tr.*1 `prefix_of` group_of key config' ∧
    accepts (err reply) = true ∧ Forall passed_over new.
Proof.
  revert config w. induction fuel as [|fuel IH]; intros config w Hr; simpl in Hr; [done|].
  destruct (try_group (group_of key config) w []) as [[w1 tr1] [v1|]] eqn:Hp.
  - simplify_eq. apply try_group_spec in Hp as (new & s & -> & Hk & Ha & Hall).
    by exists new, s.
  - destruct (query w1) as [[w2 c2]|]; [|done]. by eapply IH.
Qed.

(** The clerk after [k] rounds in which no answer was accepted and the controllers answered. *)
Fixpoint rounds (k : nat) (config : ShardConfig) (w : W) : option (ShardConfig * W) :=
  match k with
  | O => Some (config, w)
  | S k =>
      match try_group (group_of key config) w [] with
      | (_, _, Some _) => None
      | (w', _, None) =>
          match query w' with
          | Some (w'', config') => rounds k config' w''
          | None => None
          end
      end
  end.

Definition kcalled (srvs : list string) (w w' : W) : Prop :=
  ∃ s, s ∈ srvs ∧ w' = (call w s meth args).1.

(** The group serves the key: one of its servers keeps giving an acceptable answer, and no
    server says [ErrWrongGroup]. *)
Definition serves (srvs : list string) (w : W) : Prop :=
  ∃ s, s ∈ srvs ∧ forall w', rtc (kcalled srvs) w w' ->
    (∃ r, (call w' s meth args).2 = Some r ∧ accepts (err r) = true) ∧
    (forall s' r, s' ∈ srvs -> (call w' s' meth args).2 = Some r ->
      accepts (err r) = true ∨ err r ≠ ErrWrongGroup).

Lemma try_group_serves all s srvs w tr :
  s ∈ srvs -> srvs ⊆ all ->
  (forall w', rtc (kcalled all) w w' ->
    (∃ r, (call w' s meth args).2 = Some r ∧ accepts (err r) = true) ∧
    (forall s' r, s' ∈ all -> (call w' s' meth args).2 = Some r ->
      accepts (err r) = true ∨ err r ≠ ErrWrongGroup)) ->
  ∃ w' tr' reply, try_group srvs w tr = (w', tr', Some reply).
Proof.
  intros Hin. revert w tr. induction srvs as [|s' srvs IH]; intros w tr Hsub Hs.
  { by apply elem_of_nil in Hin. }
  simpl. destruct (call w s' meth args) as [w1 r] eqn:Hc.
  assert (Hnext : ∀ w', rtc (kcalled all) w1 w' -> rtc (kcalled all) w w').
  { intros w' Hw'. eapply rtc_l; [|exact Hw']. exists s'. split; [apply Hsub; left|by rewrite Hc]. }
  destruct (Hs w (rtc_refl _ _)) as [[r0 [Hr0 Ha0]] Hno].
  destruct r as [r|].
  - destruct (accepts (err r)) eqn:Ha; [by eexists _, _, _|].
    destruct (Hno s' r) as [?|Hne]; [apply Hsub; left|by rewrite Hc|congruence|].
    rewrite decide_False by done. apply elem_of_cons in Hin as [->|Hin].
    + rewrite Hc in Hr0. simplify_eq/=. congruence.
    + apply IH; [done|set_solver|]. intros w' Hw'. by apply Hs, Hnext.
  - apply elem_of_cons in Hin as [->|Hin]; [by rewrite Hc in Hr0|].
    apply IH; [done|set_solver|]. intros w' Hw'. by apply Hs, Hnext.
Qed.

(** If after [k] rounds the group of the clerk's configuration serves the key, the request
    returns. *)
Lemma request_total k config w config' w' :
  rounds k config w = Some (config', w') -> serves (group_of key config') w' ->
  is_Some (request (S k) config w).
Proof.
  revert config w. induction k as [|k IH]; intros config w Hr (s & Hs & Hserve).
  - simpl in Hr. simplify_eq.
    destruct (try_group_serves (group_of key config') s (group_of key config') w' [] Hs)
      as (w1 & tr & reply & Ht); [done|done|].
    simpl. rewrite Ht. by eexists.
  - cbn [rounds] in Hr. cbn [request].
    destruct (try_group (group_of key config) w []) as [[w1 tr1] [v1|]]; [done|].
    destruct (query w1) as [[w2 c2]|]; [|done]. apply IH; [done|by exists s].
Qed.
End ShardKV.

(** [Get] accepts [OK] and [ErrNoKey], [PutAppend] only [OK]. *)
Definition get_accepts (e : Err) : bool := bool_decide (e = OK ∨ e = ErrNoKey).
Definition put_accepts (e : Err) : bool := bool_decide (e = OK).

(** [qfuel] bounds the passes of each [Query] over the controllers. *)
Section Operations.
Context {W Srv : Type} `{!Rpc W Srv CtrlArgs QueryReply}.
Context `{!Rpc W string KvArgs GetReply} `{!Rpc W string KvArgs PutAppendReply}.
Context (ctrlers : list Srv) (qfuel : nat).

Definition latest (w : W) : option (W * ShardConfig) :=
  '(w', _, c) ← Query ctrlers qfuel (-1) w; Some (w', c).

Definition Get (fuel : nat) (config : ShardConfig) (key : string) (w : W) :=
  '(w', config', tr, reply) ←
    request latest "ShardKV.Get" (GetArgs key) key GErr get_accepts fuel config w;
  Some (w', config', tr, GValue reply).
Definition PutAppend (fuel : nat) (config : ShardConfig) (key value op : string) (w : W) :=
  '(w', config', tr, _) ←
    request latest "ShardKV.PutAppend" (PutAppendArgs key value op) key PErr put_accepts
      fuel config w;
  Some (w', config', tr).
Definition Put (fuel : nat) (config : ShardConfig) (key value : string) (w : W) :=
  PutAppend fuel config key value "Put" w.
Definition Append (fuel : nat) (config : ShardConfig) (key value : string) (w : W) :=
  PutAppend fuel config key value "Append" w.
End Operations.

(** [nrand]: a random number below 2^62 is an [int64] as it is. *)
Definition nrand (bigx : Z) : Z := signed 64 bigx.

Lemma nrand_exact bigx : (0 <= bigx < 2 ^ 62)%Z -> nrand bigx = bigx.
Proof. intros Hb. apply signed_small; lia. Qed.

Lemma key2shard_lt key : key2shard key < NShards.
Proof. destruct key; unfold key2shard, NShards; [lia|by apply Nat.mod_upper_bound]. Qed.

End Clerks.
