(* ===== verification/ClerkTheorems.v ===== *)
(** * What the clerks promise

    The specification of the loops of [Clerks], in terms of the calls that were made and their
    answers; it uses the fields of replies and configurations, and no function of the clerks. *)
From S2P Require Import Prelude Clerks.
From Stdlib Require Import Strings.Ascii.
Import Clerks.

(** ** Calls one after the other *)
Section Calls.
Context {W Srv Args Rep : Type} `{Rpc W Srv Args Rep} (meth : string) (args : Args).

(** The calls [tr], made from [w] on, have the answers in [tr] and lead to [w']. *)
Inductive calls_made : W -> list (Srv * option Rep) -> W -> Prop :=
| calls_nil w : calls_made w [] w
| calls_cons w s o w1 tr w' :
    call w s meth args = (w1, o) -> calls_made w1 tr w' -> calls_made w ((s, o) :: tr) w'.

Lemma calls_made_app w tr w1 tr' w' :
  calls_made w tr w1 -> calls_made w1 tr' w' -> calls_made w (tr ++ tr') w'.
Proof. induction 1 as [|w s o w2 tr w1 Hc _ IH]; [done|]. intros Hm. econstructor; [done|by apply IH]. Qed.

(** ** The loop over all servers *)

Context {Res : Type} (accept : Rep -> option Res) (servers : list Srv).

Lemma pass_calls srvs w tr w' tr' o :
  pass meth args accept srvs w tr = (w', tr', o) -> ∃ new, tr' = tr ++ new ∧ calls_made w new w'.
Proof.
  revert w tr. induction srvs as [|s srvs IH]; intros w tr Hp; simpl in Hp.
  { simplify_eq. exists []. rewrite app_nil_r. split; [done|constructor]. }
  destruct (call w s meth args) as [w1 r] eqn:Hc. destruct (r ≫= accept) as [res|].
  - simplify_eq. exists [(s, r)]. split; [done|]. econstructor; [done|constructor].
  - apply IH in Hp as (new & -> & Hm). exists ((s, r) :: new).
    split; [by rewrite <- app_assoc|by econstructor].
Qed.

Lemma retry_calls fuel w tr w' tr' res :
  retry meth args accept servers fuel w tr = Some (w', tr', res) ->
  ∃ new, tr' = tr ++ new ∧ calls_made w new w'.
Proof.
  revert w tr. induction fuel as [|fuel IH]; intros w tr Hr; simpl in Hr; [done|].
  destruct (pass meth args accept servers w tr) as [[w1 tr1] o] eqn:Hp.
  apply pass_calls in Hp as (new & -> & Hm). destruct o as [res1|]; [simplify_eq; by exists new|].
  apply IH in Hr as (new' & -> & Hm'). exists (new ++ new').
  split; [by rewrite app_assoc|by eapply calls_made_app].
Qed.

(** What a loop promises that runs until a reply is not [wrong]: the servers are called in turn,
    every call before the last failed or got a wrong reply, the reply to the last gives the
    result; and if after [k] passes some server keeps giving replies that are not wrong, the
    loop ends in the next pass. *)
Definition loop_contract (wrong : Rep -> bool) (value : Rep -> Res) (w : W)
    (loop : nat -> option (W * list (Srv * option Rep) * Res)) : Prop :=
  (forall fuel w' tr res, loop fuel = Some (w', tr, res) ->
    calls_made w tr w' ∧
    (∃ k rest, tr.*1 = mjoin (replicate k servers) ++ rest ∧ rest `prefix_of` servers) ∧
    ∃ new s r, tr = new ++ [(s, Some r)] ∧ wrong r = false ∧ res = value r ∧
      forall s' r', (s', Some r') ∈ new -> wrong r' = true) ∧
  (forall k s, s ∈ servers ->
    (forall w', rtc (called meth args servers) (after meth args servers k w) w' ->
      ∃ r, (call w' s meth args).2 = Some r ∧ wrong r = false) ->
    is_Some (loop (S k))).

Lemma retry_loop (wrong : Rep -> bool) (value : Rep -> Res) (w : W) :
  (forall r, accept r = if wrong r then None else Some (value r)) ->
  loop_contract wrong value w (λ fuel, retry meth args accept servers fuel w []).
Proof.
  intros Ha. destruct (retry_contract meth args accept servers w) as [Hs Ht]. split.
  - intros fuel w' tr res Hr. destruct (retry_calls _ _ _ _ _ _ Hr) as (new0 & E & Hm). simpl in E. subst new0.
    apply Hs in Hr as (new & s & r & -> & Hacc & Hrej & Hk). split_and!; [done|done|].
    exists new, s, r. rewrite Ha in Hacc. destruct (wrong r) eqn:Hw; simplify_eq.
    split_and!; [done..|]. intros s' r' Hin. rewrite Forall_forall in Hrej.
    specialize (Hrej _ Hin). unfold rejected in Hrej. simpl in Hrej. rewrite Ha in Hrej.
    by destruct (wrong r').
  - intros k s Hin Hans. apply (Ht k s). split; [done|]. intros w' Hw'.
    destruct (Hans w' Hw') as (r & -> & Hr). simpl. rewrite Ha, Hr. by eexists.
Qed.
End Calls.

(** ** The loop over the servers of a group *)

(** The configuration gives the key to the group [srvs]: the shard is the first byte of the key
    modulo 10. *)
Definition assigned (c : ShardConfig) (key : string) (srvs : list string) : Prop :=
  ∃ gid, Shards c !! match key with EmptyString => 0 | String a _ => nat_of_ascii a mod 10 end = Some gid ∧
    Groups c !! gid = Some srvs.

Lemma key2shard_spec key :
  key2shard key = match key with EmptyString => 0 | String a _ => nat_of_ascii a mod 10 end.
Proof. by destruct key. Qed.

Lemma assigned_group c key srvs : assigned c key srvs -> group_of key c = srvs.
Proof. intros (gid & Hs & Hg). unfold group_of. rewrite key2shard_spec, Hs, Hg. done. Qed.

Lemma group_assigned c key :
  assigned c key (group_of key c) ∨ (forall srvs, ¬ assigned c key srvs) ∧ group_of key c = [].
Proof.
  unfold assigned, group_of. rewrite key2shard_spec.
  destruct (Shards c !! _) as [gid|]; [|right; naive_solver].
  destruct (Groups c !! gid) as [srvs|] eqn:Hg; [left; by exists gid|right; naive_solver].
Qed.

Section Group.
Context {W Rep : Type} `{!Rpc W string KvArgs Rep} (meth : string) (args : KvArgs) (key : string).
Context (err : Rep -> Err) (ok : Err -> Prop).

(** The clerk goes on to the next server. *)
Definition skipped (x : string * option Rep) : Prop :=
  forall r, x.2 = Some r -> ¬ ok (err r) ∧ err r ≠ ErrWrongGroup.

(** A round that ends with a new configuration: no group has the key, or every server of the
    group was asked in vain, or one said that it is the wrong group. *)
Inductive failed_round (c : ShardConfig) (w w' : W) : Prop :=
| round_no_group : (forall srvs, ¬ assigned c key srvs) -> w' = w -> failed_round c w w'
| round_all srvs tr :
    assigned c key srvs -> calls_made meth args w tr w' -> tr.*1 = srvs -> Forall skipped tr ->
    failed_round c w w'
| round_wrong srvs tr s r :
    assigned c key srvs -> calls_made meth args w (tr ++ [(s, Some r)]) w' ->
    (tr ++ [(s, Some r)]).*1 `prefix_of` srvs -> Forall skipped tr -> ¬ ok (err r) -> err r = ErrWrongGroup ->
    failed_round c w w'.

(** A round in which a server gave an answer: the calls, the reply. *)
Definition good_round (c : ShardConfig) (w : W) (tr : list (string * option Rep)) (r : Rep) (w' : W) : Prop :=
  ∃ srvs new s, assigned c key srvs ∧ tr = new ++ [(s, Some r)] ∧ calls_made meth args w tr w' ∧
    tr.*1 `prefix_of` srvs ∧ Forall skipped new ∧ ok (err r).

(** Rounds that failed, each followed by a query for the configuration of the next. *)
Context (query : W -> option (W * ShardConfig)).

Inductive failed_rounds : nat -> ShardConfig -> W -> ShardConfig -> W -> Prop :=
| rounds_0 c w : failed_rounds 0 c w c w
| rounds_S k c w w1 w2 c1 c' w' :
    failed_round c w w1 -> query w1 = Some (w2, c1) -> failed_rounds k c1 w2 c' w' ->
    failed_rounds (S k) c w c' w'.

(** *** The code *)
Context (accepts : Err -> bool) (Hok : forall e, accepts e = true <-> ok e).

Abbreviation try := (try_group meth args err accepts).

Lemma accepts_false e : accepts e = false <-> ¬ ok e.
Proof. rewrite <- Hok. by destruct (accepts e). Qed.

(** Everything that the loop over a group can do. *)
Lemma try_cases srvs w tr w' tr' o :
  try srvs w tr = (w', tr', o) ->
  ∃ new, tr' = tr ++ new ∧ calls_made meth args w new w' ∧ new.*1 `prefix_of` srvs ∧
    match o with
    | Some r => ∃ new0 s, new = new0 ++ [(s, Some r)] ∧ Forall skipped new0 ∧ ok (err r)
    | None => new.*1 = srvs ∧ Forall skipped new ∨
        ∃ new0 s r, new = new0 ++ [(s, Some r)] ∧ Forall skipped new0 ∧ ¬ ok (err r) ∧ err r = ErrWrongGroup
    end.
Proof.
  revert w tr. induction srvs as [|s srvs IH]; intros w tr Ht; simpl in Ht.
  { simplify_eq. exists []. rewrite app_nil_r. split_and!; [done|constructor|done|]. left. by split. }
  destruct (call w s meth args) as [w1 r] eqn:Hc.
  assert (Hone : calls_made meth args w [(s, r)] w1) by (econstructor; [done|constructor]).
  assert (Hpre : [(s, r)].*1 `prefix_of` s :: srvs) by by exists srvs.
  assert (Hnext : skipped (s, r) -> try srvs w1 (tr ++ [(s, r)]) = (w', tr', o) ->
    ∃ new, tr' = tr ++ new ∧ calls_made meth args w new w' ∧ new.*1 `prefix_of` s :: srvs ∧
      match o with
      | Some r => ∃ new0 s, new = new0 ++ [(s, Some r)] ∧ Forall skipped new0 ∧ ok (err r)
      | None => new.*1 = s :: srvs ∧ Forall skipped new ∨
          ∃ new0 s r, new = new0 ++ [(s, Some r)] ∧ Forall skipped new0 ∧ ¬ ok (err r) ∧ err r = ErrWrongGroup
      end).
  { intros Hr Ht'. apply IH in Ht' as (new & -> & Hm & Hp & Ho). exists ((s, r) :: new).
    split_and!; [by rewrite <- app_assoc|by econstructor|by apply prefix_cons|].
    destruct o as [r'|].
    - destruct Ho as (new0 & s' & -> & Hall & Hr'). exists ((s, r) :: new0), s'.
      split_and!; [done|by constructor|done].
    - destruct Ho as [[<- Hall]|(new0 & s' & r' & -> & Hall & Hr')]; [left; split; [done|by constructor]|].
      right. exists ((s, r) :: new0), s', r'. split_and!; [done|by constructor|tauto|tauto]. }
  destruct r as [r|]; [|by apply Hnext].
  destruct (accepts (err r)) eqn:Ha; [|case_decide as Hw].
  - simplify_eq. exists [(s, Some r)]. split_and!; [done..|]. exists [], s.
    split_and!; [done..|by apply Hok].
  - simplify_eq. exists [(s, Some r)]. split_and!; [done..|]. right. exists [], s, r.
    split_and!; [done..|by apply accepts_false|done].
  - apply Hnext; [|done]. intros r' [= <-]. split; [by apply accepts_false|done].
Qed.

Lemma try_skip srvs srvs' w tr0 tr w1 :
  calls_made meth args w tr w1 -> tr.*1 = srvs -> Forall skipped tr ->
  try (srvs ++ srvs') w tr0 = try srvs' w1 (tr0 ++ tr).
Proof.
  intros Hm. revert srvs tr0. induction Hm as [w|w s o w2 tr w1 Hc _ IH]; intros srvs tr0 <- Hall.
  { by rewrite app_nil_r. }
  apply Forall_cons in Hall as [Hs Hall]. rewrite fmap_cons. cbn [app try_group].
  replace (tr0 ++ (s, o) :: tr) with ((tr0 ++ [(s, o)]) ++ tr) by by rewrite <- app_assoc.
  rewrite <- (IH tr.*1 (tr0 ++ [(s, o)]) eq_refl Hall). simpl. rewrite Hc.
  destruct o as [r|]; [|done]. destruct (Hs r eq_refl) as [Hno Hne].
  apply accepts_false in Hno. rewrite Hno. by rewrite decide_False.
Qed.

Lemma calls_made_snoc w tr s o w' :
  calls_made meth args w (tr ++ [(s, o)]) w' <->
  ∃ w1, calls_made meth args w tr w1 ∧ call w1 s meth args = (w', o).
Proof.
  split.
  - revert w. induction tr as [|[s' o'] tr IH]; intros w Hm; simpl in Hm; inversion Hm as [|? ? ? w2 ? ? Hc Hm']; subst.
    + inversion Hm'; subst. exists w. split; [constructor|done].
    + destruct (IH _ Hm') as (w1 & Hm1 & Hc1). exists w1. split; [by econstructor|done].
  - intros (w1 & Hm & Hc). eapply calls_made_app; [done|]. econstructor; [done|constructor].
Qed.

(** One step of the loop decides the rest. *)
Lemma try_last srvs w tr s r w' :
  calls_made meth args w (tr ++ [(s, Some r)]) w' -> (tr ++ [(s, Some r)]).*1 `prefix_of` srvs ->
  Forall skipped tr ->
  (ok (err r) -> try srvs w [] = (w', tr ++ [(s, Some r)], Some r)) ∧
  (¬ ok (err r) -> err r = ErrWrongGroup -> try srvs w [] = (w', tr ++ [(s, Some r)], None)).
Proof.
  intros (w1 & Hm & Hc)%calls_made_snoc [rest ->] Hall.
  rewrite fmap_app, <- app_assoc, (try_skip _ _ _ _ _ _ Hm eq_refl Hall). simpl. rewrite Hc. split.
  - intros Hr%Hok. by rewrite Hr.
  - intros Hr Hw. apply accepts_false in Hr. rewrite Hr. by rewrite decide_True.
Qed.

(** A round of the code is a round of the specification. *)
Lemma round_failed c w w' :
  failed_round c w w' <-> ∃ tr, try (group_of key c) w [] = (w', tr, None).
Proof.
  split.
  - intros [Hno ->|srvs tr Ha Hm Hs Hall|srvs tr s r Ha Hm Hp Hall Hno Hw].
    + exists []. destruct (group_assigned c key) as [Ha|[_ ->]]; [by destruct (Hno _ Ha)|done].
    + exists tr. rewrite (assigned_group _ _ _ Ha), <- (app_nil_r srvs).
      by rewrite (try_skip _ _ _ _ _ _ Hm Hs Hall).
    + exists (tr ++ [(s, Some r)]). rewrite (assigned_group _ _ _ Ha).
      by apply (try_last srvs w tr s r w').
  - intros (tr & Ht). apply try_cases in Ht as (new & -> & Hm & Hp & Ho).
    destruct (group_assigned c key) as [Ha|[Hno Hg]].
    + destruct Ho as [[Hs Hall]|(new0 & s & r & -> & Hall & Hr & Hw)].
      * by eapply round_all.
      * by eapply round_wrong.
    + apply round_no_group; [done|]. rewrite Hg in Hp. apply prefix_nil_inv, fmap_nil_inv in Hp as ->.
      by inversion Hm.
Qed.

Lemma round_good c w tr r w' :
  good_round c w tr r w' <-> try (group_of key c) w [] = (w', tr, Some r).
Proof.
  split.
  - intros (srvs & new & s & Ha & -> & Hm & Hp & Hall & Hr). rewrite (assigned_group _ _ _ Ha).
    by apply (try_last srvs w new s r w').
  - intros Ht. apply try_cases in Ht as (new & -> & Hm & Hp & new0 & s & -> & Hall & Hr).
    destruct (group_assigned c key) as [Ha|[_ Hg]].
    + by exists (group_of key c), new0, s.
    + rewrite Hg, fmap_app in Hp. by apply prefix_nil_inv, app_nil in Hp as [_ ?].
Qed.

(** The outer loop returns exactly with the first round that succeeds. *)
Lemma request_exact fuel c w w' c' tr r :
  request query meth args key err accepts fuel c w = Some (w', c', tr, r) <->
  ∃ k w1, k < fuel ∧ failed_rounds k c w c' w1 ∧ good_round c' w1 tr r w'.
Proof.
  revert c w. induction fuel as [|fuel IH]; intros c w; cbn [request].
  { split; [done|]. intros (k & _ & Hk & _). lia. }
  destruct (try (group_of key c) w []) as [[w1 tr1] [r1|]] eqn:Ht.
  - apply round_good in Ht as Hg. split.
    + intros [= -> -> -> ->]. exists 0, w. split_and!; [lia|constructor|done].
    + intros (k & w2 & _ & Hf & Hg'). destruct Hf as [c w|k c w w2' w3 c1 c' w2 Hf _ _].
      * apply round_good in Hg'. rewrite Hg' in Ht. by simplify_eq.
      * apply round_failed in Hf as (tr2 & Hf). by rewrite Hf in Ht.
  - assert (Hf : failed_round c w w1) by (apply round_failed; by exists tr1).
    destruct (query w1) as [[w2 c2]|] eqn:Hq; [rewrite IH|]; split; try done.
    + intros (k & w3 & Hk & Hr & Hg). exists (S k), w3. split_and!; [lia|by econstructor|done].
    + intros (k & w3 & Hk & Hr & Hg). inversion Hr as [|k' ? ? w1' w2' c1 ? ? Hf' Hq' Hr']; subst.
      * apply round_good in Hg. by rewrite Hg in Ht.
      * apply round_failed in Hf' as (tr2 & Hf'). rewrite Hf' in Ht. simplify_eq.
        exists k', w3. split_and!; [lia|done..].
    + intros (k & w3 & Hk & Hr & Hg). inversion Hr as [|k' ? ? w1' w2' c1 ? ? Hf' Hq' Hr']; subst.
      * apply round_good in Hg. by rewrite Hg in Ht.
      * apply round_failed in Hf' as (tr2 & Hf'). rewrite Hf' in Ht. by simplify_eq.
Qed.

(** The group serves the key: one of its servers keeps giving a good answer, and no server says
    that it is the wrong group. *)
Definition group_serves (srvs : list string) (w : W) : Prop :=
  ∃ s, s ∈ srvs ∧ forall w', rtc (kcalled meth args srvs) w w' ->
    (∃ r, (call w' s meth args).2 = Some r ∧ ok (err r)) ∧
    (forall s' r, s' ∈ srvs -> (call w' s' meth args).2 = Some r -> ok (err r) ∨ err r ≠ ErrWrongGroup).

Lemma request_returns k c w c' w' srvs :
  failed_rounds k c w c' w' -> assigned c' key srvs -> group_serves srvs w' ->
  is_Some (request query meth args key err accepts (S k) c w).
Proof.
  intros Hf Ha (s & Hs & Hserve).
  destruct (try_group_serves (W := W) query meth args err accepts srvs s srvs w' []) as (w2 & tr & r & Ht); [done|done|..].
  { intros w2 Hw2. destruct (Hserve w2 Hw2) as [(r & Hr & Hr') Hall].
    split; [exists r; split; [done|by apply Hok]|]. intros s' r' Hs' Hr2.
    destruct (Hall s' r' Hs' Hr2) as [?|?]; [left; by apply Hok|by right]. }
  rewrite <- (assigned_group _ _ _ Ha) in Ht. apply round_good in Ht.
  exists (w2, c', tr, r). apply request_exact. exists k, w'. split_and!; [lia|done..].
Qed.
End Group.

Lemma get_accepts_spec e : get_accepts e = true <-> e = OK ∨ e = ErrNoKey.
Proof. apply bool_decide_eq_true. Qed.

Lemma put_accepts_spec e : put_accepts e = true <-> e = OK.
Proof. apply bool_decide_eq_true. Qed.

(** ** Theorems *)

(** C38: each of the shard-controller clerk's [Query], [Join], [Leave] and [Move] sends its own
    request to the servers in turn, again and again, until a reply does not say [WrongLeader]:
    every earlier call failed or was answered with [WrongLeader], the last was not, and [Query]
    returns the configuration in its reply.  If after [k] passes some server keeps answering
    without [WrongLeader], the operation returns in the next pass. *)
Theorem shardctrler_clerk_correct {W Srv : Type} `{!Rpc W Srv CtrlArgs QueryReply}
    `{!Rpc W Srv CtrlArgs CtrlReply} (servers : list Srv) (w : W)
    (num shard gid : Z) (groups : gmap Z (list string)) (gids : list Z) :
  loop_contract "ShardCtrler.Query" (QueryArgs num) servers WrongLeader QConfig w
    (λ fuel, Query servers fuel num w) ∧
  loop_contract "ShardCtrler.Join" (JoinArgs groups) servers CWrongLeader (λ _, tt) w
    (λ fuel, Join servers fuel groups w) ∧
  loop_contract "ShardCtrler.Leave" (LeaveArgs gids) servers CWrongLeader (λ _, tt) w
    (λ fuel, Leave servers fuel gids w) ∧
  loop_contract "ShardCtrler.Move" (MoveArgs shard gid) servers CWrongLeader (λ _, tt) w
    (λ fuel, Move servers fuel shard gid w).
Proof. split_and!; by apply retry_loop. Qed.

(** C39: a sharded clerk's [Get] returns exactly when a round succeeds.  In each round the clerk
    asks the servers of the group to which its configuration gives the shard of the key, the first
    byte modulo 10, in their order: it goes on after a failed call and after errors other than
    [ErrWrongGroup], and after a round that failed it queries the controllers for the next
    configuration.  [Get] succeeds with [OK] or [ErrNoKey] and returns the value of that reply;
    [Put] and [Append] send their own operation and need [OK].  If after [k] rounds the group in
    use serves the key, [Get] returns in the next. *)
Theorem ShardKV_clerk_correct {W Srv : Type} `{!Rpc W Srv CtrlArgs QueryReply}
    `{!Rpc W string KvArgs GetReply} `{!Rpc W string KvArgs PutAppendReply}
    (ctrlers : list Srv) (qfuel : nat) (config : ShardConfig) (key value : string) (w : W) :
  let query w := '(w', _, c) ← Query ctrlers qfuel (-1) w; Some (w', c) in
  let get_ok e := e = OK ∨ e = ErrNoKey in
  let put_ok e := e = OK in
  let put_args op := PutAppendArgs key value op in
  (forall fuel w' config' tr v,
    Get ctrlers qfuel fuel config key w = Some (w', config', tr, v) <->
    ∃ k w1 r, k < fuel ∧ v = GValue r ∧
      failed_rounds "ShardKV.Get" (GetArgs key) key GErr get_ok query k config w config' w1 ∧
      good_round "ShardKV.Get" (GetArgs key) key GErr get_ok config' w1 tr r w') ∧
  (forall fuel w' config' tr op run,
    (op, run) ∈ [("Put", Put ctrlers qfuel fuel config key value w);
                 ("Append", Append ctrlers qfuel fuel config key value w)] ->
    run = Some (w', config', tr) <->
    ∃ k w1 r, k < fuel ∧
      failed_rounds "ShardKV.PutAppend" (put_args op) key PErr put_ok query k config w config' w1 ∧
      good_round "ShardKV.PutAppend" (put_args op) key PErr put_ok config' w1 tr r w') ∧
  (forall k config' w' srvs,
    failed_rounds "ShardKV.Get" (GetArgs key) key GErr get_ok query k config w config' w' ->
    assigned config' key srvs -> group_serves "ShardKV.Get" (GetArgs key) GErr get_ok srvs w' ->
    is_Some (Get ctrlers qfuel (S k) config key w)).
Proof.
  intros query get_ok put_ok put_args. split_and!.
  - intros fuel w' config' tr v. unfold Get. split.
    + intros Hg. inv_bind. rename select (request _ _ _ _ _ _ _ _ _ = _) into Hg.
      apply (request_exact _ _ _ _ get_ok) in Hg as (k & w1 & Hk & Hf & Hr); [|apply get_accepts_spec].
      by eexists k, w1, _.
    + intros (k & w1 & r & Hk & -> & Hf & Hr).
      assert (Hq : request (latest ctrlers qfuel) "ShardKV.Get" (GetArgs key) key GErr get_accepts fuel
        config w = Some (w', config', tr, r)); [|by rewrite Hq].
      apply (request_exact _ _ _ _ get_ok _ _ get_accepts_spec). by exists k, w1.
  - intros fuel w' config' tr op run Hop.
    assert (Hiff : PutAppend ctrlers qfuel fuel config key value op w = Some (w', config', tr) <->
      ∃ k w1 r, k < fuel ∧
        failed_rounds "ShardKV.PutAppend" (put_args op) key PErr put_ok query k config w config' w1 ∧
        good_round "ShardKV.PutAppend" (put_args op) key PErr put_ok config' w1 tr r w').
    { unfold PutAppend. split.
      - intros Hg. inv_bind. rename select (request _ _ _ _ _ _ _ _ _ = _) into Hg.
        apply (request_exact _ _ _ _ put_ok) in Hg as (k & w1 & Hk & Hf & Hr); [|apply put_accepts_spec].
        by eexists k, w1, _.
      - intros (k & w1 & r & Hk & Hf & Hr).
        assert (Hq : request (latest ctrlers qfuel) "ShardKV.PutAppend" (PutAppendArgs key value op) key PErr
          put_accepts fuel config w = Some (w', config', tr, r)); [|by rewrite Hq].
        apply (request_exact _ _ _ _ put_ok _ _ put_accepts_spec). by exists k, w1. }
    apply elem_of_cons in Hop as [[= -> ->]|Hop]; [exact Hiff|].
    apply list_elem_of_singleton in Hop as [= -> ->]. exact Hiff.
  - intros k config' w' srvs Hf Ha Hs.
    destruct (request_returns "ShardKV.Get" (GetArgs key) key GErr get_ok query get_accepts
      get_accepts_spec k config w config' w' srvs Hf Ha Hs) as [[[[w2 c2] tr2] r] Hq].
    unfold Get. change (latest ctrlers qfuel) with query. rewrite Hq. by eexists.
Qed.

(** ** Witnesses

    The first two calls reach a controller that is not the leader; then the configuration
    assigns every shard to group 1, in which server "a" does not answer. *)
Module ClerksDemo.

Definition cfg1 : ShardConfig := MkShardConfig 1 (replicate 10 1%Z) {[1%Z := ["a"; "b"]]}.
Definition cfg0 : ShardConfig := MkShardConfig 0 (replicate 10 0%Z) ∅.

#[export] Instance ctrl_rpc : Rpc nat nat CtrlArgs QueryReply :=
  λ w _ _ _, (S w, Some (MkQueryReply (bool_decide (w < 2)) "" cfg1)).
#[export] Instance ctrl_ack : Rpc nat nat CtrlArgs CtrlReply :=
  λ w _ _ _, (S w, Some (MkCtrlReply (bool_decide (w < 2)) "")).
#[export] Instance get_rpc : Rpc nat string KvArgs GetReply :=
  λ w s _ _, (S w, if decide (s = "b") then Some (MkGetReply OK "v") else None).
#[export] Instance put_rpc : Rpc nat string KvArgs PutAppendReply :=
  λ w s _ _, (S w, if decide (s = "b") then Some (MkPutAppendReply OK) else None).

Lemma counts_up w w' :
  rtc (called (W:=nat) (Rep:=QueryReply) "ShardCtrler.Query" (QueryArgs (-1)) [0; 1]) w w' ->
  w ≤ w'.
Proof. induction 1 as [|x y z (s & _ & ->) _ IH]; [done|]. simpl in IH. lia. Qed.

End ClerksDemo.
Import ClerksDemo.

Lemma shardctrler_clerk_correct_witness : is_Some (Query (W:=nat) [0; 1] 2 (-1) 0).
Proof.
  apply (proj2 (proj1 (shardctrler_clerk_correct [0; 1] 0 (-1) 0 0 ∅ [])) 1 0); [left|].
  intros w' Hw%counts_up. simpl in Hw. unfold call, ctrl_rpc. simpl. eexists. split; [done|]. simpl.
  rewrite bool_decide_false by lia. done.
Defined.

(** The clerk starts without a configuration and asks the controllers once. *)
Lemma ShardKV_clerk_correct_witness : is_Some (Get (W:=nat) [0; 1] 5 2 cfg0 "key" 0).
Proof.
  apply (proj2 (proj2 (ShardKV_clerk_correct [0; 1] 5 cfg0 "key" "" 0)) 1 cfg1 3 ["a"; "b"]).
  - apply rounds_S with (w1 := 0) (w2 := 3) (c1 := cfg1); [|vm_compute; reflexivity|constructor].
    apply round_no_group; [|done]. intros srvs (gid & _ & Hg). simpl in Hg. by rewrite lookup_empty in Hg.
  - exists 1%Z. split; reflexivity.
  - exists "b". split; [right; left|].
    intros w' _. split; [eexists; split; [reflexivity|by left]|]. intros s' r _ Hr. unfold call, get_rpc in Hr.
    destruct (decide (s' = "b")); simpl in Hr; simplify_eq. left. by left.
Defined.
