(* ===== verification/Servers.v ===== *)
(** * The servers as they stand

    [raft/raft.go] and the servers of [kvraft], [kvsrv], [shardctrler] and [shardkv] are
    skeletons: their handlers do nothing, [GetState] and [Start] return fixed values.  What they
    do have: flags set by [Kill], the ticker, and the methods that [MakeService] finds. *)
From S2P Require Import Prelude Labrpc LabrpcProof RaftChecker RaftConfig Clerks.
From Stdlib Require Import Strings.Byte Strings.Ascii.
Import Labrpc RaftConfig Clerks.

(** ** [raft/raft.go] *)
Module RaftServer.

(** [GetState] and [Start] do not look at the receiver. *)
Definition GetState (rf : option raft) : Z * bool := (0%Z, false).

Definition Start {V} (rf : option raft) (command : V) : Z * Z * bool := ((-1)%Z, (-1)%Z, true).

(** Returns without an effect, whether there is a state or not. *)
Definition readPersist (rf : raft) (data : list byte) : raft := rf.

Definition Make (peers : list string) (me : nat) (persister : nat) (saved : list byte) : raft :=
  readPersist (MkRaft me peers persister false) saved.

Definition killed (rf : raft) : bool := dead rf.

(** [ticker]: about to read [dead], in [Sleep] for some milliseconds, or returned. *)
Inductive ticker := Checking | Sleeping (ms : Z) | Returned.

(** One step of the goroutine; [r] is the result of [rand.Int63]. *)
Inductive tick (rf : raft) : ticker -> ticker -> Prop :=
| T_stop : killed rf = true -> tick rf Checking Returned
| T_pause r : killed rf = false -> (0 ≤ r < 2 ^ 63)%Z ->
    tick rf Checking (Sleeping (50 + Z.rem r 300))
| T_wake ms : tick rf (Sleeping ms) Checking.

(** The goroutine with its instance, which can be killed at any time. *)
Inductive run_step : raft * ticker -> raft * ticker -> Prop :=
| R_tick rf t t' : tick rf t t' -> run_step (rf, t) (rf, t')
| R_kill rf t : run_step (rf, t) (kill rf, t).

End RaftServer.

(** ** The other servers *)
Module KVServers.

Record KVServer := MkKVServer { kv_me : nat; kv_rf : raft; kv_dead : bool; kv_maxraftstate : Z }.

Definition StartKVServer (servers : list string) (me persister : nat) (saved : list byte)
    (maxraftstate : Z) : KVServer :=
  MkKVServer me (RaftServer.Make servers me persister saved) false maxraftstate.

Definition Kill (kv : KVServer) : KVServer :=
  MkKVServer (kv_me kv) (kill (kv_rf kv)) true (kv_maxraftstate kv).

Definition kv_killed (kv : KVServer) : bool := kv_dead kv.

Record ShardCtrler := MkShardCtrler { sc_me : nat; sc_rf : raft; configs : list ShardConfig }.

(** Configuration 0 has no groups, and every shard is in group 0. *)
Definition empty_config : ShardConfig := MkShardConfig 0 (replicate NShards 0%Z) ∅.

Definition StartShardCtrler (servers : list string) (me persister : nat) (saved : list byte) : ShardCtrler :=
  MkShardCtrler me (RaftServer.Make servers me persister saved)
    [empty_config].

Definition KillShardCtrler (sc : ShardCtrler) : ShardCtrler :=
  MkShardCtrler (sc_me sc) (kill (sc_rf sc)) (configs sc).

Definition Raft (sc : ShardCtrler) : raft := sc_rf sc.

Record ShardKV := MkShardKV {
  sk_me : nat; sk_rf : raft; sk_gid : Z; ctrlers : list string; sk_maxraftstate : Z
}.

Definition StartShardKV (servers : list string) (me persister : nat) (saved : list byte)
    (maxraftstate gid : Z) (ctrlers : list string) : ShardKV :=
  MkShardKV me (RaftServer.Make servers me persister saved) gid ctrlers maxraftstate.

Definition KillShardKV (kv : ShardKV) : ShardKV :=
  MkShardKV (sk_me kv) (kill (sk_rf kv)) (sk_gid kv) (ctrlers kv) (sk_maxraftstate kv).

End KVServers.

(** ** The methods that reflection finds *)
Module Methods.
Section Methods.
Context {App Arg Rep : Type} (zero : Rep).
Abbreviation method := (@method App Arg Rep).

(** A handler that leaves its reply as it is. *)
Definition nothing (app : App) (args : Arg) : App * Rep := (app, zero).

(** A handler: the receiver, the arguments and a pointer to the reply, and no result. *)
Definition rpc (name : string) : method := Method name "" 3 true 0 nothing.

(** Another exported method, of [k] arguments with the receiver and [o] results; the second
    argument is not a pointer.  It is never called by its name. *)
Definition plain (name : string) (k o : nat) : method := Method name "" k false o nothing.

Definition Raft_methods : list method :=
  [plain "GetState" 1 2; plain "Kill" 1 0; rpc "RequestVote"; plain "Snapshot" 3 0;
   plain "Start" 2 3].

(** [kvraft] and [shardkv] *)
Definition KVServer_methods : list method := [rpc "Get"; plain "Kill" 1 0; rpc "PutAppend"].

Definition ShardCtrler_methods : list method :=
  [rpc "Join"; plain "Kill" 1 0; rpc "Leave"; rpc "Move"; rpc "Query"; plain "Raft" 1 1].

(** [kvsrv] *)
Definition Kvsrv_methods : list method := [rpc "Append"; rpc "Get"; rpc "Put"].

(** The server objects that the harnesses make. *)
Definition serve (svcs : list (string * list method)) : @Server App Arg Rep :=
  foldl (λ rs x, AddService rs (MakeService x.1 x.2)) MakeServer svcs.

End Methods.
End Methods.
Import RaftServer.

(** ** The ticker *)

Lemma kill_killed rf : killed (kill rf) = true.
Proof. done. Qed.

Lemma pause_range r : (0 ≤ r)%Z -> (50 ≤ 50 + Z.rem r 300 < 350)%Z.
Proof. intros Hr. pose proof (Z.rem_bound_pos r 300 Hr). lia. Qed.

(** The ticker of an instance pauses between 50 and 349 milliseconds at a time and goes on
    until the instance is killed; after that it returns at the latest when its pause is over,
    and it can always make a step until it has returned. *)
Theorem ticker_stops rf0 rf t :
  killed rf0 = false -> rtc run_step (rf0, Checking) (rf, t) ->
  (forall ms, t = Sleeping ms -> (50 ≤ ms < 350)%Z) ∧
  (t = Returned -> killed rf = true) ∧
  (t ≠ Returned -> ∃ t', tick rf t t') ∧
  (forall k t', killed rf = true -> nsteps (tick rf) k t t' -> k ≤ 2 ∧ (k = 2 -> t' = Returned)).
Proof.
  intros H0 Hr.
  set (inv := λ x : raft * ticker, (forall ms, x.2 = Sleeping ms -> (50 ≤ ms < 350)%Z) ∧
    (x.2 = Returned -> killed x.1 = true)).
  assert (Hstep : forall x y, run_step x y -> inv x -> inv y).
  { intros x y [rf1 t1 t2 Ht|rf1 t1] IH; unfold inv in *; simpl in *; [|by split; [apply IH|]].
    destruct Ht as [Hk|r Hk Hr1|ms]; split; try done. intros ms [= <-]. apply pause_range. lia. }
  assert (Hinv : inv (rf, t)).
  { assert (Hi : inv (rf0, Checking)) by done. clear H0. induction Hr as [x|x y z Hxy _ IH]; eauto. }
  destruct Hinv as [H1 H2]. split_and!; [done|done| |].
  - intros Hne. destruct t as [|ms|]; [|exists Checking; constructor|done].
    destruct (killed rf) eqn:Hk; [exists Returned; by constructor|].
    exists (Sleeping (50 + Z.rem 0 300)). constructor; [done|lia].
  - intros k t' Hk Hn.
    assert (Hret : forall u, ¬ tick rf Returned u) by (intros u Hu; inversion Hu).
    assert (Hchk : forall u, tick rf Checking u -> u = Returned) by (intros u Hu; inversion Hu; congruence).
    assert (Hslp : forall ms u, tick rf (Sleeping ms) u -> u = Checking) by (intros ms u Hu; by inversion Hu).
    inversion Hn as [|? ? u ? Hs1 Hn1]; subst; [by split; [lia|]|].
    inversion Hn1 as [|? ? v ? Hs2 Hn2]; subst; [by split; [lia|]|].
    destruct t as [|ms|]; [apply Hchk in Hs1 as ->; by apply Hret in Hs2| |by apply Hret in Hs1].
    apply Hslp in Hs1 as ->. apply Hchk in Hs2 as ->.
    inversion Hn2 as [|? ? ? ? Hs3 _]; subst; [by split; [lia|]|by apply Hret in Hs3].
Qed.

(** ** The checks of the harness on these servers *)

(** What the servers answer to [GetState]. *)
Definition skeleton_states (rafts : list (option raft)) : list (Z * bool) := GetState <$> rafts.

(** What a connected server answers to [Start]: its index and whether it leads. *)
Definition skeleton_start {V} (connected : list bool) (rafts : list (option raft)) (cmd : V) (s : nat) :
    option (Z * bool) :=
  match connected !! s, rafts !! s with
  | Some true, Some (Some rf) => let '(index, _, ok) := Start (Some rf) cmd in Some (index, ok)
  | _, _ => None
  end.

Lemma foldl_idle {A B} (f : B -> A -> B) (b : B) (l : list A) :
  (forall x, x ∈ l -> f b x = b) -> foldl f b l = b.
Proof.
  intros Hf. induction l as [|x l IH]; simpl; [done|].
  rewrite Hf by left. apply IH. intros y Hy. apply Hf. by right.
Qed.

Lemma skeleton_states_const rafts x : x ∈ skeleton_states rafts -> x = (0%Z, false).
Proof. by intros (rf & -> & _)%list_elem_of_fmap. Qed.

Lemma skeleton_zip (connected : list bool) rafts (b : bool) (x : Z * bool) : (b, x) ∈ zip connected (skeleton_states rafts) -> x = (0%Z, false).
Proof. intros Hx. by apply elem_of_zip_r, skeleton_states_const in Hx. Qed.

Lemma skeleton_round connected rafts :
  RaftChecker.leader_round connected (skeleton_states rafts) = RaftChecker.Pass None.
Proof.
  unfold RaftChecker.leader_round.
  assert (He : RaftChecker.collect_leaders connected (skeleton_states rafts) = ∅); [|by rewrite He].
  unfold RaftChecker.collect_leaders. apply foldl_idle.
  intros x (i & Hx)%list_elem_of_lookup. apply list_lookup_imap_Some in Hx as ([b st] & Hx & ->).
  apply list_elem_of_lookup_2, skeleton_zip in Hx as ->. by destruct b.
Qed.

Lemma skeleton_no_leader connected rafts :
  RaftChecker.checkNoLeader connected (skeleton_states rafts) = RaftChecker.Pass ().
Proof.
  unfold RaftChecker.checkNoLeader.
  assert (Hg : forall xs, (forall b x, (b, x) ∈ xs -> x = (0%Z, false)) ->
    RaftChecker.checkNoLeader_loop xs = RaftChecker.Pass ()).
  { induction xs as [|[b x] xs IH]; intros Hx; simpl; [done|].
    rewrite (Hx b x) by left. rewrite IH; [by destruct b|]. intros b' x' Hin. apply (Hx b'). by right. }
  apply Hg. intros b x. apply skeleton_zip.
Qed.

Lemma skeleton_try {V} connected rafts (cmd : V) k n starts :
  (RaftChecker.try_servers k n starts (skeleton_start connected rafts cmd)).2 = (-1)%Z.
Proof.
  revert starts. induction k as [|k IH]; intros starts; simpl; [done|].
  destruct (skeleton_start connected rafts cmd ((starts + 1) mod n)) as [[index b]|] eqn:Hs; [|apply IH].
  unfold skeleton_start in Hs.
  destruct (connected !! _) as [[]|]; [|done..]. destruct (rafts !! _) as [[rf|]|]; [|done..].
  by injection Hs as <- <-.
Qed.

(** With these servers no test of the labs passes that needs a leader: in every round
    [checkNoLeader] passes and [checkOneLeader] fails, and [one] gives up whatever it polls,
    although every server that is asked claims in its answer to [Start] that it is the leader,
    which [GetState] denies. *)
Theorem skeleton_has_no_leader {V} `{!EqDecision V} (vnil cmd : V)
    (rounds : list (list bool * list (option raft) * list (@RaftChecker.config V))) :
  (forall connected rafts,
    RaftChecker.checkNoLeader connected (skeleton_states rafts) = RaftChecker.Pass () ∧
    RaftChecker.checkOneLeader connected (replicate 10 (skeleton_states rafts)) = RaftChecker.FatalErr) ∧
  (forall n finished expected retry starts,
    RaftChecker.one vnil n ((λ x, (skeleton_start x.1.1 x.1.2 cmd, x.2)) <$> rounds) finished cmd
      expected retry starts = if finished : bool then RaftChecker.Pass (-1)%Z else RaftChecker.FatalErr) ∧
  (forall rf, GetState rf = (0%Z, false) ∧ Start rf cmd = ((-1)%Z, (-1)%Z, true)).
Proof.
  split_and!; [|intros n finished expected retry|done].
  - intros connected rafts. split; [apply skeleton_no_leader|].
    generalize 10. intros k. induction k as [|k IH]; simpl; [done|]. by rewrite skeleton_round.
  - induction rounds as [|[[connected rs] polls] rest IH]; intros starts; simpl; [done|].
    pose proof (skeleton_try connected rs cmd n n starts) as Ht.
    destruct (RaftChecker.try_servers _ _ _ _) as [starts' index]. simpl in Ht. subst index. simpl. apply IH.
Qed.

(** ** What can be called over the network *)

Lemma dot_cases s : no_dot s ∨ ∃ svc meth, s = svc +:+ "." +:+ meth ∧ no_dot meth.
Proof.
  induction s as [|c s [IH|(svc & meth & -> & IH)]]; [by left| |].
  - destruct (decide (c = "."%char)) as [->|Hc]; [|by left]. right. by exists "", s.
  - right. exists (String c svc), meth. by rewrite append_cons.
Qed.

Section Surface.
Context {Name App Arg Rep ArgType : Type}.
Context (decode : ArgType -> list byte -> Arg) (encode : Rep -> list byte) (zero : Rep).
Abbreviation method := (@method App Arg Rep).
Implicit Types (svcs : list (string * list method)) (ms : list method).

Definition idle ms : Prop := forall m, m ∈ ms -> Func m = Methods.nothing zero ∧ no_dot (mname m).

Definition found ms : list string := mname <$> filter (λ m, suitable m = true) ms.

(** The names under which a server can be called. *)
Definition offered svcs : list string :=
  x ← svcs; (λ m, x.1 +:+ "." +:+ m) <$> found x.2.

Lemma make_service_idle t ms m :
  idle ms -> methods (MakeService t ms) !! m =
    if decide (m ∈ found ms) then Some (Methods.nothing zero) else None.
Proof.
  unfold MakeService. cbn [methods].
  assert (Hg : forall acc : gmap string (App -> Arg -> App * Rep), idle ms ->
    foldl (λ acc m, if suitable m then <[mname m := Func m]> acc else acc) acc ms !! m =
      if decide (m ∈ found ms) then Some (Methods.nothing zero) else acc !! m); [|by intros Hi; apply Hg].
  unfold found. induction ms as [|x ms IH]; intros acc Hi.
  { rewrite filter_nil. rewrite decide_False; [done|]. apply not_elem_of_nil. }
  cbn [foldl]. rewrite IH by (intros y Hy; apply Hi; by right). rewrite filter_cons.
  destruct (Hi x ltac:(left)) as [Hf _].
  destruct (suitable x); [rewrite (decide_True (P := true = true)) by done
    |by rewrite (decide_False (P := false = true)) by done].
  rewrite fmap_cons, Hf. destruct (decide (m ∈ mname <$> _)) as [Hin|Hn].
  - by rewrite decide_True by (by right).
  - destruct (decide (mname x = m)) as [<-|Hne].
    + rewrite lookup_insert_eq, decide_True by left. done.
    + rewrite lookup_insert_ne by done. rewrite decide_False; [done|]. intros [?|?]%elem_of_cons; congruence.
Qed.

Lemma serve_services svcs n :
  NoDup svcs.*1 ->
  (forall ms, (n, ms) ∈ svcs -> services (Methods.serve svcs) !! n = Some (MakeService n ms)) ∧
  (n ∉ svcs.*1 -> services (Methods.serve svcs) !! n = None).
Proof.
  unfold Methods.serve. induction svcs as [|[n' ms'] svcs IH] using rev_ind.
  { split; [|done]. intros ms Hm. by apply elem_of_nil in Hm. }
  rewrite fmap_app, foldl_app. intros (Hnd & Hdis & _)%NoDup_app. destruct (IH Hnd) as [IH1 IH2].
  simpl. destruct (decide (n' = n)) as [->|Hne].
  - rewrite lookup_insert_eq. split.
    + intros ms [Hm|[= ->]%list_elem_of_singleton]%elem_of_app; [|done].
      destruct (Hdis n); [|by left]. apply list_elem_of_fmap. by exists (n, ms).
    + intros []. apply elem_of_app. right. left.
  - rewrite lookup_insert_ne by done. split.
    + intros ms [Hm|[= ? ?]%list_elem_of_singleton]%elem_of_app; [by apply IH1|congruence].
    + intros Hn. apply IH2. intros Hin. apply Hn, elem_of_app. by left.
Qed.

Lemma append_dot_inj svc meth svc' meth' :
  no_dot meth -> no_dot meth' -> svc +:+ "." +:+ meth = svc' +:+ "." +:+ meth' ->
  svc = svc' ∧ meth = meth'.
Proof.
  intros H1 H2 He. pose proof (split_method_spec svc meth H1) as S1.
  rewrite He, split_method_spec in S1 by done. by injection S1 as -> ->.
Qed.

(** A request is answered when it names a method that was found; then nothing changes and the
    reply has its zero value.  Every other request is a fatal error or a panic. *)
Lemma serve_dispatch svcs (req : @reqMsg Name ArgType) app :
  NoDup svcs.*1 -> (forall x, x ∈ svcs -> idle x.2) ->
  let result := (server_dispatch decode encode (Methods.serve svcs) req app).2 in
  if decide (svcMeth req ∈ offered svcs) then result = Replied (app, ReplyMsg true (encode zero))
  else result = Fatal ∨ result = Panic.
Proof.
  intros Hnd Hidle. simpl. unfold server_dispatch. cbn [snd services].
  destruct (dot_cases (svcMeth req)) as [Hd|(svc & meth & Hm & Hd)].
  { rewrite split_method_no_dot by done. rewrite decide_False; [by right|].
    unfold offered. intros (x & Hin & _)%list_elem_of_bind.
    apply list_elem_of_fmap in Hin as (m & He & _). rewrite He in Hd.
    clear -Hd. induction x.1 as [|c s IH]; simpl in Hd; [by destruct Hd|by apply IH, Hd]. }
  rewrite Hm, split_method_spec by done. destruct (serve_services svcs svc Hnd) as [S1 S2].
  assert (Hoff : svc +:+ "." +:+ meth ∈ offered svcs <-> ∃ ms, (svc, ms) ∈ svcs ∧ meth ∈ found ms).
  { unfold offered. rewrite list_elem_of_bind. split.
    - intros ([n ms] & (m & He & Hf)%list_elem_of_fmap & Hin). simpl in *.
      assert (Hdm : no_dot m).
      { apply list_elem_of_fmap in Hf as (m' & -> & [_ Hm']%list_elem_of_filter). by apply (Hidle _ Hin). }
      apply append_dot_inj in He as [-> ->]; [|done..]. by exists ms.
    - intros (ms & Hin & Hf). exists (svc, ms). split; [|done]. apply list_elem_of_fmap. by exists meth. }
  destruct (decide (svc ∈ svcs.*1)) as [Hin|Hn].
  - apply list_elem_of_fmap in Hin as ([n ms] & -> & Hin). simpl in *. rewrite (S1 ms Hin).
    unfold service_dispatch. rewrite make_service_idle by (by apply (Hidle _ Hin)).
    destruct (decide (meth ∈ found ms)) as [Hf|Hf].
    + rewrite decide_True; [done|]. apply Hoff. eauto.
    + rewrite decide_False; [by left|]. intros (ms' & Hin' & Hf')%Hoff.
      rewrite (S1 ms' Hin') in S1. specialize (S1 ms Hin).
      assert (ms' = ms) as ->; [|done]. clear -Hnd Hin Hin'.
      apply list_elem_of_lookup in Hin as [i Hi], Hin' as [j Hj].
      assert (i = j) as ->; [|congruence].
      eapply (NoDup_lookup svcs.*1); [done|by rewrite list_lookup_fmap, Hi|by rewrite list_lookup_fmap, Hj].
  - rewrite S2 by done. rewrite decide_False; [by left|]. intros (ms & Hin & _)%Hoff.
    apply Hn, list_elem_of_fmap. by exists (svc, ms).
Qed.

End Surface.

Section Theorems.
Context {Name App Arg Rep ArgType : Type}.
Context (decode : ArgType -> list byte -> Arg) (encode : Rep -> list byte) (zero : Rep).

(** The services of the server objects that the harnesses register, with the names that a
    client can call. *)
Definition deployed : list (list (string * list (@method App Arg Rep)) * list string) :=
  [([("Raft", Methods.Raft_methods zero)], ["Raft.RequestVote"]);
   ([("KVServer", Methods.KVServer_methods zero); ("Raft", Methods.Raft_methods zero)],
    ["KVServer.Get"; "KVServer.PutAppend"; "Raft.RequestVote"]);
   ([("KVServer", Methods.Kvsrv_methods zero)],
    ["KVServer.Append"; "KVServer.Get"; "KVServer.Put"]);
   ([("ShardCtrler", Methods.ShardCtrler_methods zero); ("Raft", Methods.Raft_methods zero)],
    ["ShardCtrler.Join"; "ShardCtrler.Leave"; "ShardCtrler.Move"; "ShardCtrler.Query";
     "Raft.RequestVote"]);
   ([("ShardKV", Methods.KVServer_methods zero); ("Raft", Methods.Raft_methods zero)],
    ["ShardKV.Get"; "ShardKV.PutAppend"; "Raft.RequestVote"])].

(** The servers of the five labs answer exactly the calls of their handlers: [Kill],
    [Start], [GetState], [Raft] and also [Snapshot], which has the number of arguments of a
    handler, cannot be called over the network.  A call of a handler is answered with the zero
    value of its reply and changes nothing; any other call ends the process. *)
Theorem rpc_surface svcs offers (req : @reqMsg Name ArgType) app :
  (svcs, offers) ∈ deployed ->
  let result := (server_dispatch decode encode (Methods.serve svcs) req app).2 in
  if decide (svcMeth req ∈ offers) then result = Replied (app, ReplyMsg true (encode zero))
  else result = Fatal ∨ result = Panic.
Proof.
  intros Hin.
  assert (Hsvcs : NoDup svcs.*1 ∧ (forall x, x ∈ svcs -> idle zero x.2) ∧ offered svcs = offers).
  { assert (Hall : Forall (λ d, NoDup d.1.*1 ∧ Forall (λ x, Forall (λ m, Func m = Methods.nothing zero ∧
      no_dot (mname m)) x.2) d.1 ∧ offered d.1 = d.2) deployed).
    { unfold deployed. repeat (apply Forall_cons; split); [..|apply Forall_nil; done];
        (split; [apply (bool_decide_unpack _); vm_compute; exact I|];
         split; [simpl; repeat constructor; discriminate|reflexivity]). }
    rewrite Forall_forall in Hall. destruct (Hall _ Hin) as (H1 & H2 & H3). split_and!; [done| |done].
    intros x Hx m Hm. rewrite Forall_forall in H2. specialize (H2 x Hx). rewrite Forall_forall in H2. by apply H2. }
  destruct Hsvcs as (Hnd & Hidle & <-). by apply serve_dispatch.
Qed.

End Theorems.

(** ** Clerks of these servers *)

(** A call that is delivered to a handler that does nothing. *)
Definition idle_call {W Srv Args Rep} (zero : Rep) : Rpc W Srv Args Rep := λ w _ _ _, (w, Some zero).

(** A clerk of the controller takes the empty reply of the first server for the answer: it
    sees configuration 0, which is also the one that [StartServer] makes, and believes that
    groups have joined.  With this configuration no key has a server, so that [Get] and
    [PutAppend] of [shardkv] ask for ever. *)
Theorem skeleton_clerks {W Srv} (s : Srv) (servers : list Srv) (w : W) :
  (forall fuel num,
    @Query W Srv (idle_call (MkQueryReply false "" KVServers.empty_config)) (s :: servers) (S fuel) num w =
      Some (w, [(s, Some (MkQueryReply false "" KVServers.empty_config))], KVServers.empty_config)) ∧
  (forall fuel gids,
    @Join W Srv (idle_call (MkCtrlReply false "")) (s :: servers) (S fuel) gids w =
      Some (w, [(s, Some (MkCtrlReply false ""))], ())) ∧
  (forall (Rep : Type) (rpc : Rpc W string KvArgs Rep) fuel meth args key err accepts,
    request (λ w, Some (w, KVServers.empty_config)) meth args key err accepts fuel
      KVServers.empty_config w = None).
Proof.
  split_and!; [done|done|]. intros Rep rpc fuel meth args key err accepts.
  induction fuel as [|fuel IH]; simpl; [done|].
  assert (Hg : group_of key KVServers.empty_config = []).
  { unfold group_of. change (Shards KVServers.empty_config) with (replicate NShards 0%Z).
    rewrite lookup_replicate_2 by apply key2shard_lt. reflexivity. }
  rewrite Hg. simpl. apply IH.
Qed.

Lemma ticker_stops_witness :
  let rf := RaftServer.Make [] 0 0 [] in
  ∃ t', tick (kill rf) Checking t' ∧ t' = Returned.
Proof.
  destruct (ticker_stops (RaftServer.Make [] 0 0 []) (kill (RaftServer.Make [] 0 0 [])) Checking)
    as (_ & _ & Hprog & _).
  - reflexivity.
  - apply rtc_once. constructor.
  - destruct Hprog as [t' Ht]; [discriminate|]. exists t'. split; [exact Ht|].
    inversion Ht; [reflexivity|discriminate].
Defined.

Lemma rpc_surface_witness :
  let req := ReqMsg 7%Z "Raft.Snapshot" tt [] in
  let result := (server_dispatch (λ (_ : unit) b, b) (λ b, b)
    (Methods.serve [("Raft", Methods.Raft_methods (App := unit) ([] : list byte))]) req tt).2 in
  result = Fatal ∨ result = Panic.
Proof.
  apply (rpc_surface (λ (_ : unit) b, b) (λ b, b) [] [("Raft", Methods.Raft_methods [])] ["Raft.RequestVote"]
    (ReqMsg 7%Z "Raft.Snapshot" tt []) tt).
  left.
Defined.
