(* ===== verification/Programs.v ===== *)
(** * Clerks as programs

    [Clerks] has the loops of the clerks as functions with fuel that call the interface [Rpc].
    Here the same loops are machines that stop at every remote call, so that they can be run over
    a network ([System]), and every run that ends is a run of the functions. *)
From S2P Require Import Prelude Clerks.
Import Clerks.

(** What a program does next.  [ATurn] is a turn of a loop without a call. *)
Inductive action (PS Srv Args Res Mem : Type) :=
| ACall (s : Srv) (meth : string) (args : Args)
| AReturn (res : Res) (m : Mem)
| ATurn (ps : PS).
Arguments ACall {PS Srv Args Res Mem}.
Arguments AReturn {PS Srv Args Res Mem}.
Arguments ATurn {PS Srv Args Res Mem}.

(** The operations [Op] of a clerk.  [Mem] is what the clerk keeps between operations, [PS] the
    states of an operation that runs; [resume] takes the outcome of the call at which it
    stopped, [None] when the call failed. *)
Class Program (Op Res Mem PS Srv Args Rep : Type) := {
  start : Mem -> Op -> PS;
  next : PS -> action PS Srv Args Res Mem;
  resume : PS -> option Rep -> PS
}.

(** An operation returns only upon the answer of a server. *)
Class ProgramLaws {Op Res Mem PS Srv Args Rep : Type}
    (P : Program Op Res Mem PS Srv Args Rep) : Prop := {
  start_works : forall m op res m', next (start m op) ≠ AReturn res m';
  turn_works : forall ps ps' res m', next ps = ATurn ps' -> next ps' ≠ AReturn res m';
  failed_works : forall ps s meth a res m',
    next ps = ACall s meth a -> next (resume ps None) ≠ AReturn res m'
}.

Section Runs.
Context {Op Res Mem PS Srv Args Rep : Type} {P : Program Op Res Mem PS Srv Args Rep}.

Abbreviation outcomes := (list (Srv * option Rep)).

(** The calls made from a state to another, with their outcomes. *)
Inductive follows : PS -> outcomes -> PS -> Prop :=
| follows_nil ps : follows ps [] ps
| follows_turn ps tr ps1 ps2 :
    follows ps tr ps1 -> next ps1 = ATurn ps2 -> follows ps tr ps2
| follows_call ps tr ps1 s meth a o :
    follows ps tr ps1 -> next ps1 = ACall s meth a ->
    follows ps (tr ++ [(s, o)]) (resume ps1 o).

(** The same to the end, from the front. *)
Inductive plays : PS -> outcomes -> Res -> Mem -> Prop :=
| plays_return ps res m : next ps = AReturn res m -> plays ps [] res m
| plays_turn ps ps' tr res m : next ps = ATurn ps' -> plays ps' tr res m -> plays ps tr res m
| plays_call ps s meth a o tr res m :
    next ps = ACall s meth a -> plays (resume ps o) tr res m -> plays ps ((s, o) :: tr) res m.

Lemma follows_plays ps tr ps' tr' res m :
  follows ps tr ps' -> plays ps' tr' res m -> plays ps (tr ++ tr') res m.
Proof.
  intros Hf. revert tr'. induction Hf as [ps|ps tr ps1 ps2 _ IH Hn|ps tr ps1 s meth a o _ IH Hn];
    intros tr' Hp; [done|apply IH; by eapply plays_turn|].
  rewrite <- app_assoc. apply IH. by eapply plays_call.
Qed.

(** A program that has stopped to return: its last call brought the answer. *)
Lemma follows_last `{!ProgramLaws P} m op tr ps res m' :
  follows (start m op) tr ps -> next ps = AReturn res m' ->
  ∃ tr0 ps0 s meth a rep, tr = tr0 ++ [(s, Some rep)] ∧ follows (start m op) tr0 ps0 ∧
    next ps0 = ACall s meth a ∧ ps = resume ps0 (Some rep).
Proof.
  intros Hf Hn. remember (start m op) as ps0 eqn:E.
  destruct Hf as [ps|ps tr ps1 ps2 Hf Ht|ps tr ps1 s meth a [rep|] Hf Hc]; subst.
  - by apply start_works in Hn.
  - by eapply turn_works in Hn.
  - by exists tr, ps1, s, meth, a, rep.
  - by eapply failed_works in Hn.
Qed.
End Runs.

(** A recorded run as a network: the outcomes are given back in their order. *)
Definition replay {Srv Args Rep Rep' : Type} (out : Rep -> option Rep') :
    Rpc (list (option Rep)) Srv Args Rep' :=
  λ w _ _ _, match w with [] => ([], None) | o :: w' => (w', o ≫= out) end.

(** ** [shardctrler/client.go] *)

Inductive ctrl_reply := RepQuery (r : QueryReply) | RepCtrl (r : CtrlReply).
Inductive ctrl_res := ResConfig (c : ShardConfig) | ResUnit.

Section Ctrl.
Context {Srv : Type} (servers : list Srv).

Definition ctrl_method (op : CtrlArgs) : string :=
  match op with
  | QueryArgs _ => "ShardCtrler.Query" | JoinArgs _ => "ShardCtrler.Join"
  | LeaveArgs _ => "ShardCtrler.Leave" | MoveArgs _ _ => "ShardCtrler.Move"
  end.

Definition to_query (r : ctrl_reply) : option QueryReply :=
  match r with RepQuery r => Some r | _ => None end.
Definition to_ctrl (r : ctrl_reply) : option CtrlReply :=
  match r with RepCtrl r => Some r | _ => None end.

(** [ok && reply.WrongLeader == false] *)
Definition ctrl_accept (op : CtrlArgs) (r : ctrl_reply) : option ctrl_res :=
  match op with
  | QueryArgs _ => ResConfig <$> (to_query r ≫= accept_query)
  | _ => (λ _, ResUnit) <$> (to_ctrl r ≫= accept_ctrl)
  end.

(** Trying the servers [todo], or returning. *)
Inductive ctrl_state := CTry (op : CtrlArgs) (todo : list Srv) | CDone (res : ctrl_res).

Definition ctrl_next (ps : ctrl_state) : action ctrl_state Srv CtrlArgs ctrl_res unit :=
  match ps with
  | CTry op [] => ATurn (CTry op servers)              (* [time.Sleep] *)
  | CTry op (s :: _) => ACall s (ctrl_method op) op
  | CDone res => AReturn res tt
  end.

Definition ctrl_resume (ps : ctrl_state) (o : option ctrl_reply) : ctrl_state :=
  match ps with
  | CTry op (_ :: todo) =>
      match o ≫= ctrl_accept op with Some res => CDone res | None => CTry op todo end
  | _ => ps
  end.

#[export] Instance ctrl_program :
    Program CtrlArgs ctrl_res unit ctrl_state Srv CtrlArgs ctrl_reply := {|
  start _ op := CTry op servers;
  next := ctrl_next;
  resume := ctrl_resume
|}.

#[export] Instance ctrl_laws : ProgramLaws ctrl_program.
Proof.
  split; simpl.
  - intros _ op res m'. by destruct servers.
  - intros ps ps' res m'. destruct ps as [op [|s todo]|]; simpl; intros; simplify_eq.
    simpl. by destruct servers.
  - intros ps s meth a res m'. destruct ps as [op [|s' todo]|]; simpl; intros; simplify_eq.
    by destruct todo.
Qed.

(** A run of the program for one operation is a run of [retry]. *)
Lemma ctrl_plays {Rep' Res' : Type} (out : ctrl_reply -> option Rep') (accept : Rep' -> option Res')
    (inj : Res' -> ctrl_res) op :
  (forall r, ctrl_accept op r = inj <$> (out r ≫= accept)) ->
  forall ps tr res m, plays ps tr res m ->
  match ps with
  | CDone res' => res = res' ∧ tr = []
  | CTry op' todo => op' = op ->
      ∃ N res', res = inj res' ∧ forall k, N ≤ k -> forall tr0,
        let _ : Rpc (list (option ctrl_reply)) Srv CtrlArgs Rep' := replay out in
        let loop w tr := retry (ctrl_method op) op accept servers k w tr in
        (match pass (ctrl_method op) op accept todo (snd <$> tr) tr0 with
         | (w', tr', Some r) => Some (w', tr', r)
         | (w', tr', None) => loop w' tr'
         end) = Some ([], tr0 ++ (prod_map id (mbind out) <$> tr), res')
  end.
Proof.
  intros Hacc ps tr res m Hp.
  induction Hp as [ps res m Hn|ps ps' tr res m Hn Hp IH|ps s meth a o tr res m Hn Hp IH].
  - destruct ps as [op' [|s todo]|res']; simplify_eq/=. done.
  - destruct ps as [op' [|s todo]|res']; simplify_eq/=. intros ->.
    destruct (IH eq_refl) as (N & res' & -> & HN). exists (S N), res'. split; [done|].
    intros [|k] Hk tr0; [lia|]. cbn [retry]. specialize (HN k ltac:(lia) tr0). simpl in HN.
    by destruct (pass _ _ _ _ _ _) as [[w' tr'] [r|]].
  - destruct ps as [op' [|s' todo]|res']; simplify_eq/=. intros ->.
    assert (Ho : o ≫= ctrl_accept op = inj <$> ((o ≫= out) ≫= accept)) by by destruct o; simpl.
    rewrite Ho in IH.
    destruct ((o ≫= out) ≫= accept) as [res'|] eqn:Ha; simpl in IH.
    + destruct IH as [-> ->]. exists 0, res'. split; [done|]. intros k _ tr0.
      destruct o as [r|]; simpl in *; by rewrite ?Ha.
    + destruct (IH eq_refl) as (N & res' & -> & HN). exists N, res'. split; [done|].
      intros k Hk tr0. specialize (HN k Hk (tr0 ++ [(s, o ≫= out)])).
      rewrite <- app_assoc in HN. destruct o as [r|]; simpl in *; rewrite ?Ha; exact HN.
Qed.
End Ctrl.

(** ** [shardkv/client.go] *)

Inductive kv_op := OpGet (key : string) | OpPut (key value : string) | OpAppend (key value : string).

(** Controllers are reached over the ends of the clerk, members of groups by their name. *)
Inductive kv_server (E : Type) := Ctrler (e : E) | Member (sn : string).
Arguments Ctrler {E}.
Arguments Member {E}.

Inductive kv_reply := RepConfig (r : QueryReply) | RepGet (r : GetReply) | RepPut (r : PutAppendReply).

Definition to_config (r : kv_reply) : option QueryReply :=
  match r with RepConfig r => Some r | _ => None end.
Definition to_get (r : kv_reply) : option GetReply :=
  match r with RepGet r => Some r | _ => None end.
Definition to_put (r : kv_reply) : option PutAppendReply :=
  match r with RepPut r => Some r | _ => None end.

Section Kv.
Context {E : Type} (ctrlers : list E).

Definition kv_key (op : kv_op) : string :=
  match op with OpGet k | OpPut k _ | OpAppend k _ => k end.
Definition kv_method (op : kv_op) : string :=
  match op with OpGet _ => "ShardKV.Get" | _ => "ShardKV.PutAppend" end.
Definition kv_args (op : kv_op) : KvArgs :=
  match op with
  | OpGet k => GetArgs k
  | OpPut k v => PutAppendArgs k v "Put"
  | OpAppend k v => PutAppendArgs k v "Append"
  end.

(** [reply.Err] and, for [Get], [reply.Value]. *)
Definition kv_answer (op : kv_op) (r : kv_reply) : option (Err * string) :=
  match op with
  | OpGet _ => (λ r, (GErr r, GValue r)) <$> to_get r
  | _ => (λ r, (PErr r, "")) <$> to_put r
  end.
Definition kv_accepts (op : kv_op) : Err -> bool :=
  match op with OpGet _ => get_accepts | _ => put_accepts end.

(** The loop over the servers of the group in the configuration; [ck.sm.Query(-1)]; returning a
    value. *)
Inductive kv_state :=
| KTry (op : kv_op) (config : ShardConfig) (todo : list string)
| KAsk (op : kv_op) (todo : list E)
| KDone (value : string) (config : ShardConfig).

Definition kv_next (ps : kv_state) :
    action kv_state (kv_server E) (CtrlArgs + KvArgs) string ShardConfig :=
  match ps with
  | KTry op _ [] => ATurn (KAsk op ctrlers)            (* [time.Sleep] *)
  | KTry op _ (sn :: _) => ACall (Member sn) (kv_method op) (inr (kv_args op))
  | KAsk op [] => ATurn (KAsk op ctrlers)
  | KAsk op (e :: _) => ACall (Ctrler e) "ShardCtrler.Query" (inl (QueryArgs (-1)))
  | KDone v config => AReturn v config
  end.

Definition kv_resume (ps : kv_state) (o : option kv_reply) : kv_state :=
  match ps with
  | KTry op config (_ :: todo) =>
      match o ≫= kv_answer op with
      | Some (e, v) =>
          if kv_accepts op e then KDone v config
          else if decide (e = ErrWrongGroup) then KAsk op ctrlers
          else KTry op config todo
      | None => KTry op config todo
      end
  | KAsk op (_ :: todo) =>
      match (o ≫= to_config) ≫= accept_query with
      | Some config => KTry op config (group_of (kv_key op) config)
      | None => KAsk op todo
      end
  | _ => ps
  end.

#[export] Instance kv_program :
    Program kv_op string ShardConfig kv_state (kv_server E) (CtrlArgs + KvArgs) kv_reply := {|
  start config op := KTry op config (group_of (kv_key op) config);
  next := kv_next;
  resume := kv_resume
|}.

#[export] Instance kv_laws : ProgramLaws kv_program.
Proof.
  split; simpl.
  - intros m op res m'. by destruct (group_of _ _).
  - intros ps ps' res m'. destruct ps as [op c [|sn todo]|op [|e todo]|]; simpl; intros; simplify_eq;
      simpl; by destruct ctrlers.
  - intros ps s meth a res m'.
    destruct ps as [op c [|sn todo]|op [|e todo]|]; simpl; intros; simplify_eq;
      simpl; by destruct todo.
Qed.

#[local] Instance replay_query : Rpc (list (option kv_reply)) E CtrlArgs QueryReply :=
  replay to_config.

(** What is left of a request, by the state of the program. *)
Section Request.
Context {Rep : Type} (out : kv_reply -> option Rep) (err : Rep -> Err) (value : Rep -> string).
Context (op : kv_op).
#[local] Instance replay_op : Rpc (list (option kv_reply)) string KvArgs Rep := replay out.

Abbreviation loop q fuel config w :=
  (request (latest ctrlers q) (kv_method op) (kv_args op) (kv_key op) err (kv_accepts op) fuel config w).

(** The rest of a round from the servers [todo] on, and the rounds after it. *)
Definition rest_try (q fuel : nat) (config : ShardConfig) (todo : list string)
    (w : list (option kv_reply)) (tr : list (string * option Rep)) :=
  match try_group (kv_method op) (kv_args op) err (kv_accepts op) todo w tr with
  | (w', tr', Some r) => Some (w', config, tr', r)
  | (w', _, None) => '(w'', config') ← latest ctrlers q w'; loop q fuel config' w''
  end.

(** The rest of a query, with [k] passes after this one, and the rounds after it. *)
Definition rest_ask (k q fuel : nat) (todo : list E) (w : list (option kv_reply))
    (tr : list (E * option QueryReply)) :=
  match pass "ShardCtrler.Query" (QueryArgs (-1)) accept_query todo w tr with
  | (w', _, Some config) => loop q fuel config w'
  | (w', tr', None) =>
      '(w'', _, config) ← retry "ShardCtrler.Query" (QueryArgs (-1)) accept_query ctrlers k w' tr';
      loop q fuel config w''
  end.

Definition ends_with (f : option (list (option kv_reply) * ShardConfig * list (string * option Rep) * Rep))
    (v : string) (config : ShardConfig) : Prop :=
  ∃ tr r, f = Some ([], config, tr, r) ∧ value r = v.

Lemma loop_try q fuel config w :
  loop q (S fuel) config w = rest_try q fuel config (group_of (kv_key op) config) w [].
Proof.
  unfold rest_try. cbn [request]. by destruct (try_group _ _ _ _ _ _ _) as [[w' tr'] [r|]].
Qed.

Lemma ask_turn k q fuel w tr : rest_ask (S k) q fuel [] w tr = rest_ask k q fuel ctrlers w tr.
Proof.
  unfold rest_ask. cbn [pass retry]. by destruct (pass _ _ _ _ _ _) as [[w' tr'] [c|]].
Qed.

Lemma latest_ask q fuel w :
  ('(w'', config') ← latest ctrlers (S q) w; loop (S q) fuel config' w'') =
  rest_ask q (S q) fuel ctrlers w [].
Proof.
  unfold latest, Query, rest_ask. cbn [retry].
  destruct (pass _ _ _ _ _ _) as [[w' tr'] [c|]]; [done|].
  by destruct (retry _ _ _ _ _ _ _) as [[[w1 tr1] c1]|].
Qed.

Lemma try_end q fuel config w tr :
  rest_try (S q) fuel config [] w tr = rest_ask q (S q) fuel ctrlers w [].
Proof. apply latest_ask. Qed.

Context (Hanswer : forall r, kv_answer op r = (λ r, (err r, value r)) <$> out r).

(** A call of the loop over the group. *)
Lemma try_call q fuel config sn todo o w tr :
  rest_try (S q) fuel config (sn :: todo) (o :: w) tr =
  match o ≫= out with
  | Some r =>
      if kv_accepts op (err r) then Some (w, config, tr ++ [(sn, Some r)], r)
      else if decide (err r = ErrWrongGroup) then rest_ask q (S q) fuel ctrlers w []
      else rest_try (S q) fuel config todo w (tr ++ [(sn, Some r)])
  | None => rest_try (S q) fuel config todo w (tr ++ [(sn, None)])
  end.
Proof.
  unfold rest_try at 1. cbn [try_group]. unfold call, replay_op, replay.
  destruct (o ≫= out) as [r|]; [|done]. destruct (kv_accepts op (err r)); [done|].
  case_decide; [|done]. apply latest_ask.
Qed.

Lemma ask_call k q fuel e todo o w tr :
  rest_ask k q (S fuel) (e :: todo) (o :: w) tr =
  match (o ≫= to_config) ≫= accept_query with
  | Some config => rest_try q fuel config (group_of (kv_key op) config) w []
  | None => rest_ask k q (S fuel) todo w (tr ++ [(e, o ≫= to_config)])
  end.
Proof.
  unfold rest_ask at 1. cbn [pass]. unfold call, replay_query, replay.
  destruct ((o ≫= to_config) ≫= accept_query) as [c|]; [|done]. apply loop_try.
Qed.

(** A run of the program for [op] is a run of [request]. *)
Lemma kv_plays ps tr v config' :
  plays ps tr v config' ->
  match ps with
  | KDone v' config => v = v' ∧ config' = config ∧ tr = []
  | KTry op' config todo => op' = op ->
      ∃ N, forall q fuel tr0, N ≤ q -> N ≤ fuel ->
        ends_with (rest_try (S q) fuel config todo tr.*2 tr0) v config'
  | KAsk op' todo => op' = op ->
      ∃ N, forall k q fuel tr0, N ≤ k -> N ≤ q -> N ≤ fuel ->
        ends_with (rest_ask k (S q) fuel todo tr.*2 tr0) v config'
  end.
Proof.
  intros Hp. induction Hp as [ps v m Hn|ps ps' tr v m Hn Hp IH|ps s meth a o tr v m Hn Hp IH];
    (destruct ps as [op' c [|sn todo]|op' [|e todo]|v' c']; simpl in *; simplify_eq);
    try (intros ->; try specialize (IH eq_refl)); [done|..].
  - destruct IH as [N HN]. exists N. intros q fuel tr0 Hq Hf. rewrite try_end. by apply HN.
  - destruct IH as [N HN]. exists (S N). intros k q fuel tr0 Hk Hq Hf. destruct k as [|k]; [lia|].
    rewrite ask_turn. apply HN; lia.
  - assert (Ho : o ≫= kv_answer op = (λ r, (err r, value r)) <$> (o ≫= out)) by (destruct o; simpl; auto).
    rewrite Ho in IH. cbn [fmap list_fmap snd].
    destruct (o ≫= out) as [r|] eqn:Er; simpl in IH.
    + destruct (kv_accepts op (err r)) eqn:Ea; [|case_decide as Ew]; cycle 1.
      * destruct (IH eq_refl) as [N HN]. exists N. intros q fuel tr0 Hq Hf.
        rewrite try_call, Er, Ea, decide_True by done. by apply HN.
      * destruct (IH eq_refl) as [N HN]. exists N. intros q fuel tr0 Hq Hf.
        rewrite try_call, Er, Ea, decide_False by done. by apply HN.
      * destruct IH as (-> & -> & ->). exists 0. intros q fuel tr0 _ _.
        rewrite try_call, Er, Ea. by eexists _, _.
    + destruct (IH eq_refl) as [N HN]. exists N. intros q fuel tr0 Hq Hf.
      rewrite try_call, Er. by apply HN.
  - cbn [fmap list_fmap snd]. destruct ((o ≫= to_config) ≫= accept_query) as [c|] eqn:Ec;
      specialize (IH eq_refl); destruct IH as [N HN]; exists (S N);
      intros k q [|fuel] tr0 Hk Hq Hf; [lia| |lia|]; rewrite ask_call, Ec; apply HN; lia.
Qed.
End Request.
End Kv.

(** ** Runs of the programs are runs of the functions of [Clerks] *)

Section CtrlRuns.
Context {Srv : Type} (servers : list Srv).
Abbreviation outs := (list (option ctrl_reply)).
#[local] Instance replay_ctrl_query : Rpc outs Srv CtrlArgs QueryReply := replay to_query.
#[local] Instance replay_ctrl : Rpc outs Srv CtrlArgs CtrlReply := replay to_ctrl.

(** With these outcomes of its calls, all of them used, the operation returns [res]. *)
Definition ctrl_runs (op : CtrlArgs) (os : outs) (res : ctrl_res) : Prop :=
  ∃ fuel, match op with
  | QueryArgs num => ∃ tr c, Query servers fuel num os = Some ([], tr, c) ∧ res = ResConfig c
  | JoinArgs groups => res = ResUnit ∧ ∃ tr, Join servers fuel groups os = Some ([], tr, tt)
  | LeaveArgs gids => res = ResUnit ∧ ∃ tr, Leave servers fuel gids os = Some ([], tr, tt)
  | MoveArgs shard gid => res = ResUnit ∧ ∃ tr, Move servers fuel shard gid os = Some ([], tr, tt)
  end.

Lemma ctrl_program_runs op tr ps res m :
  follows (P := ctrl_program servers) (CTry op servers) tr ps -> ctrl_next servers ps = AReturn res m ->
  ctrl_runs op tr.*2 res.
Proof.
  intros Hf Hn.
  assert (Hp : plays (P := ctrl_program servers) (CTry op servers) tr res m).
  { rewrite <- (app_nil_r tr). eapply follows_plays; [exact Hf|]. by apply plays_return. }
  assert (Hret : forall Rep' Res' (out : ctrl_reply -> option Rep') (accept : Rep' -> option Res') inj,
    (forall r, ctrl_accept op r = inj <$> (out r ≫= accept)) ->
    ∃ fuel tr' res', res = inj res' ∧
      retry (H := replay out) (ctrl_method op) op accept servers fuel tr.*2 [] = Some ([], tr', res')).
  { intros Rep' Res' out accept inj Ha.
    destruct (ctrl_plays servers out accept inj op Ha _ _ _ _ Hp eq_refl) as (N & res' & -> & HN).
    exists (S N). eexists _, res'. split; [done|]. exact (HN N ltac:(done) []). }
  destruct op as [num|groups|gids|shard gid].
  - destruct (Hret _ _ to_query accept_query ResConfig) as (fuel & tr' & c & -> & Hr); [done|].
    by exists fuel, tr', c.
  - destruct (Hret _ _ to_ctrl accept_ctrl (λ _, ResUnit)) as (fuel & tr' & [] & -> & Hr); [done|].
    exists fuel. split; [done|]. by exists tr'.
  - destruct (Hret _ _ to_ctrl accept_ctrl (λ _, ResUnit)) as (fuel & tr' & [] & -> & Hr); [done|].
    exists fuel. split; [done|]. by exists tr'.
  - destruct (Hret _ _ to_ctrl accept_ctrl (λ _, ResUnit)) as (fuel & tr' & [] & -> & Hr); [done|].
    exists fuel. split; [done|]. by exists tr'.
Qed.
End CtrlRuns.

Section KvRuns.
Context {E : Type} (ctrlers : list E).
Abbreviation outs := (list (option kv_reply)).
#[local] Instance replay_kv_query : Rpc outs E CtrlArgs QueryReply := replay to_config.
#[local] Instance replay_get : Rpc outs string KvArgs GetReply := replay to_get.
#[local] Instance replay_put : Rpc outs string KvArgs PutAppendReply := replay to_put.

(** The same for a clerk of the key/value service with configuration [config], which then has
    [config']. *)
Definition kv_runs (config : ShardConfig) (op : kv_op) (os : outs) (v : string)
    (config' : ShardConfig) : Prop :=
  ∃ q fuel tr tr', match op with
  | OpGet key => Get ctrlers q fuel config key os = Some ([], config', tr, v)
  | OpPut key value => v = "" ∧ Put ctrlers q fuel config key value os = Some ([], config', tr')
  | OpAppend key value => v = "" ∧ Append ctrlers q fuel config key value os = Some ([], config', tr')
  end.

Lemma kv_program_runs config op tr ps v config' :
  follows (P := kv_program ctrlers) (KTry op config (group_of (kv_key op) config)) tr ps ->
  kv_next ctrlers ps = AReturn v config' -> kv_runs config op tr.*2 v config'.
Proof.
  intros Hf Hn.
  assert (Hp : plays (P := kv_program ctrlers) (KTry op config (group_of (kv_key op) config)) tr v config').
  { rewrite <- (app_nil_r tr). eapply follows_plays; [exact Hf|]. by apply plays_return. }
  assert (Hreq : forall Rep (out : kv_reply -> option Rep) err value,
    (forall r, kv_answer op r = (λ r, (err r, value r)) <$> out r) ->
    ∃ q fuel, ends_with value
      (request (Rpc0 := replay out) (latest ctrlers q) (kv_method op) (kv_args op) (kv_key op) err
        (kv_accepts op) fuel config tr.*2) v config').
  { intros Rep out err value Ha.
    destruct (kv_plays ctrlers out err value op Ha _ _ _ _ Hp eq_refl) as [N HN].
    exists (S N), (S N). pose proof (loop_try ctrlers out err op (S N) N config tr.*2) as Hl.
    unfold replay_op, replay_query in Hl. unfold replay_kv_query. rewrite Hl. by apply HN. }
  destruct op as [key|key value|key value].
  - destruct (Hreq _ to_get GErr GValue) as (q & fuel & tr' & r & Hr & <-); [done|].
    exists q, fuel, tr', [].
    exact (f_equal (mbind (λ '(w', c', tr, r), Some (w', c', tr, GValue r))) Hr).
  - destruct (Hreq _ to_put PErr (λ _, "")) as (q & fuel & tr' & r & Hr & <-); [done|].
    exists q, fuel, [], tr'. split; [done|].
    exact (f_equal (mbind (λ '(w', c', tr, _), Some (w', c', tr))) Hr).
  - destruct (Hreq _ to_put PErr (λ _, "")) as (q & fuel & tr' & r & Hr & <-); [done|].
    exists q, fuel, [], tr'. split; [done|].
    exact (f_equal (mbind (λ '(w', c', tr, _), Some (w', c', tr))) Hr).
Qed.
End KvRuns.
