(* ===== verification/ProgramSpec.v ===== *)
(** * What the runs of the clerks look like

    The specification of the calls of an operation, and of its result, for the machines of
    [Programs]: which servers are called in which order, and what their answers lead to.  It is
    stated with the constructors of operations and replies and [assigned] of [ClerkTheorems]. *)
From S2P Require Import Prelude Clerks ClerkTheorems Programs.
Import Clerks.

(** [srvs] was gone through a number of times, and then up to some place. *)
Definition in_turn {A} (srvs l : list A) : Prop :=
  ∃ k rest, l = mjoin (replicate k srvs) ++ rest ∧ rest `prefix_of` srvs.

(** A place in the list: what is behind, and what is to come. *)
Definition at_place {A} (srvs l todo : list A) : Prop :=
  ∃ k behind, l = mjoin (replicate k srvs) ++ behind ∧ behind ++ todo = srvs.

Lemma at_place_start {A} (srvs : list A) : at_place srvs [] srvs.
Proof. by exists 0, []. Qed.

Lemma at_place_turn {A} (srvs l : list A) : at_place srvs l [] -> at_place srvs l srvs.
Proof.
  intros (k & behind & -> & Hb). rewrite app_nil_r in Hb. subst. exists (S k), [].
  split; [|done]. rewrite app_nil_r, replicate_S_end. clear. induction (replicate k srvs) as [|x l IH].
  - simpl. change (mjoin [srvs]) with (srvs ++ []). by rewrite app_nil_r.
  - change (mjoin (?x :: ?l)) with (x ++ mjoin l). simpl.
    change (mjoin (?x :: ?l)) with (x ++ mjoin l). by rewrite <- app_assoc, IH.
Qed.

Lemma at_place_next {A} (srvs l : list A) s todo :
  at_place srvs l (s :: todo) -> at_place srvs (l ++ [s]) todo.
Proof.
  intros (k & behind & -> & <-). exists k, (behind ++ [s]). by rewrite <- !app_assoc.
Qed.

Lemma at_place_in_turn {A} (srvs l todo : list A) : at_place srvs l todo -> in_turn srvs l.
Proof. intros (k & behind & -> & <-). exists k, behind. split; [done|by eexists]. Qed.

(** ** [shardctrler/client.go] *)

(** The request that is sent for an operation. *)
Definition ctrl_wire (op : CtrlArgs) : string * CtrlArgs :=
  match op with
  | QueryArgs num => ("ShardCtrler.Query", QueryArgs num)
  | JoinArgs groups => ("ShardCtrler.Join", JoinArgs groups)
  | LeaveArgs gids => ("ShardCtrler.Leave", LeaveArgs gids)
  | MoveArgs shard gid => ("ShardCtrler.Move", MoveArgs shard gid)
  end.

(** A reply that ends an operation with a result. *)
Inductive ctrl_answered : CtrlArgs -> ctrl_reply -> ctrl_res -> Prop :=
| answered_query num r :
    WrongLeader r = false -> ctrl_answered (QueryArgs num) (RepQuery r) (ResConfig (QConfig r))
| answered_join groups r : CWrongLeader r = false -> ctrl_answered (JoinArgs groups) (RepCtrl r) ResUnit
| answered_leave gids r : CWrongLeader r = false -> ctrl_answered (LeaveArgs gids) (RepCtrl r) ResUnit
| answered_move shard gid r :
    CWrongLeader r = false -> ctrl_answered (MoveArgs shard gid) (RepCtrl r) ResUnit.

Definition ctrl_refused (op : CtrlArgs) (o : option ctrl_reply) : Prop :=
  forall r res, o = Some r -> ¬ ctrl_answered op r res.

(** The calls of an operation with their outcomes, and its result. *)
Definition ctrl_report {Srv} (servers : list Srv) (op : CtrlArgs)
    (tr : list (Srv * option ctrl_reply)) (res : ctrl_res) : Prop :=
  in_turn servers tr.*1 ∧
  ∃ new s r, tr = new ++ [(s, Some r)] ∧ Forall (λ x, ctrl_refused op x.2) new ∧ ctrl_answered op r res.

Lemma ctrl_accept_answered op r :
  match ctrl_accept op r with
  | Some res => ctrl_answered op r res
  | None => forall res, ¬ ctrl_answered op r res
  end.
Proof.
  destruct op, r as [[[] ? ?]|[[] ?]]; simpl; try (intros res Ha; inversion Ha; subst; done);
    by constructor.
Qed.

Section CtrlReport.
Context {Srv : Type} (servers : list Srv).

Lemma ctrl_call_wire op ps s meth a :
  match ps with CTry op' _ => op' = op | CDone _ => True end ->
  ctrl_next servers ps = ACall s meth a -> (meth, a) = ctrl_wire op.
Proof. destruct ps as [op' [|s' todo]|res]; simpl; intros Ho Hn; try subst op'; simplify_eq. by destruct a. Qed.

Lemma ctrl_follows op tr ps0 ps :
  follows (P := ctrl_program servers) ps0 tr ps -> ps0 = CTry op servers ->
  match ps with
  | CTry op' todo => op' = op ∧ at_place servers tr.*1 todo ∧ Forall (λ x, ctrl_refused op x.2) tr
  | CDone res => ctrl_report servers op tr res
  end.
Proof.
  intros Hf. induction Hf as [ps|ps tr ps1 ps2 _ IH Hn|ps tr ps1 s meth a o _ IH Hn]; intros ->.
  - split_and!; [done|apply at_place_start|constructor].
  - specialize (IH eq_refl). simpl in Hn.
    destruct ps1 as [op' [|s todo]|res]; simpl in Hn; simplify_eq.
    destruct IH as (-> & Hp & Hall). split_and!; [done|by apply at_place_turn|done].
  - specialize (IH eq_refl). simpl in Hn. destruct ps1 as [op' [|s' todo]|res]; simpl in Hn; simplify_eq.
    destruct IH as (-> & Hp & Hall). apply at_place_next in Hp. cbn [resume ctrl_program ctrl_resume].
    assert (Hk : (tr ++ [(s, o)]).*1 = tr.*1 ++ [s]) by by rewrite fmap_app.
    assert (Hno : ctrl_refused op o -> Forall (λ x, ctrl_refused op x.2) (tr ++ [(s, o)])).
    { intros Ho. apply Forall_app. split; [done|]. by constructor. }
    destruct o as [r|]; simpl; [|split_and!; [done|by rewrite Hk|by apply Hno]].
    pose proof (ctrl_accept_answered op r) as Ha. destruct (ctrl_accept op r) as [res|].
    + split; [rewrite Hk; by eapply at_place_in_turn|]. by exists tr, s, r.
    + split_and!; [done|by rewrite Hk|]. apply Hno. intros r' res [= <-]. apply Ha.
Qed.
End CtrlReport.

(** ** [shardkv/client.go] *)

Definition kv_wire {E} (op : kv_op) (s : kv_server E) : string * (CtrlArgs + KvArgs) :=
  match s with
  | Ctrler _ => ("ShardCtrler.Query", inl (QueryArgs (-1)))
  | Member _ =>
      match op with
      | OpGet key => ("ShardKV.Get", inr (GetArgs key))
      | OpPut key value => ("ShardKV.PutAppend", inr (PutAppendArgs key value "Put"))
      | OpAppend key value => ("ShardKV.PutAppend", inr (PutAppendArgs key value "Append"))
      end
  end.

Inductive kv_answered : kv_op -> kv_reply -> string -> Prop :=
| answered_get key v : kv_answered (OpGet key) (RepGet (MkGetReply OK v)) v
| answered_no_key key v : kv_answered (OpGet key) (RepGet (MkGetReply ErrNoKey v)) v
| answered_put key value : kv_answered (OpPut key value) (RepPut (MkPutAppendReply OK)) ""
| answered_append key value : kv_answered (OpAppend key value) (RepPut (MkPutAppendReply OK)) "".

(** A reply that makes the clerk ask for a new configuration at once. *)
Inductive kv_wrong_group : kv_op -> kv_reply -> Prop :=
| wrong_get key v : kv_wrong_group (OpGet key) (RepGet (MkGetReply ErrWrongGroup v))
| wrong_put key value : kv_wrong_group (OpPut key value) (RepPut (MkPutAppendReply ErrWrongGroup))
| wrong_append key value : kv_wrong_group (OpAppend key value) (RepPut (MkPutAppendReply ErrWrongGroup)).

Definition op_key (op : kv_op) : string :=
  match op with OpGet key => key | OpPut key _ => key | OpAppend key _ => key end.

Lemma kv_answer_spec op r :
  match kv_answer op r with
  | Some (e, v) =>
      if kv_accepts op e then kv_answered op r v
      else (forall v, ¬ kv_answered op r v) ∧ (e = ErrWrongGroup <-> kv_wrong_group op r)
  | None => (forall v, ¬ kv_answered op r v) ∧ ¬ kv_wrong_group op r
  end.
Proof.
  destruct op, r as [?|[[] ?]|[[]]]; simpl; try constructor; try (intros ? Ha; by inversion Ha);
    try (intros Ha; by inversion Ha); split; try done; try constructor; intros Ha; by inversion Ha.
Qed.

Section KvReport.
Context {E : Type} (ctrlers : list E).
Abbreviation trace := (list (kv_server E * option kv_reply)).

(** The clerk goes on to the next server of the group. *)
Definition passed_by (op : kv_op) (x : kv_server E * option kv_reply) : Prop :=
  forall r, x.2 = Some r -> (forall v, ¬ kv_answered op r v) ∧ ¬ kv_wrong_group op r.

(** A round that fails: the key has no group, or all its servers were asked in vain, or one said
    that it is the wrong group. *)
Inductive lost_round (op : kv_op) (c : ShardConfig) : trace -> Prop :=
| lost_no_group : (forall srvs, ¬ assigned c (op_key op) srvs) -> lost_round op c []
| lost_all srvs tr :
    assigned c (op_key op) srvs -> tr.*1 = Member <$> srvs -> Forall (passed_by op) tr -> lost_round op c tr
| lost_wrong srvs names tr sn r :
    assigned c (op_key op) srvs -> tr.*1 = Member <$> names -> names ++ [sn] `prefix_of` srvs ->
    Forall (passed_by op) tr -> kv_wrong_group op r -> lost_round op c (tr ++ [(Member sn, Some r)]).

(** A controller's answer to the query for the latest configuration. *)
Definition new_config (o : option kv_reply) (c : ShardConfig) : Prop :=
  ∃ r, o = Some (RepConfig r) ∧ WrongLeader r = false ∧ c = QConfig r.

(** The rounds of an operation: each that failed is followed by calls of the controllers, in turn,
    until one answers, and the next round uses the configuration in the answer. *)
Inductive past_rounds (op : kv_op) (c : ShardConfig) : trace -> ShardConfig -> Prop :=
| past_none : past_rounds op c [] c
| past_round tr c1 g qs e o c2 :
    past_rounds op c tr c1 -> lost_round op c1 g -> in_turn (Ctrler <$> ctrlers) (qs.*1 ++ [Ctrler e]) ->
    Forall (λ x, forall c, ¬ new_config x.2 c) qs -> new_config o c2 ->
    past_rounds op c (tr ++ g ++ qs ++ [(Ctrler e, o)]) c2.

(** The calls of an operation from configuration [c] on, its result and its configuration: after
    the rounds that failed a server of the key's group answers. *)
Definition kv_report (op : kv_op) (c : ShardConfig) (tr : trace) (v : string) (c' : ShardConfig) : Prop :=
  ∃ pre g sn r srvs names, tr = pre ++ g ++ [(Member sn, Some r)] ∧ past_rounds op c pre c' ∧
    assigned c' (op_key op) srvs ∧ g.*1 = Member <$> names ∧ names ++ [sn] `prefix_of` srvs ∧
    Forall (passed_by op) g ∧ kv_answered op r v.

(** The states between calls. *)
Definition kv_progress (op : kv_op) (c : ShardConfig) (tr : trace) (ps : kv_state) : Prop :=
  match ps with
  | KTry op' c1 todo => op' = op ∧ ∃ pre g names, tr = pre ++ g ∧ past_rounds op c pre c1 ∧
      g.*1 = Member <$> names ∧ names ++ todo = group_of (op_key op) c1 ∧ Forall (passed_by op) g
  | KAsk op' todo => op' = op ∧ ∃ pre c1 g qs, tr = pre ++ g ++ qs ∧ past_rounds op c pre c1 ∧
      lost_round op c1 g ∧ at_place (Ctrler <$> ctrlers) qs.*1 (Ctrler <$> todo) ∧
      Forall (λ x, forall c, ¬ new_config x.2 c) qs
  | KDone v c' => kv_report op c tr v c'
  end.

Lemma kv_call_wire op c tr ps s meth a :
  kv_progress op c tr ps -> kv_next ctrlers ps = ACall s meth a -> (meth, a) = kv_wire op s.
Proof.
  destruct ps as [op' c1 [|sn todo]|op' [|e todo]|v c']; simpl; intros Hp Hn; simplify_eq;
    destruct Hp as [-> _]; [by destruct op|done].
Qed.

Lemma group_assigned_ne c key s l1 l2 :
  l1 ++ s :: l2 = group_of key c -> assigned c key (group_of key c).
Proof.
  intros Hg. destruct (group_assigned c key) as [?|[_ Hn]]; [done|]. rewrite Hn in Hg. by destruct l1.
Qed.

(** The end of the group without an answer. *)
Lemma group_lost op c tr names :
  tr.*1 = Member <$> names -> names ++ [] = group_of (op_key op) c -> Forall (passed_by op) tr ->
  lost_round op c tr.
Proof.
  rewrite app_nil_r. intros Ht -> Hall. destruct (group_assigned c (op_key op)) as [Ha|[Hno Hg]].
  - by eapply lost_all.
  - rewrite Hg in Ht. apply fmap_nil_inv in Ht as ->. by apply lost_no_group.
Qed.

Lemma kv_turn op c tr ps ps' :
  kv_progress op c tr ps -> kv_next ctrlers ps = ATurn ps' -> kv_progress op c tr ps'.
Proof.
  destruct ps as [op' c1 [|sn todo]|op' [|e todo]|v c']; simpl; intros Hp Hn; simplify_eq; simpl.
  - destruct Hp as (-> & pre & g & names & -> & Hpast & Hg & Hn & Hall). split; [done|].
    exists pre, c1, g, []. rewrite app_nil_r.
    split_and!; [done..|by eapply group_lost|apply at_place_start|constructor].
  - destruct Hp as (-> & pre & c1 & g & qs & -> & Hpast & Hl & Hp & Hall). split; [done|].
    exists pre, c1, g, qs. split_and!; [done..|by apply at_place_turn|done].
Qed.

Lemma to_config_spec o c : (o ≫= to_config) ≫= accept_query = Some c <-> new_config o c.
Proof.
  unfold new_config. destruct o as [[[[] ? ?]| |]|]; simpl; split; try naive_solver.
  intros [= <-]. by eexists.
Qed.

Lemma kv_call op c tr ps s meth a o :
  kv_progress op c tr ps -> kv_next ctrlers ps = ACall s meth a ->
  kv_progress op c (tr ++ [(s, o)]) (kv_resume ctrlers ps o).
Proof.
  destruct ps as [op' c1 [|sn todo]|op' [|e todo]|v c']; simpl; intros Hp Hn; simplify_eq.
  - destruct Hp as (-> & pre & g & names & -> & Hpast & Hg & Hn & Hall).
    assert (Ha : assigned c1 (op_key op) (group_of (op_key op) c1)) by by eapply group_assigned_ne.
    assert (Hpre : names ++ [sn] `prefix_of` group_of (op_key op) c1).
    { rewrite <- Hn. exists todo. by rewrite <- app_assoc. }
    assert (Hnext : passed_by op (Member sn, o) ->
      kv_progress op c ((pre ++ g) ++ [(Member sn, o)]) (KTry op c1 todo)).
    { intros Ho. split; [done|]. exists pre, (g ++ [(Member sn, o)]), (names ++ [sn]).
      rewrite !fmap_app, Hg, <- !app_assoc. split_and!; [done..|]. apply Forall_app. split; [done|by constructor]. }
    destruct o as [r|]; simpl; [|by apply Hnext].
    pose proof (kv_answer_spec op r) as Hr. destruct (kv_answer op r) as [[e v]|]; simpl.
    + destruct (kv_accepts op e); [|case_decide as He].
      * exists pre, g, sn, r, (group_of (op_key op) c1), names. by rewrite <- app_assoc.
      * split; [done|]. exists pre, c1, (g ++ [(Member sn, Some r)]), [].
        rewrite app_nil_r, <- app_assoc. split_and!; [done|done| |apply at_place_start|constructor].
        eapply lost_wrong; [done..|by apply Hr].
      * apply Hnext. intros r' [= <-]. split; [apply Hr|]. by rewrite <- (proj2 Hr).
    + apply Hnext. by intros r' [= <-].
  - destruct Hp as (-> & pre & c1 & g & qs & -> & Hpast & Hl & Hp & Hall).
    apply at_place_next in Hp.
    destruct ((o ≫= to_config) ≫= accept_query) as [c2|] eqn:Hq.
    + apply to_config_spec in Hq. split; [done|].
      exists (pre ++ g ++ qs ++ [(Ctrler e, o)]), [], []. rewrite app_nil_r, <- !app_assoc.
      split_and!; [done| |done|by destruct op|constructor].
      eapply past_round; [done..| |done|done]. by eapply at_place_in_turn.
    + split; [done|]. exists pre, c1, g, (qs ++ [(Ctrler e, o)]). rewrite <- !app_assoc, fmap_app.
      split_and!; [done..|]. apply Forall_app. split; [done|]. constructor; [|done].
      intros c2 Hc%to_config_spec. simpl in Hc. by rewrite Hq in Hc.
Qed.

Lemma kv_follows op c tr ps0 ps :
  follows (P := kv_program ctrlers) ps0 tr ps -> ps0 = KTry op c (group_of (kv_key op) c) ->
  kv_progress op c tr ps.
Proof.
  intros Hf. induction Hf as [ps|ps tr ps1 ps2 _ IH Hn|ps tr ps1 s meth a o _ IH Hn]; intros ->.
  - split; [done|]. exists [], [], []. split_and!; [done|constructor|done|by destruct op|constructor].
  - by eapply kv_turn; [apply IH|].
  - by eapply kv_call; [apply IH|].
Qed.
End KvReport.
