(* ===== verification/System.v ===== *)
(** * Clients over the network

    The network of [Labrpc] with the clients of a test: each client runs a clerk ([Programs]),
    whose calls are calls of the network and whose operations are logged with the times at which
    they began and ended, as the tests do.  Clients, handlers and the network interleave
    freely. *)
From S2P Require Import Prelude Labrpc LabrpcProof Clerks Programs.
From Stdlib Require Import Strings.Byte.
Import Labrpc.

#[local] Open Scope Z_scope.

Section System.
Context {Name : Type} `{Countable Name}.
Context {App HArg HRep ArgType : Type}.
Context (decode : ArgType -> list byte -> HArg) (encode : HRep -> list byte).
Context {Op Res Mem PS Srv Args Rep : Type} {P : Program Op Res Mem PS Srv Args Rep}.

(** The two sides of [labgob] in [Call], and how the clerk of a client gets the end of a server:
    the network afterwards, [None] when the end is not for that server. *)
Context (marshal : Args -> ArgType * list byte) (unmarshal : string -> list byte -> Rep).
Context (dial : nat -> Srv -> Name -> @Network Name _ _ -> option (@Network Name _ _)).

Abbreviation world := (@world Name _ _ App HArg HRep ArgType).
Abbreviation step := (@step Name _ _ App HArg HRep ArgType decode encode).
Abbreviation act := (@act Name _ _ App HArg HRep ArgType decode encode).

(** The calls of an operation: their numbers, and what the clerk sees of them. *)
Abbreviation trace := (list (nat * (Srv * option Rep))).

(** What a client is doing; an operation runs since [began]. *)
Inductive activity :=
| Idle
| Running (op : Op) (began : Z) (ps : PS) (tr : trace)
| Blocked (op : Op) (began : Z) (ps : PS) (tr : trace) (i : nat).   (* in [Call] *)

(** An operation in the log of a test. *)
Record finished := Finished {
  f_client : nat; f_op : Op; f_res : Res; f_began : Z; f_ended : Z; f_trace : trace
}.

(** Why a call was made. *)
Record asked := Asked { q_op : Op; q_began : Z; q_state : PS }.

(** [stamps] has the times of the dispatches in [executed]; like [issued] and the traces it is
    for the specification only. *)
Record sys := Sys {
  wld : world;
  clock : Z;
  clients : list (Mem * activity);
  log : list finished;
  stamps : list Z;
  issued : list asked
}.

Definition set_client (σ : sys) (k : nat) (m : Mem) (a : activity) : sys :=
  Sys (wld σ) (clock σ) (<[k := (m, a)]> (clients σ)) (log σ) (stamps σ) (issued σ).

(** [Call]: the request that is made for a call of a clerk. *)
Definition request_of (e : Name) (meth : string) (a : Args) : @reqMsg Name ArgType :=
  ReqMsg e meth (marshal a).1 (marshal a).2.

(** What [Call] returns, with the decoded reply. *)
Definition outcome (meth : string) (r : replyMsg) : option Rep :=
  if ok r then Some (unmarshal meth (reply r)) else None.

Definition new_call (w : world) (rn : @Network Name _ _) (rq : @reqMsg Name ArgType) : world :=
  World rn (listening w) (heap w) (app w) (calls w ++ [MkCall rq Sending NotStarted])
    (crashed w) (executed w).

Inductive sys_step : sys -> sys -> Prop :=
(* the network, the handlers and the harness *)
| S_net σ w' :
    step (wld σ) w' -> length (calls w') = length (calls (wld σ)) ->
    sys_step σ (Sys w' (clock σ) (clients σ) (log σ)
      (stamps σ ++ replicate (length (executed w') - length (executed (wld σ))) (clock σ)) (issued σ))
| S_time σ t :
    clock σ <= t -> sys_step σ (Sys (wld σ) t (clients σ) (log σ) (stamps σ) (issued σ))
(* the clients *)
| S_begin σ k m op :
    clients σ !! k = Some (m, Idle) ->
    sys_step σ (set_client σ k m (Running op (clock σ) (start m op) []))
| S_turn σ k m op b ps tr ps' :
    clients σ !! k = Some (m, Running op b ps tr) -> next ps = ATurn ps' ->
    sys_step σ (set_client σ k m (Running op b ps' tr))
| S_call σ k m op b ps tr s meth a e rn :
    clients σ !! k = Some (m, Running op b ps tr) -> next ps = ACall s meth a ->
    crashed (wld σ) = false -> dial k s e (net (wld σ)) = Some rn ->
    sys_step σ (Sys (new_call (wld σ) rn (request_of e meth a)) (clock σ)
      (<[k := (m, Blocked op b ps tr (length (calls (wld σ))))]> (clients σ)) (log σ)
      (stamps σ) (issued σ ++ [Asked op b ps]))
| S_reply σ k m op b ps tr i s meth a c r :
    clients σ !! k = Some (m, Blocked op b ps tr i) -> next ps = ACall s meth a ->
    calls (wld σ) !! i = Some c -> pc c = Returned r ->
    let o := outcome meth r in
    sys_step σ (set_client σ k m (Running op b (resume ps o) (tr ++ [(i, (s, o))])))
| S_return σ k m op b ps tr res m' :
    clients σ !! k = Some (m, Running op b ps tr) -> next ps = AReturn res m' ->
    sys_step σ (Sys (wld σ) (clock σ) (<[k := (m', Idle)]> (clients σ))
      (log σ ++ [Finished k op res b (clock σ) tr]) (stamps σ) (issued σ)).

(** Runs through states with the property [Q]. *)
Definition runs (Q : sys -> Prop) : sys -> sys -> Prop := rtc (λ σ σ', Q σ ∧ sys_step σ σ').

(** The start of a test: the network is set up, and nothing has been called. *)
Definition init (w : world) (ms : list Mem) : sys :=
  Sys w 0 ((λ m, (m, Idle)) <$> ms) [] [] [].

Definition fresh_world (w : world) : Prop := reachable decode encode w ∧ calls w = [].

(** ** Invariant *)

Implicit Types (σ : sys).

(** What is known of a call that a clerk got an outcome of; if it succeeded, its handler ran by
    the time [hi]. *)
Record entry_ok σ (op : Op) (b hi : Z) (ps : PS) (i : nat) (s : Srv) (o : option Rep) : Prop := {
  e_issued : issued σ !! i = Some (Asked op b ps);
  e_called : ∃ meth a c r, next ps = ACall s meth a ∧ calls (wld σ) !! i = Some c ∧
    pc c = Returned r ∧ o = outcome meth r ∧
    (ok r = true -> ∃ x s' t, executed (wld σ) !! x = Some (i, s', r) ∧ stamps σ !! x = Some t ∧ t <= hi)
}.

(** The calls of an operation so far, each made in the state that the outcome before it led to. *)
Inductive thread σ (op : Op) (b hi : Z) : PS -> trace -> PS -> Prop :=
| thread_nil ps : thread σ op b hi ps [] ps
| thread_turn ps tr ps1 ps2 :
    thread σ op b hi ps tr ps1 -> next ps1 = ATurn ps2 -> thread σ op b hi ps tr ps2
| thread_call ps tr ps1 i s o :
    thread σ op b hi ps tr ps1 -> entry_ok σ op b hi ps1 i s o ->
    thread σ op b hi ps (tr ++ [(i, (s, o))]) (resume ps1 o).

Lemma thread_follows σ op b hi ps tr ps' : thread σ op b hi ps tr ps' -> follows ps tr.*2 ps'.
Proof.
  induction 1 as [ps|ps tr ps1 ps2 _ IH Ht|ps tr ps1 i s o _ IH He]; [constructor|by eapply follows_turn|].
  rewrite fmap_app. destruct (e_called _ _ _ _ _ _ _ _ He) as (meth & a & _ & _ & Hn & _).
  by eapply follows_call.
Qed.

(** The calls of an activity; each call of the network belongs to one operation. *)
Definition act_ids (x : Mem * activity) : list nat :=
  match x.2 with
  | Idle => [] | Running _ _ _ tr => tr.*1 | Blocked _ _ _ tr i => tr.*1 ++ [i] end.

Definition call_ids σ : list nat := (log σ ≫= λ f, (f_trace f).*1) ++ (clients σ ≫= act_ids).

Definition act_ok σ (x : Mem * activity) : Prop :=
  match x.2 with
  | Idle => True
  | Running op b ps tr => b <= clock σ ∧ thread σ op b (clock σ) (start x.1 op) tr ps
  | Blocked op b ps tr i =>
      b <= clock σ ∧ thread σ op b (clock σ) (start x.1 op) tr ps ∧ issued σ !! i = Some (Asked op b ps)
  end.

Definition fin_ok σ (f : finished) : Prop :=
  ∃ m m' ps, f_began f <= f_ended f ∧
    thread σ (f_op f) (f_began f) (f_ended f) (start m (f_op f)) (f_trace f) ps ∧
    next ps = AReturn (f_res f) m'.

(** A call and the reason for it. *)
Definition ask_ok (c : @call Name ArgType) (q : asked) : Prop :=
  (∃ e s meth a, next (q_state q) = ACall s meth a ∧ req c = request_of e meth a) ∧
  ∃ m tr, follows (start m (q_op q)) tr (q_state q).

Record sys_ok σ : Prop := {
  o_net : winv (wld σ);
  o_asked : Forall2 ask_ok (calls (wld σ)) (issued σ);
  o_stamps : length (stamps σ) = length (executed (wld σ));
  o_sorted : StronglySorted Z.le (stamps σ ++ [clock σ]);
  o_began : forall x i s r t q, executed (wld σ) !! x = Some (i, s, r) -> stamps σ !! x = Some t ->
    issued σ !! i = Some q -> q_began q <= t;
  o_now : forall q, q ∈ issued σ -> q_began q <= clock σ;
  o_ids : call_ids σ ≡ₚ seq 0 (length (calls (wld σ)));
  o_clients : Forall (act_ok σ) (clients σ);
  o_log : Forall (fin_ok σ) (log σ)
}.
End System.
