(* ===== verification/SystemProof.v ===== *)
(** * The invariant of [System]

    Every step keeps the calls of the clients, their log and the network in agreement. *)
From S2P Require Import Prelude Labrpc LabrpcProof Clerks Programs System.
From Stdlib Require Import Strings.Byte.
Import Labrpc.

#[local] Open Scope Z_scope.

Lemma bind_insert {A B} (f : A -> list B) (l : list A) k x y :
  l !! k = Some x -> f x ++ (<[k := y]> l ≫= f) ≡ₚ f y ++ (l ≫= f).
Proof.
  intros (l1 & l2 & -> & ->)%list_elem_of_split_length.
  rewrite insert_app_r_alt by done. rewrite Nat.sub_diag. simpl.
  rewrite !bind_app, !bind_cons. solve_Permutation.
Qed.

Lemma sorted_snoc (l : list Z) t t' :
  StronglySorted Z.le (l ++ [t]) -> t <= t' -> StronglySorted Z.le (l ++ [t']).
Proof.
  intros Hs Ht. induction l as [|x l IH]; [repeat constructor|]. simpl in *.
  inversion Hs as [|? ? Hs' Hx]; subst. constructor; [by apply IH|].
  apply Forall_app in Hx as [Hx [Hxt _]%Forall_cons]. apply Forall_app. split; [done|].
  apply Forall_singleton. lia.
Qed.

Lemma sorted_repeat (l : list Z) t k :
  StronglySorted Z.le (l ++ [t]) -> StronglySorted Z.le ((l ++ replicate k t) ++ [t]).
Proof.
  intros Hs. induction l as [|x l IH]; simpl in *.
  - clear Hs. induction k as [|k IH]; simpl; [repeat constructor|]. constructor; [done|].
    apply Forall_app. split; [apply Forall_replicate; lia|by repeat constructor].
  - inversion Hs as [|? ? Hs' Hx]; subst. constructor; [by apply IH|].
    apply Forall_app in Hx as [Hx [Hxt _]%Forall_cons].
    apply Forall_app. split; [|by repeat constructor]. apply Forall_app. split; [done|].
    by apply Forall_replicate.
Qed.

Section Proof.
Context {Name : Type} `{Countable Name}.
Context {App HArg HRep ArgType : Type}.
Context (decode : ArgType -> list byte -> HArg) (encode : HRep -> list byte).
Context {Op Res Mem PS Srv Args Rep : Type} {P : Program Op Res Mem PS Srv Args Rep}.
Context (marshal : Args -> ArgType * list byte) (unmarshal : string -> list byte -> Rep).
Context (dial : nat -> Srv -> Name -> @Network Name _ _ -> option (@Network Name _ _)).

(** Getting an end does not touch the servers. *)
Context (dial_ok : forall k s e rn rn', dial k s e rn = Some rn' ->
  servers rn' = servers rn ∧ done rn' = done rn).

Abbreviation world := (@world Name _ _ App HArg HRep ArgType).
Abbreviation sys := (@sys Name _ _ App HArg HRep ArgType Op Res Mem PS Srv Rep).
Abbreviation sys_step := (sys_step decode encode marshal unmarshal dial).
Abbreviation sys_ok := (sys_ok marshal unmarshal).
Abbreviation entry_ok := (entry_ok unmarshal).
Abbreviation thread := (thread unmarshal).
Abbreviation ask_ok := (ask_ok marshal).
Abbreviation act := (@act Name _ _ App HArg HRep ArgType decode encode).
Implicit Types (σ : sys) (w : world).

(** ** What is known stays true *)

Record grows σ σ' : Prop := {
  g_returned : forall i c r, calls (wld σ) !! i = Some c -> pc c = Returned r ->
    ∃ c', calls (wld σ') !! i = Some c' ∧ pc c' = Returned r;
  g_issued : issued σ `prefix_of` issued σ';
  g_executed : executed (wld σ) `prefix_of` executed (wld σ');
  g_stamps : stamps σ `prefix_of` stamps σ';
  g_clock : clock σ <= clock σ'
}.

Lemma entry_grows σ σ' op b hi hi' ps i s o :
  grows σ σ' -> hi <= hi' -> entry_ok σ op b hi ps i s o -> entry_ok σ' op b hi' ps i s o.
Proof.
  intros [Hr Hi He Hs _] Hhi [Hq (meth & a & c & r & Hn & Hc & Hp & Ho & Hx)].
  split; [by eapply prefix_lookup_Some|].
  destruct (Hr i c r Hc Hp) as (c' & Hc' & Hp'). exists meth, a, c', r. split_and!; [done..|].
  intros Hok. destruct (Hx Hok) as (x & s' & t & Hx1 & Hx2 & Ht). exists x, s', t.
  split_and!; [by eapply prefix_lookup_Some..|lia].
Qed.

Lemma thread_grows σ σ' op b hi hi' ps tr ps' :
  grows σ σ' -> hi <= hi' -> thread σ op b hi ps tr ps' -> thread σ' op b hi' ps tr ps'.
Proof.
  intros Hg Hhi. induction 1; [constructor|by eapply thread_turn|].
  apply thread_call; [done|]. by eapply entry_grows.
Qed.

Lemma act_grows σ σ' x : grows σ σ' -> act_ok unmarshal σ x -> act_ok unmarshal σ' x.
Proof.
  intros Hg. pose proof (g_clock _ _ Hg) as Hc. unfold act_ok. destruct x as [m []]; simpl; [done|..].
  - intros [Hb Ht]. split; [lia|by eapply thread_grows].
  - intros (Hb & Ht & Hi). split_and!; [lia|by eapply thread_grows|].
    eapply prefix_lookup_Some; [done|apply Hg].
Qed.

Lemma fin_grows σ σ' f : grows σ σ' -> fin_ok unmarshal σ f -> fin_ok unmarshal σ' f.
Proof.
  intros Hg (m & m' & ps & Hb & Ht & Hn). exists m, m', ps. split_and!; [done| |done].
  by eapply (thread_grows σ σ' _ _ (f_ended f)).
Qed.

Lemma all_grow σ σ' : grows σ σ' -> sys_ok σ ->
  Forall (act_ok unmarshal σ') (clients σ) ∧ Forall (fin_ok unmarshal σ') (log σ).
Proof.
  intros Hg Ho. split.
  - eapply Forall_impl; [apply (o_clients _ _ _ Ho)|]. intros x. by apply act_grows.
  - eapply Forall_impl; [apply (o_log _ _ _ Ho)|]. intros f. by apply fin_grows.
Qed.

(** ** Steps of the network *)

Lemma act_asked w w' Q :
  act w w' -> length (calls w') = length (calls w) -> Forall2 ask_ok (calls w) Q ->
  Forall2 ask_ok (calls w') Q.
Proof.
  intros Ha Hl Hq. apply Forall2_same_length_lookup_2; [rewrite Hl; by eapply Forall2_length|].
  intros i c' q Hc' Hi. destruct (lookup_lt_is_Some_2 (calls w) i) as [c Hc].
  { rewrite <- Hl. by eapply lookup_lt_Some. }
  destruct (act_moves decode encode w w' i c Ha Hc) as (c1 & Hc1 & Hr & _).
  assert (c1 = c') as -> by congruence. destruct (Forall2_lookup_lr _ _ _ _ _ _ Hq Hc Hi) as [Hx Hy].
  split; [|done]. by rewrite Hr.
Qed.

Lemma act_returned w w' i c r :
  act w w' -> calls w !! i = Some c -> pc c = Returned r ->
  ∃ c', calls w' !! i = Some c' ∧ pc c' = Returned r.
Proof.
  intros Ha Hc Hp. destruct (act_moves decode encode w w' i c Ha Hc) as (c' & Hc' & _ & Hm).
  exists c'. split; [done|]. rewrite Hp in Hm. by destruct Hm as [->|[]].
Qed.

Lemma net_grows σ w' :
  act (wld σ) w' ->
  grows σ (Sys w' (clock σ) (clients σ) (log σ)
    (stamps σ ++ replicate (length (executed w') - length (executed (wld σ))) (clock σ)) (issued σ)).
Proof.
  intros Ha. split; simpl; [|done|by eapply act_executed|by eexists|lia].
  intros i c r. by apply act_returned.
Qed.

Lemma net_ok σ w' :
  sys_ok σ -> step decode encode (wld σ) w' -> length (calls w') = length (calls (wld σ)) ->
  sys_ok (Sys w' (clock σ) (clients σ) (log σ)
    (stamps σ ++ replicate (length (executed w') - length (executed (wld σ))) (clock σ)) (issued σ)).
Proof.
  intros Ho [Hcr Ha] Hl. pose proof (act_executed decode encode _ _ Ha) as Hpre.
  pose proof (prefix_length _ _ Hpre) as Hle. destruct Hpre as [ex Hex].
  destruct (all_grow _ _ (net_grows σ w' Ha) Ho) as [Hcl Hlog].
  pose proof (o_stamps _ _ _ Ho) as Hs. split; simpl; [| | | | | | |done|done].
  - eapply act_inv; [apply Ho|done|done].
  - eapply act_asked; [exact Ha|done|apply Ho].
  - rewrite length_app, length_replicate, Hs. lia.
  - apply sorted_repeat, Ho.
  - intros x i s r t q Hx Ht Hq. rewrite Hex in Hx.
    apply lookup_app_Some in Ht as [Ht|[Hge Ht]].
    + apply lookup_app_Some in Hx as [Hx|[Hxg Hx]]; [by eapply (o_began _ _ _ Ho)|].
      apply lookup_lt_Some in Ht. lia.
    + apply lookup_replicate in Ht as [-> _]. apply (o_now _ _ _ Ho). by eapply list_elem_of_lookup_2.
  - apply Ho.
  - rewrite Hl. apply Ho.
Qed.

(** ** Steps of the clients *)

Lemma client_step_ok σ σ' k x x' :
  sys_ok σ -> clients σ !! k = Some x ->
  wld σ' = wld σ -> clock σ' = clock σ -> stamps σ' = stamps σ -> issued σ' = issued σ ->
  clients σ' = <[k := x']> (clients σ) -> act_ok unmarshal σ' x' ->
  Forall (fin_ok unmarshal σ') (log σ') ->
  (log σ' ≫= λ f, (f_trace f).*1) ++ act_ids x' ≡ₚ (log σ ≫= λ f, (f_trace f).*1) ++ act_ids x ->
  sys_ok σ'.
Proof.
  intros Ho Hk Ew Ec Es Ei Ecl Hx' Hlog Hids.
  assert (Hg : grows σ σ').
  { split; rewrite ?Ew, ?Ec, ?Es, ?Ei; [eauto|done|done|done|lia]. }
  destruct (all_grow _ _ Hg Ho) as [Hcl _]. destruct Ho as [O1 O2 O3 O4 O5 O6 O7 O8 O9].
  split; rewrite ?Ew, ?Ec, ?Es, ?Ei; try done.
  - rewrite <- O7. unfold call_ids. rewrite Ecl.
    apply (Permutation_app_inv_l (act_ids x)). rewrite !(Permutation_app_swap_app (act_ids x)).
    rewrite (bind_insert _ _ _ _ x' Hk), app_assoc, Hids. by rewrite <- app_assoc.
  - rewrite Ecl. by apply Forall_insert.
Qed.

(** A step of a client that does not finish an operation. *)
Lemma set_client_ok σ k m m' a a' :
  sys_ok σ -> clients σ !! k = Some (m, a) -> act_ok unmarshal σ (m', a') ->
  act_ids (m', a') ≡ₚ act_ids (m, a) -> sys_ok (set_client σ k m' a').
Proof.
  intros Ho Hk Hx Hids. eapply (client_step_ok σ _ k); try done.
  - eapply (act_grows σ); [|done]. split; simpl; eauto. lia.
  - apply (all_grow σ); [|done]. split; simpl; eauto. lia.
  - simpl. by rewrite Hids.
Qed.

Lemma client_of σ k x : sys_ok σ -> clients σ !! k = Some x -> act_ok unmarshal σ x.
Proof. intros Ho Hk. by eapply Forall_lookup_1; [apply (o_clients _ _ _ Ho)|]. Qed.

Lemma reply_ok σ k m op b ps tr i s meth a c r :
  sys_ok σ -> clients σ !! k = Some (m, Blocked op b ps tr i) -> next ps = ACall s meth a ->
  calls (wld σ) !! i = Some c -> pc c = Returned r ->
  sys_ok (set_client σ k m
    (Running op b (resume ps (outcome unmarshal meth r)) (tr ++ [(i, (s, outcome unmarshal meth r))]))).
Proof.
  intros Ho Hk Hn Hc Hp. destruct (client_of _ _ _ Ho Hk) as (Hb & Ht & Hi).
  eapply set_client_ok; [done|done| |].
  2: { unfold act_ids. simpl. by rewrite fmap_app. }
  split; [done|]. apply thread_call; [done|]. split; [done|].
  exists meth, a, c, r. split_and!; [done..|]. intros Hok.
  destruct (w_calls _ (o_net _ _ _ Ho) i c Hc) as [_ Hpi]. rewrite Hp in Hpi.
  destruct (Hpi Hok) as [s' [x Hx]%list_elem_of_lookup].
  destruct (lookup_lt_is_Some_2 (stamps σ) x) as [t Hst].
  { rewrite (o_stamps _ _ _ Ho). by eapply lookup_lt_Some. }
  exists x, s', t. split_and!; [done..|].
  pose proof (o_sorted _ _ _ Ho) as Hs.
  apply list_elem_of_lookup_2 in Hst. clear - Hs Hst.
  induction (stamps σ) as [|y l IH]; [by apply elem_of_nil in Hst|].
  inversion Hs as [|? ? Hs' Hy]; subst. apply elem_of_cons in Hst as [->|Hin]; [|by apply IH].
  by apply Forall_app in Hy as [_ [Hy _]%Forall_cons].
Qed.

Lemma return_ok σ k m op b ps tr res m' :
  sys_ok σ -> clients σ !! k = Some (m, Running op b ps tr) -> next ps = AReturn res m' ->
  sys_ok (Sys (wld σ) (clock σ) (<[k := (m', Idle)]> (clients σ))
    (log σ ++ [Finished k op res b (clock σ) tr]) (stamps σ) (issued σ)).
Proof.
  intros Ho Hk Hn. destruct (client_of _ _ _ Ho Hk) as [Hb Ht].
  assert (Hg : grows σ (Sys (wld σ) (clock σ) (<[k := (m', Idle)]> (clients σ))
    (log σ ++ [Finished k op res b (clock σ) tr]) (stamps σ) (issued σ))).
  { split; simpl; eauto. lia. }
  eapply (client_step_ok σ _ k); try done; simpl.
  - apply Forall_app. split; [by apply (all_grow σ)|]. constructor; [|done].
    exists m, m', ps. split_and!; [done| |done]. by eapply (thread_grows σ _ _ _ (clock σ)).
  - rewrite bind_app. simpl. by rewrite !app_nil_r.
Qed.

Lemma call_ok σ k m op b ps tr s meth a e rn :
  sys_ok σ -> clients σ !! k = Some (m, Running op b ps tr) -> next ps = ACall s meth a ->
  dial k s e (net (wld σ)) = Some rn ->
  sys_ok (Sys (new_call (wld σ) rn (request_of marshal e meth a)) (clock σ)
    (<[k := (m, Blocked op b ps tr (length (calls (wld σ))))]> (clients σ)) (log σ)
    (stamps σ) (issued σ ++ [Asked op b ps])).
Proof.
  intros Ho Hk Hn Hd. destruct (dial_ok _ _ _ _ _ Hd) as [Hsv Hdn].
  destruct (client_of _ _ _ Ho Hk) as [Hb Ht]. simpl in Hb, Ht.
  set (σ' := Sys _ _ _ _ _ _).
  assert (Hg : grows σ σ').
  { split; simpl; [|by eexists|done|done|lia].
    intros i c r Hc Hp. exists c. split; [by apply lookup_app_l_Some|done]. }
  destruct (all_grow _ _ Hg Ho) as [Hcl Hlog].
  destruct Ho as [O1 O2 O3 O4 O5 O6 O7 O8 O9]. pose proof (Forall2_length _ _ _ O2) as Hlen.
  split; simpl; try done.
  - pose proof O1 as N1. apply new_call_inv with (r := request_of marshal e meth a) in N1.
    destruct N1 as [I1 I2 I3 I4 I5 I6]. split; try done; simpl.
    + intros sn s'. unfold server_at. rewrite Hsv. apply I5.
    + rewrite Hdn. apply I6.
  - apply Forall2_app; [done|]. constructor; [|done]. split; [by exists e, s, meth, a|].
    exists m, tr.*2. by eapply thread_follows.
  - intros x i s' r t q Hx Hst [Hq|[Hge Hq]]%lookup_app_Some; [by eapply O5|].
    apply list_elem_of_lookup_2, (w_exec _ O1) in Hx as (_ & Hlt & _). lia.
  - intros q [Hq| ->%list_elem_of_singleton]%elem_of_app; [by apply O6|done].
  - rewrite length_app. simpl. rewrite seq_app, <- O7. simpl. unfold call_ids. simpl.
    pose proof (bind_insert act_ids _ _ _ (m, Blocked op b ps tr (length (calls (wld σ)))) Hk) as Hbi.
    unfold act_ids in Hbi at 1 3. simpl in Hbi. rewrite <- app_assoc in Hbi.
    apply Permutation_app_inv_l in Hbi. rewrite Hbi.
    rewrite <- (Permutation_app_comm _ [length (calls (wld σ))]). by rewrite app_assoc.
  - apply Forall_insert; [done|]. unfold act_ok. simpl. split_and!; [done| |].
    + by eapply (thread_grows σ _ _ _ (clock σ)).
    + by rewrite Hlen, list_lookup_middle.
Qed.

Theorem sys_step_ok σ σ' : sys_ok σ -> sys_step σ σ' -> sys_ok σ'.
Proof.
  intros Ho Hs. destruct Hs as [σ w' Hw Hl|σ t Ht|σ k m op Hk|σ k m op b ps tr ps' Hk Hn
    |σ k m op b ps tr s meth a e rn Hk Hn Hcr Hd|σ k m op b ps tr i s meth a c r Hk Hn Hc Hp
    |σ k m op b ps tr res m' Hk Hn].
  - by apply net_ok.
  - assert (Hg : grows σ (Sys (wld σ) t (clients σ) (log σ) (stamps σ) (issued σ))).
    { split; simpl; eauto. }
    destruct (all_grow _ _ Hg Ho) as [Hcl Hlog]. destruct Ho as [O1 O2 O3 O4 O5 O6 O7 O8 O9].
    split; simpl; try done; [by eapply sorted_snoc|]. intros q Hq. specialize (O6 q Hq). lia.
  - eapply set_client_ok; [done..| |done]. split; [simpl; lia|constructor].
  - eapply set_client_ok; [done..| |done]. destruct (client_of _ _ _ Ho Hk) as [Hb Ht].
    split; [done|]. by eapply thread_turn.
  - by eapply call_ok.
  - by eapply reply_ok.
  - by eapply return_ok.
Qed.

Lemma init_ok w ms : fresh_world decode encode w -> sys_ok (init w ms).
Proof.
  intros [Hr Hc]. apply reachable_inv in Hr. assert (He : executed w = []).
  { destruct (executed w) as [|[[i s] r] l] eqn:E; [done|].
    destruct (w_exec _ Hr i s r) as (_ & Hlt & _); [rewrite E; left|]. rewrite Hc in Hlt. simpl in Hlt. lia. }
  split; simpl; rewrite ?Hc, ?He; try done.
  - repeat constructor.
  - intros q Hq. by apply elem_of_nil in Hq.
  - unfold call_ids. simpl. clear. induction ms as [|m ms IH]; simpl; done.
  - apply Forall_fmap, Forall_true. done.
Qed.

Lemma runs_ok Q w ms σ :
  fresh_world decode encode w -> runs decode encode marshal unmarshal dial Q (init w ms) σ -> sys_ok σ.
Proof.
  intros Hw Hr. assert (Ho : sys_ok (init w ms)) by by apply init_ok.
  induction Hr as [σ|σ σ1 σ2 [_ Hs] _ IH]; [done|]. apply IH. by eapply sys_step_ok.
Qed.
End Proof.
