(* ===== verification/SystemLin.v ===== *)
(** * What clients of [System] observe

    An operation that returned had its last call executed exactly once, while it ran.  When the
    servers implement a sequential specification and no reply is lost, the operations of the
    clients are linearizable; a network that stays reliable and connected loses none. *)
From S2P Require Import Prelude Labrpc LabrpcProof Clerks Programs System SystemProof.
From Stdlib Require Import Strings.Byte.
Import Labrpc.

#[local] Open Scope Z_scope.

(** ** Lists *)

Lemma FOP_lookup {A} (R : A -> A -> Prop) (l : list A) :
  ForallOrdPairs R l <->
  forall i j x y, (i < j)%nat -> l !! i = Some x -> l !! j = Some y -> R x y.
Proof.
  split.
  - induction 1 as [|a l Ha _ IH]; intros i j x y Hij Hi Hj; [done|].
    destruct j as [|j]; [lia|]. destruct i as [|i]; simpl in *.
    + simplify_eq. rewrite Forall_forall in Ha. apply Ha. by eapply list_elem_of_lookup_2.
    + apply (IH i j); [lia|done|done].
  - induction l as [|a l IH]; intros Hl; constructor.
    + apply Forall_forall. intros y [j Hj]%list_elem_of_lookup. by apply (Hl 0%nat (S j)); [lia|..].
    + apply IH. intros i j x y Hij Hi Hj. by apply (Hl (S i) (S j)); [lia|..].
Qed.

Lemma FOP_omap {A B} (f : A -> option B) (R : A -> A -> Prop) (S : B -> B -> Prop) (l : list A) :
  ForallOrdPairs R l ->
  (forall a b x y, R a b -> f a = Some x -> f b = Some y -> S x y) -> ForallOrdPairs S (omap f l).
Proof.
  intros Hl Hf. induction Hl as [|a l Ha _ IH]; simpl; [constructor|].
  destruct (f a) as [x|] eqn:Ea; [|done]. constructor; [|done].
  apply Forall_forall. intros y (b & Hb & Eb)%list_elem_of_omap.
  rewrite Forall_forall in Ha. by apply (Hf a b); [apply Ha|..].
Qed.

Lemma FOP_neq_NoDup {A} (l : list A) : ForallOrdPairs (λ x y, x ≠ y) l <-> NoDup l.
Proof.
  split; induction 1 as [|a l Ha _ IH]; constructor; try done.
  - rewrite Forall_forall in Ha. intros Hin. by apply (Ha a).
  - apply Forall_forall. intros x Hx ->. done.
Qed.

Lemma sorted_lookup (l : list Z) t i j x y :
  StronglySorted Z.le (l ++ [t]) -> (i < j)%nat -> l !! i = Some x -> l !! j = Some y -> x <= y.
Proof.
  intros Hs. revert i j. induction l as [|a l IH]; intros i j Hij Hi Hj; [done|].
  inversion Hs as [|? ? Hs' Ha]; subst. destruct j as [|j]; [lia|]. destruct i as [|i]; simpl in *.
  - simplify_eq. apply Forall_app in Ha as [Ha _]. by eapply Forall_lookup_1.
  - apply (IH Hs' i j); [lia|done|done].
Qed.

(** One key for each element, taken from lists that do not meet. *)
Lemma NoDup_bind_keys {A K} (g : A -> list K) (k : A -> K) (l : list A) :
  NoDup (l ≫= g) -> (forall x, x ∈ l -> k x ∈ g x) -> NoDup (k <$> l).
Proof.
  induction l as [|a l IH]; intros Hn Hk; [constructor|].
  rewrite bind_cons in Hn. apply NoDup_app in Hn as (_ & Hd & Hn). simpl. constructor.
  - intros (x & Hx & Hin)%list_elem_of_fmap. apply (Hd (k a)); [apply Hk; left|].
    apply list_elem_of_bind. exists x. rewrite Hx. split; [apply Hk; by right|done].
  - apply IH; [done|]. intros x Hx. apply Hk. by right.
Qed.

(** ** Specifications *)

Section Spec.
Context {St Op Res : Type} (spec : St -> Op -> Res -> St -> Prop).

Inductive explained : St -> list (Op * Res) -> St -> Prop :=
| explained_nil st : explained st [] st
| explained_snoc st l st1 op res st2 :
    explained st l st1 -> spec st1 op res st2 -> explained st (l ++ [(op, res)]) st2.
End Spec.

Section Lin.
Context {Name : Type} `{Countable Name}.
Context {App HArg HRep ArgType : Type}.
Context (decode : ArgType -> list byte -> HArg) (encode : HRep -> list byte).
Context {Op Res Mem PS Srv Args Rep : Type} {P : Program Op Res Mem PS Srv Args Rep}.
Context {L : ProgramLaws P}.
Context (marshal : Args -> ArgType * list byte) (unmarshal : string -> list byte -> Rep).
Context (dial : nat -> Srv -> Name -> @Network Name _ _ -> option (@Network Name _ _)).
Context (dial_ok : forall k s e rn rn', dial k s e rn = Some rn' ->
  servers rn' = servers rn ∧ done rn' = done rn).

Abbreviation world := (@world Name _ _ App HArg HRep ArgType).
Abbreviation sys := (@sys Name _ _ App HArg HRep ArgType Op Res Mem PS Srv Rep).
Abbreviation finished := (@finished Op Res Srv Rep).
Abbreviation runs := (runs decode encode marshal unmarshal dial).
Abbreviation sys_ok := (sys_ok marshal unmarshal).
Abbreviation entry_ok := (entry_ok unmarshal).
Abbreviation thread := (thread unmarshal).
Abbreviation outcome := (outcome unmarshal).
Implicit Types (σ : sys) (w : world) (f : finished).

(** ** Calls of an operation *)

Lemma thread_last σ op b hi m tr ps res m' :
  thread σ op b hi (start m op) tr ps -> next ps = AReturn res m' ->
  ∃ tr0 i s rep ps0, tr = tr0 ++ [(i, (s, Some rep))] ∧
    entry_ok σ op b hi ps0 i s (Some rep) ∧ next (resume ps0 (Some rep)) = AReturn res m'.
Proof.
  intros Ht Hn. remember (start m op) as ps0 eqn:E. destruct Ht as [ps|ps tr ps1 ps2 Ht Htn|ps tr ps1 i s o Ht He]; subst.
  - by apply start_works in Hn.
  - by eapply turn_works in Hn.
  - destruct o as [rep|]; [by exists tr, i, s, rep, ps1|].
    destruct (e_called _ _ _ _ _ _ _ _ _ He) as (meth & a & _ & _ & Hc & _).
    by eapply failed_works in Hn.
Qed.

(** An outcome upon which the operation returns is its last. *)
Lemma thread_entry σ op b hi ps tr ps' i s o :
  thread σ op b hi ps tr ps' -> (i, (s, o)) ∈ tr ->
  ∃ ps0, entry_ok σ op b hi ps0 i s o ∧
    forall res m', next (resume ps0 o) = AReturn res m' ->
      next ps' = AReturn res m' ∧ last tr = Some (i, (s, o)).
Proof.
  intros Ht. induction Ht as [ps|ps tr ps1 ps2 _ IH Hn|ps tr ps1 j s' o' _ IH He]; intros Hin.
  - by apply elem_of_nil in Hin.
  - destruct (IH Hin) as (ps0 & He & Hr). exists ps0. split; [done|]. intros res m' Hres.
    destruct (Hr res m' Hres) as [Hps _]. congruence.
  - apply elem_of_app in Hin as [Hin|Hin%list_elem_of_singleton].
    + destruct (IH Hin) as (ps0 & He0 & Hr). exists ps0. split; [done|]. intros res m' Hres.
      destruct (Hr res m' Hres) as [Hps _].
      destruct (e_called _ _ _ _ _ _ _ _ _ He) as (meth & a & _ & _ & Hc & _). congruence.
    + simplify_eq. exists ps1. split; [done|]. intros res m' Hres. by rewrite last_snoc.
Qed.

Lemma log_entry σ f : sys_ok σ -> f ∈ log σ -> fin_ok unmarshal σ f.
Proof. intros Ho Hf. pose proof (o_log _ _ _ Ho) as Hl. rewrite Forall_forall in Hl. auto. Qed.

Lemma ids_NoDup σ : sys_ok σ -> NoDup (call_ids σ).
Proof. intros Ho. rewrite (o_ids _ _ _ Ho). apply NoDup_seq. Qed.

(** A dispatch is the only one of its call. *)
Lemma executed_once σ x y i s r s' r' :
  sys_ok σ -> executed (wld σ) !! x = Some (i, s, r) -> executed (wld σ) !! y = Some (i, s', r') ->
  x = y ∧ s = s' ∧ r = r'.
Proof.
  intros Ho Hx Hy. pose proof (w_once _ (o_net _ _ _ Ho)) as Hn.
  assert (E : x = y); [|by simplify_eq].
  eapply NoDup_lookup; [exact Hn|..]; rewrite !list_lookup_fmap; [by rewrite Hx|by rewrite Hy].
Qed.

(** ** The order of the dispatches *)

Definition stamp_of σ (i : nat) (t : Z) : Prop :=
  ∃ x s r, executed (wld σ) !! x = Some (i, s, r) ∧ stamps σ !! x = Some t.

Definition stamped σ (i j : nat) : Prop :=
  forall t t', stamp_of σ i t -> stamp_of σ j t' -> t <= t'.

Lemma executed_order σ :
  sys_ok σ -> ForallOrdPairs (λ x y, x.1.1 ≠ y.1.1 ∧ stamped σ x.1.1 y.1.1) (executed (wld σ)).
Proof.
  intros Ho. apply FOP_lookup. intros x y [[i s] r] [[j s'] r'] Hxy Hx Hy. simpl. split.
  - intros ->. destruct (executed_once σ x y j s r s' r' Ho Hx Hy) as [-> _]. lia.
  - intros t t' (x1 & s1 & r1 & Hx1 & Ht) (y1 & s2 & r2 & Hy1 & Ht').
    destruct (executed_once _ _ _ _ _ _ _ _ Ho Hx Hx1) as [<- _].
    destruct (executed_once _ _ _ _ _ _ _ _ Ho Hy Hy1) as [<- _].
    by eapply sorted_lookup; [apply (o_sorted _ _ _ Ho)|..].
Qed.

(** ** Commits

    A dispatch commits an operation when its reply makes the operation return. *)
Definition commit_of (q : asked) (r : replyMsg) : option (Op * Res) :=
  match next (q_state q) with
  | ACall _ meth _ =>
      match next (resume (q_state q) (outcome meth r)) with
      | AReturn res _ => Some (q_op q, res)
      | _ => None
      end
  | _ => None
  end.

Definition commit_at (I : list (@asked Op PS)) (x : nat * nat * replyMsg) : option (nat * (Op * Res)) :=
  q ← I !! x.1.1; c ← commit_of q x.2; Some (x.1.1, c).

Definition commits σ : list (nat * (Op * Res)) := omap (commit_at (issued σ)) (executed (wld σ)).

Lemma commits_order σ :
  sys_ok σ -> ForallOrdPairs (λ x y, x.1 ≠ y.1 ∧ stamped σ x.1 y.1) (commits σ).
Proof.
  intros Ho. eapply FOP_omap; [by apply executed_order|].
  intros [[i s] r] [[j s'] r'] x y Hxy Hx Hy. unfold commit_at in Hx, Hy. inv_bind. done.
Qed.

Lemma commits_keys σ : sys_ok σ -> NoDup (commits σ).*1.
Proof.
  intros Ho. apply FOP_neq_NoDup, ForallOrdPairs_fmap.
  eapply ForallOrdPairs_impl_in; [by apply commits_order|]. by intros a b _ _ [? _].
Qed.

(** ** The log and the commits *)

(** The call that made an operation return. *)
Definition last_call f : nat := default 0%nat (fst <$> last (f_trace f)).

Lemma finished_last σ f :
  sys_ok σ -> f ∈ log σ ->
  ∃ i s rep ps m', last (f_trace f) = Some (i, (s, Some rep)) ∧
    entry_ok σ (f_op f) (f_began f) (f_ended f) ps i s (Some rep) ∧
    next (resume ps (Some rep)) = AReturn (f_res f) m'.
Proof.
  intros Ho Hf. destruct (log_entry σ f Ho Hf) as (m & m' & ps & _ & Ht & Hn).
  destruct (thread_last _ _ _ _ _ _ _ _ _ Ht Hn) as (tr0 & i & s & rep & ps0 & Etr & He & Hr).
  exists i, s, rep, ps0, m'. by rewrite Etr, last_snoc.
Qed.

Lemma last_call_in σ f : sys_ok σ -> f ∈ log σ -> last_call f ∈ (f_trace f).*1.
Proof.
  intros Ho Hf. destruct (finished_last σ f Ho Hf) as (i & s & rep & ps & m' & Hl & _ & _).
  unfold last_call. rewrite Hl. apply last_Some in Hl as [tr0 ->]. rewrite fmap_app. set_solver.
Qed.

(** The dispatch of the last call, once and while the operation ran. *)
Lemma finished_committed σ f :
  sys_ok σ -> f ∈ log σ ->
  (last_call f, (f_op f, f_res f)) ∈ commits σ ∧
  forall t, stamp_of σ (last_call f) t -> f_began f <= t <= f_ended f.
Proof.
  intros Ho Hf. destruct (finished_last σ f Ho Hf) as (i & s & rep & ps & m' & Hl & He & Hn).
  unfold last_call. rewrite Hl. simpl.
  destruct (e_called _ _ _ _ _ _ _ _ _ He) as (meth & a & c & r & Hc & Hi & Hp & Hr & Hx).
  pose proof (e_issued _ _ _ _ _ _ _ _ _ He) as Hq.
  assert (Hok : ok r = true) by (unfold outcome in Hr; by destruct (ok r)).
  destruct (Hx Hok) as (x & s' & t & Hex & Hst & Hle). split.
  - apply list_elem_of_omap. exists (i, s', r). split; [by eapply list_elem_of_lookup_2|].
    unfold commit_at, commit_of. simpl. rewrite Hq. simpl. by rewrite Hc, <- Hr, Hn.
  - intros t' (y & s2 & r2 & Hy & Ht').
    destruct (executed_once _ _ _ _ _ _ _ _ Ho Hex Hy) as [<- _]. assert (t' = t) as -> by congruence.
    split; [|done]. by apply (o_began _ _ _ Ho x i s' r t _ Hex Hst Hq).
Qed.

(** Nobody is in the middle of an operation, and no reply of a handler was lost. *)
Definition quiet σ : Prop := Forall (λ x, x.2 = Idle) (clients σ).
Definition lossless σ : Prop :=
  forall i s r, (i, s, r) ∈ executed (wld σ) -> ∃ c, calls (wld σ) !! i = Some c ∧ pc c = Returned r.

Lemma quiet_ids σ : quiet σ -> call_ids σ = log σ ≫= λ f, (f_trace f).*1.
Proof.
  intros Hq. unfold call_ids. rewrite <- (app_nil_r (log σ ≫= _)) at 2. f_equal. unfold quiet in Hq.
  induction Hq as [|[m a] l Ha _ IH]; [done|]. simpl in *. by subst a.
Qed.

(** In a quiet system every call is in the trace of an operation. *)
Lemma quiet_call σ i c :
  sys_ok σ -> quiet σ -> calls (wld σ) !! i = Some c ->
  ∃ f s o, f ∈ log σ ∧ (i, (s, o)) ∈ f_trace f.
Proof.
  intros Ho Hq Hc. assert (Hi : i ∈ call_ids σ).
  { rewrite (o_ids _ _ _ Ho). apply elem_of_seq. apply lookup_lt_Some in Hc. lia. }
  rewrite (quiet_ids σ Hq) in Hi. apply list_elem_of_bind in Hi as (f & Hi & Hf).
  apply list_elem_of_fmap in Hi as ([i' [s o]] & -> & Hi). by exists f, s, o.
Qed.

Lemma commit_finished σ i op res :
  sys_ok σ -> quiet σ -> lossless σ -> (i, (op, res)) ∈ commits σ ->
  ∃ f, f ∈ log σ ∧ last_call f = i.
Proof.
  intros Ho Hq Hll ([[i' s] r] & Hx & Hc)%list_elem_of_omap. unfold commit_at in Hc. simpl in Hc.
  apply bind_Some in Hc as (q & Hi & Hc). apply bind_Some in Hc as (c & Hc & [= -> ->]).
  destruct (Hll i s r Hx) as (cl & Hcl & Hp).
  destruct (quiet_call σ i cl Ho Hq Hcl) as (f & s' & o & Hf & Hin). exists f. split; [done|].
  destruct (log_entry σ f Ho Hf) as (m & m' & ps & _ & Ht & Hn).
  destruct (thread_entry _ _ _ _ _ _ _ _ _ _ Ht Hin) as (ps0 & He & Hret).
  destruct (e_called _ _ _ _ _ _ _ _ _ He) as (meth & a & c2 & r2 & Hc2 & Hi2 & Hp2 & Hr2 & _).
  pose proof (e_issued _ _ _ _ _ _ _ _ _ He) as Hiss.
  assert (q = Asked (f_op f) (f_began f) ps0) as -> by congruence.
  assert (c2 = cl) as -> by congruence. assert (r2 = r) as -> by congruence.
  unfold commit_of in Hc. simpl in Hc. rewrite Hc2, <- Hr2 in Hc.
  destruct (next (resume ps0 o)) as [| res' m2|] eqn:En; simplify_eq.
  destruct (Hret res m2 eq_refl) as [_ Hlast]. unfold last_call. by rewrite Hlast.
Qed.

(** ** Linearizability *)

(** An order of the log that the specification explains and that respects real time. *)
Definition linearizes {St} (spec : St -> Op -> Res -> St -> Prop) (st : St) (h : list finished) : Prop :=
  ∃ τ st', τ ≡ₚ h ∧ explained spec st ((λ f, (f_op f, f_res f)) <$> τ) st' ∧
    ForallOrdPairs (λ f g, ¬ f_ended g < f_began f) τ.

Lemma commits_log σ :
  sys_ok σ -> quiet σ -> lossless σ ->
  ∃ τ, τ ≡ₚ log σ ∧ (λ f, (last_call f, (f_op f, f_res f))) <$> τ = commits σ.
Proof.
  intros Ho Hq Hll.
  assert (Hk : (commits σ).*1 ≡ₚ last_call <$> log σ).
  { apply NoDup_Permutation.
    - by apply commits_keys.
    - pose proof (ids_NoDup σ Ho) as Hn. rewrite (quiet_ids σ Hq) in Hn.
      eapply NoDup_bind_keys; [exact Hn|]. intros f. by apply last_call_in.
    - intros i. split.
      + intros ([i' [op res]] & -> & Hin)%list_elem_of_fmap.
        destruct (commit_finished σ i' op res Ho Hq Hll Hin) as (f & Hf & <-).
        simpl. by apply list_elem_of_fmap_2.
      + intros (f & -> & Hf)%list_elem_of_fmap. destruct (finished_committed σ f Ho Hf) as [Hc _].
        exact (list_elem_of_fmap_2 fst _ _ Hc). }
  apply Permutation_map_inv in Hk as (τ & Hτ & Hp). exists τ. split; [by symmetry|].
  change (map last_call τ) with (last_call <$> τ) in Hτ.
  apply list_eq. intros j. rewrite list_lookup_fmap.
  assert (Hj : fst <$> commits σ !! j = last_call <$> τ !! j).
  { transitivity ((commits σ).*1 !! j); [by rewrite list_lookup_fmap|].
    rewrite Hτ. apply list_lookup_fmap. }
  destruct (τ !! j) as [f|] eqn:Ef; simpl in *; destruct (commits σ !! j) as [[i x]|] eqn:Ec; try done.
  simpl in *. injection Hj as ->. f_equal.
  destruct (finished_committed σ f Ho) as [Hc _].
  { rewrite Hp. by eapply list_elem_of_lookup_2. }
  apply (key_inj fst (commits σ)); [by apply commits_keys|done|by eapply list_elem_of_lookup_2|done].
Qed.

Lemma explained_commits {St} (spec : St -> Op -> Res -> St -> Prop) st st' σ :
  sys_ok σ -> quiet σ -> lossless σ -> explained spec st (commits σ).*2 st' ->
  linearizes spec st (log σ).
Proof.
  intros Ho Hq Hll He. destruct (commits_log σ Ho Hq Hll) as (τ & Hp & Hτ). exists τ, st'.
  split_and!; [done| |].
  - rewrite <- Hτ, <- list_fmap_compose in He. exact He.
  - pose proof (commits_order σ Ho) as Hord. rewrite <- Hτ in Hord.
    apply ForallOrdPairs_fmap in Hord. eapply ForallOrdPairs_impl_in; [exact Hord|].
    intros f g Hf Hg [_ Hst] Hlt. simpl in Hst. rewrite Hp in Hf, Hg.
    assert (Hstamp : forall f, f ∈ log σ -> ∃ t, stamp_of σ (last_call f) t).
    { intros f' Hf'. destruct (finished_last σ f' Ho Hf') as (i & s & rep & ps & m' & Hl & He' & _).
      destruct (e_called _ _ _ _ _ _ _ _ _ He') as (meth & a & c & r & _ & _ & _ & Hr & Hx).
      destruct Hx as (x & s' & t & Hx & Ht & _).
      { unfold outcome in Hr. by destruct (ok r). }
      exists t. unfold last_call. rewrite Hl. by exists x, s', r. }
    destruct (Hstamp f Hf) as [t Ht], (Hstamp g Hg) as [t' Ht'].
    destruct (finished_committed σ f Ho Hf) as [_ Hf2]. destruct (finished_committed σ g Ho Hg) as [_ Hg2].
    specialize (Hf2 t Ht). specialize (Hg2 t' Ht'). specialize (Hst t t' Ht Ht'). lia.
Qed.

End Lin.
