(* ===== verification/SystemRuns.v ===== *)
(** * Runs of [System]: servers that meet a specification, networks that stay healthy *)
From S2P Require Import Prelude Labrpc LabrpcProof Clerks Programs System SystemProof SystemLin.
From Stdlib Require Import Strings.Byte.
Import Labrpc.

#[local] Open Scope Z_scope.

Lemma omap_ext_in {A B} (f g : A -> option B) (l : list A) :
  (forall x, x ∈ l -> f x = g x) -> omap f l = omap g l.
Proof.
  induction l as [|x l IH]; intros Hl; [done|]. cbn. rewrite (Hl x) by left.
  rewrite <- (IH ltac:(intros y Hy; apply Hl; by right)). done.
Qed.

Section Runs.
Context {Name : Type} `{Countable Name}.
Context {App HArg HRep ArgType : Type}.
Context (decode : ArgType -> list byte -> HArg) (encode : HRep -> list byte).
Context {Op Res Mem PS Srv Args Rep : Type} {P : Program Op Res Mem PS Srv Args Rep}.
Context {L : ProgramLaws P}.
Context (marshal : Args -> ArgType * list byte) (unmarshal : string -> list byte -> Rep).
Context (dial : nat -> Srv -> Name -> @Network Name _ _ -> option (@Network Name _ _)).
Context (dial_ok : forall k s e rn rn', dial k s e rn = Some rn' ->
  servers rn' = servers rn ∧ done rn' = done rn).

Abbreviation world := (@world Name _ _ App HArg HRep ArgType).
Abbreviation sys := (@sys Name _ _ App HArg HRep ArgType Op Res Mem PS Srv Rep).
Abbreviation sys_step := (sys_step decode encode marshal unmarshal dial).
Abbreviation runs := (runs decode encode marshal unmarshal dial).
Abbreviation sys_ok := (sys_ok marshal unmarshal).
Abbreviation outcome := (outcome unmarshal).
Abbreviation act := (@act Name _ _ App HArg HRep ArgType decode encode).
Implicit Types (σ : sys) (w : world).

Lemma act_effect w w' :
  act w w' -> (app w' = app w ∧ executed w' = executed w) ∨
    ∃ i c s rs rs' ap' r, calls w !! i = Some c ∧ heap w !! s = Some rs ∧
      server_dispatch decode encode rs (req c) (app w) = (rs', Replied (ap', r)) ∧
      app w' = ap' ∧ executed w' = executed w ++ [(i, s, r)].
Proof.
  intros Ha. destruct Ha; try by left.
  right. by eexists _, _, _, _, _, _, _.
Qed.

(** ** Servers *)
Section Servers.
Context {St : Type} (good : gmap string (@Service App HArg HRep) -> Prop).
Context (abs : App -> St) (spec : St -> Op -> Res -> St -> Prop).

(** What the servers promise to the clerks: with the services [good], a reply that makes an
    operation return is the effect of the operation on the state, and every other reply leaves
    the state as it is. *)
Class Implements : Prop :=
  implements : forall rs (e : Name) m op tr ps s meth a ap rs' ap' r,
    good (services rs) -> follows (start m op) tr ps -> next ps = ACall s meth a ->
    server_dispatch decode encode rs (request_of marshal e meth a) ap = (rs', Replied (ap', r)) ->
    match next (resume ps (outcome meth r)) with
    | AReturn res _ => spec (abs ap) op res (abs ap')
    | _ => abs ap' = abs ap
    end.

Definition good_heap σ : Prop :=
  forall s rs, heap (wld σ) !! s = Some rs -> good (services rs).

Context `{!Implements}.

Lemma commits_issued σ I :
  sys_ok σ -> issued σ `prefix_of` I ->
  omap (commit_at unmarshal I) (executed (wld σ)) = commits unmarshal σ.
Proof.
  intros Ho [I' ->]. unfold commits. pose proof (w_exec _ (o_net _ _ _ Ho)) as Hx.
  pose proof (Forall2_length _ _ _ (o_asked _ _ _ Ho)) as Hl. rewrite Hl in Hx.
  apply omap_ext_in. intros [[i s] r] Hin. unfold commit_at. simpl.
  destruct (Hx i s r Hin) as (_ & Hlt & _). by rewrite lookup_app_l.
Qed.

(** What is executed is what the specification explains. *)
Lemma commits_step σ σ' st :
  sys_ok σ -> good_heap σ -> sys_step σ σ' ->
  explained spec st (commits unmarshal σ).*2 (abs (app (wld σ))) ->
  explained spec st (commits unmarshal σ').*2 (abs (app (wld σ'))).
Proof.
  intros Ho Hg Hs He.
  destruct Hs as [σ w' [Hcr Ha] Hl| | | |σ k m op b ps tr s meth a e rn Hk Hn Hcr Hd| |]; try done.
  2: { unfold commits. simpl. rewrite commits_issued; [done|done|]. by eexists. }
  destruct (act_effect _ _ Ha) as [[Eap Eex]|(i & c & s & rs & rs' & ap' & r & Hc & Hrs & Hd & Eap & Eex)].
  { unfold commits. simpl. by rewrite Eap, Eex. }
  destruct (lookup_lt_is_Some_2 (issued σ) i) as [q Hq].
  { rewrite <- (Forall2_length _ _ _ (o_asked _ _ _ Ho)). by eapply lookup_lt_Some. }
  destruct (Forall2_lookup_lr _ _ _ _ _ _ (o_asked _ _ _ Ho) Hc Hq)
    as ((e & s' & meth & a & Hn & Hreq) & m & tr & Hf).
  rewrite Hreq in Hd.
  pose proof (implements rs e m (q_op q) tr (q_state q) s' meth a _ rs' ap' r (Hg s rs Hrs) Hf Hn Hd) as Hi.
  unfold commits in *. simpl. rewrite Eap, Eex, omap_app. simpl.
  unfold commit_at at 2. simpl. rewrite Hq. simpl. unfold commit_of. rewrite Hn.
  destruct (next (resume (q_state q) (outcome meth r))) as [| res m'|]; simpl.
  - by rewrite app_nil_r, Hi.
  - rewrite fmap_app. simpl. by eapply explained_snoc.
  - by rewrite app_nil_r, Hi.
Qed.

Lemma runs_explained Q w ms σ :
  (forall σ, Q σ -> good_heap σ) -> fresh_world decode encode w -> runs Q (init w ms) σ ->
  explained spec (abs (app w)) (commits unmarshal σ).*2 (abs (app (wld σ))).
Proof.
  intros HQ Hw Hr. assert (Ho : sys_ok (init w ms : sys)) by by apply (init_ok decode encode).
  assert (He : explained spec (abs (app w)) (commits unmarshal (init w ms : sys)).*2
    (abs (app (wld (init w ms : sys))))).
  { replace (commits unmarshal (init w ms : sys)) with (@nil (nat * (Op * Res))); [constructor|].
    unfold commits. simpl. pose proof (o_stamps _ _ _ Ho) as Hs. simpl in Hs.
    by destruct (executed w). }
  induction Hr as [σ|σ σ1 σ2 [Hq Hs] _ IH]; [done|].
  apply IH; [by eapply sys_step_ok|]. eapply commits_step; [done|by apply HQ|done|done].
Qed.
End Servers.

(** ** A network that stays reliable and connected *)

(** Ends with calls on the way are connected to the server that [home] says. *)
Definition all_healthy (home : Name -> Name * nat) σ : Prop :=
  forall i c, calls (wld σ) !! i = Some c -> (forall r, pc c ≠ Returned r) ->
    healthy (net (wld σ)) (endname (req c)) (home (endname (req c))).1 (home (endname (req c))).2.

Definition all_served (home : Name -> Name * nat) w : Prop :=
  forall i c, calls w !! i = Some c ->
    served w i (home (endname (req c))).1 (home (endname (req c))).2 (pc c).

Lemma served_step home w w' :
  winv w -> act w w' -> length (calls w') = length (calls w) ->
  (forall i c, calls w !! i = Some c -> (forall r, pc c ≠ Returned r) ->
    healthy (net w) (endname (req c)) (home (endname (req c))).1 (home (endname (req c))).2) ->
  all_served home w -> all_served home w'.
Proof.
  intros Hw Ha Hl Hh Hs i c' Hc'. destruct (lookup_lt_is_Some_2 (calls w) i) as [c Hc].
  { rewrite <- Hl. by eapply lookup_lt_Some. }
  specialize (Hs i c Hc).
  assert (Hret : (∃ r, pc c = Returned r) ∨ forall r, pc c ≠ Returned r).
  { destruct (pc c); try (right; done). left. eauto. }
  destruct Hret as [[r Hr]|Hr].
  - destruct (act_moves decode encode w w' i c Ha Hc) as (c1 & Hc1 & Hreq & Hm).
    assert (c1 = c') as -> by congruence. rewrite Hreq. rewrite Hr in Hs, Hm.
    destruct Hm as [->|[]]. destruct Hs as [Hok Hin]. split; [done|].
    destruct (act_executed decode encode w w' Ha) as [ex ->]. apply elem_of_app. by left.
  - destruct (served_act decode encode w w' i c _ _ Hw Ha Hc Hs (Hh i c Hc Hr)) as (c1 & Hc1 & Hreq & Hs1).
    assert (c1 = c') as -> by congruence. by rewrite Hreq.
Qed.

Lemma runs_served home Q w ms σ :
  (forall σ, Q σ -> all_healthy home σ) -> fresh_world decode encode w -> runs Q (init w ms) σ ->
  all_served home (wld σ).
Proof.
  intros HQ Hw Hr. assert (Ho : sys_ok (init w ms : sys)) by by apply (init_ok decode encode).
  assert (Hs : all_served home (wld (init w ms : sys))).
  { destruct Hw as [_ Hc]. intros i c. simpl. by rewrite Hc. }
  induction Hr as [σ|σ σ1 σ2 [Hq Hst] _ IH]; [done|].
  apply IH; [by eapply sys_step_ok|]. specialize (HQ σ Hq).
  destruct Hst as [σ w' [Hcr Ha] Hl| | | |σ k m op b ps tr s meth a e rn Hk Hn Hcr Hd| |]; try done.
  - eapply served_step; [apply Ho|done|done|exact HQ|exact Hs].
  - intros i c Hc. simpl in Hc. apply lookup_app_Some in Hc as [Hc|[_ Hc]]; [by apply Hs|].
    apply list_lookup_singleton_Some in Hc as [_ <-]. done.
Qed.

(** On such a network no reply is lost, and every call succeeds. *)
Lemma served_lossless home σ :
  sys_ok σ -> quiet σ -> all_served home (wld σ) ->
  lossless σ ∧ forall f i s o, f ∈ log σ -> (i, (s, o)) ∈ f_trace f -> is_Some o.
Proof.
  intros Ho Hq Hs.
  assert (Hent : forall f i s o, f ∈ log σ -> (i, (s, o)) ∈ f_trace f ->
    ∃ meth c r, calls (wld σ) !! i = Some c ∧ pc c = Returned r ∧ o = outcome meth r ∧
      ok r = true ∧ ∃ s', (i, s', r) ∈ executed (wld σ)).
  { intros f i s o Hf Hin. destruct (log_entry _ _ σ f Ho Hf) as (m & m' & ps & _ & Ht & _).
    destruct (thread_entry _ _ _ _ _ _ _ _ _ _ _ Ht Hin) as (ps0 & He & _).
    destruct (e_called _ _ _ _ _ _ _ _ _ He) as (meth & a & c & r & _ & Hc & Hp & Hr & _).
    exists meth, c, r. specialize (Hs i c Hc). rewrite Hp in Hs. destruct Hs as [Hok Hin'].
    split_and!; [done..|by eexists]. }
  split.
  - intros i s r Hx. destruct (w_exec _ (o_net _ _ _ Ho) i s r Hx) as (_ & Hlt & _).
    destruct (lookup_lt_is_Some_2 _ _ Hlt) as [c Hc].
    destruct (quiet_call _ _ σ i c Ho Hq Hc) as (f & s2 & o & Hf & Hin).
    destruct (Hent f i s2 o Hf Hin) as (meth & c' & r' & Hc' & Hp & _ & _ & s' & Hx').
    exists c'. split; [done|]. apply list_elem_of_lookup in Hx as [x Hx].
    apply list_elem_of_lookup in Hx' as [y Hy].
    by destruct (executed_once _ _ _ _ _ _ _ _ _ _ Ho Hx Hy) as (_ & _ & ->).
  - intros f i s o Hf Hin. destruct (Hent f i s o Hf Hin) as (meth & c & r & _ & _ & -> & Hok & _).
    unfold System.outcome. rewrite Hok. by eexists.
Qed.
End Runs.
