(* ===== verification/SystemLive.v ===== *)
(** * Progress of the clients of [System]

    Over a healthy network a call can be brought to its end with the reply of the server; so an
    operation whose answers bring it closer to its end can be finished, whatever the other
    clients are doing. *)
From S2P Require Import Prelude Labrpc LabrpcProof Clerks Programs System SystemProof.
From S2P Require Import SystemLin SystemRuns.
From Stdlib Require Import Strings.Byte.
Import Labrpc.

#[local] Open Scope Z_scope.

Section Live.
Context {Name : Type} `{Countable Name}.
Context {App HArg HRep ArgType : Type}.
Context (decode : ArgType -> list byte -> HArg) (encode : HRep -> list byte).
Context {Op Res Mem PS Srv Args Rep : Type} {P : Program Op Res Mem PS Srv Args Rep}.
Context (marshal : Args -> ArgType * list byte) (unmarshal : string -> list byte -> Rep).
Context (dial : nat -> Srv -> Name -> @Network Name _ _ -> option (@Network Name _ _)).

(** Getting an end does not touch the servers. *)
Context (dial_ok : forall k s e rn rn', dial k s e rn = Some rn' ->
  servers rn' = servers rn ∧ done rn' = done rn).

Abbreviation world := (@world Name _ _ App HArg HRep ArgType).
Abbreviation network := (@Network Name _ _).
Abbreviation sys := (@sys Name _ _ App HArg HRep ArgType Op Res Mem PS Srv Rep).
Abbreviation sys_step := (sys_step decode encode marshal unmarshal dial).
Abbreviation step := (@step Name _ _ App HArg HRep ArgType decode encode).
Abbreviation act := (@act Name _ _ App HArg HRep ArgType decode encode).
Abbreviation call := (@call Name ArgType).
Abbreviation outcome := (outcome unmarshal).
Implicit Types (σ : sys) (w : world) (rn : network).

(** Networks that differ in their counters only. *)
Record same_tables rn rn' : Prop := {
  t_rel : reliable rn' = reliable rn;
  t_ends : ends rn' = ends rn;
  t_enabled : enabled rn' = enabled rn;
  t_servers : servers rn' = servers rn;
  t_connections : connections rn' = connections rn;
  t_done : done rn' = done rn
}.

Lemma same_healthy rn rn' e sn s : same_tables rn rn' -> healthy rn e sn s -> healthy rn' e sn s.
Proof.
  intros [T1 T2 T3 T4 T5 T6] [H1 H2 H3 H4 H5].
  split; unfold is_enabled, server_at in *; by rewrite ?T1, ?T3, ?T4, ?T5, ?T6.
Qed.

(** A step that is not a new call. *)
Definition quiet_step w w' : Prop := step w w' ∧ length (calls w') = length (calls w).

(** The world with the last call at [p] and [h]. *)
Definition last_at (w : world) rn (hp : gmap nat (@Server App HArg HRep)) (ap : App)
    (rq : @reqMsg Name ArgType) p h ex : world :=
  World rn (listening w) hp ap (calls w ++ [MkCall rq p h]) (crashed w) ex.

Lemma last_step w rn rn' hp hp' ap ap' rq p p' h h' ex ex' :
  crashed w = false ->
  (forall i c, i = length (calls w) -> c = MkCall rq p h ->
    calls (last_at w rn hp ap rq p h ex) !! i = Some c ->
    act (last_at w rn hp ap rq p h ex)
      (World rn' (listening w) hp' ap' (<[i := MkCall rq p' h']> (calls w ++ [c])) (crashed w) ex')) ->
  quiet_step (last_at w rn hp ap rq p h ex) (last_at w rn' hp' ap' rq p' h' ex').
Proof.
  intros Hcr Ha. specialize (Ha _ _ eq_refl eq_refl). simpl in Ha.
  rewrite list_lookup_middle in Ha by done. specialize (Ha eq_refl).
  rewrite insert_app_r_alt, Nat.sub_diag in Ha by done. simpl in Ha.
  split; [by split|]. simpl. by rewrite !length_app.
Qed.

(** A call over a healthy end returns the reply of the server. *)
Lemma healthy_call w rn rq sn s rs rs' ap' r :
  winv w -> crashed w = false -> done (net w) = done rn ->
  healthy rn (endname rq) sn s -> heap w !! s = Some rs ->
  server_dispatch decode encode rs rq (app w) = (rs', Replied (ap', r)) ->
  ∃ rn', same_tables rn rn' ∧
    rtc quiet_step (new_call w rn rq)
      (last_at w rn' (<[s := rs']> (heap w)) ap' rq (Returned r) Taken
        (executed w ++ [(length (calls w), s, r)])).
Proof.
  intros Hw Hcr Hdn Hh Hs Hd. set (t := Target sn s true (longReordering rn)).
  set (rn1 := count_request rq rn). set (rn2 := add_bytes (length (reply r)) rn1).
  assert (T1 : same_tables rn rn1) by by split. assert (T2 : same_tables rn rn2) by by split.
  assert (Hli : listening w = true).
  { destruct (listening w) eqn:E; [done|]. pose proof (w_listen _ Hw E) as Hdone.
    rewrite Hdn, (h_open _ _ _ _ Hh) in Hdone. done. }
  pose proof (same_healthy _ _ _ _ _ T1 Hh) as Hh1.
  assert (Hloc : locate rn1 (endname rq) = Located t).
  { destruct Hh1 as [R E C S _]. unfold locate, readEndnameInfo. simpl in *. by rewrite E, C; simpl; rewrite S, R. }
  assert (Hlast : last_check rn1 (endname rq) t r = Cleared t r).
  { unfold last_check. simpl. by rewrite (healthy_alive _ _ _ _ Hh1). }
  exists rn2. split; [done|]. change (new_call w rn rq) with (last_at w rn (heap w) (app w) rq Sending NotStarted (executed w)).
  eapply rtc_l; [apply (last_step _ _ rn1 _ (heap w) _ (app w) _ _ Accepted _ NotStarted _ (executed w) Hcr)|].
  { intros i c -> -> Hi. exact (L_accept decode encode _ _ _ Hi eq_refl Hli). }
  eapply rtc_l; [apply (last_step _ _ rn1 _ (heap w) _ (app w) _ _ (Located t) _ NotStarted _ (executed w) Hcr)|].
  { intros i c -> -> Hi. pose proof (P_locate decode encode _ _ _ Hi eq_refl) as Hp.
    unfold set_pc, set_call in Hp. simpl in Hp. by rewrite Hloc in Hp. }
  eapply rtc_l; [apply (last_step _ _ rn1 _ (heap w) _ (app w) _ _ (Waiting t) _ (Started s) _ (executed w) Hcr)|].
  { intros i c -> -> Hi. exact (P_execute decode encode _ _ _ _ Hi eq_refl). }
  eapply rtc_l; [apply (last_step _ _ rn1 _ (<[s := rs']> (heap w)) _ ap' _ _ (Waiting t) _ (Ran r) _
    (executed w ++ [(length (calls w), s, r)]) Hcr)|].
  { intros i c -> -> Hi. exact (H_run decode encode _ _ _ _ _ _ _ _ Hi eq_refl Hs Hd). }
  eapply rtc_l; [apply (last_step _ _ rn1 _ (<[s := rs']> (heap w)) _ ap' _ _ (Got t r) _ Taken _
    (executed w ++ [(length (calls w), s, r)]) Hcr)|].
  { intros i c -> -> Hi. exact (P_receive decode encode _ _ _ _ _ Hi eq_refl eq_refl). }
  eapply rtc_l; [apply (last_step _ _ rn1 _ (<[s := rs']> (heap w)) _ ap' _ _ (Cleared t r) _ Taken _
    (executed w ++ [(length (calls w), s, r)]) Hcr)|].
  { intros i c -> -> Hi. pose proof (P_check decode encode _ _ _ _ _ Hi eq_refl) as Hp.
    unfold set_pc, set_call in Hp. simpl in Hp. by rewrite Hlast in Hp. }
  eapply rtc_l; [apply (last_step _ _ rn2 _ (<[s := rs']> (heap w)) _ ap' _ _ (Replying r) _ Taken _
    (executed w ++ [(length (calls w), s, r)]) Hcr)|].
  { intros i c -> -> Hi. exact (P_reply decode encode _ _ _ _ _ Hi eq_refl). }
  apply rtc_once. apply (last_step _ _ rn2 _ (<[s := rs']> (heap w)) _ ap' _ _ (Returned r) _ Taken _
    (executed w ++ [(length (calls w), s, r)]) Hcr).
  intros i c -> -> Hi. exact (C_deliver decode encode _ _ _ _ Hi eq_refl).
Qed.

(** Steps of the network as steps of the system. *)
Lemma net_run σ w' :
  rtc quiet_step (wld σ) w' ->
  ∃ ts, rtc sys_step σ (Sys w' (clock σ) (clients σ) (log σ) ts (issued σ)).
Proof.
  intros Hr. remember (wld σ) as w eqn:E. revert σ E.
  induction Hr as [w|w w1 w2 [Hs Hl] _ IH]; intros σ ->.
  - exists (stamps σ). destruct σ. apply rtc_refl.
  - edestruct IH as [ts Hts]; [|exists ts; eapply rtc_l; [by apply S_net|exact Hts]]. done.
Qed.

Section Finish.
Context (good : nat -> gmap string (@Service App HArg HRep) -> Prop) (place : Srv -> nat).
Context (start_ok : Mem -> Prop) (state_ok : PS -> Prop) (ready : network -> Prop) (left : PS -> nat).
Context (k : nat).   (* the client *)

(** What the servers have registered, by their place in the heap. *)
Definition good_servers σ : Prop :=
  forall x rs, heap (wld σ) !! x = Some rs -> good x (services rs).

(** Client [k] can reach the servers at their places in the states [state_ok] of operations, and
    every answer brings an operation closer to its end. *)
Class Serving : Prop := {
  starts_ok : forall m op, start_ok m -> state_ok (start m op);
  can_dial : forall ps s meth a rn,
    ready rn -> state_ok ps -> next ps = ACall s meth a ->
    ∃ e rn' sn, dial k s e rn = Some rn' ∧ done rn' = done rn ∧ healthy rn' e sn (place s) ∧
      forall rn'', same_tables rn' rn'' -> ready rn'';
  can_serve : forall ps s meth a rs (e : Name) ap,
    good (place s) (services rs) -> state_ok ps -> next ps = ACall s meth a ->
    ∃ rs' ap' r, server_dispatch decode encode rs (request_of marshal e meth a) ap =
      (rs', Replied (ap', r)) ∧ state_ok (resume ps (outcome meth r)) ∧
      (left (resume ps (outcome meth r)) < left ps)%nat;
  turns_end : forall ps ps', state_ok ps -> next ps = ATurn ps' -> state_ok ps' ∧ (left ps' < left ps)%nat
}.
Context `{!Serving}.

(** What the network has to be like for the next call. *)
Record able σ : Prop := {
  a_ok : sys_ok marshal unmarshal σ;
  a_alive : crashed (wld σ) = false;
  a_ready : ready (net (wld σ));
  a_good : good_servers σ
}.

Lemma steps_ok σ σ' : sys_ok marshal unmarshal σ -> rtc sys_step σ σ' -> sys_ok marshal unmarshal σ'.
Proof. intros Ho Hr. induction Hr as [|σ σ1 σ2 Hs _ IH]; [done|]. by eapply IH, sys_step_ok. Qed.

(** The next call of an operation can be made and answered. *)
Lemma able_call σ m op b ps tr s meth a :
  able σ -> state_ok ps -> next ps = ACall s meth a ->
  clients σ !! k = Some (m, Running op b ps tr) ->
  ∃ σ' r tr', rtc sys_step σ σ' ∧ able σ' ∧ log σ' = log σ ∧
    clients σ' !! k = Some (m, Running op b (resume ps (outcome meth r)) tr') ∧
    state_ok (resume ps (outcome meth r)) ∧ (left (resume ps (outcome meth r)) < left ps)%nat.
Proof.
  intros [Ho Hcr Hre Hg] Hst Hn Hk. pose proof (o_net _ _ _ Ho) as Hw.
  destruct (can_dial ps s meth a _ Hre Hst Hn) as (e & rn & sn & Hd & Hdn & Hh & Hnext). set (sv := place s) in *.
  destruct (dial_ok _ _ _ _ _ Hd) as [Hsv _].
  destruct (w_servers _ Hw sn sv) as [rs Hrs].
  { pose proof (h_server _ _ _ _ Hh) as Hs. unfold server_at in *. by rewrite Hsv in Hs. }
  destruct (can_serve ps s meth a rs e (app (wld σ)) (Hg sv rs Hrs) Hst Hn) as (rs' & ap' & r & Hdis & Hst' & Hlt).
  destruct (healthy_call (wld σ) rn (request_of marshal e meth a) sn sv rs rs' ap' r Hw Hcr
    (eq_sym Hdn) Hh Hrs Hdis) as (rn' & Ht & Hrun).
  pose proof (S_call decode encode marshal unmarshal dial σ k m op b ps tr s meth a e rn Hk Hn Hcr Hd) as Hcall.
  set (σ1 := Sys _ _ _ _ _ _) in Hcall.
  destruct (net_run σ1 _ Hrun) as [ts Hnet]. set (σ2 := Sys _ _ _ _ _ _) in Hnet.
  assert (Hk2 : clients σ2 !! k = Some (m, Blocked op b ps tr (length (calls (wld σ))))).
  { simpl. apply list_lookup_insert_eq. by eapply lookup_lt_Some. }
  pose proof (S_reply decode encode marshal unmarshal dial σ2 k m op b ps tr _ s meth a
    (MkCall (request_of marshal e meth a) (Returned r) Taken) r Hk2 Hn
    (list_lookup_middle _ _ _ _ eq_refl) eq_refl) as Hrep. simpl in Hrep.
  set (σ3 := set_client _ _ _ _) in Hrep.
  assert (Hall : rtc sys_step σ σ3).
  { eapply rtc_l; [exact Hcall|]. etrans; [exact Hnet|]. by apply rtc_once. }
  exists σ3, r. eexists. split_and!; [done| |done| |done|done].
  - split; [by eapply steps_ok|done|by apply Hnext|].
    intros s' rs2. simpl. intros [[<- <-]|[_ Hs']]%lookup_insert_Some; [|by apply (Hg s')].
    pose proof (Hg sv rs Hrs) as Hgood. unfold server_dispatch in Hdis. by simplify_eq.
  - simpl. rewrite list_lookup_insert_eq; [done|]. rewrite length_insert. by eapply lookup_lt_Some.
Qed.

(** From any state of an operation to its end. *)
Lemma able_finish σ m op b ps tr :
  able σ -> state_ok ps -> clients σ !! k = Some (m, Running op b ps tr) ->
  ∃ σ' f, rtc sys_step σ σ' ∧ log σ' = log σ ++ [f] ∧ f_client f = k ∧ f_op f = op.
Proof.
  intros Hab Hst Hk. remember (left ps) as fuel eqn:E. revert σ ps tr E Hab Hst Hk.
  induction (lt_wf fuel) as [fuel _ IH]. intros σ ps tr -> Hab Hst Hk.
  destruct (next ps) as [s meth a|res m'|ps'] eqn:Hn.
  - destruct (able_call σ m op b ps tr s meth a Hab Hst Hn Hk)
      as (σ1 & r & tr1 & Hr & Hab1 & Hl & Hk1 & Hst1 & Hlt).
    destruct (IH _ Hlt σ1 _ tr1 eq_refl Hab1 Hst1 Hk1) as (σ2 & f & Hr2 & Hl2 & Hf2).
    exists σ2, f. split; [by etrans|]. by rewrite Hl2, Hl.
  - eexists _, _. split; [by apply rtc_once; eapply S_return|done].
  - pose proof (S_turn decode encode marshal unmarshal dial σ k m op b ps tr ps' Hk Hn) as Hs.
    destruct (turns_end _ _ Hst Hn) as [Hst' Hlt].
    destruct (IH _ Hlt (set_client σ k m (Running op b ps' tr)) ps' tr eq_refl)
      as (σ2 & f & Hr2 & Hl2 & Hf2).
    + destruct Hab as [Ho Hcr Hre Hg]. split; [by eapply sys_step_ok|done|done|done].
    + done.
    + simpl. apply list_lookup_insert_eq. by eapply lookup_lt_Some.
    + exists σ2, f. split; [by eapply rtc_l|done].
Qed.
End Finish.
End Live.
