(* ===== verification/KvSystem.v ===== *)
(** * The clerks of the repository as clients of [System]

    The clerks of [shardctrler/client.go] and [shardkv/client.go] over the network of the harness
    [shardkv/config.go], and the log of their operations as a history for the checker. *)
From S2P Require Import Prelude Bitset Model Entries LinkedList LinkedEntries.
From S2P Require Import Linearizability CheckSingle CheckSingleProof CheckSingleSpec.
From S2P Require Import HistorySpec EventSpec CheckParallel Check KvModel Porcupine.
From S2P Require Import Labrpc Store ShardkvConfig Clerks Programs System SystemLin.

(** The ends of a clerk are made with it; [make_end] makes a new end to a server, and [None]
    stands for an end of another server. *)
Definition ctrl_dial (ends : nat -> list string) (k : nat) (j : nat) (e : string)
    (rn : Shardkv.network) : option Shardkv.network :=
  if decide (ends k !! j = Some e) then Some rn else None.

Definition kv_dial (ends : nat -> list string) (k : nat) (s : kv_server nat) (e : string)
    (rn : Shardkv.network) : option Shardkv.network :=
  match s with
  | Ctrler j => ctrl_dial ends k j e rn
  | Member sn => Shardkv.open_end e sn rn
  end.

Lemma ctrl_dial_ok ends k j e rn rn' :
  ctrl_dial ends k j e rn = Some rn' ->
  Labrpc.servers rn' = Labrpc.servers rn ∧ Labrpc.done rn' = Labrpc.done rn.
Proof. unfold ctrl_dial. case_decide; intros; by simplify_eq. Qed.

Lemma kv_dial_ok ends k s e rn rn' :
  kv_dial ends k s e rn = Some rn' ->
  Labrpc.servers rn' = Labrpc.servers rn ∧ Labrpc.done rn' = Labrpc.done rn.
Proof.
  destruct s as [j|sn]; simpl; [apply ctrl_dial_ok|].
  unfold Shardkv.open_end, Labrpc.MakeEnd. case_decide; intros; by simplify_eq/=.
Qed.

(** ** Operations of the key/value service *)

(** The input that the tests log. *)
Definition kv_input (op : kv_op) : KvInput :=
  match op with
  | OpGet k => MkKvInput 0 k ""
  | OpPut k v => MkKvInput 1 k v
  | OpAppend k v => MkKvInput 2 k v
  end.

Definition kv_spec (m : gmap string string) (op : kv_op) (res : string) (m' : gmap string string) : Prop :=
  store_step m (kv_input op) (MkKvOutput res) m'.

(** An entry of the log of a test. *)
Definition kv_operation (f : @finished kv_op string (kv_server nat) kv_reply) : Operation any :=
  MkOperation (Z.of_nat (f_client f)) (AKvInput (kv_input (f_op f))) (f_began f)
    (AKvOutput (MkKvOutput (f_res f))) (f_ended f).

(** The first of a sequence of operations. *)
Lemma explained_cons {St Op Res} (spec : St -> Op -> Res -> St -> Prop) st x l st' :
  explained spec st (x :: l) st' -> ∃ st1, spec st x.1 x.2 st1 ∧ explained spec st1 l st'.
Proof.
  revert st'. induction l as [|y l IH] using rev_ind; intros st' He.
  - inversion He as [|? l st1 op res ? Hl Hs E]; subst. destruct l as [|z l]; simplify_eq/=.
    + inversion Hl as [|? l' ? ? ? ? ? ? E]; subst; [|by destruct l'].
      exists st'. split; [done|constructor].
    + by destruct l.
  - rewrite app_comm_cons in He. remember ((x :: l) ++ [y]) as l2 eqn:E.
    destruct He as [|st l0 st1 op res st2 Hl Hs]; [by destruct l|].
    apply app_inj_tail in E as [-> <-]. destruct (IH st1 Hl) as (st3 & Hx & Hl').
    exists st3. split; [done|]. by eapply explained_snoc.
Qed.

Lemma explained_store m h m' :
  explained kv_spec m ((λ f, (f_op f, f_res f)) <$> h) m' -> store_legal m (kv_operation <$> h).
Proof.
  revert m. induction h as [|f h IH]; intros m He; [constructor|].
  apply explained_cons in He as (m1 & Hf & He). by eapply store_legal_cons; [..|apply IH].
Qed.

Lemma linearizes_store h :
  linearizes kv_spec ∅ h -> store_linearizable (kv_operation <$> h).
Proof.
  intros (τ & m' & Hp & He & Hord). exists (kv_operation <$> τ). split_and!.
  - by rewrite Hp.
  - by eapply explained_store.
  - by apply ForallOrdPairs_fmap.
Qed.
