(* ===== verification/KvLive.v ===== *)
(** * Progress of the clerks of the repository

    When all servers can be reached and answer, one controller answers as a leader, and one server
    of the group of the key gives good answers, an operation of a clerk can be finished whatever
    the other servers answer.  This is an instance of [Serving]: the number of calls that are
    left is bounded by the distance to that server. *)
From S2P Require Import Prelude Labrpc LabrpcProof Store ShardkvConfig Clerks ClerkTheorems.
From S2P Require Import Programs ProgramSpec System SystemProof SystemLin SystemRuns SystemLive KvSystem.
From Stdlib Require Import Strings.Byte.
Import Labrpc Clerks.

Section KvLive.
Context {App HArg HRep ArgType : Type}.
Context (decode : ArgType -> list byte -> HArg) (encode : HRep -> list byte).
Context (marsh : CtrlArgs + KvArgs -> ArgType * list byte) (unm : string -> list byte -> kv_reply).
Context (ends : nat -> list string) (ctrlers : list nat) (k : nat).

(** What the servers have registered and where they are; the servers of groups that the clerk
    may call; the current configuration, the controller that is the leader, and for every
    operation a server of the group that serves it. *)
Context (good : nat -> gmap string (@Service App HArg HRep) -> Prop) (place : kv_server nat -> nat).
Context (members : list string) (current : ShardConfig) (leader : nat) (chief : kv_op -> string).

Definition known_server (s : kv_server nat) : Prop :=
  match s with Ctrler j => j ∈ ctrlers | Member sn => sn ∈ members end.

(** The clerk calls known servers when it uses the configuration. *)
Definition known_config (c : ShardConfig) : Prop :=
  forall key srvs, assigned c key srvs -> srvs ⊆ members.

(** A controller that accepts a query has the current configuration, and the leader accepts; no
    server of the current group of the key says that it is the wrong group, and the chief gives a
    good answer.  All else is free. *)
Definition fine_answer (s : kv_server nat) (op : kv_op) (o : option kv_reply) : Prop :=
  match s with
  | Ctrler j => (forall c, new_config o c -> c = current) ∧ (j = leader -> new_config o current)
  | Member sn => forall srvs, assigned current (op_key op) srvs -> sn ∈ srvs ->
      (forall r, o = Some r -> ¬ kv_wrong_group op r) ∧
      (sn = chief op -> ∃ r v, o = Some r ∧ kv_answered op r v)
  end.

Record answering : Prop := {
  an_leader : leader ∈ ctrlers;
  an_chief op : ∃ srvs, assigned current (op_key op) srvs ∧ chief op ∈ srvs;
  an_known : known_config current;
  an_serve s op rs (e : string) ap : known_server s -> good (place s) (services rs) ->
    ∃ rs' ap' r, server_dispatch decode encode rs
        (request_of marsh e (kv_wire op s).1 (kv_wire op s).2) ap = (rs', Replied (ap', r)) ∧
      fine_answer s op (outcome unm (kv_wire op s).1 r)
}.

(** The network is reliable, and connects the client to the controllers; the servers of groups are
    there, so that new ends reach them. *)
Record reaches (rn : Shardkv.network) : Prop := {
  y_reliable : reliable rn = true;
  y_done : done rn = false;
  y_member sn : sn ∈ members -> server_at rn sn = Some (place (Member sn));
  y_ctrl j : j ∈ ctrlers -> ∃ e sn, ends k !! j = Some e ∧ e ∈ Labrpc.ends rn ∧ is_enabled rn e = true ∧
    mjoin (connections rn !! e) = Some sn ∧ server_at rn sn = Some (place (Ctrler j))
}.

(** *** The distance to the end of an operation *)

Definition group (op : kv_op) : list string := group_of (kv_key op) current.

(** The chief is ahead among servers of the current group. *)
Definition near (op : kv_op) (todo : list string) : Prop := chief op ∈ todo ∧ todo ⊆ group op.

#[export] Instance near_dec op todo : Decision (near op todo).
Proof. unfold near. apply _. Defined.

Definition calls_left (ps : @kv_state nat) : nat :=
  match ps with
  | KDone _ _ => 0
  | KTry op _ todo =>
      if decide (near op todo) then S (length todo)
      else length (group op) + 2 * length ctrlers + 5 + length todo
  | KAsk op todo =>
      if decide (leader ∈ todo) then length (group op) + 2 + length todo
      else length (group op) + length ctrlers + 3 + length todo
  end.

Definition known_state (ps : @kv_state nat) : Prop :=
  match ps with
  | KTry _ _ todo => todo ⊆ members
  | KAsk _ todo => todo ⊆ ctrlers
  | KDone _ _ => True
  end.

Lemma reaches_same rn rn' : same_tables rn rn' -> reaches rn -> reaches rn'.
Proof.
  intros [T1 T2 T3 T4 T5 T6] [Y1 Y2 Y3 Y4].
  split; unfold is_enabled, server_at in *; by rewrite ?T1, ?T2, ?T3, ?T4, ?T5, ?T6.
Qed.

(** [make_end] to a server that is there. *)
Lemma dial_member sn rn :
  reaches rn -> sn ∈ members ->
  ∃ e rn', kv_dial ends k (Member sn) e rn = Some rn' ∧ done rn' = done rn ∧
    healthy rn' e sn (place (Member sn)) ∧ reaches rn'.
Proof.
  intros [Y1 Y2 Y3 Y4] Hsn. set (e := fresh (Labrpc.ends rn)).
  assert (He : e ∉ Labrpc.ends rn) by apply is_fresh.
  exists e. simpl. unfold Shardkv.open_end, MakeEnd. rewrite decide_False by done. simpl.
  eexists. split_and!; [done..| |]; split; unfold is_enabled; simpl; try done;
    rewrite ?lookup_insert_eq; try done; [by apply Y3|].
  intros j Hj. destruct (Y4 j Hj) as (e' & sn' & E1 & E2 & E3 & E4 & E5).
  assert (e ≠ e') by congruence. exists e', sn'. unfold is_enabled.
  rewrite !lookup_insert_ne by done. split_and!; [done|set_solver|done..].
Qed.

Section Serving.
Context (Han : answering).

Lemma current_assigned op : assigned current (op_key op) (group op) ∧ chief op ∈ group op.
Proof.
  destruct (an_chief Han op) as (srvs & Ha & Hin). unfold group.
  replace (kv_key op) with (op_key op) by by destruct op.
  by rewrite (assigned_group _ _ _ Ha).
Qed.

Lemma current_near op : near op (group op).
Proof. split; [apply current_assigned|done]. Qed.

Lemma current_members op : group op ⊆ members.
Proof. eapply (an_known Han), current_assigned. Qed.

(** A new round with the current configuration. *)
Lemma new_round op :
  known_state (KTry op current (group op)) ∧ calls_left (KTry op current (group op)) = S (length (group op)).
Proof.
  split; [apply current_members|]. simpl. by rewrite decide_True by apply current_near.
Qed.

Lemma ask_left op todo :
  calls_left (KAsk op todo) ≤ length (group op) + length ctrlers + 3 + length todo.
Proof. simpl. case_decide; lia. Qed.

Lemma ask_all op : calls_left (KAsk op ctrlers) = length (group op) + 2 + length ctrlers.
Proof. simpl. by rewrite decide_True by apply (an_leader Han). Qed.

Lemma try_closer op c sn todo o :
  sn :: todo ⊆ members -> fine_answer (Member sn) op o ->
  known_state (kv_resume ctrlers (KTry op c (sn :: todo)) o) ∧
  calls_left (kv_resume ctrlers (KTry op c (sn :: todo)) o) < calls_left (KTry op c (sn :: todo)).
Proof.
  intros Hsub Hf. destruct (current_assigned op) as [Ha _]. specialize (Hf _ Ha).
  assert (Hask : ¬ near op (sn :: todo) ->
    calls_left (KAsk op ctrlers) < calls_left (KTry op c (sn :: todo))).
  { intros Hn. rewrite ask_all. simpl. rewrite decide_False by done. simpl. lia. }
  assert (Hskip : (forall r v, o = Some r -> ¬ kv_answered op r v) ->
    todo ⊆ members ∧ calls_left (KTry op c todo) < calls_left (KTry op c (sn :: todo))).
  { intros Hno. split; [set_solver|]. simpl. destruct (decide (near op (sn :: todo))) as [[Hc Hg]|Hn].
    - assert (Hne : sn ≠ chief op).
      { intros ->. destruct (Hf ltac:(set_solver)) as [_ Hch]. destruct (Hch eq_refl) as (r & v & -> & Hv).
        by destruct (Hno r v). }
      rewrite decide_True by (split; set_solver). simpl. lia.
    - case_decide; simpl; lia. }
  cbn [kv_resume]. destruct o as [r|]; cbn [mbind option_bind]; [|by apply Hskip].
  pose proof (kv_answer_spec op r) as Hr. destruct (kv_answer op r) as [[e v]|].
  - destruct (kv_accepts op e); [|case_decide as He].
    + split; [done|]. simpl. case_decide; lia.
    + split; [simpl; set_solver|]. apply Hask. intros [Hc Hg]. destruct (Hf ltac:(set_solver)) as [Hw _].
      apply (Hw r eq_refl). by apply Hr.
    + apply Hskip. intros r' v' [= <-]. apply Hr.
  - apply Hskip. intros r' v' [= <-]. apply Hr.
Qed.

Lemma ask_closer op j todo o :
  j :: todo ⊆ ctrlers -> fine_answer (Ctrler j) op o ->
  known_state (kv_resume ctrlers (KAsk op (j :: todo)) o) ∧
  calls_left (kv_resume ctrlers (KAsk op (j :: todo)) o) < calls_left (KAsk op (j :: todo)).
Proof.
  intros Hsub [Hcur Hlead]. cbn [kv_resume].
  destruct ((o ≫= to_config) ≫= accept_query) as [c|] eqn:Hq.
  - apply to_config_spec, Hcur in Hq as ->. destruct (new_round op) as [Hk Hl]. split; [done|].
    change (group_of (kv_key op) current) with (group op). rewrite Hl. simpl. case_decide; simpl; lia.
  - assert (Hne : j ≠ leader).
    { intros ->. specialize (Hlead eq_refl). apply to_config_spec in Hlead. by rewrite Hq in Hlead. }
    split; [simpl; set_solver|]. simpl. case_decide as H1; case_decide as H2; simpl; try lia; set_solver.
Qed.

Lemma kv_serving :
  Serving (P := kv_program ctrlers) decode encode marsh unm (kv_dial ends) good place known_config
    known_state reaches calls_left k.
Proof.
  split.
  - intros m op Hm. simpl. destruct (group_assigned m (kv_key op)) as [Ha|[_ ->]]; [|set_solver].
    by eapply Hm.
  - intros ps s meth a rn Hr Hst Hn.
    destruct ps as [op c [|sn todo]|op [|j todo]|]; simpl in Hn, Hst; simplify_eq.
    + destruct (dial_member sn rn Hr) as (e & rn' & Hd & Hdn & Hh & Hr'); [set_solver|].
      exists e, rn', sn. split_and!; [done..|]. intros rn'' Ht. by eapply reaches_same.
    + destruct (y_ctrl rn Hr j) as (e & sn & E1 & E2 & E3 & E4 & E5); [set_solver|].
      exists e, rn, sn. split_and!; [by simpl; unfold ctrl_dial; rewrite decide_True|done| |].
      * split; try done; apply Hr.
      * intros rn'' Ht. by eapply reaches_same.
  - intros ps s meth a rs e ap Hg Hst Hn.
    assert (Hw : ∃ op, (meth, a) = kv_wire op s ∧ known_server s ∧
      forall o, fine_answer s op o -> known_state (kv_resume ctrlers ps o) ∧
        calls_left (kv_resume ctrlers ps o) < calls_left ps).
    { destruct ps as [op c [|sn todo]|op [|j todo]|]; simpl in Hn, Hst; simplify_eq; exists op;
        (split; [by destruct op|]); (split; [simpl; set_solver|]); intros o Ho;
        [by apply try_closer|by apply ask_closer]. }
    destruct Hw as (op & Hw & Hk & Hcl). destruct (an_serve Han s op rs e ap Hk Hg) as (rs' & ap' & r & Hd & Hf).
    rewrite <- Hw in Hd, Hf. exists rs', ap', r. split; [exact Hd|]. by apply Hcl.
  - intros ps ps' Hst Hn. destruct ps as [op c [|sn todo]|op [|j todo]|]; simpl in Hn; simplify_eq.
    + split; [simpl; set_solver|]. rewrite ask_all. unfold calls_left.
      rewrite decide_False by (intros [Hc _]; by apply elem_of_nil in Hc). simpl. lia.
    + split; [simpl; set_solver|]. rewrite ask_all. unfold calls_left.
      rewrite decide_False by (intros Hc; by apply elem_of_nil in Hc). simpl. lia.
Qed.
End Serving.
End KvLive.
