(* ===== verification/SystemDemo.v ===== *)
(** * Executable runs of [System]

    A schedule is a list of moves; what it computes is a run.  With it, a small key/value service
    behind the clerks of [shardkv/client.go] is run as an example. *)
From S2P Require Import Prelude Labrpc LabrpcProof KvModel Store ShardkvConfig Clerks ClerkTheorems.
From S2P Require Import Programs ProgramSpec.
From S2P Require Import System SystemProof SystemLin SystemRuns SystemLive KvSystem KvLive.
From Stdlib Require Import Strings.Byte.
Import Labrpc.

#[local] Open Scope Z_scope.

(** ** Schedules *)
Section Schedule.
Context {Name : Type} `{Countable Name}.
Context {App HArg HRep ArgType : Type}.
Context (decode : ArgType -> list byte -> HArg) (encode : HRep -> list byte).
Context {Op Res Mem PS Srv Args Rep : Type} {P : Program Op Res Mem PS Srv Args Rep}.
Context (marshal : Args -> ArgType * list byte) (unmarshal : string -> list byte -> Rep).
Context (dial : nat -> Srv -> Name -> @Network Name _ _ -> option (@Network Name _ _)).

Abbreviation world := (@world Name _ _ App HArg HRep ArgType).
Abbreviation sys := (@sys Name _ _ App HArg HRep ArgType Op Res Mem PS Srv Rep).
Abbreviation act := (@act Name _ _ App HArg HRep ArgType decode encode).
Implicit Types (σ : sys) (w : world).

(** The next step of call [i]; [drop] loses its request or its reply. *)
Definition net_turn (i : nat) (drop : bool) (w : world) : option world :=
  c ← calls w !! i;
  match pc c with
  | Sending =>
      if listening w then Some (set_pc (set_net w (count_request (req c) (net w))) i c Accepted)
      else None
  | Accepted => Some (set_pc w i c (locate (net w) (endname (req c))))
  | Located t =>
      if drop then if t_reliable t then None else Some (set_pc w i c (Replying failed_reply))
      else Some (set_call w i (MkCall (req c) (Waiting t) (Started (t_server t))))
  | Waiting t =>
      match hc c with
      | Started s =>
          rs ← heap w !! s;
          match server_dispatch decode encode rs (req c) (app w) with
          | (rs', Replied (app', r)) =>
              Some (World (net w) (listening w) (<[s := rs']> (heap w)) app'
                (<[i := MkCall (req c) (pc c) (Ran r)]> (calls w)) (crashed w)
                (executed w ++ [(i, s, r)]))
          | _ => None
          end
      | Ran r => Some (set_call w i (MkCall (req c) (Got t r) Taken))
      | _ => None
      end
  | Got t r => Some (set_pc w i c (last_check (net w) (endname (req c)) t r))
  | Cleared t r =>
      if drop then if t_reliable t then None else Some (set_pc w i c (Replying failed_reply))
      else Some (set_pc (set_net w (add_bytes (length (reply r)) (net w))) i c (Replying r))
  | Replying r => Some (set_pc w i c (Returned r))
  | _ => None
  end.

Lemma net_turn_act i drop w w' : net_turn i drop w = Some w' -> act w w'.
Proof.
  unfold net_turn. intros Ht. apply bind_Some in Ht as (c & Hc & Ht).
  destruct (pc c) as [| |t|t|t r| |t r|r|r|r] eqn:Hp; try done.
  - destruct (listening w) eqn:Hl; simplify_eq. by apply L_accept.
  - simplify_eq. by apply P_locate.
  - destruct drop; [destruct (t_reliable t) eqn:Er|]; simplify_eq.
    + by eapply P_drop_request.
    + by apply P_execute.
  - destruct (hc c) as [|s|r|] eqn:Hh; try done.
    + apply bind_Some in Ht as (rs & Hrs & Ht).
      destruct (server_dispatch _ _ _ _ _) as [rs' [[app' r]| |]] eqn:Hd; simplify_eq.
      rewrite <- Hp. by eapply H_run.
    + simplify_eq. by apply P_receive.
  - simplify_eq. by apply P_check.
  - destruct drop; [destruct (t_reliable t) eqn:Er|]; simplify_eq.
    + by eapply P_drop_reply.
    + by eapply P_reply.
  - simplify_eq. by apply C_deliver.
Qed.

Lemma net_turn_calls i drop w w' :
  net_turn i drop w = Some w' -> length (calls w') = length (calls w).
Proof.
  unfold net_turn. intros Ht. apply bind_Some in Ht as (c & Hc & Ht).
  repeat (case_match || inv_bind); simplify_eq; simpl; by rewrite length_insert.
Qed.

Inductive move :=
| Net (i : nat) (drop : bool)
| Wait (t : Z)
| Begin (k : nat) (op : Op)
| Client (k : nat) (e : Name).            (* over the end [e], when it makes a call *)

Definition do_move (v : move) (σ : sys) : option sys :=
  match v with
  | Net i drop =>
      if crashed (wld σ) then None else
      w' ← net_turn i drop (wld σ);
      Some (Sys w' (clock σ) (clients σ) (log σ)
        (stamps σ ++ replicate (length (executed w') - length (executed (wld σ))) (clock σ)) (issued σ))
  | Wait t =>
      if decide (clock σ <= t) then Some (Sys (wld σ) t (clients σ) (log σ) (stamps σ) (issued σ)) else None
  | Begin k op =>
      match clients σ !! k with
      | Some (m, Idle) => Some (set_client σ k m (Running op (clock σ) (start m op) []))
      | _ => None
      end
  | Client k e =>
      match clients σ !! k with
      | Some (m, Running op b ps tr) =>
          match next ps with
          | ATurn ps' => Some (set_client σ k m (Running op b ps' tr))
          | AReturn res m' =>
              Some (Sys (wld σ) (clock σ) (<[k := (m', Idle)]> (clients σ))
                (log σ ++ [Finished k op res b (clock σ) tr]) (stamps σ) (issued σ))
          | ACall s meth a =>
              if crashed (wld σ) then None else
              rn ← dial k s e (net (wld σ));
              Some (Sys (new_call (wld σ) rn (request_of marshal e meth a)) (clock σ)
                (<[k := (m, Blocked op b ps tr (length (calls (wld σ))))]> (clients σ)) (log σ)
                (stamps σ) (issued σ ++ [Asked op b ps]))
          end
      | Some (m, Blocked op b ps tr i) =>
          match next ps, calls (wld σ) !! i with
          | ACall s meth a, Some c =>
              match pc c with
              | Returned r =>
                  let o := outcome unmarshal meth r in
                  Some (set_client σ k m (Running op b (resume ps o) (tr ++ [(i, (s, o))])))
              | _ => None
              end
          | _, _ => None
          end
      | _ => None
      end
  end.

Lemma do_move_step v σ σ' :
  do_move v σ = Some σ' -> sys_step decode encode marshal unmarshal dial σ σ'.
Proof.
  destruct v as [i drop|t|k op|k e]; simpl.
  - destruct (crashed (wld σ)) eqn:Hcr; [done|]. intros (w' & Hw & [= <-])%bind_Some.
    apply S_net; [split; [done|by eapply net_turn_act]|by eapply net_turn_calls].
  - case_decide; intros; simplify_eq. by apply S_time.
  - destruct (clients σ !! k) as [[m []]|] eqn:Hk; intros; simplify_eq. by apply S_begin.
  - destruct (clients σ !! k) as [[m [|op b ps tr|op b ps tr i]]|] eqn:Hk; try done.
    + destruct (next ps) as [s meth a|res m'|ps'] eqn:Hn.
      * destruct (crashed (wld σ)) eqn:Hcr; [done|]. intros (rn & Hd & [= <-])%bind_Some.
        by eapply S_call.
      * intros; simplify_eq. by eapply S_return.
      * intros; simplify_eq. by eapply S_turn.
    + destruct (next ps) as [s meth a| |] eqn:Hn; try done.
      destruct (calls (wld σ) !! i) as [c|] eqn:Hc; [|done].
      destruct (pc c) eqn:Hp; try done. intros [= <-]. by eapply S_reply.
Qed.

(** A schedule stops when a state fails the check. *)
Fixpoint play (check : sys -> bool) (vs : list move) (σ : sys) : option sys :=
  match vs with
  | [] => Some σ
  | v :: vs' => if check σ then σ' ← do_move v σ; play check vs' σ' else None
  end.

Lemma play_runs (I Q : sys -> Prop) check vs σ σ' :
  (forall σ, I σ -> check σ = true -> Q σ) -> (forall v σ σ', I σ -> do_move v σ = Some σ' -> I σ') ->
  I σ -> play check vs σ = Some σ' -> runs decode encode marshal unmarshal dial Q σ σ'.
Proof.
  intros HQ HI. revert σ. induction vs as [|v vs IH]; intros σ Hi Hp; simpl in Hp.
  { simplify_eq. apply rtc_refl. }
  destruct (check σ) eqn:Hc; [|done]. apply bind_Some in Hp as (σ1 & Hv & Hp).
  eapply rtc_l; [split; [by apply HQ|by eapply do_move_step]|]. apply IH; [by eapply HI|done].
Qed.

(** Moves do not change the services of a server. *)
Lemma net_turn_good (good : gmap string (@Service App HArg HRep) -> Prop) i drop w w' :
  (forall s rs, heap w !! s = Some rs -> good (services rs)) -> net_turn i drop w = Some w' ->
  forall s rs, heap w' !! s = Some rs -> good (services rs).
Proof.
  intros Hg. unfold net_turn. intros Ht. apply bind_Some in Ht as (c & Hc & Ht).
  destruct (pc c) as [| |t|t|t r| |t r|r|r|r] eqn:Hp; try done; try (by simplify_eq).
  - destruct (listening w); by simplify_eq.
  - destruct drop; [destruct (t_reliable t)|]; by simplify_eq.
  - destruct (hc c) as [|s|r|] eqn:Hh; try done; [|by simplify_eq].
    apply bind_Some in Ht as (rs & Hrs & Ht).
    destruct (server_dispatch _ _ _ _ _) as [rs' [[app' r]| |]] eqn:Hd; simplify_eq. simpl.
    assert (Hs : services rs' = services rs) by (unfold server_dispatch in Hd; by simplify_eq).
    intros s' rs2 [[<- <-]|[_ Hs']]%lookup_insert_Some; [|by apply (Hg s')].
    pose proof (Hg s rs Hrs) as Hgood. by rewrite <- Hs in Hgood.
  - destruct drop; [destruct (t_reliable t)|]; by simplify_eq.
Qed.

Lemma do_move_good good v σ σ' : good_heap good σ -> do_move v σ = Some σ' -> good_heap good σ'.
Proof.
  intros Hg. destruct v as [i drop|t|k op|k e]; simpl.
  - destruct (crashed (wld σ)); [done|]. intros (w' & Hw & [= <-])%bind_Some.
    exact (net_turn_good good i drop _ _ Hg Hw).
  - case_decide; intros; by simplify_eq.
  - destruct (clients σ !! k) as [[m []]|]; intros; by simplify_eq.
  - destruct (clients σ !! k) as [[m [|op b ps tr|op b ps tr i]]|]; try done.
    + destruct (next ps); [|intros; by simplify_eq..].
      destruct (crashed (wld σ)); [done|]. by intros (rn & Hd & [= <-])%bind_Some.
    + destruct (next ps), (calls (wld σ) !! i) as [c|]; try done.
      destruct (pc c); try done. by intros [= <-].
Qed.
End Schedule.

(** ** A small service

    One server, called ["s"], is the only member of the group of all shards, and also the
    controller. *)
Module KvDemo.
Import Clerks.

Abbreviation arg := (CtrlArgs + KvArgs)%type.
Abbreviation state := (gmap string string).

Definition dec (a : arg) (_ : list byte) : arg := a.
Definition marsh (a : arg) : arg * list byte := (a, []).

Definition demo_config : ShardConfig := MkShardConfig 1 (replicate 10 1) {[1 := ["s"]]}.

Definition err_byte (e : Err) : byte :=
  match e with OK => x00 | ErrNoKey => x01 | _ => x02 end.
Definition byte_err (b : byte) : Err :=
  match b with x00 => OK | x01 => ErrNoKey | _ => ErrWrongLeader end.

Definition enc (r : kv_reply) : list byte :=
  match r with
  | RepGet r => err_byte (GErr r) :: String.list_byte_of_string (GValue r)
  | RepPut r => [err_byte (PErr r)]
  | RepConfig _ => []
  end.

Definition unm (meth : string) (b : list byte) : kv_reply :=
  let e := byte_err (hd x02 b) in
  if decide (meth = "ShardKV.Get") then RepGet (MkGetReply e (String.string_of_list_byte (tail b)))
  else if decide (meth = "ShardKV.PutAppend") then RepPut (MkPutAppendReply e)
  else RepConfig (MkQueryReply false "" demo_config).

Definition get (m : state) (a : arg) : state * kv_reply :=
  (m, match a with
      | inr (GetArgs k) =>
          RepGet (match m !! k with Some v => MkGetReply OK v | None => MkGetReply ErrNoKey "" end)
      | _ => RepGet (MkGetReply ErrWrongLeader "")
      end).

Definition put (m : state) (a : arg) : state * kv_reply :=
  match a with
  | inr (PutAppendArgs k v op) =>
      (<[k := if decide (op = "Put") then v else default "" (m !! k) +:+ v]> m,
       RepPut (MkPutAppendReply OK))
  | _ => (m, RepPut (MkPutAppendReply ErrWrongLeader))
  end.

Definition query (m : state) (_ : arg) : state * kv_reply :=
  (m, RepConfig (MkQueryReply false "" demo_config)).

Definition svcs : list (@Service state arg kv_reply) :=
  [MakeService "ShardKV" [Method "Get" "" 3 true 0 get; Method "PutAppend" "" 3 true 0 put];
   MakeService "ShardCtrler" [Method "Query" "" 3 true 0 query]].

Definition srv : @Server state arg kv_reply := foldl AddService MakeServer svcs.
Definition good (s : gmap string (@Service state arg kv_reply)) : Prop := s = services srv.

(** Every client has the end ["c"] to the controller. *)
Definition ctrl_ends (_ : nat) : list string := ["c"].

#[export] Instance prog : Program kv_op string ShardConfig (@kv_state nat) (kv_server nat) arg kv_reply :=
  kv_program [0%nat].
#[export] Instance prog_laws : ProgramLaws prog := kv_laws [0%nat].

Abbreviation dsys := (@sys string _ _ state arg kv_reply arg kv_op string ShardConfig (@kv_state nat)
  (kv_server nat) kv_reply).
Abbreviation dworld := (@world string _ _ state arg kv_reply arg).
Abbreviation dmove := (@move string kv_op).

(** The handler of a method. *)
Definition routed (meth : string) (f : state -> arg -> state * kv_reply) : Prop :=
  ∃ svc m, split_method meth = Some (svc, m) ∧ (services srv !! svc ≫= λ s, methods s !! m) = Some f.

Lemma get_routed : routed "ShardKV.Get" get.
Proof. exists "ShardKV", "Get". split; vm_compute; reflexivity. Qed.
Lemma put_routed : routed "ShardKV.PutAppend" put.
Proof. exists "ShardKV", "PutAppend". split; vm_compute; reflexivity. Qed.
Lemma query_routed : routed "ShardCtrler.Query" query.
Proof. exists "ShardCtrler", "Query". split; vm_compute; reflexivity. Qed.

(** *** The service meets the specification *)

Lemma dispatch_demo rs (e : string) meth f a ap rs' ap' r :
  good (services rs) -> routed meth f ->
  server_dispatch dec enc rs (request_of marsh e meth a) ap = (rs', Replied (ap', r)) ->
  (f ap a).1 = ap' ∧ r = ReplyMsg true (enc (f ap a).2).
Proof.
  unfold server_dispatch, good, routed. simpl. intros -> (svc & m & -> & Hf) Hd.
  apply bind_Some in Hf as (s & Hs & Hm). rewrite Hs in Hd. unfold service_dispatch in Hd.
  rewrite Hm in Hd. simpl in Hd. unfold dec in Hd.
  destruct (f ap a) as [ap1 r1]. by simplify_eq.
Qed.

Lemma put_dispatch rs (e : string) k v op ap rs' ap' r :
  good (services rs) ->
  server_dispatch dec enc rs (request_of marsh e "ShardKV.PutAppend" (inr (PutAppendArgs k v op))) ap =
    (rs', Replied (ap', r)) ->
  ap' = <[k := if decide (op = "Put") then v else default "" (ap !! k) +:+ v]> ap ∧
  outcome unm "ShardKV.PutAppend" r = Some (RepPut (MkPutAppendReply OK)).
Proof.
  intros Hg Hd. eapply (dispatch_demo _ _ _ put) in Hd as [<- ->]; [by split|done|apply put_routed].
Qed.

Lemma get_dispatch rs (e : string) k ap rs' ap' r :
  good (services rs) ->
  server_dispatch dec enc rs (request_of marsh e "ShardKV.Get" (inr (GetArgs k))) ap =
    (rs', Replied (ap', r)) ->
  ap' = ap ∧ ∃ err, (err = OK ∨ err = ErrNoKey) ∧
    outcome unm "ShardKV.Get" r = Some (RepGet (MkGetReply err (default "" (ap !! k)))).
Proof.
  intros Hg Hd. eapply (dispatch_demo _ _ _ get) in Hd as [<- ->]; [|done|apply get_routed].
  split; [done|]. unfold outcome, unm. simpl. destruct (ap !! k) as [v|]; simpl.
  - exists OK. split; [by left|]. by rewrite String.string_of_list_byte_of_string.
  - exists ErrNoKey. split; [by right|done].
Qed.

Lemma query_dispatch rs (e : string) a ap rs' ap' r :
  good (services rs) ->
  server_dispatch dec enc rs (request_of marsh e "ShardCtrler.Query" a) ap = (rs', Replied (ap', r)) ->
  ap' = ap.
Proof.
  intros Hg Hd. eapply (dispatch_demo _ _ _ query) in Hd as [<- ->]; [done|done|apply query_routed].
Qed.

Lemma kv_op_kept config op tr ps :
  follows (start config op) tr ps ->
  match ps with KTry op' _ _ | KAsk op' _ => op' = op | KDone _ _ => True end.
Proof.
  intros Hf. remember (start config op) as ps0 eqn:E.
  induction Hf as [ps|ps tr ps1 ps2 _ IH Hn|ps tr ps1 s meth a o _ IH Hn]; subst; [done|..];
    specialize (IH eq_refl); destruct ps1 as [op' c [|sn todo]|op' [|j todo]|]; simplify_eq/=; try done.
  - destruct (o ≫= _) as [[er v]|]; [|done]. destruct (kv_accepts _ er); [done|]. by case_decide.
  - by destruct ((o ≫= to_config) ≫= accept_query).
Qed.

#[export] Instance demo_implements : Implements (Name := string) dec enc marsh unm good (id : state -> state) kv_spec.
Proof.
  intros rs e m op tr ps s meth a ap rs' ap' r Hg Hf Hn Hd. apply kv_op_kept in Hf.
  destruct ps as [op' c [|sn todo]|op' [|j todo]|]; simpl in Hn; simplify_eq.
  - destruct op as [k|k v|k v]; cbn [kv_method kv_args] in *.
    + destruct (get_dispatch _ _ _ _ _ _ _ Hg Hd) as (-> & err & Herr & ->). simpl.
      assert (get_accepts err = true) as -> by (by destruct Herr as [->| ->]). simpl.
      by apply store_get.
    + destruct (put_dispatch _ _ _ _ _ _ _ _ _ Hg Hd) as (-> & ->). simpl. by apply store_put.
    + destruct (put_dispatch _ _ _ _ _ _ _ _ _ Hg Hd) as (-> & ->). simpl. by apply store_append.
  - apply query_dispatch in Hd as ->; [|done]. simpl.
    destruct ((outcome unm _ r ≫= to_config) ≫= accept_query); simpl; [|by destruct todo].
    by destruct (group_of _ _).
Qed.

(** *** The network of the service *)

Definition net0 (reliable : bool) : Shardkv.network :=
  MkNetwork reliable false false {["c"]} {["c" := true]} {["s" := Some 0%nat]} {["c" := Some "s"]}
    false 0 0.

Definition w0 (reliable : bool) : dworld := World (net0 reliable) true {[0%nat := srv]} ∅ [] false [].

Lemma w0_fresh reliable : fresh_world dec enc (w0 reliable).
Proof.
  split; [|done]. exists ∅.
  eapply rtc_l; [split; [done|by apply (A_server dec enc _ 0 svcs)]|].
  eapply rtc_l; [split; [done|apply (A_admin dec enc _ (DoAddServer "s" 0)); [by eexists|done]]|].
  eapply rtc_l; [split; [done|by apply (A_admin dec enc _ (DoMakeEnd "c"))]|].
  eapply rtc_l; [split; [done|by apply (A_admin dec enc _ (DoConnect "c" "s"))]|].
  eapply rtc_l; [split; [done|by apply (A_admin dec enc _ (DoEnable "c" true))]|].
  eapply rtc_once. split; [done|].
  exact (A_admin dec enc (World (net0 true) true {[0%nat := srv]} ∅ [] false []) (DoReliable reliable)
    (net0 reliable) I eq_refl).
Qed.

Lemma w0_good reliable ms : good_heap good (init (w0 reliable) ms : dsys).
Proof. intros s rs. simpl. intros [<- <-]%lookup_singleton_Some. done. Qed.

(** *** The service answers *)

Lemma demo_answers rs (e : string) meth f a ap :
  good (services rs) -> routed meth f ->
  ∃ rs', server_dispatch dec enc rs (request_of marsh e meth a) ap =
    (rs', Replied ((f ap a).1, ReplyMsg true (enc (f ap a).2))).
Proof.
  unfold server_dispatch, good, routed. simpl. intros -> (svc & m & -> & Hf).
  apply bind_Some in Hf as (s & Hs & Hm). rewrite Hs. unfold service_dispatch. rewrite Hm. simpl.
  unfold dec. destruct (f ap a) as [ap1 r1]. by eexists.
Qed.

Lemma group_of_demo key : group_of key demo_config = ["s"].
Proof.
  unfold group_of. pose proof (key2shard_lt key) as Hk. unfold NShards in Hk.
  change (Shards demo_config) with (replicate 10 1). rewrite (lookup_replicate_2 10 1) by done.
  reflexivity.
Qed.

Lemma demo_known : known_config ["s"] demo_config.
Proof. intros key srvs <-%assigned_group. by rewrite group_of_demo. Qed.

Lemma demo_answering :
  answering dec enc marsh unm [0%nat] (λ _, good) (λ _, 0%nat) ["s"] demo_config 0%nat (λ _, "s").
Proof.
  split.
  - left.
  - intros op. exists ["s"]. split; [|left]. rewrite <- (group_of_demo (op_key op)).
    destruct (group_assigned demo_config (op_key op)) as [?|[_ Hg]]; [done|]. by rewrite group_of_demo in Hg.
  - apply demo_known.
  - intros [j|sn] op rs e ap _ Hg.
    + destruct (demo_answers rs e "ShardCtrler.Query" query (inl (QueryArgs (-1))) ap Hg query_routed) as [rs' Hd].
      eexists _, _, _. split; [exact Hd|]. split; [by intros c (r & [= <-] & _ & ->)|by eexists].
    + destruct op as [k|k v|k v].
      * destruct (demo_answers rs e "ShardKV.Get" get (inr (GetArgs k)) ap Hg get_routed) as [rs' Hd].
        eexists _, _, _. split; [exact Hd|].
        destruct (get_dispatch _ _ _ _ _ _ _ Hg Hd) as (_ & err & Herr & Ho). cbn [fst kv_wire]. rewrite Ho.
        intros srvs _ _. split; [by intros r [= <-] Hw; inversion Hw; subst; destruct Herr|].
        intros _. eexists _, _. split; [done|]. destruct Herr as [-> | ->]; constructor.
      * destruct (demo_answers rs e "ShardKV.PutAppend" put (inr (PutAppendArgs k v "Put")) ap Hg put_routed) as [rs' Hd].
        eexists _, _, _. split; [exact Hd|]. destruct (put_dispatch _ _ _ _ _ _ _ _ _ Hg Hd) as (_ & Ho).
        cbn [fst kv_wire]. rewrite Ho. intros srvs _ _.
        split; [intros r [= <-] Hw; inversion Hw|]. intros _. eexists _, _. split; [done|constructor].
      * destruct (demo_answers rs e "ShardKV.PutAppend" put (inr (PutAppendArgs k v "Append")) ap Hg put_routed) as [rs' Hd].
        eexists _, _, _. split; [exact Hd|]. destruct (put_dispatch _ _ _ _ _ _ _ _ _ Hg Hd) as (_ & Ho).
        cbn [fst kv_wire]. rewrite Ho. intros srvs _ _.
        split; [intros r [= <-] Hw; inversion Hw|]. intros _. eexists _, _. split; [done|constructor].
Qed.

Lemma demo_reaches k : reaches ctrl_ends [0%nat] k (λ _, 0%nat) ["s"] (net0 true).
Proof.
  split; [done..| |].
  - intros sn ->%list_elem_of_singleton. done.
  - intros j ->%list_elem_of_singleton. exists "c", "s". split_and!; done.
Qed.

(** *** Runs *)

(** Every call on the way is over an end that is connected to ["s"]. *)
Definition healthyb (rn : Shardkv.network) (e : string) : bool :=
  reliable rn && is_enabled rn e && bool_decide (mjoin (connections rn !! e) = Some "s") &&
  bool_decide (server_at rn "s" = Some 0%nat) && negb (done rn).

Definition safe (σ : dsys) : bool :=
  forallb (λ c, match pc c with Returned _ => true | _ => healthyb (net (wld σ)) (endname (req c)) end)
    (calls (wld σ)).

Definition home (_ : string) : string * nat := ("s", 0%nat).

Lemma safe_healthy σ : safe σ = true -> all_healthy home σ.
Proof.
  unfold safe. rewrite forallb_forall. intros Hs i c Hc Hp.
  specialize (Hs c). assert (Hin : In c (calls (wld σ))).
  { apply list_elem_of_In. by eapply list_elem_of_lookup_2. }
  specialize (Hs Hin). simpl. destruct (pc c); try (by destruct (Hp _ eq_refl));
    unfold healthyb in Hs; rewrite !andb_true_iff, negb_true_iff, !bool_decide_eq_true in Hs;
    destruct_and?; by split.
Qed.

Definition demo_play (check : dsys -> bool) : list dmove -> dsys -> option dsys :=
  play dec enc marsh unm (kv_dial ctrl_ends) check.

Lemma demo_play_runs check Q vs reliable ms σ :
  (forall σ, good_heap good σ -> check σ = true -> Q σ) ->
  demo_play check vs (init (w0 reliable) ms) = Some σ ->
  runs dec enc marsh unm (kv_dial ctrl_ends) Q (init (w0 reliable) ms) σ.
Proof.
  intros HQ. eapply play_runs with (I := good_heap good); [exact HQ| |apply w0_good].
  intros v σ1 σ2 Hg. by apply do_move_good.
Qed.

(** Two clients on a reliable network: a [Get] overlaps a [Put] and takes effect before it. *)
Definition healthy_moves : list dmove :=
  [Wait 1; Begin 0 (OpPut "k" "v"); Client 0 "e0"; Wait 2; Begin 1 (OpGet "k"); Client 1 "e1"] ++
  replicate 5 (Net 1 false) ++ [Wait 3] ++ replicate 8 (Net 0 false) ++ [Client 0 ""; Client 0 ""] ++
  replicate 3 (Net 1 false) ++
  [Wait 4; Client 1 ""; Client 1 ""; Wait 5; Begin 1 (OpGet "k"); Client 1 "e2"] ++
  replicate 8 (Net 2 false) ++ [Wait 6; Client 1 ""; Client 1 ""].

(** The reply to an [Append] is lost, and the clerk asks the controller and tries again. *)
Definition lossy_moves : list dmove :=
  [Wait 1; Begin 0 (OpAppend "k" "x"); Client 0 "e0"] ++ replicate 6 (Net 0 false) ++
  [Net 0 true; Net 0 false; Client 0 ""; Client 0 ""; Client 0 "c"] ++ replicate 8 (Net 1 false) ++
  [Client 0 ""; Client 0 "e1"] ++ replicate 8 (Net 2 false) ++
  [Wait 2; Client 0 ""; Client 0 ""; Wait 3; Begin 0 (OpGet "k"); Client 0 "e2"] ++
  replicate 8 (Net 3 false) ++ [Wait 4; Client 0 ""; Client 0 ""].

(** A request is lost, and the clerk tries again. *)
Definition retry_moves : list dmove :=
  [Wait 1; Begin 0 (OpPut "k" "v"); Client 0 "e0"; Net 0 false; Net 0 false; Net 0 true; Net 0 false;
   Client 0 ""; Client 0 ""; Client 0 "c"] ++ replicate 8 (Net 1 false) ++
  [Client 0 ""; Client 0 "e1"] ++ replicate 8 (Net 2 false) ++ [Wait 2; Client 0 ""; Client 0 ""].

Definition ops_of (σ : dsys) : list (Model.Operation any) := kv_operation <$> log σ.
Definition idle (σ : dsys) : bool := forallb (λ x, match x.2 with Idle => true | _ => false end) (clients σ).

Definition entry (k op : Z) (v : string) (res : string) (b e : Z) : Model.Operation any :=
  Model.MkOperation k (AKvInput (MkKvInput (Z.to_N op) "k" v)) b (AKvOutput (MkKvOutput res)) e.

Lemma idle_quiet σ : idle σ = true -> quiet σ.
Proof.
  unfold idle, quiet. rewrite forallb_forall. intros Hs. apply Forall_forall. intros [m a] Hin.
  specialize (Hs _ (proj1 (list_elem_of_In _ _) Hin)). by destruct a.
Qed.

Definition healthy_log : list (Model.Operation any) :=
  [entry 0 1 "v" "" 1 3; entry 1 0 "" "" 2 4; entry 1 0 "" "v" 5 6].
Definition lossy_log : list (Model.Operation any) := [entry 0 2 "x" "" 1 2; entry 0 0 "" "xx" 3 4].

Lemma healthy_value :
  (λ σ, (ops_of σ, idle σ)) <$>
    demo_play safe healthy_moves (init (w0 true) [demo_config; demo_config]) = Some (healthy_log, true).
Proof. vm_compute. reflexivity. Qed.

(** The two operations: the first call of the [Append] failed. *)
Definition lossy_append : @finished kv_op string (kv_server nat) kv_reply :=
  Finished 0 (OpAppend "k" "x") "" 1 2
    [(0%nat, (Member "s", None));
     (1%nat, (Ctrler 0%nat, Some (RepConfig (MkQueryReply false "" demo_config))));
     (2%nat, (Member "s", Some (RepPut (MkPutAppendReply OK))))].
Definition lossy_get : @finished kv_op string (kv_server nat) kv_reply :=
  Finished 0 (OpGet "k") "xx" 3 4 [(3%nat, (Member "s", Some (RepGet (MkGetReply OK "xx"))))].

(** The handler ran for that call too. *)
Definition lossy_executed : list (nat * nat * replyMsg) :=
  [(0%nat, 0%nat, ReplyMsg true [x00]); (1%nat, 0%nat, ReplyMsg true []);
   (2%nat, 0%nat, ReplyMsg true [x00]); (3%nat, 0%nat, ReplyMsg true [x00; x78; x78])].

Lemma lossy_value :
  (λ σ, (log σ, executed (wld σ), idle σ)) <$>
    demo_play (λ _, true) lossy_moves (init (w0 false) [demo_config]) =
  Some ([lossy_append; lossy_get], lossy_executed, true).
Proof. vm_compute. reflexivity. Qed.

#[local] Instance byte_eq_dec : EqDecision byte := Byte.byte_eq_dec.

(** What was executed is the answer of a call that returned. *)
Definition lossless_b (σ : dsys) : bool :=
  forallb (λ x, match calls (wld σ) !! x.1.1 with
    | Some c => match pc c with Returned r => bool_decide (ok r = ok x.2 ∧ reply r = reply x.2) | _ => false end
    | None => false
    end) (executed (wld σ)).

Lemma lossless_of σ : lossless_b σ = true -> lossless σ.
Proof.
  unfold lossless_b. rewrite forallb_forall. intros Hs i s r Hx.
  specialize (Hs _ (proj1 (list_elem_of_In _ _) Hx)). simpl in Hs.
  destruct (calls (wld σ) !! i) as [c|]; [|done]. destruct (pc c) eqn:Hp; try done.
  apply bool_decide_eq_true in Hs as [Ho Hr]. exists c. split; [done|]. rewrite Hp. f_equal.
  destruct r, r0. simpl in *. by subst.
Qed.

Lemma retry_value :
  (λ σ, (ops_of σ, idle σ, lossless_b σ)) <$>
    demo_play (λ _, true) retry_moves (init (w0 false) [demo_config]) =
  Some ([entry 0 1 "v" "" 1 2], true, true).
Proof. vm_compute. reflexivity. Qed.

Lemma retry_run :
  ∃ σ, runs dec enc marsh unm (kv_dial ctrl_ends) (good_heap good) (init (w0 false) [demo_config]) σ ∧
    ops_of σ = [entry 0 1 "v" "" 1 2] ∧ quiet σ ∧ lossless σ.
Proof.
  pose proof retry_value as Hv. destruct (demo_play _ _ _) as [σ|] eqn:Hp; [|done].
  injection Hv as Hl Hi Hll. exists σ. split_and!; [|done|by apply idle_quiet|by apply lossless_of].
  by eapply (demo_play_runs (λ _, true)); [|exact Hp].
Qed.

Lemma healthy_run :
  ∃ σ, runs dec enc marsh unm (kv_dial ctrl_ends) (λ σ, good_heap good σ ∧ all_healthy home σ)
      (init (w0 true) [demo_config; demo_config]) σ ∧ ops_of σ = healthy_log ∧ quiet σ.
Proof.
  pose proof healthy_value as Hv. destruct (demo_play _ _ _) as [σ|] eqn:Hp; [|done].
  injection Hv as Hl Hi. exists σ. split_and!; [|done|by apply idle_quiet].
  eapply (demo_play_runs safe); [|exact Hp]. intros σ' Hg Hs. split; [done|by apply safe_healthy].
Qed.

Lemma lossy_run :
  ∃ σ, runs dec enc marsh unm (kv_dial ctrl_ends) (good_heap good) (init (w0 false) [demo_config]) σ ∧
    log σ = [lossy_append; lossy_get] ∧ executed (wld σ) = lossy_executed ∧ quiet σ.
Proof.
  pose proof lossy_value as Hv. destruct (demo_play _ _ _) as [σ|] eqn:Hp; [|done].
  injection Hv as Hl He Hi. exists σ. split_and!; [|done|done|by apply idle_quiet].
  by eapply (demo_play_runs (λ _, true)); [|exact Hp].
Qed.

End KvDemo.
