(* ===== verification/SystemTheorems.v ===== *)
(** * What the clients of a test can rely on

    The theorems about clerks that run over the network of [Labrpc]. *)
From S2P Require Import Prelude Bitset Model Entries LinkedList LinkedEntries.
From S2P Require Import Linearizability CheckSingle CheckSingleProof CheckSingleSpec.
From S2P Require Import HistorySpec EventSpec CheckParallel Check KvModel Porcupine.
From S2P Require Import Labrpc LabrpcProof Store ShardkvConfig Clerks ClerkTheorems Programs.
From S2P Require Import ProgramSpec System SystemProof SystemLin SystemRuns SystemLive KvSystem KvLive.
From S2P Require Import SystemDemo.
From Stdlib Require Import Strings.Byte.
Import Labrpc.

#[local] Open Scope Z_scope.

Section Any.
Context {Name : Type} `{Countable Name}.
Context {App HArg HRep ArgType : Type}.
Context (decode : ArgType -> list byte -> HArg) (encode : HRep -> list byte).
Context {Op Res Mem PS Srv Args Rep : Type} {P : Program Op Res Mem PS Srv Args Rep}.
Context {L : ProgramLaws P}.
Context (marshal : Args -> ArgType * list byte) (unmarshal : string -> list byte -> Rep).
Context (dial : nat -> Srv -> Name -> @Network Name _ _ -> option (@Network Name _ _)).
Context (dial_ok : forall k s e rn rn', dial k s e rn = Some rn' ->
  servers rn' = servers rn ∧ done rn' = done rn).

Abbreviation world := (@world Name _ _ App HArg HRep ArgType).
Abbreviation sys := (@sys Name _ _ App HArg HRep ArgType Op Res Mem PS Srv Rep).
Abbreviation runs := (runs decode encode marshal unmarshal dial).
Implicit Types (σ : sys) (w : world).

(** The dispatches of the calls of an operation. *)
Definition dispatches_of σ (f : @finished Op Res Srv Rep) : list (nat * nat * replyMsg) :=
  filter (λ x, x.1.1 ∈ (f_trace f).*1) (executed (wld σ)).

Lemma dispatches_bound σ f :
  sys_ok marshal unmarshal σ -> (length (dispatches_of σ f) <= length (f_trace f))%nat.
Proof.
  intros Ho. pose proof (w_once _ (o_net _ _ _ Ho)) as Hn. unfold dispatches_of.
  rewrite <- (length_fmap fst (f_trace f)).
  rewrite <- (length_fmap (λ x, x.1.1) (filter _ _)). apply submseteq_length, NoDup_submseteq.
  - rewrite <- list_fmap_compose in Hn. eapply sublist_NoDup; [exact Hn|].
    apply fmap_sublist, sublist_filter.
  - intros i (x & -> & [Hx _]%list_elem_of_filter)%list_elem_of_fmap. done.
Qed.

(** C7: on any network, an operation of a clerk returns with the reply of its last call; the
    handler of this call ran exactly once, between the times at which the operation began and
    ended; no call belongs to two operations, and the handlers ran for an operation at most as
    often as it made calls. *)
Theorem operation_effects Q w ms σ f :
  fresh_world decode encode w -> runs Q (init w ms) σ -> f ∈ log σ ->
  NoDup (call_ids σ) ∧ (length (dispatches_of σ f) <= length (f_trace f))%nat ∧
  ∃ tr i s rep x s' r t ps meth a m',
    f_trace f = tr ++ [(i, (s, Some rep))] ∧
    executed (wld σ) !! x = Some (i, s', r) ∧
    (forall y s2 r2, executed (wld σ) !! y = Some (i, s2, r2) -> y = x) ∧
    stamps σ !! x = Some t ∧ f_began f <= t <= f_ended f ∧
    next ps = ACall s meth a ∧ outcome unmarshal meth r = Some rep ∧
    next (resume ps (Some rep)) = AReturn (f_res f) m'.
Proof.
  intros Hw Hr Hf. assert (Ho : sys_ok marshal unmarshal σ) by by eapply runs_ok.
  split_and!; [by eapply ids_NoDup|by apply dispatches_bound|].
  destruct (finished_last _ _ σ f Ho Hf) as (i & s & rep & ps & m' & Hl & He & Hn).
  destruct (e_called _ _ _ _ _ _ _ _ _ He) as (meth & a & c & r & Hc & _ & _ & Hrep & Hx).
  destruct Hx as (x & s' & t & Hx & Ht & _).
  { unfold outcome in Hrep. by destruct (ok r). }
  destruct (finished_committed _ _ σ f Ho Hf) as [_ Hst].
  apply last_Some in Hl as [tr Htr].
  exists tr, i, s, rep, x, s', r, t, ps, meth, a, m'. split_and!; try done.
  - intros y s2 r2 Hy. by destruct (executed_once _ _ _ _ _ _ _ _ _ _ Ho Hy Hx) as [-> _].
  - apply Hst. exists x, s', r. split; [|done]. unfold last_call. by rewrite Htr, last_snoc.
  - apply Hst. exists x, s', r. split; [|done]. unfold last_call. by rewrite Htr, last_snoc.
Qed.

Section Servers.
Context {St : Type} (good : gmap string (@Service App HArg HRep) -> Prop).
Context (abs : App -> St) (spec : St -> Op -> Res -> St -> Prop).
Context (impl : Implements (Name := Name) decode encode marshal unmarshal good abs spec).

(** C6: if the servers implement a sequential specification and no reply of a handler was lost,
    the operations in the log of a quiet system are linearizable: some order of them is
    explained by the specification and respects real time.  Requests may get lost and clerks
    may retry. *)
Theorem lossless_linearizable Q w ms σ :
  (forall σ, Q σ -> good_heap good σ) -> fresh_world decode encode w -> runs Q (init w ms) σ ->
  quiet σ -> lossless σ -> linearizes spec (abs (app w)) (log σ).
Proof.
  intros HQ Hw Hr Hq Hl. assert (Ho : sys_ok marshal unmarshal σ) by by eapply runs_ok.
  eapply (explained_commits marshal unmarshal); [done..|]. by eapply runs_explained.
Qed.

(** The same when the network stays reliable and the ends with calls on the way stay
    connected to live servers; then no call of an operation fails. *)
Theorem reliable_linearizable home w ms σ :
  fresh_world decode encode w ->
  runs (λ σ, good_heap good σ ∧ all_healthy home σ) (init w ms) σ -> quiet σ ->
  linearizes spec (abs (app w)) (log σ) ∧
  forall f i s o, f ∈ log σ -> (i, (s, o)) ∈ f_trace f -> is_Some o.
Proof.
  intros Hw Hr Hq. assert (Ho : sys_ok marshal unmarshal σ) by by eapply runs_ok.
  destruct (served_lossless marshal unmarshal home σ Ho Hq) as [Hl Hall].
  { eapply (runs_served decode encode marshal unmarshal dial dial_ok); [|done|exact Hr]. by intros ? []. }
  split; [|done]. eapply (explained_commits marshal unmarshal); [done..|].
  eapply runs_explained; [done|exact impl| |done|exact Hr]. by intros ? [].
Qed.
End Servers.

(** The calls of an operation in the log: the request of each, and its outcome. *)
Lemma finished_calls σ f i s o :
  sys_ok marshal unmarshal σ -> f ∈ log σ -> (i, (s, o)) ∈ f_trace f ->
  ∃ m tr ps e meth a c r, follows (start m (f_op f)) tr ps ∧ next ps = ACall s meth a ∧
    calls (wld σ) !! i = Some c ∧ req c = request_of marshal e meth a ∧ pc c = Returned r ∧
    o = outcome unmarshal meth r.
Proof.
  intros Ho Hf Hin. destruct (log_entry _ _ σ f Ho Hf) as (m0 & m' & ps' & _ & Ht & _).
  destruct (thread_entry unmarshal _ _ _ _ _ _ _ _ _ _ Ht Hin) as (ps & [Hi Hc] & _).
  destruct Hc as (meth & a & c & r & Hn & Hc & Hp & Hr & _).
  destruct (Forall2_lookup_lr _ _ _ _ _ _ (o_asked _ _ _ Ho) Hc Hi)
    as ((e & s' & meth' & a' & Hn' & Hreq) & m & tr & Hfo). simpl in *.
  rewrite Hn in Hn'. simplify_eq. by exists m, tr, ps, e, meth', a', c, r.
Qed.
End Any.

(** ** The clerks of the repository *)

Import Clerks.

Section Repo.
Context {App HArg HRep ArgType : Type}.
Context (decode : ArgType -> list byte -> HArg) (encode : HRep -> list byte).
Abbreviation world := (@world string _ _ App HArg HRep ArgType).

(** Over the network, the clerks of [shardctrler/client.go] and [shardkv/client.go] do what
    the functions of [Clerks] do on a network that gives the outcomes of their calls: for every
    operation in the log, the function ends with its result and uses up the outcomes. *)
Theorem clerks_refine_functions (ends : nat -> list string) (servers ctrlers : list nat)
    (marsh : CtrlArgs -> ArgType * list byte) (unm : string -> list byte -> ctrl_reply)
    (marsh' : CtrlArgs + KvArgs -> ArgType * list byte) (unm' : string -> list byte -> kv_reply) w ms ms' :
  fresh_world decode encode w ->
  (forall (σ : @sys string _ _ App HArg HRep ArgType CtrlArgs ctrl_res unit (@ctrl_state nat) nat ctrl_reply) f,
    runs (P := ctrl_program servers) decode encode marsh unm (ctrl_dial ends) (λ _, True) (init w ms) σ ->
    f ∈ log σ -> ctrl_runs servers (f_op f) (f_trace f).*2.*2 (f_res f)) ∧
  (forall (σ : @sys string _ _ App HArg HRep ArgType kv_op string ShardConfig (@kv_state nat) (kv_server nat) kv_reply) f,
    runs (P := kv_program ctrlers) decode encode marsh' unm' (kv_dial ends) (λ _, True) (init w ms') σ ->
    f ∈ log σ -> ∃ config config', kv_runs ctrlers config (f_op f) (f_trace f).*2.*2 (f_res f) config').
Proof.
  intros Hw. split.
  - intros σ f Hr Hf. assert (Ho : sys_ok (P := ctrl_program servers) marsh unm σ).
    { eapply (runs_ok decode encode marsh unm (ctrl_dial ends)); [apply ctrl_dial_ok|done|exact Hr]. }
    destruct (log_entry _ _ σ f Ho Hf) as (m & m' & ps & _ & Ht & Hn).
    apply thread_follows in Ht. by eapply ctrl_program_runs.
  - intros σ f Hr Hf. assert (Ho : sys_ok (P := kv_program ctrlers) marsh' unm' σ).
    { eapply (runs_ok decode encode marsh' unm' (kv_dial ends)); [apply kv_dial_ok|done|exact Hr]. }
    destruct (log_entry _ _ σ f Ho Hf) as (m & m' & ps & _ & Ht & Hn).
    apply thread_follows in Ht. exists m, m'. by eapply kv_program_runs.
Qed.

(** C15: over the network, whatever it does, the clerks of [shardctrler/client.go] and
    [shardkv/client.go] work as intended: every call is the request of its operation; a shard
    controller's clerk calls the servers in turn until one answers without [WrongLeader], and
    returns its answer; a key/value clerk goes through the group of the key in its configuration
    until a server answers with [OK] (for [Get] also [ErrNoKey]), and leaves it upon
    [ErrWrongGroup]; after a round that failed it calls the controllers in turn until one gives
    a new configuration, which the next round uses; it returns the value of the last answer. *)
Theorem clerks_over_network (ends : nat -> list string) (servers ctrlers : list nat)
    (marsh : CtrlArgs -> ArgType * list byte) (unm : string -> list byte -> ctrl_reply)
    (marsh' : CtrlArgs + KvArgs -> ArgType * list byte) (unm' : string -> list byte -> kv_reply) w ms ms' :
  fresh_world decode encode w ->
  (forall (σ : @sys string _ _ App HArg HRep ArgType CtrlArgs ctrl_res unit (@ctrl_state nat) nat ctrl_reply) f,
    runs (P := ctrl_program servers) decode encode marsh unm (ctrl_dial ends) (λ _, True) (init w ms) σ ->
    f ∈ log σ -> ctrl_report servers (f_op f) (f_trace f).*2 (f_res f) ∧
    forall i s o, (i, (s, o)) ∈ f_trace f -> ∃ e c r, calls (wld σ) !! i = Some c ∧
      req c = ReqMsg e (ctrl_wire (f_op f)).1 (marsh (ctrl_wire (f_op f)).2).1 (marsh (ctrl_wire (f_op f)).2).2 ∧
      pc c = Returned r ∧ o = if ok r then Some (unm (ctrl_wire (f_op f)).1 (reply r)) else None) ∧
  (forall (σ : @sys string _ _ App HArg HRep ArgType kv_op string ShardConfig (@kv_state nat) (kv_server nat) kv_reply) f,
    runs (P := kv_program ctrlers) decode encode marsh' unm' (kv_dial ends) (λ _, True) (init w ms') σ ->
    f ∈ log σ -> (∃ config config', kv_report ctrlers (f_op f) config (f_trace f).*2 (f_res f) config') ∧
    forall i s o, (i, (s, o)) ∈ f_trace f -> ∃ e c r, calls (wld σ) !! i = Some c ∧
      req c = ReqMsg e (kv_wire (f_op f) s).1 (marsh' (kv_wire (f_op f) s).2).1 (marsh' (kv_wire (f_op f) s).2).2 ∧
      pc c = Returned r ∧ o = if ok r then Some (unm' (kv_wire (f_op f) s).1 (reply r)) else None).
Proof.
  intros Hw. split.
  - intros σ f Hr Hf. assert (Ho : sys_ok (P := ctrl_program servers) marsh unm σ).
    { eapply (runs_ok decode encode marsh unm (ctrl_dial ends)); [apply ctrl_dial_ok|done|exact Hr]. }
    split.
    + destruct (log_entry _ _ σ f Ho Hf) as (m & m' & ps & _ & Ht & Hn).
      apply thread_follows in Ht. apply (ctrl_follows servers (f_op f)) in Ht; [|done].
      destruct ps as [op' [|s todo]|res]; simpl in Hn; simplify_eq. exact Ht.
    + intros i s o Hin. destruct (finished_calls _ _ σ f i s o Ho Hf Hin)
        as (m & tr & ps & e & meth & a & c & r & Hfo & Hn & Hc & Hreq & Hp & ->).
      apply (ctrl_follows servers (f_op f)) in Hfo; [|done].
      assert (Hwire : (meth, a) = ctrl_wire (f_op f)).
      { apply (ctrl_call_wire servers (f_op f) ps s meth a); [|exact Hn]. destruct ps; [apply Hfo|done]. }
      rewrite <- Hwire. by exists e, c, r.
  - intros σ f Hr Hf. assert (Ho : sys_ok (P := kv_program ctrlers) marsh' unm' σ).
    { eapply (runs_ok decode encode marsh' unm' (kv_dial ends)); [apply kv_dial_ok|done|exact Hr]. }
    split.
    + destruct (log_entry _ _ σ f Ho Hf) as (m & m' & ps & _ & Ht & Hn). exists m, m'.
      apply thread_follows in Ht. eapply (kv_follows ctrlers (f_op f) m) in Ht; [|done].
      destruct ps as [op' c1 [|sn todo]|op' [|j todo]|v c']; simpl in Hn; simplify_eq. exact Ht.
    + intros i s o Hin. destruct (finished_calls _ _ σ f i s o Ho Hf Hin)
        as (m & tr & ps & e & meth & a & c & r & Hfo & Hn & Hc & Hreq & Hp & ->).
      eapply (kv_follows ctrlers (f_op f) m) in Hfo; [|done].
      pose proof (kv_call_wire ctrlers _ _ _ _ _ _ _ Hfo Hn) as Hwire.
      rewrite <- Hwire. by exists e, c, r.
Qed.


Context (sort : forall A, (A -> A -> bool) -> list A -> list A) `{!GoSort sort}.
Context (good : gmap string (@Service App HArg HRep) -> Prop) (abs : App -> gmap string string).

(** C5: clerks, network, server and checker together: when the servers of the sharded
    key/value service implement a store that is empty at first, and the network is reliable and
    connected, [CheckOperations] returns on every log that the clients leave when they are done,
    and accepts it, provided that it is not empty (and shorter than 2^63). *)
Theorem reliable_test_passes (ends : nat -> list string) (ctrlers : list nat)
    (marsh : CtrlArgs + KvArgs -> ArgType * list byte) (unm : string -> list byte -> kv_reply)
    home w ms
    (σ : @sys string _ _ App HArg HRep ArgType kv_op string ShardConfig (@kv_state nat) (kv_server nat) kv_reply) :
  Implements (Name := string) (P := kv_program ctrlers) decode encode marsh unm good abs kv_spec ->
  fresh_world decode encode w -> abs (app w) = ∅ ->
  runs (P := kv_program ctrlers) decode encode marsh unm (kv_dial ends)
    (λ σ, good_heap good σ ∧ all_healthy home σ) (init w ms) σ ->
  quiet σ -> log σ ≠ [] -> Z.of_nat (length (log σ)) < 2 ^ 63 ->
  (∃ b, CheckOperations sort (KvModel sort) (kv_operation <$> log σ) b) ∧
  forall b, CheckOperations sort (KvModel sort) (kv_operation <$> log σ) b -> b = true.
Proof.
  intros Hi Hw He Hr Hq Hne Hlen. assert (Ho : sys_ok (P := kv_program ctrlers) marsh unm σ).
  { eapply (runs_ok decode encode marsh unm (kv_dial ends)); [apply kv_dial_ok|done|exact Hr]. }
  assert (Hl : store_linearizable (kv_operation <$> log σ)).
  { apply linearizes_store. rewrite <- He.
    apply (reliable_linearizable (P := kv_program ctrlers) decode encode marsh unm (kv_dial ends)
      (kv_dial_ok ends) good abs kv_spec Hi home w ms σ Hw Hr Hq). }
  assert (Hh : kv_history (kv_operation <$> log σ)).
  { split; [|by rewrite length_fmap]. apply Forall_fmap, Forall_forall. intros f Hf.
    split; [|done]. by destruct (log_entry _ _ σ f Ho Hf) as (? & ? & ? & ? & _). }
  destruct (kv_check sort _ (kv_operation <$> log σ) Hh) as [Hex Hb]; [by destruct (log σ)|].
  split; [done|]. intros b Hc. by apply (Hb b Hc).
Qed.
End Repo.

(** ** A reply that is lost *)

Import KvDemo.

Lemma lossy_not_linearizable : ¬ store_linearizable lossy_log.
Proof.
  intros (τ & Hp & Hl & _). symmetry in Hp. apply Permutation_length_2_inv in Hp as [-> | ->];
    inversion Hl as [|? ? i o m' ? Hi Ho Hs Hl']; subst; simplify_eq/=;
    inversion Hs; simplify_eq/=; try lia.
  inversion Hl' as [|? ? i o m2 ? Hi Ho Hs' _]; subst; simplify_eq/=.
  inversion Hs'; simplify_eq/=.
Qed.

(** C14: the clerks of [shardkv/client.go] repeat an operation whose reply was lost, and nothing
    below them notices.  For all servers that implement the store and all networks, the store is
    the effect of every dispatch whose reply would end its operation, one after the other, whether
    or not the reply arrived ([commits]).  And there are such a server and a run over an
    unreliable network in which one client appends "x" once and then reads: the handler of the
    first call of the [Append] runs and answers [OK], but the call fails; the clerk calls again;
    [Get] returns "xx", and [CheckOperations] rejects the log.  A server has to detect the
    repetition itself. *)
Theorem lost_reply_repeats (sort : forall A, (A -> A -> bool) -> list A -> list A) `{!GoSort sort} :
  (forall (App HArg HRep ArgType : Type) (decode : ArgType -> list byte -> HArg)
     (encode : HRep -> list byte) good (abs : App -> gmap string string) ends ctrlers
     (marsh : CtrlArgs + KvArgs -> ArgType * list byte) (unm : string -> list byte -> kv_reply) w ms
     (σ : @sys string _ _ App HArg HRep ArgType kv_op string ShardConfig (@kv_state nat) (kv_server nat) kv_reply),
   Implements (Name := string) (P := kv_program ctrlers) decode encode marsh unm good abs kv_spec ->
   fresh_world decode encode w ->
   runs (P := kv_program ctrlers) decode encode marsh unm (kv_dial ends) (good_heap good) (init w ms) σ ->
   explained kv_spec (abs (app w)) (commits (P := kv_program ctrlers) unm σ).*2 (abs (app (wld σ)))) ∧
  Implements (Name := string) dec enc marsh unm good (id : state -> state) kv_spec ∧
  ∃ (σ : dsys) fa fg i j r r', let put_ok := RepPut (MkPutAppendReply OK) in
    runs dec enc marsh unm (kv_dial ctrl_ends) (good_heap good) (init (w0 false) [demo_config]) σ ∧ quiet σ ∧
    log σ = [fa; fg] ∧ f_op fa = OpAppend "k" "x" ∧ f_op fg = OpGet "k" ∧ f_res fg = "xx" ∧
    i ≠ j ∧ (i, 0%nat, r) ∈ executed (wld σ) ∧ (j, 0%nat, r') ∈ executed (wld σ) ∧
    outcome unm "ShardKV.PutAppend" r = Some put_ok ∧ (i, (Member "s", None)) ∈ f_trace fa ∧
    outcome unm "ShardKV.PutAppend" r' = Some put_ok ∧ (j, (Member "s", Some put_ok)) ∈ f_trace fa ∧
    (∃ b, CheckOperations sort (KvModel sort) (kv_operation <$> log σ) b) ∧
    forall b, CheckOperations sort (KvModel sort) (kv_operation <$> log σ) b -> b = false.
Proof.
  split_and!; [|apply demo_implements|].
  - intros App HArg HRep ArgType decode encode gd abs ends ctrlers msh unmsh w ms σ Hi Hw Hr.
    eapply (runs_explained (P := kv_program ctrlers) decode encode msh unmsh (kv_dial ends)
      (kv_dial_ok ends) gd abs kv_spec _ _ ms σ); [|exact Hw|exact Hr]. done.
  - destruct lossy_run as (σ & Hr & Hl & He & Hq).
    exists σ, lossy_append, lossy_get, 0%nat, 2%nat, (ReplyMsg true [x00]), (ReplyMsg true [x00]).
    assert (Hlog : kv_operation <$> log σ = lossy_log) by by rewrite Hl.
    rewrite Hlog, Hl, He. unfold lossy_executed, lossy_append. cbn [f_trace].
    split_and!; try done; try set_solver;
      (destruct (kv_check sort _ lossy_log) as [Hex Hb];
        [split; [repeat constructor; simpl; lia|simpl; lia]|done|]); [done|].
    intros [] Hc; [|done]. destruct lossy_not_linearizable. by apply (Hb true).
Qed.

(** ** Witnesses *)

Lemma runs_weaken {Name : Type} `{Countable Name} {App HArg HRep ArgType : Type}
    {Op Res Mem PS Srv Args Rep : Type} {P : Program Op Res Mem PS Srv Args Rep}
    (decode : ArgType -> list byte -> HArg) (encode : HRep -> list byte)
    (marshal : Args -> ArgType * list byte) (unmarshal : string -> list byte -> Rep) dial
    (Q Q' : @sys Name _ _ App HArg HRep ArgType Op Res Mem PS Srv Rep -> Prop) σ σ' :
  (forall σ, Q σ -> Q' σ) -> runs decode encode marshal unmarshal dial Q σ σ' ->
  runs decode encode marshal unmarshal dial Q' σ σ'.
Proof. intros HQ. apply rtc_subrel. intros σ1 σ2 [? ?]. auto. Qed.

Lemma operation_effects_witness :
  ∃ (σ : dsys) f, f ∈ log σ ∧ (length (dispatches_of σ f) <= length (f_trace f))%nat.
Proof.
  destruct healthy_run as (σ & Hr & Hl & _). destruct (log σ) as [|f l] eqn:E.
  { unfold ops_of in Hl. by rewrite E in Hl. }
  exists σ, f. split; [rewrite E; left|].
  apply (operation_effects dec enc marsh unm (kv_dial ctrl_ends) (kv_dial_ok ctrl_ends) _ _ _ σ f
    (w0_fresh true) Hr). rewrite E. left.
Defined.

Lemma lossless_linearizable_witness :
  ∃ σ : dsys, ops_of σ = [entry 0 1 "v" "" 1 2] ∧ linearizes kv_spec ∅ (log σ).
Proof.
  destruct retry_run as (σ & Hr & Hl & Hq & Hll). exists σ. split; [done|].
  exact (lossless_linearizable dec enc marsh unm (kv_dial ctrl_ends) (kv_dial_ok ctrl_ends) good
    id kv_spec demo_implements _ _ _ σ (λ _, id) (w0_fresh false) Hr Hq Hll).
Defined.

Lemma reliable_linearizable_witness :
  ∃ σ : dsys, ops_of σ = healthy_log ∧ linearizes kv_spec ∅ (log σ).
Proof.
  destruct healthy_run as (σ & Hr & Hl & Hq). exists σ. split; [done|].
  exact (proj1 (reliable_linearizable dec enc marsh unm (kv_dial ctrl_ends) (kv_dial_ok ctrl_ends) good
    id kv_spec demo_implements home _ _ σ (w0_fresh true) Hr Hq)).
Defined.


Lemma clerks_over_network_witness :
  ∃ (σ : dsys) f, f ∈ log σ ∧
    ∃ config config', kv_report [0%nat] (f_op f) config (f_trace f).*2 (f_res f) config'.
Proof.
  destruct lossy_run as (σ & Hr & Hl & _). exists σ, lossy_append. split; [rewrite Hl; left|].
  apply (proj2 (clerks_over_network dec enc ctrl_ends [0%nat] [0%nat] (λ a, marsh (inl a))
    (λ _ _, RepCtrl (MkCtrlReply true "")) marsh unm (w0 false) [tt] [demo_config] (w0_fresh false)) σ lossy_append).
  - by eapply runs_weaken; [|exact Hr].
  - rewrite Hl. left.
Defined.

Lemma reliable_test_passes_witness :
  ∃ σ : dsys, ops_of σ = healthy_log ∧
    forall b, CheckOperations insertion_sort (KvModel insertion_sort) (kv_operation <$> log σ) b -> b = true.
Proof.
  destruct healthy_run as (σ & Hr & Hl & Hq). exists σ. split; [done|].
  assert (Hlen : length (log σ) = 3%nat) by (unfold ops_of in Hl; apply (f_equal length) in Hl;
    by rewrite length_fmap in Hl).
  apply (reliable_test_passes dec enc insertion_sort good id ctrl_ends [0%nat] marsh unm home (w0 true)
    [demo_config; demo_config] σ demo_implements (w0_fresh true) eq_refl Hr Hq).
  - by destruct (log σ).
  - rewrite Hlen. lia.
Defined.

Lemma lost_reply_repeats_witness :
  ∃ σ : dsys, forall b,
    CheckOperations insertion_sort (KvModel insertion_sort) (kv_operation <$> log σ) b -> b = false.
Proof.
  destruct (lost_reply_repeats insertion_sort) as (_ & _ & σ & fa & fg & i & j & r & r' & H). exists σ.
  cbv zeta in H. by destruct_and! H.
Defined.
