(* ===== verification/Random.v ===== *)
(** * Randomness of the harnesses

    [randstring] and [makeSeed], of which each [config.go] has its copy, and the shuffle
    [random_handles].  Random bytes and numbers are arguments.  The theorems say how much of the
    randomness reaches the result: other files assume fresh names and any order of handles. *)
From S2P Require Import Prelude Labrpc Mesh KvConfig.
From Stdlib Require Import Strings.Byte Strings.Ascii.

#[local] Open Scope list_scope.

Import KvConfig.

Module Random.

(** ** [encoding/base64]: [URLEncoding.EncodeToString] *)

Definition encodeURL : string := "ABCDEFGHIJKLMNOPQRSTUVWXYZabcdefghijklmnopqrstuvwxyz0123456789-_".

Definition enc_char (x : N) : ascii := default "="%char (String.get (N.to_nat x) encodeURL).

(** Three bytes in 24 bits, and the 6 bits from bit [6 * k] on. *)
Definition val3 (a b c : N) : N := N.lor (N.shiftl a 16) (N.lor (N.shiftl b 8) c).
Definition sextet (v k : N) : N := N.land (N.shiftr v (6 * k)) 63.

(** The values of the characters, without the padding. *)
Fixpoint sextets (src : list byte) : list N :=
  match src with
  | [] => []
  | [a] => let v := val3 (Byte.to_N a) 0 0 in [sextet v 3; sextet v 2]
  | [a; b] => let v := val3 (Byte.to_N a) (Byte.to_N b) 0 in [sextet v 3; sextet v 2; sextet v 1]
  | a :: b :: c :: src' =>
      let v := val3 (Byte.to_N a) (Byte.to_N b) (Byte.to_N c) in
      sextet v 3 :: sextet v 2 :: sextet v 1 :: sextet v 0 :: sextets src'
  end.

Definition EncodeToString (src : list byte) : list ascii :=
  let cs := enc_char <$> sextets src in
  cs ++ match length src mod 3 with 1 => ["="; "="]%char | 2 => ["="]%char | _ => [] end.

(** ** The harnesses *)

(** [b] are the bytes that [crand.Read] puts into the slice of [2*n]; [s[0:n]] panics when the
    string is too short. *)
Definition randstring (n : nat) (b : list byte) : option string :=
  let s := EncodeToString b in
  if decide (n ≤ length s) then Some (String.string_of_list_ascii (take n s)) else None.

(** [bigx] is what [crand.Int] returned. *)
Definition makeSeed (bigx : Z) : Z := signed 64 bigx.

(** ** Bits *)

Definition bits (k : nat) (x : N) : list bool := (λ i, N.testbit x (N.of_nat i)) <$> reverse (seq 0 k).

Definition byte_bits (src : list byte) : list bool := src ≫= λ b, bits 8 (Byte.to_N b).

Lemma length_bits k x : length (bits k x) = k.
Proof. unfold bits. by rewrite length_fmap, length_reverse, length_seq. Qed.

Lemma bits_inj k x y : (x < 2 ^ N.of_nat k)%N -> (y < 2 ^ N.of_nat k)%N -> bits k x = bits k y -> x = y.
Proof.
  intros Hx Hy Hb. apply N.bits_inj. intros i. destruct (decide (i < N.of_nat k)%N) as [Hi|Hi].
  - assert (Hin : N.to_nat i ∈ reverse (seq 0 k)) by (apply elem_of_reverse, elem_of_seq; lia).
    apply list_elem_of_lookup in Hin as [j Hj].
    pose proof (f_equal (λ l, l !! j) Hb) as E. unfold bits in E. simpl in E.
    rewrite !list_lookup_fmap, Hj in E. simpl in E. rewrite N2Nat.id in E. congruence.
  - assert (Hz : forall z, (z < 2 ^ N.of_nat k)%N -> N.testbit z i = false); [|by rewrite !Hz].
    intros z Hz. destruct (decide (z = 0%N)) as [->|Hne]; [apply N.bits_0|].
    apply N.bits_above_log2. apply N.log2_lt_pow2 in Hz; lia.
Qed.

Lemma byte_high (b : byte) i : (8 <= i)%N -> N.testbit (Byte.to_N b) i = false.
Proof.
  intros Hi. destruct (decide (Byte.to_N b = 0%N)) as [->|Hne]; [apply N.bits_0|].
  apply N.bits_above_log2. pose proof (Byte.to_N_bounded b) as Hb.
  assert (N.log2 (Byte.to_N b) < 8)%N; [|lia]. apply N.log2_lt_pow2; lia.
Qed.

(** What the encoder uses of its bytes. *)
Definition small (x : N) : Prop := forall i, (8 <= i)%N -> N.testbit x i = false.

Lemma val3_bit a b c i :
  small b -> small c -> (i < 24)%N ->
  N.testbit (val3 a b c) i =
    if decide (i < 8)%N then N.testbit c i
    else if decide (i < 16)%N then N.testbit b (i - 8) else N.testbit a (i - 16).
Proof.
  intros Hb Hc Hi. unfold val3. rewrite !N.lor_spec.
  destruct (decide (i < 8)%N); [rewrite !N.shiftl_spec_low by lia; done|].
  rewrite (Hc i) by lia. rewrite orb_false_r, (N.shiftl_spec_high' b) by lia.
  destruct (decide (i < 16)%N); [rewrite N.shiftl_spec_low by lia; done|].
  rewrite (Hb (i - 8)%N) by lia. by rewrite orb_false_r, N.shiftl_spec_high' by lia.
Qed.

Lemma sextet_bits v k :
  bits 6 (sextet v k) = (λ i, N.testbit v (6 * k + N.of_nat i)) <$> reverse (seq 0 6).
Proof.
  unfold bits, sextet. apply list_fmap_ext. intros _ i Hi%list_elem_of_lookup_2.
  apply elem_of_reverse, elem_of_seq in Hi.
  rewrite N.land_spec, N.shiftr_spec', (N.add_comm _ (6 * k)).
  replace (N.testbit 63 (N.of_nat i)) with true; [by rewrite andb_true_r|].
  destruct i as [|[|[|[|[|[|i]]]]]]; try done. lia.
Qed.

Lemma sextet_bound v k : (sextet v k < 64)%N.
Proof. unfold sextet. change 63%N with (N.ones 6). rewrite N.land_ones. apply N.mod_lt. lia. Qed.

(** Four characters carry the bits of three bytes. *)
Lemma four_sextets a b c :
  small a -> small b -> small c ->
  bits 6 (sextet (val3 a b c) 3) ++ bits 6 (sextet (val3 a b c) 2) ++
  bits 6 (sextet (val3 a b c) 1) ++ bits 6 (sextet (val3 a b c) 0) = bits 8 a ++ bits 8 b ++ bits 8 c.
Proof.
  intros Ha Hb Hc. rewrite !sextet_bits. unfold bits. cbn [seq reverse rev_append rev' fmap list_fmap].
  simpl. rewrite !val3_bit by (done || lia). simpl. reflexivity.
Qed.

Definition zero_bits (k : nat) : list bool := replicate k false.

(** Missing bytes are zero. *)
Lemma low_sextets a b :
  small b -> bits 6 (sextet (val3 a b 0) 0) = zero_bits 6 ∧ bits 6 (sextet (val3 a 0 0) 1) = zero_bits 6.
Proof.
  intros Hb. assert (H0 : small 0) by (intros i _; apply N.bits_0).
  rewrite !sextet_bits. simpl. by rewrite !val3_bit by (done || lia).
Qed.

Lemma sextets_bits src :
  ∃ k, (sextets src ≫= bits 6) = byte_bits src ++ zero_bits k.
Proof.
  induction src as [src IH] using (induction_ltof1 _ (@length byte)).
  assert (Hs : forall b, small (Byte.to_N b)) by (intros b i; apply byte_high).
  assert (H0 : small 0) by (intros i _; apply N.bits_0).
  destruct src as [|a [|b [|c src]]].
  - by exists 0.
  - exists 4. pose proof (four_sextets (Byte.to_N a) 0 0 (Hs a) H0 H0) as E.
    unfold byte_bits. cbn [sextets mbind list_bind]. rewrite !app_nil_r.
    destruct (low_sextets (Byte.to_N a) 0 H0) as [E0 E1]. rewrite E0, E1 in E.
    apply (app_inv_tail (zero_bits 12)). rewrite <- !app_assoc. exact E.
  - exists 2. pose proof (four_sextets (Byte.to_N a) (Byte.to_N b) 0 (Hs a) (Hs b) H0) as E.
    unfold byte_bits. cbn [sextets mbind list_bind]. rewrite !app_nil_r.
    destruct (low_sextets (Byte.to_N a) (Byte.to_N b) (Hs b)) as [E0 _]. rewrite E0 in E.
    apply (app_inv_tail (zero_bits 6)). rewrite <- !app_assoc. exact E.
  - destruct (IH src) as [k Hk]; [unfold ltof; simpl; lia|]. exists k.
    pose proof (four_sextets (Byte.to_N a) (Byte.to_N b) (Byte.to_N c) (Hs a) (Hs b) (Hs c)) as E.
    unfold byte_bits in *. cbn [sextets mbind list_bind]. fold (sextets src).
    rewrite !app_assoc in *. rewrite E, <- !app_assoc. by rewrite Hk.
Qed.

(** ** Random strings *)

Lemma enc_char_inj x y : (x < 64)%N -> (y < 64)%N -> enc_char x = enc_char y -> x = y.
Proof.
  intros Hx Hy He.
  assert (Hall : forallb (λ a, forallb (λ b,
    bool_decide (enc_char a = enc_char b -> a = b)) (N.of_nat <$> seq 0 64)) (N.of_nat <$> seq 0 64) = true).
  { vm_compute. reflexivity. }
  assert (Hin : forall z, (z < 64)%N -> In z (N.of_nat <$> seq 0 64)).
  { intros z Hz. apply list_elem_of_In, list_elem_of_fmap. exists (N.to_nat z).
    split; [by rewrite N2Nat.id|]. apply elem_of_seq. lia. }
  rewrite forallb_forall in Hall. specialize (Hall x (Hin x Hx)).
  rewrite forallb_forall in Hall. specialize (Hall y (Hin y Hy)).
  by apply bool_decide_eq_true in Hall; apply Hall.
Qed.

(** The characters that are safe in URLs: digits, letters, and two others instead of [+] and [/]. *)
Definition url_char (c : ascii) : bool :=
  let x := nat_of_ascii c in
  (48 <=? x) && (x <=? 57) || (65 <=? x) && (x <=? 90) || (97 <=? x) && (x <=? 122) || (x =? 45) || (x =? 95).

Lemma enc_char_url x : (x < 64)%N -> url_char (enc_char x) = true.
Proof.
  intros Hx. assert (Hall : forallb (λ a, url_char (enc_char a)) (N.of_nat <$> seq 0 64) = true)
    by (vm_compute; reflexivity).
  rewrite forallb_forall in Hall. apply Hall, list_elem_of_In, list_elem_of_fmap. exists (N.to_nat x).
  split; [by rewrite N2Nat.id|]. apply elem_of_seq. lia.
Qed.

Lemma sextets_small src : Forall (λ x, (x < 64)%N) (sextets src).
Proof.
  induction src as [src IH] using (induction_ltof1 _ (@length byte)).
  destruct src as [|a [|b [|c src]]]; cbn [sextets]; repeat (constructor; [apply sextet_bound|]);
    [constructor..|]. apply IH. unfold ltof. simpl. lia.
Qed.

Lemma length_bind_const {A B} (f : A -> list B) k (l : list A) :
  (forall x, length (f x) = k) -> length (l ≫= f) = k * length l.
Proof.
  intros Hf. induction l as [|x l IH]; [simpl; lia|]. rewrite bind_cons, length_app, Hf, IH. simpl. lia.
Qed.

Lemma take_bind {A B} (f : A -> list B) k n (l : list A) :
  (forall x, length (f x) = k) -> take (k * n) (l ≫= f) = take n l ≫= f.
Proof.
  intros Hf. revert n. induction l as [|x l IH]; intros n; [simpl; by rewrite !take_nil|].
  destruct n as [|n]; [by rewrite Nat.mul_0_r|]. cbn [take]. rewrite !bind_cons, <- IH.
  rewrite take_app, Hf, (take_ge (f x)) by (rewrite Hf; lia). do 2 f_equal. lia.
Qed.

Lemma bits_list_inj k (l l' : list N) :
  Forall (λ x, (x < 2 ^ N.of_nat k)%N) l -> Forall (λ x, (x < 2 ^ N.of_nat k)%N) l' ->
  length l = length l' -> (l ≫= bits k) = (l' ≫= bits k) -> l = l'.
Proof.
  revert l'. induction l as [|x l IH]; intros [|y l'] Hl Hl' Hlen Hb; try done.
  apply Forall_cons in Hl as [Hx Hl]. apply Forall_cons in Hl' as [Hy Hl'].
  rewrite !bind_cons in Hb. apply app_inj_1 in Hb as [Hxy Hb]; [|by rewrite !length_bits].
  f_equal; [by eapply bits_inj|]. apply IH; [done|done|simpl in Hlen; lia|done].
Qed.

(** The characters of a random string and the bits that they come from. *)
Lemma randstring_chars n b :
  length b = 2 * n ->
  randstring n b = Some (String.string_of_list_ascii (enc_char <$> take n (sextets b))) ∧
  length (take n (sextets b)) = n ∧
  (take n (sextets b) ≫= bits 6) = take (6 * n) (byte_bits b).
Proof.
  intros Hb. destruct (sextets_bits b) as [k Hk].
  assert (Hlb : length (byte_bits b) = 16 * n).
  { unfold byte_bits. rewrite (length_bind_const _ 8) by (intros; apply length_bits). lia. }
  assert (Hls : 16 * n ≤ 6 * length (sextets b)).
  { apply (f_equal length) in Hk. rewrite length_app in Hk.
    rewrite (length_bind_const _ 6) in Hk by (intros; apply length_bits). lia. }
  split_and!.
  - unfold randstring, EncodeToString. rewrite decide_True by (rewrite length_app, length_fmap; lia).
    by rewrite take_app_le, fmap_take by (rewrite length_fmap; lia).
  - rewrite length_take. lia.
  - rewrite <- (take_bind _ 6) by (intros; apply length_bits). rewrite Hk.
    apply take_app_le. lia.
Qed.

(** ** The shuffle *)

Definition swap {A} (sa : list A) (i j : nat) : list A :=
  match sa !! i, sa !! j with Some x, Some y => <[j := x]> (<[i := y]> sa) | _, _ => sa end.

Lemma swap_lookup {A} (sa : list A) i j k :
  i < length sa -> j < length sa ->
  swap sa i j !! k = if decide (k = j) then sa !! i else if decide (k = i) then sa !! j else sa !! k.
Proof.
  intros Hi Hj. destruct (lookup_lt_is_Some_2 sa i Hi) as [x Hx], (lookup_lt_is_Some_2 sa j Hj) as [y Hy].
  unfold swap. rewrite Hx, Hy. destruct (decide (k = j)) as [->|Hkj].
  - by rewrite list_lookup_insert_eq by (by rewrite length_insert).
  - rewrite list_lookup_insert_ne by done. destruct (decide (k = i)) as [->|Hki].
    + by rewrite list_lookup_insert_eq.
    + by rewrite list_lookup_insert_ne.
Qed.

Lemma length_swap {A} (sa : list A) i j : length (swap sa i j) = length sa.
Proof. unfold swap. repeat case_match; by rewrite ?length_insert. Qed.

Lemma swap_swap {A} (sa : list A) i j :
  i < length sa -> j < length sa -> swap (swap sa i j) i j = sa.
Proof.
  intros Hi Hj. apply list_eq. intros k. rewrite swap_lookup by (by rewrite length_swap).
  rewrite !swap_lookup by done. repeat case_decide; congruence.
Qed.

Lemma swap_Permutation {A} (sa : list A) i j : swap sa i j ≡ₚ sa.
Proof.
  unfold swap. destruct (sa !! i) eqn:Hi; [|done]. destruct (sa !! j) eqn:Hj; [|done].
  by apply swap_perm.
Qed.

Lemma shuffle_snoc {A} (sa : list A) i js j :
  shuffle sa i (js ++ [j]) = swap (shuffle sa i js) (i + length js) j.
Proof.
  revert sa i. induction js as [|j' js IH]; intros sa i; simpl; [by rewrite Nat.add_0_r|].
  rewrite IH. f_equal. lia.
Qed.

(** What [rand.Intn(i + 1)] can return in the iterations from [i] on. *)
Definition choices (i : nat) (js : list nat) : Prop := forall k j, js !! k = Some j -> j ≤ i + k.

Lemma shuffle_prefix {A} (sa : list A) r i js :
  choices i js -> i + length js ≤ length sa -> shuffle (sa ++ r) i js = shuffle sa i js ++ r.
Proof.
  revert sa i. induction js as [|j js IH]; intros sa i Hc Hl; simpl in *; [done|].
  assert (Hj : j ≤ i) by (specialize (Hc 0 j eq_refl); lia).
  assert (Hc' : choices (S i) js) by (intros k j' Hk; specialize (Hc (S k) j' Hk); lia).
  rewrite !lookup_app_l by lia.
  destruct (lookup_lt_is_Some_2 sa i) as [x ->]; [lia|].
  destruct (lookup_lt_is_Some_2 sa j) as [y ->]; [lia|].
  rewrite !insert_app_l by (rewrite ?length_insert; lia). apply IH; [done|].
  rewrite !length_insert. lia.
Qed.

Lemma choices_snoc i js j : choices i (js ++ [j]) <-> choices i js ∧ j ≤ i + length js.
Proof.
  split.
  - intros Hc. split.
    + intros k j' Hk. apply Hc. by apply lookup_app_l_Some.
    + apply Hc. by rewrite list_lookup_middle.
  - intros [Hc Hj] k j' [Hk|[Hge Hk]]%lookup_app_Some; [by apply Hc|].
    apply list_lookup_singleton_Some in Hk as [Hk <-]. lia.
Qed.

(** One iteration: the new handle and the one it is exchanged with. *)
Lemma handles_snoc {A} (xs : list A) x js j :
  choices 0 js -> length js = length xs ->
  random_handles (xs ++ [x]) (js ++ [j]) = swap (random_handles xs js ++ [x]) (length xs) j.
Proof.
  intros Hc Hl. unfold random_handles. rewrite shuffle_snoc, shuffle_prefix by (done || lia).
  by rewrite Hl.
Qed.

Lemma length_handles {A} (xs : list A) js : length (random_handles xs js) = length xs.
Proof. apply Permutation_length, shuffle_perm. Qed.

(** The last iteration can be undone in one way: the new handle is where it was put. *)
Lemma last_swap {A} (xs l : list A) x :
  NoDup (xs ++ [x]) -> l ≡ₚ xs ++ [x] ->
  ∃ j ys, j ≤ length xs ∧ ys ≡ₚ xs ∧ swap (ys ++ [x]) (length xs) j = l ∧
    forall j' ys', length ys' = length xs -> j' ≤ length xs ->
      swap (ys' ++ [x]) (length xs) j' = l -> j' = j ∧ ys' = ys.
Proof.
  intros Hn Hp. assert (Hlen : length l = S (length xs)) by (rewrite Hp, length_app; simpl; lia).
  assert (Hin : x ∈ l) by (rewrite Hp; set_solver).
  apply list_elem_of_lookup in Hin as [j Hj]. apply lookup_lt_Some in Hj as Hjl.
  assert (Hlast : swap l (length xs) j !! length xs = Some x).
  { rewrite swap_lookup by lia. repeat case_decide; congruence. }
  assert (Hys : swap l (length xs) j = take (length xs) (swap l (length xs) j) ++ [x]).
  { rewrite <- (take_drop_middle _ _ _ Hlast) at 1. do 2 f_equal.
    apply drop_ge. rewrite length_swap. lia. }
  set (ys := take _ _) in Hys. exists j, ys. split_and!; [lia| | |].
  - apply (Permutation_app_inv_r [x]). by rewrite <- Hys, swap_Permutation.
  - rewrite <- Hys. apply swap_swap; lia.
  - intros j' ys' Hl' Hj' Hs.
    assert (Hls : length (ys' ++ [x]) = S (length xs)) by (rewrite length_app; simpl; lia).
    assert (j' = j) as ->.
    { apply (NoDup_lookup l j' j x); [by rewrite Hp|rewrite <- Hs|done].
      rewrite swap_lookup by lia. rewrite decide_True by done.
      by rewrite list_lookup_middle by done. }
    split; [done|]. apply (app_inv_tail [x]). rewrite <- Hys, <- Hs. symmetry. apply swap_swap; lia.
Qed.

Lemma length_string (l : list ascii) : String.length (String.string_of_list_ascii l) = length l.
Proof. induction l as [|c l IH]; simpl; [done|]. by rewrite IH. Qed.

End Random.
Import Random.

(** C32: the name of an end is [n] characters, each a letter, a digit, "-" or "_", and two names are equal exactly
    when the first [6 * n] random bits are: [randstring(20)] draws 120 bits of the 320 it asks
    for.  [makeSeed] keeps all its 62 bits. *)
Theorem randstring_correct n b b' bigx bigx' :
  length b = 2 * n -> length b' = 2 * n -> (0 <= bigx < 2 ^ 62)%Z -> (0 <= bigx' < 2 ^ 62)%Z ->
  (∃ s, randstring n b = Some s ∧ String.length s = n ∧
    Forall (λ c, url_char c = true) (String.list_ascii_of_string s)) ∧
  (randstring n b = randstring n b' <-> take (6 * n) (byte_bits b) = take (6 * n) (byte_bits b')) ∧
  (makeSeed bigx = makeSeed bigx' <-> bigx = bigx').
Proof.
  intros Hb Hb' Hx Hx'. destruct (randstring_chars n b Hb) as (-> & Hl & Ht).
  destruct (randstring_chars n b' Hb') as (-> & Hl' & Ht'). rewrite <- Ht, <- Ht'. split_and!.
  - eexists. split; [done|]. rewrite length_string, length_fmap. split; [done|].
    rewrite String.list_ascii_of_string_of_list_ascii. apply Forall_fmap.
    eapply Forall_impl; [apply Forall_take, sextets_small|]. intros x. apply enc_char_url.
  - split; [|by intros E; do 3 f_equal; apply (bits_list_inj 6);
      [apply Forall_take, sextets_small..|congruence|]].
    intros [= E]. apply (f_equal String.list_ascii_of_string) in E.
    rewrite !String.list_ascii_of_string_of_list_ascii in E. f_equal.
    pose proof (Forall_take _ n _ (sextets_small b)) as S1.
    pose proof (Forall_take _ n _ (sextets_small b')) as S2. clear - E S1 S2.
    revert E S1 S2. generalize (take n (sextets b)), (take n (sextets b')).
    induction l as [|x l IH]; intros [|y l'] E S1 S2; try done. simpl in E.
    apply Forall_cons in S1 as [H1 S1]. apply Forall_cons in S2 as [H2 S2].
    injection E as Exy E. f_equal; [by apply enc_char_inj|by apply IH].
  - unfold makeSeed. rewrite !signed_small by lia. done.
Qed.

(** The shuffle of the handles is uniform: every order of different handles comes from
    exactly one sequence of the numbers that [rand.Intn(i + 1)] can return. *)
Theorem random_handles_uniform {A} (kvh l : list A) :
  NoDup kvh -> l ≡ₚ kvh ->
  exists! js, choices 0 js ∧ length js = length kvh ∧ random_handles kvh js = l.
Proof.
  revert l. induction kvh as [|x xs IH] using rev_ind; intros l Hn Hp.
  { apply Permutation_nil_r in Hp as ->. exists []. split; [by split|].
    intros js (_ & Hl & _). by apply nil_length_inv in Hl. }
  destruct (last_swap xs l x Hn Hp) as (j & ys & Hj & Hpy & Hs & Hun).
  apply NoDup_app in Hn as (Hn & _ & _).
  destruct (IH ys Hn Hpy) as (js & (Hc & Hljs & Hr) & Huniq).
  exists (js ++ [j]). split; [split_and!|].
  - apply choices_snoc. split; [done|lia].
  - rewrite !length_app. simpl. lia.
  - by rewrite handles_snoc, Hr.
  - intros js' (Hc' & Hl' & Hr'). rewrite length_app in Hl'. simpl in Hl'.
    destruct js' as [|j' js' _] using rev_ind; [simpl in Hl'; lia|].
    rewrite length_app in Hl'. simpl in Hl'. apply choices_snoc in Hc' as [Hc' Hj'].
    rewrite handles_snoc in Hr' by (done || lia).
    destruct (Hun j' (random_handles xs js')) as [-> Hys]; [apply length_handles|lia|done|].
    f_equal. apply Huniq. split_and!; [done|lia|done].
Qed.

Lemma randstring_correct_witness :
  ∃ s, randstring 2 [x00; x10; x83; xff] = Some s ∧ String.length s = 2 ∧
    Forall (λ c, url_char c = true) (String.list_ascii_of_string s).
Proof.
  apply (randstring_correct 2 [x00; x10; x83; xff] [x00; x10; x83; xff] 0 1); [reflexivity..|lia|lia].
Defined.

Lemma random_handles_uniform_witness :
  exists! js, choices 0 js ∧ length js = 3 ∧ random_handles [1; 2; 3] js = [2; 3; 1].
Proof.
  apply (random_handles_uniform [1; 2; 3] [2; 3; 1]).
  - apply (bool_decide_unpack _). vm_compute. exact I.
  - apply (bool_decide_unpack _). vm_compute. exact I.
Defined.
